(* ===== verification/_CoqProject ===== *)
-Q . S2P
Prelude.v
GoStrings.v
GoBytes.v
Sha256.v
S3.v
Platform.v
MemWorld.v
Snapshot.v
IndexFormat.v
Invalidation.v
GCPlan.v
Json.v
UsageStats.v
Sizes.v
GC.v
GCSnapshots.v
Http.v
HandlerLogic.v
Hijack.v
ChunkUpload.v
ChunkFlight.v
Session.v
IndexWriter.v
DynamicIndex.v
Transfer.v
Cache.v
CacheInvalidation.v
Manifest.v
Listing.v
WorkerPool.v
Auth.v
Logins.v
Admin.v
Serve.v
BackupSession.v
Conversation.v
SessionRace.v
SessionAlone.v
SessionLock.v
Flags.v
Startup.v
DataStore.v
Restored.v
ArchiveBackup.v
