(* ===== verification/Prelude.v ===== *)
(** * pmoxs3backuproxy: a verification library (root file)

    pmoxs3backuproxy lets Proxmox VE store backups in an S3 bucket.  Two programs
    share the bucket.  The proxy ([src/cmd/pmoxs3backuproxy]) speaks the API of a
    Proxmox Backup Server: over HTTP/1 it answers the storage plugin - tickets,
    listings, notes, protection, deletion, usage - and after a protocol upgrade it
    serves one backup or restore session over HTTP/2, in which a client uploads
    chunks under their digests and assembles fixed or dynamic indexes of them.  The
    collector ([src/cmd/garbagecollector]) expires snapshots, marks the chunks the
    remaining indexes refer to and removes the others.  What both know of the
    layout of the bucket is in [src/internal/s3pmoxcommon].

    ** How the development is organised

    Foundations: this file (machine integers, errors as values, the result and
    state monads [res], [st] and [io], the relation [effect] between the worlds
    before and after a call, automation); [GoStrings], [GoBytes], [Sha256] and
    [Json] (the parts of Go's library the sources use, as executable functions);
    [S3] and [Platform] (the client library and the operating system as type
    classes over an abstract world, with their laws as [ObjectStoreLaws] and
    [PlatformLaws]); [MemWorld] (a bucket store in memory with a script of faults,
    which satisfies the laws and on which the examples run).

    The bucket, [src/internal/s3pmoxcommon]: [Snapshot] ([s3pmoxcommon.go]: names,
    listings, tags, deletion), [Manifest] ([manifest.go]), [IndexFormat]
    ([indexsize.go], and [parseIndex] of the collector), [Invalidation]
    ([cache_invalidation.go]), [UsageStats] ([usagestats.go], and [stats.go] of the
    collector).

    The collector: [GCPlan] ([gc.go]: listings, retention, grace period, mark, plan
    and sweep), [GC] ([main.go]: a run from its flags to its exit) and
    [GCSnapshots] (what a run means to a snapshot and its chunks).

    The proxy, by file of [src/cmd/pmoxs3backuproxy]:
    - [ChunkUpload], [ChunkFlight]: [chunk_upload.go], [storage_class.go];
    - [Cache]: [cache.go]; [CacheInvalidation]: [cache_invalidation.go];
    - [Sizes], [Listing], [WorkerPool]: [sizes.go] - its workers in the last - and the
      cached listing of [main.go];
    - [Session]: [types.go]; [IndexWriter], [DynamicIndex] and [Transfer]: the
      HTTP/2 handlers of [ServeHTTP] in [main.go] - indexes, and data;
    - [Auth], [Admin]: the HTTP/1 handlers of [ServeHTTP] - the tickets, and the API of
      the datastores; [Logins]: ticket requests that run concurrently;
      [Hijack]: [hijack.go];
    - [Serve]: [ServeHTTP] itself, which answers the requests of the process and those
      of a session alike, and that a request runs the handler of its route only;
    - [BackupSession]: the life of a session; [Conversation]: what its client sees;
      [SessionRace]: its handlers as sequences of accesses, interleaved, and
      [SessionAlone]: alone; [SessionLock]: [http2.go] and [signal.go];
    - [Flags], [Startup]: [main] up to the listening, with [certFingeprint], and the
      command line of the collector.
    [DataStore] is the abstract specification of what these operations mean to a
    user - a set of named snapshots - and its refinement by them; [Restored] joins a
    backup, a history of the datastore and a restore; [ArchiveBackup] shows which
    backups are complete when they end.
    [Http] is the monad of the handlers (response, state of the server, world) and
    [HandlerLogic] a program logic for invariants of handlers.

    ** Reading the model beside the code

    A Go function is a definition of the same name.  A function that returns an
    error returns [res]: a value, an error, or [Panicked] for a run-time panic -
    an index out of range, a nil pointer, an assignment to a nil map.  Calls that
    leave the process are operations of [ObjectStore] or [Platform], and their
    order is that of the code.  A handler of [ServeHTTP] is the block of its route;
    it tests the route itself, [Serve.ServeHTTP] runs them in the order of the code,
    and since no request matches two routes ([Serve.one_handler_per_request]) a
    [return] and falling through to the next block come to the same.  A session is
    served by the same function as the process, with a server of its own: it has the
    routes of the tickets and of the API, too.  [uint64], [int64] and [int32] are integers with the
    wrap-around written out wherever the code can reach it; slices are lists, with
    their capacity where the code writes through it ([IndexWriter]); the iteration
    order of a Go map is a choice of the run ([MapRange]).

    ** What the theorems show

    - Collection ([GC], [GCPlan]): every object a remaining snapshot needs survives
      a run, whatever fails in it; only expired unprotected snapshots and old
      orphans are removed, snapshots before chunks; a run that succeeds has done
      all of it; nothing is removed when chunks are missing.
    - Formats ([Snapshot], [IndexFormat], [Manifest], [ChunkUpload]): parsers accept
      exactly what is well formed; names and digests survive the round trip; the
      two readings of an archive size agree.
    - Writing an index ([IndexWriter]): a closed index is what the parser of the
      collector reads, with every digest at its place; the loop over the offsets
      ends for every chunk size but zero.
    - Sessions ([BackupSession], [SessionLock], [ChunkFlight], [Transfer]): any
      sequence of requests writes below its own snapshot, [indexed/] and [chunks/]
      and removes nothing, but for what its client asks of the API with a ticket the
      session has issued; a dynamic index that is closed refers to chunks that are
      in the store or were known to be; an aborted backup leaves no object of its
      snapshot; proxy sessions and collectors exclude each other on a datastore;
      concurrent uploads of a chunk have one leader and their waiting ends; a chunk
      that was uploaded is restored byte for byte.
    - The datastore as a whole ([DataStore], [GCSnapshots]): seen as a set of named
      snapshots, every listing, backup, aborted backup, restore, deletion and other
      request of the proxy, and every run of the collector, is a step of the
      specification; and a complete snapshot - each of its objects, and each chunk
      its indexes refer to - survives byte for byte any sequence of requests and
      collections that is not meant for it, the requests a session makes of the API
      counted among them.  A name is what a request says it is: nothing is assumed of
      it but what each theorem states.
    - Concurrency ([SessionRace], [Logins]): what requests of a session may overlap
      without a data race on a map, that no answer is lost to a request that runs at
      the same time and what the writers then hold, that no request waits for ever
      for the mutex; that a client which overlaps an assignment with an opening can
      race.  ([SessionAlone] ties the two models of these handlers to each other.)
      Concurrent ticket requests never give a user the client of another; but they
      race on the map of the connections, and can issue a ticket with a client the
      store has refused, or none.
    - The start ([Flags], [Startup]): a proxy serves from the states the other files
      begin with, configured by its flags, or exits, with 0, 1 or 2 for the cause that
      is stated for each; what is written
      on a command line is read back; durations are exact up to 292 years.
    - The API ([Auth], [Admin], [Listing], [WorkerPool], [Cache], [Hijack]): without a ticket the
      store is out of reach, with one a request touches the snapshot it names;
      tickets of different users never share a connection; nothing cached before a
      mutation is served after it; notes round-trip, protection toggles, deletion
      is complete; groups, status and usage figures agree with their definitions; no
      byte of an upgraded connection is lost.
    Several theorems describe behaviour that is a defect of the code, among them
    [Auth.login_password_unchecked] (a password is not compared once a user has a
    connection), [Admin.protected_put_outcome] (a failed update is answered as a
    success) and [Snapshot.separator_in_id_poisons_listing].

    ** Assumptions

    The client library ([minio-go]), [zstd], [tags.NewTags], the HTTP/2 server and
    the named mutex are not in the repository: they are operations with laws, or
    parameters.  The laws are documented behaviour - a listing without an error
    entry is complete, a successful upload stored the announced bytes, a removal
    removes no more than it was given - and [MemWorld] satisfies them.
    [json.Unmarshal] and [Request.ParseForm] are parameters wherever they are used,
    and so are the bytes [io.ReadAll] leaves in the spare capacity of its result;
    no theorem but the one that needs it assumes anything of them.  Integers are
    those of a 64-bit little-endian machine, paths those of Unix.

    Fuel: only [IndexWriter.fill], the loop over the offsets of a fixed index, has
    it.  One step more than the index has records is enough, and
    [IndexWriter.fill_termination] says when no amount is.  All other loops are
    structural, or bounded by the length of what they read ([Startup.TrimSpace]).

    ** Not modelled

    - The listening of the proxy ([ListenAndServeTLS]) and the parsers of its
      certificate: parameters of [Startup].
    - Data races other than those on maps: [SessionRace] does not count reads and
      writes of the numbers of a writer ([Size], [Chunksize]) without
      synchronisation, which do not end a Go process.
    - The HTTP/2 framing and timeouts as such (a call that times out is a call that
      fails).
    - [GetAsync] inside the status handler: the refresh it starts ends as a step of
      [Cache]; what its wait sees is a parameter of the handler.
    - Log lines ([src/internal/s3backuplog]), on which nothing depends, and the benchmark client
      ([src/test/main.go]).
*)

From stdpp Require Export prelude gmap strings pretty sorting fin_maps.
From Stdlib Require Export Ascii Strings.Byte.

Declare Scope go_scope.
Delimit Scope go_scope with go.
Global Open Scope Z_scope.
Global Open Scope go_scope.

(** ** Machine integers

    Go's [uint64], [int64] and [int32] are [Z] with the wrap-around written out
    where the code can reach it. *)

Definition u64 (z : Z) : Z := z `mod` 2 ^ 64.
Definition i64 (z : Z) : Z := (z + 2 ^ 63) `mod` 2 ^ 64 - 2 ^ 63.
Definition i32 (z : Z) : Z := (z + 2 ^ 31) `mod` 2 ^ 32 - 2 ^ 31.
Definition MaxInt64 : Z := 2 ^ 63 - 1.
Definition MaxUint64 : Z := 2 ^ 64 - 1.

Abbreviation is_u64 z := (0 ≤ z < 2 ^ 64).
Abbreviation is_i64 z := (- 2 ^ 63 ≤ z < 2 ^ 63).
Abbreviation is_i32 z := (- 2 ^ 31 ≤ z < 2 ^ 31).

Lemma u64_range z : is_u64 (u64 z).
Proof. unfold u64. apply Z.mod_pos_bound. lia. Qed.
Lemma u64_id z : is_u64 z → u64 z = z.
Proof. intros. unfold u64. by apply Z.mod_small. Qed.
Lemma i64_id z : is_i64 z → i64 z = z.
Proof. intros. unfold i64. rewrite Z.mod_small; lia. Qed.
Lemma i32_id z : is_i32 z → i32 z = z.
Proof.
  unfold i32. change (2 ^ 31) with 2147483648. change (2 ^ 32) with 4294967296.
  intros. rewrite Z.mod_small; lia.
Qed.
Lemma i64_range z : is_i64 (i64 z).
Proof.
  unfold i64. change (2 ^ 63) with 9223372036854775808. change (2 ^ 64) with 18446744073709551616.
  pose proof (Z.mod_pos_bound (z + 9223372036854775808) 18446744073709551616). lia.
Qed.
Lemma i32_range z : is_i32 (i32 z).
Proof.
  unfold i32. change (2 ^ 31) with 2147483648. change (2 ^ 32) with 4294967296.
  pose proof (Z.mod_pos_bound (z + 2147483648) 4294967296). lia.
Qed.
Lemma u64_idemp z : u64 (u64 z) = u64 z.
Proof. apply u64_id, u64_range. Qed.
Lemma u64_add_l a b : u64 (u64 a + b) = u64 (a + b).
Proof. unfold u64. apply Zplus_mod_idemp_l. Qed.
Lemma u64_add_r a b : u64 (a + u64 b) = u64 (a + b).
Proof. unfold u64. apply Zplus_mod_idemp_r. Qed.

(** Slices of a Go slice, [l[i:j]]; every use in the source is behind a length
    check, or models the panic of a short slice explicitly. *)
Definition slice {A} (i j : nat) (l : list A) : list A := take (j - i) (drop i l).
Notation "l .[ i ⋯ j ]" := (slice i j l)
  (at level 1, left associativity, format "l .[ i  ⋯  j ]") : go_scope.

Lemma length_slice {A} i j (l : list A) :
  (i ≤ j)%nat → (j ≤ length l)%nat → length (slice i j l) = (j - i)%nat.
Proof. intros. unfold slice. rewrite length_take, length_drop. lia. Qed.

(** ** Errors and outcomes

    An [error] keeps the format text of the site that made it, the names the
    site prints, and the error it wraps with [%w]; [ErrorResponse] is what the
    S3 client library returns for a failed request, [Sentinel] a package-level
    error variable such as [io.EOF]. *)
Inductive error : Type :=
| Errorf (site : string) (args : list string)
| Wrapf (site : string) (args : list string) (cause : error)
| Joined (errs : list error)
| ErrorResponse (StatusCode : Z) (Code : string)
| Sentinel (name : string).

(** [errors.Is(err, target)] for a sentinel target. *)
Fixpoint errors_Is (e : error) (target : string) : bool :=
  match e with
  | Errorf _ _ | ErrorResponse _ _ => false
  | Wrapf _ _ c => errors_Is c target
  | Joined es =>
      (fix any (l : list error) : bool :=
         match l with [] => false | e :: l => errors_Is e target || any l end) es
  | Sentinel n => bool_decide (n = target)
  end.

(** The outcome of a Go call: a value, a returned error, or a run-time panic. *)
Inductive res (A : Type) : Type :=
| Ok (a : A)
| Err (e : error)
| Panicked (why : string).
Arguments Ok {A} _.
Arguments Err {A} _.
Arguments Panicked {A} _.

#[export] Instance res_ret : MRet res := λ A a, Ok a.
#[export] Instance res_bind : MBind res := λ A B f m,
  match m with Ok a => f a | Err e => Err e | Panicked p => Panicked p end.
#[export] Instance res_fmap : FMap res := λ A B f m,
  match m with Ok a => Ok (f a) | Err e => Err e | Panicked p => Panicked p end.

(** [return ..., fmt.Errorf(site, args..., err)]: rewrap the error only. *)
Definition wrap {A} (site : string) (args : list string) (m : res A) : res A :=
  match m with Err e => Err (Wrapf site args e) | _ => m end.

Definition is_ok {A} (m : res A) : bool := match m with Ok _ => true | _ => false end.

Lemma res_bind_Ok {A B} (m : res A) (f : A → res B) b :
  m ≫= f = Ok b ↔ ∃ a, m = Ok a ∧ f a = Ok b.
Proof. destruct m; cbn; naive_solver. Qed.
Lemma wrap_Ok {A} site args (m : res A) a : wrap site args m = Ok a ↔ m = Ok a.
Proof. destruct m; cbn; naive_solver. Qed.
Lemma guard_res_Ok {A} (b : bool) (e : error) (m : res A) a :
  (if b then Err e else m) = Ok a ↔ b = false ∧ m = Ok a.
Proof. destruct b; naive_solver. Qed.

(** A [for range] loop whose body may return early with an error. *)
Fixpoint foldM {S A} (f : S → A → res S) (s : S) (l : list A) : res S :=
  match l with
  | [] => Ok s
  | x :: l => match f s x with
              | Ok s' => foldM f s' l
              | Err e => Err e
              | Panicked p => Panicked p
              end
  end.

Lemma foldM_app {S A} (f : S → A → res S) s l1 l2 :
  foldM f s (l1 ++ l2) = foldM f s l1 ≫= λ s', foldM f s' l2.
Proof.
  revert s. induction l1 as [|x l1 IH]; intros s; simpl; [done|].
  by destruct (f s x).
Qed.

(** A loop invariant: [P] relates the prefix already visited to the state. *)
Lemma foldM_ind {S A} (P : list A → S → Prop) (f : S → A → res S) s l s' :
  foldM f s l = Ok s' →
  P [] s →
  (∀ done x todo st st', l = done ++ x :: todo → P done st → f st x = Ok st' → P (done ++ [x]) st') →
  P l s'.
Proof.
  intros Hrun H0 Hstep.
  enough (∀ done todo st, l = done ++ todo → P done st → foldM f st todo = Ok s' → P l s') as H.
  { by apply (H [] l s). }
  intros done todo. revert done.
  induction todo as [|x todo IH]; intros done st Hl HP Hf; simpl in Hf.
  { simplify_eq. by rewrite app_nil_r. }
  destruct (f st x) as [st'| |] eqn:Hx; try done.
  apply (IH (done ++ [x]) st'); [by rewrite <-app_assoc|by eapply Hstep|done].
Qed.

(** ** Effects

    The world is an abstract state [W]; a call that can neither fail nor panic
    is an [st W A], one that can is an [io W A].  A fatal log line
    ([s3backuplog.FatalPrint], which exits the process) ends an [io] with an
    [Err]: nothing after it runs. *)
Definition st (W A : Type) : Type := W → A * W.
Definition io (W A : Type) : Type := W → res A * W.

#[export] Instance io_ret {W} : MRet (io W) := λ A a w, (Ok a, w).
#[export] Instance io_bind {W} : MBind (io W) := λ A B f m w,
  match m w with
  | (Ok a, w') => f a w'
  | (Err e, w') => (Err e, w')
  | (Panicked p, w') => (Panicked p, w')
  end.

Definition lift_st {W A} (m : st W A) : io W A := λ w, let '(a, w') := m w in (Ok a, w').
Definition lift_res {W A} (m : res A) : io W A := λ w, (m, w).
Definition fail {W A} (e : error) : io W A := λ w, (Err e, w).
(** [x, err := call()]: the error as a value, a panic still propagates. *)
Definition try {W A} (m : io W A) : io W (A + error) := λ w,
  match m w with
  | (Ok a, w') => (Ok (inl a), w')
  | (Err e, w') => (Ok (inr e), w')
  | (Panicked p, w') => (Panicked p, w')
  end.
Definition wrap_io {W A} (site : string) (args : list string) (m : io W A) : io W A := λ w,
  let '(r, w') := m w in (wrap site args r, w').

(** [defer d()]: [d] runs when [m] returns, its own error is dropped. *)
Definition defer {W A} (d : io W unit) (m : io W A) : io W A := λ w,
  let '(r, w1) := m w in let '(_, w2) := d w1 in (r, w2).
(** [if err != nil { d(); return err }]. *)
Definition on_error {W A} (d : io W unit) (m : io W A) : io W A := λ w,
  match m w with
  | (Err e, w1) => let '(_, w2) := d w1 in (Err e, w2)
  | x => x
  end.

Fixpoint foldIO {W S A} (f : S → A → io W S) (s : S) (l : list A) : io W S :=
  match l with
  | [] => mret s
  | x :: l => s' ← f s x; foldIO f s' l
  end.

(** [effect R m]: whatever [m] answers, it moves the world along [R]. With a
    preorder the relation composes, which is how a whole run is shown to keep
    a part of the store. *)
Definition effect {W A} (R : relation W) (m : io W A) : Prop :=
  ∀ w r w', m w = (r, w') → R w w'.
Definition st_effect {W A} (R : relation W) (m : st W A) : Prop :=
  ∀ w a w', m w = (a, w') → R w w'.

Create HintDb go_effect.

Section effect.
Context {W : Type} (R : relation W) `{!PreOrder R}.

Lemma effect_ret {A} (a : A) : effect R (mret a).
Proof. intros w r w' [= <- <-]. reflexivity. Qed.
Lemma effect_bind {A B} (m : io W A) (f : A → io W B) :
  effect R m → (∀ a, effect R (f a)) → effect R (m ≫= f).
Proof.
  intros Hm Hf w r w'. unfold mbind, io_bind.
  destruct (m w) as [[a|e|p] w1] eqn:E; intros H; simplify_eq.
  - transitivity w1; [by eapply Hm|by eapply Hf].
  - by eapply Hm.
  - by eapply Hm.
Qed.
Lemma effect_lift_st {A} (m : st W A) : st_effect R m → effect R (lift_st m).
Proof.
  intros Hm w r w'. unfold lift_st. destruct (m w) as [a w1] eqn:E.
  intros; simplify_eq. by eapply Hm.
Qed.
Lemma effect_lift_res {A} (m : res A) : effect R (lift_res m).
Proof. intros w r w' [= <- <-]. reflexivity. Qed.
Lemma effect_fail {A} e : effect R (@fail W A e).
Proof. intros w r w' [= <- <-]. reflexivity. Qed.
Lemma effect_try {A} (m : io W A) : effect R m → effect R (try m).
Proof.
  intros Hm w r w'. unfold try.
  destruct (m w) as [[a|e|p] w1] eqn:E; intros; simplify_eq; by eapply Hm.
Qed.
Lemma effect_wrap_io {A} site args (m : io W A) : effect R m → effect R (wrap_io site args m).
Proof.
  intros Hm w r w'. unfold wrap_io. destruct (m w) as [a w1] eqn:E.
  intros; simplify_eq. by eapply Hm.
Qed.
Lemma effect_defer {A} d (m : io W A) : effect R d → effect R m → effect R (defer d m).
Proof.
  intros Hd Hm w r w'. unfold defer. destruct (m w) as [a w1] eqn:E1. destruct (d w1) as [b w2] eqn:E2.
  intros; simplify_eq. transitivity w1; [by eapply Hm|by eapply Hd].
Qed.
Lemma effect_on_error {A} d (m : io W A) : effect R d → effect R m → effect R (on_error d m).
Proof.
  intros Hd Hm w r w'. unfold on_error. destruct (m w) as [[a|e|p] w1] eqn:E1.
  - intros; simplify_eq. by eapply Hm.
  - destruct (d w1) as [b w2] eqn:E2. intros; simplify_eq.
    transitivity w1; [by eapply Hm|by eapply Hd].
  - intros; simplify_eq. by eapply Hm.
Qed.
Lemma effect_foldIO_in {S A} (f : S → A → io W S) s l :
  (∀ s x, x ∈ l → effect R (f s x)) → effect R (foldIO f s l).
Proof.
  revert s. induction l as [|x l IH]; intros s Hf; simpl.
  - apply effect_ret.
  - apply effect_bind; [apply Hf; by left|]. intros s'. apply IH. intros. apply Hf. by right.
Qed.
Lemma effect_foldIO {S A} (f : S → A → io W S) s l :
  (∀ s x, effect R (f s x)) → effect R (foldIO f s l).
Proof. intros Hf. by apply effect_foldIO_in. Qed.
Lemma effect_if {A} (b : bool) (m1 m2 : io W A) :
  effect R m1 → effect R m2 → effect R (if b then m1 else m2).
Proof. by destruct b. Qed.
End effect.

Lemma effect_mono {W A} (R R' : relation W) (m : io W A) :
  (∀ w w', R w w' → R' w w') → effect R m → effect R' m.
Proof. intros HR Hm w r w' H. by eapply HR, Hm. Qed.

(** The outcome of a concrete run can be computed, its world is left alone. *)
Lemma run_outcome {A W} (p : A * W) a : fst p = a → p = (a, snd p).
Proof. destruct p. by intros [= <-]. Qed.

Lemma io_bind_ext {W A B} (m : io W A) (f g : A → io W B) w :
  (∀ a w', f a w' = g a w') → (m ≫= f) w = (m ≫= g) w.
Proof. intros Hfg. cbv [mbind io_bind]. by destruct (m w) as [[a|e|p] w']. Qed.
(** Inverting a run: the intermediate world of a sequence. *)
Lemma io_bind_inv {W A B} (m : io W A) (f : A → io W B) w r w' :
  (m ≫= f) w = (r, w') →
  (∃ a w1, m w = (Ok a, w1) ∧ f a w1 = (r, w')) ∨
  (∃ e, m w = (Err e, w') ∧ r = Err e) ∨
  (∃ p, m w = (Panicked p, w') ∧ r = Panicked p).
Proof.
  unfold mbind, io_bind. destruct (m w) as [[a|e|p] w1]; intros; simplify_eq; eauto 10.
Qed.
Lemma io_bind_Ok {W A B} (m : io W A) (f : A → io W B) w a w1 :
  m w = (Ok a, w1) → (m ≫= f) w = f a w1.
Proof. unfold mbind, io_bind. by intros ->. Qed.
Lemma io_bind_Ok_inv {W A B} (m : io W A) (f : A → io W B) w b w' :
  (m ≫= f) w = (Ok b, w') → ∃ a w1, m w = (Ok a, w1) ∧ f a w1 = (Ok b, w').
Proof. intros [?|[(?&_&?)|(?&_&?)]]%io_bind_inv; [done|done|done]. Qed.

Lemma lift_res_inv {W A} (m : res A) (w : W) r w' : lift_res m w = (r, w') → m = r ∧ w' = w.
Proof. by intros [= <- <-]. Qed.
Lemma wrap_io_inv {W A} site args (m : io W A) w r w' :
  wrap_io site args m w = (r, w') → ∃ r0, m w = (r0, w') ∧ r = wrap site args r0.
Proof. unfold wrap_io. destruct (m w) as [r0 w1]. intros [= <- <-]. eauto. Qed.
Lemma wrap_io_Ok_inv {W A} site args (m : io W A) w a w' :
  wrap_io site args m w = (Ok a, w') → m w = (Ok a, w').
Proof. intros (r0 & -> & Hr)%wrap_io_inv. by destruct r0; simplify_eq/=. Qed.

(** A run over a list keeps an invariant of the visited prefix, and the world
    moves along [R]. *)
Lemma foldIO_ind {W S A} (P : list A → S → Prop) (R : relation W) `{!PreOrder R}
    (f : S → A → io W S) s l w s' w' :
  foldIO f s l w = (Ok s', w') →
  P [] s →
  (∀ done x todo st st' w1 w2, l = done ++ x :: todo → P done st → R w w1 →
     f st x w1 = (Ok st', w2) → P (done ++ [x]) st' ∧ R w1 w2) →
  P l s' ∧ R w w'.
Proof.
  intros Hrun H0 Hstep.
  enough (∀ done todo st w1, l = done ++ todo → P done st → R w w1 →
            foldIO f st todo w1 = (Ok s', w') → P l s' ∧ R w w') as H.
  { by apply (H [] l s w). }
  intros done todo. revert done.
  induction todo as [|x todo IH]; intros done st w1 Hl HP HR Hf; cbn [foldIO] in Hf.
  { injection Hf as -> ->. by rewrite app_nil_r in Hl; subst. }
  apply io_bind_Ok_inv in Hf as (st' & w2 & Hx & Hf).
  destruct (Hstep done x todo st st' w1 w2) as [HP' HR']; [done..|].
  apply (IH (done ++ [x]) st' w2); [by rewrite <-app_assoc|done|by transitivity w1|done].
Qed.

(** ** Maps

    Go leaves the order of [for k, v := range m] open: it is a choice of the
    run, about which nothing but completeness is known. *)
Class MapRange := {
  map_range : ∀ {A : Type}, gmap string A → list (string * A);
  map_range_perm : ∀ {A : Type} (m : gmap string A), map_range m ≡ₚ map_to_list m;
}.

Lemma elem_of_map_range `{MapRange} {A} (m : gmap string A) k a :
  (k, a) ∈ map_range m ↔ m !! k = Some a.
Proof. by rewrite map_range_perm, elem_of_map_to_list. Qed.

(** The order of the keys in the map's own representation, one of the orders a
    run may take. *)
Definition default_range : MapRange := {|
  map_range := λ A, map_to_list;
  map_range_perm := λ A m, reflexivity _;
|}.

(** ** Tactics *)

(** Split a successful outcome into the successes of its parts. *)
Ltac inv_res :=
  repeat match goal with
  | H : _ ≫= _ = Ok _ |- _ =>
      let H1 := fresh "Hstep" in apply res_bind_Ok in H; destruct H as (?&H1&H)
  | H : wrap _ _ _ = Ok _ |- _ => apply wrap_Ok in H
  | H : mret _ = Ok _ |- _ => injection H as ?
  | H : Ok _ = Ok _ |- _ => injection H as ?
  | H : Err _ = Ok _ |- _ => discriminate H
  | H : Panicked _ = Ok _ |- _ => discriminate H
  | H : (if ?b then Err _ else _) = Ok _ |- _ =>
      let E := fresh "E" in destruct b eqn:E; [discriminate H|]
  end; try subst.

(** The same for a successful run: its intermediate worlds and results. *)
Ltac inv_io :=
  repeat match goal with
  | H : (_ ≫= _) _ = (Ok _, _) |- _ =>
      let w1 := fresh "w" in let H1 := fresh "Hrun" in
      apply io_bind_Ok_inv in H; destruct H as (?&w1&H1&H)
  | H : wrap_io _ _ _ _ = (Ok _, _) |- _ => apply wrap_io_Ok_inv in H
  | H : mret _ _ = (_, _) |- _ => injection H as ? ?
  | H : fail _ _ = (Ok _, _) |- _ => discriminate H
  | H : lift_res _ _ = (_, _) |- _ => injection H as ? ?
  | H : lift_st ?m ?w = (_, _) |- _ =>
      let E := fresh "Hcall" in
      unfold lift_st in H; destruct (m w) as [? ?] eqn:E; injection H as ? ?
  | H : (if ?b then fail _ else _) _ = (Ok _, _) |- _ =>
      let E := fresh "E" in destruct b eqn:E; [discriminate H|]
  | H : (if ?b then mret _ else fail _) _ = (Ok _, _) |- _ =>
      let E := fresh "E" in destruct b eqn:E; [|discriminate H]
  end; try subst.

(** Turn boolean tests of the code into the propositions they decide. *)
Ltac reflect_bools :=
  repeat match goal with
  | H : bool_decide _ = true |- _ => apply bool_decide_eq_true_1 in H
  | H : bool_decide _ = false |- _ => apply bool_decide_eq_false_1 in H
  | H : (_ && _) = true |- _ => apply andb_true_iff in H; destruct H
  | H : (_ || _) = false |- _ => apply orb_false_iff in H; destruct H
  | H : negb _ = true |- _ => apply negb_true_iff in H
  | H : negb _ = false |- _ => apply negb_false_iff in H
  | H : (_ <? _) = true |- _ => apply Z.ltb_lt in H
  | H : (_ <? _) = false |- _ => apply Z.ltb_ge in H
  | H : (_ <=? _) = true |- _ => apply Z.leb_le in H
  | H : (_ <=? _) = false |- _ => apply Z.leb_gt in H
  | H : (_ =? _) = true |- _ => apply Z.eqb_eq in H
  | H : (_ =? _) = false |- _ => apply Z.eqb_neq in H
  end.

(** Effects: the combinators are followed by their lemmas, the calls at the
    leaves are in the [go_effect] database. *)
Ltac solve_effect :=
  repeat first
    [ progress intros
    | match goal with
      | |- effect _ (_ ≫= _) => apply effect_bind; [typeclasses eauto| |]
      | |- effect _ (mret _) => apply effect_ret; typeclasses eauto
      | |- effect _ (fail _) => apply effect_fail; typeclasses eauto
      | |- effect _ (lift_res _) => apply effect_lift_res; typeclasses eauto
      | |- effect _ (lift_st _) => apply effect_lift_st
      | |- effect _ (try _) => apply effect_try
      | |- effect _ (wrap_io _ _ _) => apply effect_wrap_io
      | |- effect _ (defer _ _) => apply effect_defer; [typeclasses eauto| |]
      | |- effect _ (on_error _ _) => apply effect_on_error; [typeclasses eauto| |]
      | |- effect _ (foldIO _ _ _) => apply effect_foldIO; [typeclasses eauto|]
      | |- effect _ (match ?x with _ => _ end) => destruct x
      end
    | solve [eauto 3 with go_effect] ].

(** ** Lists *)

(** An invariant of the steps is an invariant of the loop. *)
Lemma foldl_inv {A B} (P : A → Prop) (f : A → B → A) a l : P a → (∀ a b, P a → P (f a b)) → P (foldl f a l).
Proof. intros Ha Hf. revert a Ha. induction l as [|b l IH]; intros a Ha; [done|]. by apply IH, Hf. Qed.

Lemma in_split_first {A} (x : A) l : x ∈ l → ∃ l1 l2, l = l1 ++ x :: l2.
Proof. apply list_elem_of_split. Qed.
