(* ===== verification/GoStrings.v ===== *)
(** * Go's [strings], [strconv] and [fmt] as far as the sources use them

    Go strings are byte sequences, so [string] (a list of 8-bit [ascii]) is the
    same data. Separators are single bytes everywhere in the sources.  The
    lemmas are the round trips the key formats rest on: [Split] against [Join],
    and decimal printing against [ParseUint]. *)

From S2P Require Import Prelude.

Local Open Scope Z_scope.

#[global] Arguments String.append !_ _ : simpl nomatch.

(** ** strings *)

Definition HasPrefix (s p : string) : bool := String.prefix p s.

Definition HasSuffix (s suf : string) : bool :=
  let n := String.length s in
  let k := String.length suf in
  (k <=? n)%nat && String.eqb (String.substring (n - k) k s) suf.

Fixpoint drop_string (n : nat) (s : string) : string :=
  match n, s with
  | O, _ => s
  | S _, "" => ""
  | S n, String _ s => drop_string n s
  end.
Fixpoint take_string (n : nat) (s : string) : string :=
  match n, s with
  | O, _ | _, "" => ""
  | S n, String a s => String a (take_string n s)
  end.

Definition TrimPrefix (s p : string) : string :=
  if HasPrefix s p then drop_string (String.length p) s else s.

(** Whether the byte [c] occurs in [s]. *)
Fixpoint has_byte (c : ascii) (s : string) : bool :=
  match s with
  | "" => false
  | String a s => Ascii.eqb a c || has_byte c s
  end.

(** [strings.IndexByte]: the first position of [c], -1 when absent. *)
Fixpoint IndexByte (s : string) (c : ascii) : Z :=
  match s with
  | "" => -1
  | String a s =>
      if Ascii.eqb a c then 0
      else let i := IndexByte s c in if i <? 0 then -1 else i + 1
  end.

(** The text before and after the first [c]. *)
Fixpoint Cut (s : string) (c : ascii) : option (string * string) :=
  match s with
  | "" => None
  | String a s =>
      if Ascii.eqb a c then Some ("", s)
      else match Cut s c with Some (x, y) => Some (String a x, y) | None => None end
  end.

(** [strings.SplitN(s, c, 2)]. *)
Definition SplitN2 (s : string) (c : ascii) : list string :=
  match Cut s c with Some (x, y) => [x; y] | None => [s] end.

(** [strings.Split(s, c)]. *)
Fixpoint Split (s : string) (c : ascii) : list string :=
  match s with
  | "" => [""]
  | String a s =>
      if Ascii.eqb a c then "" :: Split s c
      else match Split s c with
           | [] => []
           | w :: ws => String a w :: ws
           end
  end.

(** [strings.Join(ws, c)]. *)
Fixpoint Join (ws : list string) (c : ascii) : string :=
  match ws with
  | [] => ""
  | [w] => w
  | w :: ws => w +:+ String c (Join ws c)
  end.

(** [strings.Trim]: the bytes of a set, off both ends. *)
Fixpoint TrimLeft (s cutset : string) : string :=
  match s with
  | "" => ""
  | String a r => if has_byte a cutset then TrimLeft r cutset else s
  end.
Fixpoint TrimRight (s cutset : string) : string :=
  match s with
  | "" => ""
  | String a r =>
      match TrimRight r cutset with
      | "" => if has_byte a cutset then "" else String a ""
      | r => String a r
      end
  end.
Definition Trim (s cutset : string) : string := TrimRight (TrimLeft s cutset) cutset.

(** [textproto.CanonicalMIMEHeaderKey] of a key of letters, digits and dashes:
    a capital at the start and after each dash, small letters elsewhere. *)
Definition to_upper (c : ascii) : ascii :=
  let n := nat_of_ascii c in
  if ((97 <=? n) && (n <=? 122))%nat then ascii_of_nat (n - 32) else c.
Definition to_lower (c : ascii) : ascii :=
  let n := nat_of_ascii c in
  if ((65 <=? n) && (n <=? 90))%nat then ascii_of_nat (n + 32) else c.
Fixpoint canonical_from (upper : bool) (s : string) : string :=
  match s with
  | "" => ""
  | String a r => String (if upper then to_upper a else to_lower a) (canonical_from (Ascii.eqb a "-") r)
  end.
Definition CanonicalHeaderKey (s : string) : string := canonical_from true s.

Definition slash : ascii := "/"%char.
Definition bar : ascii := "|"%char.

(** ** Lemmas on strings *)

Lemma string_app_assoc (a b c : string) : (a +:+ b) +:+ c = a +:+ (b +:+ c).
Proof. induction a as [|x a IH]; [done|]. cbn. by f_equal. Qed.
Lemma string_app_nil_r (a : string) : a +:+ "" = a.
Proof. induction a as [|x a IH]; [done|]. cbn. by f_equal. Qed.
Lemma string_length_app (a b : string) :
  String.length (a +:+ b) = (String.length a + String.length b)%nat.
Proof. induction a as [|x a IH]; [done|]. cbn. by f_equal. Qed.
Lemma string_app_inj_l (a b c : string) : a +:+ b = a +:+ c → b = c.
Proof. induction a as [|x a IH]; cbn; [done|]. intros [= ?]. auto. Qed.
Lemma string_app_inj (a1 a2 b1 b2 : string) :
  String.length a1 = String.length a2 → a1 +:+ b1 = a2 +:+ b2 → a1 = a2 ∧ b1 = b2.
Proof.
  revert a2. induction a1 as [|x a1 IH]; intros [|y a2]; cbn; try done.
  intros [= Hl] [= -> Happ]. destruct (IH _ Hl Happ) as [-> ->]. done.
Qed.
Lemma string_app_inj_r (a1 a2 b : string) : a1 +:+ b = a2 +:+ b → a1 = a2.
Proof.
  intros H. apply (string_app_inj a1 a2 b b); [|done].
  apply (f_equal String.length) in H. rewrite !string_length_app in H. lia.
Qed.

Lemma drop_string_app (p r : string) : drop_string (String.length p) (p +:+ r) = r.
Proof. induction p; [done|]. done. Qed.

Lemma string_length_take n s : (n ≤ String.length s)%nat → String.length (take_string n s) = n.
Proof.
  revert s. induction n as [|n IH]; intros [|a s]; cbn; intros; try lia. rewrite IH; lia.
Qed.
Lemma take_string_app a b : take_string (String.length a) (a +:+ b) = a.
Proof. induction a as [|x a IH]; cbn; [by destruct b|]. by rewrite IH. Qed.
Lemma take_drop_string n s : take_string n s +:+ drop_string n s = s.
Proof. revert s. induction n as [|n IH]; intros [|a s]; cbn; [done..|]. by rewrite IH. Qed.

Lemma HasPrefix_spec s p : HasPrefix s p = true ↔ ∃ r, s = p +:+ r.
Proof.
  unfold HasPrefix. revert s. induction p as [|a p IH]; intros s; cbn.
  - split; [eauto|]. by destruct s.
  - destruct s as [|b s]; cbn.
    + split; [done|]. by intros [r [=]].
    + destruct (ascii_dec a b) as [->|Hne].
      * rewrite IH. split.
        -- intros [r ->]. by exists r.
        -- intros [r [= ->]]. eauto.
      * split; [done|]. by intros [r [= ]].
Qed.
Lemma HasPrefix_app p r : HasPrefix (p +:+ r) p = true.
Proof. apply HasPrefix_spec. eauto. Qed.

Lemma take_string_prefix n k p :
  n = String.length p → bool_decide (take_string n k = p) = HasPrefix k p.
Proof.
  intros ->. apply eq_bool_prop_intro. rewrite bool_decide_spec, Is_true_true, HasPrefix_spec. split.
  - intros Hp. exists (drop_string (String.length p) k).
    rewrite <-(take_drop_string (String.length p) k) at 1. by rewrite Hp.
  - intros [r ->]. apply take_string_app.
Qed.

Lemma substring_all s : String.substring 0 (String.length s) s = s.
Proof. induction s as [|a s IH]; [done|]. cbn. by f_equal. Qed.
Lemma substring_app_r p s :
  String.substring (String.length p) (String.length s) (p +:+ s) = s.
Proof.
  induction p as [|a p IH]; [|done].
  apply substring_all.
Qed.
Lemma substring_suffix n s :
  (n ≤ String.length s)%nat →
  s = String.substring 0 n s +:+ String.substring n (String.length s - n) s.
Proof.
  revert n. induction s as [|a s IH]; intros n Hn; cbn in *.
  - by destruct n.
  - destruct n as [|n]; cbn; f_equal; [symmetry; apply substring_all|].
    apply IH. lia.
Qed.

Lemma HasSuffix_spec s suf : HasSuffix s suf = true ↔ ∃ p, s = p +:+ suf.
Proof.
  unfold HasSuffix. rewrite andb_true_iff, Nat.leb_le, String.eqb_eq. split.
  - intros [Hle Hsub].
    exists (String.substring 0 (String.length s - String.length suf) s).
    rewrite (substring_suffix (String.length s - String.length suf) s) at 1 by lia.
    f_equal.
    by replace (String.length s - (String.length s - String.length suf))%nat
      with (String.length suf) by lia.
  - intros [p ->]. rewrite string_length_app. split; [lia|].
    replace (String.length p + String.length suf - String.length suf)%nat
      with (String.length p) by lia.
    apply substring_app_r.
Qed.
Lemma HasSuffix_app p s : HasSuffix (p +:+ s) s = true.
Proof. apply HasSuffix_spec. eauto. Qed.

Lemma string_app_longer a b c d :
  a +:+ b = c +:+ d → (String.length b ≤ String.length d)%nat → ∃ t, d = t +:+ b.
Proof.
  revert a. induction c as [|x c IH]; intros a Heq Hl; [by exists a|].
  destruct a as [|y a]; cbn in Heq.
  - apply (f_equal String.length) in Heq. cbn in Heq. rewrite string_length_app in Heq. lia.
  - injection Heq as _ Heq. by eapply IH.
Qed.
Lemma HasSuffix_extend p s suf b :
  HasSuffix s suf = b → (String.length suf ≤ String.length s)%nat → HasSuffix (p +:+ s) suf = b.
Proof.
  intros <- Hl. apply eq_bool_prop_intro. rewrite !Is_true_true, !HasSuffix_spec. split.
  - intros [q Hq]. symmetry in Hq. destruct (string_app_longer q suf p s Hq Hl) as [t ->]. eauto.
  - intros [q ->]. exists (p +:+ q). by rewrite string_app_assoc.
Qed.

Lemma TrimPrefix_app p r : TrimPrefix (p +:+ r) p = r.
Proof. unfold TrimPrefix. by rewrite HasPrefix_app, drop_string_app. Qed.

Lemma has_byte_app c s t : has_byte c (s +:+ t) = has_byte c s || has_byte c t.
Proof. induction s as [|a s IH]; cbn; [done|]. by rewrite IH, orb_assoc. Qed.

Lemma Cut_Some s c x y : Cut s c = Some (x, y) ↔ s = x +:+ String c y ∧ has_byte c x = false.
Proof.
  revert x. induction s as [|a s IH]; intros x; cbn.
  - split; [done|]. intros [H _]. by destruct x.
  - destruct (Ascii.eqb_spec a c) as [->|Hne].
    + split.
      * intros [= <- <-]. done.
      * intros [H Hx]. destruct x as [|b x]; cbn in *.
        -- by injection H as ->.
        -- injection H as -> _. by rewrite Ascii.eqb_refl in Hx.
    + destruct (Cut s c) as [[x' y']|].
      * split.
        -- intros [= <- <-]. destruct (IH x') as [[-> Hx] _]; [done|].
           cbn. rewrite Hx. split; [done|]. by apply orb_false_iff; split; [apply Ascii.eqb_neq|].
        -- intros [H Hx]. destruct x as [|b x]; cbn in *; [by injection H as ->|].
           injection H as -> H. apply orb_false_iff in Hx as [_ Hx].
           assert (Some (x', y') = Some (x, y)) as [= -> ->] by (by apply IH). done.
      * split; [done|]. intros [H Hx]. destruct x as [|b x]; cbn in *; [by injection H as ->|].
        injection H as -> H. apply orb_false_iff in Hx as [_ Hx].
        assert (None = Some (x, y)) by (by apply IH). done.
Qed.
Lemma Cut_None s c : Cut s c = None ↔ has_byte c s = false.
Proof.
  induction s as [|a s IH]; cbn; [done|].
  destruct (Ascii.eqb a c); cbn; [done|].
  destruct (Cut s c) as [[??]|]; naive_solver.
Qed.
Lemma Cut_app c x y : has_byte c x = false → Cut (x +:+ String c y) c = Some (x, y).
Proof. intros. by apply Cut_Some. Qed.

Lemma IndexByte_Cut s c :
  IndexByte s c = match Cut s c with Some (x, _) => Z.of_nat (String.length x) | None => -1 end.
Proof.
  induction s as [|a s IH]; cbn -[Z.of_nat]; [done|].
  destruct (Ascii.eqb a c); [done|].
  rewrite IH. destruct (Cut s c) as [[x y]|]; cbn -[Z.of_nat]; [|done].
  destruct (Z.ltb_spec (Z.of_nat (String.length x)) 0); lia.
Qed.

Lemma Split_cons s c : ∃ w ws, Split s c = w :: ws.
Proof.
  induction s as [|a s (w & ws & IH)]; cbn; [eauto|].
  destruct (Ascii.eqb a c); [eauto|]. rewrite IH. eauto.
Qed.
Lemma Join_cons w ws c : ws ≠ [] → Join (w :: ws) c = w +:+ String c (Join ws c).
Proof. by destruct ws. Qed.
Lemma Join_Split s c : Join (Split s c) c = s.
Proof.
  induction s as [|a s IH]; cbn [Split]; [done|].
  destruct (Split_cons s c) as (w & ws & Hs). rewrite Hs in *.
  destruct (Ascii.eqb_spec a c) as [->|Hne].
  - rewrite Join_cons by done. by rewrite IH.
  - destruct ws as [|w' ws]; cbn [Join] in *; cbn; by f_equal.
Qed.
Lemma Split_no_sep s c : Forall (λ w, has_byte c w = false) (Split s c).
Proof.
  induction s as [|a s IH]; cbn; [by repeat constructor|].
  destruct (Ascii.eqb a c) eqn:E; [by constructor|].
  destruct (Split s c) as [|w ws]; [done|].
  apply Forall_cons in IH as [? ?]. constructor; [|done].
  cbn. by rewrite E.
Qed.
Lemma Split_app w c s : has_byte c w = false → Split (w +:+ String c s) c = w :: Split s c.
Proof.
  induction w as [|a w IH]; cbn; [by rewrite Ascii.eqb_refl|].
  intros [E Hw]%orb_false_iff. rewrite E, IH by done. done.
Qed.
Lemma Split_word w c : has_byte c w = false → Split w c = [w].
Proof.
  induction w as [|a w IH]; cbn; [done|].
  intros [E Hw]%orb_false_iff. by rewrite E, IH.
Qed.
Lemma Split_inj s t c : Split s c = Split t c → s = t.
Proof. intros H. by rewrite <-(Join_Split s c), <-(Join_Split t c), H. Qed.

(** ** strconv *)

(** The digit loop of [strconv.ParseUint] in base 10: [n] is the value so far,
    [maxVal] the largest value of the bit size.  A syntax error answers 0, a
    range error the largest value. *)
Definition ErrSyntax : error := Sentinel "strconv.ErrSyntax".
Definition ErrRange : error := Sentinel "strconv.ErrRange".

Definition digit_val (c : ascii) : option Z :=
  let n := Z.of_nat (nat_of_ascii c) in
  if (48 <=? n) && (n <=? 57) then Some (n - 48) else None.

Fixpoint parse_digits (maxVal n : Z) (s : string) : Z * option error :=
  match s with
  | "" => (n, None)
  | String c s =>
      match digit_val c with
      | None => (0, Some ErrSyntax)
      | Some d =>
          if MaxUint64 / 10 + 1 <=? n then (maxVal, Some ErrRange)
          else
            let n10 := u64 (n * 10) in
            let n1 := u64 (n10 + d) in
            if (n1 <? n10) || (maxVal <? n1) then (maxVal, Some ErrRange)
            else parse_digits maxVal n1 s
      end
  end.

(** [strconv.ParseUint(s, 10, bits)]. *)
Definition ParseUint (s : string) (bits : Z) : Z * option error :=
  match s with
  | "" => (0, Some ErrSyntax)
  | _ => parse_digits (2 ^ bits - 1) 0 s
  end.

(** [strconv.ParseInt(s, 10, bits)]: an overflow of the magnitude is judged
    again against the signed range. *)
Definition is_ErrRange (e : error) : bool :=
  match e with Sentinel n => bool_decide (n = "strconv.ErrRange") | _ => false end.
Definition signed_range (neg : bool) (cutoff un : Z) : Z * option error :=
  if negb neg && (cutoff <=? un) then (cutoff - 1, Some ErrRange)
  else if neg && (cutoff <? un) then (- cutoff, Some ErrRange)
  else (if neg then - un else un, None).
Definition ParseInt (s : string) (bits : Z) : Z * option error :=
  match s with
  | "" => (0, Some ErrSyntax)
  | String c rest =>
      let neg := Ascii.eqb c "-"%char in
      let body := if neg || Ascii.eqb c "+"%char then rest else s in
      match ParseUint body bits with
      | (un, Some e) => if is_ErrRange e then signed_range neg (2 ^ (bits - 1)) un else (0, Some e)
      | (un, None) => signed_range neg (2 ^ (bits - 1)) un
      end
  end.

(** [fmt.Sprintf] of an integer with the verb for decimal. *)
Definition fmt_d (z : Z) : string := pretty z.

#[global] Instance fmt_d_inj : Inj (=) (=) fmt_d.
Proof. apply pretty_Z_inj. Qed.

Lemma digit_val_pretty n :
  (n < 10)%N → digit_val (pretty_N_char n) = Some (Z.of_N n).
Proof.
  intros. assert (n ∈ [0;1;2;3;4;5;6;7;8;9]%N) as Hn.
  { rewrite !elem_of_cons. lia. }
  repeat (apply elem_of_cons in Hn as [->|Hn]; [done|]). by apply not_elem_of_nil in Hn.
Qed.

Lemma parse_digits_step maxVal x c s :
  0 ≤ maxVal ≤ MaxUint64 → digit_val c = Some (x `mod` 10) → 0 ≤ x ≤ maxVal →
  parse_digits maxVal (x / 10) (String c s) = parse_digits maxVal x s.
Proof.
  intros Hm Hc Hx. cbn [parse_digits]. rewrite Hc. unfold MaxUint64 in *.
  assert (x / 10 ≤ (2 ^ 64 - 1) / 10) by (apply Z.div_le_mono; lia).
  assert (0 ≤ x / 10) by (apply Z.div_pos; lia).
  pose proof (Z.div_mod x 10 ltac:(done)). pose proof (Z.mod_pos_bound x 10 ltac:(done)).
  destruct (Z.leb_spec ((2 ^ 64 - 1) / 10 + 1) (x / 10)); [lia|].
  rewrite !u64_id by (rewrite ?u64_id; lia).
  replace (x / 10 * 10 + x `mod` 10) with x by lia.
  destruct (Z.ltb_spec x (x / 10 * 10)); [lia|].
  by destruct (Z.ltb_spec maxVal x); [lia|].
Qed.

Lemma parse_digits_pretty maxVal (x : N) s :
  0 ≤ maxVal ≤ MaxUint64 → Z.of_N x ≤ maxVal →
  parse_digits maxVal 0 (pretty_N_go x s) = parse_digits maxVal (Z.of_N x) s.
Proof.
  intros Hm. revert s. induction (N.lt_wf_0 x) as [x _ IH]; intros s Hx.
  destruct (decide (x = 0)%N) as [->|Hnz]; [done|].
  rewrite pretty_N_go_step by lia.
  assert (Z.of_N (x `div` 10) = Z.of_N x / 10) as Hdiv by (by rewrite N2Z.inj_div).
  assert (Z.of_N (x `mod` 10) = Z.of_N x `mod` 10) as Hmod by (by rewrite N2Z.inj_mod).
  rewrite IH.
  - rewrite Hdiv. apply parse_digits_step; [done| |lia].
    rewrite digit_val_pretty by (by apply N.mod_lt). by rewrite Hmod.
  - apply N.div_lt; lia.
  - rewrite Hdiv. transitivity (Z.of_N x); [|done]. apply Z.div_le_upper_bound; lia.
Qed.

Lemma pretty_N_go_length x s : (String.length s ≤ String.length (pretty_N_go x s))%nat.
Proof.
  revert s. induction (N.lt_wf_0 x) as [x _ IH]; intros s.
  destruct (decide (x = 0)%N) as [->|Hnz]; [done|].
  rewrite pretty_N_go_step by lia.
  etransitivity; [|apply IH, N.div_lt; lia]. cbn. lia.
Qed.

(** Printing a [uint] and parsing it back. *)
Lemma ParseUint_fmt_d z bits :
  0 < bits ≤ 64 → 0 ≤ z < 2 ^ bits → ParseUint (fmt_d z) bits = (z, None).
Proof.
  intros Hb Hz.
  assert (2 ^ bits ≤ 2 ^ 64) by (apply Z.pow_le_mono_r; lia).
  destruct z as [|p|p]; [| |lia].
  - change (ParseUint (fmt_d 0) bits) with (parse_digits (2 ^ bits - 1) 0 "0").
    cbn [parse_digits]. change (digit_val "0"%char) with (Some 0). cbv beta iota zeta.
    change (u64 (u64 (0 * 10) + 0)) with 0. simpl.
    by destruct (Z.ltb_spec (2 ^ bits - 1) 0); [lia|].
  - unfold fmt_d, pretty, pretty_Z, pretty, pretty_positive, pretty, pretty_N.
    rewrite decide_False by done. unfold ParseUint.
    destruct (pretty_N_go (Npos p) "") eqn:E.
    { exfalso. rewrite pretty_N_go_step in E by lia.
      apply (f_equal String.length) in E.
      pose proof (pretty_N_go_length (N.pos p `div` 10) (String (pretty_N_char (N.pos p `mod` 10)) "")).
      rewrite E in *. cbn in *. lia. }
    rewrite <-E, parse_digits_pretty; [done|unfold MaxUint64; lia|lia].
Qed.

Lemma parse_digits_range maxVal n s v :
  0 ≤ n ≤ maxVal → parse_digits maxVal n s = (v, None) → 0 ≤ v ≤ maxVal.
Proof.
  revert n. induction s as [|c s IH]; intros n Hn; cbn [parse_digits].
  - by intros [= <-].
  - destruct (digit_val c); [|done]. case_match; [done|].
    destruct ((_ <? _) || _) eqn:E; [done|]. reflect_bools.
    apply IH. pose proof (u64_range (u64 (n * 10) + z)). lia.
Qed.
Lemma ParseUint_range s bits v :
  0 ≤ bits → ParseUint s bits = (v, None) → 0 ≤ v < 2 ^ bits.
Proof.
  intros Hb. pose proof (Z.pow_pos_nonneg 2 bits ltac:(done) Hb).
  unfold ParseUint. destruct s; [done|]. intros H'%parse_digits_range; lia.
Qed.

Lemma fmt_d_no_byte c z :
  digit_val c = None → c ≠ "-"%char ∨ 0 ≤ z → has_byte c (fmt_d z) = false.
Proof.
  intros Hc Hm.
  assert (∀ x s, has_byte c s = false → has_byte c (pretty_N_go x s) = false) as Hgo.
  { intros x. induction (N.lt_wf_0 x) as [x _ IH]; intros s Hs.
    destruct (decide (x = 0)%N) as [->|Hnz]; [done|].
    rewrite pretty_N_go_step by lia. apply IH; [apply N.div_lt; lia|].
    cbn. rewrite Hs, orb_false_r. apply Ascii.eqb_neq. intros <-.
    by rewrite digit_val_pretty in Hc by (by apply N.mod_lt). }
  destruct z as [|p|p].
  - change (has_byte c "0" = false). unfold has_byte.
    rewrite orb_false_r. apply Ascii.eqb_neq. by intros <-.
  - by apply Hgo.
  - change (Ascii.eqb "-" c || has_byte c (pretty_N_go (Npos p) "") = false).
    destruct Hm as [Hm|]; [|lia].
    apply orb_false_iff; split; [by apply Ascii.eqb_neq|]. by apply Hgo.
Qed.

Lemma fmt_d_ne_empty z : fmt_d z ≠ "".
Proof.
  assert (∀ x s, s ≠ "" → pretty_N_go x s ≠ "") as Hgo.
  { intros x s Hs E. apply (f_equal String.length) in E.
    pose proof (pretty_N_go_length x s). destruct s; [done|]. cbn in *. lia. }
  destruct z as [|p|p]; cbn; [done| |done].
  unfold pretty, pretty_positive, pretty, pretty_N. rewrite decide_False by done.
  rewrite pretty_N_go_step by lia. by apply Hgo.
Qed.

#[export] Hint Rewrite string_app_assoc string_app_nil_r HasPrefix_app HasSuffix_app
  TrimPrefix_app : go_strings.

Lemma parse_digits_nonneg maxVal n s : 0 ≤ maxVal → 0 ≤ n → 0 ≤ fst (parse_digits maxVal n s).
Proof.
  intros Hm. revert n. induction s as [|c s IH]; intros n Hn; cbn [parse_digits]; [done|].
  destruct (digit_val c); [|done]. destruct (_ <=? n); [done|].
  destruct (_ || _); [done|]. apply IH. apply u64_range.
Qed.
Lemma ParseInt_range s bits v :
  0 < bits → ParseInt s bits = (v, None) → - 2 ^ (bits - 1) ≤ v < 2 ^ (bits - 1).
Proof.
  intros Hb. unfold ParseInt. destruct s as [|c rest]; [done|].
  generalize (if Ascii.eqb c "-" || Ascii.eqb c "+" then rest else String c rest) as body. intros body.
  generalize (Ascii.eqb c "-") as neg. intros neg.
  assert (0 ≤ fst (ParseUint body bits)) as Hn.
  { unfold ParseUint. destruct body; [done|]. apply parse_digits_nonneg; [|done].
    pose proof (Z.pow_pos_nonneg 2 bits). lia. }
  assert (0 < 2 ^ (bits - 1)) as Hp by (apply Z.pow_pos_nonneg; lia).
  assert (∀ un, 0 ≤ un → signed_range neg (2 ^ (bits - 1)) un = (v, None) →
            - 2 ^ (bits - 1) ≤ v < 2 ^ (bits - 1)) as Hend.
  { intros un Hun. unfold signed_range. destruct neg; cbn.
    - destruct (Z.ltb_spec (2 ^ (bits - 1)) un); [done|]. intros [= <-]. lia.
    - destruct (Z.leb_spec (2 ^ (bits - 1)) un); [done|]. intros [= <-]. lia. }
  destruct (ParseUint body bits) as [un [e|]]; [|by apply Hend].
  destruct (is_ErrRange e); [by apply Hend|done].
Qed.
