(* ===== verification/GoBytes.v ===== *)
(** * Go's [encoding/hex], [encoding/binary] and [encoding/base64] on byte slices

    A [[]byte] is a [list byte].  The lemmas are the round trips and length
    facts the index and key formats rest on. *)

From S2P Require Import Prelude GoStrings.

Local Open Scope Z_scope.

#[export] Instance byte_eq_dec : EqDecision byte := Byte.byte_eq_dec.
#[export] Instance byte_inhabited : Inhabited byte := populate x00.

Definition byte_Z (b : byte) : Z := Z.of_N (Byte.to_N b).
Definition Z_byte (z : Z) : byte := default x00 (Byte.of_N (Z.to_N (z `mod` 256))).

Lemma byte_Z_range b : 0 ≤ byte_Z b < 256.
Proof. unfold byte_Z. pose proof (Byte.to_N_bounded b). lia. Qed.
Lemma Z_byte_Z b : Z_byte (byte_Z b) = b.
Proof.
  unfold Z_byte. rewrite Z.mod_small by apply byte_Z_range.
  unfold byte_Z. by rewrite N2Z.id, Byte.of_to_N.
Qed.
Lemma byte_Z_byte z : byte_Z (Z_byte z) = z `mod` 256.
Proof.
  unfold Z_byte, byte_Z. pose proof (Z.mod_pos_bound z 256 ltac:(done)).
  destruct (Byte.of_N (Z.to_N (z `mod` 256))) as [b|] eqn:E; simpl.
  - apply Byte.to_of_N in E. rewrite E. lia.
  - apply Byte.of_N_None_iff in E. lia.
Qed.
#[export] Instance byte_Z_inj : Inj (=) (=) byte_Z.
Proof. intros a b H. by rewrite <-(Z_byte_Z a), <-(Z_byte_Z b), H. Qed.

(** [string(b)] and [[]byte(s)] conversions. *)
Definition bytes_string (bs : list byte) : string := String.string_of_list_byte bs.
Definition string_bytes (s : string) : list byte := String.list_byte_of_string s.

(** ** encoding/hex *)

Definition hexdigits : string := "0123456789abcdef".
Definition hex_char (z : Z) : ascii :=
  default "0"%char (String.get (Z.to_nat z) hexdigits).

(** The reverse table accepts both cases. *)
Definition hex_val (c : ascii) : option Z :=
  let n := Z.of_nat (nat_of_ascii c) in
  if (48 <=? n) && (n <=? 57) then Some (n - 48)
  else if (97 <=? n) && (n <=? 102) then Some (n - 87)
  else if (65 <=? n) && (n <=? 70) then Some (n - 55)
  else None.

Fixpoint hex_EncodeToString (bs : list byte) : string :=
  match bs with
  | [] => ""
  | b :: bs => String (hex_char (byte_Z b / 16))
                 (String (hex_char (byte_Z b `mod` 16)) (hex_EncodeToString bs))
  end.

(** The bytes decoded before the first bad digit, and the error. *)
Fixpoint hex_DecodeString (s : string) : list byte * option error :=
  match s with
  | "" => ([], None)
  | String p "" => ([], Some (Sentinel "hex.ErrLength"))
  | String p (String q s) =>
      match hex_val p, hex_val q with
      | Some a, Some b =>
          let '(bs, e) := hex_DecodeString s in (Z_byte (16 * a + b) :: bs, e)
      | _, _ => ([], Some (Sentinel "hex.InvalidByteError"))
      end
  end.

(** Lower-case hexadecimal text, the only one [EncodeToString] produces. *)
Fixpoint lower_hex (s : string) : bool :=
  match s with
  | "" => true
  | String c s =>
      let n := Z.of_nat (nat_of_ascii c) in
      ((48 <=? n) && (n <=? 57) || (97 <=? n) && (n <=? 102)) && lower_hex s
  end.

Lemma hex_val_char z : 0 ≤ z < 16 → hex_val (hex_char z) = Some z.
Proof.
  intros. assert (z ∈ seqZ 0 16) as Hz by (apply elem_of_seqZ; lia).
  clear H. revert z Hz. apply Forall_forall. repeat constructor.
Qed.
Lemma hex_char_lower z s : 0 ≤ z < 16 → lower_hex (String (hex_char z) s) = lower_hex s.
Proof.
  intros Hz. assert (z ∈ seqZ 0 16) as Hin by (apply elem_of_seqZ; lia). clear Hz.
  revert s. revert z Hin.
  apply (Forall_forall (λ z, ∀ s, lower_hex (String (hex_char z) s) = lower_hex s)).
  repeat (constructor; [done|]). constructor.
Qed.
Lemma hex_char_of_val c v :
  hex_val c = Some v → lower_hex (String c "") = true → hex_char v = c.
Proof.
  destruct c as [[] [] [] [] [] [] [] []]; vm_compute; intros; by simplify_eq.
Qed.
Lemma hex_val_range c v : hex_val c = Some v → 0 ≤ v < 16.
Proof.
  unfold hex_val. pose proof (nat_ascii_bounded c).
  repeat case_match; intros; simplify_eq; reflect_bools; lia.
Qed.

Lemma nibbles z : 0 ≤ z < 256 → 0 ≤ z / 16 < 16 ∧ 0 ≤ z `mod` 16 < 16 ∧ 16 * (z / 16) + z `mod` 16 = z.
Proof.
  intros. pose proof (Z.div_mod z 16 ltac:(done)). pose proof (Z.mod_pos_bound z 16 ltac:(done)).
  assert (z / 16 < 16) by (apply Z.div_lt_upper_bound; lia).
  assert (0 ≤ z / 16) by (apply Z.div_pos; lia). lia.
Qed.

Lemma hex_Decode_Encode bs : hex_DecodeString (hex_EncodeToString bs) = (bs, None).
Proof.
  induction bs as [|b bs IH]; [done|].
  destruct (nibbles (byte_Z b) (byte_Z_range b)) as (Ha & Hb & Hab).
  cbn [hex_EncodeToString hex_DecodeString].
  rewrite !hex_val_char, IH by done. by rewrite Hab, Z_byte_Z.
Qed.
Lemma hex_Encode_length bs : String.length (hex_EncodeToString bs) = (2 * length bs)%nat.
Proof. induction bs as [|b bs IH]; [done|]. cbn [hex_EncodeToString String.length length]. lia. Qed.
Lemma hex_Encode_lower bs : lower_hex (hex_EncodeToString bs) = true.
Proof.
  induction bs as [|b bs IH]; [done|].
  destruct (nibbles (byte_Z b) (byte_Z_range b)) as (Ha & Hb & _).
  cbn [hex_EncodeToString]. by rewrite !hex_char_lower.
Qed.
#[export] Instance hex_EncodeToString_inj : Inj (=) (=) hex_EncodeToString.
Proof.
  intros a b H. apply (f_equal hex_DecodeString) in H.
  rewrite !hex_Decode_Encode in H. by injection H.
Qed.

(** Induction two bytes at a time. *)
Lemma string_pair_ind (P : string → Prop) :
  P "" → (∀ a, P (String a "")) → (∀ a b s, P s → P (String a (String b s))) → ∀ s, P s.
Proof.
  intros H0 H1 H2 s. enough (P s ∧ ∀ a, P (String a s)) by naive_solver.
  induction s as [|c s [IH1 IH2]]; naive_solver.
Qed.

Lemma hex_Decode_length s bs :
  hex_DecodeString s = (bs, None) → String.length s = (2 * length bs)%nat.
Proof.
  revert bs. induction s as [|a|a b s IH] using string_pair_ind; intros bs.
  - by intros [= <-].
  - done.
  - cbn [hex_DecodeString]. destruct (hex_val a), (hex_val b); try done.
    destruct (hex_DecodeString s) as [bs' e]. intros [= <- ->].
    cbn [String.length length]. rewrite (IH bs' eq_refl). lia.
Qed.
Lemma hex_Encode_Decode s bs :
  hex_DecodeString s = (bs, None) → lower_hex s = true → hex_EncodeToString bs = s.
Proof.
  revert bs. induction s as [|a|a b s IH] using string_pair_ind; intros bs.
  - by intros [= <-].
  - done.
  - cbn [hex_DecodeString].
    destruct (hex_val a) as [va|] eqn:Ea, (hex_val b) as [vb|] eqn:Eb; try done.
    destruct (hex_DecodeString s) as [bs' e]. intros [= <- ->] Hl.
    cbn [lower_hex] in Hl. apply andb_true_iff in Hl as [Hla [Hlb Hl]%andb_true_iff].
    apply hex_val_range in Ea as Ra. apply hex_val_range in Eb as Rb.
    cbn [hex_EncodeToString]. rewrite byte_Z_byte, Z.mod_small by lia.
    rewrite (Z.mul_comm 16 va), Z.div_add_l, (Z.div_small vb), Z.add_0_r by lia.
    rewrite Z.add_comm, Z_mod_plus_full, (Z.mod_small vb) by lia.
    rewrite (IH bs' eq_refl Hl).
    rewrite (hex_char_of_val a), (hex_char_of_val b); try done.
    + cbn [lower_hex]. by rewrite Hlb.
    + cbn [lower_hex]. by rewrite Hla.
Qed.

(** ** encoding/binary, little endian *)

Fixpoint le_Z (bs : list byte) : Z :=
  match bs with [] => 0 | b :: bs => byte_Z b + 256 * le_Z bs end.
Fixpoint le_bytes (n : nat) (z : Z) : list byte :=
  match n with O => [] | S n => Z_byte z :: le_bytes n (z / 256) end.

(** [binary.LittleEndian.Uint64] and [AppendUint64]. *)
Definition LE_Uint64 (bs : list byte) : Z := le_Z (take 8 bs).
Definition LE_Uint32 (bs : list byte) : Z := le_Z (take 4 bs).
Definition LE_PutUint64 (z : Z) : list byte := le_bytes 8 z.

Lemma length_le_bytes n z : length (le_bytes n z) = n.
Proof. revert z. induction n as [|n IH]; intros z; cbn; [done|]. by rewrite IH. Qed.
Lemma le_Z_bytes n z : le_Z (le_bytes n z) = z `mod` 256 ^ Z.of_nat n.
Proof.
  revert z. induction n as [|n IH]; intros z; cbn [le_bytes le_Z].
  - by rewrite Z.mod_1_r.
  - rewrite IH, byte_Z_byte, Nat2Z.inj_succ, Z.pow_succ_r by lia.
    rewrite Z.rem_mul_r; [done|done|]. apply Z.pow_pos_nonneg; lia.
Qed.
Lemma le_Z_range bs : 0 ≤ le_Z bs < 256 ^ Z.of_nat (length bs).
Proof.
  induction bs as [|b bs IH]; cbn [le_Z length]; [done|].
  rewrite Nat2Z.inj_succ, Z.pow_succ_r by lia. pose proof (byte_Z_range b). lia.
Qed.
Lemma LE_Uint64_range bs : is_u64 (LE_Uint64 bs).
Proof.
  unfold LE_Uint64. pose proof (le_Z_range (take 8 bs)) as [H1 H2].
  split; [done|]. eapply Z.lt_le_trans; [done|].
  change (2 ^ 64) with (256 ^ 8). apply Z.pow_le_mono_r; [done|].
  rewrite length_take. lia.
Qed.
Lemma LE_Uint64_Put z rest : is_u64 z → LE_Uint64 (LE_PutUint64 z ++ rest) = z.
Proof.
  intros. unfold LE_Uint64, LE_PutUint64. rewrite take_app_length' by (by rewrite length_le_bytes).
  rewrite le_Z_bytes. by rewrite Z.mod_small.
Qed.

(** ** encoding/base64, [RawStdEncoding] *)

Definition b64_alphabet : string :=
  "ABCDEFGHIJKLMNOPQRSTUVWXYZabcdefghijklmnopqrstuvwxyz0123456789+/".
Definition b64_char (z : Z) : ascii := default "A"%char (String.get (Z.to_nat z) b64_alphabet).
Definition b64_val (c : ascii) : option Z :=
  let n := Z.of_nat (nat_of_ascii c) in
  if (65 <=? n) && (n <=? 90) then Some (n - 65)
  else if (97 <=? n) && (n <=? 122) then Some (n - 71)
  else if (48 <=? n) && (n <=? 57) then Some (n + 4)
  else if n =? 43 then Some 62
  else if n =? 47 then Some 63
  else None.

Fixpoint b64_encode (bs : list byte) : string :=
  match bs with
  | [] => ""
  | [a] =>
      let x := byte_Z a in
      String (b64_char (x / 4)) (String (b64_char (x `mod` 4 * 16)) "")
  | [a; b] =>
      let x := byte_Z a in let y := byte_Z b in
      String (b64_char (x / 4)) (String (b64_char (x `mod` 4 * 16 + y / 16))
        (String (b64_char (y `mod` 16 * 4)) ""))
  | a :: b :: c :: bs =>
      let x := byte_Z a in let y := byte_Z b in let z := byte_Z c in
      String (b64_char (x / 4)) (String (b64_char (x `mod` 4 * 16 + y / 16))
        (String (b64_char (y `mod` 16 * 4 + z / 64)) (String (b64_char (z `mod` 64)) (b64_encode bs))))
  end.

(** The decoder skips line breaks, then reads groups of four digits; the last
    group may have two or three. *)
Fixpoint b64_digits (s : string) : option (list Z) :=
  match s with
  | "" => Some []
  | String c s =>
      if Ascii.eqb c "010"%char || Ascii.eqb c "013"%char then b64_digits s
      else match b64_val c, b64_digits s with
           | Some v, Some vs => Some (v :: vs)
           | _, _ => None
           end
  end.
Fixpoint b64_groups (vs : list Z) : option (list byte) :=
  match vs with
  | [] => Some []
  | [_] => None
  | [a; b] => Some [Z_byte (a * 4 + b / 16)]
  | [a; b; c] => Some [Z_byte (a * 4 + b / 16); Z_byte (b `mod` 16 * 16 + c / 4)]
  | a :: b :: c :: d :: vs =>
      match b64_groups vs with
      | Some bs => Some (Z_byte (a * 4 + b / 16) :: Z_byte (b `mod` 16 * 16 + c / 4)
                         :: Z_byte (c `mod` 4 * 64 + d) :: bs)
      | None => None
      end
  end.
(** [base64.RawStdEncoding.DecodeString], [None] when it reports an error. *)
Definition b64_DecodeString (s : string) : option (list byte) :=
  match b64_digits s with Some vs => b64_groups vs | None => None end.
Definition b64_EncodeToString (bs : list byte) : string := b64_encode bs.

Lemma b64_digits_char z s vs :
  0 ≤ z < 64 → b64_digits s = Some vs → b64_digits (String (b64_char z) s) = Some (z :: vs).
Proof.
  intros Hz Hs.
  assert (Ascii.eqb (b64_char z) "010" = false ∧ Ascii.eqb (b64_char z) "013" = false
          ∧ b64_val (b64_char z) = Some z) as (H1 & H2 & H3).
  { assert (z ∈ seqZ 0 64) as Hin by (apply elem_of_seqZ; lia). clear Hz. revert z Hin.
    apply Forall_forall. repeat constructor. }
  cbn [b64_digits]. by rewrite H1, H2, H3, Hs.
Qed.

(** A list three elements at a time. *)
Lemma list_triple_ind {A} (P : list A → Prop) :
  P [] → (∀ a, P [a]) → (∀ a b, P [a; b]) → (∀ a b c l, P l → P (a :: b :: c :: l)) → ∀ l, P l.
Proof.
  intros H0 H1 H2 H3 l. enough (P l ∧ (∀ a, P (a :: l)) ∧ ∀ a b, P (a :: b :: l)) by naive_solver.
  induction l as [|x l (IH1 & IH2 & IH3)]; naive_solver.
Qed.

#[local] Ltac byte_goal :=
  apply byte_Z_inj; rewrite byte_Z_byte; Z.to_euclidean_division_equations; lia.

(** [base64] round trip: every note survives the tag it is stored in. *)
Lemma b64_Decode_Encode bs : b64_DecodeString (b64_EncodeToString bs) = Some bs.
Proof.
  unfold b64_DecodeString, b64_EncodeToString.
  enough (∃ vs, b64_digits (b64_encode bs) = Some vs ∧ b64_groups vs = Some bs)
    as (vs & -> & ->) by done.
  assert (∀ x, 0 ≤ x < 256 →
    0 ≤ x / 4 < 64 ∧ 0 ≤ x `mod` 4 < 4 ∧ 0 ≤ x / 16 < 16 ∧ 0 ≤ x `mod` 16 < 16 ∧
    0 ≤ x / 64 < 4 ∧ 0 ≤ x `mod` 64 < 64) as R.
  { intros x Hx. repeat split; try apply Z.mod_pos_bound; try apply Z.div_pos;
      try apply Z.div_lt_upper_bound; lia. }
  induction bs as [|a|a b|a b c bs (vs & IH1 & IH2)] using list_triple_ind.
  - by exists [].
  - pose proof (byte_Z_range a). destruct (R (byte_Z a)) as (?&?&?&?&?&?); [done|].
    eexists. cbn [b64_encode]. split.
    + apply b64_digits_char; [lia|]. apply b64_digits_char; [lia|done].
    + cbn [b64_groups]. repeat f_equal. byte_goal.
  - pose proof (byte_Z_range a). destruct (R (byte_Z a)) as (?&?&?&?&?&?); [done|].
    pose proof (byte_Z_range b). destruct (R (byte_Z b)) as (?&?&?&?&?&?); [done|].
    eexists. cbn [b64_encode]. split.
    + apply b64_digits_char; [lia|]. apply b64_digits_char; [lia|].
      apply b64_digits_char; [lia|done].
    + cbn [b64_groups]. repeat f_equal; byte_goal.
  - pose proof (byte_Z_range a). destruct (R (byte_Z a)) as (?&?&?&?&?&?); [done|].
    pose proof (byte_Z_range b). destruct (R (byte_Z b)) as (?&?&?&?&?&?); [done|].
    pose proof (byte_Z_range c). destruct (R (byte_Z c)) as (?&?&?&?&?&?); [done|].
    eexists. cbn [b64_encode]. split.
    + do 4 (apply b64_digits_char; [lia|]). exact IH1.
    + cbn [b64_groups]. rewrite IH2. repeat f_equal; byte_goal.
Qed.
