(* ===== verification/Sha256.v ===== *)
(** * SHA-256 ([crypto/sha256])

    The digest the index checksums, the chunk names and the lock names are made
    of, as an executable function on bytes.  The theorems of the development
    use one fact about it, the length of the sum; the definition is checked
    against the published test vectors below. *)

From S2P Require Import Prelude GoStrings GoBytes.

Local Open Scope Z_scope.

Definition w32 (z : Z) : Z := Z.land z 0xffffffff.
Definition rotr (n z : Z) : Z :=
  Z.lor (Z.shiftr z n) (w32 (Z.shiftl z (32 - n))).

(** The constants are the first 32 bits of the fractional parts of the cube roots
    (the state: the square roots) of the first primes. *)
Definition is_prime (n : nat) : bool :=
  forallb (λ d, negb (n mod d =? 0)%nat) (seq 2 (n - 2)).
Definition primes : list Z := Z.of_nat <$> filter is_prime (seq 2 310).

(** The largest [r < 2 ^ bits] above [acc] with [r ^ e <= n], bit by bit. *)
Fixpoint root (e : Z) (bits : nat) (n acc : Z) : Z :=
  match bits with
  | O => acc
  | S bits =>
      let r := acc + 2 ^ Z.of_nat bits in
      root e bits n (if r ^ e <=? n then r else acc)
  end.
Definition frac_root (e p : Z) : Z := w32 (root e 40 (p * 2 ^ (32 * e)) 0).

Definition sha256_K : list Z := Eval vm_compute in frac_root 3 <$> primes.
Definition sha256_init : list Z := Eval vm_compute in frac_root 2 <$> take 8 primes.

Definition be_bytes (n : nat) (z : Z) : list byte := reverse (le_bytes n z).

(** The message followed by a one bit, zeros, and the bit length on 64 bits. *)
Definition sha256_pad (m : list byte) : list byte :=
  let n := length m in
  let zeros := Z.to_nat ((55 - Z.of_nat n) `mod` 64) in
  m ++ x80 :: replicate zeros x00 ++ be_bytes 8 (8 * Z.of_nat n).

Fixpoint words_be (bs : list byte) : list Z :=
  match bs with
  | a :: b :: c :: d :: bs =>
      (byte_Z a * 2 ^ 24 + byte_Z b * 2 ^ 16 + byte_Z c * 2 ^ 8 + byte_Z d) :: words_be bs
  | _ => []
  end.

(** The message schedule, most recent word first. *)
Definition schedule_next (ws : list Z) : Z :=
  let w i := nth i ws 0 in
  let s0 := Z.lxor (Z.lxor (rotr 7 (w 14%nat)) (rotr 18 (w 14%nat))) (Z.shiftr (w 14%nat) 3) in
  let s1 := Z.lxor (Z.lxor (rotr 17 (w 1%nat)) (rotr 19 (w 1%nat))) (Z.shiftr (w 1%nat) 10) in
  w32 (w 15%nat + s0 + w 6%nat + s1).
Fixpoint schedule (n : nat) (ws : list Z) : list Z :=
  match n with O => ws | S n => schedule n (schedule_next ws :: ws) end.

Definition sha256_round (st : list Z) (kw : Z * Z) : list Z :=
  match st with
  | [a; b; c; d; e; f; g; h] =>
      let S1 := Z.lxor (Z.lxor (rotr 6 e) (rotr 11 e)) (rotr 25 e) in
      let ch := Z.lxor (Z.land e f) (Z.land (Z.lxor e 0xffffffff) g) in
      let t1 := h + S1 + ch + fst kw + snd kw in
      let S0 := Z.lxor (Z.lxor (rotr 2 a) (rotr 13 a)) (rotr 22 a) in
      let maj := Z.lxor (Z.lxor (Z.land a b) (Z.land a c)) (Z.land b c) in
      [w32 (t1 + S0 + maj); a; b; c; w32 (d + t1); e; f; g]
  | _ => st
  end.

Definition sha256_block (st : list Z) (block : list byte) : list Z :=
  let ws := reverse (schedule 48 (reverse (words_be block))) in
  zip_with (λ x y, w32 (x + y)) st (foldl sha256_round st (zip sha256_K ws)).

Fixpoint sha256_blocks (fuel : nat) (st : list Z) (bs : list byte) : list Z :=
  match fuel with
  | O => st
  | S fuel => match bs with
              | [] => st
              | _ => sha256_blocks fuel (sha256_block st (take 64 bs)) (drop 64 bs)
              end
  end.

(** [sha256.Sum256]; the fuel bounds the number of 64-byte blocks. *)
Definition sha256 (m : list byte) : list byte :=
  let p := sha256_pad m in
  mjoin (be_bytes 4 <$> sha256_blocks (length p) sha256_init p).

(** [sha256.Size]. *)
Definition sha256_Size : nat := 32.

Lemma length_sha256_round st kw : length (sha256_round st kw) = length st.
Proof. unfold sha256_round. repeat (case_match; try done). Qed.
Lemma length_sha256_rounds st kws : length (foldl sha256_round st kws) = length st.
Proof.
  revert st. induction kws as [|kw kws IH]; intros st; cbn; [done|].
  by rewrite IH, length_sha256_round.
Qed.
Lemma length_sha256_blocks fuel st bs : length (sha256_blocks fuel st bs) = length st.
Proof.
  revert st bs. induction fuel as [|fuel IH]; intros st bs; cbn [sha256_blocks]; [done|].
  destruct bs; [done|]. rewrite IH. unfold sha256_block.
  rewrite length_zip_with, length_sha256_rounds. lia.
Qed.

(** A sum is always 32 bytes. *)
Lemma length_sha256 m : length (sha256 m) = sha256_Size.
Proof.
  unfold sha256.
  pose proof (length_sha256_blocks (length (sha256_pad m)) sha256_init (sha256_pad m)) as H.
  remember (sha256_blocks _ _ _) as ws eqn:E. clear E.
  change (length sha256_init) with 8%nat in H.
  do 8 (destruct ws as [|? ws]; [done|]). destruct ws; [|done].
  unfold be_bytes. cbn [fmap list_fmap mjoin list_join].
  by rewrite !length_app, !length_reverse, !length_le_bytes.
Qed.

Lemma sha256_abc :
  hex_EncodeToString (sha256 (string_bytes "abc"))
  = "ba7816bf8f01cfea414140de5dae2223b00361a396177a9cb410ff61f20015ad".
Proof. vm_compute. reflexivity. Qed.
Lemma sha256_empty :
  hex_EncodeToString (sha256 [])
  = "e3b0c44298fc1c149afbf4c8996fb92427ae41e4649b934ca495991b7852b855".
Proof. vm_compute. reflexivity. Qed.
Lemma sha256_two_blocks :
  hex_EncodeToString (sha256 (string_bytes "abcdbcdecdefdefgefghfghighijhijkijkljklmklmnlmnomnopnopq"))
  = "248d6a61d20638b8e5c026930c3e6039a33ce45964ff2167f6ecedd419db06c1".
Proof. vm_compute. reflexivity. Qed.

#[global] Opaque sha256.
