(* ===== verification/S3.v ===== *)
(** * The S3 client library as an interface

    [minio-go] is not part of the repository.  Its operations are the class
    [ObjectStore] over an abstract world [W] - the world decides every failure,
    so a theorem over all instances covers every behaviour of the endpoint -
    and what the code relies on are the laws of [ObjectStoreLaws], stated over
    the view [contents] of what the buckets hold.  The source has the same
    seams: [objectLister], [objectRemover], [objectTagReader] and
    [chunkObjectStore] are sub-interfaces of this class.  [MemWorld] is a
    concrete instance with injectable faults. *)

From S2P Require Import Prelude GoStrings GoBytes.

Local Open Scope Z_scope.

(** ** Readers

    An [io.Reader] is what it delivers: its bytes, then an error other than
    [io.EOF], if any. *)
Record stream := Stream { s_bytes : list byte; s_err : option error }.

Definition EOF : error := Sentinel "io.EOF".
Definition ErrUnexpectedEOF : error := Sentinel "io.ErrUnexpectedEOF".

(** [io.ReadAll]. *)
Definition io_ReadAll (s : stream) : res (list byte) :=
  match s_err s with None => Ok (s_bytes s) | Some e => Err e end.

(** [io.ReadFull] of a buffer of [n] bytes: the bytes read, the error, and what
    is left of the reader. *)
Definition io_ReadFull (n : nat) (s : stream) : list byte * option error * stream :=
  let got := take n (s_bytes s) in
  let rest := Stream (drop n (s_bytes s)) (s_err s) in
  if (n <=? length (s_bytes s))%nat then (got, None, rest)
  else match s_err s with
       | Some e => (got, Some e, rest)
       | None => (got, Some (if bool_decide (got = []) then EOF else ErrUnexpectedEOF), rest)
       end.

(** [io.Copy(io.Discard, r)]: the number of bytes, and the error. *)
Definition io_Discard (s : stream) : Z * option error :=
  (Z.of_nat (length (s_bytes s)), s_err s).

(** ** Data of the client library *)

Record ObjectInfo := mkObjectInfo {
  Key : string;
  Size : Z;                                   (* int64 *)
  LastModified : Z;                           (* time.Time, nanoseconds since the epoch *)
  UserTags : gmap string string;
  UserMetadata : gmap string string;
  oi_Err : option error;                      (* ObjectInfo.Err, set on listing errors *)
}.

Record RemoveObjectError := mkRemoveObjectError { ObjectName : string; roe_Err : error }.

Record ListObjectsOptions := mkListOptions { Prefix : string; WithMetadata : bool }.

Record PutObjectOptions := mkPutOptions {
  StorageClass : string;
  po_UserMetadata : gmap string string;
  ContentType : string;
}.

Record CopyDestOptions := mkCopyDest {
  cd_Bucket : string;
  cd_Object : string;
  ReplaceMetadata : bool;
  cd_UserMetadata : gmap string string;
}.
Record CopySrcOptions := mkCopySrc { cs_Bucket : string; cs_Object : string }.

Inductive BucketLookupType := BucketLookupAuto | BucketLookupDNS | BucketLookupPath.
Record Options := mkOptions {
  Creds_AccessKeyID : string;
  Creds_SecretAccessKey : string;
  Secure : bool;
  BucketLookup : BucketLookupType;
}.

(** [m[k]] of a Go map of strings: the zero value when absent. *)
Definition get_tag (m : gmap string string) (k : string) : string := default "" (m !! k).

(** ** Operations *)

Class ObjectStore (W : Type) := {
  Object : Type;                              (* a *minio.Object *)
  ListObjects : string → ListObjectsOptions → st W (list ObjectInfo);
  RemoveObjects : string → list ObjectInfo → st W (list RemoveObjectError);
  GetObjectTagging : string → string → io W (gmap string string);
  PutObjectTagging : string → string → gmap string string → io W unit;
  StatObject : string → string → io W ObjectInfo;
  (* the outcome and how many bytes of the body it read *)
  PutObject : string → string → stream → Z → PutObjectOptions → st W (res unit * nat);
  CopyObject : CopyDestOptions → CopySrcOptions → io W unit;
  (* an optional byte range, inclusive *)
  GetObject : string → string → option (Z * Z) → io W Object;
  Object_Read : Object → st W stream;
  Object_Stat : Object → io W ObjectInfo;
  BucketExists : string → io W bool;
  (* the client of the run; the other operations are its methods *)
  minio_New : string → Options → io W unit;
  (* the names of the buckets a client may see *)
  ListBuckets : string → Options → io W (list string);
}.

(** ** Laws *)

(** What a bucket holds under a key. *)
Record Obj := mkObj {
  o_data : list byte;
  o_meta : gmap string string;
  o_tags : gmap string string;
  o_modified : Z;
}.

(** A listing entry tells the key, the size and the age of the object; tags and
    user metadata are listed by some servers only. *)
Definition describes (oi : ObjectInfo) (o : Obj) : Prop :=
  Size oi = Z.of_nat (length (o_data o)) ∧ LastModified oi = o_modified o.

(** What a reader may deliver of a source that is there or not. *)
Definition delivers (s : stream) (source : option (list byte)) : Prop :=
  match source with
  | Some data => s_bytes s `prefix_of` data ∧ (s_err s = None → s_bytes s = data)
  | None => s_bytes s = [] ∧ s_err s ≠ None
  end.

(** User metadata is stored under canonical header names; an [x-amz-] name is a
    header of the service, not metadata. *)
Definition meta_stored (given stored : gmap string string) : Prop :=
  ∀ k v, given !! k = Some v → HasPrefix k "x-amz-" = false →
    (∀ k', is_Some (given !! k') → CanonicalHeaderKey k' = CanonicalHeaderKey k → k' = k) →
    stored !! CanonicalHeaderKey k = Some v.

Class StoreView (W : Type) := contents : W → string → gmap string Obj.

(** [keeps P]: every object [P] holds of is the same afterwards. *)
Definition keeps {W} `{StoreView W} (P : string → string → Prop) : relation W :=
  λ w w', ∀ b k, P b k → contents w' b !! k = contents w b !! k.

#[export] Instance keeps_preorder {W} `{StoreView W} P : PreOrder (keeps (W:=W) P).
Proof.
  split.
  - intros w b k _. done.
  - intros w1 w2 w3 H12 H23 b k Hk. by rewrite H23, H12.
Qed.
Lemma keeps_weaken {W} `{StoreView W} (P Q : string → string → Prop) w w' :
  (∀ b k, Q b k → P b k) → keeps (W:=W) P w w' → keeps Q w w'.
Proof. intros HPQ HP b k HQ. by apply HP, HPQ. Qed.

(** Nothing at all changes. *)
Definition keeps_all {W} `{StoreView W} : relation W := keeps (λ _ _, True).
Lemma keeps_all_lookup {W} `{StoreView W} (w w' : W) b k :
  keeps_all w w' → contents w' b !! k = contents w b !! k.
Proof. intros H'. by apply H'. Qed.
Lemma keeps_all_contents {W} `{StoreView W} (w w' : W) b :
  keeps_all w w' → contents w' b = contents w b.
Proof. intros H'. apply map_eq. intros k. by apply H'. Qed.

(** [shrinks P]: every object is the same afterwards, or it is gone and [P]
    holds of it. *)
Definition shrinks {W} `{StoreView W} (P : string → string → Prop) : relation W :=
  λ w w', ∀ b k, contents w' b !! k = contents w b !! k ∨ (P b k ∧ contents w' b !! k = None).

#[export] Instance shrinks_preorder {W} `{StoreView W} P : PreOrder (shrinks (W:=W) P).
Proof.
  split.
  - intros w b k. by left.
  - intros w1 w2 w3 H12 H23 b k.
    destruct (H23 b k) as [->|[? ->]]; [apply H12|by right].
Qed.
Lemma shrinks_weaken {W} `{StoreView W} (P Q : string → string → Prop) w w' :
  (∀ b k, P b k → Q b k) → shrinks (W:=W) P w w' → shrinks Q w w'.
Proof. intros HPQ HP b k. destruct (HP b k) as [?|[??]]; auto. Qed.
Lemma shrinks_keeps {W} `{StoreView W} P (w w' : W) :
  shrinks P w w' → keeps (λ b k, ¬ P b k) w w'.
Proof. intros HP b k Hn. by destruct (HP b k) as [?|[??]]. Qed.
Lemma keeps_all_shrinks {W} `{StoreView W} P (w w' : W) : keeps_all w w' → shrinks P w w'.
Proof. intros Hk b k. left. by apply Hk. Qed.

(** Nothing is removed. *)
Definition loses_nothing {W} `{StoreView W} : relation W :=
  λ w w', ∀ b k, is_Some (contents w b !! k) → is_Some (contents w' b !! k).
#[export] Instance loses_nothing_preorder {W} `{StoreView W} : PreOrder (loses_nothing (W:=W)).
Proof. split; [by intros w b k|]. intros w1 w2 w3 H12 H23 b k Hk. by apply H23, H12. Qed.
Lemma keeps_all_loses_nothing {W} `{StoreView W} (w w' : W) : keeps_all w w' → loses_nothing w w'.
Proof. intros Hk b k. by rewrite (keeps_all_lookup _ _ _ _ Hk). Qed.

(** [keeps_present P]: every object [P] holds of the key of is the same afterwards. *)
Definition keeps_present {W} `{StoreView W} (P : string → Prop) : relation W :=
  λ w w', ∀ b k, P k → is_Some (contents w b !! k) → contents w' b !! k = contents w b !! k.
#[export] Instance keeps_present_preorder {W} `{StoreView W} P : PreOrder (keeps_present (W:=W) P).
Proof.
  split; [by intros w b k|]. intros w1 w2 w3 H12 H23 b k Hk Hs.
  rewrite H23, H12; [done..|]. by rewrite H12.
Qed.
Lemma keeps_all_keeps_present {W} `{StoreView W} P (w w' : W) : keeps_all w w' → keeps_present P w w'.
Proof. intros Hk b k _ _. by apply Hk. Qed.

(** [minio.ToErrorResponse]: any other error has a code of its own. *)
Definition ToErrorResponse (e : error) : Z * string :=
  match e with
  | ErrorResponse status code => (status, code)
  | _ => (500, "InternalError")
  end.
(** The answers of a server that has no such object. *)
Definition denies_object (e : error) : bool :=
  let '(status, code) := ToErrorResponse e in
  (status =? 404) || bool_decide (code = "NoSuchKey") || bool_decide (code = "NoSuchObject")
  || bool_decide (code = "NotFound").

Class ObjectStoreLaws (W : Type) `{ObjectStore W} `{StoreView W} := {
  (* reads change nothing *)
  ListObjects_effect b o : st_effect keeps_all (ListObjects b o);
  GetObjectTagging_effect b k : effect keeps_all (GetObjectTagging b k);
  StatObject_effect b k : effect keeps_all (StatObject b k);
  GetObject_effect b k r : effect keeps_all (GetObject b k r);
  Object_Read_effect r : st_effect keeps_all (Object_Read r);
  Object_Stat_effect r : effect keeps_all (Object_Stat r);
  BucketExists_effect b : effect keeps_all (BucketExists b);
  minio_New_effect e o : effect keeps_all (minio_New e o);
  ListBuckets_effect e o : effect keeps_all (ListBuckets e o);
  (* a listing without an error entry is complete, exact and without repetition *)
  ListObjects_complete b o w l w' :
    ListObjects b o w = (l, w') → Forall (λ oi, oi_Err oi = None) l →
    ∀ k x, contents w b !! k = Some x → HasPrefix k (Prefix o) = true →
      ∃ oi, oi ∈ l ∧ Key oi = k ∧ describes oi x;
  ListObjects_sound b o w l w' :
    ListObjects b o w = (l, w') → ∀ oi, oi ∈ l → oi_Err oi = None →
      HasPrefix (Key oi) (Prefix o) = true ∧
      ∃ x, contents w b !! Key oi = Some x ∧ describes oi x;
  ListObjects_NoDup b o w l w' :
    ListObjects b o w = (l, w') → Forall (λ oi, oi_Err oi = None) l → NoDup (Key <$> l);
  (* a removal removes nothing but the objects it is given, and when it reports
     no error they are gone *)
  RemoveObjects_effect b l :
    st_effect (shrinks (λ b' k, b' = b ∧ k ∈ Key <$> l)) (RemoveObjects b l);
  RemoveObjects_done b l w w' :
    RemoveObjects b l w = ([], w') → ∀ k, k ∈ Key <$> l → contents w' b !! k = None;
  (* a reader delivers bytes of the object from the start, all of them when it
     ends without an error; reading an absent object is an error *)
  GetObject_read b k w r w1 w2 s w3 :
    GetObject b k None w = (Ok r, w1) → keeps_all w1 w2 → Object_Read r w2 = (s, w3) →
    delivers s (o_data <$> contents w b !! k);
  (* a ranged reader those of the range the object has *)
  GetObject_read_range b k i j w r w1 w2 s w3 :
    0 ≤ i ≤ j →
    GetObject b k (Some (i, j)) w = (Ok r, w1) → keeps_all w1 w2 → Object_Read r w2 = (s, w3) →
    delivers s ((λ x, slice (Z.to_nat i) (Z.to_nat (j + 1)) (o_data x)) <$> contents w b !! k);
  (* the metadata of an opened object describes it *)
  Object_Stat_describes b k r w o w1 w2 oi w3 :
    GetObject b k r w = (Ok o, w1) → keeps_all w1 w2 → Object_Stat o w2 = (Ok oi, w3) →
    ∃ x, contents w b !! k = Some x ∧ describes oi x;
  (* a tag read returns the tags of the object *)
  GetObjectTagging_read b k w t w' :
    GetObjectTagging b k w = (Ok t, w') →
    ∃ x, contents w b !! k = Some x ∧ o_tags x = t;
  (* writes touch one key; a successful one stores exactly the announced bytes *)
  PutObject_effect b k s n o :
    st_effect (keeps (λ b' k', b' ≠ b ∨ k' ≠ k)) (PutObject b k s n o);
  PutObject_present b k s n o : st_effect loses_nothing (PutObject b k s n o);
  PutObject_done b k s n o w m w' :
    PutObject b k s n o w = ((Ok tt, m), w') → 0 ≤ n →
    (Z.to_nat n ≤ length (s_bytes s))%nat ∧ m = Z.to_nat n ∧
    ∃ x, contents w' b !! k = Some x ∧ o_data x = take (Z.to_nat n) (s_bytes s) ∧
      meta_stored (po_UserMetadata o) (o_meta x);
  (* an upload takes place as a whole or not at all *)
  PutObject_atomic b k s n o w r w' :
    PutObject b k s n o w = (r, w') → 0 ≤ n →
    contents w' b !! k = contents w b !! k ∨
    ∃ x, contents w' b !! k = Some x ∧ o_data x = take (Z.to_nat n) (s_bytes s);
  StatObject_found b k w oi w' :
    StatObject b k w = (Ok oi, w') → is_Some (contents w b !! k);
  StatObject_absent b k w e w' :
    StatObject b k w = (Err e, w') → denies_object e = true → contents w b !! k = None;
  PutObjectTagging_effect b k t :
    effect (keeps (λ b' k', b' ≠ b ∨ k' ≠ k)) (PutObjectTagging b k t);
  CopyObject_effect d s :
    effect (keeps (λ b' k', b' ≠ cd_Bucket d ∨ k' ≠ cd_Object d)) (CopyObject d s);
  CopyObject_present d s : effect loses_nothing (CopyObject d s);
  CopyObject_done d s w w' :
    CopyObject d s w = (Ok tt, w') →
    ∃ y x, contents w (cs_Bucket s) !! cs_Object s = Some y ∧
      contents w' (cd_Bucket d) !! cd_Object d = Some x ∧ o_data x = o_data y ∧
      (if ReplaceMetadata d then meta_stored (cd_UserMetadata d) (o_meta x) else o_meta x = o_meta y);
  PutObjectTagging_done b k t w w' :
    PutObjectTagging b k t w = (Ok tt, w') →
    ∃ x y, contents w b !! k = Some x ∧ contents w' b !! k = Some y ∧
      o_data y = o_data x ∧ o_meta y = o_meta x ∧ o_tags y = t;
}.

#[export] Hint Resolve ListObjects_effect GetObjectTagging_effect StatObject_effect
  GetObject_effect Object_Read_effect Object_Stat_effect BucketExists_effect minio_New_effect ListBuckets_effect : go_effect.

(** A read-only call keeps every chosen part of the store. *)
Lemma keeps_all_keeps {W} `{StoreView W} P (w w' : W) : keeps_all w w' → keeps P w w'.
Proof. apply keeps_weaken. done. Qed.
Lemma effect_keeps {W A} `{StoreView W} (m : io W A) P :
  effect keeps_all m → effect (keeps P) m.
Proof. apply effect_mono. intros w w'. apply keeps_all_keeps. Qed.
Lemma st_effect_keeps {W A} `{StoreView W} (m : st W A) P :
  st_effect keeps_all m → st_effect (keeps P) m.
Proof. intros Hm w a w' Hr. by eapply keeps_all_keeps, Hm. Qed.
Lemma effect_shrinks {W A} `{StoreView W} (m : io W A) P :
  effect keeps_all m → effect (shrinks P) m.
Proof. apply effect_mono. intros w w'. apply keeps_all_shrinks. Qed.
Lemma st_effect_shrinks {W A} `{StoreView W} (m : st W A) P :
  st_effect keeps_all m → st_effect (shrinks P) m.
Proof. intros Hm w a w' Hr. by eapply keeps_all_shrinks, Hm. Qed.
Lemma effect_loses_nothing {W A} `{StoreView W} (m : io W A) :
  effect keeps_all m → effect loses_nothing m.
Proof. apply effect_mono. intros w w'. apply keeps_all_loses_nothing. Qed.
Lemma st_effect_loses_nothing {W A} `{StoreView W} (m : st W A) :
  st_effect keeps_all m → st_effect loses_nothing m.
Proof. intros Hm w a w' Hr. by eapply keeps_all_loses_nothing, Hm. Qed.
#[export] Hint Resolve PutObject_present CopyObject_present : go_effect.
#[export] Hint Resolve effect_loses_nothing st_effect_loses_nothing | 10 : go_effect.
#[export] Hint Resolve effect_keeps st_effect_keeps effect_shrinks st_effect_shrinks | 10 : go_effect.

(** The bytes a reader delivers when it ends without an error. *)
Lemma delivers_all s source :
  delivers s source → s_err s = None → source = Some (s_bytes s).
Proof. destruct source as [data|]; cbn; [|naive_solver]. intros [_ Hd] He. by rewrite Hd. Qed.
Lemma delivers_prefix s source l :
  delivers s source → l `prefix_of` s_bytes s → l ≠ [] → ∃ data, source = Some data ∧ l `prefix_of` data.
Proof.
  destruct source as [data|]; cbn.
  - intros [Hp _] Hl _. exists data. split; [done|]. by transitivity (s_bytes s).
  - intros [Hs _] Hl Hne. rewrite Hs in Hl. by apply prefix_nil_inv in Hl.
Qed.

(** A complete listing of a whole bucket is its contents. *)
Lemma listing_contents {W} `{ObjectStoreLaws W} b m (w : W) l w' :
  ListObjects b (mkListOptions "" m) w = (l, w') → Forall (λ oi, oi_Err oi = None) l →
  (λ oi, (Key oi, Size oi)) <$> l ≡ₚ
    (λ kx, (kx.1, Z.of_nat (length (o_data kx.2)))) <$> map_to_list (contents w b).
Proof.
  intros Hl Herr. apply NoDup_Permutation.
  - apply (NoDup_fmap_1 fst). rewrite <-list_fmap_compose. by eapply ListObjects_NoDup.
  - apply (NoDup_fmap_1 fst). rewrite <-list_fmap_compose. apply NoDup_fst_map_to_list.
  - intros [k n]. rewrite !list_elem_of_fmap. split.
    + intros (oi & [= -> ->] & Hin). rewrite Forall_forall in Herr.
      destruct (ListObjects_sound _ _ _ _ _ Hl oi Hin (Herr oi Hin)) as (_ & x & Hx & Hs & _).
      exists (Key oi, x). split; [by rewrite Hs|]. by apply elem_of_map_to_list.
    + intros ([k' x] & [= -> ->] & Hin%elem_of_map_to_list).
      destruct (ListObjects_complete _ _ _ _ _ Hl Herr k' x Hin) as (oi & Hoi & <- & Hs & _); [by destruct k'|].
      exists oi. by rewrite Hs.
Qed.
