(* ===== verification/Platform.v ===== *)
(** * The operating system as an interface

    Time, files and the process-wide counters the program uses, as the class
    [Platform] over the same abstract world as [ObjectStore].  [filepath.Join]
    and [filepath.Clean] are modelled for Unix paths. *)

From S2P Require Import Prelude GoStrings GoBytes S3.

Local Open Scope Z_scope.

(** ** Paths *)

(** [filepath.Clean]: the elements kept so far are in reverse. *)
Definition clean_step (rooted : bool) (stack : list string) (e : string) : list string :=
  if bool_decide (e = "") || bool_decide (e = ".") then stack
  else if bool_decide (e = "..") then
    match stack with
    | top :: rest => if bool_decide (top = "..") then e :: stack else rest
    | [] => if rooted then [] else [e]
    end
  else e :: stack.
Definition filepath_Clean (path : string) : string :=
  if bool_decide (path = "") then "."
  else
    let rooted := HasPrefix path "/" in
    let out := Join (rev (foldl (clean_step rooted) [] (Split path slash))) slash in
    if rooted then "/" +:+ out else if bool_decide (out = "") then "." else out.

(** [filepath.Join] of two elements: empty elements are ignored. *)
Definition filepath_Join (dir name : string) : string :=
  match filter (λ e, e ≠ "") [dir; name] with
  | [] => ""
  | es => filepath_Clean (Join es slash)
  end.

Example clean_1 : filepath_Join "/run//pbs/./x/.." "t.invalidate" = "/run/pbs/t.invalidate".
Proof. vm_compute. reflexivity. Qed.
Example clean_2 : filepath_Join "../a/" "t" = "../a/t".
Proof. vm_compute. reflexivity. Qed.

(** ** Operations *)

Definition ErrNotExist : error := Sentinel "os.ErrNotExist".

Class Platform (W : Type) := {
  time_Now : st W Z;                              (* nanoseconds since the epoch *)
  os_Getpid : W → Z;
  os_MkdirAll : string → io W unit;
  os_CreateTemp : string → string → io W string;  (* the name of the new file *)
  file_Chmod : string → Z → io W unit;
  file_WriteString : string → string → io W unit;
  file_Close : string → io W unit;
  os_Rename : string → string → io W unit;
  os_Remove : string → io W unit;
  os_ReadFile : string → io W string;
  (* the atomic counter [invalidationSequence] of the process: add one, and read *)
  invalidationSequence_Add : st W Z;
  (* [mutex.Acquire] of juju/mutex and the release of the mutex it returns, by name *)
  mutex_Acquire : string → io W unit;
  mutex_Release : string → st W unit;
  (* the 16 bytes of [uuid.New] *)
  uuid_New : st W (list byte);
  (* [rand.Intn] of [math/rand] *)
  rand_Intn : Z → st W Z;
}.

(** What the files hold. *)
Class FileView (W : Type) := files : W → gmap string string.

(** ** Laws *)

Class PlatformLaws (W : Type) `{Platform W} `{StoreView W} `{FileView W} := {
  time_Now_effect : st_effect keeps_all time_Now;
  os_MkdirAll_effect d : effect keeps_all (os_MkdirAll d);
  os_CreateTemp_effect d p : effect keeps_all (os_CreateTemp d p);
  file_Chmod_effect n m : effect keeps_all (file_Chmod n m);
  file_WriteString_effect n s : effect keeps_all (file_WriteString n s);
  file_Close_effect n : effect keeps_all (file_Close n);
  os_Rename_effect a b : effect keeps_all (os_Rename a b);
  os_Remove_effect n : effect keeps_all (os_Remove n);
  os_ReadFile_effect n : effect keeps_all (os_ReadFile n);
  invalidationSequence_effect : st_effect keeps_all invalidationSequence_Add;
  mutex_Acquire_effect n : effect keeps_all (mutex_Acquire n);
  mutex_Release_effect n : st_effect keeps_all (mutex_Release n);
  uuid_New_effect : st_effect keeps_all uuid_New;
  uuid_New_length w u w' : uuid_New w = (u, w') → length u = 16%nat;
  rand_Intn_effect n : st_effect keeps_all (rand_Intn n);
  rand_Intn_range n w r w' : 0 < n → rand_Intn n w = (r, w') → 0 ≤ r < n;
}.

#[export] Hint Resolve time_Now_effect os_MkdirAll_effect os_CreateTemp_effect file_Chmod_effect
  file_WriteString_effect file_Close_effect os_Rename_effect os_Remove_effect os_ReadFile_effect
  invalidationSequence_effect mutex_Acquire_effect mutex_Release_effect uuid_New_effect rand_Intn_effect : go_effect.
