(* ===== verification/MemWorld.v ===== *)
(** * A concrete world

    Buckets in memory, files, a clock and a script of faults: every call that
    can fail takes the next element of the script, and fails when it is an
    error.  The instances of [ObjectStoreLaws] and [PlatformLaws] show that the
    laws the theorems assume are satisfiable, and the witnesses of the other
    files run here. *)

From S2P Require Import Prelude GoStrings GoBytes S3 Platform.

Local Open Scope Z_scope.

Record mem := Mem {
  m_buckets : gmap string (gmap string Obj);
  m_files : gmap string string;
  m_now : Z;
  m_seq : Z;
  m_faults : list (option error);
}.

Definition m_bucket (w : mem) (b : string) : gmap string Obj := default ∅ (m_buckets w !! b).
Definition set_bucket (b : string) (objs : gmap string Obj) (w : mem) : mem :=
  Mem (<[b := objs]> (m_buckets w)) (m_files w) (m_now w) (m_seq w) (m_faults w).
Definition set_files (fs : gmap string string) (w : mem) : mem :=
  Mem (m_buckets w) fs (m_now w) (m_seq w) (m_faults w).

#[export] Instance mem_view : StoreView mem := m_bucket.
#[export] Instance mem_files : FileView mem := m_files.

(** The next fault of the script. *)
Definition next_fault (w : mem) : option error * mem :=
  match m_faults w with
  | [] => (None, w)
  | f :: fs => (f, Mem (m_buckets w) (m_files w) (m_now w) (m_seq w) fs)
  end.
Definition faulty {A} (f : mem → res A * mem) : io mem A := λ w,
  match next_fault w with
  | (Some e, w) => (Err e, w)
  | (None, w) => f w
  end.

Definition NoSuchKey : error := ErrorResponse 404 "NoSuchKey".

Definition info_of (k : string) (o : Obj) : ObjectInfo :=
  mkObjectInfo k (Z.of_nat (length (o_data o))) (o_modified o) (o_tags o) (o_meta o) None.
Definition mem_list (b : string) (o : ListObjectsOptions) (w : mem) : list ObjectInfo :=
  (λ '(k, x), info_of k x) <$>
    List.filter (λ '(k, _), HasPrefix k (Prefix o)) (map_to_list (m_bucket w b)).

Fixpoint mem_remove (b : string) (l : list ObjectInfo) (w : mem) : list RemoveObjectError * mem :=
  match l with
  | [] => ([], w)
  | o :: l =>
      match next_fault w with
      | (Some e, w) => let '(es, w) := mem_remove b l w in (mkRemoveObjectError (Key o) e :: es, w)
      | (None, w) => mem_remove b l (set_bucket b (delete (Key o) (m_bucket w b)) w)
      end
  end.

(** What is stored of the metadata of an upload. *)
Definition stored_meta (m : gmap string string) : gmap string string :=
  list_to_map ((λ kv, (CanonicalHeaderKey kv.1, kv.2)) <$>
    List.filter (λ kv, negb (HasPrefix kv.1 "x-amz-")) (map_to_list m)).

(** The body of an upload: [n] bytes, or everything when [n] is negative. *)
Definition mem_put (b k : string) (s : stream) (n : Z) (o : PutObjectOptions) (w : mem)
    : (res unit * nat) * mem :=
  match next_fault w with
  | (Some e, w) => ((Err e, 0%nat), w)
  | (None, w) =>
      let want := if n <? 0 then length (s_bytes s) else Z.to_nat n in
      if (want <=? length (s_bytes s))%nat then
        ((Ok tt, want), set_bucket b (<[k := mkObj (take want (s_bytes s)) (stored_meta (po_UserMetadata o)) ∅
                                             (m_now w)]> (m_bucket w b)) w)
      else ((Err (default ErrUnexpectedEOF (s_err s)), length (s_bytes s)), w)
  end.

Definition update_obj (b k : string) (f : Obj → Obj) : io mem unit := faulty (λ w,
  match m_bucket w b !! k with
  | Some o => (Ok tt, set_bucket b (<[k := f o]> (m_bucket w b)) w)
  | None => (Err NoSuchKey, w)
  end).
Definition read_obj {A} (b k : string) (f : Obj → A) : io mem A := faulty (λ w,
  match m_bucket w b !! k with
  | Some o => (Ok (f o), w)
  | None => (Err NoSuchKey, w)
  end).

(** A HEAD that fails does not deny an object that is there. *)
Definition mem_stat (b k : string) : io mem ObjectInfo := λ w,
  match next_fault w with
  | (Some e, w) => (Err (if denies_object e then ErrorResponse 503 "SlowDown" else e), w)
  | (None, w) =>
      (match m_bucket w b !! k with Some o => Ok (info_of k o) | None => Err NoSuchKey end, w)
  end.

Definition ranged (r : option (Z * Z)) (l : list byte) : list byte :=
  match r with
  | None => l
  | Some (i, j) => slice (Z.to_nat i) (Z.to_nat (j + 1)) l
  end.
(** A read that fails midway delivers its first bytes. *)
Definition mem_read (r : string * string * option (Z * Z)) (w : mem) : stream * mem :=
  let '(b, k, range) := r in
  match m_bucket w b !! k with
  | None => (Stream [] (Some NoSuchKey), w)
  | Some o =>
      match next_fault w with
      | (Some e, w) => (Stream (take 8 (ranged range (o_data o))) (Some e), w)
      | (None, w) => (Stream (ranged range (o_data o)) None, w)
      end
  end.

#[export] Instance mem_store : ObjectStore mem := {
  Object := string * string * option (Z * Z);
  ListObjects b o w :=
    match next_fault w with
    | (Some e, w) => (mem_list b o w ++ [mkObjectInfo "" 0 0 ∅ ∅ (Some e)], w)
    | (None, w) => (mem_list b o w, w)
    end;
  RemoveObjects := mem_remove;
  GetObjectTagging b k := read_obj b k o_tags;
  PutObjectTagging b k t := update_obj b k (λ o, mkObj (o_data o) (o_meta o) t (o_modified o));
  StatObject := mem_stat;
  PutObject := mem_put;
  CopyObject d s := faulty (λ w,
    match m_bucket w (cs_Bucket s) !! cs_Object s with
    | None => (Err NoSuchKey, w)
    | Some o =>
        (Ok tt, set_bucket (cd_Bucket d)
                  (<[cd_Object d :=
                     mkObj (o_data o) (if ReplaceMetadata d then stored_meta (cd_UserMetadata d) else o_meta o)
                       (o_tags o) (m_now w)]> (m_bucket w (cd_Bucket d))) w)
    end);
  GetObject b k r := faulty (λ w, (Ok (b, k, r), w));
  Object_Read := mem_read;
  Object_Stat r := read_obj r.1.1 r.1.2 (info_of r.1.2);
  BucketExists b := faulty (λ w, (Ok (bool_decide (is_Some (m_buckets w !! b))), w));
  minio_New _ _ := faulty (λ w, (Ok tt, w));
  ListBuckets _ _ := faulty (λ w, (Ok (map_to_list (m_buckets w)).*1, w));
}.

#[export] Instance mem_platform : Platform mem := {
  time_Now w := (m_now w, w);
  os_Getpid _ := 4711;
  os_MkdirAll _ := faulty (λ w, (Ok tt, w));
  os_CreateTemp d p := faulty (λ w, let n := filepath_Join d (p +:+ pretty (m_seq w)) in
                                    (Ok n, set_files (<[n := ""]> (m_files w)) w));
  file_Chmod _ _ := faulty (λ w, (Ok tt, w));
  file_WriteString n s := faulty (λ w,
    (Ok tt, set_files (<[n := get_tag (m_files w) n +:+ s]> (m_files w)) w));
  file_Close _ := faulty (λ w, (Ok tt, w));
  os_Rename a b := faulty (λ w,
    match m_files w !! a with
    | Some s => (Ok tt, set_files (<[b := s]> (delete a (m_files w))) w)
    | None => (Err ErrNotExist, w)
    end);
  os_Remove n := faulty (λ w, (Ok tt, set_files (delete n (m_files w)) w));
  os_ReadFile n := faulty (λ w,
    match m_files w !! n with Some s => (Ok s, w) | None => (Err ErrNotExist, w) end);
  invalidationSequence_Add w :=
    let n := u64 (m_seq w + 1) in (n, Mem (m_buckets w) (m_files w) (m_now w) n (m_faults w));
  mutex_Acquire _ := faulty (λ w, (Ok tt, w));
  mutex_Release _ w := (tt, w);
  uuid_New w := let n := u64 (m_seq w + 1) in
    (le_bytes 16 n, Mem (m_buckets w) (m_files w) (m_now w) n (m_faults w));
  rand_Intn k w := let n := u64 (m_seq w + 1) in
    (n `mod` k, Mem (m_buckets w) (m_files w) (m_now w) n (m_faults w));
}.

(** ** The laws hold *)

Lemma next_fault_contents w f w' b : next_fault w = (f, w') → m_bucket w' b = m_bucket w b.
Proof. unfold next_fault. destruct (m_faults w); by intros [= <- <-]. Qed.
Lemma next_fault_keeps w f w' : next_fault w = (f, w') → keeps_all w w'.
Proof. intros Hw b k _. unfold contents, mem_view. by erewrite next_fault_contents. Qed.

Lemma faulty_effect {A} P (f : mem → res A * mem) :
  (∀ w r w', f w = (r, w') → keeps P w w') → effect (keeps P) (faulty f).
Proof.
  intros Hf w r w'. unfold faulty. destruct (next_fault w) as [[e|] w1] eqn:E; intros Hr; simplify_eq.
  - by eapply keeps_weaken, next_fault_keeps.
  - trans w1; [by eapply keeps_weaken, next_fault_keeps|by eapply Hf].
Qed.
Lemma faulty_Ok {A} (f : mem → res A * mem) w a w' :
  faulty f w = (Ok a, w') → ∃ w1, keeps_all w w1 ∧ f w1 = (Ok a, w').
Proof.
  unfold faulty. destruct (next_fault w) as [[e|] w1] eqn:E; intros Hr; simplify_eq.
  eauto using next_fault_keeps.
Qed.
Lemma read_obj_effect {A} b k (f : Obj → A) : effect keeps_all (read_obj b k f).
Proof. apply faulty_effect. intros w r w'. case_match; by intros [= <- <-]. Qed.
Lemma read_obj_Ok {A} b k (f : Obj → A) w a w' :
  read_obj b k f w = (Ok a, w') → ∃ o, m_bucket w b !! k = Some o ∧ a = f o.
Proof.
  intros (w1 & Hk & Hf)%faulty_Ok. destruct (m_bucket w1 b !! k) as [o|] eqn:E; [|done].
  injection Hf as <- _. exists o. split; [|done]. rewrite <-E. symmetry. by apply Hk.
Qed.

Lemma mem_stat_cases b k w r w' :
  mem_stat b k w = (r, w') → keeps_all w w' ∧
  match r with
  | Ok _ => is_Some (m_bucket w b !! k)
  | Err e => denies_object e = true → m_bucket w b !! k = None
  | Panicked _ => False
  end.
Proof.
  unfold mem_stat. destruct (next_fault w) as [[e|] w1] eqn:E; apply next_fault_keeps in E; intros [= <- <-];
    (split; [done|]).
  - by destruct (denies_object e) eqn:Hd; [|rewrite Hd].
  - specialize (E b k I). unfold contents, mem_view in E. rewrite <-E. by destruct (m_bucket w1 b !! k).
Qed.

Lemma contents_set_bucket b objs w b' :
  m_bucket (set_bucket b objs w) b' = if decide (b' = b) then objs else m_bucket w b'.
Proof.
  unfold m_bucket, set_bucket. cbn. case_decide; subst.
  - by rewrite lookup_insert_eq.
  - by rewrite lookup_insert_ne.
Qed.
(** Changing one key of one bucket. *)
Lemma set_key_keeps b k (m : option Obj) w :
  keeps (λ b' k', b' ≠ b ∨ k' ≠ k) w (set_bucket b (partial_alter (λ _, m) k (m_bucket w b)) w).
Proof.
  intros b' k' Hne. unfold contents, mem_view. rewrite contents_set_bucket.
  case_decide; [subst|done]. rewrite lookup_partial_alter_ne; [done|naive_solver].
Qed.
Lemma update_obj_effect b k f : effect (keeps (λ b' k', b' ≠ b ∨ k' ≠ k)) (update_obj b k f).
Proof. apply faulty_effect. intros w r w'. case_match; intros [= <- <-]; [apply set_key_keeps|done]. Qed.

Lemma mem_list_complete b o w k x :
  m_bucket w b !! k = Some x → HasPrefix k (Prefix o) = true →
  ∃ oi, oi ∈ mem_list b o w ∧ Key oi = k ∧ describes oi x.
Proof.
  intros Hk Hp. exists (info_of k x). split; [|done].
  unfold mem_list. apply list_elem_of_fmap. exists (k, x). split; [done|].
  apply list_elem_of_In, filter_In. split; [|done].
  by apply list_elem_of_In, elem_of_map_to_list.
Qed.
Lemma mem_list_sound b o w oi :
  oi ∈ mem_list b o w → HasPrefix (Key oi) (Prefix o) = true ∧
  ∃ x, m_bucket w b !! Key oi = Some x ∧ describes oi x.
Proof.
  unfold mem_list. intros ([k x] & -> & Hin)%list_elem_of_fmap.
  apply list_elem_of_In, filter_In in Hin as [Hin Hp]. split; [done|].
  exists x. split; [|done]. by apply elem_of_map_to_list, list_elem_of_In.
Qed.
Lemma mem_remove_effect b l :
  st_effect (shrinks (λ b' k, b' = b ∧ k ∈ Key <$> l)) (mem_remove b l).
Proof.
  induction l as [|o l IH]; intros w es w'; cbn [mem_remove].
  { intros [= <- <-]. done. }
  assert (∀ w1 es1 w2, mem_remove b l w1 = (es1, w2) →
            shrinks (λ b' k, b' = b ∧ k ∈ Key <$> o :: l) w1 w2) as IH'.
  { intros w1 es1 w2 Hr. eapply shrinks_weaken; [|by eapply IH]. cbn. set_solver. }
  destruct (next_fault w) as [[e|] w1] eqn:E.
  - destruct (mem_remove b l w1) as [es1 w2] eqn:E2. intros [= <- <-].
    trans w1; [by eapply keeps_all_shrinks, next_fault_keeps|by eapply IH'].
  - intros Hr. trans w1; [by eapply keeps_all_shrinks, next_fault_keeps|].
    trans (set_bucket b (delete (Key o) (m_bucket w1 b)) w1); [|by eapply IH'].
    intros b' k. unfold contents, mem_view. rewrite contents_set_bucket. case_decide; [subst|by left].
    destruct (decide (k = Key o)) as [->|]; [|rewrite lookup_delete_ne by done; by left].
    right. rewrite lookup_delete_eq. cbn. set_solver.
Qed.
Lemma mem_remove_done b l w w' :
  mem_remove b l w = ([], w') → ∀ k, k ∈ Key <$> l → m_bucket w' b !! k = None.
Proof.
  enough (∀ l w w' es, mem_remove b l w = (es, w') → es = [] →
            ∀ k, k ∈ Key <$> l ∨ m_bucket w b !! k = None → m_bucket w' b !! k = None) as Hg
    by (intros; eapply Hg; eauto).
  clear. induction l as [|o l IH]; intros w w' es; cbn [mem_remove].
  { intros [= <- <-] _ k [Hk|Hk]; [by apply not_elem_of_nil in Hk|done]. }
  destruct (next_fault w) as [[e|] w1] eqn:E.
  - destruct (mem_remove b l w1) as [es1 w2]. by intros [= <- <-].
  - intros Hr He k Hk. eapply IH; [done|done|].
    rewrite contents_set_bucket, decide_True by done.
    destruct (decide (k = Key o)) as [->|Hne]; [right; apply lookup_delete_eq|].
    destruct Hk as [Hk|Hk].
    + left. cbn in Hk. set_solver.
    + right. rewrite lookup_delete_ne by done. by rewrite (next_fault_contents _ _ _ _ E).
Qed.
Lemma mem_read_effect r : st_effect keeps_all (mem_read r).
Proof.
  destruct r as [[b k] range]. intros w s w'. unfold mem_read. case_match; [|by intros [= <- <-]].
  destruct (next_fault w) as [[e|] w1] eqn:E; intros [= <- <-]; by eapply next_fault_keeps.
Qed.
Lemma mem_read_delivers b k range w s w' :
  mem_read (b, k, range) w = (s, w') →
  delivers s ((λ x, ranged range (o_data x)) <$> m_bucket w b !! k).
Proof.
  unfold mem_read. destruct (m_bucket w b !! k) as [o|]; cbn.
  - destruct (next_fault w) as [[e|] w1]; intros [= <- <-]; cbn; [|done].
    split; [apply prefix_take|done].
  - by intros [= <- <-].
Qed.
Lemma mem_put_effect b k s n o :
  st_effect (keeps (λ b' k', b' ≠ b ∨ k' ≠ k)) (mem_put b k s n o).
Proof.
  intros w r w'. unfold mem_put. destruct (next_fault w) as [[e|] w1] eqn:E.
  { intros [= <- <-]. by eapply keeps_weaken, next_fault_keeps. }
  intros Hr. trans w1; [by eapply keeps_weaken, next_fault_keeps|].
  destruct (_ <=? _)%nat in Hr; simplify_eq; [apply set_key_keeps|done].
Qed.
Lemma mem_put_present b k s n o : st_effect loses_nothing (mem_put b k s n o).
Proof.
  intros w r w' Hr b' k' Hk'. destruct (decide (b' = b ∧ k' = k)) as [[-> ->]|Hne].
  - unfold mem_put in Hr. destruct (next_fault w) as [[e|] w1] eqn:E.
    + injection Hr as <- <-. unfold contents, mem_view in *. by rewrite (next_fault_contents _ _ _ _ E).
    + destruct (_ <=? _)%nat in Hr; injection Hr as <- <-; unfold contents, mem_view in *.
      * rewrite contents_set_bucket, decide_True, lookup_insert_eq by done. eauto.
      * by rewrite (next_fault_contents _ _ _ _ E).
  - rewrite (mem_put_effect _ _ _ _ _ _ _ _ Hr b' k'); [done|].
    destruct (decide (b' = b)) as [->|]; [|by left]. right. intros ->. by apply Hne.
Qed.
Lemma stored_meta_ok m : meta_stored m (stored_meta m).
Proof.
  intros k v Hk Hx Hu. unfold stored_meta.
  assert ((CanonicalHeaderKey k, v) ∈ (λ kv, (CanonicalHeaderKey kv.1, kv.2)) <$>
            List.filter (λ kv, negb (HasPrefix kv.1 "x-amz-")) (map_to_list m)) as Hin.
  { apply list_elem_of_fmap. exists (k, v). split; [done|].
    apply list_elem_of_In, filter_In. rewrite <-list_elem_of_In, elem_of_map_to_list. cbn [fst]. by rewrite Hx. }
  destruct (list_to_map _ !! _) as [v'|] eqn:E.
  - apply elem_of_list_to_map_2 in E.
    apply list_elem_of_fmap in E as ([k' v''] & [= Hc ->] & Hin').
    apply list_elem_of_In, filter_In in Hin' as [Hin' _]. apply list_elem_of_In, elem_of_map_to_list in Hin'.
    rewrite (Hu k') in Hin' by eauto. congruence.
  - apply not_elem_of_list_to_map_2 in E. destruct E.
    by apply (list_elem_of_fmap_2 fst) in Hin.
Qed.
Lemma mem_list_NoDup b o w : NoDup (Key <$> mem_list b o w).
Proof.
  unfold mem_list. rewrite <-list_fmap_compose.
  enough (∀ l : list (string * Obj), NoDup l.*1 →
            NoDup ((Key ∘ (λ '(k, x), info_of k x)) <$> List.filter (λ '(k, _), HasPrefix k (Prefix o)) l)) as Hg
    by apply Hg, NoDup_fst_map_to_list.
  induction l as [|[k x] l IH]; cbn; [intros; constructor|]. intros [Hk Hl]%NoDup_cons.
  destruct (HasPrefix k (Prefix o)); [|by apply IH]. cbn. apply NoDup_cons. split; [|by apply IH].
  intros ([k' x'] & -> & Hin)%list_elem_of_fmap. apply Hk.
  apply list_elem_of_In, filter_In in Hin as [Hin _]. apply list_elem_of_In in Hin.
  by apply (list_elem_of_fmap_2 fst) in Hin.
Qed.
Lemma mem_put_done b k s n o w m w' :
  mem_put b k s n o w = ((Ok tt, m), w') → 0 ≤ n →
  (Z.to_nat n ≤ length (s_bytes s))%nat ∧ m = Z.to_nat n ∧
  ∃ x, m_bucket w' b !! k = Some x ∧ o_data x = take (Z.to_nat n) (s_bytes s) ∧
    meta_stored (po_UserMetadata o) (o_meta x).
Proof.
  unfold mem_put. destruct (next_fault w) as [[e|] w1]; [done|]. intros Hr Hn.
  destruct (Z.ltb_spec n 0); [lia|]. destruct (Nat.leb_spec (Z.to_nat n) (length (s_bytes s))); [|done].
  injection Hr as <- <-. split_and!; [done..|]. rewrite contents_set_bucket, decide_True by done.
  rewrite lookup_insert_eq. eauto using stored_meta_ok.
Qed.

Lemma mem_put_atomic b k s n o w r w' :
  mem_put b k s n o w = (r, w') → 0 ≤ n →
  m_bucket w' b !! k = m_bucket w b !! k ∨
  ∃ x, m_bucket w' b !! k = Some x ∧ o_data x = take (Z.to_nat n) (s_bytes s).
Proof.
  unfold mem_put. destruct (next_fault w) as [[e|] w1] eqn:E; apply (next_fault_contents _ _ _ b) in E; intros Hr Hn.
  { injection Hr as _ <-. left. by rewrite E. }
  destruct (Z.ltb_spec n 0); [lia|]. destruct (_ <=? _)%nat; injection Hr as _ <-.
  - right. rewrite contents_set_bucket, decide_True, lookup_insert_eq by done. eauto.
  - left. by rewrite E.
Qed.

#[export] Instance mem_laws : ObjectStoreLaws mem.
Proof.
  split; cbn.
  - intros b o w l w'. destruct (next_fault w) as [[e|] w1] eqn:E; intros [= <- <-];
      by eapply next_fault_keeps.
  - intros. apply read_obj_effect.
  - intros b k w r w' Hr. by apply mem_stat_cases in Hr as [? _].
  - intros. apply faulty_effect. by intros w r' w' [= <- <-].
  - apply mem_read_effect.
  - intros. apply read_obj_effect.
  - intros. apply faulty_effect. by intros w r' w' [= <- <-].
  - intros. apply faulty_effect. by intros w r' w' [= <- <-].
  - intros. apply faulty_effect. by intros w r' w' [= <- <-].
  - intros b o w l w' Hl Hall k x Hk Hp.
    destruct (next_fault w) as [[e|] w1] eqn:E; simplify_eq.
    + by apply Forall_app in Hall as [_ [? _]%Forall_cons].
    + apply mem_list_complete; [|done]. by rewrite (next_fault_contents _ _ _ _ E).
  - intros b o w l w' Hl oi Hin Herr.
    destruct (next_fault w) as [[e|] w1] eqn:E; simplify_eq.
    + apply elem_of_app in Hin as [Hin|Hin]; [|apply list_elem_of_singleton in Hin; by subst].
      apply mem_list_sound in Hin. by rewrite (next_fault_contents _ _ _ _ E) in Hin.
    + apply mem_list_sound in Hin. by rewrite (next_fault_contents _ _ _ _ E) in Hin.
  - intros b o w l w' Hl Hall. destruct (next_fault w) as [[e|] w1] eqn:E; simplify_eq.
    + by apply Forall_app in Hall as [_ [? _]%Forall_cons].
    + apply mem_list_NoDup.
  - apply mem_remove_effect.
  - apply mem_remove_done.
  - intros b k w r w1 w2 s w3 (w0 & Hk & [= <- <-])%faulty_Ok Hk2 Hr.
    apply mem_read_delivers in Hr. specialize (Hk b k I). specialize (Hk2 b k I).
    unfold contents, mem_view in *. rewrite Hk2, Hk in Hr. exact Hr.
  - intros b k i j w r w1 w2 s w3 Hij (w0 & Hk & [= <- <-])%faulty_Ok Hk2 Hr.
    apply mem_read_delivers in Hr. specialize (Hk b k I). specialize (Hk2 b k I).
    unfold contents, mem_view in *. rewrite Hk2, Hk in Hr. exact Hr.
  - intros b k range w r w1 w2 oi w3 (w0 & Hk & [= <- <-])%faulty_Ok Hk2 (o & Ho & ->)%read_obj_Ok.
    specialize (Hk b k I). specialize (Hk2 b k I). unfold contents, mem_view in *. cbn in Ho.
    rewrite Hk2, Hk in Ho. by exists o.
  - intros b k w t w' (o & Ho & ->)%read_obj_Ok. eauto.
  - apply mem_put_effect.
  - apply mem_put_present.
  - apply mem_put_done.
  - apply mem_put_atomic.
  - intros b k w oi w' Hr. by apply mem_stat_cases in Hr as [_ ?].
  - intros b k w e w' Hr. by apply mem_stat_cases in Hr as [_ ?].
  - intros. apply update_obj_effect.
  - intros d s. apply faulty_effect. intros w r w'.
    case_match; intros [= <- <-]; [apply set_key_keeps|done].
  - intros d s w r w'. unfold faulty. destruct (next_fault w) as [[e|] w1] eqn:E.
    { intros [= <- <-]. by eapply keeps_all_loses_nothing, next_fault_keeps. }
    apply next_fault_keeps, keeps_all_loses_nothing in E. intros Hr b k Hk. apply E in Hk.
    case_match; injection Hr as <- <-; [|done]. unfold contents, mem_view in *. rewrite contents_set_bucket.
    case_decide; [subst|done]. destruct (decide (k = cd_Object d)) as [->|]; [by rewrite lookup_insert_eq|].
    by rewrite lookup_insert_ne.
  - intros d s w w' (w1 & Hk & Hc)%faulty_Ok.
    destruct (m_bucket w1 (cs_Bucket s) !! cs_Object s) as [y|] eqn:Hy; [|done]. injection Hc as <-.
    rewrite (Hk _ _ I : m_bucket w1 _ !! _ = _) in Hy. eexists y, _. split; [done|].
    unfold contents, mem_view. rewrite contents_set_bucket, decide_True by done.
    rewrite lookup_insert_eq. split_and!; [done..|]. cbn. destruct (ReplaceMetadata d); [apply stored_meta_ok|done].
  - intros b k t w w' (w1 & Hk & Hc)%faulty_Ok.
    destruct (m_bucket w1 b !! k) as [x|] eqn:Hx; [|done]. injection Hc as <-.
    rewrite (Hk _ _ I : m_bucket w1 _ !! _ = _) in Hx. eexists x, _. split; [done|].
    unfold contents, mem_view. rewrite contents_set_bucket, decide_True by done.
    by rewrite lookup_insert_eq.
Qed.

#[export] Instance mem_platform_laws : PlatformLaws mem.
Proof.
  split; cbn; try (intros; apply faulty_effect; intros w r w'; by repeat case_match; intros [= <- <-]).
  - by intros w a w' [= <- <-].
  - by intros w a w' [= <- <-].
  - by intros n w a w' [= <- <-].
  - by intros w a w' [= <- <-].
  - by intros w u w' [= <- <-].
  - by intros n w u w' [= <- <-].
  - intros n w r w' Hn [= <- <-]. by apply Z.mod_pos_bound.
Qed.
