(* ===== verification/Snapshot.v ===== *)
(** * Snapshots ([internal/s3pmoxcommon/s3pmoxcommon.go], [types.go])

    A snapshot is not stored as such: it is the set of objects under
    [backups/<id>|<time>|<type>/], rebuilt from a bucket listing.  This file
    models the key format ([S3Prefix] and its parser [SnapshotsFromObjects]),
    the selection of the previous backup, and the operations that read and
    delete the objects of a snapshot. *)

From S2P Require Import Prelude GoStrings GoBytes Sha256 S3 Platform MemWorld.

Local Open Scope Z_scope.

(** ** Data *)

Definition PROXMOX_INDEX_MAGIC_DYNAMIC : list byte :=
  Z_byte <$> [28; 145; 78; 165; 25; 186; 179; 205].
Definition PROXMOX_INDEX_MAGIC_FIXED : list byte :=
  Z_byte <$> [47; 127; 65; 237; 145; 253; 15; 205].

Record SnapshotFile := mkSnapshotFile {
  Filename : string;
  CryptMode : string;
  sf_Size : Z;
}.

Record Snapshot := mkSnapshot {
  BackupID : string;
  BackupTime : Z;
  BackupType : string;
  Files : list SnapshotFile;
  Protected : bool;
  Comment : string;
  Datastore : string;
  corrupted : bool;
  sn_Size : Z;
}.

(** Field assignments. *)
Definition set_Files (f : list SnapshotFile) (s : Snapshot) : Snapshot :=
  mkSnapshot (BackupID s) (BackupTime s) (BackupType s) f (Protected s) (Comment s)
    (Datastore s) (corrupted s) (sn_Size s).
Definition set_Protected (p : bool) (s : Snapshot) : Snapshot :=
  mkSnapshot (BackupID s) (BackupTime s) (BackupType s) (Files s) p (Comment s)
    (Datastore s) (corrupted s) (sn_Size s).
Definition set_Comment (c : string) (s : Snapshot) : Snapshot :=
  mkSnapshot (BackupID s) (BackupTime s) (BackupType s) (Files s) (Protected s) c
    (Datastore s) (corrupted s) (sn_Size s).
Definition set_corrupted (c : bool) (s : Snapshot) : Snapshot :=
  mkSnapshot (BackupID s) (BackupTime s) (BackupType s) (Files s) (Protected s) (Comment s)
    (Datastore s) c (sn_Size s).
Definition set_Size (z : Z) (s : Snapshot) : Snapshot :=
  mkSnapshot (BackupID s) (BackupTime s) (BackupType s) (Files s) (Protected s) (Comment s)
    (Datastore s) (corrupted s) z.

Definition zero_Snapshot : Snapshot := mkSnapshot "" 0 "" [] false "" "" false 0.

(** ** Names *)

(** The text after [backups/] that names a snapshot. *)
Definition snapshot_name (s : Snapshot) : string :=
  BackupID s +:+ String bar (fmt_d (BackupTime s) +:+ String bar (BackupType s)).

Definition S3Prefix (s : Snapshot) : string := "backups/" +:+ snapshot_name s.

Definition DataStoreLockName (endpoint datastore : string) : string :=
  let h := sha256 (string_bytes (endpoint +:+ "|" +:+ datastore)) in
  "PBSS3" +:+ take_string 16 (hex_EncodeToString h).

(** [InitWithQuery] and [InitWithForm] read the same three values; a number that
    does not parse leaves what [ParseUint] returns with its error. *)
Definition InitWithQuery (get : string → string) (s : Snapshot) : Snapshot :=
  mkSnapshot (get "backup-id") (fst (ParseUint (get "backup-time") 64)) (get "backup-type")
    (Files s) (Protected s) (Comment s) (Datastore s) (corrupted s) (sn_Size s).
Definition InitWithForm (form_value : string → string) (s : Snapshot) : Snapshot :=
  InitWithQuery form_value s.

(** ** Listing *)

(** The loop body of [SnapshotsFromObjects]: the map of snapshots under
    construction and the prefixes in order of first appearance. *)
Definition update_snapshot (object : ObjectInfo) (file : string) (s : Snapshot) : Snapshot :=
  let s := if bool_decide (file = "corrupted") then set_corrupted true s else s in
  let s := if bool_decide (get_tag (UserTags object) "protected" = "true")
           then set_Protected true s else s in
  let encodedNote := get_tag (UserTags object) "note" in
  let s := if bool_decide (encodedNote = "") then s
           else match b64_DecodeString encodedNote with
                | Some note => set_Comment (bytes_string note) s
                | None => s
                end in
  if HasSuffix file ".csjson" then s
  else set_Files (Files s ++ [mkSnapshotFile file "none" (u64 (Size object))]) s.

Definition new_snapshot (id : string) (time : Z) (type datastore : string) : Snapshot :=
  mkSnapshot id time type [] false "" datastore false 0.

Definition snapshots_step (datastore : string) (st : gmap string Snapshot * list string)
    (object : ObjectInfo) : res (gmap string Snapshot * list string) :=
  let '(byPrefix, order) := st in
  match oi_Err object with
  | Some e => Err (Wrapf "snapshot listing contains an error" [] e)
  | None =>
    if negb (HasPrefix (Key object) "backups/") then Ok st
    else
      match SplitN2 (TrimPrefix (Key object) "backups/") slash with
      | [p0; p1] =>
        if bool_decide (p0 = "") || bool_decide (p1 = "")
        then Err (Errorf "invalid snapshot object key" [Key object])
        else
          match Split p0 bar with
          | [f0; f1; f2] =>
            if bool_decide (f0 = "") || bool_decide (f2 = "")
            then Err (Errorf "invalid snapshot prefix" [p0])
            else
              match ParseUint f1 64 with
              | (_, Some e) => Err (Wrapf "invalid snapshot timestamp" [p0] e)
              | (backupTime, None) =>
                  let '(snapshot, order) :=
                    match byPrefix !! p0 with
                    | Some s => (s, order)
                    | None => (new_snapshot f0 backupTime f2 datastore, order ++ [p0])
                    end in
                  Ok (<[p0 := update_snapshot object p1 snapshot]> byPrefix, order)
              end
          | _ => Err (Errorf "invalid snapshot prefix" [p0])
          end
      | _ => Err (Errorf "invalid snapshot object key" [Key object])
      end
  end.

(** The snapshots in order of first appearance, corrupted ones on request. *)
Definition reported (returnCorrupted : bool) (s : Snapshot) : bool :=
  returnCorrupted || negb (corrupted s).
Definition collect_snapshots (returnCorrupted : bool)
    (st : gmap string Snapshot * list string) : list Snapshot :=
  List.filter (reported returnCorrupted) (omap (λ prefix, st.1 !! prefix) st.2).

Definition SnapshotsFromObjects (objects : list ObjectInfo) (datastore : string)
    (returnCorrupted : bool) : res (list Snapshot) :=
  st ← foldM (snapshots_step datastore) (∅, []) objects;
  Ok (collect_snapshots returnCorrupted st).

(** [GetLatestSnapshot], on the listing it fetches. *)
Definition latest_step (id : string) (time : Z) (mostRecent : option Snapshot) (sl : Snapshot)
    : option Snapshot :=
  if bool_decide (BackupTime sl = time) && bool_decide (BackupID sl = id) then mostRecent
  else if (match mostRecent with None => true | Some m => BackupTime m <? BackupTime sl end)
          && bool_decide (id = BackupID sl)
  then Some sl else mostRecent.
Definition latest_of (snapshots : list Snapshot) (id : string) (time : Z) : option Snapshot :=
  foldl (latest_step id time) None snapshots.

Section operations.
Context {W : Type} `{!ObjectStore W}.

(** The accumulation loop over a listing channel: the first error ends it. *)
Fixpoint collect_listing (site : string) (args : list string) (l : list ObjectInfo)
    : res (list ObjectInfo) :=
  match l with
  | [] => Ok []
  | o :: l => match oi_Err o with
              | Some e => Err (Wrapf site args e)
              | None => objects ← collect_listing site args l; Ok (o :: objects)
              end
  end.

Definition ListSnapshots (datastore : string) (returnCorrupted : bool) : io W (list Snapshot) :=
  l ← lift_st (ListObjects datastore (mkListOptions "backups/" true));
  objects ← lift_res (collect_listing "list snapshots" [datastore] l);
  lift_res (SnapshotsFromObjects objects datastore returnCorrupted).

Definition GetLatestSnapshot (ds id : string) (time : Z) : io W (option Snapshot) :=
  snapshots ← ListSnapshots ds false;
  mret (latest_of snapshots id time).

(** [path[2]] of a key with fewer than three parts is a run-time panic. *)
Definition get_files_step (files : list SnapshotFile) (object : ObjectInfo)
    : res (list SnapshotFile) :=
  match Split (Key object) slash !! 2%nat with
  | None => Panicked "index out of range"
  | Some name => Ok (files ++ [mkSnapshotFile name "none" (u64 (Size object))])
  end.
Definition GetFiles (s : Snapshot) : io W Snapshot :=
  l ← lift_st (ListObjects (Datastore s) (mkListOptions (S3Prefix s) false));
  files ← lift_res (foldM get_files_step (Files s) l);
  mret (set_Files files s).

Definition ReadTags (s : Snapshot) : io W (gmap string string) :=
  GetObjectTagging (Datastore s) (S3Prefix s +:+ "/index.json.blob").

(** [errors.Join]: nil when there is no error. *)
Definition errors_Join (errs : list error) : res unit :=
  match errs with [] => Ok tt | _ => Err (Joined errs) end.

Definition Delete (s : Snapshot) : io W unit :=
  let prefix := S3Prefix s +:+ "/" in
  l ← lift_st (ListObjects (Datastore s) (mkListOptions prefix false));
  objects ← lift_res (collect_listing "list snapshot before deletion" [S3Prefix s] l);
  errs ← lift_st (RemoveObjects (Datastore s) objects);
  lift_res (errors_Join ((λ e, Wrapf "remove" [ObjectName e] (roe_Err e)) <$> errs)).
End operations.

(** [GetLookupType]. *)
Definition GetLookupType (flag : string) : BucketLookupType :=
  if bool_decide (flag = "path") then BucketLookupPath
  else if bool_decide (flag = "dns") then BucketLookupDNS
  else BucketLookupAuto.

(** ** A reference description of the listing

    [SnapshotsFromObjects] threads a map and an order through one loop.  The
    reference groups: the names in order of first appearance, and for each name
    a fold over its own objects. *)

(** The snapshot name and the file name of a key. *)
Definition split_key (k : string) : option (string * string) :=
  if HasPrefix k "backups/" then
    match Cut (TrimPrefix k "backups/") slash with
    | Some (p, f) => if bool_decide (p = "") || bool_decide (f = "") then None else Some (p, f)
    | None => None
    end
  else None.

Definition parse_name (p : string) : option (string * Z * string) :=
  match Split p bar with
  | [f0; f1; f2] =>
      if bool_decide (f0 = "") || bool_decide (f2 = "") then None
      else match ParseUint f1 64 with
           | (t, None) => Some (f0, t, f2)
           | _ => None
           end
  | _ => None
  end.

(** The objects a listing may hold: anything outside [backups/], and well-formed
    names inside. *)
Definition valid_object (o : ObjectInfo) : bool :=
  match oi_Err o with
  | Some _ => false
  | None =>
      negb (HasPrefix (Key o) "backups/") ||
      match split_key (Key o) with
      | Some (p, _) => bool_decide (is_Some (parse_name p))
      | None => false
      end
  end.

Definition object_name (o : ObjectInfo) : option string := fst <$> split_key (Key o).
Definition add_name (ns : list string) (o : ObjectInfo) : list string :=
  match object_name o with
  | Some p => if bool_decide (p ∈ ns) then ns else ns ++ [p]
  | None => ns
  end.
Definition names (objects : list ObjectInfo) : list string := foldl add_name [] objects.

Definition member_of (p : string) (o : ObjectInfo) : option (ObjectInfo * string) :=
  match split_key (Key o) with
  | Some (p', f) => if bool_decide (p' = p) then Some (o, f) else None
  | None => None
  end.
Definition members (p : string) (objects : list ObjectInfo) : list (ObjectInfo * string) :=
  omap (member_of p) objects.

Definition snapshot_of (datastore : string) (objects : list ObjectInfo) (p : string) : Snapshot :=
  match parse_name p with
  | Some (id, t, ty) =>
      foldl (λ s mf, update_snapshot mf.1 mf.2 s) (new_snapshot id t ty datastore) (members p objects)
  | None => zero_Snapshot
  end.

Section listing.
Context (ds : string).

Implicit Types (o : ObjectInfo) (p f : string) (objects : list ObjectInfo).

Lemma snapshots_step_valid m order o p f id t ty :
  oi_Err o = None → split_key (Key o) = Some (p, f) → parse_name p = Some (id, t, ty) →
  snapshots_step ds (m, order) o =
    Ok (<[p := update_snapshot o f (default (new_snapshot id t ty ds) (m !! p))]> m,
        if m !! p is Some _ then order else order ++ [p]).
Proof.
  unfold split_key, parse_name, snapshots_step, SplitN2. intros -> Hk Hn.
  destruct (HasPrefix (Key o) "backups/"); [|done]. cbn [negb].
  destruct (Cut _ slash) as [[p0 p1]|]; [|done].
  destruct (bool_decide (p0 = "") || bool_decide (p1 = "")); [done|].
  injection Hk as -> ->.
  destruct (Split p bar) as [|f0 [|f1 [|f2 [|]]]]; try done.
  destruct (bool_decide (f0 = "") || bool_decide (f2 = "")); [done|].
  destruct (ParseUint f1 64) as [t' [e|]]; [done|]. injection Hn as -> -> ->.
  by destruct (m !! p).
Qed.

Lemma snapshots_step_outside m order o :
  oi_Err o = None → HasPrefix (Key o) "backups/" = false →
  snapshots_step ds (m, order) o = Ok (m, order).
Proof. unfold snapshots_step. by intros -> ->. Qed.

Lemma snapshots_step_invalid st o :
  valid_object o = false → ∃ e, snapshots_step ds st o = Err e.
Proof.
  destruct st as [m order]. unfold valid_object, snapshots_step, split_key, parse_name, SplitN2.
  destruct (oi_Err o); [eauto|].
  destruct (HasPrefix (Key o) "backups/"); [|done]. cbn [negb orb].
  destruct (Cut _ slash) as [[p0 p1]|]; [|eauto].
  destruct (bool_decide (p0 = "") || bool_decide (p1 = "")); [eauto|].
  destruct (Split p0 bar) as [|f0 [|f1 [|f2 [|]]]]; eauto.
  destruct (bool_decide (f0 = "") || bool_decide (f2 = "")); [eauto|].
  destruct (ParseUint f1 64) as [t' [e|]]; [eauto|]. intros []%bool_decide_eq_false_1. eauto.
Qed.

Lemma valid_object_cases o :
  valid_object o = true →
  oi_Err o = None ∧
  ((HasPrefix (Key o) "backups/" = false ∧ split_key (Key o) = None) ∨
   ∃ p f id t ty, split_key (Key o) = Some (p, f) ∧ parse_name p = Some (id, t, ty)).
Proof.
  unfold valid_object. destruct (oi_Err o); [done|]. intros H. split; [done|].
  destruct (HasPrefix (Key o) "backups/") eqn:E.
  - right. cbn in H. destruct (split_key (Key o)) as [[p f]|]; [|done].
    apply bool_decide_eq_true_1 in H as [[[id t] ty] H]. eauto 10.
  - left. unfold split_key. by rewrite E.
Qed.

Lemma names_app objects o : names (objects ++ [o]) = add_name (names objects) o.
Proof. unfold names. by rewrite foldl_app. Qed.
Lemma members_app p objects o :
  members p (objects ++ [o]) = members p objects ++ option_list (member_of p o).
Proof.
  unfold members. by rewrite omap_app.
Qed.
Lemma names_app_outside objects o : split_key (Key o) = None → names (objects ++ [o]) = names objects.
Proof. intros H. rewrite names_app. unfold add_name, object_name. by rewrite H. Qed.
Lemma snapshot_of_app objects o p :
  member_of p o = None → snapshot_of ds (objects ++ [o]) p = snapshot_of ds objects p.
Proof. intros H. unfold snapshot_of. by rewrite members_app, H, app_nil_r. Qed.
Lemma names_NoDup objects : NoDup (names objects).
Proof.
  induction objects as [|o objects IH] using rev_ind; [constructor|].
  rewrite names_app. unfold add_name. destruct (object_name o) as [p|]; [|done].
  case_bool_decide as Hp; [done|]. apply NoDup_app. split_and!; [done| |by apply NoDup_singleton].
  by intros q Hq ->%list_elem_of_singleton.
Qed.
Lemma elem_of_names objects p : p ∈ names objects ↔ ∃ o, o ∈ objects ∧ object_name o = Some p.
Proof.
  induction objects as [|o objects IH] using rev_ind.
  - split; [by intros ?%not_elem_of_nil|]. by intros (o & ?%not_elem_of_nil & _).
  - rewrite names_app. unfold add_name.
    setoid_rewrite elem_of_app. setoid_rewrite list_elem_of_singleton.
    destruct (object_name o) as [q|] eqn:E.
    + case_bool_decide as Hq.
      * rewrite IH. split; [naive_solver|]. intros (o' & [?| ->] & ?); [eauto|].
        apply IH. congruence.
      * rewrite elem_of_app, list_elem_of_singleton, IH. split.
        -- intros [(o' & ? & ?)| ->]; eauto.
        -- intros (o' & [?| ->] & ?); [eauto|]. right. congruence.
    + rewrite IH. split; [naive_solver|]. intros (o' & [?| ->] & ?); [eauto|congruence].
Qed.
Lemma members_nil objects p : p ∉ names objects → members p objects = [].
Proof.
  induction objects as [|o objects IH] using rev_ind; [done|].
  rewrite members_app, names_app. unfold add_name, object_name, member_of. intros Hp.
  destruct (split_key (Key o)) as [[q f]|]; cbn in *; [|by rewrite app_nil_r; apply IH].
  case_bool_decide as Hq.
  - rewrite IH by done. rewrite bool_decide_eq_false_2; [done|]. by intros ->.
  - apply not_elem_of_app in Hp as [Hp Hp'].
    rewrite IH by done. rewrite bool_decide_eq_false_2; [done|].
    intros ->. by apply Hp', list_elem_of_singleton.
Qed.

(** The loop state after a prefix of the listing is the reference's. *)
Definition loop_state objects (st : gmap string Snapshot * list string) : Prop :=
  st.2 = names objects ∧
  ∀ p, st.1 !! p = if bool_decide (p ∈ names objects) then Some (snapshot_of ds objects p) else None.

Lemma loop_state_step objects o st st' :
  loop_state objects st → snapshots_step ds st o = Ok st' → loop_state (objects ++ [o]) st'.
Proof.
  destruct st as [m order]. intros [Ho Hm] Hstep. cbn in Ho, Hm. subst order.
  destruct (valid_object o) eqn:Hv.
  2:{ apply (snapshots_step_invalid (m, names objects)) in Hv as [e He]. congruence. }
  apply valid_object_cases in Hv as [Herr [[Hout Hsk]|(p & f & id & t & ty & Hsk & Hn)]].
  - rewrite snapshots_step_outside in Hstep by done. simplify_eq.
    split; cbn; rewrite names_app_outside by done; [done|]. intros q.
    rewrite snapshot_of_app; [by apply Hm|]. unfold member_of. by rewrite Hsk.
  - rewrite (snapshots_step_valid m _ o p f id t ty) in Hstep by done. simplify_eq.
    assert (object_name o = Some p) as Hon by (unfold object_name; by rewrite Hsk).
    pose proof (Hm p) as Hmp. split; cbn.
    + rewrite names_app. unfold add_name. rewrite Hon.
      case_bool_decide as Hp; by rewrite Hmp.
    + intros q. rewrite names_app. unfold add_name. rewrite Hon.
      assert (q ∈ (if bool_decide (p ∈ names objects) then names objects else names objects ++ [p])
              ↔ q ∈ names objects ∨ q = p) as Hq.
      { case_bool_decide; [|by rewrite elem_of_app, list_elem_of_singleton].
        split; [by left|]. by intros [| ->]. }
      rewrite (bool_decide_ext _ _ Hq). clear Hq.
      destruct (decide (q = p)) as [->|Hne].
      * rewrite lookup_insert_eq, bool_decide_eq_true_2 by auto. f_equal.
        assert (member_of p o = Some (o, f)) as Hmo.
        { unfold member_of. by rewrite Hsk, bool_decide_eq_true_2. }
        rewrite Hmp. unfold snapshot_of. rewrite Hn, members_app, Hmo.
        cbn. rewrite foldl_app. cbn. f_equal.
        case_bool_decide as Hp; cbn; [done|]. by rewrite members_nil.
      * rewrite lookup_insert_ne by done. rewrite Hm.
        clear Hmp. case_bool_decide; case_bool_decide; [|exfalso; tauto|exfalso; tauto|done]. f_equal. symmetry.
        rewrite snapshot_of_app; [done|]. unfold member_of.
        rewrite Hsk, bool_decide_eq_false_2; [done|]. by intros ->.
Qed.

Lemma omap_loop_state objects st :
  loop_state objects st →
  omap (λ prefix, st.1 !! prefix) st.2 = snapshot_of ds objects <$> names objects.
Proof.
  intros [-> Hm]. assert (∀ p, p ∈ names objects → st.1 !! p = Some (snapshot_of ds objects p)) as H.
  { intros p Hp. by rewrite Hm, bool_decide_eq_true_2. }
  clear Hm. revert H. generalize (names objects) as ns. intros ns.
  induction ns as [|p ns IH]; intros H; [done|].
  cbn. rewrite H by (by left). f_equal. apply IH. intros q Hq. apply H. by right.
Qed.

Lemma SnapshotsFromObjects_spec objects rc snaps :
  SnapshotsFromObjects objects ds rc = Ok snaps →
  snaps = List.filter (reported rc) (snapshot_of ds objects <$> names objects).
Proof.
  unfold SnapshotsFromObjects. intros (st & Hrun & [= <-])%res_bind_Ok.
  unfold collect_snapshots. rewrite (omap_loop_state objects); [done|].
  apply (foldM_ind loop_state _ _ _ _ Hrun).
  - split; [done|]. intros p. cbn. by rewrite lookup_empty.
  - intros done o todo st1 st2 _. apply loop_state_step.
Qed.

Lemma SnapshotsFromObjects_ok objects rc :
  is_ok (SnapshotsFromObjects objects ds rc) = forallb valid_object objects.
Proof.
  unfold SnapshotsFromObjects.
  transitivity (is_ok (foldM (snapshots_step ds) (∅, []) objects)).
  { by destruct (foldM _ _ _). }
  generalize (∅ : gmap string Snapshot, @nil string) as st.
  induction objects as [|o objects IH]; intros [m order]; [done|]. cbn [foldM forallb].
  destruct (valid_object o) eqn:Hv; cbn [andb].
  - apply valid_object_cases in Hv as [Herr [[Hout _]|(p & f & id & t & ty & Hsk & Hn)]].
    + rewrite snapshots_step_outside by done. apply IH.
    + rewrite (snapshots_step_valid m _ o p f id t ty) by done. apply IH.
  - by apply (snapshots_step_invalid (m, order)) in Hv as [e ->].
Qed.
End listing.

(** ** What a reported snapshot says *)

Definition file_entry (mf : ObjectInfo * string) : option SnapshotFile :=
  if HasSuffix mf.2 ".csjson" then None
  else Some (mkSnapshotFile mf.2 "none" (u64 (Size mf.1))).
Definition tagged_protected (mf : ObjectInfo * string) : bool :=
  bool_decide (get_tag (UserTags mf.1) "protected" = "true").
Definition marks_corrupted (mf : ObjectInfo * string) : bool := bool_decide (mf.2 = "corrupted").
(** The text of a decodable note. *)
Definition note_of (mf : ObjectInfo * string) : option string :=
  let n := get_tag (UserTags mf.1) "note" in
  if bool_decide (n = "") then None else bytes_string <$> b64_DecodeString n.

(** The snapshot named [p] of a listing, field by field. *)
Definition described_snapshot (datastore : string) (objects : list ObjectInfo) (p : string) : Snapshot :=
  let ms := members p objects in
  match parse_name p with
  | Some (id, t, ty) =>
      mkSnapshot id t ty (omap file_entry ms) (existsb tagged_protected ms)
        (default "" (last (omap note_of ms))) datastore (existsb marks_corrupted ms) 0
  | None => zero_Snapshot
  end.

Lemma snapshot_of_described ds objects p :
  snapshot_of ds objects p = described_snapshot ds objects p.
Proof.
  unfold snapshot_of, described_snapshot. destruct (parse_name p) as [[[id t] ty]|]; [|done].
  induction (members p objects) as [|[o f] ms IH] using rev_ind; [done|].
  rewrite foldl_app. cbn [foldl]. rewrite IH, !omap_app, !existsb_app, last_app. clear IH.
  unfold update_snapshot, file_entry, tagged_protected, marks_corrupted, note_of. cbn.
  destruct (bool_decide (f = "corrupted")), (bool_decide (get_tag (UserTags o) "protected" = "true")),
    (bool_decide (get_tag (UserTags o) "note" = "")), (b64_DecodeString (get_tag (UserTags o) "note")),
    (HasSuffix f ".csjson");
    cbn; unfold set_corrupted, set_Protected, set_Comment, set_Files; cbn;
    rewrite ?orb_true_r, ?orb_false_r, ?app_nil_r; done.
Qed.

(** C25. [SnapshotsFromObjects] is the declarative grouping of its listing: it
    succeeds exactly on listings of well-formed objects, and then reports, in
    order of first appearance and one per name, the snapshot whose files are the
    objects of that name (chunk-size sidecars left out), protected when one of
    them is tagged so, with the last decodable note, hiding the snapshots marked
    corrupted unless asked for. *)
Theorem SnapshotsFromObjects_groups ds objects rc :
  match SnapshotsFromObjects objects ds rc with
  | Ok snaps =>
      forallb valid_object objects = true ∧
      snaps = List.filter (reported rc) (described_snapshot ds objects <$> names objects) ∧
      NoDup (names objects)
  | Err _ => forallb valid_object objects = false
  | Panicked _ => False
  end.
Proof.
  pose proof (SnapshotsFromObjects_ok ds objects rc) as Hok.
  destruct (SnapshotsFromObjects objects ds rc) as [snaps|e|p] eqn:E; [|done|].
  - split_and!; [done| |apply names_NoDup].
    rewrite (SnapshotsFromObjects_spec ds objects rc snaps E). f_equal.
    apply list_fmap_ext. intros _ p _. apply snapshot_of_described.
  - clear Hok. unfold SnapshotsFromObjects in E.
    destruct (foldM (snapshots_step ds) (∅, []) objects) as [st|e|q] eqn:F; try done.
    revert F. generalize (∅ : gmap string Snapshot, @nil string) as st.
    induction objects as [|o objects IH]; intros [m order]; [done|]. cbn [foldM].
    destruct (valid_object o) eqn:Hv.
    + apply valid_object_cases in Hv as [Herr [[Hout _]|(pn & f & id & t & ty & Hsk & Hn)]].
      * rewrite snapshots_step_outside by done. apply IH.
      * rewrite (snapshots_step_valid ds m _ o pn f id t ty) by done. apply IH.
    + by apply (snapshots_step_invalid ds (m, order)) in Hv as [e ->].
Qed.

(** ** The key format round trip *)

(** The names the format can carry: no separator inside, nothing empty. *)
Definition wf_snapshot (s : Snapshot) : bool :=
  negb (bool_decide (BackupID s = "")) && negb (bool_decide (BackupType s = "")) &&
  negb (has_byte slash (BackupID s)) && negb (has_byte bar (BackupID s)) &&
  negb (has_byte slash (BackupType s)) && negb (has_byte bar (BackupType s)) &&
  (0 <=? BackupTime s) && (BackupTime s <? 2 ^ 64).

Lemma snapshot_name_no_slash s :
  has_byte slash (BackupID s) = false → has_byte slash (BackupType s) = false →
  has_byte slash (snapshot_name s) = false.
Proof.
  intros H1 H2. unfold snapshot_name. rewrite has_byte_app, H1. cbn [has_byte orb].
  change (Ascii.eqb bar slash) with false. rewrite has_byte_app, fmt_d_no_byte by (done || by left).
  cbn [has_byte orb]. by rewrite H2.
Qed.
Lemma snapshot_name_nonempty s : snapshot_name s ≠ "".
Proof. unfold snapshot_name. by destruct (BackupID s). Qed.

Lemma split_key_app p f :
  has_byte slash p = false → p ≠ "" → f ≠ "" →
  split_key ("backups/" +:+ p +:+ String slash f) = Some (p, f).
Proof.
  intros Hs Hp Hf. unfold split_key. rewrite HasPrefix_app, TrimPrefix_app, Cut_app by done.
  by rewrite !bool_decide_eq_false_2.
Qed.
Lemma parse_name_snapshot_name s :
  wf_snapshot s = true → parse_name (snapshot_name s) = Some (BackupID s, BackupTime s, BackupType s).
Proof.
  unfold wf_snapshot. intros H. reflect_bools. unfold parse_name, snapshot_name.
  rewrite !Split_app, Split_word by (done || (apply fmt_d_no_byte; [done|by left])).
  rewrite !bool_decide_eq_false_2 by done. cbn [orb].
  by rewrite ParseUint_fmt_d.
Qed.

(** Every snapshot of a listing is well formed, and a listing without snapshots
    has no object under [backups/]. *)
Lemma parse_name_wf p id t ty :
  has_byte slash p = false → parse_name p = Some (id, t, ty) →
  id ≠ "" ∧ ty ≠ "" ∧ has_byte slash id = false ∧ has_byte bar id = false ∧
  has_byte slash ty = false ∧ has_byte bar ty = false ∧ is_u64 t.
Proof.
  intros Hs. unfold parse_name. pose proof (Join_Split p bar) as HJ. pose proof (Split_no_sep p bar) as HF.
  destruct (Split p bar) as [|f0 [|f1 [|f2 [|]]]]; try done.
  destruct (bool_decide (f0 = "") || bool_decide (f2 = "")) eqn:E; [done|]. reflect_bools.
  destruct (ParseUint f1 64) as [t' [e|]] eqn:Et; [done|]. intros [= <- <- <-].
  rewrite !Forall_cons in HF. destruct HF as (? & _ & ? & _).
  rewrite <-HJ in Hs. rewrite !Join_cons in Hs by done. cbn [Join] in Hs.
  rewrite !has_byte_app in Hs. cbn [has_byte] in Hs. rewrite !has_byte_app in Hs. cbn [has_byte] in Hs.
  reflect_bools. pose proof (ParseUint_range f1 64 _ ltac:(lia) Et). split_and!; done || lia.
Qed.
Lemma SnapshotsFromObjects_wf ds objects rc snaps s :
  SnapshotsFromObjects objects ds rc = Ok snaps → s ∈ snaps → wf_snapshot s = true.
Proof.
  intros E Hs. pose proof (SnapshotsFromObjects_ok ds objects rc) as Hok. rewrite E in Hok. cbn in Hok.
  apply SnapshotsFromObjects_spec in E as ->.
  apply list_elem_of_In, filter_In in Hs as [Hs _]. apply list_elem_of_In, list_elem_of_fmap in Hs as (p & -> & Hp).
  apply elem_of_names in Hp as (o & Ho & Hn). unfold object_name in Hn.
  destruct (split_key (Key o)) as [[p' f]|] eqn:Hsk; [|done]. cbn in Hn. injection Hn as ->.
  symmetry in Hok. rewrite forallb_forall in Hok. specialize (Hok o). rewrite <-list_elem_of_In in Hok.
  destruct (valid_object_cases o (Hok Ho)) as [_ [[_ ?]|(p' & f' & id & t & ty & Hsk' & Hpn)]]; [congruence|].
  assert (p' = p) as -> by congruence.
  rewrite snapshot_of_described. unfold described_snapshot. rewrite Hpn.
  assert (has_byte slash p = false) as Hsl.
  { unfold split_key in Hsk. destruct (HasPrefix _ _); [|done].
    destruct (Cut _ slash) as [[a b]|] eqn:Hc; [|done]. apply Cut_Some in Hc as [_ Hc].
    destruct (_ || _) in Hsk; [done|]. congruence. }
  destruct (parse_name_wf p id t ty Hsl Hpn) as (? & ? & H1 & H2 & H3 & H4 & ?).
  unfold wf_snapshot. cbn. rewrite H1, H2, H3, H4, !bool_decide_eq_false_2 by done. cbn.
  rewrite andb_true_iff, Z.leb_le, Z.ltb_lt. lia.
Qed.
Lemma SnapshotsFromObjects_nil ds objects o :
  SnapshotsFromObjects objects ds true = Ok [] → o ∈ objects → HasPrefix (Key o) "backups/" = false.
Proof.
  intros E Ho. pose proof (SnapshotsFromObjects_ok ds objects true) as Hok. rewrite E in Hok. cbn in Hok.
  symmetry in Hok. rewrite forallb_forall in Hok. specialize (Hok o). rewrite <-list_elem_of_In in Hok.
  destruct (valid_object_cases o (Hok Ho)) as [_ [[? _]|(p & f & id & t & ty & Hsk & Hpn)]]; [done|].
  apply SnapshotsFromObjects_spec in E.
  assert (p ∈ names objects) as Hp.
  { apply elem_of_names. exists o. split; [done|]. unfold object_name. by rewrite Hsk. }
  destruct (names objects) as [|q ns]; [by apply not_elem_of_nil in Hp|done].
Qed.

Lemma SnapshotsFromObjects_member ds objects snaps o s f :
  SnapshotsFromObjects objects ds true = Ok snaps → o ∈ objects → wf_snapshot s = true → f ≠ "" →
  Key o = S3Prefix s +:+ String slash f →
  ∃ s1, s1 ∈ snaps ∧ BackupID s1 = BackupID s ∧ BackupTime s1 = BackupTime s ∧ BackupType s1 = BackupType s.
Proof.
  intros E Ho Hwf Hf Hk. apply SnapshotsFromObjects_spec in E as ->.
  assert (split_key (Key o) = Some (snapshot_name s, f)) as Hsk.
  { rewrite Hk. unfold S3Prefix. rewrite string_app_assoc. apply split_key_app; [|apply snapshot_name_nonempty|done].
    unfold wf_snapshot in Hwf. reflect_bools. by apply snapshot_name_no_slash. }
  exists (described_snapshot ds objects (snapshot_name s)). split.
  - apply list_elem_of_In, filter_In. split; [|done]. apply list_elem_of_In, list_elem_of_fmap.
    exists (snapshot_name s). rewrite snapshot_of_described. split; [done|].
    apply elem_of_names. exists o. split; [done|]. unfold object_name. by rewrite Hsk.
  - unfold described_snapshot. by rewrite parse_name_snapshot_name.
Qed.

(** C26. The name of a well-formed snapshot survives the bucket: an object stored
    under [S3Prefix] is listed as a file of a snapshot with the same identifier,
    time and type, whose own [S3Prefix] is the one it was stored under. *)
Theorem S3Prefix_roundtrip s f o ds :
  wf_snapshot s = true → f ≠ "" → HasSuffix f ".csjson" = false →
  oi_Err o = None → Key o = S3Prefix s +:+ String slash f →
  ∃ s', SnapshotsFromObjects [o] ds true = Ok [s'] ∧
    BackupID s' = BackupID s ∧ BackupTime s' = BackupTime s ∧ BackupType s' = BackupType s ∧
    S3Prefix s' = S3Prefix s ∧ (Filename <$> Files s') = [f].
Proof.
  intros Hwf Hf Hcs Herr Hkey. pose proof (parse_name_snapshot_name s Hwf) as Hn.
  assert (split_key (Key o) = Some (snapshot_name s, f)) as Hsk.
  { rewrite Hkey. unfold S3Prefix. rewrite string_app_assoc. apply split_key_app; [|apply snapshot_name_nonempty|done].
    unfold wf_snapshot in Hwf. reflect_bools. by apply snapshot_name_no_slash. }
  unfold SnapshotsFromObjects. cbn [foldM].
  rewrite (snapshots_step_valid ds ∅ [] o _ _ _ _ _ Herr Hsk Hn), lookup_empty.
  unfold collect_snapshots. cbn. rewrite lookup_insert_eq. cbn.
  eexists. split; [done|]. unfold update_snapshot, S3Prefix, snapshot_name. rewrite Hcs.
  by repeat case_match.
Qed.
Definition example_snapshot : Snapshot := mkSnapshot "100" 1700000000 "vm" [] false "" "" false 0.
Definition example_object (k : string) (size : Z) : ObjectInfo := mkObjectInfo k size 0 ∅ ∅ None.
Lemma S3Prefix_roundtrip_witness :
  ∃ s', SnapshotsFromObjects
          [example_object "backups/100|1700000000|vm/drive-scsi0.img.fidx" 4128] "pbs" true = Ok [s'] ∧
    BackupID s' = "100" ∧ BackupTime s' = 1700000000 ∧ BackupType s' = "vm" ∧
    S3Prefix s' = "backups/100|1700000000|vm" ∧ (Filename <$> Files s') = ["drive-scsi0.img.fidx"].
Proof. by apply (S3Prefix_roundtrip example_snapshot "drive-scsi0.img.fidx"). Defined.

(** Nothing checks the names a client announces: when a backup identifier
    holds the separator of the key format, the objects of that one backup make
    the listing of the whole datastore fail, for every reader of it. *)
Theorem separator_in_id_poisons_listing s f ds rc objects o :
  has_byte bar (BackupID s) = true → has_byte slash (BackupID s) = false →
  has_byte slash (BackupType s) = false → f ≠ "" →
  Key o = S3Prefix s +:+ String slash f → o ∈ objects →
  is_ok (SnapshotsFromObjects objects ds rc) = false.
Proof.
  intros Hbar Hs1 Hs2 Hf Hkey Hin. rewrite SnapshotsFromObjects_ok.
  apply not_true_is_false. rewrite forallb_forall. intros Hall.
  specialize (Hall o (proj1 (list_elem_of_In _ _) Hin)). unfold valid_object in Hall.
  rewrite Hkey in Hall. unfold S3Prefix in Hall. rewrite string_app_assoc in Hall.
  rewrite HasPrefix_app, split_key_app in Hall
    by (done || apply snapshot_name_nonempty || by apply snapshot_name_no_slash).
  destruct (oi_Err o); [done|]. cbn in Hall. apply bool_decide_eq_true_1 in Hall as [nm Hn].
  unfold parse_name, snapshot_name in Hn.
  assert (∃ x y, BackupID s = x +:+ String bar y ∧ has_byte bar x = false) as (x & y & Hid & Hx).
  { destruct (Cut (BackupID s) bar) as [[x y]|] eqn:Ec.
    - apply Cut_Some in Ec as [? ?]. eauto.
    - apply Cut_None in Ec. congruence. }
  rewrite Hid, string_app_assoc in Hn. cbn [String.append] in Hn. rewrite Split_app in Hn by done.
  destruct (Split_cons y bar) as (w & ws & Hy).
  assert (∀ a b, ∃ v vs, Split (a +:+ String bar b) bar = v :: vs ++ Split b bar) as Hsp.
  { clear. intros a b. induction a as [|c a (v & vs & IH)]; cbn; [by exists "", []|].
    destruct (Ascii.eqb c bar); [exists "", (v :: vs); by rewrite IH|]. rewrite IH. eauto. }
  destruct (Hsp y (fmt_d (BackupTime s) +:+ String bar (BackupType s))) as (v & vs & E).
  rewrite E, Split_app in Hn by (apply fmt_d_no_byte; [done|by left]).
  destruct (Split_cons (BackupType s) bar) as (v' & vs' & E'). rewrite E' in Hn.
  destruct vs as [|? [|]]; done.
Qed.
Lemma separator_in_id_poisons_listing_witness :
  is_ok (SnapshotsFromObjects
    [example_object "backups/100|1700000000|vm/drive.img.fidx" 4128;
     example_object "backups/a|b|1700000000|host/etc.pxar.didx" 4096] "pbs" true) = false.
Proof.
  apply (separator_in_id_poisons_listing
    (mkSnapshot "a|b" 1700000000 "host" [] false "" "" false 0) "etc.pxar.didx" "pbs" true _
    (example_object "backups/a|b|1700000000|host/etc.pxar.didx" 4096));
    [reflexivity..|done|reflexivity|]. by right; left.
Defined.

(** ** The previous backup *)

(** The snapshots [GetLatestSnapshot] may answer with. *)
Definition eligible (id : string) (time : Z) (s : Snapshot) : Prop :=
  BackupID s = id ∧ BackupTime s ≠ time.

Lemma latest_step_cases id time m s :
  (eligible id time s ∧ latest_step id time m s = Some s ∧ (∀ m', m = Some m' → BackupTime m' < BackupTime s)) ∨
  (latest_step id time m s = m ∧ (eligible id time s → ∃ m', m = Some m' ∧ BackupTime s ≤ BackupTime m')).
Proof.
  unfold latest_step, eligible.
  destruct (bool_decide (BackupTime s = time)) eqn:E1, (bool_decide (BackupID s = id)) eqn:E2;
    reflect_bools; cbn; [right; naive_solver|..].
  - right. rewrite bool_decide_eq_false_2 by congruence. rewrite andb_false_r. naive_solver.
  - rewrite bool_decide_eq_true_2 by congruence. rewrite andb_true_r.
    destruct m as [m'|]; [|left; naive_solver].
    destruct (Z.ltb_spec (BackupTime m') (BackupTime s)); [left|right]; naive_solver.
  - right. rewrite bool_decide_eq_false_2 by congruence. rewrite andb_false_r. naive_solver.
Qed.

(** [GetLatestSnapshot] answers with the most recent snapshot of the
    identifier other than the one being written, the first of the listing among
    equally recent ones, and with nothing only when there is no such snapshot. *)
Theorem latest_of_most_recent snapshots id time :
  match latest_of snapshots id time with
  | None => ∀ s, s ∈ snapshots → ¬ eligible id time s
  | Some m =>
      eligible id time m ∧
      ∃ before after, snapshots = before ++ m :: after ∧
        (∀ s, s ∈ before → eligible id time s → BackupTime s < BackupTime m) ∧
        (∀ s, s ∈ after → eligible id time s → BackupTime s ≤ BackupTime m)
  end.
Proof.
  unfold latest_of. induction snapshots as [|s l IH] using rev_ind.
  { by intros s ?%not_elem_of_nil. }
  rewrite foldl_app. cbn [foldl]. revert IH. generalize (foldl (latest_step id time) None l) as m.
  intros m IH. destruct (latest_step_cases id time m s) as [(Hel & -> & Hlt)|(-> & Hle)].
  - split; [done|]. exists l, []. split_and!; [done| |by intros ? ?%not_elem_of_nil].
    intros s' Hs' Hel'. destruct m as [m|]; [|by destruct (IH s')].
    destruct IH as (Hm & b & a & -> & Hb & Ha). specialize (Hlt m eq_refl).
    apply elem_of_app in Hs' as [Hs'|[->|Hs']%elem_of_cons].
    + specialize (Hb s' Hs' Hel'). lia.
    + done.
    + specialize (Ha s' Hs' Hel'). lia.
  - destruct m as [m|].
    + destruct IH as (Hm & b & a & -> & Hb & Ha). split; [done|].
      exists b, (a ++ [s]). split_and!; [by rewrite <-app_assoc|done|].
      intros s' [Hs'| ->%list_elem_of_singleton]%elem_of_app Hel'; [by apply Ha|].
      destruct (Hle Hel') as (m' & [= <-] & ?). done.
    + intros s' [Hs'| ->%list_elem_of_singleton]%elem_of_app Hel'; [by eapply IH|].
      destruct (Hle Hel') as (m' & ? & ?). done.
Qed.

(** The type of the backup plays no part in the selection: a container
    backup is given the more recent snapshot of the virtual machine with the
    same number as its previous backup, although it has one of its own. *)
Theorem latest_ignores_type :
  let vm := mkSnapshot "100" 200 "vm" [] false "" "pbs" false 0 in
  let ct := mkSnapshot "100" 100 "ct" [] false "" "pbs" false 0 in
  latest_of [ct; vm] "100" 300 = Some vm ∧ BackupType vm ≠ BackupType ct.
Proof. by split. Qed.

(** ** Deleting and reading the files of a snapshot *)

Section store.
Context {W : Type} `{ObjectStoreLaws W}.

Lemma collect_listing_Ok site args l objs :
  collect_listing site args l = Ok objs → objs = l ∧ Forall (λ o, oi_Err o = None) l.
Proof.
  revert objs. induction l as [|o l IH]; intros objs; cbn; [by intros [= <-]|].
  destruct (oi_Err o) eqn:E; [done|]. intros (objs' & Hl & [= <-])%res_bind_Ok.
  destruct (IH _ Hl) as [-> Hall]. auto.
Qed.
Lemma collect_listing_no_panic site args l p : collect_listing site args l ≠ Panicked p.
Proof.
  induction l as [|o l IH]; cbn; [done|]. destruct (oi_Err o); [done|].
  by destruct (collect_listing site args l).
Qed.

Lemma ListSnapshots_effect ds rc : effect (W:=W) keeps_all (ListSnapshots ds rc).
Proof. unfold ListSnapshots. solve_effect. Qed.
Lemma GetLatestSnapshot_effect ds id time : effect (W:=W) keeps_all (GetLatestSnapshot ds id time).
Proof. unfold GetLatestSnapshot. pose proof ListSnapshots_effect. solve_effect. Qed.

Lemma ListSnapshots_wf ds rc (w w' : W) l s : ListSnapshots ds rc w = (Ok l, w') → s ∈ l → wf_snapshot s = true.
Proof.
  unfold ListSnapshots. intros Hl.
  apply io_bind_Ok_inv in Hl as (lst & w1 & _ & Hl). apply io_bind_Ok_inv in Hl as (objs & w2 & _ & [Hl _]%lift_res_inv).
  by eapply SnapshotsFromObjects_wf.
Qed.
(** The previous backup is one of the listing, and not the one being written. *)
Lemma GetLatestSnapshot_Ok ds id time (w w' : W) m :
  GetLatestSnapshot ds id time w = (Ok (Some m), w') → wf_snapshot m = true ∧ eligible id time m.
Proof.
  unfold GetLatestSnapshot. intros (l & w1 & Hl & [= Hm _])%io_bind_Ok_inv.
  pose proof (latest_of_most_recent l id time) as Hlat. rewrite Hm in Hlat.
  destruct Hlat as (Hel & before & after & -> & _). split; [|done].
  eapply ListSnapshots_wf; [exact Hl|]. set_solver.
Qed.

(** The objects [Delete] is about. *)
Definition in_snapshot (s : Snapshot) (k : string) : bool := HasPrefix k (S3Prefix s +:+ "/").

Lemma Delete_ok (s : Snapshot) (w w' : W) (r : res unit) :
  Delete s w = (r, w') →
  shrinks (λ b k, b = Datastore s ∧ in_snapshot s k = true) w w' ∧
  (r = Ok tt → ∀ k, in_snapshot s k = true → contents w' (Datastore s) !! k = None) ∧
  (∀ site args e, r = Err (Wrapf site args e) → keeps_all w w').
Proof.
  unfold Delete. intros Hrun.
  apply io_bind_inv in Hrun as [(l & w1 & Hl & Hrun)|[(e & Hl & ->)|(p & Hl & ->)]];
    unfold lift_st in Hl;
    destruct (ListObjects _ _ w) as [l0 w0] eqn:E0; simplify_eq.
  apply ListObjects_effect in E0 as Hk0.
  apply io_bind_inv in Hrun as [(objs & w2 & Ho & Hrun)|[(e & Ho & ->)|(p & Ho & ->)]];
    unfold lift_res in Ho; injection Ho as Ho ->.
  2:{ split_and!; [by eapply keeps_all_shrinks|done|done]. }
  2:{ by apply collect_listing_no_panic in Ho. }
  apply collect_listing_Ok in Ho as [-> Hall].
  apply io_bind_inv in Hrun as [(errs & w3 & He & Hrun)|[(e & He & ->)|(p & He & ->)]];
    unfold lift_st in He; destruct (RemoveObjects _ _ w2) as [errs0 w0'] eqn:E1; simplify_eq.
  unfold lift_res in Hrun. simplify_eq.
  assert (∀ k, k ∈ Key <$> l → in_snapshot s k = true) as Hin_s.
  { intros k (oi & -> & Hin)%list_elem_of_fmap. rewrite Forall_forall in Hall.
    by destruct (ListObjects_sound _ _ _ _ _ E0 oi Hin (Hall _ Hin)) as [Hp _]. }
  split_and!.
  - etransitivity; [by eapply keeps_all_shrinks, Hk0|].
    apply RemoveObjects_effect in E1. eapply shrinks_weaken; [|exact E1].
    intros b k [-> ?]; auto.
  - intros Hr k Hk. destruct errs as [|e errs]; [|done].
    destruct (contents w2 (Datastore s) !! k) as [x|] eqn:Ex.
    + rewrite (keeps_all_lookup _ _ _ _ Hk0) in Ex.
      destruct (ListObjects_complete _ _ _ _ _ E0 Hall k x Ex) as (oi & Hin & <- & _); [done|].
      eapply RemoveObjects_done; [exact E1|]. by apply list_elem_of_fmap_2.
    + destruct (decide (k ∈ Key <$> l)) as [Hin|Hin].
      * by eapply RemoveObjects_done.
      * apply RemoveObjects_effect in E1. by destruct (E1 (Datastore s) k) as [->|[_ ->]].
  - intros site args e Hr. by destruct errs.
Qed.

(** [Delete] removes the objects under the snapshot's own directory and no
    others - a backup type that extends this one is a different directory -
    and when it reports success none of them is left; when the listing fails
    nothing is removed at all. *)
Theorem Delete_exact (s : Snapshot) (w w' : W) (r : res unit) :
  Delete s w = (r, w') →
  shrinks (λ b k, b = Datastore s ∧ in_snapshot s k = true) w w' ∧
  (r = Ok tt → ∀ k, in_snapshot s k = true → contents w' (Datastore s) !! k = None) ∧
  (∀ site args e, r = Err (Wrapf site args e) → keeps_all w w').
Proof. apply Delete_ok. Qed.

Lemma GetFiles_effect (s : Snapshot) : effect (W:=W) keeps_all (GetFiles s).
Proof. unfold GetFiles. solve_effect. Qed.

(** [path[2]] exists. *)
Definition has_file_part (o : ObjectInfo) : bool :=
  bool_decide (is_Some (Split (Key o) slash !! 2%nat)).
Definition listed_file (o : ObjectInfo) : SnapshotFile :=
  mkSnapshotFile (default "" (Split (Key o) slash !! 2%nat)) "none" (u64 (Size o)).

(** [GetFiles] never answers with an error: it appends one file per listing
    entry when every key has a third part, and panics otherwise - as it does on
    the entry that reports a failed listing, whose key is empty, because the
    error of an entry is not looked at. *)
Theorem GetFiles_outcome (s : Snapshot) (w : W) :
  let '(l, w') := ListObjects (Datastore s) (mkListOptions (S3Prefix s) false) w in
  GetFiles s w =
    (if forallb has_file_part l then Ok (set_Files (Files s ++ (listed_file <$> l)) s)
     else Panicked "index out of range", w')
  ∧ ∀ e, has_file_part (mkObjectInfo "" 0 0 ∅ ∅ (Some e)) = false.
Proof.
  destruct (ListObjects _ _ w) as [l w'] eqn:E. split; [|done].
  unfold GetFiles, mbind, io_bind, lift_st, lift_res. rewrite E. cbn.
  assert (foldM get_files_step (Files s) l =
    if forallb has_file_part l then Ok (Files s ++ (listed_file <$> l))
    else Panicked "index out of range") as ->.
  { generalize (Files s). clear. induction l as [|o l IH]; intros fs; cbn [foldM forallb].
    - by rewrite app_nil_r.
    - unfold get_files_step, has_file_part at 1.
      destruct (Split (Key o) slash !! 2%nat) eqn:E; [|done].
      rewrite IH. cbn. destruct (forallb has_file_part l); [|done].
      rewrite <-app_assoc. cbn. unfold listed_file at 2. by rewrite E. }
  by destruct (forallb has_file_part l).
Qed.
End store.

(** Deleting one of two snapshots whose names extend each other. *)
Definition delete_example : Snapshot := mkSnapshot "100" 7 "vm" [] false "" "pbs" false 0.
Definition delete_world : mem :=
  Mem {[ "pbs" := list_to_map [("backups/100|7|vm/a.blob", mkObj [] ∅ ∅ 0);
                               ("backups/100|7|vmx/a.blob", mkObj [] ∅ ∅ 0)] ]} ∅ 0 0 [].
Example delete_example_keys :
  map_to_list (contents (snd (Delete delete_example delete_world)) "pbs") =
  [("backups/100|7|vmx/a.blob", mkObj [] ∅ ∅ 0)].
Proof. vm_compute. reflexivity. Qed.
Lemma Delete_exact_witness :
  let r := Delete delete_example delete_world in
  shrinks (λ b k, b = "pbs" ∧ in_snapshot delete_example k = true) delete_world (snd r) ∧
  (fst r = Ok tt → ∀ k, in_snapshot delete_example k = true → contents (snd r) "pbs" !! k = None) ∧
  (∀ site args e, fst r = Err (Wrapf site args e) → keeps_all delete_world (snd r)).
Proof.
  apply (Delete_exact delete_example delete_world). by destruct (Delete _ _).
Defined.
