(* ===== verification/IndexFormat.v ===== *)
(** * Index files ([cmd/garbagecollector/gc.go] [parseIndex],
    [internal/s3pmoxcommon/indexsize.go])

    An index lists the chunks of an archive: a header of 4096 bytes and then one
    record per chunk.  The collector parses whole indexes; the proxy reads only
    the archive size, with a ranged request. *)

From S2P Require Import Prelude GoStrings GoBytes Sha256 S3 Platform MemWorld Snapshot.

Local Open Scope Z_scope.

(** ** Parsing *)

Record parsedIndex := mkParsedIndex {
  checksum : string;
  digests : list string;
  logicalSize : Z;
}.

(** [compareSum]: the checksum in the index, the one in the object metadata and
    the computed one must agree. *)
Definition compareSum (csum index : list byte) (metadatasum : string) : res unit :=
  let fileChecksum := hex_EncodeToString csum in
  let checksum := hex_EncodeToString (sha256 index) in
  if negb (bool_decide (fileChecksum = checksum)) || negb (bool_decide (fileChecksum = metadatasum))
  then Err (Errorf "Corrupted index file" [fileChecksum; metadatasum; checksum])
  else Ok tt.

(** The slices [l[n*i : n*i+n]] a loop over the offsets visits. *)
Definition records (n : nat) (l : list byte) : list (list byte) :=
  (λ i, l.[(n * i) ⋯ (n * i + n)]) <$> seq 0 (length l / n).

Definition IndexHeaderSize : nat := 4096.

Definition parseIndex (key : string) (data : list byte) (metadataChecksum : string) : res parsedIndex :=
  if (length data <? IndexHeaderSize)%nat then Err (Errorf "index is too small" [key])
  else
    let payload := drop IndexHeaderSize data in
    match compareSum data.[32 ⋯ 64] payload metadataChecksum with
    | Err e => Err (Wrapf "index" [key] e)
    | Panicked p => Panicked p
    | Ok _ =>
      if HasSuffix key ".fidx" then
        if negb (bool_decide (data.[0 ⋯ 8] = PROXMOX_INDEX_MAGIC_FIXED))
        then Err (Errorf "fixed index has wrong magic" [key])
        else if negb (length payload mod 32 =? 0)%nat
        then Err (Errorf "fixed index payload is not 32-byte aligned" [key])
        else Ok (mkParsedIndex metadataChecksum
                   (hex_EncodeToString <$> records 32 payload) (LE_Uint64 data.[64 ⋯ 72]))
      else if HasSuffix key ".didx" then
        if negb (bool_decide (data.[0 ⋯ 8] = PROXMOX_INDEX_MAGIC_DYNAMIC))
        then Err (Errorf "dynamic index has wrong magic" [key])
        else if negb (length payload mod 40 =? 0)%nat
        then Err (Errorf "dynamic index payload is not 40-byte aligned" [key])
        else Ok (foldl (λ r e, mkParsedIndex (checksum r)
                                 (digests r ++ [hex_EncodeToString e.[8 ⋯ 40]])
                                 (LE_Uint64 e.[0 ⋯ 8]))
                   (mkParsedIndex metadataChecksum [] 0) (records 40 payload))
      else Err (Errorf "unsupported index object" [key])
    end.

(** ** Archive sizes *)

Definition ErrNotAnIndex : error := Sentinel "ErrNotAnIndex".
Definition fixedIndexSizeAt : nat := 64.
Definition dynamicIndexEntry : Z := 40.
Definition fixedIndexHeaderMin : Z := 80.

Definition IsIndex (name : string) : bool := HasSuffix name ".fidx" || HasSuffix name ".didx".

Section archive_size.
Context {W : Type} `{!ObjectStore W}.

(** [opts.SetRange] rejects an ill-formed range; its error and the one of
    [GetObject] are returned the same way, so both are [GetObject]'s here. *)
Definition rangeRead (bucket key : string) (start end_ : Z) : io W (list byte) :=
  obj ← GetObject bucket key (Some (start, end_));
  s ← lift_st (Object_Read obj);
  match io_ReadFull (Z.to_nat (end_ - start + 1)) s with
  | (got, Some e, _) =>
      if errors_Is e "io.EOF" || errors_Is e "io.ErrUnexpectedEOF" then mret got else fail e
  | (got, None, _) => mret got
  end.

Definition fixedArchiveSize (bucket key : string) : io W Z :=
  head ← rangeRead bucket key 0 (fixedIndexHeaderMin - 1);
  if Z.of_nat (length head) <? fixedIndexHeaderMin
  then fail (Errorf "index header too short" [key])
  else if negb (bool_decide (head.[0 ⋯ 8] = PROXMOX_INDEX_MAGIC_FIXED))
  then fail (Errorf "wrong magic for a fixed index" [key])
  else mret (LE_Uint64 head.[fixedIndexSizeAt ⋯ (fixedIndexSizeAt + 8)]).

(** [objectSize % 40] on a positive [int64]. *)
Definition dynamicArchiveSize (bucket key : string) (objectSize : Z) : io W Z :=
  if objectSize <=? Z.of_nat IndexHeaderSize then mret 0
  else
    let payload := objectSize - Z.of_nat IndexHeaderSize in
    if negb (Z.rem payload dynamicIndexEntry =? 0)
    then fail (Errorf "not a multiple of the entry size" [key])
    else
      tail ← rangeRead bucket key (objectSize - dynamicIndexEntry) (objectSize - 1);
      if (length tail <? 8)%nat then fail (Errorf "short read on the last index entry" [key])
      else mret (LE_Uint64 tail.[0 ⋯ 8]).

Definition ArchiveSize (bucket key : string) (objectSize : Z) : io W Z :=
  if HasSuffix key ".fidx" then fixedArchiveSize bucket key
  else if HasSuffix key ".didx" then dynamicArchiveSize bucket key objectSize
  else fail ErrNotAnIndex.
End archive_size.

(** ** Records *)

(** The proofs use of the header size only that the header's fields fit. *)
Lemma IndexHeaderSize_fields : (80 ≤ IndexHeaderSize)%nat.
Proof. apply Nat.leb_le. vm_compute. reflexivity. Qed.
#[local] Opaque IndexHeaderSize.

Lemma length_mjoin_const {A} n (rs : list (list A)) :
  Forall (λ r, length r = n) rs → length (mjoin rs) = (length rs * n)%nat.
Proof.
  induction 1 as [|r rs Hr _ IH]; [done|].
  change (mjoin (r :: rs)) with (r ++ mjoin rs). cbn [length]. rewrite length_app, IH. lia.
Qed.

Lemma records_mjoin n (rs : list (list byte)) :
  (0 < n)%nat → Forall (λ r, length r = n) rs → records n (mjoin rs) = rs.
Proof.
  intros Hn Hrs. unfold records.
  rewrite (length_mjoin_const n) by done. rewrite Nat.div_mul by lia.
  induction Hrs as [|r rs Hr Hrs IH]; [done|]. cbn [length seq fmap list_fmap]. f_equal.
  - unfold slice. cbn. rewrite Nat.mul_0_r, drop_0.
    replace (0 + n - 0)%nat with n by lia. by rewrite take_app_length'.
  - rewrite <-IH at 2. rewrite <-(fmap_S_seq 0), <-list_fmap_compose.
    apply list_fmap_ext. intros i j _. cbn. unfold slice.
    replace (n * S j)%nat with (n + n * j)%nat by lia.
    rewrite <-drop_drop, drop_app_length' by done. f_equal. lia.
Qed.

Lemma records_spec n (l : list byte) :
  (0 < n)%nat → (length l mod n = 0)%nat →
  l = mjoin (records n l) ∧ Forall (λ r, length r = n) (records n l).
Proof.
  intros Hn Hmod. pose proof (Nat.div_mod_eq (length l) n) as Hdiv.
  assert (l = mjoin (reshape (replicate (length l / n) n) l) ∧
    Forall (λ r, length r = n) (reshape (replicate (length l / n) n) l)) as [Hj Hall].
  { assert (sum_list (replicate (length l / n) n) = length l) as Hsum by (rewrite sum_list_replicate; lia).
    split; [by rewrite join_reshape|].
    apply Forall_forall. intros r (i & Hi)%list_elem_of_lookup.
    revert Hsum Hi. clear. generalize (length l / n)%nat as k. revert l i.
    intros l i k. revert l i. induction k as [|k IH]; intros l i; cbn; [done|].
    intros Hsum. destruct i as [|i]; cbn.
    - intros [= <-]. rewrite length_take. lia.
    - apply IH. rewrite length_drop. lia. }
  rewrite Hj at 2 3. rewrite records_mjoin by done. by rewrite <-Hj.
Qed.

(** An index file is a header of 4096 bytes and its records; the entries of a
    dynamic index are an end offset and a digest. *)
Definition entry (offset : Z) (digest : list byte) : list byte := LE_PutUint64 offset ++ digest.

Lemma length_entry o d : length (entry o d) = (8 + length d)%nat.
Proof. unfold entry, LE_PutUint64. by rewrite length_app, length_le_bytes. Qed.

Lemma slice_0 {A} n (l : list A) : slice 0 n l = take n l.
Proof. unfold slice. by rewrite Nat.sub_0_r, drop_0. Qed.
Lemma slice_app_l {A} i j (l k : list A) :
  (j ≤ length l)%nat → slice i j (l ++ k) = slice i j l.
Proof.
  intros. unfold slice. destruct (decide (i ≤ j)%nat).
  - rewrite drop_app_le by lia. rewrite take_app_le; [done|]. rewrite length_drop. lia.
  - by replace (j - i)%nat with 0%nat by lia.
Qed.

Lemma entry_digest o d : length d = 32%nat → slice 8 40 (entry o d) = d.
Proof.
  intros Hd. unfold entry, slice. rewrite drop_app_length' by (by unfold LE_PutUint64; rewrite length_le_bytes).
  by rewrite take_ge by lia.
Qed.
Lemma entry_offset o d : is_u64 o → LE_Uint64 (slice 0 8 (entry o d)) = o.
Proof.
  intros Ho. unfold entry. rewrite slice_0. unfold LE_Uint64. rewrite take_take.
  apply (LE_Uint64_Put o d Ho).
Qed.
Lemma entry_of_record r :
  length r = 40%nat → r = entry (LE_Uint64 (slice 0 8 r)) (slice 8 40 r).
Proof.
  intros Hr. unfold entry, LE_PutUint64, LE_Uint64. rewrite slice_0, take_take.
  assert (∀ bs : list byte, le_bytes (length bs) (le_Z bs) = bs) as Hle.
  { induction bs as [|b bs IH]; [done|]. cbn [length le_bytes le_Z]. pose proof (byte_Z_range b).
    f_equal.
    - apply byte_Z_inj. rewrite byte_Z_byte, Z.mul_comm, Z_mod_plus_full, Z.mod_small by lia. done.
    - replace ((byte_Z b + 256 * le_Z bs) / 256) with (le_Z bs); [done|].
      rewrite Z.mul_comm, Z.div_add, Z.div_small by lia. lia. }
  assert (length (take 8 r) = 8%nat) as Ht by (rewrite length_take; lia).
  rewrite <-Ht at 1. rewrite Hle. unfold slice.
  rewrite (take_ge (drop 8 r)) by (rewrite length_drop; lia). by rewrite take_drop.
Qed.

(** The parser's result on a list of dynamic entries. *)
Lemma foldl_entries c r0 (es : list (list byte)) :
  checksum r0 = c →
  foldl (λ r e, mkParsedIndex (checksum r) (digests r ++ [hex_EncodeToString e.[8 ⋯ 40]])
                  (LE_Uint64 e.[0 ⋯ 8])) r0 es
  = mkParsedIndex c (digests r0 ++ ((λ e, hex_EncodeToString e.[8 ⋯ 40]) <$> es))
      (default (logicalSize r0) (last ((λ e, LE_Uint64 e.[0 ⋯ 8]) <$> es))).
Proof.
  intros <-. induction es as [|e es IH] using rev_ind.
  - cbn. rewrite app_nil_r. by destruct r0.
  - rewrite foldl_app, IH. cbn [foldl checksum digests logicalSize].
    rewrite !fmap_app. cbn [fmap list_fmap]. by rewrite last_snoc, app_assoc.
Qed.

(** The contents a valid index file of either kind describes. *)
Inductive index_contents (key : string) (header : list byte) :
    list byte → list (list byte) → Z → Prop :=
| fixed_contents ds :
    HasSuffix key ".fidx" = true →
    header.[0 ⋯ 8] = PROXMOX_INDEX_MAGIC_FIXED →
    Forall (λ d, length d = 32%nat) ds →
    index_contents key header (mjoin ds) ds (LE_Uint64 header.[64 ⋯ 72])
| dynamic_contents (es : list (Z * list byte)) :
    HasSuffix key ".fidx" = false → HasSuffix key ".didx" = true →
    header.[0 ⋯ 8] = PROXMOX_INDEX_MAGIC_DYNAMIC →
    Forall (λ e, is_u64 e.1 ∧ length e.2 = 32%nat) es →
    index_contents key header (mjoin ((λ e, entry e.1 e.2) <$> es)) es.*2
      (default 0 (last es.*1)).

Lemma parse_fixed key header ds :
  length header = IndexHeaderSize → HasSuffix key ".fidx" = true →
  header.[0 ⋯ 8] = PROXMOX_INDEX_MAGIC_FIXED →
  Forall (λ d, length d = 32%nat) ds →
  header.[32 ⋯ 64] = sha256 (mjoin ds) →
  parseIndex key (header ++ mjoin ds) (hex_EncodeToString (sha256 (mjoin ds)))
  = Ok (mkParsedIndex (hex_EncodeToString (sha256 (mjoin ds))) (hex_EncodeToString <$> ds)
          (LE_Uint64 header.[64 ⋯ 72])).
Proof.
  intros Hlen Hkey Hmagic Hds Hsum. unfold parseIndex.
  pose proof IndexHeaderSize_fields. rewrite length_app, Hlen.
  destruct (Nat.ltb_spec (IndexHeaderSize + length (mjoin ds)) IndexHeaderSize); [lia|].
  rewrite drop_app_length' by done. unfold compareSum.
  rewrite !slice_app_l, Hsum, Hkey, Hmagic by lia.
  rewrite !bool_decide_eq_true_2 by done. cbn [negb orb].
  assert (length (mjoin ds) mod 32 = 0)%nat as ->.
  { rewrite (length_mjoin_const 32) by done. by apply Nat.Div0.mod_mul. }
  cbn [Nat.eqb negb]. by rewrite records_mjoin by (done || lia).
Qed.

Lemma parse_dynamic key header (es : list (Z * list byte)) :
  length header = IndexHeaderSize → HasSuffix key ".fidx" = false → HasSuffix key ".didx" = true →
  header.[0 ⋯ 8] = PROXMOX_INDEX_MAGIC_DYNAMIC →
  Forall (λ e, is_u64 e.1 ∧ length e.2 = 32%nat) es →
  let payload := mjoin ((λ e, entry e.1 e.2) <$> es) in
  header.[32 ⋯ 64] = sha256 payload →
  parseIndex key (header ++ payload) (hex_EncodeToString (sha256 payload))
  = Ok (mkParsedIndex (hex_EncodeToString (sha256 payload)) (hex_EncodeToString <$> es.*2)
          (default 0 (last es.*1))).
Proof.
  intros Hlen Hkf Hkd Hmagic Hes payload Hsum. unfold parseIndex.
  pose proof IndexHeaderSize_fields. rewrite length_app, Hlen.
  destruct (Nat.ltb_spec (IndexHeaderSize + length payload) IndexHeaderSize); [lia|].
  rewrite drop_app_length' by done. unfold compareSum.
  rewrite !slice_app_l, Hsum, Hkf, Hkd, Hmagic by lia.
  rewrite !bool_decide_eq_true_2 by done. cbn [negb orb].
  set (rs := (λ e, entry e.1 e.2) <$> es).
  assert (Forall (λ r, length r = 40%nat) rs) as Hrs.
  { apply Forall_fmap. eapply Forall_impl; [exact Hes|]. intros [o d] [_ Hd].
    unfold compose. rewrite length_entry. cbn in *. by rewrite Hd. }
  assert (length payload mod 40 = 0)%nat as ->.
  { unfold payload. fold rs. rewrite (length_mjoin_const 40) by done. by apply Nat.Div0.mod_mul. }
  cbn [Nat.eqb negb]. unfold payload at 2. fold rs. rewrite records_mjoin by (done || lia).
  rewrite (foldl_entries (hex_EncodeToString (sha256 payload))) by done.
  cbn [digests logicalSize app]. f_equal. unfold rs. rewrite <-!list_fmap_compose.
  rewrite !Forall_forall in Hes. f_equal.
  - apply list_fmap_ext. intros i [o d] Hi. unfold compose. cbn [fst snd].
    rewrite entry_digest; [done|]. by apply (Hes (o, d)), list_elem_of_lookup_2 with i.
  - do 2 f_equal. apply list_fmap_ext. intros i [o d] Hi. unfold compose. cbn [fst snd].
    apply entry_offset. by apply (Hes (o, d)), list_elem_of_lookup_2 with i.
Qed.

Lemma parseIndex_inv key data meta r :
  parseIndex key data meta = Ok r →
  ∃ header payload ds size,
    data = header ++ payload ∧ length header = IndexHeaderSize ∧
    index_contents key header payload ds size ∧
    header.[32 ⋯ 64] = sha256 payload ∧ meta = hex_EncodeToString (sha256 payload) ∧
    r = mkParsedIndex meta (hex_EncodeToString <$> ds) size.
Proof.
  intros Hp. pose proof IndexHeaderSize_fields. unfold parseIndex in Hp.
  destruct (Nat.ltb_spec (length data) IndexHeaderSize) as [|Hlen]; [done|].
  set (header := take IndexHeaderSize data). set (payload := drop IndexHeaderSize data) in *.
  assert (data = header ++ payload) as Hdata by (symmetry; apply take_drop).
  assert (length header = IndexHeaderSize) as Hh by (unfold header; rewrite length_take; lia).
  assert (∀ i j, (j ≤ IndexHeaderSize)%nat → slice i j data = slice i j header) as Hsl.
  { intros i j Hj. rewrite Hdata. apply slice_app_l. lia. }
  rewrite !Hsl in Hp by lia.
  destruct (compareSum _ payload meta) as [[]| |] eqn:Hc; [|done|done].
  unfold compareSum in Hc.
  destruct (negb _ || negb _) eqn:E; [done|]. apply orb_false_iff in E as [E1 E2].
  rewrite negb_false_iff, bool_decide_eq_true in E1, E2. apply hex_EncodeToString_inj in E1.
  rewrite E1 in E2.
  exists header, payload.
  destruct (HasSuffix key ".fidx") eqn:Hkf; [|destruct (HasSuffix key ".didx") eqn:Hkd; [|done]].
  - destruct (bool_decide (slice 0 8 header = _)) eqn:Hm; [|done]. apply bool_decide_eq_true in Hm.
    destruct (Nat.eqb_spec (length payload mod 32) 0) as [Hmod|]; [|done]. injection Hp as <-.
    destruct (records_spec 32 payload) as [Hj Hall]; [lia|done|].
    exists (records 32 payload), (LE_Uint64 header.[64 ⋯ 72]). split_and!; try done.
    rewrite Hj at 1. by constructor.
  - destruct (bool_decide (slice 0 8 header = _)) eqn:Hm; [|done]. apply bool_decide_eq_true in Hm.
    destruct (Nat.eqb_spec (length payload mod 40) 0) as [Hmod|]; [|done]. injection Hp as <-.
    destruct (records_spec 40 payload) as [Hj Hall]; [lia|done|].
    set (es := (λ r, (LE_Uint64 r.[0 ⋯ 8], r.[8 ⋯ 40])) <$> records 40 payload).
    assert (records 40 payload = (λ e, entry e.1 e.2) <$> es) as Hes.
    { unfold es. rewrite <-list_fmap_compose. rewrite <-(list_fmap_id (records 40 payload)) at 1.
      apply list_fmap_ext. intros i r Hi. cbn. rewrite Forall_forall in Hall.
      apply entry_of_record. eapply Hall, list_elem_of_lookup_2, Hi. }
    exists es.*2, (default 0 (last es.*1)). split_and!; try done.
    + rewrite Hj, Hes. constructor; try done. unfold es. apply Forall_fmap.
      eapply Forall_impl; [exact Hall|]. intros r Hr. cbv beta in Hr. unfold compose. cbn [fst snd].
      split; [apply LE_Uint64_range|]. rewrite length_slice; lia.
    + rewrite (foldl_entries meta) by done. unfold es. cbn [digests logicalSize app].
      by rewrite <-!list_fmap_compose.
Qed.
Lemma parseIndex_IsIndex key data meta r : parseIndex key data meta = Ok r → IsIndex key = true.
Proof.
  intros (? & ? & ? & ? & _ & _ & Hc & _)%parseIndex_inv. unfold IsIndex.
  destruct Hc as [? ->|? -> ->]; by rewrite ?orb_true_r.
Qed.

(** C24. [parseIndex] accepts exactly the files that are a header of 4096 bytes
    with the right magic, followed by whole records whose SHA-256 is both in the
    header and in the metadata, and answers with the digests of the records in
    order and the archive size (header field of a fixed index, last end offset of
    a dynamic one). *)
Theorem parseIndex_iff key data meta r :
  parseIndex key data meta = Ok r ↔
  ∃ header payload ds size,
    data = header ++ payload ∧ length header = IndexHeaderSize ∧
    index_contents key header payload ds size ∧
    header.[32 ⋯ 64] = sha256 payload ∧ meta = hex_EncodeToString (sha256 payload) ∧
    r = mkParsedIndex meta (hex_EncodeToString <$> ds) size.
Proof.
  split; [apply parseIndex_inv|].
  intros (header & payload & ds & size & -> & Hlen & Hc & Hsum & -> & ->).
  destruct Hc; [by apply parse_fixed|by apply parse_dynamic].
Qed.

(** ** The size read from the store agrees with the parsed index *)

Lemma prefix_slice {A} i j (l k : list A) :
  l `prefix_of` k → (j ≤ length l)%nat → slice i j l = slice i j k.
Proof. intros [m ->] Hj. by rewrite slice_app_l. Qed.
Lemma slice_slice {A} i j n m (l : list A) :
  (j ≤ m - n)%nat → slice i j (slice n m l) = slice (n + i) (n + j) l.
Proof.
  intros. unfold slice. rewrite skipn_firstn_comm, take_take, drop_drop.
  f_equal. lia.
Qed.

Section agreement.
Context {W : Type} `{ObjectStoreLaws W}.

(** What a successful ranged read returns: bytes of the range, from its start. *)
Lemma rangeRead_prefix b k i j w got w' :
  0 ≤ i ≤ j → rangeRead b k i j w = (Ok got, w') → got ≠ [] →
  ∃ x, contents w b !! k = Some x ∧
    got `prefix_of` slice (Z.to_nat i) (Z.to_nat (j + 1)) (o_data x).
Proof.
  intros Hij Hrun Hne. unfold rangeRead in Hrun. inv_io.
  assert (∃ n, got = take n (s_bytes x0)) as [m ->].
  { unfold io_ReadFull in Hrun. destruct (_ <=? _)%nat; [inv_io; eauto|].
    destruct (s_err x0); destruct (_ || _) in Hrun; inv_io; eauto. }
  eapply GetObject_read_range in Hrun0; [|done|reflexivity|done].
  eapply delivers_prefix in Hrun0 as (data & Hx & Hp); [|apply prefix_take|done].
  apply fmap_Some in Hx as (o & Ho & ->). eauto.
Qed.

Lemma dynamicArchiveSize_last b k header (es : list (Z * list byte)) w n w' x :
  dynamicArchiveSize b k (Z.of_nat (length (o_data x))) w = (Ok n, w') →
  contents w b !! k = Some x → length header = IndexHeaderSize →
  o_data x = header ++ mjoin ((λ e, entry e.1 e.2) <$> es) →
  Forall (λ e, is_u64 e.1 ∧ length e.2 = 32%nat) es →
  n = default 0 (last es.*1).
Proof.
  intros Hrun Hx Hlen Hdata Hes. unfold dynamicArchiveSize in Hrun.
  destruct es as [|[o d] es _] using rev_ind.
  { rewrite Hdata, length_app, Hlen in Hrun. cbn in Hrun. rewrite Nat.add_0_r, Z.leb_refl in Hrun.
    by inv_io. }
  apply Forall_app in Hes as [_ [[Ho Hd] _]%Forall_cons]. cbn [fst snd] in Ho, Hd.
  rewrite !fmap_app, last_app. cbn.
  set (front := header ++ mjoin ((λ e, entry e.1 e.2) <$> es)).
  assert (o_data x = front ++ entry o d) as Hx'.
  { rewrite Hdata, fmap_app, join_app. cbn. by rewrite app_nil_r, app_assoc. }
  assert (length (entry o d) = 40%nat) as He by (by rewrite length_entry, Hd).
  rewrite Hx', length_app, He in Hrun.
  destruct (_ <=? _) eqn:E1 in Hrun.
  { apply Z.leb_le in E1. subst front. rewrite length_app, Hlen in E1. lia. }
  destruct (negb _) in Hrun; [done|]. inv_io.
  rename E into E2. apply Nat.ltb_ge in E2.
  unfold dynamicIndexEntry in Hrun0.
  apply rangeRead_prefix in Hrun0 as (x' & Hx'' & Hp); [|lia|intros ->; cbn in E2; lia].
  rewrite Hx in Hx''. simplify_eq. rewrite Hx' in Hp.
  replace (Z.to_nat (Z.of_nat (length front + 40) - 40)) with (length front + 0)%nat in Hp by lia.
  replace (Z.to_nat (Z.of_nat (length front + 40) - 1 + 1)) with (length front + 40)%nat in Hp by lia.
  rewrite (prefix_slice _ _ _ _ Hp) by lia.
  assert (∀ j, slice (length front + 0) (length front + j) (front ++ entry o d)
               = take j (entry o d)) as Htail.
  { intros j. unfold slice. rewrite drop_app_add. cbn [drop]. f_equal. lia. }
  rewrite slice_slice by lia.
  replace (length front + 0 + 8)%nat with (length front + 8)%nat by lia.
  replace (length front + 0 + 0)%nat with (length front + 0)%nat by lia.
  rewrite Htail, <-slice_0. by apply entry_offset.
Qed.

(** C35. The archive size the proxy reads with a ranged request - a field of the
    header of a fixed index, the last entry of a dynamic one - is the logical size
    the collector finds when it parses the whole index. *)
Theorem ArchiveSize_agrees b k w n w' x meta r :
  ArchiveSize b k (Z.of_nat (length (o_data x))) w = (Ok n, w') →
  contents w b !! k = Some x → parseIndex k (o_data x) meta = Ok r →
  n = logicalSize r.
Proof.
  intros Hrun Hx Hparse. pose proof IndexHeaderSize_fields as Hfields.
  apply parseIndex_inv in Hparse as (header & payload & ds & size & Hdata & Hlen & Hc & _ & _ & ->).
  cbn [logicalSize]. unfold ArchiveSize in Hrun. destruct Hc as [ds Hk|es Hkf Hkd].
  - rewrite Hk in Hrun. unfold fixedArchiveSize in Hrun. inv_io.
    apply Z.ltb_ge in E. unfold fixedIndexHeaderMin in E.
    apply rangeRead_prefix in Hrun0 as (x' & Hx' & Hp);
      [|unfold fixedIndexHeaderMin; lia|intros ->; cbn in E; lia].
    rewrite Hx in Hx'. simplify_eq. rewrite Hdata in Hp. f_equal. unfold fixedIndexSizeAt.
    rewrite (prefix_slice _ _ _ _ Hp) by lia. rewrite slice_slice by (unfold fixedIndexHeaderMin; lia).
    apply slice_app_l. rewrite Hlen. lia.
  - rewrite Hkf, Hkd in Hrun. apply (dynamicArchiveSize_last b k header es w n w' x); done.
Qed.
End agreement.

(** ** A concrete index *)

Definition example_header (payload : list byte) (archive : Z) : list byte :=
  PROXMOX_INDEX_MAGIC_FIXED ++ replicate 24 (Z_byte 0) ++ sha256 payload ++ LE_PutUint64 archive ++
  replicate 4024 (Z_byte 0).
Definition digest_of (n : Z) : list byte := replicate 32 (Z_byte n).
Definition example_index (ds : list Z) : Obj :=
  let payload := mjoin (digest_of <$> ds) in
  mkObj (example_header payload (100 * Z.of_nat (length ds)) ++ payload)
    {[ "Csum" := hex_EncodeToString (sha256 payload) ]} ∅ 0.

Definition example_index_key : string := "backups/100|1000|vm/drive.img.fidx".
Definition example_index_world : mem :=
  Mem {[ "pbs" := {[ example_index_key := example_index [1; 2] ]} ]} ∅ 0 0 [].
Definition example_meta (ds : list Z) : string := hex_EncodeToString (sha256 (mjoin (digest_of <$> ds))).
Definition example_parsed (ds : list Z) : parsedIndex :=
  mkParsedIndex (example_meta ds) ((λ d, hex_EncodeToString (digest_of d)) <$> ds)
    (100 * Z.of_nat (length ds)).

Lemma ArchiveSize_agrees_witness : 200 = logicalSize (example_parsed [1; 2]).
Proof.
  apply (ArchiveSize_agrees "pbs" example_index_key example_index_world 200 example_index_world
    (example_index [1; 2]) (example_meta [1; 2])).
  - vm_compute. reflexivity.
  - vm_compute. reflexivity.
  - vm_compute. reflexivity.
Defined.
