(* ===== verification/Invalidation.v ===== *)
(** * Cache invalidation tokens ([internal/s3pmoxcommon/cache_invalidation.go])

    The collector and the proxy are different processes.  A mutation of a
    datastore is announced by replacing a small file both can see, whose
    content - time, process, counter - differs at every publication. *)

From S2P Require Import Prelude GoStrings S3 Platform Snapshot.

Local Open Scope Z_scope.

Definition CacheInvalidationTokenPath (directory endpoint datastore : string) : string :=
  filepath_Join directory (DataStoreLockName endpoint datastore +:+ ".invalidate").

(** [fmt.Sprintf("%d-%d-%d", ...)]. *)
Definition dash : ascii := "-"%char.
Definition invalidation_token (now pid seq : Z) : string :=
  fmt_d now +:+ String dash (fmt_d pid +:+ String dash (fmt_d seq)).

Section operations.
Context {W : Type} `{!Platform W}.

Definition PublishCacheInvalidation (directory endpoint datastore : string) : io W string :=
  if bool_decide (directory = "") then mret ""
  else
    _ ← wrap_io "create cache invalidation directory" [] (os_MkdirAll directory);
    now ← lift_st time_Now;
    pid ← (λ w, (Ok (os_Getpid w), w));
    seq ← lift_st invalidationSequence_Add;
    let token := invalidation_token now pid seq in
    temporaryName ← wrap_io "create cache invalidation token" [] (os_CreateTemp directory ".invalidate-*");
    defer (os_Remove temporaryName) (
      _ ← wrap_io "secure cache invalidation token" []
            (on_error (file_Close temporaryName) (file_Chmod temporaryName 416));
      _ ← wrap_io "write cache invalidation token" []
            (on_error (file_Close temporaryName) (file_WriteString temporaryName token));
      _ ← wrap_io "close cache invalidation token" [] (file_Close temporaryName);
      _ ← wrap_io "publish cache invalidation token" []
            (os_Rename temporaryName (CacheInvalidationTokenPath directory endpoint datastore));
      mret token).

Definition ReadCacheInvalidation (directory endpoint datastore : string) : io W string :=
  if bool_decide (directory = "") then mret ""
  else λ w,
    match os_ReadFile (CacheInvalidationTokenPath directory endpoint datastore) w with
    | (Err e, w) =>
        if errors_Is e "os.ErrNotExist" then (Ok "", w)
        else (Err (Wrapf "read cache invalidation token" [] e), w)
    | x => x
    end.

Context `{!StoreView W, !FileView W, !PlatformLaws W}.

Lemma PublishCacheInvalidation_effect d e ds :
  effect keeps_all (PublishCacheInvalidation d e ds).
Proof.
  unfold PublishCacheInvalidation. solve_effect. by intros w r w' [= <- <-].
Qed.
End operations.

(** ** Tokens differ

    Two publications by one process have different counters, two processes have
    different ids. *)

Lemma invalidation_token_eq now pid seq now' pid' seq' :
  0 ≤ now → 0 ≤ pid → 0 ≤ now' → 0 ≤ pid' →
  invalidation_token now pid seq = invalidation_token now' pid' seq' →
  now = now' ∧ pid = pid' ∧ seq = seq'.
Proof.
  intros H1 H2 H3 H4 Heq.
  assert (∀ z, 0 ≤ z → has_byte dash (fmt_d z) = false) as Hd by (intros; apply fmt_d_no_byte; auto).
  unfold invalidation_token in Heq. apply (f_equal (λ s, Cut s dash)) in Heq.
  rewrite !Cut_app in Heq by auto. injection Heq as E1 Heq. apply (f_equal (λ s, Cut s dash)) in Heq.
  rewrite !Cut_app in Heq by auto. injection Heq as E2 E3.
  by apply fmt_d_inj in E1, E2, E3.
Qed.
