(* ===== verification/GCPlan.v ===== *)
(** * The collection plan ([cmd/garbagecollector/gc.go], [main.go])

    The mark phase: complete listings, the protection tags of expired
    snapshots, and the plan of what to remove.  No operation of this file
    changes the store except [removeObjectsFully] and [executeGCPlan]. *)

From S2P Require Import Prelude GoStrings GoBytes Sha256 S3 Platform MemWorld Snapshot IndexFormat.

Local Open Scope Z_scope.

(** ** Listing and removing *)

Definition isDirectoryMarker (object : ObjectInfo) : bool :=
  (Size object =? 0) && HasSuffix (Key object) "/".

(** The loop over the listing channel. *)
Fixpoint collect_objects (args : list string) (l : list ObjectInfo) : res (list ObjectInfo) :=
  match l with
  | [] => Ok []
  | object :: l =>
      match oi_Err object with
      | Some e => Err (Wrapf "list under prefix" args e)
      | None =>
          if isDirectoryMarker object then collect_objects args l
          else objects ← collect_objects args l; Ok (object :: objects)
      end
  end.

(** ** Keys *)

Definition snapshotPrefixForObject (key : string) : res string :=
  if negb (HasPrefix key "backups/") then Err (Errorf "object is outside backups/" [key])
  else
    let rest := TrimPrefix key "backups/" in
    let slash_at := IndexByte rest slash in
    if slash_at <=? 0 then Err (Errorf "invalid backup object key" [key])
    else Ok ("backups/" +:+ take_string (Z.to_nat slash_at) rest).

Definition chunkDigestFromKey (key : string) : res string :=
  match Split key slash with
  | [p0; p1; p2; p3] =>
      if negb (bool_decide (p0 = "chunks")) || negb (String.length p1 =? 2)%nat
         || negb (String.length p2 =? 2)%nat || negb (String.length p3 =? 60)%nat
      then Err (Errorf "invalid chunk object key" [key])
      else
        let digest := p1 +:+ p2 +:+ p3 in
        match hex_DecodeString digest with
        | (decoded, None) =>
            if (length decoded =? 32)%nat then Ok digest
            else Err (Errorf "invalid chunk digest in key" [key])
        | (_, Some _) => Err (Errorf "invalid chunk digest in key" [key])
        end
  | _ => Err (Errorf "invalid chunk object key" [key])
  end.

(** ** Ages *)

Definition time_Hour : Z := 3600000000000.   (* nanoseconds *)

Definition hoursDuration (hours : Z) : res Z :=
  if MaxInt64 `quot` time_Hour <? hours then Err (Errorf "grace period overflows time.Duration" [fmt_d hours])
  else Ok (i64 (i64 hours * time_Hour)).

(** [t.Unix()]. *)
Definition time_Unix (t : Z) : Z := t / 1000000000.

Definition snapshotExpired (snapshot : Snapshot) (now retentionDays : Z) : res bool :=
  if MaxUint64 / 86400 <? retentionDays
  then Err (Errorf "retention period overflows seconds" [fmt_d retentionDays])
  else
    let retentionSeconds := u64 (retentionDays * 86400) in
    let nowUnix := u64 (time_Unix now) in
    if (time_Unix now <? 0) || (nowUnix <? retentionSeconds) then Ok false
    else Ok (BackupTime snapshot <? u64 (nowUnix - retentionSeconds)).

Definition withinGracePeriod (lastModified now grace : Z) : bool :=
  if grace <=? 0 then false else now - grace <? lastModified.

(** ** Metadata *)

Definition checksumFromMetadata (info : ObjectInfo) : string :=
  let csum := get_tag (UserMetadata info) "X-Amz-Meta-Csum" in
  if negb (bool_decide (csum = "")) then csum else get_tag (UserMetadata info) "Csum".

(** ** The plan *)

Record gcPlan := mkGcPlan {
  expiredSnapshots : list Snapshot;
  backupObjects : list ObjectInfo;
  indexedObjects : list ObjectInfo;
  chunkObjects : list ObjectInfo;
  knownChunks : gmap string (list string);
  existingChunks : gset string;
  chunkSizes : gmap string Z;
  archiveSizes : gmap string Z;
  missingChunks : gmap string (list string);
  protectedByGrace : Z;
}.

(** The first loop: the snapshots to remove and their prefixes. *)
Definition expire_step (now retentionDays : Z) (st : list Snapshot * gset string)
    (snapshot : Snapshot) : res (list Snapshot * gset string) :=
  expired ← snapshotExpired snapshot now retentionDays;
  if expired && negb (Protected snapshot)
  then Ok (st.1 ++ [snapshot], {[ S3Prefix snapshot ]} ∪ st.2)
  else Ok st.

(** The second loop: the objects under [backups/]. *)
Record marks := mkMarks {
  mk_backupObjects : list ObjectInfo;
  mk_knownHashes : gset string;
  mk_archiveSizes : gmap string Z;
  mk_knownChunks : gmap string (list string);
}.
Definition add_reference (key : string) (known : gmap string (list string)) (digest : string)
    : gmap string (list string) :=
  <[digest := default [] (known !! digest) ++ [key]]> known.

(** The fourth loop: the objects under [chunks/]. *)
Record sweep := mkSweep {
  sw_existingChunks : gset string;
  sw_chunkSizes : gmap string Z;
  sw_protectedByGrace : Z;
  sw_chunkObjects : list ObjectInfo;
}.
Definition sweep_chunk (known : gmap string (list string)) (now grace : Z) (s : sweep)
    (object : ObjectInfo) : res sweep :=
  digest ← chunkDigestFromKey (Key object);
  match known !! digest with
  | Some _ =>
      Ok (mkSweep ({[ digest ]} ∪ sw_existingChunks s)
            (<[digest := u64 (Size object)]> (sw_chunkSizes s))
            (sw_protectedByGrace s) (sw_chunkObjects s))
  | None =>
      if withinGracePeriod (LastModified object) now grace
      then Ok (mkSweep (sw_existingChunks s) (sw_chunkSizes s)
                 (u64 (sw_protectedByGrace s + 1)) (sw_chunkObjects s))
      else Ok (mkSweep (sw_existingChunks s) (sw_chunkSizes s) (sw_protectedByGrace s)
                 (sw_chunkObjects s ++ [object]))
  end.

Section operations.
Context {W : Type} `{!ObjectStore W}.

(** [ctx] is [context.Background()], which never ends. *)
Definition listObjectsFully (bucket : string) (opts : ListObjectsOptions) : io W (list ObjectInfo) :=
  l ← lift_st (ListObjects bucket opts);
  lift_res (collect_objects [bucket; Prefix opts] l).

Definition removeObjectsFully (bucket : string) (objects : list ObjectInfo) : io W unit :=
  match objects with
  | [] => mret tt
  | _ =>
      errs ← lift_st (RemoveObjects bucket objects);
      lift_res (errors_Join ((λ e, Wrapf "remove" [ObjectName e] (roe_Err e)) <$> errs))
  end.

(** The manifests seen in the inventory, by snapshot prefix. *)
Definition manifest_step (manifests : gset string) (object : ObjectInfo) : res (gset string) :=
  if HasSuffix (Key object) "/index.json.blob"
  then prefix ← snapshotPrefixForObject (Key object); Ok ({[ prefix ]} ∪ manifests)
  else Ok manifests.

Definition refresh_step (bucket : string) (manifests : gset string) (now retentionDays : Z)
    (done : list Snapshot) (snapshot : Snapshot) : io W (list Snapshot) :=
  expired ← lift_res (snapshotExpired snapshot now retentionDays);
  if negb expired || negb (bool_decide (S3Prefix snapshot ∈ manifests))
  then mret (done ++ [snapshot])
  else
    let objectName := S3Prefix snapshot +:+ "/index.json.blob" in
    objectTags ← wrap_io "read protection tag" [objectName] (GetObjectTagging bucket objectName);
    mret (done ++ [set_Protected (bool_decide (get_tag objectTags "protected" = "true")) snapshot]).

Definition refreshExpiredSnapshotProtection (bucket : string) (snapshots : list Snapshot)
    (backups : list ObjectInfo) (now retentionDays : Z) : io W (list Snapshot) :=
  manifests ← lift_res (foldM manifest_step ∅ backups);
  foldIO (refresh_step bucket manifests now retentionDays) [] snapshots.

Definition mark_backup (expiredPrefixes : gset string) (loadIndex : ObjectInfo → io W parsedIndex)
    (s : marks) (object : ObjectInfo) : io W marks :=
  prefix ← lift_res (snapshotPrefixForObject (Key object));
  if bool_decide (prefix ∈ expiredPrefixes)
  then mret (mkMarks (mk_backupObjects s ++ [object]) (mk_knownHashes s) (mk_archiveSizes s)
               (mk_knownChunks s))
  else if negb (HasSuffix (Key object) ".fidx") && negb (HasSuffix (Key object) ".didx")
  then mret s
  else
    index ← loadIndex object;
    mret (mkMarks (mk_backupObjects s)
            (if HasSuffix (Key object) ".fidx"
             then {[ checksum index ]} ∪ mk_knownHashes s else mk_knownHashes s)
            (<[Key object := logicalSize index]> (mk_archiveSizes s))
            (foldl (add_reference (Key object)) (mk_knownChunks s) (digests index))).

(** The third loop: the copied indexes. *)
Definition mark_indexed (knownHashes : gset string) (loadChecksum : ObjectInfo → io W string)
    (orphans : list ObjectInfo) (object : ObjectInfo) : io W (list ObjectInfo) :=
  checksum ← loadChecksum object;
  mret (if negb (bool_decide (checksum ∈ knownHashes)) then orphans ++ [object] else orphans).

Definition buildGCPlan (snapshots : list Snapshot) (backups indexed chunks : list ObjectInfo)
    (now retentionDays grace : Z) (loadIndex : ObjectInfo → io W parsedIndex)
    (loadChecksum : ObjectInfo → io W string) : io W gcPlan :=
  expired ← lift_res (foldM (expire_step now retentionDays) ([], ∅) snapshots);
  m ← foldIO (mark_backup expired.2 loadIndex) (mkMarks [] ∅ ∅ ∅) backups;
  orphans ← foldIO (mark_indexed (mk_knownHashes m) loadChecksum) [] indexed;
  s ← lift_res (foldM (sweep_chunk (mk_knownChunks m) now grace) (mkSweep ∅ ∅ 0 []) chunks);
  mret (mkGcPlan expired.1 (mk_backupObjects m) orphans (sw_chunkObjects s) (mk_knownChunks m)
          (sw_existingChunks s) (sw_chunkSizes s) (mk_archiveSizes m)
          (filter (λ dr, dr.1 ∉ sw_existingChunks s) (mk_knownChunks m))
          (sw_protectedByGrace s)).

Definition loadIndexFromS3 (bucket : string) (object : ObjectInfo) : io W parsedIndex :=
  reader ← wrap_io "get index" [Key object] (GetObject bucket (Key object) None);
  s ← lift_st (Object_Read reader);
  data ← lift_res (wrap "read index" [Key object] (io_ReadAll s));
  let sum := checksumFromMetadata object in
  sum ← (if bool_decide (sum = "")
         then info ← wrap_io "stat index" [Key object] (Object_Stat reader);
              mret (checksumFromMetadata info)
         else mret sum);
  if bool_decide (sum = "") then fail (Errorf "object has no csum metadata flag set" [Key object])
  else lift_res (parseIndex (Key object) data sum).

(** The checksum, and whether the HEAD request was needed. *)
Definition getObjectMetadata (bucket : string) (object : ObjectInfo) : io W (string * bool) :=
  let csum := checksumFromMetadata object in
  if negb (bool_decide (csum = "")) then mret (csum, false)
  else
    statObject ← wrap_io "unable to stat object" [Key object] (StatObject bucket (Key object));
    let csum := checksumFromMetadata statObject in
    if bool_decide (csum = "") then fail (Errorf "object has no csum metadata flag set" [Key object])
    else mret (csum, true).

Definition executeGCPlan (bucket : string) (plan : gcPlan) : io W unit :=
  _ ← wrap_io "remove expired snapshot objects" [] (removeObjectsFully bucket (backupObjects plan));
  _ ← wrap_io "remove orphaned copied indexes" [] (removeObjectsFully bucket (indexedObjects plan));
  wrap_io "remove orphaned chunks" [] (removeObjectsFully bucket (chunkObjects plan)).
End operations.

(** ** Keys and names *)


Lemma string_snoc_inj a b c d : a +:+ String c "" = b +:+ String d "" → c = d.
Proof.
  intros H. assert (String.length a = String.length b) as Hl.
  { apply (f_equal String.length) in H. rewrite !string_length_app in H. cbn in H. lia. }
  apply string_app_inj in H as [_ [= ->]]; done.
Qed.

(** The prefix of a key is [backups/] and its second path element. *)
Lemma snapshotPrefixForObject_Ok key p :
  snapshotPrefixForObject key = Ok p ↔
  ∃ n f, key = "backups/" +:+ n +:+ String slash f ∧ has_byte slash n = false ∧ n ≠ "" ∧
    p = "backups/" +:+ n.
Proof.
  unfold snapshotPrefixForObject. split.
  - destruct (HasPrefix key "backups/") eqn:E; [|done]. apply HasPrefix_spec in E as [r ->].
    rewrite TrimPrefix_app, IndexByte_Cut. cbn [negb].
    destruct (Cut r slash) as [[n f]|] eqn:Hc; [|done].
    apply Cut_Some in Hc as [-> Hn]. destruct (Z.leb_spec (Z.of_nat (String.length n)) 0); [done|].
    intros [= <-]. exists n, f. rewrite Nat2Z.id, take_string_app.
    split_and!; try done. intros ->. cbn in *. lia.
  - intros (n & f & -> & Hn & Hne & ->). rewrite HasPrefix_app, TrimPrefix_app. cbn [negb].
    rewrite IndexByte_Cut, Cut_app by done.
    destruct (Z.leb_spec (Z.of_nat (String.length n)) 0).
    { destruct n; [done|]. cbn in *. lia. }
    by rewrite Nat2Z.id, take_string_app.
Qed.

(** The digest of a chunk key: 64 hex digits cut after two and four. *)
Lemma chunkDigestFromKey_Ok key d :
  chunkDigestFromKey key = Ok d ↔
  ∃ p1 p2 p3 bs, key = Join ["chunks"; p1; p2; p3] slash ∧ d = p1 +:+ p2 +:+ p3 ∧
    String.length p1 = 2%nat ∧ String.length p2 = 2%nat ∧ String.length p3 = 60%nat ∧
    has_byte slash d = false ∧ hex_DecodeString d = (bs, None).
Proof.
  unfold chunkDigestFromKey. split.
  - pose proof (Join_Split key slash) as HJ. pose proof (Split_no_sep key slash) as HF.
    destruct (Split key slash) as [|p0 [|p1 [|p2 [|p3 [|]]]]]; try done.
    destruct (negb _ || _ || _ || _) eqn:E; [done|]. reflect_bools. subst p0.
    repeat match goal with H : (_ =? _)%nat = true |- _ => apply Nat.eqb_eq in H end.
    destruct (hex_DecodeString _) as [bs [e|]] eqn:Hx; [done|].
    destruct (_ =? _)%nat; [|done]. intros [= <-].
    rewrite !Forall_cons in HF. destruct HF as (_ & G1 & G2 & G3 & _).
    exists p1, p2, p3, bs. split_and!; try done.
    by rewrite !has_byte_app, G1, G2, G3.
  - intros (p1 & p2 & p3 & bs & -> & -> & H1 & H2 & H3 & Hs & Hx).
    rewrite !has_byte_app in Hs. apply orb_false_iff in Hs as [Hs1 [Hs2 Hs3]%orb_false_iff].
    rewrite !Join_cons by done. cbn [Join].
    rewrite !Split_app, Split_word by done. rewrite H1, H2, H3. cbn [bool_decide].
    rewrite Hx. pose proof (hex_Decode_length _ _ Hx) as Hl.
    rewrite !string_length_app, H1, H2, H3 in Hl.
    rewrite bool_decide_eq_true_2 by done. cbn [negb orb Nat.eqb].
    replace (length bs) with 32%nat by lia. done.
Qed.

(** ** Ages *)

(** The retention test, over the integers: no wrap-around for any [uint64]. *)
Lemma snapshotExpired_cases s now days :
  is_u64 days → is_i64 (time_Unix now) →
  snapshotExpired s now days =
    if decide (days * 86400 < 2 ^ 64)
    then Ok (bool_decide (0 ≤ time_Unix now - days * 86400 ∧
                          BackupTime s < time_Unix now - days * 86400))
    else Err (Errorf "retention period overflows seconds" [fmt_d days]).
Proof.
  intros Hd Hn. unfold snapshotExpired, MaxUint64.
  change ((2 ^ 64 - 1) / 86400) with 213503982334601. change (2 ^ 64) with 18446744073709551616 in *.
  change (2 ^ 63) with 9223372036854775808 in *.
  destruct (Z.ltb_spec 213503982334601 days) as [|Hle].
  { by rewrite decide_False by lia. }
  rewrite decide_True by lia. rewrite (u64_id (days * 86400)) by lia.
  destruct (Z.ltb_spec (time_Unix now) 0); cbn [orb].
  { by rewrite bool_decide_eq_false_2 by lia. }
  rewrite (u64_id (time_Unix now)) by lia.
  destruct (Z.ltb_spec (time_Unix now) (days * 86400)).
  { by rewrite bool_decide_eq_false_2 by lia. }
  rewrite u64_id by lia. f_equal. destruct (Z.ltb_spec (BackupTime s) (time_Unix now - days * 86400)).
  - by rewrite bool_decide_eq_true_2 by lia.
  - by rewrite bool_decide_eq_false_2 by lia.
Qed.
Lemma snapshotExpired_no_panic s now days p : snapshotExpired s now days ≠ Panicked p.
Proof. unfold snapshotExpired. by repeat case_match. Qed.

(** ** What a plan must be

    [plan_spec] is the contract between the mark phase and the sweep: which
    objects a plan may remove, in terms of the inventory and of what the two
    loaders answered. *)

Definition expired_now (now days : Z) (s : Snapshot) : bool :=
  match snapshotExpired s now days with Ok expired => expired && negb (Protected s) | _ => false end.
Definition prefix_expired (now days : Z) (snapshots : list Snapshot) (p : string) : bool :=
  existsb (λ s, expired_now now days s && bool_decide (S3Prefix s = p)) snapshots.
Definition key_expired (now days : Z) (snapshots : list Snapshot) (k : string) : bool :=
  match snapshotPrefixForObject k with Ok p => prefix_expired now days snapshots p | _ => false end.

(** The chunk a key names is not referenced. *)
Definition unreferenced (known : gmap string (list string)) (k : string) : bool :=
  match chunkDigestFromKey k with Ok d => bool_decide (known !! d = None) | _ => false end.
Definition young (now grace : Z) (o : ObjectInfo) : bool := withinGracePeriod (LastModified o) now grace.

Section plan_spec.
Context (loaded : ObjectInfo → parsedIndex → Prop) (checksum_of : ObjectInfo → string → Prop).
Context (snapshots : list Snapshot) (backups indexed chunks : list ObjectInfo) (now days grace : Z).

Definition live (o : ObjectInfo) : bool :=
  negb (key_expired now days snapshots (Key o)) && IsIndex (Key o).

Record plan_spec (p : gcPlan) : Prop := {
  ps_expired : expiredSnapshots p = List.filter (expired_now now days) snapshots;
  ps_backup :
    backupObjects p = List.filter (λ o, key_expired now days snapshots (Key o)) backups;
  ps_known o : o ∈ backups → live o = true →
    ∃ idx, loaded o idx ∧ archiveSizes p !! Key o ≠ None ∧
      ∀ d, d ∈ digests idx → ∃ refs, knownChunks p !! d = Some refs ∧ Key o ∈ refs;
  ps_known_sound d refs : knownChunks p !! d = Some refs →
    refs ≠ [] ∧ ∀ k, k ∈ refs → ∃ o idx,
      o ∈ backups ∧ live o = true ∧ Key o = k ∧ loaded o idx ∧ d ∈ digests idx;
  ps_indexed o : o ∈ indexedObjects p → o ∈ indexed ∧ ∃ c, checksum_of o c ∧
    ∀ o', o' ∈ backups → live o' = true → HasSuffix (Key o') ".fidx" = true →
      ∃ idx, loaded o' idx ∧ checksum idx ≠ c;
  ps_indexed_kept o : o ∈ indexed → o ∉ indexedObjects p → ∃ o' idx,
    o' ∈ backups ∧ live o' = true ∧ HasSuffix (Key o') ".fidx" = true ∧
    loaded o' idx ∧ checksum_of o (checksum idx);
  ps_chunks_named o : o ∈ chunks → is_ok (chunkDigestFromKey (Key o)) = true;
  ps_chunks : chunkObjects p =
    List.filter (λ o, unreferenced (knownChunks p) (Key o) && negb (young now grace o)) chunks;
  ps_grace : protectedByGrace p =
    u64 (Z.of_nat (length (List.filter
      (λ o, unreferenced (knownChunks p) (Key o) && young now grace o) chunks)));
  ps_existing d : d ∈ existingChunks p ↔
    is_Some (knownChunks p !! d) ∧ ∃ o, o ∈ chunks ∧ chunkDigestFromKey (Key o) = Ok d;
  ps_missing d refs : missingChunks p !! d = Some refs ↔
    knownChunks p !! d = Some refs ∧ d ∉ existingChunks p;
}.

(** The first loop. *)
Lemma expire_loop st :
  foldM (expire_step now days) ([], ∅) snapshots = Ok st →
  st.1 = List.filter (expired_now now days) snapshots ∧
  ∀ p, bool_decide (p ∈ st.2) = prefix_expired now days snapshots p.
Proof.
  intros Hrun.
  apply (foldM_ind (λ done st, st.1 = List.filter (expired_now now days) done ∧
           ∀ p, bool_decide (p ∈ st.2) = prefix_expired now days done p) _ _ _ _ Hrun).
  - by split.
  - clear. intros done s todo [ex ps] st' _ [IH1 IH2] Hs. cbn [fst snd] in *.
    unfold expire_step in Hs. inv_res.
    assert (expired_now now days s = x && negb (Protected s)) as Hex
      by (unfold expired_now; by rewrite Hstep).
    rewrite List.filter_app. cbn [List.filter]. rewrite Hex.
    assert (∀ p, prefix_expired now days (done ++ [s]) p =
              prefix_expired now days done p || (x && negb (Protected s) && bool_decide (S3Prefix s = p)))
      as Hpx by (intros p; unfold prefix_expired; rewrite existsb_app; cbn; by rewrite Hex, orb_false_r).
    destruct (x && negb (Protected s)); inv_res; cbn [fst snd]; split.
    + done.
    + intros p. rewrite Hpx, <-IH2. cbn [andb].
      apply eq_true_iff_eq. rewrite orb_true_iff, !bool_decide_eq_true. set_solver.
    + by rewrite app_nil_r.
    + intros p. by rewrite Hpx, orb_false_r.
Qed.

(** The references of one index: one per occurrence of the digest. *)
Definition occurrences (d : string) (ds : list string) : nat :=
  length (List.filter (λ d', bool_decide (d' = d)) ds).
Lemma occurrences_pos d ds : d ∈ ds ↔ occurrences d ds ≠ 0%nat.
Proof.
  unfold occurrences. rewrite list_elem_of_In. split.
  - intros Hin. assert (In d (List.filter (λ d', bool_decide (d' = d)) ds)) as Hf.
    { apply filter_In. by rewrite bool_decide_eq_true. }
    by destruct (List.filter _ ds).
  - intros Hn. destruct (List.filter _ ds) as [|d' l] eqn:E; [done|].
    assert (In d' (List.filter (λ d', bool_decide (d' = d)) ds)) as Hf by (rewrite E; by left).
    apply filter_In in Hf as [Hf Hd]. by apply bool_decide_eq_true in Hd as ->.
Qed.
Lemma add_references k known ds d :
  foldl (add_reference k) known ds !! d =
    match occurrences d ds with
    | O => known !! d
    | n => Some (default [] (known !! d) ++ replicate n k)
    end.
Proof.
  induction ds as [|d' ds IH] using rev_ind; [done|].
  unfold occurrences in *. rewrite foldl_app, List.filter_app, length_app. cbn [foldl List.filter].
  unfold add_reference at 1.
  destruct (decide (d' = d)) as [->|Hne].
  - rewrite lookup_insert_eq, IH, bool_decide_eq_true_2 by done. cbn [length].
    destruct (length (List.filter _ ds)) as [|n]; cbn [Nat.add]; [done|].
    rewrite Nat.add_1_r, (replicate_S_end (S n)). unfold default at 1. by rewrite app_assoc.
  - rewrite lookup_insert_ne, IH, bool_decide_eq_false_2 by done. by rewrite Nat.add_0_r.
Qed.

(** The second loop. *)
Record marks_spec (done : list ObjectInfo) (m : marks) : Prop := {
  ms_backup : mk_backupObjects m = List.filter (λ o, key_expired now days snapshots (Key o)) done;
  ms_known o : o ∈ done → live o = true →
    ∃ idx, loaded o idx ∧ mk_archiveSizes m !! Key o ≠ None ∧
      (HasSuffix (Key o) ".fidx" = true → checksum idx ∈ mk_knownHashes m) ∧
      ∀ d, d ∈ digests idx → ∃ refs, mk_knownChunks m !! d = Some refs ∧ Key o ∈ refs;
  ms_known_sound d refs : mk_knownChunks m !! d = Some refs →
    refs ≠ [] ∧ ∀ k, k ∈ refs → ∃ o idx,
      o ∈ done ∧ live o = true ∧ Key o = k ∧ loaded o idx ∧ d ∈ digests idx;
  ms_hashes c : c ∈ mk_knownHashes m → ∃ o idx,
    o ∈ done ∧ live o = true ∧ HasSuffix (Key o) ".fidx" = true ∧ loaded o idx ∧ checksum idx = c;
}.

Lemma marks_spec_nil : marks_spec [] (mkMarks [] ∅ ∅ ∅).
Proof. split; cbn; set_solver. Qed.

Lemma marks_spec_skip done m o :
  marks_spec done m → live o = false → key_expired now days snapshots (Key o) = false →
  marks_spec (done ++ [o]) m.
Proof.
  intros [Hb Hk Hs Hh] Hl He. split.
  - by rewrite List.filter_app, Hb; cbn; rewrite He, app_nil_r.
  - intros o' [Ho|Ho]%elem_of_app Hl'; [by apply Hk|].
    apply list_elem_of_singleton in Ho as ->. congruence.
  - intros d refs [Hne Hr]%Hs. split; [done|]. intros k (o' & idx & ? & ?)%Hr.
    exists o', idx. rewrite elem_of_app. tauto.
  - intros c (o' & idx & ? & ?)%Hh. exists o', idx. rewrite elem_of_app. tauto.
Qed.
Lemma marks_spec_expired done m o :
  marks_spec done m → key_expired now days snapshots (Key o) = true →
  marks_spec (done ++ [o])
    (mkMarks (mk_backupObjects m ++ [o]) (mk_knownHashes m) (mk_archiveSizes m) (mk_knownChunks m)).
Proof.
  intros [Hb Hk Hs Hh] He. assert (live o = false) as Hl by (unfold live; by rewrite He).
  split; cbn.
  - by rewrite List.filter_app, Hb; cbn; rewrite He.
  - intros o' [Ho|Ho]%elem_of_app Hl'; [by apply Hk|].
    apply list_elem_of_singleton in Ho as ->. congruence.
  - intros d refs [Hne Hr]%Hs. split; [done|]. intros k (o' & idx & ? & ?)%Hr.
    exists o', idx. rewrite elem_of_app. tauto.
  - intros c (o' & idx & ? & ?)%Hh. exists o', idx. rewrite elem_of_app. tauto.
Qed.
Lemma marks_spec_live done m o idx :
  marks_spec done m → live o = true → loaded o idx →
  marks_spec (done ++ [o])
    (mkMarks (mk_backupObjects m)
       (if HasSuffix (Key o) ".fidx" then {[ checksum idx ]} ∪ mk_knownHashes m else mk_knownHashes m)
       (<[Key o := logicalSize idx]> (mk_archiveSizes m))
       (foldl (add_reference (Key o)) (mk_knownChunks m) (digests idx))).
Proof.
  intros [Hb Hk Hs Hh] Hl Hq. split; cbn.
  - rewrite List.filter_app, Hb. cbn. unfold live in Hl. apply andb_true_iff in Hl as [Hl _].
    apply negb_true_iff in Hl. by rewrite Hl, app_nil_r.
  - intros o' Ho Hl'. apply elem_of_app in Ho as [Ho|Ho].
    + destruct (Hk o' Ho Hl') as (idx' & Hq' & Ha & Hf & Hd). exists idx'. split_and!; [done|..].
      * destruct (decide (Key o' = Key o)) as [->|]; [by rewrite lookup_insert_eq|].
        by rewrite lookup_insert_ne.
      * intros ?%Hf. case_match; set_solver.
      * intros d (refs & Hr & Hin)%Hd. rewrite add_references, Hr.
        destruct (occurrences d (digests idx)); [eauto|]. eexists; split; [done|]. cbn. set_solver.
    + apply list_elem_of_singleton in Ho as ->. exists idx. split_and!; [done|..].
      * by rewrite lookup_insert_eq.
      * intros ->. set_solver.
      * intros d Hd%occurrences_pos. rewrite add_references.
        destruct (occurrences d (digests idx)) as [|n]; [done|]. eexists; split; [done|]. cbn. set_solver.
  - intros d refs. rewrite add_references.
    destruct (occurrences d (digests idx)) as [|n] eqn:En.
    { intros [Hne Hr]%Hs. split; [done|]. intros k (o' & idx' & ? & ?)%Hr. exists o', idx'. rewrite elem_of_app. tauto. }
    assert (d ∈ digests idx) as Hd by (apply occurrences_pos; lia).
    intros [= <-]. split; [by destruct (default [] (mk_knownChunks m !! d))|].
    intros k [Hin|Hin]%elem_of_app.
    + destruct (mk_knownChunks m !! d) as [refs|] eqn:E; [|set_solver].
      destruct (Hs _ _ E) as [_ Hr]. destruct (Hr k Hin) as (o' & idx' & ? & ?).
      exists o', idx'. rewrite elem_of_app. tauto.
    + apply (elem_of_replicate_inv _ (S n)) in Hin as ->. exists o, idx. rewrite elem_of_app, list_elem_of_singleton. tauto.
  - intros c Hc. destruct (HasSuffix (Key o) ".fidx") eqn:Ef.
    + apply elem_of_union in Hc as [->%elem_of_singleton|Hc].
      * exists o, idx. rewrite elem_of_app, list_elem_of_singleton. tauto.
      * destruct (Hh c Hc) as (o' & idx' & ? & ?). exists o', idx'. rewrite elem_of_app. tauto.
    + destruct (Hh c Hc) as (o' & idx' & ? & ?). exists o', idx'. rewrite elem_of_app. tauto.
Qed.

(** The fourth loop. *)
Record sweep_spec (known : gmap string (list string)) (done : list ObjectInfo) (s : sweep) : Prop := {
  ss_named o : o ∈ done → is_ok (chunkDigestFromKey (Key o)) = true;
  ss_chunks : sw_chunkObjects s =
    List.filter (λ o, unreferenced known (Key o) && negb (young now grace o)) done;
  ss_grace : sw_protectedByGrace s =
    u64 (Z.of_nat (length (List.filter (λ o, unreferenced known (Key o) && young now grace o) done)));
  ss_existing d : d ∈ sw_existingChunks s ↔
    is_Some (known !! d) ∧ ∃ o, o ∈ done ∧ chunkDigestFromKey (Key o) = Ok d;
}.
Lemma sweep_loop known s :
  foldM (sweep_chunk known now grace) (mkSweep ∅ ∅ 0 []) chunks = Ok s → sweep_spec known chunks s.
Proof.
  intros Hrun. apply (foldM_ind (sweep_spec known) _ _ _ _ Hrun).
  { split; cbn; [set_solver|done|done|set_solver]. }
  clear. intros done o todo st st' _ [Hn Hc Hg He] Hs. unfold sweep_chunk in Hs.
  apply res_bind_Ok in Hs as (d & Hd & Hs).
  assert (unreferenced known (Key o) = bool_decide (known !! d = None)) as Hu
    by (unfold unreferenced; by rewrite Hd).
  assert (∀ o', o' ∈ done ++ [o] → is_ok (chunkDigestFromKey (Key o')) = true) as Hn'.
  { intros o' [Ho| ->%list_elem_of_singleton]%elem_of_app; [by apply Hn|by rewrite Hd]. }
  assert (∀ d', (∃ o', o' ∈ done ++ [o] ∧ chunkDigestFromKey (Key o') = Ok d') ↔
            d' = d ∨ ∃ o', o' ∈ done ∧ chunkDigestFromKey (Key o') = Ok d') as Hex.
  { intros d'. setoid_rewrite elem_of_app. setoid_rewrite list_elem_of_singleton. split.
    - intros (o' & [Ho| ->] & Ho'); [eauto|left; congruence].
    - intros [->|(o' & ? & ?)]; eauto. }
  assert (∀ f : ObjectInfo → bool, List.filter f (done ++ [o]) =
            List.filter f done ++ (if f o then [o] else [])) as Hf by (intros; by rewrite List.filter_app).
  destruct (known !! d) as [refs|] eqn:Ek;
    [|change (withinGracePeriod _ _ _) with (young now grace o) in Hs;
      destruct (young now grace o) eqn:Ey]; injection Hs as <-;
    split; try done; rewrite ?Hf, ?Hu, ?Ey; cbn; rewrite ?app_nil_r; try done; try (by rewrite Hc).
  - intros d'. rewrite Hex, elem_of_union, elem_of_singleton, He. split.
    + intros [->|[? ?]]; [by rewrite Ek; eauto|]. auto.
    + intros [? [->|?]]; auto.
  - rewrite Hg, u64_add_l, length_app. f_equal. cbn. lia.
  - intros d'. rewrite Hex, He. split; [intros [? ?]; auto|].
    intros [Hd' [->|?]]; [|done]. rewrite Ek in Hd'. by destruct Hd'.
  - intros d'. rewrite Hex, He. split; [intros [? ?]; auto|].
    intros [Hd' [->|?]]; [|done]. rewrite Ek in Hd'. by destruct Hd'.
Qed.

(** The two loaders, in the world the run moves along [R]. *)
Section loops.
Context {W : Type} `{!ObjectStore W} (R : relation W) `{!PreOrder R}.
Context (loadIndex : ObjectInfo → io W parsedIndex) (loadChecksum : ObjectInfo → io W string) (w0 : W).
Hypothesis loadIndex_ok : ∀ o idx w1 w2,
  R w0 w1 → loadIndex o w1 = (Ok idx, w2) → R w1 w2 ∧ loaded o idx.
Hypothesis loadChecksum_ok : ∀ o c w1 w2,
  R w0 w1 → loadChecksum o w1 = (Ok c, w2) → R w1 w2 ∧ checksum_of o c.

Lemma mark_loop ex w1 m w2 :
  (∀ p, bool_decide (p ∈ ex) = prefix_expired now days snapshots p) →
  R w0 w1 → foldIO (mark_backup ex loadIndex) (mkMarks [] ∅ ∅ ∅) backups w1 = (Ok m, w2) →
  marks_spec backups m ∧ R w1 w2.
Proof.
  intros Hex HR Hrun. eapply (foldIO_ind marks_spec R); [exact Hrun|apply marks_spec_nil|].
  clear Hrun m w2. intros done o todo st st' w2 w3 _ Hst HR2 Hs. unfold mark_backup in Hs.
  apply io_bind_Ok_inv in Hs as (p & w2' & Hp & Hs). injection Hp as Hp <-.
  assert (key_expired now days snapshots (Key o) = bool_decide (p ∈ ex)) as Hke
    by (unfold key_expired; by rewrite Hp, Hex).
  destruct (bool_decide (p ∈ ex)) eqn:Ep.
  { injection Hs as <- <-. split; [by apply marks_spec_expired|done]. }
  destruct (negb _ && negb _) eqn:Ei.
  { injection Hs as <- <-. split; [|done]. apply marks_spec_skip; [done| |done].
    unfold live, IsIndex. by rewrite <-negb_orb in Ei; apply negb_true_iff in Ei; rewrite Ei, andb_false_r. }
  apply io_bind_Ok_inv in Hs as (idx & w3' & Hl & Hs). injection Hs as <- <-.
  apply loadIndex_ok in Hl as [HR3 Hl]; [|by transitivity w1].
  split; [|done]. apply marks_spec_live; [done| |done].
  unfold live, IsIndex. rewrite Hke. by rewrite <-negb_orb in Ei; apply negb_false_iff in Ei; rewrite Ei.
Qed.

Lemma indexed_loop hashes w1 orphans w2 :
  R w0 w1 → foldIO (mark_indexed hashes loadChecksum) [] indexed w1 = (Ok orphans, w2) →
  ((∀ o, o ∈ orphans → o ∈ indexed ∧ ∃ c, checksum_of o c ∧ c ∉ hashes) ∧
   (∀ o, o ∈ indexed → o ∉ orphans → ∃ c, checksum_of o c ∧ c ∈ hashes)) ∧ R w1 w2.
Proof.
  intros HR Hrun.
  apply (foldIO_ind (λ done orphans,
    (∀ o, o ∈ orphans → o ∈ done ∧ ∃ c, checksum_of o c ∧ c ∉ hashes) ∧
    (∀ o, o ∈ done → o ∉ orphans → ∃ c, checksum_of o c ∧ c ∈ hashes)) R _ _ _ _ _ _ Hrun).
  { split; set_solver. }
  clear Hrun w2. intros done o todo st st' w2 w3 _ [H1 H2] HR2 Hs. unfold mark_indexed in Hs.
  apply io_bind_Ok_inv in Hs as (c & w2' & Hl & Hs). injection Hs as <- <-.
  apply loadChecksum_ok in Hl as [HR3 Hl]; [|by transitivity w1]. split; [|done].
  destruct (decide (c ∈ hashes)) as [Hc|Hc].
  - rewrite bool_decide_eq_true_2 by done. cbn [negb]. split.
    + intros o' [? ?]%H1. rewrite elem_of_app. auto.
    + intros o' [Ho| ->%list_elem_of_singleton]%elem_of_app Hn; eauto.
  - rewrite bool_decide_eq_false_2 by done. cbn [negb]. split.
    + intros o' [[? ?]%H1| ->%list_elem_of_singleton]%elem_of_app; rewrite elem_of_app, list_elem_of_singleton;
        eauto.
    + intros o' Ho Hn. rewrite elem_of_app, list_elem_of_singleton in Ho, Hn. apply H2; tauto.
Qed.

Lemma buildGCPlan_valid p w' :
  buildGCPlan snapshots backups indexed chunks now days grace loadIndex loadChecksum w0 = (Ok p, w') →
  R w0 w' ∧ plan_spec p.
Proof.
  intros Hrun. unfold buildGCPlan in Hrun.
  apply io_bind_Ok_inv in Hrun as (ex & wa & Hex & Hrun). injection Hex as Hex <-.
  apply io_bind_Ok_inv in Hrun as (m & w1 & Hm & Hrun).
  apply io_bind_Ok_inv in Hrun as (orphans & w2 & Hi & Hrun).
  apply io_bind_Ok_inv in Hrun as (s & w3 & Hs & Hrun). injection Hs as Hs <-. injection Hrun as <- <-.
  apply expire_loop in Hex as [He Hpx].
  apply mark_loop in Hm as [[Mb Mk Ms Mh] HR1]; [|done|reflexivity].
  apply indexed_loop in Hi as [[I1 I2] HR2]; [|done].
  apply sweep_loop in Hs as [Sn Sc Sg Se].
  split; [by transitivity w1|]. split; cbn; try done.
  - intros o Ho Hl. destruct (Mk o Ho Hl) as (idx & ? & ? & _ & ?). eauto.
  - intros o Ho. destruct (I1 o Ho) as (Hin & c & Hc & Hnc). split; [done|]. exists c. split; [done|].
    intros o' Ho' Hl' Hf. destruct (Mk o' Ho' Hl') as (idx & ? & _ & Hh & _). exists idx.
    split; [done|]. intros Heq. apply Hnc. rewrite <-Heq. by apply Hh.
  - intros o Ho Hn. destruct (I2 o Ho Hn) as (c & Hc & (o' & idx & ? & ? & ? & ? & <-)%Mh). eauto 10.
  - intros d refs. rewrite map_lookup_filter_Some. done.
Qed.
End loops.
End plan_spec.

(** ** The operations on the store *)

Lemma collect_objects_Ok args l objs :
  collect_objects args l = Ok objs →
  Forall (λ o, oi_Err o = None) l ∧ objs = List.filter (λ o, negb (isDirectoryMarker o)) l.
Proof.
  revert objs. induction l as [|o l IH]; intros objs; cbn [collect_objects List.filter].
  { by intros [= <-]. }
  destruct (oi_Err o) eqn:E; [done|]. destruct (isDirectoryMarker o); cbn [negb].
  - intros [? ?]%IH. auto.
  - intros (objs' & Hl & Ho)%res_bind_Ok. injection Ho as <-. apply IH in Hl as [? ->]. auto.
Qed.

Section laws.
Context {W : Type} `{ObjectStoreLaws W}.

(** A complete inventory: every object under the prefix but directory markers. *)
Lemma listObjectsFully_Ok bucket opts w objs w' :
  listObjectsFully bucket opts w = (Ok objs, w') →
  keeps_all w w' ∧
  (∀ oi, oi ∈ objs → HasPrefix (Key oi) (Prefix opts) = true ∧ oi_Err oi = None ∧
     ∃ x, contents w bucket !! Key oi = Some x ∧ describes oi x) ∧
  (∀ k x, contents w bucket !! k = Some x → HasPrefix k (Prefix opts) = true →
     HasSuffix k "/" = false → ∃ oi, oi ∈ objs ∧ Key oi = k ∧ describes oi x).
Proof.
  intros Hrun. unfold listObjectsFully in Hrun. inv_io.
  match goal with Hc : collect_objects _ _ = Ok _ |- _ => apply collect_objects_Ok in Hc as [Hall ->] end.
  split; [by eapply ListObjects_effect|].
  split.
  - intros oi [Hin _]%list_elem_of_In%filter_In. apply list_elem_of_In in Hin.
    rewrite Forall_forall in Hall. pose proof (Hall oi Hin) as He.
    destruct (ListObjects_sound _ _ _ _ _ Hcall oi Hin He) as [? ?]. done.
  - intros k y Hk Hp Hs.
    destruct (ListObjects_complete _ _ _ _ _ Hcall Hall k y Hk Hp) as (oi & Hin & Hkey & Hd).
    exists oi. split; [|done]. apply list_elem_of_In, filter_In. rewrite <-list_elem_of_In.
    split; [done|]. unfold isDirectoryMarker. by rewrite Hkey, Hs, andb_false_r.
Qed.
Lemma listObjectsFully_effect bucket opts : effect (W:=W) keeps_all (listObjectsFully bucket opts).
Proof. unfold listObjectsFully. solve_effect. Qed.

Lemma removeObjectsFully_effect bucket objects :
  effect (W:=W) (shrinks (λ b k, b = bucket ∧ k ∈ Key <$> objects)) (removeObjectsFully bucket objects).
Proof.
  unfold removeObjectsFully. destruct objects as [|o objects]; [apply effect_ret, _|].
  solve_effect. apply RemoveObjects_effect.
Qed.
Lemma removeObjectsFully_Ok bucket objects (w w' : W) :
  removeObjectsFully bucket objects w = (Ok tt, w') →
  ∀ k, k ∈ Key <$> objects → contents w' bucket !! k = None.
Proof.
  unfold removeObjectsFully. destruct objects as [|o objects]; [set_solver|].
  intros Hrun. inv_io. destruct x as [|e errs]; [|done].
  by eapply RemoveObjects_done.
Qed.

(** What the sweep may do, in whatever way it ends: only objects of the plan go,
    and the last list is reached only when nothing of the two others is left. *)
Definition plan_keys (plan : gcPlan) : list string :=
  Key <$> (backupObjects plan ++ indexedObjects plan ++ chunkObjects plan).

Lemma executeGCPlan_effect bucket plan :
  effect (W:=W) (shrinks (λ b k, b = bucket ∧ k ∈ plan_keys plan)) (executeGCPlan bucket plan).
Proof.
  assert (∀ l, l ⊆ backupObjects plan ++ indexedObjects plan ++ chunkObjects plan →
    effect (W:=W) (shrinks (λ b k, b = bucket ∧ k ∈ plan_keys plan)) (removeObjectsFully bucket l)) as Hl.
  { intros l Hsub. eapply effect_mono; [|apply removeObjectsFully_effect].
    intros w w'. apply shrinks_weaken. unfold plan_keys. intros b k [-> (o & -> & Ho)%list_elem_of_fmap].
    split; [done|]. apply list_elem_of_fmap_2. by apply Hsub. }
  unfold executeGCPlan. solve_effect; apply Hl; set_solver.
Qed.

Lemma executeGCPlan_order bucket plan w r w' k :
  executeGCPlan bucket plan w = (r, w') →
  contents w' bucket !! k ≠ contents (W:=W) w bucket !! k →
  k ∉ Key <$> (backupObjects plan ++ indexedObjects plan) →
  ∀ k', k' ∈ Key <$> (backupObjects plan ++ indexedObjects plan) → contents w' bucket !! k' = None.
Proof.
  intros Hrun Hch Hnot. rewrite fmap_app in *. unfold executeGCPlan in Hrun.
  assert (∀ site l w1 r1 w2, wrap_io site [] (removeObjectsFully bucket l) w1 = (r1, w2) →
    ∀ k, contents w2 bucket !! k = contents w1 bucket !! k ∨
         (k ∈ Key <$> l ∧ contents w2 bucket !! k = None)) as Hrm.
  { intros site l w1 r1 w2 (r2 & Hl & _)%wrap_io_inv k'.
    destruct (removeObjectsFully_effect _ _ _ _ _ Hl bucket k') as [?|[[_ ?] ?]]; auto. }
  apply io_bind_inv in Hrun as [([] & w1 & S1 & Hrun)|[(e & S1 & _)|(p & S1 & _)]];
    [|destruct (Hrm _ _ _ _ _ S1 k) as [?|[? _]]; set_solver..].
  apply io_bind_inv in Hrun as [([] & w2 & S2 & Hrun)|[(e & S2 & _)|(p & S2 & _)]];
    [|destruct (Hrm _ _ _ _ _ S1 k) as [?|[? _]], (Hrm _ _ _ _ _ S2 k) as [?|[? _]];
      first [congruence|set_solver]..].
  intros k' [Hk|Hk]%elem_of_app.
  - pose proof (removeObjectsFully_Ok _ _ _ _ (wrap_io_Ok_inv _ _ _ _ _ _ S1) k' Hk) as Hn.
    destruct (Hrm _ _ _ _ _ S2 k') as [E2|[_ E2]], (Hrm _ _ _ _ _ Hrun k') as [E3|[_ E3]]; congruence.
  - pose proof (removeObjectsFully_Ok _ _ _ _ (wrap_io_Ok_inv _ _ _ _ _ _ S2) k' Hk) as Hn.
    destruct (Hrm _ _ _ _ _ Hrun k') as [E3|[_ E3]]; congruence.
Qed.
End laws.

Section sweep_done.
Context {W : Type} `{ObjectStoreLaws W}.

(** A sweep that reports success has removed the whole plan. *)
Lemma executeGCPlan_Ok bucket plan (w w' : W) :
  executeGCPlan bucket plan w = (Ok tt, w') → ∀ k, k ∈ plan_keys plan → contents w' bucket !! k = None.
Proof.
  intros Hrun k Hk. unfold executeGCPlan in Hrun.
  apply io_bind_Ok_inv in Hrun as ([] & w1 & S1%wrap_io_Ok_inv & Hrun).
  apply io_bind_Ok_inv in Hrun as ([] & w2 & S2%wrap_io_Ok_inv & S3%wrap_io_Ok_inv).
  assert (∀ l wa wb, removeObjectsFully bucket l wa = (Ok tt, wb) →
            contents wa bucket !! k = None → contents (W:=W) wb bucket !! k = None) as Hgone.
  { intros l wa wb Hl Hn. destruct (removeObjectsFully_effect _ _ _ _ _ Hl bucket k) as [->|[_ ?]]; done. }
  unfold plan_keys in Hk. rewrite !fmap_app, !elem_of_app in Hk. destruct Hk as [Hk|[Hk|Hk]].
  - eapply Hgone; [exact S3|]. eapply Hgone; [exact S2|]. by eapply removeObjectsFully_Ok.
  - eapply Hgone; [exact S3|]. by eapply removeObjectsFully_Ok.
  - by eapply removeObjectsFully_Ok.
Qed.
End sweep_done.

(** ** The arithmetic of ages, and the order of the sweep *)

(** C33. The retention test is the one over the integers for every retention and
    every clock: a retention whose seconds do not fit 64 bits is an error, never a
    wrapped-around cut-off, and a retention longer than the clock expires nothing. *)
Theorem snapshotExpired_exact s now days
    (Hdays : is_u64 days) (Hnow : is_i64 (time_Unix now)) :
  snapshotExpired s now days =
    if decide (days * 86400 < 2 ^ 64)
    then Ok (bool_decide (0 ≤ time_Unix now - days * 86400 ∧
                          BackupTime s < time_Unix now - days * 86400))
    else Err (Errorf "retention period overflows seconds" [fmt_d days]).
Proof. by apply snapshotExpired_cases. Qed.
Lemma snapshotExpired_exact_witness :
  snapshotExpired example_snapshot (1800000000 * 1000000000) 60 = Ok true.
Proof.
  rewrite (snapshotExpired_exact example_snapshot (1800000000 * 1000000000) 60); [reflexivity| |];
    vm_compute; split; discriminate || reflexivity.
Defined.

(** The grace period in nanoseconds is exact, or refused when it does not fit
    a [time.Duration]. *)
Theorem hoursDuration_exact hours (Hhours : is_u64 hours) :
  hoursDuration hours =
    if decide (hours * time_Hour < 2 ^ 63) then Ok (hours * time_Hour)
    else Err (Errorf "grace period overflows time.Duration" [fmt_d hours]).
Proof.
  unfold hoursDuration, MaxInt64, time_Hour.
  change ((2 ^ 63 - 1) `quot` 3600000000000) with 2562047.
  change (2 ^ 63) with 9223372036854775808. change (2 ^ 64) with 18446744073709551616 in Hhours.
  destruct (Z.ltb_spec 2562047 hours).
  - by rewrite decide_False by lia.
  - rewrite decide_True by lia. rewrite (i64_id hours) by lia. by rewrite i64_id by lia.
Qed.
Lemma hoursDuration_exact_witness : hoursDuration 24 = Ok 86400000000000.
Proof. rewrite (hoursDuration_exact 24); [reflexivity|vm_compute; split; discriminate || reflexivity]. Defined.

(** The sweep goes from the least to the most dangerous list: when it has
    removed a chunk, or any key of the last list only, no object of an expired
    snapshot and no orphaned copied index of the plan is left. *)
Theorem executeGCPlan_safe_order {W} `{ObjectStoreLaws W} bucket plan (w w' : W) r k
    (Hrun : executeGCPlan bucket plan w = (r, w'))
    (Hchanged : contents w' bucket !! k ≠ contents w bucket !! k)
    (Hlast : k ∉ Key <$> (backupObjects plan ++ indexedObjects plan)) :
  contents w' bucket !! k = None ∧ k ∈ Key <$> chunkObjects plan ∧
  ∀ k', k' ∈ Key <$> (backupObjects plan ++ indexedObjects plan) → contents w' bucket !! k' = None.
Proof.
  destruct (executeGCPlan_effect _ _ _ _ _ Hrun bucket k) as [?|[[_ Hin] Hn]]; [done|].
  split; [done|]. split; [|by eapply executeGCPlan_order].
  unfold plan_keys in Hin. rewrite app_assoc, fmap_app, elem_of_app in Hin. by destruct Hin.
Qed.

Definition sweep_world : mem :=
  Mem {[ "pbs" := list_to_map [("backups/a|1|vm/x", mkObj [] ∅ ∅ 0); ("chunks/y", mkObj [] ∅ ∅ 0)] ]} ∅ 0 0 [].
Definition sweep_plan : gcPlan :=
  mkGcPlan [] [example_object "backups/a|1|vm/x" 0] [] [example_object "chunks/y" 0] ∅ ∅ ∅ ∅ ∅ 0.
(** A failure of the first removal stops the sweep. *)
Example sweep_stops :
  let w := Mem (m_buckets sweep_world) ∅ 0 0 [Some (ErrorResponse 503 "SlowDown")] in
  contents (snd (executeGCPlan "pbs" sweep_plan w)) "pbs" = contents w "pbs".
Proof. vm_compute. reflexivity. Qed.
Lemma executeGCPlan_safe_order_witness :
  let w' := snd (executeGCPlan "pbs" sweep_plan sweep_world) in
  contents w' "pbs" !! "chunks/y" = None ∧ "chunks/y" ∈ Key <$> chunkObjects sweep_plan ∧
  ∀ k', k' ∈ Key <$> (backupObjects sweep_plan ++ indexedObjects sweep_plan) → contents w' "pbs" !! k' = None.
Proof.
  apply (executeGCPlan_safe_order "pbs" sweep_plan sweep_world (snd (executeGCPlan "pbs" sweep_plan sweep_world))
    (fst (executeGCPlan "pbs" sweep_plan sweep_world)) "chunks/y").
  - by destruct (executeGCPlan _ _ _).
  - vm_compute. discriminate.
  - vm_compute. intros Hin. apply list_elem_of_singleton in Hin. discriminate.
Defined.
