(* ===== verification/Json.v ===== *)
(** * [encoding/json] as the program uses it

    Encoding of strings and of objects with string, integer, boolean and array
    fields: what [json.Marshal] writes, with its HTML-safe escapes and the
    replacement of invalid UTF-8. *)

From S2P Require Import Prelude GoStrings GoBytes.

Local Open Scope Z_scope.

Inductive json :=
| JNull
| JBool (b : bool)
| JInt (z : Z)
| JString (s : string)
| JArray (l : list json)
| JObject (fields : list (string * json)).

Definition quote : ascii := "034"%char.
Definition backslash : ascii := "\"%char.
Definition code (c : ascii) : Z := Z.of_nat (nat_of_ascii c).
Definition between (lo c hi : Z) : bool := (lo <=? c) && (c <=? hi).

(** The number of bytes of the UTF-8 sequence at the head; 0 when invalid. *)
Definition utf8_width (a b c d : Z) : nat :=
  let cont x := between 128 x 191 in
  if a <? 128 then 1
  else if between 194 a 223 && cont b then 2
  else if ((a =? 224) && between 160 b 191 || between 225 a 236 && cont b || (a =? 237) && between 128 b 159
           || between 238 a 239 && cont b) && cont c then 3
  else if ((a =? 240) && between 144 b 191 || between 241 a 243 && cont b || (a =? 244) && between 128 b 143)
          && cont c && cont d then 4
  else 0.

Definition escape_u (z : Z) : string :=
  String backslash (String "u" (hex_EncodeToString [Z_byte (z / 256); Z_byte z])).
Definition escape_ascii (c : ascii) : string :=
  let z := code c in
  if (z =? 34) || (z =? 92) then String backslash (String c "")
  else if z =? 8 then String backslash "b"
  else if z =? 12 then String backslash "f"
  else if z =? 10 then String backslash "n"
  else if z =? 13 then String backslash "r"
  else if z =? 9 then String backslash "t"
  else if (z <? 32) || (z =? 60) || (z =? 62) || (z =? 38) then escape_u z
  else String c "".

(** [skip] bytes belong to a sequence already judged. *)
Fixpoint escape (skip : nat) (s : string) : string :=
  match s with
  | "" => ""
  | String c rest =>
      match skip with
      | S n => String c (escape n rest)
      | O =>
          let at_ n := match String.get n rest with Some x => code x | None => -1 end in
          match utf8_width (code c) (at_ 0%nat) (at_ 1%nat) (at_ 2%nat) with
          | O => escape_u 65533 +:+ escape 0 rest
          | S O => escape_ascii c +:+ escape 0 rest
          | S n =>
              if (code c =? 226) && (at_ 0%nat =? 128) && between 168 (at_ 1%nat) 169
              then escape_u (8232 + (at_ 1%nat - 168)) +:+
                   match rest with String _ (String _ rest) => escape 0 rest | _ => "" end
              else String c (escape n rest)
          end
      end
  end.

Definition json_string (s : string) : string := String quote (escape 0 s +:+ String quote "").

Definition comma : ascii := ","%char.
Fixpoint json_encode (j : json) : string :=
  match j with
  | JNull => "null"
  | JBool b => if b then "true" else "false"
  | JInt z => fmt_d z
  | JString s => json_string s
  | JArray l => "[" +:+ Join (json_encode <$> l) comma +:+ "]"
  | JObject fields =>
      "{" +:+ Join ((λ '(k, v), json_string k +:+ ":" +:+ json_encode v) <$> fields) comma +:+ "}"
  end.

Example json_encode_1 :
  json_encode (JObject [("a<b", JInt 3); ("c", JArray [JBool true; JString ("x" +:+ String quote "")])])
  = String "{" (json_string "a<b" +:+ ":3," +:+ json_string "c" +:+ ":[true," +:+
      json_string ("x" +:+ String quote "") +:+ "]}").
Proof. vm_compute. reflexivity. Qed.
