(* ===== verification/UsageStats.v ===== *)
(** * The usage report ([cmd/garbagecollector/stats.go],
    [internal/s3pmoxcommon/usagestats.go])

    After a successful collection the maps of the plan are turned into a report:
    per snapshot, the logical size, the size of the chunks it refers to and of
    those nothing else refers to. *)

From S2P Require Import Prelude GoStrings GoBytes S3 Platform Json.

Local Open Scope Z_scope.

Definition UsageStatsObject : string := "usage-stats.json".

Record SnapshotUsage := mkSnapshotUsage {
  su_Snapshot : string;
  su_LogicalBytes : Z;
  su_ReferencedBytes : Z;
  su_ExclusiveBytes : Z;
  su_Chunks : Z;
}.

Record UsageStats := mkUsageStats {
  us_Generated : Z;
  us_ChunkBytes : Z;
  us_Chunks : Z;
  us_LogicalBytes : Z;
  us_Snapshots : list SnapshotUsage;
}.

Definition snapshotOfIndex (indexKey : string) : string :=
  match Split indexKey slash with
  | p0 :: p1 :: _ :: _ => p0 +:+ String slash p1
  | _ => indexKey
  end.

(** ** The computation *)

Definition zero_usage (name : string) : SnapshotUsage := mkSnapshotUsage name 0 0 0 0.

(** [get(name)] followed by updates through the pointer. *)
Definition update_usage (name : string) (f : SnapshotUsage → SnapshotUsage)
    (perSnapshot : gmap string SnapshotUsage) : gmap string SnapshotUsage :=
  <[name := f (default (zero_usage name) (perSnapshot !! name))]> perSnapshot.

Definition add_logical (size : Z) (u : SnapshotUsage) : SnapshotUsage :=
  mkSnapshotUsage (su_Snapshot u) (u64 (su_LogicalBytes u + size)) (su_ReferencedBytes u)
    (su_ExclusiveBytes u) (su_Chunks u).
Definition add_chunk (size : Z) (exclusive : bool) (u : SnapshotUsage) : SnapshotUsage :=
  mkSnapshotUsage (su_Snapshot u) (su_LogicalBytes u) (u64 (su_ReferencedBytes u + size))
    (if exclusive then u64 (su_ExclusiveBytes u + size) else su_ExclusiveBytes u)
    (u64 (su_Chunks u + 1)).

(** The snapshots that refer to a chunk. *)
Definition owners_of (indexes : list string) : gmap string bool :=
  foldl (λ owners indexKey, <[snapshotOfIndex indexKey := true]> owners) ∅ indexes.

Definition usage_le (a b : SnapshotUsage) : Prop := String.le (su_Snapshot a) (su_Snapshot b).
#[export] Instance usage_le_dec a b : Decision (usage_le a b).
Proof. unfold usage_le. apply _. Defined.

#[export] Instance usage_le_trans : Transitive usage_le.
Proof. intros a b c. unfold usage_le. apply (transitivity (R:=String.le)). Qed.

Section computation.
Context `{!MapRange}.

Definition chunk_step (chunkSizes : gmap string Z)
    (st : gmap string SnapshotUsage * Z * Z) (chunk : string * list string)
    : gmap string SnapshotUsage * Z * Z :=
  let '(perSnapshot, chunks, bytes) := st in
  let sz := default 0 (chunkSizes !! chunk.1) in
  let owners := owners_of chunk.2 in
  (foldl (λ m owner, update_usage owner.1 (add_chunk sz (size owners =? 1)%nat) m)
     perSnapshot (map_range owners),
   u64 (chunks + 1), u64 (bytes + sz)).

(** [sort.Slice] by a key that is unique: every sort gives the same list. *)
Definition computeUsageStats (generated : Z) (knownChunks : gmap string (list string))
    (chunkSizes archiveSizes : gmap string Z) : UsageStats :=
  let perSnapshot :=
    foldl (λ m ks, update_usage (snapshotOfIndex ks.1) (add_logical ks.2) m) ∅
      (map_range archiveSizes) in
  let '(perSnapshot, chunks, bytes) :=
    foldl (chunk_step chunkSizes) (perSnapshot, 0, 0) (map_range knownChunks) in
  let usages := map_range perSnapshot in
  mkUsageStats generated bytes chunks
    (foldl (λ n u, u64 (n + su_LogicalBytes u.2)) 0 usages)
    (merge_sort usage_le usages.*2).
End computation.

(** ** The report object *)

Definition usage_json (u : SnapshotUsage) : json :=
  JObject [("snapshot", JString (su_Snapshot u)); ("logical-bytes", JInt (su_LogicalBytes u));
           ("referenced-bytes", JInt (su_ReferencedBytes u));
           ("exclusive-bytes", JInt (su_ExclusiveBytes u)); ("chunks", JInt (su_Chunks u))].
Definition stats_json (s : UsageStats) : json :=
  JObject [("generated", JInt (us_Generated s)); ("chunk-bytes", JInt (us_ChunkBytes s));
           ("chunks", JInt (us_Chunks s)); ("logical-bytes", JInt (us_LogicalBytes s));
           ("snapshots", JArray (usage_json <$> us_Snapshots s))].

Section write.
Context {W : Type} `{!ObjectStore W, !Platform W, !MapRange}.

(** The ratio and the sums of the log line have no effect; a failed upload is
    logged and dropped. *)
Definition writeUsageStats (bucket : string) (knownChunks : gmap string (list string))
    (chunkSizes archiveSizes : gmap string Z) : io W unit :=
  now ← lift_st time_Now;
  let stats := computeUsageStats (now / 1000000000) knownChunks chunkSizes archiveSizes in
  let payload := string_bytes (json_encode (stats_json stats)) in
  _ ← lift_st (PutObject bucket UsageStatsObject (Stream payload None) (Z.of_nat (length payload))
                 (mkPutOptions "" ∅ "application/json"));
  mret tt.

Context `{!StoreView W, !FileView W, !ObjectStoreLaws W, !PlatformLaws W}.

Lemma writeUsageStats_effect bucket known sizes archives :
  effect (keeps (λ b k, b ≠ bucket ∨ k ≠ UsageStatsObject)) (writeUsageStats bucket known sizes archives).
Proof.
  unfold writeUsageStats. solve_effect. apply PutObject_effect.
Qed.
End write.

(** ** A reference for the report

    Sums over the maps, with no loop order in them. *)

Definition sum_of {A} (f : A → Z) (l : list A) : Z := foldr (λ x n, f x + n) 0 l.

Section reference.
Context (knownChunks : gmap string (list string)) (chunkSizes archiveSizes : gmap string Z).

Definition size_of (d : string) : Z := default 0 (chunkSizes !! d).
(** The snapshots of a chunk, as a set. *)
Definition owner_set (indexes : list string) : gset string := list_to_set (snapshotOfIndex <$> indexes).

Definition logical_of (n : string) : Z :=
  sum_of (λ ks, if bool_decide (snapshotOfIndex ks.1 = n) then ks.2 else 0) (map_to_list archiveSizes).
Definition referenced_of (n : string) : Z :=
  sum_of (λ dr, if bool_decide (n ∈ owner_set dr.2) then size_of dr.1 else 0) (map_to_list knownChunks).
Definition exclusive_of (n : string) : Z :=
  sum_of (λ dr, if bool_decide (owner_set dr.2 = {[ n ]}) then size_of dr.1 else 0)
    (map_to_list knownChunks).
Definition chunks_of (n : string) : Z :=
  sum_of (λ dr, if bool_decide (n ∈ owner_set dr.2) then 1 else 0) (map_to_list knownChunks).

Definition usage_of (n : string) : SnapshotUsage :=
  mkSnapshotUsage n (u64 (logical_of n)) (u64 (referenced_of n)) (u64 (exclusive_of n)) (u64 (chunks_of n)).

(** Every snapshot an archive or a chunk belongs to. *)
Definition snapshot_names : gset string :=
  list_to_set (snapshotOfIndex <$> (map_to_list archiveSizes).*1) ∪
  ⋃ (owner_set <$> (map_to_list knownChunks).*2).

Definition reference_stats (generated : Z) : UsageStats :=
  mkUsageStats generated
    (u64 (sum_of (λ dr, size_of dr.1) (map_to_list knownChunks)))
    (u64 (Z.of_nat (size knownChunks)))
    (u64 (sum_of snd (map_to_list archiveSizes)))
    (usage_of <$> merge_sort String.le (elements snapshot_names)).
End reference.

(** ** The loops compute the reference *)

#[local] Arguments sum_of {A} f l : simpl never.
Lemma sum_of_cons {A} (f : A → Z) x l : sum_of f (x :: l) = f x + sum_of f l.
Proof. done. Qed.
Lemma sum_of_snoc {A} (f : A → Z) l x : sum_of f (l ++ [x]) = sum_of f l + f x.
Proof.
  induction l as [|y l IH]; [unfold sum_of; cbn; lia|]. cbn [app]. rewrite !sum_of_cons, IH. lia.
Qed.
Lemma sum_of_perm {A} (f : A → Z) l1 l2 : l1 ≡ₚ l2 → sum_of f l1 = sum_of f l2.
Proof. induction 1; rewrite ?sum_of_cons; lia. Qed.
Lemma sum_of_le {A} (f g : A → Z) l : (∀ x, x ∈ l → f x ≤ g x) → sum_of f l ≤ sum_of g l.
Proof.
  induction l as [|x l IH]; intros Hf; [done|]. rewrite !sum_of_cons.
  pose proof (Hf x ltac:(by left)). pose proof (IH ltac:(intros; apply Hf; by right)). lia.
Qed.
Lemma sum_of_none {A} (p : A → bool) (g : A → Z) l :
  (∀ x, x ∈ l → p x = false) → sum_of (λ x, if p x then g x else 0) l = 0.
Proof.
  induction l as [|x l IH]; intros Hl; [done|]. rewrite sum_of_cons, Hl by (by left).
  rewrite IH; [done|]. intros; apply Hl; by right.
Qed.

Lemma update_usage_lookup name f m n :
  update_usage name f m !! n =
    if decide (n = name) then Some (f (default (zero_usage n) (m !! n))) else m !! n.
Proof.
  unfold update_usage. case_decide; subst; [by rewrite lookup_insert_eq|by rewrite lookup_insert_ne].
Qed.
(** Updating each of some different names once. *)
Lemma update_usage_each f (os : list (string * bool)) m n :
  NoDup os.*1 →
  foldl (λ m o, update_usage o.1 f m) m os !! n =
    if decide (n ∈ os.*1) then Some (f (default (zero_usage n) (m !! n))) else m !! n.
Proof.
  induction os as [|o os IH] using rev_ind; [done|].
  rewrite fmap_app. intros (Hnd & Hdis & _)%NoDup_app. rewrite foldl_app. cbn [foldl fmap list_fmap].
  rewrite update_usage_lookup, IH by done.
  destruct (decide (n = o.1)) as [->|Hne].
  - rewrite (decide_True (P:=_ ∈ _ ++ _)) by set_solver.
    rewrite decide_False; [done|]. intros Hin. apply (Hdis o.1 Hin). by left.
  - apply decide_ext. set_solver.
Qed.

Lemma owners_of_dom indexes : dom (owners_of indexes) = owner_set indexes.
Proof.
  unfold owners_of, owner_set. induction indexes as [|k ks IH] using rev_ind.
  { apply dom_empty_L. }
  rewrite foldl_app. cbn [foldl]. rewrite dom_insert_L, IH, fmap_app, list_to_set_app_L. cbn. set_solver.
Qed.
Lemma size_one_singleton (X : gset string) n : n ∈ X → (size X = 1%nat ↔ X = {[ n ]}).
Proof.
  intros Hn. split; [|intros ->; by rewrite size_singleton].
  intros Hs. apply leibniz_equiv. intros x. rewrite elem_of_singleton. split; [|by intros ->].
  intros Hx. by eapply (size_singleton_inv X).
Qed.

Section proof.
Context `{!MapRange} (chunkSizes : gmap string Z).

(** The reference over lists, which the loops visit in their own order. *)
Definition usage_over (A : list (string * Z)) (K : list (string * list string)) (n : string) : SnapshotUsage :=
  mkSnapshotUsage n
    (u64 (sum_of (λ ks, if bool_decide (snapshotOfIndex ks.1 = n) then ks.2 else 0) A))
    (u64 (sum_of (λ dr, if bool_decide (n ∈ owner_set dr.2) then size_of chunkSizes dr.1 else 0) K))
    (u64 (sum_of (λ dr, if bool_decide (owner_set dr.2 = {[ n ]}) then size_of chunkSizes dr.1 else 0) K))
    (u64 (sum_of (λ dr, if bool_decide (n ∈ owner_set dr.2) then 1 else 0) K)).
Definition names_over (A : list (string * Z)) (K : list (string * list string)) : gset string :=
  list_to_set (snapshotOfIndex <$> A.*1) ∪ ⋃ (owner_set <$> K.*2).

Definition computes (A : list (string * Z)) (K : list (string * list string))
    (m : gmap string SnapshotUsage) : Prop :=
  ∀ n, m !! n = if decide (n ∈ names_over A K) then Some (usage_over A K n) else None.

(** A snapshot nothing of the lists belongs to has no figures. *)
Lemma usage_over_zero A K n : n ∉ names_over A K → usage_over A K n = zero_usage n.
Proof.
  unfold names_over. intros Hn. unfold usage_over, zero_usage.
  assert (∀ dr, dr ∈ K → n ∉ owner_set dr.2) as HK.
  { intros dr Hdr Hin. apply Hn, elem_of_union_r, elem_of_union_list. exists (owner_set dr.2).
    split; [|done]. by apply list_elem_of_fmap_2, list_elem_of_fmap_2. }
  rewrite !sum_of_none; [done|..].
  - intros dr Hdr. apply bool_decide_eq_false_2. by apply HK.
  - intros dr Hdr. apply bool_decide_eq_false_2. intros Heq. apply (HK dr Hdr). rewrite Heq. set_solver.
  - intros dr Hdr. apply bool_decide_eq_false_2. by apply HK.
  - intros ks Hks. apply bool_decide_eq_false_2. intros Heq. apply Hn, elem_of_union_l, elem_of_list_to_set.
    rewrite <-Heq. by apply list_elem_of_fmap_2, list_elem_of_fmap_2.
Qed.
Lemma computes_default A K m n : computes A K m → default (zero_usage n) (m !! n) = usage_over A K n.
Proof. intros ->. case_decide; [done|]. symmetry. by apply usage_over_zero. Qed.

Lemma archives_loop A :
  computes A [] (foldl (λ m ks, update_usage (snapshotOfIndex ks.1) (add_logical ks.2) m) ∅ A).
Proof.
  induction A as [|[k z] A IH] using rev_ind.
  { intros n. rewrite decide_False by (unfold names_over; set_solver). apply lookup_empty. }
  rewrite foldl_app. cbn [foldl fst snd]. intros n.
  rewrite update_usage_lookup, (computes_default A []), IH by done.
  assert (names_over (A ++ [(k, z)]) [] = names_over A [] ∪ {[ snapshotOfIndex k ]}) as ->.
  { unfold names_over. rewrite !fmap_app, list_to_set_app_L. cbn. set_solver. }
  assert (usage_over (A ++ [(k, z)]) [] n =
    (if decide (n = snapshotOfIndex k) then add_logical z else id) (usage_over A [] n)) as ->.
  { unfold usage_over. rewrite sum_of_snoc. cbn [fst snd]. case_decide as Hn.
    - rewrite bool_decide_eq_true_2 by done. unfold add_logical. cbn. by rewrite u64_add_l.
    - rewrite bool_decide_eq_false_2 by congruence. by rewrite Z.add_0_r. }
  destruct (decide (n = snapshotOfIndex k)) as [->|Hne].
  - by rewrite decide_True by set_solver.
  - unfold id. apply decide_ext. set_solver.
Qed.

Lemma usage_over_snoc A K d refs n :
  usage_over A (K ++ [(d, refs)]) n =
    if decide (n ∈ owner_set refs)
    then add_chunk (size_of chunkSizes d) (size (owner_set refs) =? 1)%nat (usage_over A K n)
    else usage_over A K n.
Proof.
  unfold usage_over. rewrite !sum_of_snoc. cbn [fst snd]. case_decide as Hin.
  - unfold add_chunk. cbn [su_Snapshot su_LogicalBytes su_ReferencedBytes su_ExclusiveBytes su_Chunks].
    rewrite !(bool_decide_eq_true_2 (n ∈ _)) by done. rewrite !u64_add_l. f_equal.
    destruct (Nat.eqb_spec (size (owner_set refs)) 1) as [H1|H1].
    + rewrite bool_decide_eq_true_2 by (by apply size_one_singleton). done.
    + rewrite bool_decide_eq_false_2 by (intros E; by apply H1, (size_one_singleton _ n)). by rewrite Z.add_0_r.
  - rewrite !(bool_decide_eq_false_2 (n ∈ _)), !(bool_decide_eq_false_2 (_ = _)) by set_solver.
    by rewrite !Z.add_0_r.
Qed.

Lemma chunk_step_computes A K m c b chunk :
  computes A K m →
  c = u64 (Z.of_nat (length K)) → b = u64 (sum_of (λ dr, size_of chunkSizes dr.1) K) →
  let '(m', c', b') := chunk_step chunkSizes (m, c, b) chunk in
  computes A (K ++ [chunk]) m' ∧ c' = u64 (Z.of_nat (length (K ++ [chunk]))) ∧
  b' = u64 (sum_of (λ dr, size_of chunkSizes dr.1) (K ++ [chunk])).
Proof.
  destruct chunk as [d refs]. intros Hm -> ->. cbn [chunk_step fst snd]. split_and!.
  2:{ rewrite length_app, u64_add_l. f_equal. cbn. lia. }
  2:{ rewrite sum_of_snoc, u64_add_l. done. }
  intros n. rewrite update_usage_each by (rewrite map_range_perm; apply NoDup_fst_map_to_list).
  rewrite (computes_default A K), Hm, usage_over_snoc by done.
  rewrite <-size_dom, owners_of_dom. fold (size_of chunkSizes d).
  assert (n ∈ (map_range (owners_of refs)).*1 ↔ n ∈ owner_set refs) as Hown.
  { rewrite <-owners_of_dom, elem_of_dom. rewrite list_elem_of_fmap. split.
    - intros ([n' x] & -> & Hin%elem_of_map_range). by exists x.
    - intros [x Hx]. exists (n, x). split; [done|]. by apply elem_of_map_range. }
  assert (names_over A (K ++ [(d, refs)]) = names_over A K ∪ owner_set refs) as ->.
  { unfold names_over. rewrite !fmap_app, union_list_app_L. cbn. set_solver. }
  rewrite (decide_ext _ _ _ _ Hown). case_decide as Hin.
  - by rewrite decide_True by set_solver.
  - apply decide_ext. set_solver.
Qed.

Lemma chunks_loop A K m :
  computes A [] m →
  let '(m', c, b) := foldl (chunk_step chunkSizes) (m, 0, 0) K in
  computes A K m' ∧ c = u64 (Z.of_nat (length K)) ∧ b = u64 (sum_of (λ dr, size_of chunkSizes dr.1) K).
Proof.
  intros Hm. induction K as [|chunk K IH] using rev_ind; [done|]. rewrite foldl_app. cbn [foldl].
  destruct (foldl _ _ K) as [[m' c] b]. destruct IH as (Hm' & Hc & Hb).
  by apply chunk_step_computes.
Qed.

(** Sums over the snapshots of sums over the archives. *)
Lemma sum_of_ext {A} (f g : A → Z) l : (∀ x, x ∈ l → f x = g x) → sum_of f l = sum_of g l.
Proof.
  induction l as [|x l IH]; intros Hf; [done|]. rewrite !sum_of_cons, (Hf x) by (by left).
  rewrite IH; [done|]. intros; apply Hf; by right.
Qed.
Lemma sum_of_add {A} (f g : A → Z) l : sum_of (λ x, f x + g x) l = sum_of f l + sum_of g l.
Proof. induction l as [|x l IH]; [done|]. rewrite !sum_of_cons, IH. lia. Qed.
Lemma sum_of_fmap {A B} (h : A → B) (f : B → Z) l : sum_of f (h <$> l) = sum_of (λ x, f (h x)) l.
Proof. induction l as [|x l IH]; [done|]. cbn [fmap list_fmap]. by rewrite !sum_of_cons, <-IH. Qed.
Lemma sum_of_u64 {A} (f : A → Z) l : u64 (sum_of (λ x, u64 (f x)) l) = u64 (sum_of f l).
Proof.
  induction l as [|x l IH]; [done|]. rewrite !sum_of_cons, u64_add_l.
  by rewrite <-u64_add_r, IH, u64_add_r.
Qed.
Lemma sum_of_indicator (n0 : string) z ns :
  NoDup ns → n0 ∈ ns → sum_of (λ n, if bool_decide (n0 = n) then z else 0) ns = z.
Proof.
  induction 1 as [|n ns Hn Hnd IH]; intros Hin; [by apply not_elem_of_nil in Hin|].
  rewrite sum_of_cons. destruct (decide (n0 = n)) as [->|Hne].
  - rewrite bool_decide_eq_true_2 by done. rewrite (sum_of_none (λ n', bool_decide (n = n'))); [lia|].
    intros n' Hn'. apply bool_decide_eq_false_2. congruence.
  - rewrite bool_decide_eq_false_2 by done. rewrite IH; [lia|]. by apply elem_of_cons in Hin as [?|?].
Qed.
Lemma sum_logical (A : list (string * Z)) (ns : list string) :
  NoDup ns → (∀ ks, ks ∈ A → snapshotOfIndex ks.1 ∈ ns) →
  sum_of (λ n, sum_of (λ ks, if bool_decide (snapshotOfIndex ks.1 = n) then ks.2 else 0) A) ns = sum_of snd A.
Proof.
  intros Hnd. induction A as [|ks A IH]; intros Hin.
  { clear. induction ns as [|n ns IH]; [done|]. by rewrite sum_of_cons, IH. }
  rewrite sum_of_cons, <-IH by (intros; apply Hin; by right). clear IH.
  rewrite <-(sum_of_indicator (snapshotOfIndex ks.1) ks.2 ns) at 1 by (auto; apply Hin; by left).
  rewrite <-sum_of_add. apply sum_of_ext. intros n _. by rewrite sum_of_cons.
Qed.

(** The map the loops leave, as a list. *)
Lemma computes_list A K m :
  computes A K m →
  map_to_list m ≡ₚ (λ n, (n, usage_over A K n)) <$> elements (names_over A K).
Proof.
  intros Hm. apply NoDup_Permutation.
  - apply NoDup_map_to_list.
  - apply NoDup_fmap_2; [|apply NoDup_elements]. by intros n1 n2 [= ->].
  - intros [n u]. rewrite elem_of_map_to_list, Hm, list_elem_of_fmap. split.
    + case_decide; [|done]. intros [= <-]. exists n. by rewrite elem_of_elements.
    + intros (n' & [= -> ->] & Hn%elem_of_elements). by rewrite decide_True.
Qed.
Lemma usage_le_sorted (f : string → SnapshotUsage) (ns : list string) l :
  (∀ n, su_Snapshot (f n) = n) → l ≡ₚ f <$> ns →
  merge_sort usage_le l = f <$> merge_sort String.le ns.
Proof.
  intros Hf Hl. apply (Sorted_unique_strong usage_le).
  - intros u1 u2 Hu1 Hu2 H12 H21.
    rewrite merge_sort_Permutation, Hl in Hu1. apply list_elem_of_fmap in Hu1 as (n1 & -> & _).
    apply list_elem_of_fmap in Hu2 as (n2 & -> & _). unfold usage_le in *. rewrite !Hf in *.
    f_equal. by apply (anti_symm String.le).
  - apply Sorted_merge_sort. intros a b. apply (total String.le).
  - apply Sorted_fmap with (R1:=String.le); [|apply Sorted_merge_sort; apply _].
    intros a b. unfold usage_le. by rewrite !Hf.
  - by rewrite !merge_sort_Permutation.
Qed.
End proof.

Section report.
Context `{!MapRange}.
Implicit Types (knownChunks : gmap string (list string)) (chunkSizes archiveSizes : gmap string Z).

Lemma usage_over_usage_of knownChunks chunkSizes archiveSizes n :
  usage_over chunkSizes (map_range archiveSizes) (map_range knownChunks) n =
  usage_of knownChunks chunkSizes archiveSizes n.
Proof.
  unfold usage_over, usage_of, logical_of, referenced_of, exclusive_of, chunks_of.
  by rewrite !(sum_of_perm _ _ _ (map_range_perm archiveSizes)),
    !(sum_of_perm _ _ _ (map_range_perm knownChunks)).
Qed.
Lemma names_over_names knownChunks archiveSizes :
  names_over (map_range archiveSizes) (map_range knownChunks) = snapshot_names knownChunks archiveSizes.
Proof.
  unfold names_over, snapshot_names. apply leibniz_equiv.
  by rewrite (map_range_perm archiveSizes), (map_range_perm knownChunks).
Qed.

Lemma computeUsageStats_eq g knownChunks chunkSizes archiveSizes :
  computeUsageStats g knownChunks chunkSizes archiveSizes =
  reference_stats knownChunks chunkSizes archiveSizes g.
Proof.
  unfold computeUsageStats, reference_stats.
  pose proof (chunks_loop chunkSizes _ (map_range knownChunks) _
    (archives_loop chunkSizes (map_range archiveSizes))) as Hloop.
  destruct (foldl (chunk_step chunkSizes) _ _) as [[m c] b]. destruct Hloop as (Hm & -> & ->).
  pose proof (computes_list chunkSizes _ _ _ Hm) as Hlist. rewrite names_over_names in Hlist.
  assert (map_range m ≡ₚ (λ n, (n, usage_of knownChunks chunkSizes archiveSizes n)) <$>
            elements (snapshot_names knownChunks archiveSizes)) as Hp.
  { rewrite map_range_perm, Hlist. apply Permutation_refl', list_fmap_ext. intros _ n _.
    by rewrite usage_over_usage_of. }
  f_equal.
  - f_equal. apply sum_of_perm, map_range_perm.
  - by rewrite (Permutation_length (map_range_perm _)), length_map_to_list.
  - assert (∀ l z, foldl (λ n u, u64 (n + su_LogicalBytes (snd u))) (u64 z) l =
              u64 (z + sum_of (λ u : string * SnapshotUsage, su_LogicalBytes u.2) l)) as Hfold.
    { induction l as [|u l IH]; intros z; cbn [foldl]; [by rewrite Z.add_0_r|].
      by rewrite u64_add_l, IH, sum_of_cons, Z.add_assoc. }
    rewrite <-(u64_id 0) at 1 by lia. rewrite Hfold, Z.add_0_l, (sum_of_perm _ _ _ Hp), sum_of_fmap. cbn.
    rewrite sum_of_u64. f_equal. apply sum_logical; [apply NoDup_elements|].
    intros ks Hks. apply elem_of_elements. unfold snapshot_names. apply elem_of_union_l, elem_of_list_to_set.
    by apply list_elem_of_fmap_2, list_elem_of_fmap_2.
  - apply usage_le_sorted; [done|]. rewrite Hp, <-list_fmap_compose. done.
Qed.

(** C30. The report is the reference, whatever order the maps are walked in: the
    totals are the sums over the maps, and there is one entry per snapshot,
    sorted by name, with the sums over its own archives and chunks (all modulo
    2^64). *)
Theorem computeUsageStats_reference g knownChunks chunkSizes archiveSizes :
  computeUsageStats g knownChunks chunkSizes archiveSizes =
    reference_stats knownChunks chunkSizes archiveSizes g.
Proof. apply computeUsageStats_eq. Qed.

Lemma sum_size_bounds knownChunks chunkSizes (p : string * list string → bool) :
  (∀ d z, chunkSizes !! d = Some z → 0 ≤ z) →
  0 ≤ sum_of (λ dr, if p dr then size_of chunkSizes dr.1 else 0) (map_to_list knownChunks)
    ≤ sum_of (λ dr, size_of chunkSizes dr.1) (map_to_list knownChunks).
Proof.
  intros Hsz. assert (∀ d, 0 ≤ size_of chunkSizes d) as H0.
  { intros d. unfold size_of. destruct (chunkSizes !! d) eqn:E; cbn; [by eapply Hsz|done]. }
  split.
  - etransitivity; [|apply sum_of_le with (f:=λ _, 0); intros x _; destruct (p x); [apply H0|done]].
    clear. induction (map_to_list knownChunks) as [|x l IH]; [done|]. by rewrite sum_of_cons.
  - apply sum_of_le. intros x _. destruct (p x); [done|apply H0].
Qed.

(** A chunk is exclusive to at most one snapshot. *)
Lemma sum_singleton_le (X : gset string) z ns :
  0 ≤ z → NoDup ns → sum_of (λ n, if bool_decide (X = {[ n ]}) then z else 0) ns ≤ z.
Proof.
  intros Hz. induction 1 as [|n ns Hn Hnd IH]; [done|]. rewrite sum_of_cons.
  destruct (decide (X = {[ n ]})) as [->|Hne].
  - rewrite bool_decide_eq_true_2 by done.
    rewrite (sum_of_none (λ n', bool_decide ({[ n ]} = {[ n' ]}))); [lia|].
    intros n' Hn'. apply bool_decide_eq_false_2. intros ?%(inj _). congruence.
  - by rewrite bool_decide_eq_false_2.
Qed.
Lemma sum_exclusive knownChunks chunkSizes ns :
  (∀ d z, chunkSizes !! d = Some z → 0 ≤ z) → NoDup ns →
  sum_of (exclusive_of knownChunks chunkSizes) ns ≤
    sum_of (λ dr, size_of chunkSizes dr.1) (map_to_list knownChunks).
Proof.
  intros Hsz Hnd. unfold exclusive_of. induction (map_to_list knownChunks) as [|dr K IH].
  { clear Hnd. induction ns as [|n ns IH]; [done|]. rewrite sum_of_cons. unfold sum_of at 1. cbn. lia. }
  rewrite sum_of_cons.
  rewrite (sum_of_ext _ (λ n, (if bool_decide (owner_set dr.2 = {[ n ]}) then size_of chunkSizes dr.1 else 0)
    + sum_of (λ dr, if bool_decide (owner_set dr.2 = {[ n ]}) then size_of chunkSizes dr.1 else 0) K))
    by (intros; by rewrite sum_of_cons).
  rewrite sum_of_add. assert (0 ≤ size_of chunkSizes dr.1) as Hz.
  { unfold size_of. destruct (chunkSizes !! dr.1) eqn:E; [|done]. by eapply Hsz. }
  pose proof (sum_singleton_le (owner_set dr.2) _ ns Hz Hnd). lia.
Qed.

(** In a report that does not overflow, what only one snapshot holds is at
    most what it refers to, which is at most what is stored, and the exclusive
    parts of all snapshots together are at most what is stored. *)
Theorem usage_report_bounds g knownChunks chunkSizes archiveSizes
    (Hsz : ∀ d z, chunkSizes !! d = Some z → 0 ≤ z)
    (Htotal : sum_of (λ dr, size_of chunkSizes dr.1) (map_to_list knownChunks) < 2 ^ 64) :
  let stats := computeUsageStats g knownChunks chunkSizes archiveSizes in
  (∀ u, u ∈ us_Snapshots stats →
     0 ≤ su_ExclusiveBytes u ≤ su_ReferencedBytes u ∧ su_ReferencedBytes u ≤ us_ChunkBytes stats) ∧
  sum_of su_ExclusiveBytes (us_Snapshots stats) ≤ us_ChunkBytes stats.
Proof.
  cbn zeta. rewrite computeUsageStats_eq. unfold reference_stats. cbn [us_Snapshots us_ChunkBytes].
  pose proof (sum_size_bounds knownChunks chunkSizes) as Hb.
  rewrite u64_id by (split; [apply (Hb (λ _, true) Hsz)|done]).
  assert (∀ n, su_ExclusiveBytes (usage_of knownChunks chunkSizes archiveSizes n) =
            exclusive_of knownChunks chunkSizes n) as He.
  { intros n. cbn. apply u64_id.
    destruct (Hb (λ dr, bool_decide (owner_set dr.2 = {[ n ]})) Hsz). unfold exclusive_of. lia. }
  split.
  - intros u (n & -> & _)%list_elem_of_fmap. rewrite He. cbn.
    destruct (Hb (λ dr, bool_decide (owner_set dr.2 = {[ n ]})) Hsz).
    destruct (Hb (λ dr, bool_decide (n ∈ owner_set dr.2)) Hsz).
    unfold referenced_of. rewrite u64_id by lia. split; [split|]; [done| |done].
    unfold exclusive_of. apply sum_of_le. intros dr _.
    case_bool_decide as E1; case_bool_decide as E2; try done; [set_solver|].
    destruct (Hb (λ _, true) Hsz). unfold size_of. destruct (chunkSizes !! dr.1) eqn:E; [|done].
    by eapply Hsz.
  - rewrite (sum_of_perm _ _ (usage_of knownChunks chunkSizes archiveSizes <$>
               elements (snapshot_names knownChunks archiveSizes))) by (by rewrite merge_sort_Permutation).
    rewrite sum_of_fmap, (sum_of_ext _ (exclusive_of knownChunks chunkSizes)) by (intros; apply He).
    apply sum_exclusive; [done|apply NoDup_elements].
Qed.
End report.

(** Two snapshots sharing one chunk of 10 bytes, one of them with 5 of its own. *)
Definition example_known : gmap string (list string) :=
  <["aa" := ["backups/100|1|vm/d.fidx"; "backups/100|2|vm/d.fidx"]]>
    (<["bb" := ["backups/100|2|vm/d.fidx"]]> ∅).
Definition example_sizes : gmap string Z := <["aa" := 10]> (<["bb" := 5]> ∅).
Definition example_archives : gmap string Z :=
  <["backups/100|1|vm/d.fidx" := 20]> (<["backups/100|2|vm/d.fidx" := 25]> ∅).
Example usage_example :
  @computeUsageStats default_range 7 example_known example_sizes example_archives =
  mkUsageStats 7 15 2 45
    [mkSnapshotUsage "backups/100|1|vm" 20 10 0 1; mkSnapshotUsage "backups/100|2|vm" 25 15 5 2].
Proof. vm_compute. reflexivity. Qed.

Lemma usage_report_bounds_witness :
  let stats := @computeUsageStats default_range 7 example_known example_sizes example_archives in
  (∀ u, u ∈ us_Snapshots stats →
     0 ≤ su_ExclusiveBytes u ≤ su_ReferencedBytes u ∧ su_ReferencedBytes u ≤ us_ChunkBytes stats) ∧
  sum_of su_ExclusiveBytes (us_Snapshots stats) ≤ us_ChunkBytes stats.
Proof.
  apply (@usage_report_bounds default_range 7 example_known example_sizes example_archives).
  - intros d z. unfold example_sizes. intros [[<- <-]|[_ [[<- <-]|[_ Hd]]%lookup_insert_Some]]%lookup_insert_Some; [done|done|].
    by rewrite lookup_empty in Hd.
  - vm_compute. reflexivity.
Defined.
