(* ===== verification/Sizes.v ===== *)
(** * Sizes and usage figures ([cmd/pmoxs3backuproxy/sizes.go])

    The walk over a bucket that counts what it holds, and the choice of the
    figure a snapshot listing reports as the size of a backup. *)

From S2P Require Import Prelude GoStrings GoBytes Sha256 S3 Platform MemWorld Snapshot IndexFormat UsageStats.

Local Open Scope Z_scope.

(** ** Usage of a datastore *)

Record DataStoreUsage := mkDataStoreUsage {
  du_Bytes : Z;              (* uint64, all four *)
  du_ChunkBytes : Z;
  du_Objects : Z;
  du_Snapshots : Z;
}.
Definition zero_DataStoreUsage : DataStoreUsage := mkDataStoreUsage 0 0 0 0.

(** The inner loop: the part of a key up to its first slash. *)
Definition prefix_part (rest : string) : option string :=
  let i := IndexByte rest slash in
  if i <? 0 then None else Some (take_string (Z.to_nat i) rest).

(** One object; the two tests are on the length and the first bytes. *)
Definition walk_step (st : DataStoreUsage * gset string) (object : ObjectInfo)
    : res (DataStoreUsage * gset string) :=
  match oi_Err object with
  | Some e => Err e
  | None =>
      let '(u, prefixes) := st in
      let n := u64 (Size object) in
      let u := mkDataStoreUsage (u64 (du_Bytes u + n)) (du_ChunkBytes u) (u64 (du_Objects u + 1))
                 (du_Snapshots u) in
      let len := Z.of_nat (String.length (Key object)) in
      if (7 <? len) && bool_decide (take_string 7 (Key object) = "chunks/")
      then Ok (mkDataStoreUsage (du_Bytes u) (u64 (du_ChunkBytes u + n)) (du_Objects u)
                 (du_Snapshots u), prefixes)
      else if (8 <? len) && bool_decide (take_string 8 (Key object) = "backups/")
      then match prefix_part (drop_string 8 (Key object)) with
           | Some p => Ok (u, {[ p ]} ∪ prefixes)
           | None => Ok (u, prefixes)
           end
      else Ok (u, prefixes)
  end.

Section walk.
Context {W : Type} `{!ObjectStore W}.

Definition walkDataStoreUsage (datastore : string) : io W DataStoreUsage :=
  objects ← lift_st (ListObjects datastore (mkListOptions "" false));
  st ← lift_res (foldM walk_step (zero_DataStoreUsage, ∅) objects);
  mret (mkDataStoreUsage (du_Bytes st.1) (du_ChunkBytes st.1) (du_Objects st.1)
          (u64 (Z.of_nat (size st.2)))).
End walk.

(** ** Which size a snapshot shows *)

Definition SnapshotSizeLogical : string := "logical".
Definition SnapshotSizeReferenced : string := "referenced".
Definition SnapshotSizeExclusive : string := "exclusive".

Definition ValidSnapshotSizeMode (mode : string) : bool :=
  bool_decide (mode = SnapshotSizeLogical) || bool_decide (mode = SnapshotSizeReferenced)
  || bool_decide (mode = SnapshotSizeExclusive).

Definition size_step (mode : string) (byPrefix : gmap string SnapshotUsage) (s : Snapshot) : Snapshot :=
  match byPrefix !! S3Prefix s with
  | None => s
  | Some u =>
      if bool_decide (mode = SnapshotSizeReferenced) then set_Size (su_ReferencedBytes u) s
      else if bool_decide (mode = SnapshotSizeExclusive) then set_Size (su_ExclusiveBytes u) s
      else s
  end.

Definition ApplySnapshotSizeMode (mode : string) (snapshots : list Snapshot)
    (stats : option UsageStats) : list Snapshot :=
  match stats with
  | None => snapshots
  | Some stats =>
      if bool_decide (mode = SnapshotSizeLogical) then snapshots
      else
        let byPrefix := foldl (λ m u, <[su_Snapshot u := u]> m) ∅ (us_Snapshots stats) in
        size_step mode byPrefix <$> snapshots
  end.

(** ** What the figures mean *)

Definition snapshot_of_key (k : string) : option string :=
  if HasPrefix k "backups/" && (8 <? Z.of_nat (String.length k))
  then prefix_part (drop_string 8 k) else None.

Definition chunk_bytes (k : string) (n : Z) : Z :=
  if HasPrefix k "chunks/" && (7 <? Z.of_nat (String.length k)) then n else 0.

(** The snapshot prefixes of a set of keys. *)
Definition snapshot_prefixes (ks : list string) : gset string := list_to_set (omap snapshot_of_key ks).

Lemma prefix_part_Cut s : prefix_part s = fst <$> Cut s slash.
Proof.
  unfold prefix_part. rewrite IndexByte_Cut. destruct (Cut s slash) as [[a b]|] eqn:E; [|done].
  apply Cut_Some in E as [-> _]. destruct (Z.ltb_spec (Z.of_nat (String.length a)) 0); [lia|].
  by rewrite Nat2Z.id, take_string_app.
Qed.

Definition walked (l : list ObjectInfo) (st : DataStoreUsage * gset string) : Prop :=
  du_Bytes st.1 = u64 (sum_of Size l) ∧
  du_ChunkBytes st.1 = u64 (sum_of (λ o, chunk_bytes (Key o) (Size o)) l) ∧
  du_Objects st.1 = u64 (Z.of_nat (length l)) ∧
  st.2 = snapshot_prefixes (Key <$> l).

Lemma walk_step_Ok st o st' :
  walk_step st o = Ok st' →
  oi_Err o = None ∧
  st' = (mkDataStoreUsage (u64 (du_Bytes st.1 + Size o))
           (if HasPrefix (Key o) "chunks/" && (7 <? Z.of_nat (String.length (Key o)))
            then u64 (du_ChunkBytes st.1 + Size o) else du_ChunkBytes st.1)
           (u64 (du_Objects st.1 + 1)) (du_Snapshots st.1),
         match snapshot_of_key (Key o) with Some p => {[ p ]} ∪ st.2 | None => st.2 end).
Proof.
  unfold walk_step. destruct (oi_Err o); [done|]. destruct st as [u ps]. cbv zeta. cbn [fst snd].
  rewrite (take_string_prefix 7 _ "chunks/"), (take_string_prefix 8 _ "backups/") by done.
  rewrite !u64_add_r, !(andb_comm (_ <? _)).
  unfold snapshot_of_key.
  destruct (HasPrefix (Key o) "chunks/") eqn:Hc; cbn [andb].
  - assert (HasPrefix (Key o) "backups/" = false) as -> by (by apply HasPrefix_spec in Hc as [r ->]).
    cbn [andb]. by destruct (7 <? _); intros [= <-].
  - destruct (HasPrefix (Key o) "backups/" && _); [|by intros [= <-]].
    destruct (prefix_part _); by intros [= <-].
Qed.

Lemma walk_loop l st :
  foldM walk_step (zero_DataStoreUsage, ∅) l = Ok st →
  Forall (λ o, oi_Err o = None) l ∧ walked l st.
Proof.
  intros Hf. apply (foldM_ind (λ l st, Forall (λ o, oi_Err o = None) l ∧ walked l st) _ _ _ _ Hf);
    [by split|]. intros done o todo st1 st' _ [Hl (Hb & Hc & Ho & Hp)] [He ->]%walk_step_Ok.
  split; [by rewrite Forall_app, Forall_singleton|]. unfold walked, snapshot_prefixes in *. cbn [fst snd du_Bytes du_ChunkBytes du_Objects].
  rewrite Hb, Hc, Ho, Hp, !sum_of_snoc, !u64_add_l, fmap_app, omap_app, list_to_set_app_L, length_app.
  split_and!; [done| | |].
  - unfold chunk_bytes at 4. destruct (_ && _); [done|]. by rewrite Z.add_0_r.
  - by rewrite Nat2Z.inj_add.
  - cbn. destruct (snapshot_of_key (Key o)); cbn; set_solver.
Qed.

Section exact.
Context {W : Type} `{!ObjectStore W, !StoreView W, !ObjectStoreLaws W}.

Lemma walkDataStoreUsage_effect ds : effect (W:=W) keeps_all (walkDataStoreUsage ds).
Proof. unfold walkDataStoreUsage. solve_effect. Qed.

(** The names of a listing are the prefixes of its keys, each once. *)
Lemma object_name_prefix o p : valid_object o = true → object_name o = Some p ↔ snapshot_of_key (Key o) = Some p.
Proof.
  unfold valid_object, object_name, split_key, snapshot_of_key. destruct (oi_Err o); [done|].
  destruct (HasPrefix (Key o) "backups/") eqn:Hb; cbn [negb orb andb]; [|done].
  apply HasPrefix_spec in Hb as [r Hr]. rewrite Hr, TrimPrefix_app, string_length_app.
  change (drop_string 8 ("backups/" +:+ r)) with r.
  rewrite prefix_part_Cut. destruct (Cut r slash) as [[a b]|] eqn:Hc; [|done].
  destruct (bool_decide (a = "") || bool_decide (b = "")); [done|]. intros _.
  apply Cut_Some in Hc as [-> _]. rewrite string_length_app.
  destruct (Z.ltb_spec 8 (Z.of_nat (String.length "backups/" + (String.length a + String.length (String slash b))))) as [|Hl];
    [done|]. cbn in Hl. lia.
Qed.
Lemma names_prefixes objects :
  forallb valid_object objects = true →
  Z.of_nat (length (names objects)) = Z.of_nat (size (snapshot_prefixes (Key <$> objects))).
Proof.
  intros Hv. f_equal. rewrite <-(size_list_to_set (C:=gset string) (names objects)) by apply names_NoDup.
  f_equal. apply set_eq. intros p. unfold snapshot_prefixes.
  rewrite !elem_of_list_to_set, elem_of_names, list_elem_of_omap.
  rewrite forallb_forall in Hv. split.
  - intros (o & Ho & Hn). exists (Key o). split; [by apply list_elem_of_fmap_2|].
    apply object_name_prefix; [|done]. by apply Hv, list_elem_of_In.
  - intros (k & (o & -> & Ho)%list_elem_of_fmap & Hn). exists o. split; [done|].
    apply object_name_prefix; [|done]. by apply Hv, list_elem_of_In.
Qed.

Lemma snapshot_prefixes_keys l1 l2 :
  (∀ k, HasPrefix k "backups/" = true → k ∈ l1 ↔ k ∈ l2) → snapshot_prefixes l1 = snapshot_prefixes l2.
Proof.
  intros Hl. apply set_eq. intros p. unfold snapshot_prefixes. rewrite !elem_of_list_to_set, !list_elem_of_omap.
  f_equiv. intros k. split; intros [Hk Hp]; (split; [|done]); apply Hl; try done;
    unfold snapshot_of_key in Hp; by destruct (HasPrefix k "backups/").
Qed.

Lemma filter_all {A} (f : A → bool) l : (∀ x, x ∈ l → f x = true) → List.filter f l = l.
Proof.
  induction l as [|x l IH]; intros Hf; [done|]. cbn. rewrite Hf by (by left). f_equal.
  apply IH. intros; apply Hf; by right.
Qed.

(** A listing of the snapshots shows one per prefix. *)
Lemma ListSnapshots_count ds (w w' : W) snapshots :
  ListSnapshots ds true w = (Ok snapshots, w') →
  Z.of_nat (length snapshots) = Z.of_nat (size (snapshot_prefixes (map_to_list (contents w ds)).*1)).
Proof.
  unfold ListSnapshots. intros Hrun.
  apply io_bind_Ok_inv in Hrun as (l & w1 & Hl & Hrun). unfold lift_st in Hl.
  destruct (ListObjects ds _ w) as [l' w1'] eqn:El. injection Hl as -> ->.
  apply io_bind_Ok_inv in Hrun as (objs & w2 & Hs & Hrun). injection Hs as Hs <-. injection Hrun as Hrun _.
  apply collect_listing_Ok in Hs as [-> Herr].
  assert (forallb valid_object l = true) as Hv by (by rewrite <-(SnapshotsFromObjects_ok ds l true), Hrun).
  rewrite (SnapshotsFromObjects_spec ds l true _ Hrun), filter_all by (by intros s _).
  rewrite length_fmap, names_prefixes by done. do 2 f_equal. apply snapshot_prefixes_keys. intros k Hk.
  rewrite !list_elem_of_fmap. split.
  - intros (o & -> & Ho). rewrite Forall_forall in Herr.
    destruct (ListObjects_sound _ _ _ _ _ El o Ho (Herr o Ho)) as (_ & x & Hx & _).
    exists (Key o, x). split; [done|]. by apply elem_of_map_to_list.
  - intros ([k' x] & -> & Hin%elem_of_map_to_list).
    destruct (ListObjects_complete _ _ _ _ _ El Herr k' x Hin Hk) as (o & Ho & <- & _). eauto.
Qed.

(** The walk counts the bucket exactly (modulo 2^64): the bytes and the number
    of all its objects, the bytes under [chunks/], and the snapshot prefixes - which
    are as many as the snapshots a listing of the unchanged bucket shows. *)
Theorem walkDataStoreUsage_exact ds (w w' : W) u
    (Hrun : walkDataStoreUsage ds w = (Ok u, w')) :
  let objects := map_to_list (contents w ds) in
  keeps_all w w' ∧
  du_Bytes u = u64 (sum_of (λ kx, Z.of_nat (length (o_data kx.2))) objects) ∧
  du_ChunkBytes u = u64 (sum_of (λ kx, chunk_bytes kx.1 (Z.of_nat (length (o_data kx.2)))) objects) ∧
  du_Objects u = u64 (Z.of_nat (size (contents w ds))) ∧
  du_Snapshots u = u64 (Z.of_nat (size (snapshot_prefixes objects.*1))) ∧
  ∀ w1 w2 snapshots, keeps_all w w1 → ListSnapshots ds true w1 = (Ok snapshots, w2) →
    du_Snapshots u = u64 (Z.of_nat (length snapshots)).
Proof.
  intros objects. pose proof (walkDataStoreUsage_effect _ _ _ _ Hrun) as K. unfold walkDataStoreUsage in Hrun.
  apply io_bind_Ok_inv in Hrun as (l & w1 & Hl & Hrun). unfold lift_st in Hl.
  destruct (ListObjects ds _ w) as [l' w1'] eqn:El. injection Hl as -> ->.
  apply io_bind_Ok_inv in Hrun as (st & w2 & Hs & Hrun). injection Hs as Hs <-. injection Hrun as <- <-.
  apply walk_loop in Hs as (Herr & Hb & Hc & Ho & Hp).
  pose proof (listing_contents _ _ _ _ _ El Herr) as Hperm. fold objects in Hperm.
  assert (∀ f : string → Z → Z, sum_of (λ o, f (Key o) (Size o)) l =
            sum_of (λ kx, f kx.1 (Z.of_nat (length (o_data kx.2)))) objects) as Hsum.
  { intros f. pose proof (sum_of_perm (λ kn, f kn.1 kn.2) _ _ Hperm) as Hsum.
    unfold sum_of in *. by rewrite !foldr_fmap in Hsum. }
  assert (snapshot_prefixes (Key <$> l) = snapshot_prefixes objects.*1) as Hpre.
  { apply snapshot_prefixes_keys. intros k _.
    pose proof (fmap_Permutation fst _ _ Hperm) as HK. rewrite <-!list_fmap_compose in HK.
    by rewrite (elem_of_Permutation_proper _ _ _ HK). }
  cbn [du_Bytes du_ChunkBytes du_Objects du_Snapshots]. split; [done|]. split_and!.
  - rewrite Hb. f_equal. apply (Hsum (λ _ n, n)).
  - rewrite Hc. f_equal. apply (Hsum chunk_bytes).
  - apply Permutation_length in Hperm. rewrite !length_fmap in Hperm. rewrite Ho, Hperm. unfold objects. by rewrite length_map_to_list.
  - by rewrite Hp, <-Hpre.
  - intros w1' w2' snapshots K' Hls. apply ListSnapshots_count in Hls.
    rewrite Hls, (keeps_all_contents _ _ _ K'), Hp, Hpre. done.
Qed.
End exact.

(** ** The report decides the size *)

Section mode.
Context `{!MapRange} (knownChunks : gmap string (list string)) (chunkSizes archiveSizes : gmap string Z).

Lemma byPrefix_lookup ns n :
  foldl (λ (m : gmap string SnapshotUsage) u, <[su_Snapshot u := u]> m) ∅ (usage_of knownChunks chunkSizes archiveSizes <$> ns) !! n =
    if bool_decide (n ∈ ns) then Some (usage_of knownChunks chunkSizes archiveSizes n) else None.
Proof.
  induction ns as [|p ns IH] using rev_ind.
  { cbn. rewrite lookup_empty, bool_decide_eq_false_2; [done|]. apply not_elem_of_nil. }
  rewrite fmap_app, foldl_app. cbn [foldl fmap list_fmap]. destruct (decide (n = p)) as [->|Hne].
  - rewrite lookup_insert_eq, bool_decide_eq_true_2; [done|]. set_solver.
  - rewrite lookup_insert_ne by (cbn; congruence). rewrite IH.
    rewrite (bool_decide_ext (n ∈ ns ++ [p]) (n ∈ ns)); [done|]. set_solver.
Qed.

(** With the report of the collector a listing shows, for each snapshot the
    report knows, the bytes of the chunks it refers to, or of those only it refers
    to; a snapshot the report does not know, every snapshot in the logical mode,
    and every snapshot when there is no report, keep the size they have. *)
Theorem ApplySnapshotSizeMode_report g mode snapshots
    (Hmode : ValidSnapshotSizeMode mode = true) :
  ApplySnapshotSizeMode mode snapshots None = snapshots ∧
  ApplySnapshotSizeMode mode snapshots (Some (computeUsageStats g knownChunks chunkSizes archiveSizes)) =
    (λ s, let n := S3Prefix s in
          if bool_decide (mode ≠ SnapshotSizeLogical ∧ n ∈ snapshot_names knownChunks archiveSizes)
          then set_Size (u64 (if bool_decide (mode = SnapshotSizeReferenced)
                              then referenced_of knownChunks chunkSizes n
                              else exclusive_of knownChunks chunkSizes n)) s
          else s) <$> snapshots.
Proof.
  split; [done|]. rewrite computeUsageStats_eq. unfold ApplySnapshotSizeMode, reference_stats. cbn [us_Snapshots].
  destruct (decide (mode = SnapshotSizeLogical)) as [->|Hl].
  { rewrite bool_decide_eq_true_2 by done. rewrite <-(list_fmap_id snapshots) at 1. by apply list_fmap_ext. }
  rewrite bool_decide_eq_false_2 by done. apply list_fmap_ext. intros _ s _. unfold size_step.
  rewrite byPrefix_lookup. cbv zeta.
  rewrite (bool_decide_ext (S3Prefix s ∈ merge_sort _ _) (mode ≠ SnapshotSizeLogical ∧ S3Prefix s ∈ snapshot_names knownChunks archiveSizes))
    by (rewrite merge_sort_Permutation, elem_of_elements; tauto).
  destruct (bool_decide (_ ∧ _)); [|done]. cbn [su_ReferencedBytes su_ExclusiveBytes usage_of].
  destruct (decide (mode = SnapshotSizeReferenced)) as [->|Hr]; [done|].
  rewrite !(bool_decide_eq_false_2 (mode = SnapshotSizeReferenced)) by done.
  rewrite bool_decide_eq_true_2; [done|]. unfold ValidSnapshotSizeMode in Hmode. reflect_bools.
  rewrite !orb_true_iff, !bool_decide_eq_true in Hmode. naive_solver.
Qed.
End mode.

(** ** Concrete inputs *)

Definition walk_world : mem :=
  Mem {[ "pbs" := <["backups/100|1000|vm/index.json.blob" := mkObj (string_bytes "{}") ∅ ∅ 0]>
                    (<["backups/100|1000|vm/drive.img.fidx" := mkObj (string_bytes "12345") ∅ ∅ 0]>
                       (<["chunks/aa/bb/cc" := mkObj (string_bytes "1234567") ∅ ∅ 0]>
                          (<["usage-stats.json" := mkObj (string_bytes "1") ∅ ∅ 0]> ∅))) ]} ∅ 0 0 [].
Definition walk_result : DataStoreUsage := mkDataStoreUsage 15 7 4 1.

Lemma walkDataStoreUsage_exact_witness :
  let objects := map_to_list (contents walk_world "pbs") in
  keeps_all walk_world walk_world ∧
  15 = u64 (sum_of (λ kx, Z.of_nat (length (o_data kx.2))) objects) ∧
  7 = u64 (sum_of (λ kx, chunk_bytes kx.1 (Z.of_nat (length (o_data kx.2)))) objects) ∧
  4 = u64 (Z.of_nat (size (contents walk_world "pbs"))) ∧
  1 = u64 (Z.of_nat (size (snapshot_prefixes objects.*1))) ∧
  ∀ w1 w2 snapshots, keeps_all walk_world w1 → ListSnapshots "pbs" true w1 = (Ok snapshots, w2) →
    1 = u64 (Z.of_nat (length snapshots)).
Proof. apply (walkDataStoreUsage_exact "pbs" walk_world walk_world walk_result). vm_compute. reflexivity. Defined.

Lemma ApplySnapshotSizeMode_report_witness :
  let s := mkSnapshot "100" 1 "vm" [] false "" "pbs" false 20 in
  ApplySnapshotSizeMode "referenced" [s] None = [s] ∧
  ApplySnapshotSizeMode "referenced" [s]
    (Some (@computeUsageStats default_range 7 example_known example_sizes example_archives)) =
    [set_Size 10 s].
Proof.
  intros s. destruct (@ApplySnapshotSizeMode_report default_range example_known example_sizes example_archives
    7 "referenced" [s] ltac:(vm_compute; reflexivity)) as [H1 H2].
  split; [exact H1|]. etransitivity; [exact H2|]. vm_compute. reflexivity.
Defined.
