(* ===== verification/GC.v ===== *)
(** * The garbage collector ([cmd/garbagecollector/main.go])

    One run: inventory, mark, then either report missing chunks or sweep.  The
    theorems are about the whole run, for every behaviour of the endpoint that
    the laws of the client library allow: failures at any call, partial removal,
    truncated downloads. *)

From S2P Require Import Prelude GoStrings GoBytes Sha256 S3 Platform MemWorld Snapshot IndexFormat Invalidation GCPlan Json UsageStats.

Local Open Scope Z_scope.

(** ** The run *)

(** The command-line values a run depends on. *)
Record gcFlags := mkFlags {
  endpointFlag : string;
  secureFlag : bool;
  bucketFlag : string;
  accessKeyID : string;
  secretKey : string;
  secretKeyFile : string;
  retentionDays : Z;          (* uint *)
  chunkGraceHours : Z;        (* uint *)
  cacheInvalidationDir : string;
  lookupTypeFlag : string;
}.

(** The required flags: without them the usage text is printed. *)
Definition flags_missing (fl : gcFlags) : bool :=
  bool_decide (endpointFlag fl = "") || bool_decide (accessKeyID fl = "")
  || (bool_decide (secretKey fl = "") && bool_decide (secretKeyFile fl = ""))
  || bool_decide (bucketFlag fl = "").
Definition key_cutset : string :=
  " " +:+ String "013"%char (String "009"%char (String "010"%char "")).

(** [strings.Join(parts[:len(parts)-1], "/") + "/corrupted"]. *)
Definition corrupted_marker (objectName : string) : string :=
  let parts := Split objectName slash in
  Join (take (length parts - 1) parts) slash +:+ "/corrupted".

Section run.
Context {W : Type} `{!ObjectStore W, !Platform W, !MapRange} (fl : gcFlags).
#[local] Abbreviation bucket := (bucketFlag fl).
#[local] Abbreviation lockname := (DataStoreLockName (endpointFlag fl) (bucketFlag fl)).

(** What precedes the inventory: the flags, the secret key, the client, and the
    lock of the datastore. *)
Definition gc_setup : io W Z :=
  if flags_missing fl then fail (Errorf "usage" [])
  else
    gracePeriod ← lift_res (wrap "Invalid chunk grace period" [] (hoursDuration (chunkGraceHours fl)));
    skey ← (if bool_decide (secretKey fl = "")
            then data ← wrap_io "Reading key file" [secretKeyFile fl] (os_ReadFile (secretKeyFile fl));
                 mret (Trim data key_cutset)
            else mret (secretKey fl));
    _ ← wrap_io "Creating S3 Client" []
          (minio_New (endpointFlag fl)
             (mkOptions (accessKeyID fl) skey (secureFlag fl) (GetLookupType (lookupTypeFlag fl))));
    _ ← wrap_io "Failed to acquire Lock" [lockname] (mutex_Acquire lockname);
    mret gracePeriod.

(** A failed publication is logged and dropped. *)
Definition publishInvalidation : io W unit :=
  _ ← try (PublishCacheInvalidation (cacheInvalidationDir fl) (endpointFlag fl) bucket);
  mret tt.

(** The setup and the inventory: the listings and the clock; [None] when the
    bucket has no snapshot. *)
Record listing := mkListing {
  ls_grace : Z;
  ls_backups : list ObjectInfo;
  ls_snapshots : list Snapshot;
  ls_indexed : list ObjectInfo;
  ls_chunks : list ObjectInfo;
  ls_now : Z;
}.
Definition gc_inventory : io W (option listing) :=
  gracePeriod ← gc_setup;
  exists_ ← wrap_io "Unable to access specified bucket" [] (BucketExists bucket);
  if negb exists_ then fail (Errorf "Specified bucket does not exist" [bucket])
  else
    backups ← wrap_io "Unable to list backup objects safely" []
                (listObjectsFully bucket (mkListOptions "backups/" true));
    snapshots ← lift_res (wrap "Unable to parse snapshots safely" []
                  (SnapshotsFromObjects backups bucket true));
    if (length snapshots =? 0)%nat then mret None
    else
      indexed ← wrap_io "Unable to list copied indexes safely" []
                  (listObjectsFully bucket (mkListOptions "indexed/" true));
      chunks ← wrap_io "Unable to list chunks safely" []
                 (listObjectsFully bucket (mkListOptions "chunks/" false));
      markTime ← lift_st time_Now;
      mret (Some (mkListing gracePeriod backups snapshots indexed chunks markTime)).

(** The mark phase. *)
Definition gc_mark : io W (option gcPlan) :=
  inventory ← gc_inventory;
  match inventory with
  | None => mret None
  | Some l =>
      snapshots ← wrap_io "Unable to verify snapshot protection; nothing was deleted" []
                    (refreshExpiredSnapshotProtection bucket (ls_snapshots l) (ls_backups l) (ls_now l) (retentionDays fl));
      plan ← wrap_io "Garbage-collection mark phase failed; nothing was deleted" []
               (buildGCPlan snapshots (ls_backups l) (ls_indexed l) (ls_chunks l) (ls_now l) (retentionDays fl) (ls_grace l)
                  (loadIndexFromS3 bucket)
                  (λ object, r ← getObjectMetadata bucket object; mret r.1));
      mret (Some plan)
  end.

(** One corrupted marker per reference to a missing chunk. *)
Definition mark_corrupted (objectName : string) : io W unit :=
  r ← lift_st (PutObject bucket (corrupted_marker objectName)
                 (Stream (string_bytes "CORRUPTED") None) 9 (mkPutOptions "" ∅ ""));
  _ ← lift_res (wrap "Error tagging as corrupt" [objectName] r.1);
  publishInvalidation.

Definition report_missing (plan : gcPlan) : io W unit :=
  _ ← foldIO (λ _ missing, foldIO (λ _, mark_corrupted) tt missing.2) tt
        (map_range (missingChunks plan));
  _ ← publishInvalidation;
  fail (Errorf "Integrity check found missing referenced chunks; nothing was deleted"
          [fmt_d (Z.of_nat (size (missingChunks plan)))]).

Definition gc_sweep (plan : gcPlan) : io W unit :=
  _ ← publishInvalidation;
  r ← try (executeGCPlan bucket plan);
  match r with
  | inr e => _ ← publishInvalidation; fail (Wrapf "Garbage-collection sweep failed" [] e)
  | inl _ =>
      _ ← publishInvalidation;
      _ ← writeUsageStats bucket (knownChunks plan) (chunkSizes plan) (archiveSizes plan);
      publishInvalidation
  end.

(** What follows the mark phase. *)
Definition gc_act (plan : gcPlan) : io W unit :=
  if (0 <? Z.of_nat (size (missingChunks plan))) then report_missing plan else gc_sweep plan.

Definition gc_main : io W unit :=
  plan ← gc_mark;
  match plan with
  | None => lift_st (mutex_Release lockname)
  | Some plan => _ ← gc_act plan; lift_st (mutex_Release lockname)
  end.
End run.

(** ** Kinds of keys *)

Lemma HasSuffix_last k c d a b :
  HasSuffix k (a +:+ String c "") = true → HasSuffix k (b +:+ String d "") = true → c = d.
Proof.
  intros [p1 ->]%HasSuffix_spec [p2 Heq]%HasSuffix_spec. rewrite <-!string_app_assoc in Heq.
  by apply string_snoc_inj in Heq.
Qed.

Definition is_marker (k : string) : bool := HasSuffix k "/corrupted".

Lemma index_key k : IsIndex k = true → HasSuffix k "/" = false ∧ is_marker k = false.
Proof.
  intros Hk. unfold is_marker. split; apply not_true_iff_false; intros Hs;
    apply orb_true_iff in Hk as [Hk|Hk].
  - by apply (HasSuffix_last k "x" "/" ".fid" "") in Hk.
  - by apply (HasSuffix_last k "x" "/" ".did" "") in Hk.
  - by apply (HasSuffix_last k "x" "d" ".fid" "/corrupte") in Hk.
  - by apply (HasSuffix_last k "x" "d" ".did" "/corrupte") in Hk.
Qed.
Lemma chunk_key k d :
  chunkDigestFromKey k = Ok d →
  HasPrefix k "chunks/" = true ∧ HasSuffix k "/" = false ∧ is_marker k = false ∧ k ≠ UsageStatsObject.
Proof.
  intros (p1 & p2 & p3 & bs & -> & -> & H1 & H2 & H3 & Hs & _)%chunkDigestFromKey_Ok.
  rewrite !has_byte_app in Hs. apply orb_false_iff in Hs as [_ [_ Hs]%orb_false_iff].
  rewrite !Join_cons by done. cbn [Join].
  assert (∀ q s, (String.length s ≤ 60)%nat → has_byte slash s = true →
            HasSuffix (q +:+ p3) s = false) as Hsuf.
  { intros q s Hl Hb. apply not_true_iff_false. intros [p Hp]%HasSuffix_spec.
    symmetry in Hp. apply string_app_longer in Hp as [t ->]; [|lia].
    by rewrite has_byte_app, Hb, orb_true_r in Hs. }
  assert ("chunks" +:+ String slash (p1 +:+ String slash (p2 +:+ String slash p3)) =
          ("chunks/" +:+ p1 +:+ "/" +:+ p2 +:+ "/") +:+ p3) as Heq by (by rewrite !string_app_assoc).
  split_and!.
  - by apply (HasPrefix_app "chunks/").
  - rewrite Heq. apply Hsuf; cbn; [lia|done].
  - rewrite Heq. apply Hsuf; cbn; [lia|done].
  - discriminate.
Qed.
Lemma index_of_backups k : HasPrefix k "backups/" = true →
  HasPrefix k "chunks/" = false ∧ HasPrefix k "indexed/" = false ∧ k ≠ UsageStatsObject.
Proof. by intros [r ->]%HasPrefix_spec. Qed.

(** ** The loaders *)

Lemma parseIndex_det k data m1 m2 i1 i2 :
  parseIndex k data m1 = Ok i1 → parseIndex k data m2 = Ok i2 → i1 = i2.
Proof.
  intros H1 H2. assert (m1 = m2) as ->; [|congruence].
  apply parseIndex_inv in H1 as (h1 & p1 & ? & ? & -> & L1 & _ & _ & -> & _).
  apply parseIndex_inv in H2 as (h2 & p2 & ? & ? & Heq & L2 & _ & _ & -> & _).
  by apply app_inj_1 in Heq as [_ ->]; [|congruence].
Qed.

Section loaders.
Context {W : Type} `{!ObjectStore W, !StoreView W, !ObjectStoreLaws W} (bucket : string) (w0 : W).

(** What an object of the inventory was loaded as: the parse of the stored bytes. *)
Definition stored_index (o : ObjectInfo) (idx : parsedIndex) : Prop :=
  ∃ x meta, contents w0 bucket !! Key o = Some x ∧ parseIndex (Key o) (o_data x) meta = Ok idx.
Definition loaded_checksum (o : ObjectInfo) (c : string) : Prop :=
  ∃ w1 w2 b, keeps_all w0 w1 ∧ getObjectMetadata bucket o w1 = (Ok (c, b), w2).

Lemma loadIndexFromS3_effect o : effect (W:=W) keeps_all (loadIndexFromS3 bucket o).
Proof. unfold loadIndexFromS3. solve_effect. Qed.
Lemma getObjectMetadata_effect o : effect (W:=W) keeps_all (getObjectMetadata bucket o).
Proof. unfold getObjectMetadata. solve_effect. Qed.

Lemma loadIndexFromS3_ok o idx w1 w2 :
  keeps_all w0 w1 → loadIndexFromS3 bucket o w1 = (Ok idx, w2) → keeps_all w1 w2 ∧ stored_index o idx.
Proof.
  intros Hk Hrun. split; [by eapply loadIndexFromS3_effect|].
  unfold loadIndexFromS3 in Hrun. inv_io.
  match goal with H : wrap _ _ (io_ReadAll ?s) = Ok _ |- _ =>
    apply wrap_Ok in H; unfold io_ReadAll in H; destruct (s_err s) eqn:He; simplify_eq end.
  eapply GetObject_read in Hrun0; [|reflexivity|done].
  apply delivers_all in Hrun0; [|done]. apply fmap_Some in Hrun0 as (y & Hy & Hd).
  eexists y, _. rewrite <-Hd, <-Hy. split; [by rewrite (keeps_all_lookup _ _ _ _ Hk)|done].
Qed.
End loaders.

(** ** Protection *)

Lemma manifests_ok backups ms :
  foldM manifest_step ∅ backups = Ok ms →
  ∀ o p, o ∈ backups → HasSuffix (Key o) "/index.json.blob" = true →
    snapshotPrefixForObject (Key o) = Ok p → p ∈ ms.
Proof.
  intros Hrun.
  apply (foldM_ind (λ done (ms : gset string), ∀ o p, o ∈ done → HasSuffix (Key o) "/index.json.blob" = true →
    snapshotPrefixForObject (Key o) = Ok p → p ∈ ms) _ _ _ _ Hrun); [set_solver|].
  clear. intros done o todo st st' _ IH Hs o' p Ho Hsuf Hp. unfold manifest_step in Hs.
  apply elem_of_app in Ho as [Ho|Ho%list_elem_of_singleton]; [|subst o'].
  - specialize (IH o' p Ho Hsuf Hp).
    destruct (HasSuffix (Key o) _); [apply res_bind_Ok in Hs as (q & _ & [= <-]); set_solver|].
    by injection Hs as <-.
  - rewrite Hsuf, Hp in Hs. injection Hs as <-. set_solver.
Qed.

Lemma set_Protected_id s : set_Protected (Protected s) s = s.
Proof. by destruct s. Qed.

Section protection.
Context {W : Type} `{!ObjectStore W, !StoreView W, !ObjectStoreLaws W} (bucket : string) (w0 : W).
Context (now days : Z).

Definition manifest_key (s : Snapshot) : string := S3Prefix s +:+ "/index.json.blob".

(** The snapshot after the refresh: its tag is the stored one when it is expired
    and has a manifest. *)
Definition refreshed (ms : gset string) (s s' : Snapshot) : Prop :=
  ∃ p, s' = set_Protected p s ∧
    (snapshotExpired s now days = Ok true → S3Prefix s ∈ ms → ∃ x,
       contents w0 bucket !! manifest_key s = Some x ∧
       p = bool_decide (get_tag (o_tags x) "protected" = "true")).

Lemma refresh_effect snapshots backups :
  effect (W:=W) keeps_all (refreshExpiredSnapshotProtection bucket snapshots backups now days).
Proof. unfold refreshExpiredSnapshotProtection, refresh_step. solve_effect. Qed.

Lemma refresh_ok snapshots backups w1 snapshots' w2 :
  keeps_all w0 w1 →
  refreshExpiredSnapshotProtection bucket snapshots backups now days w1 = (Ok snapshots', w2) →
  ∃ ms, foldM manifest_step ∅ backups = Ok ms ∧ Forall2 (refreshed ms) snapshots snapshots'.
Proof.
  intros Hk Hrun. unfold refreshExpiredSnapshotProtection in Hrun.
  apply io_bind_Ok_inv in Hrun as (ms & w1' & Hms & Hrun). injection Hms as Hms <-.
  exists ms. split; [done|].
  eapply (foldIO_ind (Forall2 (refreshed ms)) keeps_all); [exact Hrun|constructor|].
  clear Hrun w2. intros done s todo st st' wa wb _ IH Hka Hs.
  enough (∃ s', st' = st ++ [s'] ∧ refreshed ms s s' ∧ keeps_all wa wb) as (s' & -> & Hr & Hkb).
  { split; [|done]. apply Forall2_app; [done|by repeat constructor]. }
  unfold refresh_step in Hs. apply io_bind_Ok_inv in Hs as (ex & wa' & Hex & Hs).
  injection Hex as Hex <-. destruct (negb ex || negb _) eqn:E.
  - injection Hs as <- <-. exists s. split_and!; [done| |done]. exists (Protected s).
    rewrite set_Protected_id. split; [done|]. intros Hex' Hin. rewrite Hex in Hex'. injection Hex' as ->.
    by rewrite bool_decide_eq_true_2 in E.
  - apply io_bind_Ok_inv in Hs as (tags & wb' & Ht & Hs). injection Hs as <- <-.
    apply wrap_io_Ok_inv in Ht. eexists. split_and!; [done| |by eapply GetObjectTagging_effect].
    eexists. split; [done|]. intros _ _.
    apply GetObjectTagging_read in Ht as (x & Hx & <-). exists x. split; [|done].
    by rewrite <-Hx, (keeps_all_lookup w1 wa), (keeps_all_lookup w0 w1).
Qed.
End protection.

(** The manifest of a well-formed snapshot is inventoried under its own prefix. *)
Lemma manifest_prefix s :
  wf_snapshot s = true →
  snapshotPrefixForObject (manifest_key s) = Ok (S3Prefix s) ∧
  HasPrefix (manifest_key s) "backups/" = true ∧
  HasSuffix (manifest_key s) "/index.json.blob" = true ∧ HasSuffix (manifest_key s) "/" = false.
Proof.
  intros Hwf. unfold manifest_key, S3Prefix. unfold wf_snapshot in Hwf. reflect_bools.
  rewrite string_app_assoc. split_and!.
  - apply snapshotPrefixForObject_Ok. eexists _, "index.json.blob". split; [done|]. split_and!.
    + by apply snapshot_name_no_slash.
    + apply snapshot_name_nonempty.
    + done.
  - apply HasPrefix_app.
  - rewrite <-string_app_assoc. apply HasSuffix_app.
  - apply not_true_iff_false. intros [p Hp]%HasSuffix_spec. revert Hp.
    change ("/index.json.blob") with ("/index.json.blo" +:+ "b"). rewrite <-!string_app_assoc.
    by intros Hp%string_snoc_inj.
Qed.

(** ** What the mark phase establishes *)

Record inventory := mkInventory {
  inv_backups : list ObjectInfo;
  inv_indexed : list ObjectInfo;
  inv_chunks : list ObjectInfo;
  inv_snapshots : list Snapshot;      (* after the refresh of the protection tags *)
  inv_now : Z;
  inv_grace : Z;
}.

Section marked.
Context {W : Type} `{!ObjectStore W, !Platform W, !MapRange}.
Context `{!StoreView W, !FileView W, !ObjectStoreLaws W, !PlatformLaws W} (fl : gcFlags).
#[local] Abbreviation bucket := (bucketFlag fl).

(** The list is what the bucket holds under the prefix, directory markers aside. *)
Definition inventoried (w : W) (prefix : string) (objs : list ObjectInfo) : Prop :=
  (∀ o, o ∈ objs → HasPrefix (Key o) prefix = true ∧
     ∃ x, contents w bucket !! Key o = Some x ∧ describes o x) ∧
  (∀ k x, contents w bucket !! k = Some x → HasPrefix k prefix = true → HasSuffix k "/" = false →
     ∃ o, o ∈ objs ∧ Key o = k ∧ describes o x).

(** The time a run from [w] reads. *)
Definition run_clock (w : W) (now : Z) : Prop :=
  ∃ l w', gc_inventory fl w = (Ok (Some l), w') ∧ ls_now l = now.

Record marked (w : W) (inv : inventory) (plan : gcPlan) : Prop := {
  md_backups : inventoried w "backups/" (inv_backups inv);
  md_indexed : inventoried w "indexed/" (inv_indexed inv);
  md_chunks : inventoried w "chunks/" (inv_chunks inv);
  md_wf s : s ∈ inv_snapshots inv → wf_snapshot s = true;
  md_protected s x : s ∈ inv_snapshots inv →
    expired_now (inv_now inv) (retentionDays fl) s = true →
    contents w bucket !! manifest_key s = Some x → get_tag (o_tags x) "protected" ≠ "true";
  md_listed s x : wf_snapshot s = true → contents w bucket !! manifest_key s = Some x →
    ∃ s', s' ∈ inv_snapshots inv ∧ S3Prefix s' = S3Prefix s ∧ BackupTime s' = BackupTime s ∧
      (snapshotExpired s (inv_now inv) (retentionDays fl) = Ok true →
         Protected s' = bool_decide (get_tag (o_tags x) "protected" = "true"));
  md_grace : hoursDuration (chunkGraceHours fl) = Ok (inv_grace inv);
  md_now : run_clock w (inv_now inv);
  md_plan : plan_spec (stored_index bucket w) (loaded_checksum bucket w) (inv_snapshots inv)
    (inv_backups inv) (inv_indexed inv) (inv_chunks inv) (inv_now inv) (retentionDays fl)
    (inv_grace inv) plan;
}.

Lemma inventoried_keeps w w' prefix objs :
  keeps_all w w' → inventoried w' prefix objs → inventoried w prefix objs.
Proof.
  intros Hk [Hs Hc]. split.
  - intros o [Hp (x & Hx & Hd)]%Hs. rewrite (keeps_all_lookup _ _ _ _ Hk) in Hx. eauto.
  - intros k x Hx. apply Hc. by rewrite (keeps_all_lookup _ _ _ _ Hk).
Qed.
Lemma listed_inventoried w prefix md objs w' :
  listObjectsFully bucket (mkListOptions prefix md) w = (Ok objs, w') →
  keeps_all w w' ∧ inventoried w prefix objs.
Proof.
  intros (Hk & Hs & Hc)%listObjectsFully_Ok. split; [done|]. split; [|done].
  intros o Ho. destruct (Hs o Ho) as (? & _ & ?). done.
Qed.

Lemma refreshed_wf now days ms s s' (w : W) :
  refreshed bucket w now days ms s s' → wf_snapshot s = true → wf_snapshot s' = true.
Proof. by intros (p & -> & _). Qed.

(** After the refresh no expired snapshot is unprotected against its stored tag. *)
Lemma refreshed_protected (w : W) now days backups ms snaps snaps' :
  inventoried w "backups/" backups → foldM manifest_step ∅ backups = Ok ms →
  (∀ s, s ∈ snaps → wf_snapshot s = true) →
  Forall2 (refreshed bucket w now days ms) snaps snaps' →
  ∀ s' x, s' ∈ snaps' → expired_now now days s' = true →
    contents w bucket !! manifest_key s' = Some x → get_tag (o_tags x) "protected" ≠ "true".
Proof.
  intros [_ Hinv] Hms Hwf Hall s' x Hs' Hex Hx.
  destruct (list_elem_of_lookup_1 _ _ Hs') as [i Hi].
  destruct (Forall2_lookup_r _ _ _ _ _ Hall Hi) as (s & Hsi & p & -> & Hp).
  assert (wf_snapshot s = true) as Hw by (eapply Hwf, list_elem_of_lookup_2, Hsi).
  destruct (manifest_prefix s Hw) as (Hpre & Hb & Hsuf & Hsl).
  unfold expired_now in Hex. change (snapshotExpired (set_Protected p s)) with (snapshotExpired s) in Hex.
  destruct (snapshotExpired s now days) as [b| |] eqn:Es; try done.
  apply andb_true_iff in Hex as [-> Hp']. cbn in Hp'.
  change (manifest_key (set_Protected p s)) with (manifest_key s) in Hx.
  destruct (Hinv (manifest_key s) x Hx Hb Hsl) as (o & Ho & Hk & _).
  destruct Hp as (x' & Hx' & ->); [done| |].
  - eapply (manifests_ok _ _ Hms o); rewrite ?Hk; done.
  - rewrite Hx in Hx'. simplify_eq. by apply negb_true_iff, bool_decide_eq_false_1 in Hp'.
Qed.

(** A snapshot with a manifest is listed, and has the protection of its stored tag
    when it is expired. *)
Lemma refreshed_listed (w : W) now days backups ms snaps snaps' s x :
  inventoried w "backups/" backups → foldM manifest_step ∅ backups = Ok ms →
  SnapshotsFromObjects backups bucket true = Ok snaps →
  Forall2 (refreshed bucket w now days ms) snaps snaps' →
  wf_snapshot s = true → contents w bucket !! manifest_key s = Some x →
  ∃ s', s' ∈ snaps' ∧ S3Prefix s' = S3Prefix s ∧ BackupTime s' = BackupTime s ∧
    (snapshotExpired s now days = Ok true → Protected s' = bool_decide (get_tag (o_tags x) "protected" = "true")).
Proof.
  intros [_ Hinv] Hms Hsnaps Hall Hw Hx. destruct (manifest_prefix s Hw) as (Hpre & Hb & Hsuf & Hsl).
  destruct (Hinv (manifest_key s) x Hx Hb Hsl) as (o & Ho & Hk & _).
  destruct (SnapshotsFromObjects_member _ _ _ o s "index.json.blob" Hsnaps Ho Hw)
    as (s1 & Hs1 & H1 & H2 & H3); [done|by rewrite Hk|].
  apply list_elem_of_lookup_1 in Hs1 as [i Hi].
  destruct (Forall2_lookup_l _ _ _ _ _ Hall Hi) as (s' & Hi' & p & -> & Hp).
  assert (S3Prefix s1 = S3Prefix s) as Hpx by (unfold S3Prefix, snapshot_name; by rewrite H1, H2, H3).
  exists (set_Protected p s1). split; [by eapply list_elem_of_lookup_2|]. split; [done|]. split; [done|].
  intros Hex. cbn. destruct Hp as (x' & Hx' & ->).
  - unfold snapshotExpired in *. by rewrite H2.
  - rewrite Hpx. eapply (manifests_ok _ _ Hms o); rewrite ?Hk; done.
  - unfold manifest_key in Hx'. rewrite Hpx in Hx'. unfold manifest_key in Hx. rewrite Hx in Hx'. by simplify_eq.
Qed.

Lemma gc_setup_effect : effect (W:=W) keeps_all (gc_setup fl).
Proof. unfold gc_setup. solve_effect. Qed.
Lemma gc_setup_grace (w : W) grace w' :
  gc_setup fl w = (Ok grace, w') → hoursDuration (chunkGraceHours fl) = Ok grace.
Proof.
  unfold gc_setup. destruct (flags_missing fl); [done|]. intros Hrun.
  apply io_bind_Ok_inv in Hrun as (g & w1 & Hg & Hrun). injection Hg as Hg <-. apply wrap_Ok in Hg.
  do 3 apply io_bind_Ok_inv in Hrun as (? & ? & _ & Hrun). injection Hrun as <- _. done.
Qed.

Lemma gc_inventory_effect : effect (W:=W) keeps_all (gc_inventory fl).
Proof.
  unfold gc_inventory. pose proof gc_setup_effect. pose proof (listObjectsFully_effect (W:=W)). solve_effect.
Qed.
Lemma gc_mark_effect : effect (W:=W) keeps_all (gc_mark fl).
Proof.
  unfold gc_mark, buildGCPlan, mark_backup, mark_indexed. pose proof gc_inventory_effect.
  pose proof (refresh_effect (W:=W)).
  pose proof (loadIndexFromS3_effect (W:=W)). pose proof (getObjectMetadata_effect (W:=W)).
  solve_effect.
Qed.

(** What the inventory holds. *)
Lemma gc_inventory_some w l w' :
  gc_inventory fl w = (Ok (Some l), w') →
  hoursDuration (chunkGraceHours fl) = Ok (ls_grace l) ∧
  inventoried w "backups/" (ls_backups l) ∧ inventoried w "indexed/" (ls_indexed l) ∧
  inventoried w "chunks/" (ls_chunks l) ∧
  SnapshotsFromObjects (ls_backups l) bucket true = Ok (ls_snapshots l).
Proof.
  unfold gc_inventory. intros Hrun.
  apply io_bind_Ok_inv in Hrun as (grace & w0 & Hset & Hrun). pose proof (gc_setup_grace _ _ _ Hset) as Hg.
  apply gc_setup_effect in Hset as K0.
  apply io_bind_Ok_inv in Hrun as (ex & w1 & Hb%wrap_io_Ok_inv%BucketExists_effect & Hrun).
  destruct (negb ex); [done|].
  apply io_bind_Ok_inv in Hrun as (backups & w2 & [K2 Ib]%wrap_io_Ok_inv%listed_inventoried & Hrun).
  apply io_bind_Ok_inv in Hrun as (snaps & w2' & Hs & Hrun). injection Hs as Hs <-. apply wrap_Ok in Hs.
  destruct (_ =? _)%nat; [done|].
  apply io_bind_Ok_inv in Hrun as (indexed & w3 & [K3 Ii]%wrap_io_Ok_inv%listed_inventoried & Hrun).
  apply io_bind_Ok_inv in Hrun as (chunks & w4 & [K4 Ic]%wrap_io_Ok_inv%listed_inventoried & Hrun).
  apply io_bind_Ok_inv in Hrun as (now & w5 & _ & [= <- _]). cbn.
  assert (keeps_all w w1) as K01 by (by transitivity w0).
  assert (keeps_all w w2) as K02 by (by transitivity w1).
  assert (keeps_all w w3) as K03 by (by transitivity w2).
  split_and!; [done|by apply (inventoried_keeps w w1)|by apply (inventoried_keeps w w2)|by apply (inventoried_keeps w w3)|done].
Qed.
(** An inventory without snapshots lists no object. *)
Lemma gc_inventory_none w w' k x :
  gc_inventory fl w = (Ok None, w') → contents w bucket !! k = Some x →
  HasPrefix k "backups/" = true → HasSuffix k "/" = true.
Proof.
  intros Hrun Hx Hk. apply not_false_iff_true. intros Hsl. unfold gc_inventory in Hrun.
  apply io_bind_Ok_inv in Hrun as (grace & w0 & K0%gc_setup_effect & Hrun).
  apply io_bind_Ok_inv in Hrun as (ex & w1 & Hb%wrap_io_Ok_inv%BucketExists_effect & Hrun).
  destruct (negb ex); [done|].
  apply io_bind_Ok_inv in Hrun as (backups & w2 & [K2 Ib]%wrap_io_Ok_inv%listed_inventoried & Hrun).
  apply io_bind_Ok_inv in Hrun as (snaps & w2' & Hs & Hrun). injection Hs as Hs <-. apply wrap_Ok in Hs.
  destruct (Nat.eqb_spec (length snaps) 0) as [Hl|].
  - apply nil_length_inv in Hl as ->. apply (inventoried_keeps w) in Ib; [|by transitivity w0].
    destruct Ib as [_ Hc]. destruct (Hc k x Hx Hk Hsl) as (o & Ho & <- & _).
    by rewrite (SnapshotsFromObjects_nil _ _ _ Hs Ho) in Hk.
  - clear -Hrun. repeat (apply io_bind_Ok_inv in Hrun as (? & ? & _ & Hrun)). done.
Qed.

Lemma gc_mark_marked w plan w' :
  gc_mark fl w = (Ok (Some plan), w') → keeps_all w w' ∧ ∃ inv, marked w inv plan.
Proof.
  intros Hrun. split; [by eapply gc_mark_effect|]. unfold gc_mark in Hrun.
  apply io_bind_Ok_inv in Hrun as (inv & w1 & Hinv & Hrun). destruct inv as [l|]; [|done].
  apply gc_inventory_effect in Hinv as K1.
  destruct (gc_inventory_some _ _ _ Hinv) as (Hg & Ib & Ii & Ic & Hs).
  apply io_bind_Ok_inv in Hrun as (snaps' & w2 & Hr%wrap_io_Ok_inv & Hrun).
  apply io_bind_Ok_inv in Hrun as (plan' & w3 & Hp%wrap_io_Ok_inv & Hrun). injection Hrun as <- <-.
  apply refresh_effect in Hr as K2. assert (keeps_all w w2) as K02 by (by transitivity w1).
  apply (refresh_ok bucket w) in Hr as (ms & Hms & Hall); [|done].
  exists (mkInventory (ls_backups l) (ls_indexed l) (ls_chunks l) snaps' (ls_now l) (ls_grace l)).
  assert (∀ s, s ∈ ls_snapshots l → wf_snapshot s = true) as Hwf by (intros; by eapply SnapshotsFromObjects_wf).
  split; cbn; try done.
  - intros s' (i & Hi)%list_elem_of_lookup_1.
    destruct (Forall2_lookup_r _ _ _ _ _ Hall Hi) as (s & Hsi & Href).
    eapply refreshed_wf; [exact Href|]. by eapply Hwf, list_elem_of_lookup_2.
  - by eapply refreshed_protected.
  - intros s x Hw Hx. eapply refreshed_listed; eauto.
  - exists l, w1. done.
  - eapply buildGCPlan_valid with (R:=keeps_all) in Hp as [_ Hp]; [exact Hp|apply _|..].
    + intros o idx wa wb Hk Hl. apply (loadIndexFromS3_ok bucket w) in Hl; [done|by transitivity w2].
    + intros o c wa wb Hk Hl. apply io_bind_Ok_inv in Hl as ([c' b] & wc & Hl & Hr'). injection Hr' as <- <-.
      split; [by eapply getObjectMetadata_effect|]. exists wa, wc, b. split; [by transitivity w2|done].
Qed.
Lemma gc_mark_none w w' :
  gc_mark fl w = (Ok None, w') → ∃ w1, gc_inventory fl w = (Ok None, w1).
Proof.
  unfold gc_mark. intros Hrun. apply io_bind_Ok_inv in Hrun as (inv & w1 & Hinv & Hrun).
  destruct inv as [l|]; [|eauto]. by do 2 apply io_bind_Ok_inv in Hrun as (? & ? & _ & Hrun).
Qed.

(** ** What the rest of the run may do *)

Lemma publishInvalidation_effect : effect (W:=W) keeps_all (publishInvalidation fl).
Proof. unfold publishInvalidation. pose proof (PublishCacheInvalidation_effect (W:=W)). solve_effect. Qed.

(** The markers of a report: beside the indexes that refer to a missing chunk. *)
Definition marks (plan : gcPlan) (k : string) : Prop :=
  ∃ d refs k0, missingChunks plan !! d = Some refs ∧ k0 ∈ refs ∧ k = corrupted_marker k0.
Lemma unmarked plan k : is_marker k = false → ¬ marks plan k.
Proof.
  intros Hk (d & refs & k0 & _ & _ & ->). unfold is_marker, corrupted_marker in Hk. by rewrite HasSuffix_app in Hk.
Qed.
Lemma report_missing_effect plan :
  effect (W:=W) (keeps (λ b k, b ≠ bucket ∨ ¬ marks plan k)) (report_missing fl plan).
Proof.
  pose proof publishInvalidation_effect. unfold report_missing. apply effect_bind; [apply _| |solve_effect].
  apply effect_foldIO_in; [apply _|]. intros _ [d refs] Hd%elem_of_map_range.
  apply effect_foldIO_in; [apply _|]. intros _ k0 Hk0. unfold mark_corrupted. solve_effect.
  intros w r w' Hr%PutObject_effect. eapply keeps_weaken; [|exact Hr].
  intros b k [?|Hm]; [by left|]. right. intros ->. apply Hm. by exists d, refs, k0.
Qed.
Lemma report_missing_present plan : effect (W:=W) loses_nothing (report_missing fl plan).
Proof. pose proof publishInvalidation_effect. unfold report_missing, mark_corrupted. solve_effect. Qed.
Lemma report_missing_fails plan (w w' : W) u : report_missing fl plan w ≠ (Ok u, w').
Proof. unfold report_missing. intros Hrun. by repeat (apply io_bind_Ok_inv in Hrun as (? & ? & _ & Hrun)). Qed.

(** The sweep, with what surrounds it. *)
Lemma gc_sweep_cases plan (w : W) r w' :
  gc_sweep fl plan w = (r, w') →
  (keeps_all w w' ∧ r ≠ Ok tt) ∨
  ∃ w1 r1 w2, keeps_all w w1 ∧ executeGCPlan bucket plan w1 = (r1, w2) ∧
    keeps (λ b k, b ≠ bucket ∨ k ≠ UsageStatsObject) w2 w' ∧ (r = Ok tt → r1 = Ok tt).
Proof.
  pose proof publishInvalidation_effect as Hp. unfold gc_sweep. intros Hrun.
  apply io_bind_inv in Hrun as [(u & w1 & H1%Hp & Hrun)|[(e & H1%Hp & ->)|(p & H1%Hp & ->)]];
    [|by left..].
  right. exists w1. destruct (executeGCPlan bucket plan w1) as [r1 w2] eqn:Ex. exists r1, w2.
  split; [done|]. split; [done|].
  assert (PreOrder (keeps (W:=W) (λ b k, b ≠ bucket ∨ k ≠ UsageStatsObject))) as Hpre by apply _.
  assert (effect (keeps (λ b k, b ≠ bucket ∨ k ≠ UsageStatsObject)) (publishInvalidation fl)) as Hpk
    by (by apply effect_keeps).
  apply io_bind_inv in Hrun as [(v & w2' & Ht & Hrun)|[(e & Ht & ->)|(p & Ht & ->)]];
    unfold try in Ht; rewrite Ex in Ht; destruct r1 as [[]|e1|p1]; simplify_eq.
  - split; [|done]. eapply effect_bind in Hrun; [exact Hrun|done|done|].
    intros _. apply effect_bind; [done|apply writeUsageStats_effect|]. by intros _.
  - split.
    + eapply effect_bind in Hrun; [exact Hrun|done|done|]. intros _. by apply effect_fail.
    + intros ->. by apply io_bind_Ok_inv in Hrun as (? & ? & _ & ?).
  - by split.
Qed.

(** Releasing the lock changes neither the outcome nor the store. *)
Lemma then_release {A} (m : io W A) n w r w' :
  (_ ← m; lift_st (mutex_Release n)) w = (r, w') →
  ∃ r0 w0, m w = (r0, w0) ∧ keeps_all w0 w' ∧ (r = Ok tt → ∃ a, r0 = Ok a).
Proof.
  intros [(a & w1 & Hm & Hr)|[(e & Hm & ->)|(p & Hm & ->)]]%io_bind_inv; eexists _, _;
    (split; [exact Hm|]); [|done..]. split; [|eauto].
  unfold lift_st in Hr. destruct (mutex_Release n w1) as [u w2] eqn:E. injection Hr as <- <-.
  by apply mutex_Release_effect in E.
Qed.

(** The ways a run can end. *)
Lemma gc_main_cases w r w' :
  gc_main fl w = (r, w') →
  (keeps_all w w' ∧ (r = Ok tt → ∃ w1, gc_mark fl w = (Ok None, w1))) ∨
  ∃ plan inv w1, gc_mark fl w = (Ok (Some plan), w1) ∧ marked w inv plan ∧
    ((missingChunks plan ≠ ∅ ∧ r ≠ Ok tt ∧ loses_nothing w w' ∧
        keeps (λ b k, b ≠ bucket ∨ ¬ marks plan k) w w') ∨
     (missingChunks plan = ∅ ∧ ∃ w2 r1 w3, keeps_all w w2 ∧ executeGCPlan bucket plan w2 = (r1, w3) ∧
        keeps (λ b k, b ≠ bucket ∨ k ≠ UsageStatsObject) w3 w' ∧ (r = Ok tt → r1 = Ok tt))).
Proof.
  unfold gc_main. intros Hrun.
  apply io_bind_inv in Hrun as [(plan & w1 & Hm & Hrun)|[(e & Hm & ->)|(p & Hm & ->)]];
    [|left; split; [by eapply gc_mark_effect|done]..].
  destruct plan as [plan|].
  2:{ left. split; [|eauto]. apply gc_mark_effect in Hm. transitivity w1; [done|].
      unfold lift_st in Hrun. destruct (mutex_Release _ w1) as [u w2] eqn:E. injection Hrun as _ <-.
      by apply mutex_Release_effect in E. }
  destruct (gc_mark_marked _ _ _ Hm) as [K1 [inv Hmk]].
  apply then_release in Hrun as (r' & w0 & Hrun & Krel & Hok). unfold gc_act in Hrun.
  destruct (Z.ltb_spec 0 (Z.of_nat (size (missingChunks plan)))) as [Hs|Hs].
  - right. exists plan, inv, w1. split; [done|]. split; [done|]. left. split_and!.
    + apply map_size_non_empty_iff. lia.
    + intros [[] ->]%Hok. by apply report_missing_fails in Hrun.
    + transitivity w1; [by apply keeps_all_loses_nothing|].
      transitivity w0; [by eapply report_missing_present|by apply keeps_all_loses_nothing].
    + transitivity w1; [by apply keeps_all_keeps|].
      transitivity w0; [by eapply report_missing_effect|by apply keeps_all_keeps].
  - assert (missingChunks plan = ∅) as He by (apply map_size_empty_iff; lia).
    apply gc_sweep_cases in Hrun as [[K2 Hr]|(w2 & r1 & w3 & K2 & Hx & K3 & Hr)].
    + left. split; [transitivity w1; [done|by transitivity w0]|]. by intros [[] ->]%Hok.
    + right. exists plan, inv, w1. split; [done|]. split; [done|]. right. split; [done|].
      exists w2, r1, w3. split; [by transitivity w1|]. split; [done|]. split.
      * transitivity w0; [done|by apply keeps_all_keeps].
      * intros [[] ->]%Hok. by apply Hr.
Qed.

(** What a plan may contain. *)
Lemma plan_key_kind w inv plan k :
  marked w inv plan → k ∈ plan_keys plan →
  (HasPrefix k "backups/" = true ∧
     key_expired (inv_now inv) (retentionDays fl) (inv_snapshots inv) k = true) ∨
  HasPrefix k "indexed/" = true ∨
  (HasPrefix k "chunks/" = true ∧ unreferenced (knownChunks plan) k = true ∧
     ∃ o, o ∈ inv_chunks inv ∧ Key o = k ∧ young (inv_now inv) (inv_grace inv) o = false).
Proof.
  intros [[Hb _] [Hi _] [Hc _] _ _ _ _ _ Hp]. unfold plan_keys.
  rewrite !fmap_app, !elem_of_app, !list_elem_of_fmap. intros [(o & -> & Ho)|[(o & -> & Ho)|(o & -> & Ho)]].
  - left. rewrite (ps_backup _ _ _ _ _ _ _ _ _ _ Hp) in Ho.
    apply list_elem_of_In, filter_In in Ho as [Ho He]. apply list_elem_of_In in Ho.
    split; [by apply Hb|done].
  - right; left. apply (ps_indexed _ _ _ _ _ _ _ _ _ _ Hp) in Ho as [Ho _]. by apply Hi.
  - right; right. rewrite (ps_chunks _ _ _ _ _ _ _ _ _ _ Hp) in Ho.
    apply list_elem_of_In, filter_In in Ho as [Ho [He Hy]%andb_true_iff]. apply list_elem_of_In in Ho.
    split; [by apply Hc|]. split; [done|]. exists o. by apply negb_true_iff in Hy.
Qed.

(** A surviving index was loaded, and refers to the digests it was loaded with. *)
Lemma surviving_known w inv plan k x meta idx :
  marked w inv plan → HasPrefix k "backups/" = true → contents w bucket !! k = Some x →
  parseIndex k (o_data x) meta = Ok idx → k ∉ Key <$> backupObjects plan →
  ∀ d, d ∈ digests idx → is_Some (knownChunks plan !! d).
Proof.
  intros [[_ Hb] _ _ _ _ _ _ _ Hp] Hk Hx Hidx Hnot d Hd.
  assert (IsIndex k = true) as Hi by (apply parseIndex_inv in Hidx as (? & ? & ? & ? & _ & _ & Hc & _);
    unfold IsIndex; destruct Hc as [? ->|? -> ->]; by rewrite ?orb_true_r).
  destruct (index_key k Hi) as [Hsl _].
  destruct (Hb k x Hx Hk Hsl) as (o & Ho & <- & _).
  assert (live (inv_snapshots inv) (inv_now inv) (retentionDays fl) o = true) as Hl.
  { unfold live. rewrite Hi, andb_true_r. apply negb_true_iff, not_true_iff_false. intros He.
    apply Hnot, list_elem_of_fmap_2. rewrite (ps_backup _ _ _ _ _ _ _ _ _ _ Hp).
    apply list_elem_of_In, filter_In. by rewrite <-list_elem_of_In. }
  destruct (ps_known _ _ _ _ _ _ _ _ _ _ Hp o Ho Hl) as (idx' & (x' & meta' & Hx' & Hidx') & _ & Hds).
  rewrite Hx in Hx'. injection Hx' as <-.
  pose proof (parseIndex_det _ _ _ _ _ _ Hidx Hidx') as ->.
  destruct (Hds d Hd) as (refs & Hr & _). eauto.
Qed.

(** A chunk the plan refers to is not in the plan. *)
Lemma referenced_kept w inv plan ck d :
  marked w inv plan → chunkDigestFromKey ck = Ok d → is_Some (knownChunks plan !! d) → ck ∉ plan_keys plan.
Proof.
  intros Hm Hck Hd Hin. destruct (chunk_key ck d Hck) as (Hpre & _).
  apply HasPrefix_spec in Hpre as [t Ht].
  destruct (plan_key_kind _ _ _ _ Hm Hin) as [[Hb _]|[Hi|(_ & Hu & _)]].
  - by rewrite Ht in Hb.
  - by rewrite Ht in Hi.
  - unfold unreferenced in Hu. rewrite Hck in Hu. apply bool_decide_eq_true_1 in Hu.
    rewrite Hu in Hd. by destruct Hd.
Qed.
End marked.

(** ** The theorems *)

Section safety.
Context {W : Type} `{!ObjectStore W, !Platform W, !MapRange}.
Context `{!StoreView W, !FileView W, !ObjectStoreLaws W, !PlatformLaws W} (fl : gcFlags).
#[local] Abbreviation bucket := (bucketFlag fl).

(** The effect of a sweep on one key. *)
Lemma sweep_key plan (w w2 w3 w' : W) r1 k :
  keeps_all w w2 → executeGCPlan bucket plan w2 = (r1, w3) →
  keeps (λ b k, b ≠ bucket ∨ k ≠ UsageStatsObject) w3 w' → k ≠ UsageStatsObject →
  contents w' bucket !! k = contents w3 bucket !! k ∧
  (contents w3 bucket !! k = contents w bucket !! k ∨
   (k ∈ plan_keys plan ∧ contents w3 bucket !! k = None)).
Proof.
  intros K2 Hx K3 Hk. split; [apply K3; by right|].
  rewrite <-(keeps_all_lookup _ _ _ _ K2).
  destruct (executeGCPlan_effect _ _ _ _ _ Hx bucket k) as [?|[[_ ?] ?]]; auto.
Qed.

Lemma referential_integrity w r w' k x meta idx d ck :
  gc_main fl w = (r, w') → HasPrefix k "backups/" = true → contents w' bucket !! k = Some x →
  parseIndex k (o_data x) meta = Ok idx → d ∈ digests idx → chunkDigestFromKey ck = Ok d →
  contents w' bucket !! ck = contents w bucket !! ck.
Proof.
  intros Hrun Hk Hx Hidx Hd Hck. destruct (chunk_key ck d Hck) as (Hpre & _ & Hmk & Hus).
  apply gc_main_cases in Hrun as [[K _]|(plan & inv & w1 & _ & Hm & [(_ & _ & KL & K)|(_ & w2 & r1 & w3 & K2 & Hex & K3 & _)])].
  - by rewrite (keeps_all_lookup _ _ _ _ K).
  - apply K. right. by apply unmarked.
  - destruct (index_of_backups k Hk) as (Hkc & Hki & Hku).
    destruct (sweep_key _ _ _ _ _ _ k K2 Hex K3 Hku) as [Ek Hk3].
    destruct (sweep_key _ _ _ _ _ _ ck K2 Hex K3 Hus) as [-> [->|[Hin Hgone]]]; [done|].
    destruct (contents w bucket !! ck) as [y|] eqn:Hy; [|done]. exfalso.
    assert (∀ k', k' ∈ Key <$> (backupObjects plan ++ indexedObjects plan) → contents w3 bucket !! k' = None) as Hall.
    { eapply (executeGCPlan_order _ _ _ _ _ ck Hex).
      - rewrite (keeps_all_lookup _ _ _ _ K2). congruence.
      - apply HasPrefix_spec in Hpre as [t Ht]. rewrite fmap_app, elem_of_app, !list_elem_of_fmap.
        destruct Hm as [[Hb _] [Hi _] _ _ _ _ _ _ Hp].
        intros [(o & -> & Ho)|(o & -> & Ho)].
        + rewrite (ps_backup _ _ _ _ _ _ _ _ _ _ Hp) in Ho.
          apply list_elem_of_In, filter_In in Ho as [Ho _]. apply list_elem_of_In in Ho.
          destruct (Hb o Ho) as [Hpb _]. by rewrite Ht in Hpb.
        + apply (ps_indexed _ _ _ _ _ _ _ _ _ _ Hp) in Ho as [Ho _].
          destruct (Hi o Ho) as [Hpb _]. by rewrite Ht in Hpb. }
    rewrite Ek in Hx. destruct Hk3 as [Hk3|[_ Hk3]]; [|congruence]. rewrite Hk3 in Hx.
    eapply (referenced_kept fl w inv plan ck d Hm Hck); [|done].
    eapply (surviving_known fl w inv plan k); try done.
    intros Hin'. rewrite <-Hk3, Hall in Hx; [done|]. rewrite fmap_app, elem_of_app. by left.
Qed.

(** C3. Referential integrity, whatever fails during a run: no chunk of an index
    that is still there afterwards has been touched. *)
Theorem gc_referential_integrity w r w' k x meta idx d ck
    (Hrun : gc_main fl w = (r, w'))
    (Hk : HasPrefix k "backups/" = true) (Hx : contents w' bucket !! k = Some x)
    (Hidx : parseIndex k (o_data x) meta = Ok idx) (Hd : d ∈ digests idx)
    (Hck : chunkDigestFromKey ck = Ok d) :
  contents w' bucket !! ck = contents w bucket !! ck.
Proof. by eapply referential_integrity. Qed.

(** C12. A run that reports success leaves a complete datastore: every index has
    every chunk it lists. *)
Theorem gc_success_complete w w' k x meta idx d
    (Hrun : gc_main fl w = (Ok tt, w'))
    (Hk : HasPrefix k "backups/" = true) (Hx : contents w' bucket !! k = Some x)
    (Hidx : parseIndex k (o_data x) meta = Ok idx) (Hd : d ∈ digests idx) :
  ∃ ck y, chunkDigestFromKey ck = Ok d ∧ contents w' bucket !! ck = Some y.
Proof.
  assert (HasSuffix k "/" = false) as Hsl.
  { by eapply index_key, parseIndex_IsIndex. }
  pose proof Hrun as Hcases. apply gc_main_cases in Hcases
    as [[K Hn]|(plan & inv & w1 & _ & Hm & [(_ & ? & _)|(He & w2 & r1 & w3 & K2 & Hex & K3 & Hr)])]; [|done|].
  - rewrite (keeps_all_lookup _ _ _ _ K) in Hx.
    destruct (Hn eq_refl) as [wn [w0 Hnone]%gc_mark_none]. pose proof (gc_inventory_none _ _ _ _ _ Hnone Hx Hk). congruence.
  - destruct (index_of_backups k Hk) as (_ & _ & Hku).
    destruct (sweep_key _ _ _ _ _ _ k K2 Hex K3 Hku) as [Ek Hk3].
    rewrite Ek in Hx. destruct Hk3 as [Hk3|[_ Hk3]]; [|congruence].
    assert (k ∉ Key <$> backupObjects plan) as Hnot.
    { intros Hin. rewrite Hr in Hex by done.
      rewrite (executeGCPlan_Ok _ _ _ _ Hex) in Hx; [done|]. unfold plan_keys.
      rewrite fmap_app, elem_of_app. by left. }
    rewrite Hk3 in Hx.
    destruct (surviving_known _ _ _ _ _ _ _ _ Hm Hk Hx Hidx Hnot d Hd) as [refs Hrefs].
    pose proof (md_plan _ _ _ _ Hm) as Hp.
    assert (d ∈ existingChunks plan) as Hexist.
    { destruct (decide (d ∈ existingChunks plan)) as [|Hne]; [done|].
      assert (missingChunks plan !! d = Some refs) as Hmiss by (by apply (ps_missing _ _ _ _ _ _ _ _ _ _ Hp)).
      by rewrite He, lookup_empty in Hmiss. }
    apply (ps_existing _ _ _ _ _ _ _ _ _ _ Hp) in Hexist as [_ (o & Ho & Hck)].
    destruct (md_chunks _ _ _ _ Hm) as [Hc _]. destruct (Hc o Ho) as (_ & y & Hy & _).
    exists (Key o), y. split; [done|]. rewrite <-Hy.
    rewrite (referential_integrity _ _ _ k x meta idx d (Key o) Hrun); try done. by rewrite Ek, Hk3.
Qed.

(** C4. An object under [backups/] that a run removes belonged to a snapshot
    older than the retention, by the clock of the run, whose manifest - if the
    bucket holds one - is not tagged protected. *)
Theorem gc_removes_only_expired_unprotected w r w' k x
    (Hrun : gc_main fl w = (r, w')) (Hk : HasPrefix k "backups/" = true)
    (Hx : contents w bucket !! k = Some x) (Hgone : contents w' bucket !! k = None) :
  ∃ s now, run_clock fl w now ∧
    snapshotPrefixForObject k = Ok (S3Prefix s) ∧
    snapshotExpired s now (retentionDays fl) = Ok true ∧
    ∀ m, contents w bucket !! manifest_key s = Some m → get_tag (o_tags m) "protected" ≠ "true".
Proof.
  destruct (index_of_backups k Hk) as (Hkc & Hki & Hku).
  apply gc_main_cases in Hrun as [[K _]|(plan & inv & w1 & _ & Hm & [(_ & _ & KL & K)|(_ & w2 & r1 & w3 & K2 & Hex & K3 & _)])].
  - rewrite (keeps_all_lookup _ _ _ _ K) in Hgone. congruence.
  - destruct (KL bucket k) as [y Hy]; [by exists x|]. congruence.
  - destruct (sweep_key _ _ _ _ _ _ k K2 Hex K3 Hku) as [Ek [Hk3|[Hin _]]]; [congruence|].
    destruct (plan_key_kind _ _ _ _ _ Hm Hin) as [[_ He]|[?|[? _]]]; [|congruence..].
    unfold key_expired in He. destruct (snapshotPrefixForObject k) as [p| |] eqn:Hp; try done.
    unfold prefix_expired in He. apply existsb_exists in He as (s & Hs & [He Hsp]%andb_true_iff).
    apply bool_decide_eq_true_1 in Hsp as <-. apply list_elem_of_In in Hs.
    exists s, (inv_now inv). split; [apply (md_now _ _ _ _ Hm)|]. split; [done|]. split.
    + unfold expired_now in He. destruct (snapshotExpired _ _ _) as [b| |]; try done. by destruct b.
    + intros m. by apply (md_protected _ _ _ _ Hm).
Qed.

(** C5. A chunk object that a run removes was older than the grace period, by the
    clock of the run, and no index that is left refers to it. *)
Theorem gc_removes_only_old_orphans w r w' ck x
    (Hrun : gc_main fl w = (r, w')) (Hpre : HasPrefix ck "chunks/" = true)
    (Hx : contents w bucket !! ck = Some x) (Hgone : contents w' bucket !! ck = None) :
  ∃ d now grace, run_clock fl w now ∧
    chunkDigestFromKey ck = Ok d ∧ hoursDuration (chunkGraceHours fl) = Ok grace ∧
    (0 < grace → o_modified x ≤ now - grace) ∧
    ∀ k y meta idx, HasPrefix k "backups/" = true → contents w' bucket !! k = Some y →
      parseIndex k (o_data y) meta = Ok idx → d ∉ digests idx.
Proof.
  assert (ck ≠ UsageStatsObject) as Hus by (by apply HasPrefix_spec in Hpre as [t ->]).
  pose proof Hrun as Hcases. apply gc_main_cases in Hcases
    as [[K _]|(plan & inv & w1 & _ & Hm & [(_ & _ & KL & _)|(_ & w2 & r1 & w3 & K2 & Hex & K3 & _)])].
  - rewrite (keeps_all_lookup _ _ _ _ K) in Hgone. congruence.
  - destruct (KL bucket ck) as [y Hy]; [by exists x|]. congruence.
  - destruct (sweep_key _ _ _ _ _ _ ck K2 Hex K3 Hus) as [Ek [Hk3|[Hin _]]]; [congruence|].
    apply HasPrefix_spec in Hpre as [t Ht].
    destruct (plan_key_kind _ _ _ _ _ Hm Hin) as [[Hb _]|[Hb|(_ & Hu & o & Ho & Hko & Hy)]];
      [by rewrite Ht in Hb..|].
    unfold unreferenced in Hu. destruct (chunkDigestFromKey ck) as [d| |] eqn:Hck; try done.
    exists d, (inv_now inv), (inv_grace inv). split; [apply (md_now _ _ _ _ Hm)|]. split; [done|].
    split; [apply (md_grace _ _ _ _ Hm)|]. split.
    + intros Hg. destruct (md_chunks _ _ _ _ Hm) as [Hc _].
      destruct (Hc o Ho) as (_ & x' & Hx' & _ & Hmod). rewrite Hko, Hx in Hx'. injection Hx' as <-.
      unfold young, withinGracePeriod in Hy. rewrite Hmod in Hy.
      destruct (Z.leb_spec (inv_grace inv) 0); [lia|]. by apply Z.ltb_ge in Hy.
    + intros k y meta idx Hk Hky Hidx Hd.
      pose proof (referential_integrity _ _ _ _ _ _ _ _ _ Hrun Hk Hky Hidx Hd Hck). congruence.
Qed.

(** Outside the three prefixes a run writes the usage report and corruption
    markers only; other buckets are untouched. *)
Theorem gc_footprint w r w' (Hrun : gc_main fl w = (r, w')) :
  keeps (λ b k, b ≠ bucket ∨
    (k ≠ UsageStatsObject ∧ is_marker k = false ∧ HasPrefix k "backups/" = false ∧
     HasPrefix k "indexed/" = false ∧ HasPrefix k "chunks/" = false)) w w'.
Proof.
  intros b k Hbk.
  apply gc_main_cases in Hrun as [[K _]|(plan & inv & w1 & _ & Hm & [(_ & _ & _ & K)|(_ & w2 & r1 & w3 & K2 & Hex & K3 & _)])].
  - by apply K.
  - apply K. destruct Hbk as [?|(_ & ? & _)]; auto using unmarked.
  - rewrite K3 by (destruct Hbk as [?|(? & _)]; auto). rewrite <-(keeps_all_lookup _ _ _ _ K2).
    destruct (executeGCPlan_effect _ _ _ _ _ Hex b k) as [?|[[-> Hin] _]]; [done|].
    destruct Hbk as [?|(_ & _ & Hb & Hi & Hc)]; [done|].
    destruct (plan_key_kind _ _ _ _ _ Hm Hin) as [[? _]|[?|[? _]]]; congruence.
Qed.

(** A run that removes anything has found a consistent inventory: every index
    of the bucket, unless its snapshot is expired, had all its chunks. *)
Theorem gc_removes_only_from_consistent_inventory w r w' b0 k0 k x meta idx d
    (Hrun : gc_main fl w = (r, w'))
    (Hremoved : is_Some (contents w b0 !! k0) ∧ contents w' b0 !! k0 = None)
    (Hk : HasPrefix k "backups/" = true) (Hx : contents w bucket !! k = Some x)
    (Hidx : parseIndex k (o_data x) meta = Ok idx) (Hd : d ∈ digests idx) :
  (∃ ck y, chunkDigestFromKey ck = Ok d ∧ contents w bucket !! ck = Some y) ∨
  (∃ s now, run_clock fl w now ∧ snapshotPrefixForObject k = Ok (S3Prefix s) ∧
     snapshotExpired s now (retentionDays fl) = Ok true).
Proof.
  destruct Hremoved as [H0 Hgone].
  apply gc_main_cases in Hrun as [[K _]|(plan & inv & w1 & _ & Hm & [(_ & _ & KL & _)|(He & _)])].
  - rewrite <-(keeps_all_lookup _ _ _ _ K), Hgone in H0. by destruct H0.
  - destruct (KL b0 k0 H0) as [y Hy]. congruence.
  - pose proof (md_plan _ _ _ _ Hm) as Hp.
    destruct (decide (k ∈ Key <$> backupObjects plan)) as [Hin|Hnot].
    + right. apply list_elem_of_fmap in Hin as (o & -> & Ho).
      rewrite (ps_backup _ _ _ _ _ _ _ _ _ _ Hp) in Ho. apply list_elem_of_In, filter_In in Ho as [_ He'].
      unfold key_expired in He'. destruct (snapshotPrefixForObject (Key o)) as [p| |] eqn:Hpre; try done.
      apply existsb_exists in He' as (s & _ & [Hs Hsp]%andb_true_iff). apply bool_decide_eq_true_1 in Hsp as <-.
      exists s, (inv_now inv). split; [apply (md_now _ _ _ _ Hm)|]. split; [done|].
      unfold expired_now in Hs. destruct (snapshotExpired _ _ _) as [b| |]; try done. by destruct b.
    + left. destruct (surviving_known _ _ _ _ _ _ _ _ Hm Hk Hx Hidx Hnot d Hd) as [refs Hrefs].
      destruct (decide (d ∈ existingChunks plan)) as [Hex|Hne].
      * apply (ps_existing _ _ _ _ _ _ _ _ _ _ Hp) in Hex as [_ (o & Ho & Hck)].
        destruct (md_chunks _ _ _ _ Hm) as [Hc _]. destruct (Hc o Ho) as (_ & y & Hy & _). eauto.
      * assert (missingChunks plan !! d = Some refs) as Hmiss by (by apply (ps_missing _ _ _ _ _ _ _ _ _ _ Hp)).
        by rewrite He, lookup_empty in Hmiss.
Qed.

(** The objects of an expired, unprotected snapshot are in the plan. *)
Lemma swept_snapshot w w2 w3 w' inv plan s m k x :
  marked fl w inv plan → executeGCPlan bucket plan w2 = (Ok tt, w3) →
  keeps (λ b k, b ≠ bucket ∨ k ≠ UsageStatsObject) w3 w' →
  wf_snapshot s = true → snapshotExpired s (inv_now inv) (retentionDays fl) = Ok true →
  contents w bucket !! manifest_key s = Some m → get_tag (o_tags m) "protected" ≠ "true" →
  snapshotPrefixForObject k = Ok (S3Prefix s) → HasSuffix k "/" = false →
  contents w bucket !! k = Some x → contents w' bucket !! k = None.
Proof.
  intros Hm Hex K3 Hw He Hman Htag Hpre Hsl Hx. pose proof (md_plan _ _ _ _ Hm) as Hp.
  assert (HasPrefix k "backups/" = true) as Hb.
  { apply snapshotPrefixForObject_Ok in Hpre as (n & f & -> & _). apply HasPrefix_app. }
  destruct (index_of_backups k Hb) as (_ & _ & Hus).
  rewrite K3 by (by right). apply (executeGCPlan_Ok _ _ _ _ Hex).
  destruct (md_backups _ _ _ _ Hm) as [_ Hc]. destruct (Hc k x Hx Hb Hsl) as (o & Ho & <- & _).
  unfold plan_keys. rewrite fmap_app, elem_of_app. left. apply list_elem_of_fmap_2.
  rewrite (ps_backup _ _ _ _ _ _ _ _ _ _ Hp). apply list_elem_of_In, filter_In.
  rewrite <-list_elem_of_In. split; [done|]. unfold key_expired. rewrite Hpre.
  destruct (md_listed _ _ _ _ Hm s m Hw Hman) as (s' & Hs' & Hpx & Ht & Hprot).
  apply existsb_exists. exists s'. rewrite <-list_elem_of_In. split; [done|].
  rewrite Hpx, bool_decide_eq_true_2, andb_true_r by done. unfold expired_now.
  assert (snapshotExpired s' (inv_now inv) (retentionDays fl) = Ok true) as ->
    by (unfold snapshotExpired in *; by rewrite Ht).
  rewrite Hprot, bool_decide_eq_false_2 by done. done.
Qed.

(** C13. A run that reports success on a bucket with objects of snapshots has
    collected what is due: an expired snapshot that has a manifest, which is not tagged
    as protected, has no object left but for directory markers - keys that end in a
    slash, which the collector passes over -, and no chunk under the key of a digest is
    left that is older than the grace period and that no index in the bucket refers to
    any more. *)
Theorem gc_success_collects w w' k0 x0
    (Hrun : gc_main fl w = (Ok tt, w'))
    (Hk0 : HasPrefix k0 "backups/" = true) (Hx0 : contents w bucket !! k0 = Some x0)
    (Hsl0 : HasSuffix k0 "/" = false) :
  ∃ now grace, run_clock fl w now ∧ hoursDuration (chunkGraceHours fl) = Ok grace ∧
    (∀ s m k x, wf_snapshot s = true → snapshotExpired s now (retentionDays fl) = Ok true →
       contents w bucket !! manifest_key s = Some m → get_tag (o_tags m) "protected" ≠ "true" →
       snapshotPrefixForObject k = Ok (S3Prefix s) → HasSuffix k "/" = false →
       contents w bucket !! k = Some x → contents w' bucket !! k = None) ∧
    ∀ ck d x, chunkDigestFromKey ck = Ok d → contents w bucket !! ck = Some x →
      o_modified x ≤ now - grace →
      (∀ k y meta idx, contents w' bucket !! k = Some y → parseIndex k (o_data y) meta = Ok idx →
         d ∉ digests idx) →
      contents w' bucket !! ck = None.
Proof.
  apply gc_main_cases in Hrun as [[K Hn]|(plan & inv & w1 & _ & Hm & [(_ & ? & _)|(_ & w2 & r1 & w3 & K2 & Hex & K3 & Hr)])];
    [|done|].
  { destruct (Hn eq_refl) as [wn [w0 Hnone]%gc_mark_none]. pose proof (gc_inventory_none _ _ _ _ _ Hnone Hx0 Hk0). congruence. }
  exists (inv_now inv), (inv_grace inv). split; [apply (md_now _ _ _ _ Hm)|].
  split; [apply (md_grace _ _ _ _ Hm)|]. rewrite Hr in Hex by done. split.
  { intros s m k x Hw He Hman Htag Hpre Hsl Hx. by eapply swept_snapshot. }
  intros ck d x Hck Hx Hold Hun. pose proof (md_plan _ _ _ _ Hm) as Hp.
  destruct (chunk_key ck d Hck) as (Hpre & Hsl & _ & Hus).
  rewrite K3 by (by right). apply (executeGCPlan_Ok _ _ _ _ Hex).
  destruct (md_chunks _ _ _ _ Hm) as [_ Hc]. destruct (Hc ck x Hx Hpre Hsl) as (o & Ho & Hko & _ & Hmod).
  unfold plan_keys. rewrite !fmap_app, !elem_of_app. right; right.
  rewrite <-Hko. apply list_elem_of_fmap_2. rewrite (ps_chunks _ _ _ _ _ _ _ _ _ _ Hp).
  apply list_elem_of_In, filter_In. rewrite <-list_elem_of_In. split; [done|].
  apply andb_true_iff. split.
  - unfold unreferenced. rewrite Hko, Hck. apply bool_decide_eq_true_2.
    destruct (knownChunks plan !! d) as [refs|] eqn:Hrefs; [|done]. exfalso.
    destruct (ps_known_sound _ _ _ _ _ _ _ _ _ _ Hp d refs Hrefs) as [Hne Hall].
    destruct refs as [|k refs]; [done|].
    destruct (Hall k) as (o' & idx & Ho' & Hl & Hk & (y & meta & Hy & Hidx) & Hd); [by left|].
    eapply (Hun (Key o') y); [|exact Hidx|done].
    destruct (md_backups _ _ _ _ Hm) as [Hb _]. destruct (Hb o' Ho') as [Hpb _].
    destruct (index_of_backups _ Hpb) as (Hkc & Hki & Hku).
    destruct (sweep_key _ _ _ _ _ _ (Key o') K2 Hex K3 Hku) as [-> [->|[Hin _]]]; [done|].
    destruct (plan_key_kind _ _ _ _ _ Hm Hin) as [[_ He]|[?|[? _]]]; [|congruence..].
    unfold live in Hl. by rewrite He in Hl.
  - unfold young, withinGracePeriod. rewrite Hmod. apply negb_true_iff.
    destruct (Z.leb_spec (inv_grace inv) 0); [done|]. by apply Z.ltb_ge.
Qed.
End safety.

(** ** A run on a concrete bucket

    Two snapshots of one machine share a chunk; the older one, past the
    retention, has another of its own. *)

Definition example_blob : Obj := mkObj (string_bytes "{}") ∅ ∅ 0.
Definition chunk_key_of (n : Z) : string :=
  let d := hex_EncodeToString (digest_of n) in
  Join ["chunks"; take_string 2 d; take_string 2 (drop_string 2 d); drop_string 4 d] slash.

Definition old_index : string := "backups/100|1000|vm/drive.img.fidx".
Definition new_index : string := "backups/100|9999000|vm/drive.img.fidx".
Definition example_bucket : gmap string Obj :=
  list_to_map [
    (old_index, example_index [1; 2]);
    ("backups/100|1000|vm/index.json.blob", example_blob);
    (new_index, example_index [2]);
    ("backups/100|9999000|vm/index.json.blob", example_blob);
    (chunk_key_of 1, mkObj (string_bytes "one") ∅ ∅ 0);
    (chunk_key_of 2, mkObj (string_bytes "two") ∅ ∅ 0)].
Definition example_world : mem :=
  Mem {[ "pbs" := example_bucket ]} ∅ (10000000 * 1000000000) 0 [].
Definition example_flags : gcFlags := mkFlags "s3.example" true "pbs" "key" "secret" "" 60 24 "" "auto".

#[local] Existing Instance default_range.
Definition example_run : res unit * mem := gc_main example_flags example_world.

Example example_run_result : fst example_run = Ok tt.
Proof. vm_compute. reflexivity. Qed.
Example example_run_keys :
  merge_sort String.le (map_to_list (contents (snd example_run) "pbs")).*1 =
  [new_index; "backups/100|9999000|vm/index.json.blob"; chunk_key_of 2; UsageStatsObject].
Proof. vm_compute. reflexivity. Qed.

Lemma example_run_eq : gc_main example_flags example_world = (fst example_run, snd example_run).
Proof. unfold example_run. by destruct (gc_main _ _). Qed.
Lemma example_run_ok : gc_main example_flags example_world = (Ok tt, snd example_run).
Proof. rewrite example_run_eq. by rewrite example_run_result. Qed.

(** The stored new index, and what it parses to. *)
Definition new_meta : string := hex_EncodeToString (sha256 (digest_of 2)).
Definition new_parsed : parsedIndex :=
  mkParsedIndex new_meta [hex_EncodeToString (digest_of 2)] 100.
Lemma example_new_parse : parseIndex new_index (o_data (example_index [2])) new_meta = Ok new_parsed.
Proof. vm_compute. reflexivity. Qed.
Lemma example_new_before : contents example_world "pbs" !! new_index = Some (example_index [2]).
Proof. vm_compute. reflexivity. Qed.
Lemma example_new_after : contents (snd example_run) "pbs" !! new_index = Some (example_index [2]).
Proof. vm_compute. reflexivity. Qed.
Lemma example_chunk_key n : (n =? 1) || (n =? 2) = true →
  chunkDigestFromKey (chunk_key_of n) = Ok (hex_EncodeToString (digest_of n)).
Proof.
  intros [->%Z.eqb_eq| ->%Z.eqb_eq]%orb_true_iff; vm_compute; reflexivity.
Qed.

Lemma gc_referential_integrity_witness :
  contents (snd example_run) "pbs" !! chunk_key_of 2 = contents example_world "pbs" !! chunk_key_of 2.
Proof.
  apply (gc_referential_integrity example_flags example_world (fst example_run) (snd example_run)
    new_index (example_index [2]) new_meta new_parsed (hex_EncodeToString (digest_of 2))).
  - apply example_run_eq.
  - reflexivity.
  - apply example_new_after.
  - apply example_new_parse.
  - by left.
  - by apply example_chunk_key.
Defined.
Lemma gc_success_complete_witness :
  ∃ ck y, chunkDigestFromKey ck = Ok (hex_EncodeToString (digest_of 2)) ∧
    contents (snd example_run) "pbs" !! ck = Some y.
Proof.
  apply (gc_success_complete example_flags example_world (snd example_run)
    new_index (example_index [2]) new_meta new_parsed (hex_EncodeToString (digest_of 2))).
  - apply example_run_ok.
  - reflexivity.
  - apply example_new_after.
  - apply example_new_parse.
  - by left.
Defined.
Lemma gc_removes_only_expired_unprotected_witness :
  ∃ s now, run_clock example_flags example_world now ∧
    snapshotPrefixForObject old_index = Ok (S3Prefix s) ∧
    snapshotExpired s now 60 = Ok true ∧
    ∀ m, contents example_world "pbs" !! manifest_key s = Some m → get_tag (o_tags m) "protected" ≠ "true".
Proof.
  apply (gc_removes_only_expired_unprotected example_flags example_world (fst example_run)
    (snd example_run) old_index (example_index [1; 2])).
  - apply example_run_eq.
  - reflexivity.
  - vm_compute. reflexivity.
  - vm_compute. reflexivity.
Defined.
Lemma gc_removes_only_old_orphans_witness :
  ∃ d now grace, run_clock example_flags example_world now ∧
    chunkDigestFromKey (chunk_key_of 1) = Ok d ∧ hoursDuration 24 = Ok grace ∧
    (0 < grace → 0 ≤ now - grace) ∧
    ∀ k y meta idx, HasPrefix k "backups/" = true → contents (snd example_run) "pbs" !! k = Some y →
      parseIndex k (o_data y) meta = Ok idx → d ∉ digests idx.
Proof.
  apply (gc_removes_only_old_orphans example_flags example_world (fst example_run) (snd example_run)
    (chunk_key_of 1) (mkObj (string_bytes "one") ∅ ∅ 0)).
  - apply example_run_eq.
  - vm_compute. reflexivity.
  - vm_compute. reflexivity.
  - vm_compute. reflexivity.
Defined.
Lemma gc_footprint_witness :
  keeps (λ b k, b ≠ "pbs" ∨
    (k ≠ UsageStatsObject ∧ is_marker k = false ∧ HasPrefix k "backups/" = false ∧
     HasPrefix k "indexed/" = false ∧ HasPrefix k "chunks/" = false)) example_world (snd example_run).
Proof.
  apply (gc_footprint example_flags example_world (fst example_run) (snd example_run)).
  apply example_run_eq.
Defined.
Lemma gc_removes_only_from_consistent_inventory_witness :
  (∃ ck y, chunkDigestFromKey ck = Ok (hex_EncodeToString (digest_of 2)) ∧
     contents example_world "pbs" !! ck = Some y) ∨
  (∃ s now, run_clock example_flags example_world now ∧
     snapshotPrefixForObject new_index = Ok (S3Prefix s) ∧ snapshotExpired s now 60 = Ok true).
Proof.
  apply (gc_removes_only_from_consistent_inventory example_flags example_world (fst example_run)
    (snd example_run) "pbs" old_index new_index (example_index [2]) new_meta new_parsed
    (hex_EncodeToString (digest_of 2))).
  - apply example_run_eq.
  - split; [|vm_compute; reflexivity]. exists (example_index [1; 2]). vm_compute. reflexivity.
  - reflexivity.
  - apply example_new_before.
  - apply example_new_parse.
  - by left.
Defined.
Lemma gc_success_collects_witness :
  ∃ now grace, run_clock example_flags example_world now ∧ hoursDuration 24 = Ok grace ∧
    (∀ s m k x, wf_snapshot s = true → snapshotExpired s now 60 = Ok true →
       contents example_world "pbs" !! manifest_key s = Some m →
       get_tag (o_tags m) "protected" ≠ "true" →
       snapshotPrefixForObject k = Ok (S3Prefix s) → HasSuffix k "/" = false →
       contents example_world "pbs" !! k = Some x → contents (snd example_run) "pbs" !! k = None) ∧
    ∀ ck d x, chunkDigestFromKey ck = Ok d → contents example_world "pbs" !! ck = Some x →
      o_modified x ≤ now - grace →
      (∀ k y meta idx, contents (snd example_run) "pbs" !! k = Some y →
         parseIndex k (o_data y) meta = Ok idx → d ∉ digests idx) →
      contents (snd example_run) "pbs" !! ck = None.
Proof.
  apply (gc_success_collects example_flags example_world (snd example_run)
    new_index (example_index [2])).
  - apply example_run_ok.
  - reflexivity.
  - apply example_new_before.
  - reflexivity.
Defined.
