(* ===== verification/GCSnapshots.v ===== *)
(** * What a collector run means for one snapshot

    A snapshot is a directory below [backups/].  A run that does not find it due -
    expired by the clock of the run and not protected - and that finds all its
    chunks leaves its objects and its chunks as they are; and the directories of
    other snapshots are the only thing of which anything changes in a listing. *)

From S2P Require Import Prelude GoStrings GoBytes S3 Platform MemWorld Snapshot IndexFormat GCPlan UsageStats GC.

Local Open Scope Z_scope.

(** ** Directories *)

Definition dir (p : string) : string := "backups/" +:+ p +:+ "/".
Definition in_dir (p k : string) : Prop := HasPrefix k (dir p) = true.
(** A name as the bucket shows it: one path element. *)
Definition plain (p : string) : Prop := has_byte slash p = false ∧ p ≠ "".

Lemma in_dir_spec p k : in_dir p k ↔ ∃ f, k = "backups/" +:+ p +:+ String slash f.
Proof.
  unfold in_dir, dir. rewrite HasPrefix_spec. f_equiv. intros f.
  rewrite !string_app_assoc. done.
Qed.
Lemma in_dir_backups p k : in_dir p k → HasPrefix k "backups/" = true.
Proof. intros [f ->]%in_dir_spec. apply HasPrefix_app. Qed.
Lemma in_dir_unique p q k : plain p → plain q → in_dir p k → in_dir q k → p = q.
Proof.
  intros [Hp _] [Hq _] [f ->]%in_dir_spec [g Hg]%in_dir_spec. apply string_app_inj_l in Hg.
  apply (f_equal (λ s, Cut s slash)) in Hg. rewrite !Cut_app in Hg by done. by injection Hg.
Qed.
Lemma in_dir_prefix p k :
  plain p → in_dir p k ↔ snapshotPrefixForObject k = Ok ("backups/" +:+ p).
Proof.
  intros [Hs Hne]. rewrite in_dir_spec, snapshotPrefixForObject_Ok. split.
  - intros [f ->]. by exists p, f.
  - intros (n & f & -> & _ & _ & Heq). apply string_app_inj_l in Heq as <-. by exists f.
Qed.
Lemma in_snapshot_dir S k : in_snapshot S k = true ↔ in_dir (snapshot_name S) k.
Proof. unfold in_snapshot, in_dir, dir, S3Prefix. by rewrite string_app_assoc. Qed.

(** *** The marker of an object lies in its directory, and in no other *)

Lemma Join_last ws w c : ws ≠ [] → Join (ws ++ [w]) c = Join ws c +:+ String c w.
Proof.
  induction ws as [|v ws IH]; [done|]. intros _. destruct ws as [|u ws].
  - cbn [app]. rewrite Join_cons by done. done.
  - change ((v :: u :: ws) ++ [w]) with (v :: ((u :: ws) ++ [w])).
    rewrite Join_cons by done. rewrite IH by done. rewrite (Join_cons v (u :: ws)) by done.
    by rewrite string_app_assoc.
Qed.
Lemma corrupted_marker_beside k :
  has_byte slash k = true → ∃ d b, k = d +:+ String slash b ∧ corrupted_marker k = d +:+ "/corrupted".
Proof.
  intros Hk. pose proof (Join_Split k slash) as HJ. unfold corrupted_marker. set (ws := Split k slash) in *.
  destruct (decide (length ws ≤ 1)%nat) as [Hl|Hl].
  - exfalso. pose proof (Split_no_sep k slash) as HF. fold ws in HF.
    destruct ws as [|w [|]]; cbn in Hl; [by rewrite <-HJ in Hk| |lia].
    apply Forall_inv in HF. cbn in HJ. congruence.
  - assert (∃ us u, ws = us ++ [u] ∧ us ≠ []) as (us & u & -> & Hus).
    { destruct ws as [|v vs] using rev_ind; [cbn in Hl; lia|]. exists vs, v. split; [done|].
      intros ->. cbn in Hl. lia. }
    rewrite length_app, Nat.add_sub, take_app_length. rewrite <-HJ. exists (Join us slash), u.
    split; [by apply Join_last|done].
Qed.
Lemma string_app_eq_split a b c d :
  a +:+ b = c +:+ d → (∃ t, c = a +:+ t ∧ b = t +:+ d) ∨ (∃ t, a = c +:+ t ∧ d = t +:+ b).
Proof.
  revert c. induction a as [|x a IH]; intros c Heq; [left; by exists c|].
  destruct c as [|y c]; [right; by exists (String x a)|].
  injection Heq as -> Heq. apply IH in Heq as [(t & -> & ->)|(t & -> & ->)]; [left|right]; by exists t.
Qed.
Lemma ends_in_slash a b t : a +:+ "/" = b +:+ t → t = "" ∨ has_byte slash t = true.
Proof.
  intros [(u & _ & Hu)|(u & _ & ->)]%string_app_eq_split.
  - destruct u as [|x u]; cbn in Hu; [right; by subst t|]. injection Hu as _ Hu. left. by destruct u, t.
  - right. rewrite has_byte_app. by rewrite orb_true_r.
Qed.
Lemma corrupted_marker_in_dir p k :
  has_byte slash k = true → in_dir p (corrupted_marker k) → in_dir p k.
Proof.
  intros (d & b & -> & ->)%corrupted_marker_beside. unfold in_dir. rewrite !HasPrefix_spec. intros [r Hr].
  change (String slash b) with ("/" +:+ b). change "/corrupted" with ("/" +:+ "corrupted") in Hr.
  rewrite <-!string_app_assoc in *. apply string_app_eq_split in Hr as [(t & Ht & Hc)|(t & -> & _)].
  - assert (has_byte slash t = false) as Hno.
    { assert (has_byte slash (t +:+ r) = false) as Hn by (by rewrite <-Hc).
      rewrite has_byte_app in Hn. by apply orb_false_iff in Hn as [? _]. }
    unfold dir in Ht. rewrite <-string_app_assoc in Ht. pose proof Ht as Hsl.
    apply ends_in_slash in Hsl as [->|?]; [|congruence]. exists b.
    unfold dir. rewrite <-string_app_assoc. rewrite Ht, string_app_nil_r. by rewrite !string_app_assoc.
  - exists (t +:+ b). by rewrite !string_app_assoc.
Qed.

(** ** Complete snapshots, and due ones *)

Section snapshots.
Context {W : Type} `{!ObjectStore W, !Platform W, !StoreView W}.

(** The digests of the indexes of a snapshot, and whether each has its chunk. *)
Definition refers (w : W) (ds p d : string) : Prop :=
  ∃ k x meta idx, in_dir p k ∧ contents w ds !! k = Some x ∧
    parseIndex k (o_data x) meta = Ok idx ∧ d ∈ digests idx.
Definition complete (w : W) (ds p : string) : Prop :=
  ∀ d, refers w ds p d → ∃ ck y, chunkDigestFromKey ck = Ok d ∧ contents w ds !! ck = Some y.

(** Expired by the clock a run reads, and no manifest that is tagged protected. *)
Definition due (fl : gcFlags) (w : W) (p : string) : Prop :=
  ∃ s now, run_clock fl w now ∧ wf_snapshot s = true ∧ S3Prefix s = "backups/" +:+ p ∧
    snapshotExpired s now (retentionDays fl) = Ok true ∧
    ∀ m, contents w (bucketFlag fl) !! manifest_key s = Some m → get_tag (o_tags m) "protected" ≠ "true".

(** What both depend on. *)
Definition same_snapshot (ds p : string) : relation W := λ w w',
  (∀ k, in_dir p k → contents w' ds !! k = contents w ds !! k) ∧
  (∀ d ck y, refers w ds p d → chunkDigestFromKey ck = Ok d → contents w ds !! ck = Some y →
     contents w' ds !! ck = Some y).

Lemma refers_same ds p (w w' : W) d :
  (∀ k, in_dir p k → contents w' ds !! k = contents w ds !! k) → refers w' ds p d ↔ refers w ds p d.
Proof.
  intros Hk. split; intros (k & x & meta & idx & Hin & Hx & Hp); exists k, x, meta, idx;
    (split; [done|]; split; [|done]); by rewrite Hk in *.
Qed.
Lemma complete_same ds p (w w' : W) : same_snapshot ds p w w' → complete w ds p → complete w' ds p.
Proof.
  intros [Hk Hc] Hcomp d Hd. apply (refers_same _ _ _ _ _ Hk) in Hd as Hd0.
  destruct (Hcomp d Hd0) as (ck & y & Hck & Hy). exists ck, y. split; [done|]. by eapply Hc.
Qed.
#[export] Instance same_snapshot_preorder ds p : PreOrder (same_snapshot ds p).
Proof.
  split; [by intros w|]. intros w1 w2 w3 [H1 C1] [H2 C2]. split.
  - intros k Hk. by rewrite H2, H1.
  - intros d ck y Hd Hck Hy. eapply C2; [by apply (refers_same _ _ _ _ _ H1)|done|]. by eapply C1.
Qed.
Lemma keeps_all_same_snapshot ds p (w w' : W) : keeps_all w w' → same_snapshot ds p w w'.
Proof.
  intros Hk. split; [by intros k _; apply Hk|]. intros d ck y _ _ Hy. by rewrite (keeps_all_lookup _ _ _ _ Hk).
Qed.
End snapshots.

(** ** A run *)

Section collected.
Context {W : Type} `{!ObjectStore W, !Platform W, !MapRange}.
Context `{!StoreView W, !FileView W, !ObjectStoreLaws W, !PlatformLaws W} (fl : gcFlags).
#[local] Abbreviation bucket := (bucketFlag fl).

(** Only an index with a missing chunk is marked. *)
Lemma marked_incomplete w inv plan p k :
  marked fl w inv plan → marks plan k → in_dir p k → ¬ complete w bucket p.
Proof.
  intros Hm (d & refs & k0 & Hmiss & Hk0 & ->) Hin Hcomp. pose proof (md_plan _ _ _ _ Hm) as Hp.
  apply (ps_missing _ _ _ _ _ _ _ _ _ _ Hp) in Hmiss as [Hknown Hne].
  destruct (ps_known_sound _ _ _ _ _ _ _ _ _ _ Hp d refs Hknown) as [_ Hall].
  destruct (Hall k0 Hk0) as (o & idx & Ho & _ & <- & (x & meta & Hx & Hidx) & Hd).
  destruct (md_backups _ _ _ _ Hm) as [Hb _]. destruct (Hb o Ho) as [Hpre _].
  apply Hne, (ps_existing _ _ _ _ _ _ _ _ _ _ Hp). split; [by eexists|].
  assert (in_dir p (Key o)) as Hino.
  { apply corrupted_marker_in_dir; [|done]. apply HasPrefix_spec in Hpre as [r ->]. done. }
  destruct (Hcomp d) as (ck & y & Hck & Hy); [by exists (Key o), x, meta, idx|].
  destruct (md_chunks _ _ _ _ Hm) as [_ Hc]. destruct (chunk_key ck d Hck) as (Hpc & Hsl & _).
  destruct (Hc ck y Hy Hpc Hsl) as (o' & Ho' & <- & _). by exists o'.
Qed.

(** Only a snapshot that is due is in the plan. *)
Lemma planned_due w inv plan p k :
  plain p → marked fl w inv plan → k ∈ plan_keys plan → in_dir p k → due fl w p.
Proof.
  intros Hpl Hm Hk Hin. pose proof (in_dir_backups _ _ Hin) as Hb.
  destruct (index_of_backups k Hb) as (Hkc & Hki & _).
  destruct (plan_key_kind _ _ _ _ _ Hm Hk) as [[_ He]|[?|[? _]]]; [|congruence..].
  unfold key_expired in He. rewrite (proj1 (in_dir_prefix p k Hpl) Hin) in He.
  apply existsb_exists in He as (s & Hs & [He Hsp]%andb_true_iff). apply bool_decide_eq_true_1 in Hsp.
  apply list_elem_of_In in Hs. exists s, (inv_now inv).
  split; [apply (md_now _ _ _ _ Hm)|]. split; [by apply (md_wf _ _ _ _ Hm)|]. split; [done|]. split.
  - unfold expired_now in He. destruct (snapshotExpired _ _ _) as [b| |]; try done. by destruct b.
  - intros m. by apply (md_protected _ _ _ _ Hm).
Qed.

Lemma gc_keeps_objects w r w' p k :
  gc_main fl w = (r, w') → plain p → in_dir p k → ¬ due fl w p → complete w bucket p →
  contents w' bucket !! k = contents w bucket !! k.
Proof.
  intros Hrun Hpl Hin Hdue Hcomp. destruct (index_of_backups k (in_dir_backups _ _ Hin)) as (_ & _ & Hus).
  apply gc_main_cases in Hrun as [[K _]|(plan & inv & w1 & _ & Hm & [(_ & _ & _ & K)|(_ & w2 & r1 & w3 & K2 & Hex & K3 & _)])].
  - by apply K.
  - apply K. right. intros Hmk. by eapply marked_incomplete.
  - destruct (sweep_key fl plan w w2 w3 w' r1 k K2 Hex K3 Hus) as [-> [->|[Hk _]]]; [done|].
    destruct Hdue. by eapply planned_due.
Qed.
(** Whatever fails, a run leaves a complete snapshot that is not due as it is. *)
Lemma gc_keeps_snapshot w r w' p :
  gc_main fl w = (r, w') → plain p → ¬ due fl w p → complete w bucket p → same_snapshot bucket p w w'.
Proof.
  intros Hrun Hpl Hdue Hcomp.
  assert (∀ k, in_dir p k → contents w' bucket !! k = contents w bucket !! k) as Hk
    by (intros; by eapply gc_keeps_objects).
  split; [done|]. intros d ck y (k & x & meta & idx & Hin & Hx & Hidx & Hd) Hck <-.
  eapply (referential_integrity fl w r w' k x meta idx d ck Hrun); try done; [by eapply in_dir_backups|].
  by rewrite Hk.
Qed.
Lemma gc_other_buckets w r w' b : gc_main fl w = (r, w') → b ≠ bucket → contents w' b = contents w b.
Proof.
  intros Hrun Hb. apply map_eq. intros k.
  apply gc_main_cases in Hrun as [[K _]|(plan & inv & w1 & _ & _ & [(_ & _ & _ & K)|(_ & w2 & r1 & w3 & K2 & Hex & K3 & _)])].
  - by apply K.
  - apply K. by left.
  - rewrite K3 by (by left). rewrite <-(keeps_all_lookup _ _ _ _ K2).
    by destruct (executeGCPlan_effect _ _ _ _ _ Hex b k) as [?|[[? _] _]].
Qed.
End collected.

(** ** The run of the example, for the snapshot it keeps *)

Definition kept_name : string := "100|9999000|vm".
Lemma kept_complete : complete example_world "pbs" kept_name.
Proof.
  intros d (k & x & meta & idx & Hin & Hx & Hidx & Hd).
  exists (chunk_key_of 2), (mkObj (string_bytes "two") ∅ ∅ 0). split; [|vm_compute; reflexivity].
  change (contents example_world "pbs" !! k) with (example_bucket !! k) in Hx.
  apply elem_of_list_to_map_2 in Hx. unfold in_dir in Hin.
  repeat (apply elem_of_cons in Hx as [[= -> ->]|Hx]; [try (exfalso; vm_compute in Hin; discriminate Hin)|]);
    [|by vm_compute in Hidx|by apply elem_of_nil in Hx].
  apply (parseIndex_det _ _ _ _ _ _ example_new_parse) in Hidx as <-.
  apply list_elem_of_singleton in Hd as ->. by apply example_chunk_key.
Qed.
Lemma kept_not_due : ¬ due example_flags example_world kept_name.
Proof.
  intros (s & now & (l & w' & Hl & <-) & Hwf & Hp & He & _).
  apply parse_name_snapshot_name in Hwf. unfold S3Prefix in Hp. apply string_app_inj_l in Hp. rewrite Hp in Hwf.
  assert (parse_name kept_name = Some ("100", 9999000, "vm")) as Hn by (vm_compute; reflexivity).
  assert (BackupTime s = 9999000) as Ht by congruence.
  assert (ls_now l = 10000000 * 1000000000) as Hnow.
  { apply (f_equal (λ r, if r.1 is Ok (Some l) then ls_now l else 0)) in Hl. vm_compute in Hl. symmetry. exact Hl. }
  unfold snapshotExpired in He. rewrite Ht, Hnow in He. vm_compute in He. discriminate.
Qed.
