(* ===== verification/Http.v ===== *)
(** * Requests, responses and handlers

    What the handlers of the proxy read of a request and write to a response, and
    the monad they run in: a handler changes its response, the [Server] of its
    session and the world.  A response keeps the first status it is given, as
    [net/http] does; what is written after it is appended. *)

From S2P Require Import Prelude GoStrings GoBytes S3 Json.

Local Open Scope Z_scope.

(** ** Requests and responses *)

Record Request := mkRequest {
  Method : string;
  RequestURI : string;
  Header : string → string;        (* "" when absent *)
  Query : string → string;         (* [r.URL.Query().Get] *)
  FormValue : string → string;
  ContentLength : Z;               (* int64, -1 when unknown *)
  Body : stream;
}.

Inductive body_part :=
| Text (s : string)
| ErrorText (e : error)            (* [err.Error()] *)
| Data (bs : list byte)
| Json (j : json).

Record response := mkResponse {
  rw_status : option Z;
  rw_headers : list (string * string);
  rw_body : list body_part;
}.
Definition empty_response : response := mkResponse None [] [].

Definition StatusOK : Z := 200.
Definition StatusBadRequest : Z := 400.
Definition StatusUnauthorized : Z := 401.
Definition StatusForbidden : Z := 403.
Definition StatusNotFound : Z := 404.
Definition StatusInternalServerError : Z := 500.

(** Statuses of the responses that are not errors; a handler that writes
    nothing answers 200. *)
Definition answered_ok (r : response) : bool := bool_decide (default StatusOK (rw_status r) = StatusOK).

(** ** Handlers *)

Record hstate (S W : Type) := mkH { h_rw : response; h_sess : S; h_world : W }.
Arguments mkH {S W}.
Arguments h_rw {S W}.
Arguments h_sess {S W}.
Arguments h_world {S W}.

Section handlers.
Context {S W : Type}.
#[local] Abbreviation hio := (io (hstate S W)).

(** A call outside the session. *)
Definition world {A} (m : io W A) : hio A := λ h,
  let '(r, w) := m (h_world h) in (r, mkH (h_rw h) (h_sess h) w).
Definition world_st {A} (m : st W A) : hio A := world (lift_st m).

Definition session : hio S := λ h, (Ok (h_sess h), h).
Definition set_session (s : S) : hio unit := λ h, (Ok tt, mkH (h_rw h) s (h_world h)).

Definition WriteHeader (code : Z) : hio unit := λ h,
  let r := h_rw h in
  let code := match rw_status r with Some c => c | None => code end in
  (Ok tt, mkH (mkResponse (Some code) (rw_headers r) (rw_body r)) (h_sess h) (h_world h)).
(** The headers are sent with the status: one added later is lost. *)
Definition Header_Add (k v : string) : hio unit := λ h,
  let r := h_rw h in
  let headers := if rw_status r then rw_headers r else rw_headers r ++ [(k, v)] in
  (Ok tt, mkH (mkResponse (rw_status r) headers (rw_body r)) (h_sess h) (h_world h)).
Definition Write (p : body_part) : hio unit := λ h,
  let r := h_rw h in
  (Ok tt, mkH (mkResponse (Some (default StatusOK (rw_status r))) (rw_headers r) (rw_body r ++ [p]))
            (h_sess h) (h_world h)).
(** [http.Error]. *)
Definition http_Error (p : body_part) (code : Z) : hio unit := _ ← WriteHeader code; Write p.

(** [*p] of a pointer that may be nil. *)
Definition deref {A} (p : option A) : hio A :=
  match p with
  | Some a => mret a
  | None => lift_res (Panicked "nil pointer dereference")
  end.
Definition check (b : bool) (why : string) : hio unit :=
  if b then mret tt else lift_res (Panicked why).

(** ** What a handler may change *)

Definition in_world (R : relation W) : relation (hstate S W) := λ h h', R (h_world h) (h_world h').
#[global] Instance in_world_preorder R `{!PreOrder R} : PreOrder (in_world R).
Proof.
  split; [intros h; unfold in_world; reflexivity|].
  intros h1 h2 h3 H12 H23. unfold in_world in *. by transitivity (h_world h2).
Qed.

Lemma world_effect {A} R (m : io W A) : effect R m → effect (in_world R) (world m).
Proof.
  intros Hm h r h'. unfold world. destruct (m (h_world h)) as [r0 w] eqn:E. intros [= <- <-].
  by eapply Hm.
Qed.
Lemma world_st_effect {A} R (m : st W A) `{!PreOrder R} : st_effect R m → effect (in_world R) (world_st m).
Proof. intros Hm. by apply world_effect, effect_lift_st. Qed.
Lemma session_effect R `{!PreOrder R} : effect (in_world R) session.
Proof. intros h r h' [= <- <-]. unfold in_world. reflexivity. Qed.
Lemma set_session_effect R s `{!PreOrder R} : effect (in_world R) (set_session s).
Proof. intros h r h' [= <- <-]. unfold in_world. reflexivity. Qed.
Lemma WriteHeader_effect R c `{!PreOrder R} : effect (in_world R) (WriteHeader c).
Proof. intros h r h' [= <- <-]. unfold in_world. reflexivity. Qed.
Lemma Header_Add_effect R k v `{!PreOrder R} : effect (in_world R) (Header_Add k v).
Proof. intros h r h' [= <- <-]. unfold in_world. reflexivity. Qed.
Lemma Write_effect R p `{!PreOrder R} : effect (in_world R) (Write p).
Proof. intros h r h' [= <- <-]. unfold in_world. reflexivity. Qed.
Lemma deref_effect {A} R (p : option A) `{!PreOrder R} : effect (in_world R) (deref p).
Proof. destruct p; intros h r h' [= <- <-]; unfold in_world; reflexivity. Qed.
Lemma check_effect R b why `{!PreOrder R} : effect (in_world R) (check b why).
Proof. destruct b; intros h r h' [= <- <-]; unfold in_world; reflexivity. Qed.
Lemma http_Error_effect R p c `{!PreOrder R} : effect (in_world R) (http_Error p c).
Proof. apply effect_bind; [apply _|by apply WriteHeader_effect|]. intros _. by apply Write_effect. Qed.

(** ** Inverting a run *)

Lemma world_inv {A} (m : io W A) h r h' :
  world m h = (r, h') → ∃ w', m (h_world h) = (r, w') ∧ h' = mkH (h_rw h) (h_sess h) w'.
Proof. unfold world. destruct (m (h_world h)) as [r0 w]. intros [= <- <-]. eauto. Qed.
Lemma world_st_inv {A} (m : st W A) h a h' :
  world_st m h = (Ok a, h') → ∃ w', m (h_world h) = (a, w') ∧ h' = mkH (h_rw h) (h_sess h) w'.
Proof.
  intros (w' & Hm & ->)%world_inv. unfold lift_st in Hm. destruct (m (h_world h)) as [a0 w0].
  injection Hm as -> ->. eauto.
Qed.
Lemma deref_inv {A} (p : option A) h a h' : deref p h = (Ok a, h') → p = Some a ∧ h' = h.
Proof. destruct p; intros [= <- <-]; done. Qed.
Lemma check_inv b why h u h' : check b why h = (Ok u, h') → b = true ∧ h' = h.
Proof. destruct b; intros [= <- <-]; done. Qed.
End handlers.

#[export] Hint Resolve world_effect world_st_effect session_effect set_session_effect WriteHeader_effect
  Header_Add_effect Write_effect deref_effect check_effect http_Error_effect : go_effect.
