(* ===== verification/HandlerLogic.v ===== *)
(** * Invariants of handlers

    A program logic for the handler monad: [runs J m h Q] says that the invariant
    [J] of the session and the world holds after [m] whatever [m] answers - a
    value, an error or a panic - and that a value satisfies [Q].  The rules follow
    the state: the response never matters to [J]. *)

From S2P Require Import Prelude S3 Http.

Section logic.
Context {S W : Type} (J : S → W → Prop).
Implicit Types (h : hstate S W).

Definition runs {A} (m : io (hstate S W) A) h (Q : A → hstate S W → Prop) : Prop :=
  ∀ r h', m h = (r, h') → J (h_sess h') (h_world h') ∧ ∀ a, r = Ok a → Q a h'.

(** The world may move along [R] under [J]. *)
Definition stable (R : relation W) : Prop := ∀ s w w', J s w → R w w' → J s w'.

Lemma runs_mono {A} (m : io (hstate S W) A) h (Q Q' : A → hstate S W → Prop) :
  runs m h Q → (∀ a h', J (h_sess h') (h_world h') → Q a h' → Q' a h') → runs m h Q'.
Proof. intros Hm HQ r h' Hr. destruct (Hm r h' Hr) as [HJ Ha]. split; [done|]. auto. Qed.
Lemma runs_ret {A} (a : A) h (Q : A → hstate S W → Prop) :
  J (h_sess h) (h_world h) → Q a h → runs (mret a) h Q.
Proof. intros HJ HQ r h' [= <- <-]. split; [done|]. by intros ? [= <-]. Qed.
Lemma runs_bind {A B} (m : io (hstate S W) A) (k : A → io (hstate S W) B) h Q :
  runs m h (λ a h', runs (k a) h' Q) → runs (m ≫= k) h Q.
Proof.
  intros Hm r h' Hr. apply io_bind_inv in Hr as [(a & h1 & Ha & Hk)|[(e & He & ->)|(p & Hp & ->)]].
  - destruct (Hm _ _ Ha) as [_ HQ]. by apply (HQ a).
  - destruct (Hm _ _ He) as [HJ _]. by split.
  - destruct (Hm _ _ Hp) as [HJ _]. by split.
Qed.
Lemma runs_lift_res {A} (m : res A) h (Q : A → hstate S W → Prop) :
  J (h_sess h) (h_world h) → (∀ a, m = Ok a → Q a h) → runs (lift_res m) h Q.
Proof. intros HJ HQ r h' [= <- <-]. by split. Qed.
Lemma runs_fail {A} e h (Q : A → hstate S W → Prop) :
  J (h_sess h) (h_world h) → runs (fail e) h Q.
Proof. intros HJ. by apply runs_lift_res. Qed.
Lemma runs_try {A} (m : io (hstate S W) A) h (Q : A + error → hstate S W → Prop) :
  runs m h (λ a h', Q (inl a) h') → (∀ e h', J (h_sess h') (h_world h') → m h = (Err e, h') → Q (inr e) h') →
  runs (try m) h Q.
Proof.
  intros Hm He r h'. unfold try. destruct (m h) as [[a|e|p] h1] eqn:E; intros [= <- <-];
    destruct (Hm _ _ E) as [HJ HQ]; (split; [done|]); intros ? [= <-]; auto.
Qed.
Lemma runs_session h (Q : S → hstate S W → Prop) :
  J (h_sess h) (h_world h) → Q (h_sess h) h → runs session h Q.
Proof. intros HJ HQ r h' [= <- <-]. split; [done|]. by intros ? [= <-]. Qed.
Lemma runs_set_session s h (Q : unit → hstate S W → Prop) :
  J s (h_world h) → Q tt (mkH (h_rw h) s (h_world h)) → runs (set_session s) h Q.
Proof. intros HJ HQ r h' [= <- <-]. split; [done|]. by intros [] _. Qed.
Lemma runs_deref {A} (p : option A) h (Q : A → hstate S W → Prop) :
  J (h_sess h) (h_world h) → (∀ a, p = Some a → Q a h) → runs (deref p) h Q.
Proof. intros HJ HQ r h'. destruct p; intros [= <- <-]; (split; [done|]); by intros ? [= <-]; auto. Qed.
Lemma runs_check b why h (Q : unit → hstate S W → Prop) :
  J (h_sess h) (h_world h) → (b = true → Q tt h) → runs (check b why) h Q.
Proof. intros HJ HQ r h'. destruct b; intros [= <- <-]; (split; [done|]); intros [] ?; by auto. Qed.

(** A call that keeps the invariant, of whose answer nothing is used. *)
Lemma runs_keeps {A} (m : io (hstate S W) A) h (Q : A → hstate S W → Prop) :
  (∀ rw s w, J s w → runs m (mkH rw s w) (λ _ _, True)) → J (h_sess h) (h_world h) →
  (∀ a rw s w, J s w → Q a (mkH rw s w)) → runs m h Q.
Proof.
  intros Hm HJ HQ. destruct h as [rw s w]. eapply runs_mono; [by apply Hm|].
  intros a [rw' s' w'] HJ' _. by apply HQ.
Qed.

(** The writers of the response. *)
Definition responds (m : io (hstate S W) unit) : Prop :=
  ∀ h r h', m h = (r, h') → r = Ok tt ∧ h_sess h' = h_sess h ∧ h_world h' = h_world h.
Lemma WriteHeader_responds c : responds (WriteHeader c).
Proof. by intros h r h' [= <- <-]. Qed.
Lemma Header_Add_responds k v : responds (Header_Add k v).
Proof. by intros h r h' [= <- <-]. Qed.
Lemma Write_responds p : responds (Write p).
Proof. by intros h r h' [= <- <-]. Qed.
Lemma http_Error_responds p c : responds (http_Error p c).
Proof. by intros h r h' [= <- <-]. Qed.
Lemma runs_responds m h (Q : unit → hstate S W → Prop) :
  responds m → J (h_sess h) (h_world h) → (∀ rw, Q tt (mkH rw (h_sess h) (h_world h))) → runs m h Q.
Proof.
  intros Hm HJ HQ r h' Hr. destruct (Hm _ _ _ Hr) as (-> & Hs & Hw). rewrite Hs, Hw.
  split; [done|]. intros [] _. destruct h'. cbn in *. subst. apply HQ.
Qed.

(** Calls into the world. *)
Lemma runs_world {A} (m : io W A) R h (Q : A → hstate S W → Prop) :
  J (h_sess h) (h_world h) → stable R → effect R m →
  (∀ a w', m (h_world h) = (Ok a, w') → J (h_sess h) w' → Q a (mkH (h_rw h) (h_sess h) w')) → runs (world m) h Q.
Proof.
  intros HJ HR Hm HQ r h' (w' & Hw & ->)%world_inv. pose proof (HR _ _ _ HJ (Hm _ _ _ Hw)) as HJ'.
  split; [done|]. intros a ->. by apply HQ.
Qed.
Lemma runs_world_st {A} (m : st W A) R h (Q : A → hstate S W → Prop) :
  J (h_sess h) (h_world h) → stable R → st_effect R m →
  (∀ a w', m (h_world h) = (a, w') → J (h_sess h) w' → Q a (mkH (h_rw h) (h_sess h) w')) → runs (world_st m) h Q.
Proof.
  intros HJ HR Hm HQ r h' (w' & Hw & ->)%world_inv. unfold lift_st in Hw.
  destruct (m (h_world h)) as [a w1] eqn:E. injection Hw as <- ->.
  pose proof (HR _ _ _ HJ (Hm _ _ _ E)) as HJ'. split; [done|]. intros ? [= <-]. by apply HQ.
Qed.

(** A call of which more is known in this world than in any. *)
Lemma runs_world_st_here {A} (m : st W A) h (Q : A → hstate S W → Prop) :
  (∀ a w', m (h_world h) = (a, w') → J (h_sess h) w' ∧ Q a (mkH (h_rw h) (h_sess h) w')) → runs (world_st m) h Q.
Proof.
  intros Hm r h' (w' & Hw & ->)%world_inv. unfold lift_st in Hw.
  destruct (m (h_world h)) as [a w1] eqn:E. injection Hw as <- ->. destruct (Hm _ _ eq_refl) as [HJ HQ].
  split; [exact HJ|]. by intros ? [= <-].
Qed.

Lemma runs_foldIO_in {A X} (f : X → A → io (hstate S W) X) l : ∀ x h,
  J (h_sess h) (h_world h) →
  (∀ x a h, a ∈ l → J (h_sess h) (h_world h) → runs (f x a) h (λ _ _, True)) →
  runs (foldIO f x l) h (λ _ _, True).
Proof.
  induction l as [|a l IH]; intros x h HJ Hf; cbn [foldIO]; [by apply runs_ret|].
  apply runs_bind. eapply runs_mono; [by apply Hf; [left|]|]. intros x' h' HJ' _. apply IH; [done|].
  intros x0 a0 h0 Ha. apply Hf. by right.
Qed.
Lemma runs_foldIO {A X} (f : X → A → io (hstate S W) X) l x h :
  J (h_sess h) (h_world h) →
  (∀ x a h, J (h_sess h) (h_world h) → runs (f x a) h (λ _ _, True)) →
  runs (foldIO f x l) h (λ _ _, True).
Proof. intros HJ Hf. apply runs_foldIO_in; auto. Qed.
End logic.

#[export] Hint Resolve WriteHeader_responds Header_Add_responds Write_responds http_Error_responds : go_runs.
Create HintDb go_stable.

(** Symbolic execution of a handler under an invariant: each step is the rule of the
    call at the head.  Reading a writer, changing the session and folding over a
    list are left to the proof.  What calls may do to the world under the invariant
    is looked up in [go_stable]. *)
Ltac runs_halt m := idtac.
Ltac runs_step :=
  lazymatch goal with
  | |- runs _ (mret _) _ _ => apply runs_ret; [eassumption|]
  | |- runs _ (foldIO _ _ _ ≫= _) _ _ => fail
  | |- runs _ (set_session _ ≫= _) _ _ => fail
  | |- runs _ (?m ≫= _) _ _ => runs_halt m; apply runs_bind
  | |- runs _ (lift_res _) _ _ => apply runs_lift_res; [eassumption|intros ? ?]
  | |- runs _ (fail _) _ _ => apply runs_fail; eassumption
  | |- runs _ session _ _ => apply runs_session; [eassumption|cbn [h_rw h_sess h_world]]
  | |- runs _ (deref _) _ _ => apply runs_deref; [eassumption|intros ? ?]
  | |- runs _ (check _ _) _ _ => apply runs_check; [eassumption|intros ?]
  | |- runs _ (try _) _ _ => apply runs_try; [|intros ? [] ? ?; cbn [h_rw h_sess h_world] in *]
  | |- runs _ (WriteHeader _) _ _ => eapply runs_responds; [auto with go_runs|eassumption|intros ?]
  | |- runs _ (Header_Add _ _) _ _ => eapply runs_responds; [auto with go_runs|eassumption|intros ?]
  | |- runs _ (Write _) _ _ => eapply runs_responds; [auto with go_runs|eassumption|intros ?]
  | |- runs _ (http_Error _ _) _ _ => eapply runs_responds; [auto with go_runs|eassumption|intros ?]
  | |- runs _ (world _) _ _ =>
      eapply runs_world; [eassumption|solve [eauto with go_stable]| |intros ? ? ? ?]; [|cbn [h_rw h_sess h_world] in *]
  | |- runs _ (world_st _) _ _ =>
      eapply runs_world_st; [eassumption|solve [eauto with go_stable]| |intros ? ? ? ?]; [|cbn [h_rw h_sess h_world] in *]
  | |- runs _ (if ?b then _ else _) _ _ => destruct b eqn:?
  | |- runs _ (match ?x with _ => _ end) _ _ => destruct x eqn:?
  | |- True => exact I
  end.
Ltac runs_by tac := repeat (cbn [h_rw h_sess h_world] in *; first [solve [tac] | runs_step]).
Ltac runs_go := repeat (cbn [h_rw h_sess h_world] in *; runs_step); try (solve [eauto 4 with go_runs go_effect]).
