(* ===== verification/Hijack.v ===== *)
(** * Taking over a connection ([cmd/pmoxs3backuproxy/hijack.go])

    After the answer to an upgrade the connection belongs to the HTTP/2 server.
    What [net/http] had already read of it is replayed first. *)

From S2P Require Import Prelude GoBytes S3.

Local Open Scope Z_scope.

Section hijack.
(** The connection is read through [conn_Read n]: at most [n] bytes and an error. *)
Context {C : Type} (conn_Read : nat → st C (list byte * option error)).

(** The connection as it is, or one that replays: the bytes of its [bytes.Reader] -
    [None] when [io.MultiReader] is through with it - and whether the connection
    itself is still to be read. *)
Inductive netConn :=
| plainConn
| prefixConn (pending : option (list byte)) (open : bool).
Definition pending_of (p : netConn) : list byte :=
  match p with prefixConn (Some held) _ => held | _ => [] end.
Definition is_EOF (err : option error) : bool :=
  match err with Some (Sentinel s) => bool_decide (s = "io.EOF") | _ => false end.

(** [bytes.Reader] answers [io.EOF] once it is empty, and the next reader is asked;
    the end of the last one is passed on. *)
Definition Read (n : nat) (p : netConn) : st C (list byte * option error * netConn) := λ c,
  match p with
  | plainConn => let '((data, err), c) := conn_Read n c in ((data, err, plainConn), c)
  | prefixConn (Some (b :: bs)) open =>
      ((take n (b :: bs), None, prefixConn (Some (drop n (b :: bs))) open), c)
  | prefixConn _ open =>
      if open then
        let '((data, err), c) := conn_Read n c in
        ((data, err, prefixConn None (negb (is_EOF err))), c)
      else (([], Some EOF, prefixConn None false), c)
  end.

(** What [w] answers when it is asked for the connection: [None] when it cannot be
    taken over, otherwise the bytes its buffered reader holds, if it has one. *)
Definition hijackWithBuffered (hijacker : option (res (option (list byte)))) : res netConn :=
  match hijacker with
  | None => Err (Errorf "protocol upgrade is not supported by this connection" [])
  | Some r =>
      bufrw ← r;
      match bufrw with
      | None => Ok plainConn
      | Some held =>
          if Z.of_nat (length held) =? 0 then Ok plainConn
          else
            let '(pending, err, _) := io_ReadFull (length held) (Stream held None) in
            match err with
            | Some e => Err (Wrapf "read buffered bytes after upgrade" [] e)
            | None => Ok (prefixConn (Some pending) true)
            end
      end
  end.

(** The bytes a reader gets in turn, and those that came from the connection. *)
Fixpoint reads (ns : list nat) (p : netConn) (c : C) : list byte * list byte :=
  match ns with
  | [] => ([], [])
  | n :: ns =>
      let '((data, _, p'), c') := Read n p c in
      let '(all, wire) := reads ns p' c' in
      (data ++ all, match pending_of p with _ :: _ => wire | [] => data ++ wire end)
  end.

Lemma reads_wire ns p c : pending_of p = [] → fst (reads ns p c) = snd (reads ns p c).
Proof.
  revert p c. induction ns as [|n ns IH]; intros p c Hp; cbn [reads]; [done|].
  assert (∃ data err p' c', Read n p c = ((data, err, p'), c') ∧ pending_of p' = []) as (data & err & p' & c' & -> & Hp').
  { destruct p as [|[[|b held]|] [|]]; try done; cbn; try destruct (conn_Read n c) as [[d e] c1]; eauto 10. }
  rewrite Hp. specialize (IH p' c' Hp'). destruct (reads ns p' c'). cbn in *. by rewrite IH.
Qed.

Lemma reads_pending ns p c :
  ∃ j, fst (reads ns p c) = take j (pending_of p) ++ snd (reads ns p c) ∧
    (snd (reads ns p c) ≠ [] → (length (pending_of p) ≤ j)%nat).
Proof.
  revert p c. induction ns as [|n ns IH]; intros p c; [by exists 0%nat|].
  destruct (pending_of p) as [|b held] eqn:Hp.
  { exists 0%nat. split; [by apply reads_wire|cbn; lia]. }
  destruct p as [|[held'|] open]; cbn in Hp; try done; subst held'. cbn [reads Read pending_of].
  destruct (IH (prefixConn (Some (drop n (b :: held))) open) c) as (j & Hj & Hl). cbn [pending_of] in *.
  destruct (reads ns _ c) as [all wire]. cbn [fst snd] in *. exists (n + j)%nat. subst all. split.
  - rewrite app_assoc. f_equal. by rewrite take_take_drop.
  - intros Hw. specialize (Hl Hw). rewrite length_drop in Hl. lia.
Qed.

(** C40. No byte that arrived before the takeover is lost or comes late: whatever the
    sizes of its reads, the new owner of the connection sees the bytes that were
    held, from the first one and all of them before any byte of the connection. *)
Theorem takeover_loses_nothing held p ns c
    (Hh : hijackWithBuffered (Some (Ok (Some held))) = Ok p) :
  ∃ j, fst (reads ns p c) = take j held ++ snd (reads ns p c) ∧
    (snd (reads ns p c) ≠ [] → (length held ≤ j)%nat).
Proof.
  cbn in Hh. destruct (Z.eqb_spec (Z.of_nat (length held)) 0) as [Hz|Hz].
  - injection Hh as <-. destruct held; [|cbn in Hz; lia]. exists 0%nat. split; [by apply reads_wire|cbn; lia].
  - unfold io_ReadFull in Hh. cbn [s_bytes s_err] in Hh.
    destruct (Nat.leb_spec (length held) (length held)); [|lia]. injection Hh as <-.
    rewrite take_ge by lia. apply (reads_pending ns (prefixConn (Some held) true)).
Qed.
End hijack.

Definition wire_Read (n : nat) : st (list byte) (list byte * option error) := λ w,
  match w with [] => (([], Some EOF), []) | _ => ((take n w, None), drop n w) end.
Lemma takeover_loses_nothing_witness :
  ∃ j, fst (reads wire_Read [4; 3; 3]%nat (prefixConn (Some (string_bytes "P")) true) (string_bytes "RI * HTTP/2.0")) =
    take j (string_bytes "P") ++ snd (reads wire_Read [4; 3; 3]%nat (prefixConn (Some (string_bytes "P")) true) (string_bytes "RI * HTTP/2.0")) ∧
    (snd (reads wire_Read [4; 3; 3]%nat (prefixConn (Some (string_bytes "P")) true) (string_bytes "RI * HTTP/2.0")) ≠ [] → (1 ≤ j)%nat).
Proof. apply (takeover_loses_nothing wire_Read (string_bytes "P")). reflexivity. Defined.
