(* ===== verification/ChunkUpload.v ===== *)
(** * Chunk uploads ([cmd/pmoxs3backuproxy/chunk_upload.go], [storage_class.go])

    A chunk is stored under its digest.  This file models the request, the
    object name - the inverse of the collector's [chunkDigestFromKey] - and the
    two ways of storing a body: buffered, so that the upload can be retried, and
    streamed. *)

From S2P Require Import Prelude GoStrings GoBytes S3 Platform MemWorld Snapshot IndexFormat GCPlan Json Http.

Local Open Scope Z_scope.

(** ** Requests *)

Record chunkRequest := mkChunkRequest {
  cr_Digest : string;
  cr_EncodedSize : Z;    (* int64 *)
  cr_Size : Z;           (* uint64 *)
  cr_WriterID : Z;       (* int32 *)
  cr_ObjectName : string;
}.

Definition sha256_Size : nat := 32.

(** The slices are in range: a digest that decodes to 32 bytes has 64 digits. *)
Definition chunkObjectName (digest : string) : res string :=
  match hex_DecodeString digest with
  | (decoded, None) =>
      if (length decoded =? sha256_Size)%nat
      then Ok ("chunks/" +:+ take_string 2 digest +:+ "/" +:+ take_string 2 (drop_string 2 digest)
               +:+ "/" +:+ drop_string 4 digest)
      else Err (Errorf "invalid SHA-256 chunk digest" [digest])
  | (_, Some _) => Err (Errorf "invalid SHA-256 chunk digest" [digest])
  end.

Definition parseChunkRequest (r : Request) : res chunkRequest :=
  let q := Query r in
  let digest := q "digest" in
  objectName ← chunkObjectName digest;
  match ParseInt (q "encoded-size") 64 with
  | (_, Some _) => Err (Errorf "invalid encoded-size" [q "encoded-size"])
  | (encodedSize, None) =>
    if encodedSize <=? 0 then Err (Errorf "invalid encoded-size" [q "encoded-size"])
    else if (0 <=? ContentLength r) && negb (ContentLength r =? encodedSize)
    then Err (Errorf "encoded-size does not match Content-Length" [fmt_d encodedSize; fmt_d (ContentLength r)])
    else
      match ParseUint (q "size") 64 with
      | (_, Some _) => Err (Errorf "invalid chunk size" [q "size"])
      | (size, None) =>
        if (size =? 0) || (MaxInt64 <? size) then Err (Errorf "invalid chunk size" [q "size"])
        else
          match ParseInt (q "wid") 32 with
          | (_, Some _) => Err (Errorf "invalid writer id" [q "wid"])
          | (wid, None) =>
            if wid <? 0 then Err (Errorf "invalid writer id" [q "wid"])
            else Ok (mkChunkRequest digest encodedSize size (i32 wid) objectName)
          end
      end
  end.

(** ** Storage classes *)

Record storageClassPolicy := mkStorageClassPolicy {
  sc_Chunks : string;
  sc_Backups : string;
  sc_Indexed : string;
}.

Definition putOptions (storageClass : string) (userMetadata : gmap string string) : PutObjectOptions :=
  mkPutOptions storageClass userMetadata "".

Definition indexedCopyOptions (bucket object checksum storageClass : string) : CopyDestOptions :=
  if bool_decide (storageClass = "") then mkCopyDest bucket object false ∅
  else mkCopyDest bucket object true
         (<["csum" := checksum]> (<["x-amz-storage-class" := storageClass]> ∅)).

(** ** Storing *)

Definition isObjectNotFound (e : error) : bool :=
  let '(status, code) := ToErrorResponse e in
  (status =? 404) || bool_decide (code = "NoSuchKey") || bool_decide (code = "NoSuchObject")
  || bool_decide (code = "NotFound").

Definition drainChunkBody (body : stream) (expected : Z) : res unit :=
  match io_Discard body with
  | (_, Some e) => Err e
  | (n, None) => if negb (n =? expected)
                 then Err (Errorf "read encoded bytes, expected" [fmt_d n; fmt_d expected]) else Ok tt
  end.

(** The check after the body: nothing may follow. *)
Definition drainTrailing (site : string) (request : chunkRequest) (body : stream) : res unit :=
  match io_Discard body with
  | (_, Some e) => Err (Wrapf site [cr_Digest request] e)
  | (trailing, None) =>
      if negb (trailing =? 0)
      then Err (Errorf "chunk contains trailing encoded bytes" [cr_Digest request; fmt_d trailing])
      else Ok tt
  end.

Definition maxBufferedChunkBytes : Z := Z.shiftl 16 20.

Section store.
Context {W : Type} `{!ObjectStore W}.

Definition storeBufferedChunk (bucket : string) (request : chunkRequest) (body : stream)
    (storageClass : string) : io W bool :=
  match io_ReadFull (Z.to_nat (cr_EncodedSize request)) body with
  | (_, Some e, _) => fail (Wrapf "read chunk" [cr_Digest request] e)
  | (payload, None, rest) =>
      _ ← lift_res (drainTrailing "drain chunk" request rest);
      found ← try (StatObject bucket (cr_ObjectName request));
      match found with
      | inl _ => mret true
      | inr e =>
          if negb (isObjectNotFound e) then fail (Wrapf "stat chunk" [cr_Digest request] e)
          else
            put ← lift_st (PutObject bucket (cr_ObjectName request) (Stream payload None)
                             (cr_EncodedSize request) (putOptions storageClass ∅));
            _ ← lift_res (wrap "put chunk" [cr_Digest request] put.1);
            mret false
      end
  end.

Definition storeStreamedChunk (bucket : string) (request : chunkRequest) (body : stream)
    (storageClass : string) : io W bool :=
  found ← try (StatObject bucket (cr_ObjectName request));
  match found with
  | inl _ =>
      _ ← lift_res (wrap "drain known chunk" [cr_Digest request]
                      (drainChunkBody body (cr_EncodedSize request)));
      mret true
  | inr e =>
      if negb (isObjectNotFound e) then fail (Wrapf "stat chunk" [cr_Digest request] e)
      else
        (* the counting reader: what the upload has read of the body *)
        put ← lift_st (PutObject bucket (cr_ObjectName request) body (cr_EncodedSize request)
                         (putOptions storageClass ∅));
        _ ← lift_res (wrap "put chunk" [cr_Digest request] put.1);
        let counted := Z.of_nat put.2 in
        if negb (counted =? cr_EncodedSize request)
        then fail (Errorf "put chunk consumed encoded bytes, expected"
                     [cr_Digest request; fmt_d counted; fmt_d (cr_EncodedSize request)])
        else
          _ ← lift_res (drainTrailing "drain chunk after upload" request
                          (Stream (drop put.2 (s_bytes body)) (s_err body)));
          mret false
  end.

Definition storeChunk (bucket : string) (request : chunkRequest) (body : stream) (storageClass : string)
    : io W bool :=
  if cr_EncodedSize request <=? maxBufferedChunkBytes
  then storeBufferedChunk bucket request body storageClass
  else storeStreamedChunk bucket request body storageClass.
End store.

(** ** Names *)

Lemma string_length_drop n s : String.length (drop_string n s) = (String.length s - n)%nat.
Proof. revert s. induction n as [|n IH]; intros [|a s]; cbn; auto. Qed.
Lemma hex_val_not_slash c : is_Some (hex_val c) → Ascii.eqb c slash = false.
Proof. destruct c as [[] [] [] [] [] [] [] []]; vm_compute; intros [? ?]; done. Qed.
Lemma hex_Decode_no_slash s bs : hex_DecodeString s = (bs, None) → has_byte slash s = false.
Proof.
  revert bs. induction s as [|a|a b s IH] using string_pair_ind; intros bs; [done|done|].
  cbn [hex_DecodeString has_byte].
  destruct (hex_val a) eqn:Ea, (hex_val b) eqn:Eb; try done.
  destruct (hex_DecodeString s) as [bs' e]. intros [= <- ->].
  by rewrite !hex_val_not_slash, (IH bs' eq_refl) by eauto.
Qed.
Lemma drop_drop_string n m s : drop_string n (drop_string m s) = drop_string (m + n) s.
Proof. revert s. induction m as [|m IH]; intros s; [done|]. destruct s; cbn; [by destruct n|apply IH]. Qed.

Lemma chunkObjectName_inverse digest key :
  chunkObjectName digest = Ok key ↔ chunkDigestFromKey key = Ok digest.
Proof.
  rewrite chunkDigestFromKey_Ok. unfold chunkObjectName. split.
  - destruct (hex_DecodeString digest) as [bs [e|]] eqn:Hd; [done|].
    destruct (Nat.eqb_spec (length bs) sha256_Size) as [Hl|]; [|done]. intros [= <-].
    pose proof (hex_Decode_length _ _ Hd) as Hlen. rewrite Hl in Hlen. unfold sha256_Size in Hlen.
    exists (take_string 2 digest), (take_string 2 (drop_string 2 digest)), (drop_string 4 digest), bs.
    split; [by rewrite !Join_cons by done|].
    split; [by rewrite <-(take_drop_string 2 digest) at 1;
            rewrite <-(take_drop_string 2 (drop_string 2 digest)) at 1; rewrite drop_drop_string|].
    split_and!.
    + rewrite string_length_take; lia.
    + rewrite string_length_take; [lia|]. rewrite string_length_drop. lia.
    + rewrite string_length_drop. lia.
    + by eapply hex_Decode_no_slash.
    + done.
  - intros (p1 & p2 & p3 & bs & -> & -> & H1 & H2 & H3 & _ & Hd). rewrite Hd.
    pose proof (hex_Decode_length _ _ Hd) as Hlen. rewrite !string_length_app, H1, H2, H3 in Hlen.
    unfold sha256_Size. replace (length bs) with 32%nat by lia. cbn [Nat.eqb]. f_equal.
    replace 4%nat with (2 + 2)%nat by done. rewrite <-drop_drop_string, <-H1, take_string_app, drop_string_app.
    rewrite H1, <-H2, take_string_app, drop_string_app. done.
Qed.

(** The proxy's object name and the collector's parser are inverse to each
    other: a digest has a name exactly when the name is a chunk key of that
    digest. *)
Theorem chunkObjectName_roundtrip digest key :
  chunkObjectName digest = Ok key ↔ chunkDigestFromKey key = Ok digest.
Proof. apply chunkObjectName_inverse. Qed.

(** A digest with an upper-case digit is accepted, but no index refers to the
    object it is stored as: indexes render their digests in lower case. *)
Theorem upper_case_digest_is_orphan digest key index_key data meta idx
    (Hname : chunkObjectName digest = Ok key) (Hcase : lower_hex digest = false)
    (Hidx : parseIndex index_key data meta = Ok idx) :
  chunkDigestFromKey key = Ok digest ∧ digest ∉ digests idx.
Proof.
  split; [by apply chunkObjectName_inverse|]. intros Hin.
  apply parseIndex_inv in Hidx as (h & p & ds & sz & _ & _ & _ & _ & _ & ->). cbn in Hin.
  apply list_elem_of_fmap in Hin as (d & -> & _). by rewrite hex_Encode_lower in Hcase.
Qed.

(** ** Requests *)

Lemma parseChunkRequest_Ok (r : Request) c :
  parseChunkRequest r = Ok c →
  ∃ key encoded size wid,
    chunkObjectName (Query r "digest") = Ok key ∧
    ParseInt (Query r "encoded-size") 64 = (encoded, None) ∧ 0 < encoded ∧
    (ContentLength r < 0 ∨ ContentLength r = encoded) ∧
    ParseUint (Query r "size") 64 = (size, None) ∧ 0 < size ≤ MaxInt64 ∧
    ParseInt (Query r "wid") 32 = (wid, None) ∧ 0 ≤ wid ∧
    c = mkChunkRequest (Query r "digest") encoded size wid key.
Proof.
  unfold parseChunkRequest.
  intros (key & Hk & H)%res_bind_Ok.
  destruct (ParseInt (Query r "encoded-size") 64) as [encoded [e|]] eqn:Ee; [done|].
  destruct (Z.leb_spec encoded 0); [done|].
  destruct ((0 <=? ContentLength r) && negb (ContentLength r =? encoded)) eqn:El; [done|].
  destruct (ParseUint (Query r "size") 64) as [size [e|]] eqn:Es; [done|].
  destruct ((size =? 0) || (MaxInt64 <? size)) eqn:Er; [done|].
  destruct (ParseInt (Query r "wid") 32) as [wid [e|]] eqn:Ew; [done|].
  destruct (Z.ltb_spec wid 0); [done|]. injection H as <-.
  pose proof (ParseInt_range _ 32 _ ltac:(done) Ew) as Hw.
  change (2 ^ (32 - 1)) with (2 ^ 31) in Hw.
  pose proof (ParseUint_range _ 64 _ ltac:(done) Es) as Hs.
  reflect_bools. exists key, encoded, size, wid. split_and!; try done; try lia.
  by rewrite i32_id.
Qed.

(** [parseChunkRequest] accepts exactly the requests with a SHA-256 digest, a
    positive size that agrees with the announced body, a positive chunk size that
    fits an [int64], and a non-negative 32-bit writer id - and hands all of them
    on unchanged. *)
Theorem parseChunkRequest_iff (r : Request) c :
  parseChunkRequest r = Ok c ↔
  ∃ key encoded size wid,
    chunkObjectName (Query r "digest") = Ok key ∧
    ParseInt (Query r "encoded-size") 64 = (encoded, None) ∧ 0 < encoded ∧
    (ContentLength r < 0 ∨ ContentLength r = encoded) ∧
    ParseUint (Query r "size") 64 = (size, None) ∧ 0 < size ≤ MaxInt64 ∧
    ParseInt (Query r "wid") 32 = (wid, None) ∧ 0 ≤ wid ∧
    c = mkChunkRequest (Query r "digest") encoded size wid key.
Proof.
  split.
  - apply parseChunkRequest_Ok.
  - intros (key & encoded & size & wid & Hk & Ee & ? & El & Es & ? & Ew & ? & ->).
    pose proof (ParseInt_range _ 32 _ ltac:(done) Ew) as Hw.
    change (2 ^ (32 - 1)) with (2 ^ 31) in Hw.
    unfold parseChunkRequest. rewrite Hk. cbn [mbind res_bind]. rewrite Ee, Es, Ew.
    destruct (Z.leb_spec encoded 0); [lia|].
    assert ((0 <=? ContentLength r) && negb (ContentLength r =? encoded) = false) as ->.
    { destruct El as [?| ->]; [|by rewrite Z.eqb_refl, andb_false_r].
      by destruct (Z.leb_spec 0 (ContentLength r)); [lia|]. }
    destruct (Z.eqb_spec size 0); [lia|]. destruct (Z.ltb_spec MaxInt64 size); [lia|]. cbn [orb].
    destruct (Z.ltb_spec wid 0); [lia|]. by rewrite i32_id.
Qed.

(** ** What a stored chunk is *)

Lemma io_ReadFull_ok n s got rest :
  io_ReadFull n s = (got, None, rest) →
  got = take n (s_bytes s) ∧ (n ≤ length (s_bytes s))%nat ∧ rest = Stream (drop n (s_bytes s)) (s_err s).
Proof.
  unfold io_ReadFull. destruct (Nat.leb_spec n (length (s_bytes s))).
  - by intros [= <- <-].
  - by destruct (s_err s); intros [= <- ?].
Qed.
Lemma drainTrailing_ok site q s : drainTrailing site q s = Ok tt → s_bytes s = [] ∧ s_err s = None.
Proof.
  unfold drainTrailing, io_Discard. destruct (s_err s); [done|].
  destruct (Z.eqb_spec (Z.of_nat (length (s_bytes s))) 0) as [Hl|]; [|done].
  intros _. split; [|done]. apply nil_length_inv. lia.
Qed.
Lemma drop_nil_take {A} n (l : list A) :
  drop n l = [] → (n ≤ length l)%nat → length l = n ∧ take n l = l.
Proof.
  intros Hd Hn. apply (f_equal length) in Hd as Hl. rewrite length_drop in Hl. cbn in Hl.
  split; [lia|]. apply take_ge. lia.
Qed.

Section outcome.
Context {W : Type} `{ObjectStoreLaws W}.

(** What an accepted upload means. *)
Definition stored (bucket : string) (q : chunkRequest) (body : stream) (known : bool) (w w' : W) : Prop :=
  Z.of_nat (length (s_bytes body)) = cr_EncodedSize q ∧ s_err body = None ∧
  if known then keeps_all w w' ∧ is_Some (contents w' bucket !! cr_ObjectName q)
  else ∃ x, contents w' bucket !! cr_ObjectName q = Some x ∧ o_data x = s_bytes body.

Lemma try_stat bucket k (w w' : W) r :
  try (StatObject bucket k) w = (Ok r, w') →
  keeps_all w w' ∧ ∀ oi, r = inl oi → is_Some (contents w' bucket !! k).
Proof.
  unfold try. destruct (StatObject bucket k w) as [[oi|e|p] w1] eqn:E; intros; simplify_eq.
  - pose proof (StatObject_effect _ _ _ _ _ E) as Hk. split; [done|]. intros _ _.
    rewrite (keeps_all_lookup _ _ _ _ Hk). by eapply StatObject_found.
  - split; [by eapply StatObject_effect|done].
Qed.

Lemma storeBufferedChunk_ok bucket q body sc w known w' :
  0 < cr_EncodedSize q → storeBufferedChunk bucket q body sc w = (Ok known, w') →
  stored bucket q body known w w'.
Proof.
  intros Hq Hrun. unfold storeBufferedChunk in Hrun.
  destruct (io_ReadFull _ body) as [[got [e|]] rest] eqn:Hread; [done|].
  apply io_ReadFull_ok in Hread as (-> & Hn & ->).
  apply io_bind_Ok_inv in Hrun as ([] & w1 & Hd & Hrun). injection Hd as Hd <-.
  apply drainTrailing_ok in Hd as [Hd He]. cbn in Hd, He. apply drop_nil_take in Hd as [Hl Ht]; [|done].
  apply io_bind_Ok_inv in Hrun as (r & w1 & Hstat & Hrun). apply try_stat in Hstat as [Hk Hf].
  unfold stored. split; [lia|]. split; [done|]. destruct r as [oi|e].
  { injection Hrun as <- <-. split; [done|]. by eapply Hf. }
  destruct (negb _); [done|].
  apply io_bind_Ok_inv in Hrun as ([r m] & w2 & Hput & Hrun). unfold lift_st in Hput.
  destruct (PutObject _ _ _ _ _ w1) as [p w3] eqn:Hp. injection Hput as -> <-.
  apply io_bind_Ok_inv in Hrun as ([] & w4 & Hr & Hrun). injection Hr as Hr <-. injection Hrun as <- <-.
  cbn in Hr. apply wrap_Ok in Hr as ->.
  apply PutObject_done in Hp as (_ & _ & x & Hx & Hdata & _); [|lia]. exists x. split; [done|].
  rewrite Hdata, Ht. cbn. rewrite take_ge; [done|]. lia.
Qed.

Lemma storeStreamedChunk_ok bucket q body sc w known w' :
  0 < cr_EncodedSize q → storeStreamedChunk bucket q body sc w = (Ok known, w') →
  stored bucket q body known w w'.
Proof.
  intros Hq Hrun. unfold storeStreamedChunk in Hrun.
  apply io_bind_Ok_inv in Hrun as (r & w1 & Hstat & Hrun). apply try_stat in Hstat as [Hk Hf].
  unfold stored. destruct r as [oi|e].
  { apply io_bind_Ok_inv in Hrun as ([] & w2 & Hd & Hrun). injection Hd as Hd <-. injection Hrun as <- <-.
    apply wrap_Ok in Hd. unfold drainChunkBody, io_Discard in Hd. destruct (s_err body); [done|].
    destruct (Z.eqb_spec (Z.of_nat (length (s_bytes body))) (cr_EncodedSize q)); [|done].
    split_and!; try done. by eapply Hf. }
  destruct (negb (isObjectNotFound e)); [done|].
  apply io_bind_Ok_inv in Hrun as ([r m] & w2 & Hput & Hrun). unfold lift_st in Hput.
  destruct (PutObject _ _ _ _ _ w1) as [p w3] eqn:Hp. injection Hput as -> <-.
  apply io_bind_Ok_inv in Hrun as ([] & w4 & Hr & Hrun). injection Hr as Hr <-.
  cbn in Hr. apply wrap_Ok in Hr as ->. cbn in Hrun.
  apply PutObject_done in Hp as (Hn & -> & x & Hx & Hdata & _); [|lia].
  destruct (negb _); [done|].
  apply io_bind_Ok_inv in Hrun as ([] & w5 & Hd & Hrun). injection Hd as Hd <-. injection Hrun as <- <-.
  apply (drainTrailing_ok _ _ (Stream (drop _ (s_bytes body)) _)) in Hd as [Hd He].
  cbn in Hd, He. apply drop_nil_take in Hd as [Hl Ht]; [|done].
  split; [lia|]. split; [done|]. exists x. by rewrite Hdata, Ht.
Qed.

Lemma storeChunk_effect bucket q body sc :
  effect (W:=W) (keeps (λ b k, b ≠ bucket ∨ k ≠ cr_ObjectName q)) (storeChunk bucket q body sc).
Proof.
  unfold storeChunk, storeBufferedChunk, storeStreamedChunk.
  pose proof (PutObject_effect (W:=W)). solve_effect.
Qed.

(** An object that is there is never overwritten: only a HEAD that denies it is
    followed by an upload. *)
Lemma stat_put_keeps_present {A} bucket k body n opts (known : ObjectInfo → io W A) (refused : error → error)
    (uploaded : res unit * nat → io W A) P :
  (∀ oi, effect keeps_all (known oi)) → (∀ p, effect keeps_all (uploaded p)) →
  effect (keeps_present P)
    (found ← try (StatObject bucket k);
     match found with
     | inl oi => known oi
     | inr e => if negb (isObjectNotFound e) then fail (refused e)
                else put ← lift_st (PutObject bucket k body n opts); uploaded put
     end).
Proof.
  intros Hknown Hup w r w' Hrun. cbv [mbind io_bind] in Hrun. unfold try in Hrun.
  destruct (StatObject bucket k w) as [[oi|e|p] w1] eqn:Hs; pose proof (StatObject_effect _ _ _ _ _ Hs) as K1.
  - apply Hknown in Hrun. eapply keeps_all_keeps_present. by transitivity w1.
  - destruct (isObjectNotFound e) eqn:He; cbn [negb] in Hrun.
    2:{ injection Hrun as _ <-. by apply keeps_all_keeps_present. }
    apply StatObject_absent in Hs as Hn; [|done]. unfold lift_st in Hrun.
    destruct (PutObject bucket k body n opts w1) as [put w2] eqn:Hp. apply Hup in Hrun.
    intros b k' _ Hx. rewrite (keeps_all_lookup _ _ _ _ Hrun), <-(keeps_all_lookup _ _ _ _ K1).
    eapply PutObject_effect; [exact Hp|].
    destruct (decide (b = bucket)) as [->|]; [|by left]. right. intros ->. rewrite Hn in Hx. by destruct Hx.
  - injection Hrun as _ <-. by apply keeps_all_keeps_present.
Qed.
Lemma storeChunk_keeps_present bucket q body sc P :
  effect (W:=W) (keeps_present P) (storeChunk bucket q body sc).
Proof.
  unfold storeChunk. destruct (_ <=? _); unfold storeBufferedChunk, storeStreamedChunk.
  - destruct (io_ReadFull _ body) as [[got [e|]] rest]; [solve_effect|].
    apply effect_bind; [apply _|apply effect_lift_res, _|]. intros _.
    apply stat_put_keeps_present; intros; solve_effect.
  - apply stat_put_keeps_present; intros; solve_effect.
Qed.

Lemma storeChunk_ok bucket q body sc (w : W) known w' :
  0 < cr_EncodedSize q → storeChunk bucket q body sc w = (Ok known, w') → stored bucket q body known w w'.
Proof.
  intros Hq Hrun. unfold storeChunk in Hrun.
  case_match; [by eapply storeBufferedChunk_ok|by eapply storeStreamedChunk_ok].
Qed.
Lemma stored_present bucket q body known (w w' : W) :
  stored bucket q body known w w' → is_Some (contents w' bucket !! cr_ObjectName q).
Proof. intros (_ & _ & Hx). destruct known; [apply Hx|]. destruct Hx as (x & -> & _). eauto. Qed.

(** C31. An upload touches one object, the chunk's, and when it is accepted the
    client has sent exactly the announced bytes and the chunk is there: stored now,
    byte for byte, or found and left alone. *)
Theorem storeChunk_outcome bucket q body sc (w w' : W) r
    (Hq : 0 < cr_EncodedSize q) (Hrun : storeChunk bucket q body sc w = (r, w')) :
  keeps (λ b k, b ≠ bucket ∨ k ≠ cr_ObjectName q) w w' ∧
  ∀ known, r = Ok known → stored bucket q body known w w'.
Proof.
  split; [by eapply storeChunk_effect|]. intros known ->. by eapply storeChunk_ok.
Qed.

(** A body that differs in length from the announcement, or breaks off, is
    refused before anything is stored - for chunks that are buffered. *)
Theorem storeBufferedChunk_refuses bucket q body sc (w w' : W) r
    (Hq : 0 < cr_EncodedSize q ≤ maxBufferedChunkBytes)
    (Hbad : Z.of_nat (length (s_bytes body)) ≠ cr_EncodedSize q ∨ s_err body ≠ None)
    (Hrun : storeChunk bucket q body sc w = (r, w')) :
  is_ok r = false ∧ keeps_all w w'.
Proof.
  unfold storeChunk in Hrun. destruct (Z.leb_spec (cr_EncodedSize q) maxBufferedChunkBytes); [|lia].
  unfold storeBufferedChunk in Hrun.
  destruct (io_ReadFull _ body) as [[got [e|]] rest] eqn:Hread; [by injection Hrun as <- <-|].
  apply io_ReadFull_ok in Hread as (-> & Hn & ->).
  apply io_bind_inv in Hrun as [([] & w1 & Hd & _)|[(e & Hd & ->)|(p & Hd & ->)]];
    [|by injection Hd as _ <-..].
  apply (f_equal fst), drainTrailing_ok in Hd as [Hd He]. cbn in Hd, He.
  apply drop_nil_take in Hd as [Hl _]; [|done]. destruct Hbad; [lia|done].
Qed.
End outcome.

(** ** Uploads to a concrete bucket *)

Definition upper_digest : string := String.concat "" (replicate 32 "AA").
Definition lower_digest : string := hex_EncodeToString (digest_of 7).
Definition upload_world : mem := Mem {[ "pbs" := ∅ ]} ∅ 0 0 [].
Definition upload_request : chunkRequest :=
  mkChunkRequest lower_digest 3 4194304 1 (default "" (match chunkObjectName lower_digest with Ok k => Some k | _ => None end)).
Definition upload_body : stream := Stream (string_bytes "abc") None.

Example storeChunk_new :
  fst (storeChunk "pbs" upload_request upload_body "" upload_world) = Ok false.
Proof. vm_compute. reflexivity. Qed.
Example storeChunk_again :
  let w := snd (storeChunk "pbs" upload_request upload_body "" upload_world) in
  fst (storeChunk "pbs" upload_request upload_body "" w) = Ok true.
Proof. vm_compute. reflexivity. Qed.

Lemma storeChunk_outcome_witness :
  let w' := snd (storeChunk "pbs" upload_request upload_body "" upload_world) in
  keeps (λ b k, b ≠ "pbs" ∨ k ≠ cr_ObjectName upload_request) upload_world w' ∧
  ∀ known, Ok false = Ok known → stored "pbs" upload_request upload_body known upload_world w'.
Proof.
  apply (storeChunk_outcome "pbs" upload_request upload_body "" upload_world).
  - reflexivity.
  - vm_compute. reflexivity.
Defined.
Lemma storeBufferedChunk_refuses_witness :
  let r := storeChunk "pbs" upload_request (Stream (string_bytes "abcd") None) "" upload_world in
  is_ok (fst r) = false ∧ keeps_all upload_world (snd r).
Proof.
  apply (storeBufferedChunk_refuses "pbs" upload_request (Stream (string_bytes "abcd") None) "" upload_world).
  - split; [reflexivity|vm_compute; discriminate].
  - left. vm_compute. discriminate.
  - by destruct (storeChunk _ _ _ _ _).
Defined.

Definition upper_key : string := Join ["chunks"; "AA"; "AA"; drop_string 4 upper_digest] slash.
(** The same digest, as the index renders it, is another one. *)
Lemma upper_case_digest_is_orphan_witness :
  chunkDigestFromKey upper_key = Ok upper_digest ∧ upper_digest ∉ digests (example_parsed [170]).
Proof.
  apply (upper_case_digest_is_orphan upper_digest upper_key example_index_key
    (o_data (example_index [170])) (example_meta [170])).
  - vm_compute. reflexivity.
  - vm_compute. reflexivity.
  - vm_compute. reflexivity.
Defined.
