(* ===== verification/ChunkFlight.v ===== *)
(** * Coalescing uploads of the same chunk ([cmd/pmoxs3backuproxy/chunk_upload.go])

    [chunkFlightGroup]: the first request for a chunk uploads it, requests that
    arrive meanwhile drain their bodies and wait for its end.  [Do] is one request
    given what it meets; the step relation interleaves any number of them. *)

From S2P Require Import Prelude S3.

Local Open Scope Z_scope.

(** ** One request *)

(** What a request meets: nobody, a call whose outcome it waits for, or a call
    that is still under way when the request's context ends. *)
Inductive arrival :=
| First
| Joins (call_err : option error)
| Cancelled (ctx_err : error).

Definition Do {H} (a : arrival) (leader : io H bool) (drainFollower : res unit) : io H bool :=
  match a with
  | First => leader
  | Joins call_err =>
      _ ← lift_res (wrap "drain duplicate chunk body" [] drainFollower);
      match call_err with Some e => fail e | None => mret true end
  | Cancelled e =>
      _ ← lift_res (wrap "drain duplicate chunk body" [] drainFollower);
      fail e
  end.

(** The error [finish] is given: a panic of the leader is an error for the others. *)
Definition call_outcome (r : res bool) : option error :=
  match r with
  | Ok _ => None
  | Err e => Some e
  | Panicked why => Some (Errorf "chunk upload leader panicked" [why])
  end.

(** ** The group *)

(** [calls], and the calls that have been closed with their error; a call is
    named by the request that leads it. *)
Record chunkFlightGroup := mkGroup {
  calls : gmap string nat;
  closed : gmap nat (option error);
}.

Definition finish (key : string) (call : nat) (err : option error) (g : chunkFlightGroup) : chunkFlightGroup :=
  mkGroup (if bool_decide (calls g !! key = Some call) then delete key (calls g) else calls g)
    (<[call := err]> (closed g)).

Inductive phase :=
| Leading                      (* inside [leader()] *)
| Draining (call : nat)        (* inside [drainFollower()] *)
| Waiting (call : nat)         (* in the select *)
| Answered (r : res bool).

Record request_state := mkReq { rq_key : string; rq_phase : phase }.
Record group_state := mkGS { gs_group : chunkFlightGroup; gs_requests : gmap nat request_state }.

Definition set_phase (i : nat) (q : request_state) (p : phase) (s : group_state) : gmap nat request_state :=
  <[i := mkReq (rq_key q) p]> (gs_requests s).

(** One step of one request: the critical sections under [mu], the end of the
    leader, of the draining and of the waiting. *)
Inductive flight_step : group_state → group_state → Prop :=
| enter_first s i key :
    gs_requests s !! i = None → calls (gs_group s) !! key = None →
    flight_step s (mkGS (mkGroup (<[key := i]> (calls (gs_group s))) (closed (gs_group s)))
                        (<[i := mkReq key Leading]> (gs_requests s)))
| enter_join s i key c :
    gs_requests s !! i = None → calls (gs_group s) !! key = Some c →
    flight_step s (mkGS (gs_group s) (<[i := mkReq key (Draining c)]> (gs_requests s)))
| lead_end s i q r :
    gs_requests s !! i = Some q → rq_phase q = Leading →
    flight_step s (mkGS (finish (rq_key q) i (call_outcome r) (gs_group s)) (set_phase i q (Answered r) s))
| drained s i q c (d : res unit) :
    gs_requests s !! i = Some q → rq_phase q = Draining c →
    flight_step s (mkGS (gs_group s) (set_phase i q
      (match d with
       | Ok _ => Waiting c
       | Err e => Answered (Err (Wrapf "drain duplicate chunk body" [] e))
       | Panicked p => Answered (Panicked p)
       end) s))
| call_done s i q c e :
    gs_requests s !! i = Some q → rq_phase q = Waiting c → closed (gs_group s) !! c = Some e →
    flight_step s (mkGS (gs_group s) (set_phase i q
      (Answered (match e with Some e => Err e | None => Ok true end)) s))
| ctx_done s i q c e :
    gs_requests s !! i = Some q → rq_phase q = Waiting c →
    flight_step s (mkGS (gs_group s) (set_phase i q (Answered (Err e)) s)).

Definition no_flights : group_state := mkGS (mkGroup ∅ ∅) ∅.

(** ** The invariant *)

(** A call in the table is led by a request for its key that is inside [leader()];
    a leader is in the table; a follower's call is for its own key, and is led or
    closed; a closed call has the outcome its leader answered. *)
Record flights_ok (s : group_state) : Prop := {
  fo_calls : ∀ key c, calls (gs_group s) !! key = Some c →
    gs_requests s !! c = Some (mkReq key Leading);
  fo_leading : ∀ i q, gs_requests s !! i = Some q → rq_phase q = Leading →
    calls (gs_group s) !! rq_key q = Some i;
  fo_follower : ∀ i q c, gs_requests s !! i = Some q →
    rq_phase q = Draining c ∨ rq_phase q = Waiting c →
    ∃ q', gs_requests s !! c = Some q' ∧ rq_key q' = rq_key q ∧
      (rq_phase q' = Leading ∨ is_Some (closed (gs_group s) !! c));
  fo_closed : ∀ c e, closed (gs_group s) !! c = Some e →
    ∃ q r, gs_requests s !! c = Some q ∧ rq_phase q = Answered r ∧ e = call_outcome r;
  fo_true : ∀ i q, gs_requests s !! i = Some q → rq_phase q = Answered (Ok true) ∨ rq_phase q = Answered (Ok false) →
    ∃ c q', gs_requests s !! c = Some q' ∧ rq_key q' = rq_key q ∧ closed (gs_group s) !! c = Some None;
}.

(** A follower moves on: no leader, nor an answer, changes. *)
Lemma follower_moves s i q p c :
  flights_ok s → gs_requests s !! i = Some q →
  rq_phase q = Draining c ∨ rq_phase q = Waiting c →
  (p = Waiting c ∨ (∃ r, p = Answered r ∧ (is_ok r = true → closed (gs_group s) !! c = Some None))) →
  flights_ok (mkGS (gs_group s) (set_phase i q p s)).
Proof.
  intros [H1 H2 H3 H4 H5] Hi Hc Hp.
  assert (rq_phase q ≠ Leading) as Hnl by (destruct Hc as [E|E]; by rewrite E).
  assert (p ≠ Leading) as Hpl by (destruct Hp as [->|(r & -> & _)]; done).
  assert (∀ j q', gs_requests s !! j = Some q' → j ≠ i → set_phase i q p s !! j = Some q') as Hother
    by (intros j q' Hj Hne; unfold set_phase; by rewrite lookup_insert_ne).
  assert (∃ q', gs_requests s !! c = Some q' ∧ rq_key q' = rq_key q ∧
           (rq_phase q' = Leading ∨ is_Some (closed (gs_group s) !! c))) as (ql & Hql & Hkl & Hl)
    by (eapply H3; eauto).
  assert (c ≠ i) as Hci.
  { intros ->. simplify_eq. destruct Hl as [Hl|[e He]]; [done|].
    apply H4 in He as (q' & r & ? & Hr & _). simplify_eq. destruct Hc as [E|E]; by rewrite E in Hr. }
  split; cbn [gs_group gs_requests].
  - intros key d Hd. apply Hother; [by apply H1|]. intros ->. apply H1 in Hd. by simplify_eq.
  - intros j q' Hj Hlead. unfold set_phase in Hj.
    apply lookup_insert_Some in Hj as [[<- <-]|[Hne Hj]]; [done|by eapply H2].
  - intros j q' d Hj Hd. unfold set_phase in Hj. apply lookup_insert_Some in Hj as [[<- <-]|[Hne Hj]].
    + cbn in Hd. assert (d = c) as -> by (destruct Hp as [->|(r & -> & _)]; naive_solver).
      exists ql. split_and!; [by apply Hother|done|done].
    + destruct (H3 j q' d Hj Hd) as (q2 & Hq2 & Hk2 & Hs2). destruct (decide (d = i)) as [->|].
      * simplify_eq. destruct Hs2 as [Hs2|Hs2]; [done|]. destruct Hs2 as [e He].
        apply H4 in He as (q3 & r & ? & Hr & _). simplify_eq. destruct Hc as [E|E]; by rewrite E in Hr.
      * exists q2. split_and!; [by apply Hother|done|done].
  - intros d e He. destruct (H4 d e He) as (q' & r & Hq' & Hr & ?). exists q', r.
    split_and!; [|done|done]. apply Hother; [done|]. intros ->. simplify_eq.
    destruct Hc as [E|E]; by rewrite E in Hr.
  - intros j q' Hj Ha. unfold set_phase in Hj. apply lookup_insert_Some in Hj as [[<- <-]|[Hne Hj]].
    + cbn in Ha. destruct Hp as [->|(r & -> & Hr)]; [naive_solver|]. exists c, ql.
      split_and!; [by apply Hother|done|]. apply Hr. destruct Ha as [[= ->]|[= ->]]; done.
    + destruct (H5 j q' Hj Ha) as (d & q2 & Hq2 & Hk2 & Hd). exists d.
      destruct (decide (d = i)) as [->|]; [|exists q2; split_and!; [by apply Hother|done|done]].
      apply H4 in Hd as (q3 & r & ? & Hr & _). simplify_eq. destruct Hc as [E|E]; by rewrite E in Hr.
Qed.

Lemma enters s i key p g' :
  flights_ok s → gs_requests s !! i = None →
  (p = Leading ∧ calls (gs_group s) !! key = None ∧
     g' = mkGroup (<[key := i]> (calls (gs_group s))) (closed (gs_group s)) ∨
   ∃ c, p = Draining c ∧ calls (gs_group s) !! key = Some c ∧ g' = gs_group s) →
  flights_ok (mkGS g' (<[i := mkReq key p]> (gs_requests s))).
Proof.
  intros [H1 H2 H3 H4 H5] Hi Hp.
  assert (∀ j q', gs_requests s !! j = Some q' → <[i := mkReq key p]> (gs_requests s) !! j = Some q') as Hother
    by (intros j q' Hj; rewrite lookup_insert_ne; [done|]; intros ->; congruence).
  assert (closed g' = closed (gs_group s)) as Hcl by (destruct Hp as [(_ & _ & ->)|(c & _ & _ & ->)]; done).
  split; cbn [gs_group gs_requests]; rewrite ?Hcl.
  - intros k c Hc. destruct Hp as [(-> & Hn & ->)|(d & -> & Hd & ->)].
    + cbn in Hc. apply lookup_insert_Some in Hc as [[<- <-]|[Hne Hc]]; [by rewrite lookup_insert_eq|].
      by apply Hother, H1.
    + by apply Hother, H1.
  - intros j q' Hj Hlead. apply lookup_insert_Some in Hj as [[<- <-]|[Hne Hj]].
    + destruct Hp as [(_ & _ & ->)|(d & -> & _)]; [|done]. cbn. by rewrite lookup_insert_eq.
    + pose proof (H2 j q' Hj Hlead) as Hc. destruct Hp as [(-> & Hn & ->)|(d & _ & _ & ->)]; [|done].
      cbn. rewrite lookup_insert_ne; [done|]. congruence.
  - intros j q' c Hj Hc. apply lookup_insert_Some in Hj as [[<- <-]|[Hne Hj]].
    + destruct Hp as [(-> & _)|(d & -> & Hd & ->)]; [naive_solver|]. cbn in Hc.
      assert (d = c) as -> by naive_solver. apply H1 in Hd. exists (mkReq key Leading).
      split_and!; [by apply Hother|done|by left].
    + destruct (H3 j q' c Hj Hc) as (q2 & ? & ? & ?). exists q2. split_and!; [by apply Hother|done|done].
  - intros c e He. destruct (H4 c e He) as (q' & r & Hq' & ? & ?). exists q', r. split_and!; [by apply Hother|done|done].
  - intros j q' Hj Ha. apply lookup_insert_Some in Hj as [[<- <-]|[Hne Hj]].
    + destruct Hp as [(-> & _)|(d & -> & _)]; naive_solver.
    + destruct (H5 j q' Hj Ha) as (d & q2 & ? & ? & ?). exists d, q2. split_and!; [by apply Hother|done|done].
Qed.

Lemma leader_ends s i q r :
  flights_ok s → gs_requests s !! i = Some q → rq_phase q = Leading →
  flights_ok (mkGS (finish (rq_key q) i (call_outcome r) (gs_group s)) (set_phase i q (Answered r) s)).
Proof.
  intros [H1 H2 H3 H4 H5] Hi Hq. pose proof (H2 i q Hi Hq) as Hcall.
  assert (closed (gs_group s) !! i = None) as Hopen.
  { destruct (closed (gs_group s) !! i) as [e|] eqn:He; [|done].
    apply H4 in He as (q' & r' & ? & Hr & _). simplify_eq. congruence. }
  unfold finish, set_phase. rewrite bool_decide_eq_true_2 by done.
  split; cbn [gs_group gs_requests calls closed].
  - intros k c [Hne Hc]%lookup_delete_Some. apply H1 in Hc as Hr. rewrite lookup_insert_ne; [done|].
    intros <-. simplify_eq.
  - intros j q' Hj Hlead. apply lookup_insert_Some in Hj as [[<- <-]|[Hne Hj]]; [done|].
    pose proof (H2 j q' Hj Hlead) as Hc. rewrite lookup_delete_ne; [done|]. congruence.
  - intros j q' c Hj Hc. apply lookup_insert_Some in Hj as [[<- <-]|[Hne Hj]]; [naive_solver|].
    destruct (H3 j q' c Hj Hc) as (q2 & Hq2 & Hk2 & Hs2). destruct (decide (c = i)) as [->|].
    + simplify_eq. eexists. rewrite !lookup_insert_eq. split_and!; [done|done|right; eauto].
    + exists q2. rewrite !lookup_insert_ne by done. done.
  - intros c e He. apply lookup_insert_Some in He as [[<- <-]|[Hne He]].
    + eexists _, r. by rewrite lookup_insert_eq.
    + destruct (H4 c e He) as (q' & r' & ? & ? & ?). exists q', r'. by rewrite lookup_insert_ne.
  - intros j q' Hj Ha. apply lookup_insert_Some in Hj as [[<- <-]|[Hne Hj]].
    + exists i. eexists. rewrite !lookup_insert_eq. split_and!; [done|done|]. cbn in Ha.
      destruct Ha as [[= ->]|[= ->]]; done.
    + destruct (H5 j q' Hj Ha) as (d & q2 & Hd & ? & Hc). exists d, q2.
      assert (d ≠ i) by (intros ->; congruence). by rewrite !lookup_insert_ne.
Qed.

Lemma flight_step_ok s s' : flights_ok s → flight_step s s' → flights_ok s'.
Proof.
  intros Hok Hstep. destruct Hstep as [s i key Hi Hk|s i key c Hi Hk|s i q r Hi Hq|s i q c d Hi Hq|s i q c e Hi Hq Hc|s i q c e Hi Hq].
  - apply enters; [done|done|]. left. by split_and!.
  - apply (enters _ _ _ _ (gs_group s)); [done|done|]. right. eauto.
  - by apply leader_ends.
  - eapply follower_moves; [done|done|by left|]. destruct d; [by left|right; eexists; split; [done|done]..].
  - eapply follower_moves; [done|done|by right|]. right. eexists. split; [done|]. by destruct e.
  - eapply follower_moves; [done|done|by right|]. right. by eexists.
Qed.
Lemma flights_reachable s : rtc flight_step no_flights s → flights_ok s.
Proof.
  intros Hr. cut (flights_ok no_flights).
  - induction Hr as [|? ? ? Hstep _ IH]; [done|]. intros H. by eapply IH, flight_step_ok.
  - split; cbn; intros; simplify_map_eq.
Qed.

(** ** Properties *)

(** C18. However requests interleave, at most one of them is uploading a given
    chunk, and a request that is answered with success owes it to an upload of its
    own key that ended without an error: its own or the one it waited for. *)
Theorem single_flight s (Hreach : rtc flight_step no_flights s) :
  (∀ i j qi qj, gs_requests s !! i = Some qi → gs_requests s !! j = Some qj →
     rq_phase qi = Leading → rq_phase qj = Leading → rq_key qi = rq_key qj → i = j) ∧
  (∀ i q known, gs_requests s !! i = Some q → rq_phase q = Answered (Ok known) →
     ∃ c q' b, gs_requests s !! c = Some q' ∧ rq_key q' = rq_key q ∧ rq_phase q' = Answered (Ok b) ∧
       closed (gs_group s) !! c = Some None).
Proof.
  pose proof (flights_reachable s Hreach) as [H1 H2 H3 H4 H5]. split.
  - intros i j qi qj Hi Hj Li Lj Hk. pose proof (H2 _ _ Hi Li) as A. pose proof (H2 _ _ Hj Lj) as B.
    rewrite Hk in A. congruence.
  - intros i q known Hi Ha. destruct (H5 i q Hi) as (c & q' & Hc & Hk & Hcl); [destruct known; auto|].
    destruct (H4 c None Hcl) as (q2 & r & ? & Hr & He). simplify_eq. destruct r as [b| |]; [|done..].
    by exists c, q', b.
Qed.

(** C19. No request waits forever for a call nobody will close: a waiting request
    either can take its answer, because the call is closed, or the request that
    leads the call is still uploading the same chunk - and it waits for nobody. *)
Theorem waiting_ends s i q c (Hreach : rtc flight_step no_flights s)
    (Hi : gs_requests s !! i = Some q) (Hq : rq_phase q = Waiting c) :
  (∃ q', gs_requests s !! c = Some q' ∧ rq_key q' = rq_key q ∧ rq_phase q' = Leading) ∨
  (∃ e, closed (gs_group s) !! c = Some e ∧
     flight_step s (mkGS (gs_group s) (set_phase i q (Answered (match e with Some e => Err e | None => Ok true end)) s))).
Proof.
  pose proof (flights_reachable s Hreach) as [_ _ H3 _ _].
  destruct (H3 i q c Hi (or_intror Hq)) as (q' & Hq' & Hk & [Hl|[e He]]); [left; eauto|].
  right. exists e. split; [done|]. by eapply call_done.
Qed.

(** ** A run *)

(** Request 0 uploads, request 1 joins; the leader panics. *)
Definition key_a : string := "pbs/chunks/aa".
Definition fl1 : group_state := mkGS (mkGroup (<[key_a := 0%nat]> ∅) ∅) (<[0%nat := mkReq key_a Leading]> ∅).
Definition fl2 : group_state := mkGS (gs_group fl1) (<[1%nat := mkReq key_a (Draining 0)]> (gs_requests fl1)).
Definition fl3 : group_state := mkGS (gs_group fl2) (set_phase 1 (mkReq key_a (Draining 0)) (Waiting 0) fl2).
Definition fl4 : group_state :=
  mkGS (finish key_a 0 (call_outcome (Ok false)) (gs_group fl3))
    (set_phase 0 (mkReq key_a Leading) (Answered (Ok false)) fl3).
Lemma fl3_reachable : rtc flight_step no_flights fl3.
Proof.
  eapply rtc_l; [apply (enter_first no_flights 0 key_a); done|].
  eapply rtc_l; [apply (enter_join fl1 1 key_a 0); done|].
  eapply rtc_l; [by apply (drained fl2 1 (mkReq key_a (Draining 0)) 0 (Ok tt))|]. apply rtc_refl.
Qed.
Lemma fl4_reachable : rtc flight_step no_flights fl4.
Proof.
  eapply rtc_r; [apply fl3_reachable|]. by apply (lead_end fl3 0 (mkReq key_a Leading) (Ok false)).
Qed.

Lemma single_flight_witness :
  (∀ i j qi qj, gs_requests fl3 !! i = Some qi → gs_requests fl3 !! j = Some qj →
     rq_phase qi = Leading → rq_phase qj = Leading → rq_key qi = rq_key qj → i = j) ∧
  (∀ i q known, gs_requests fl3 !! i = Some q → rq_phase q = Answered (Ok known) →
     ∃ c q' b, gs_requests fl3 !! c = Some q' ∧ rq_key q' = rq_key q ∧ rq_phase q' = Answered (Ok b) ∧
       closed (gs_group fl3) !! c = Some None).
Proof. apply single_flight. apply fl3_reachable. Defined.
Lemma waiting_ends_witness :
  (∃ q', gs_requests fl4 !! 0%nat = Some q' ∧ rq_key q' = rq_key (mkReq key_a (Waiting 0)) ∧ rq_phase q' = Leading) ∨
  (∃ e, closed (gs_group fl4) !! 0%nat = Some e ∧
     flight_step fl4 (mkGS (gs_group fl4) (set_phase 1 (mkReq key_a (Waiting 0))
       (Answered (match e with Some e => Err e | None => Ok true end)) fl4))).
Proof. apply (waiting_ends fl4 1); [apply fl4_reachable|reflexivity|reflexivity]. Defined.
