(* ===== verification/Session.v ===== *)
(** * The state of a backup or restore session ([cmd/pmoxs3backuproxy/types.go])

    A [Server] value serves one HTTP/2 session; its writers are the indexes that
    are being assembled.  The handlers are modelled one request at a time. *)

From S2P Require Import Prelude GoStrings S3 Snapshot ChunkUpload.

Local Open Scope Z_scope.

Record minioClient := mkClient { cl_Endpoint : string; cl_Options : Options }.

Record TicketEntry := mkTicketEntry {
  AccessKeyID : string;
  SecretAccessKey : string;
  Endpoint : string;
  Client : option minioClient;
  Expire : Z;                                   (* uint64 *)
}.

Record Writer := mkWriter {
  FidxName : string;
  Assignments : gmap Z (list byte);             (* map[int64][]byte *)
  DynamicChunkSizes : gmap string Z;
  Chunksize : Z;                                (* uint64 *)
  wr_Size : Z;                                  (* uint64 *)
  ReuseCSUM : string;
}.
#[export] Instance Z_empty_writer : Inhabited Writer := populate (mkWriter "" ∅ ∅ 0 0 "").

Definition set_Assignments (a : gmap Z (list byte)) (w : Writer) : Writer :=
  mkWriter (FidxName w) a (DynamicChunkSizes w) (Chunksize w) (wr_Size w) (ReuseCSUM w).
Definition set_DynamicChunkSizes (m : gmap string Z) (w : Writer) : Writer :=
  mkWriter (FidxName w) (Assignments w) m (Chunksize w) (wr_Size w) (ReuseCSUM w).
Definition set_sizes (size chunksize : Z) (w : Writer) : Writer :=
  mkWriter (FidxName w) (Assignments w) (DynamicChunkSizes w) chunksize size (ReuseCSUM w).

(** The fields the session handlers use. *)
Record Server := mkServer {
  H2Ticket : option TicketEntry;
  SelectedDataStore : option string;
  sv_Snapshot : option Snapshot;
  Writers : gmap Z Writer;                      (* map[int32]*Writer *)
  CurWriter : Z;                                (* int32 *)
  Finished : bool;
  KnownChunksSizes : gmap string Z;
  StorageClasses : storageClassPolicy;
}.
Definition set_Writers (m : gmap Z Writer) (cur : Z) (s : Server) : Server :=
  mkServer (H2Ticket s) (SelectedDataStore s) (sv_Snapshot s) m cur (Finished s)
    (KnownChunksSizes s) (StorageClasses s).
Definition set_KnownChunksSizes (m : gmap string Z) (s : Server) : Server :=
  mkServer (H2Ticket s) (SelectedDataStore s) (sv_Snapshot s) (Writers s) (CurWriter s) (Finished s)
    m (StorageClasses s).
Definition set_Finished (b : bool) (s : Server) : Server :=
  mkServer (H2Ticket s) (SelectedDataStore s) (sv_Snapshot s) (Writers s) (CurWriter s) b
    (KnownChunksSizes s) (StorageClasses s).

(** The update of one writer through its pointer. *)
Definition set_writer (wid : Z) (wr : Writer) (s : Server) : Server :=
  set_Writers (<[wid := wr]> (Writers s)) (CurWriter s) s.

Record AssignmentRequest := mkAssignmentRequest {
  DigestList : list string;
  OffsetList : list Z;                          (* uint64 *)
  Wid : Z;                                      (* int32 *)
}.
