(* ===== verification/IndexWriter.v ===== *)
(** * Writing an index ([cmd/pmoxs3backuproxy/main.go], the HTTP/2 backup API)

    The client opens a writer, assigns digests to offsets and closes it with the
    checksum it has computed; closing assembles the index file and stores it.
    Slices are modelled with their capacity, because the code writes through
    slice expressions whose bounds Go checks against it. *)

From S2P Require Import Prelude GoStrings GoBytes Sha256 S3 Platform MemWorld Snapshot IndexFormat GCPlan Json Http ChunkUpload Session.

Local Open Scope Z_scope.

(** ** Go slices *)

(** The backing array from the start of the slice, and the length. *)
Record gslice := mkGSlice { arr : list byte; len : nat }.
Definition visible (s : gslice) : list byte := take (len s) (arr s).
Definition make (n : nat) : gslice := mkGSlice (replicate n x00) n.
Definition out_of_range {A} : res A := Panicked "slice bounds out of range".

(** [s[i:j]]: up to the capacity. *)
Definition reslice (i j : Z) (s : gslice) : res (list byte) :=
  if (0 <=? i) && (i <=? j) && (j <=? Z.of_nat (length (arr s)))
  then Ok (slice (Z.to_nat i) (Z.to_nat j) (arr s)) else out_of_range.
(** [copy(s[i:j], src)]. *)
Definition copy_into (i j : Z) (src : list byte) (s : gslice) : res gslice :=
  if (0 <=? i) && (i <=? j) && (j <=? Z.of_nat (length (arr s)))
  then let src := take (Z.to_nat (j - i)) src in
       Ok (mkGSlice (take (Z.to_nat i) (arr s) ++ src ++ drop (Z.to_nat i + length src) (arr s)) (len s))
  else out_of_range.

(** ** Opening a writer *)

Section handlers.
Context {W : Type} `{!ObjectStore W, !Platform W}.
#[local] Abbreviation hio := (io (hstate Server W)).
(** The bytes between the length and the capacity of what [io.ReadAll] returns,
    and the outcome of [json.Unmarshal] into an [AssignmentRequest]. *)
Context (ReadAll_spare : list byte → list byte)
        (Unmarshal_AssignmentRequest : list byte → res AssignmentRequest).

Definition is_authenticated (s : Server) : bool := bool_decide (is_Some (H2Ticket s)).

(** [atomic.AddInt32(&s.CurWriter, 1)], and the new writer under its number. *)
Definition open_writer (wr : Writer) : hio unit :=
  s ← session;
  let wid := i32 (CurWriter s + 1) in
  _ ← set_session (set_Writers (<[wid := wr]> (Writers s)) wid s);
  _ ← Header_Add "Content-Type" "application/json";
  Write (Json (JObject [("data", JInt wid)])).

Definition fixed_index (r : Request) : hio unit :=
  s ← session;
  if HasPrefix (RequestURI r) "/fixed_index?" && is_authenticated s && bool_decide (Method r = "POST")
  then
    let fidxname := Query r "archive-name" in
    let reusecsum := Query r "reuse-csum" in
    let S := fst (ParseUint (Query r "size") 64) in
    open_writer (mkWriter fidxname ∅ ∅ 4194304 S reusecsum)
  else mret tt.

Definition dynamic_index (r : Request) : hio unit :=
  s ← session;
  if HasPrefix (RequestURI r) "/dynamic_index?" && is_authenticated s && bool_decide (Method r = "POST")
  then open_writer (mkWriter (Query r "archive-name") ∅ ∅ 0 0 "")
  else mret tt.

(** ** Assigning chunks *)

(** [s.Writers[wid]]: a missing writer is a nil pointer. *)
Definition writer (wid : Z) : hio Writer := s ← session; deref (Writers s !! wid).

(** One digest: an invalid one is reported but stored all the same, as far as it
    was decoded. *)
Definition assign_one (req : AssignmentRequest) (i : nat) : hio unit :=
  let '(b, err) := hex_DecodeString (nth i (DigestList req) "") in
  _ ← (match err with
       | Some e => _ ← WriteHeader StatusBadRequest; Write (ErrorText e)
       | None => mret tt
       end);
  wr ← writer (Wid req);
  offset ← lift_res (from_option Ok (Panicked "index out of range") (OffsetList req !! i));
  s ← session;
  set_session (set_writer (Wid req) (set_Assignments (<[i64 offset := b]> (Assignments wr)) wr) s).
Definition assign_all (req : AssignmentRequest) : hio unit :=
  foldIO (λ _, assign_one req) tt (seq 0 (length (DigestList req))).

(** The body, decoded; [None] when the request has been answered. *)
Definition read_assignment (r : Request) : hio (option AssignmentRequest) :=
  match (body ← io_ReadAll (Body r); Unmarshal_AssignmentRequest body) with
  | Ok req => mret (Some req)
  | Err e => _ ← WriteHeader StatusBadRequest; _ ← Write (ErrorText e); mret None
  | Panicked p => lift_res (Panicked p)
  end.

Definition dynamic_assign (r : Request) : hio unit :=
  s ← session;
  if HasPrefix (RequestURI r) "/dynamic_index" && is_authenticated s && bool_decide (Method r = "PUT")
  then
    req ← read_assignment r;
    match req with
    | None => mret tt
    | Some req => assign_all req
    end
  else mret tt.

(** The offsets are multiples of the chunk size; [None] when one is not. *)
Definition aligned_step (req : AssignmentRequest) (ok : bool) (offset : Z) : hio bool :=
  if negb ok then mret false
  else
    wr ← writer (Wid req);
    _ ← check (negb (Chunksize wr =? 0)) "integer divide by zero";
    mret (offset `mod` Chunksize wr =? 0).

Definition fixed_assign (r : Request) : hio unit :=
  s ← session;
  if HasPrefix (RequestURI r) "/fixed_index" && is_authenticated s && bool_decide (Method r = "PUT")
  then
    req ← read_assignment r;
    match req with
    | None => mret tt
    | Some req =>
        if negb (length (DigestList req) =? length (OffsetList req))%nat
        then
          _ ← WriteHeader StatusBadRequest;
          _ ← Write (Text "Digest list and Offset list size does not match");
          _ ← writer (Wid req);     (* its name is logged *)
          mret tt
        else
          aligned ← foldIO (aligned_step req) true (OffsetList req);
          if negb aligned
          then _ ← WriteHeader StatusBadRequest; Write (Text "Chunk offset not at chunk-size boundary")
          else assign_all req
    end
  else mret tt.

(** ** Closing a fixed index *)

Definition fixed_header_end : Z := 4096.

(** The loop over the chunk offsets; [k] numbers the records. *)
Inductive filled := Filled (out : gslice) | Hole | Diverged.
Fixpoint fill (fuel : nat) (wr : Writer) (i k : Z) (out : gslice) : res filled :=
  match fuel with
  | O => Ok Diverged
  | S fuel =>
      if i <? wr_Size wr then
        let next := u64 (i + Chunksize wr) in
        match Assignments wr !! i64 i with
        | None => if bool_decide (ReuseCSUM wr = "") then Ok Hole else fill fuel wr next (u64 (k + 1)) out
        | Some val =>
            let at_ := u64 (fixed_header_end + 32 * k) in
            out ← copy_into at_ (u64 (at_ + 32)) val out;
            fill fuel wr next (u64 (k + 1)) out
        end
      else Ok (Filled out)
  end.

(** [csumindex[0:32]]: the decoder's buffer has half the length of the text. *)
Definition decoded_slice (s : string) : gslice :=
  let b := fst (hex_DecodeString s) in
  mkGSlice (b ++ replicate (String.length s / 2 - length b) x00) (length b).

(** A new index, sized by the number of assignments. *)
Definition fixed_fields (wr : Writer) (out : gslice) : res gslice :=
  out ← copy_into 0 8 PROXMOX_INDEX_MAGIC_FIXED out;
  out ← copy_into 64 72 (LE_PutUint64 (wr_Size wr)) out;
  copy_into 72 80 (LE_PutUint64 (Chunksize wr)) out.

Definition new_fixed (wr : Writer) : res gslice :=
  fixed_fields wr (make (4096 + 32 * size (Assignments wr))).

(** The checksum, the identifier and the time of the header. *)
Definition stamp (csum u : list byte) (now : Z) (out : gslice) : res gslice :=
  out ← copy_into 32 64 csum out;
  out ← copy_into 8 24 u out;
  copy_into 24 32 (LE_PutUint64 (u64 (time_Unix now))) out.

(** The index that is reused, with its sizes taken over by the writer. *)
Definition reuse_fixed (wid : Z) (wr : Writer) : hio (option gslice) :=
  s ← session;
  ds ← deref (SelectedDataStore s);
  r ← try (world (obj ← GetObject ds ("indexed/" +:+ ReuseCSUM wr +:+ ".fidx") None;
                  s ← lift_st (Object_Read obj);
                  lift_res (io_ReadAll s)));
  match r with
  | inr e => _ ← WriteHeader StatusInternalServerError; _ ← Write (ErrorText e); mret None
  | inl data =>
      let out := mkGSlice (data ++ ReadAll_spare data) (length data) in
      size_ ← lift_res (reslice 64 72 out);
      s ← session;
      let wr := set_sizes (LE_Uint64 size_) (Chunksize wr) wr in
      _ ← set_session (set_writer wid wr s);
      chunksize ← lift_res (reslice 72 80 out);
      s ← session;
      _ ← set_session (set_writer wid (set_sizes (wr_Size wr) (LE_Uint64 chunksize) wr) s);
      mret (Some out)
  end.

(** Storing the index, and its copy for later incremental backups. *)
Definition store_fixed (wr : Writer) (csum : string) (out : list byte) : hio unit :=
  s ← session;
  ds ← deref (SelectedDataStore s);
  snap ← deref (sv_Snapshot s);
  let key := S3Prefix snap +:+ "/" +:+ FidxName wr in
  r ← world_st (PutObject ds key (Stream out None) (Z.of_nat (length out))
                  (putOptions (sc_Backups (StorageClasses s)) {[ "csum" := csum ]}));
  match r.1 with
  | Err e => _ ← WriteHeader StatusInternalServerError; Write (ErrorText e)
  | Panicked p => lift_res (Panicked p)
  | Ok _ =>
      c ← try (world (CopyObject
                        (indexedCopyOptions ds ("indexed/" +:+ csum +:+ ".fidx") csum
                           (sc_Indexed (StorageClasses s)))
                        (mkCopySrc ds key)));
      match c with
      | inl _ => mret tt
      | inr e => _ ← WriteHeader StatusInternalServerError; Write (ErrorText e)
      end
  end.

Definition out_of_fuel : error := Sentinel "the loop has not ended".

(** From the header fields to the stored index; [fuel] bounds the loop. *)
Definition finish_fixed (fuel : nat) (wid : Z) (csum : string) (out : gslice) : hio unit :=
  csumindex ← lift_res (reslice 0 32 (decoded_slice csum));
  u ← world_st uuid_New;
  now ← world_st time_Now;
  out ← lift_res (stamp csumindex u now out);
  wr ← writer wid;
  f ← lift_res (fill fuel wr 0 0 out);
  match f with
  | Diverged => fail out_of_fuel
  | Hole => _ ← WriteHeader StatusInternalServerError; Write (Text "Hole in index")
  | Filled out => store_fixed wr csum (visible out)
  end.

Definition fixed_close (fuel : nat) (r : Request) : hio unit :=
  s ← session;
  if HasPrefix (RequestURI r) "/fixed_close?" && is_authenticated s && bool_decide (Method r = "POST")
  then
    let wid := i32 (fst (ParseInt (Query r "wid") 32)) in
    wr ← writer wid;
    out ← (if negb (bool_decide (ReuseCSUM wr = "")) then reuse_fixed wid wr
           else out ← lift_res (new_fixed wr); mret (Some out));
    match out with
    | None => mret tt
    | Some out => finish_fixed fuel wid (Query r "csum") out
    end
  else mret tt.

(** ** Closing a dynamic index *)

(** One entry: where the chunk ends, and its digest; a chunk of unknown size is a
    panic. *)
Definition dynamic_entry (wr : Writer) (st : list byte * gmap string Z) (k : Z)
    : res (list byte * gmap string Z) :=
  let a := default [] (Assignments wr !! k) in
  let digest := hex_EncodeToString a in
  match DynamicChunkSizes wr !! digest with
  | None => Panicked "Missing size info for chunk"
  | Some origsize =>
      Ok (st.1 ++ LE_PutUint64 (u64 (u64 k + origsize)) ++ a, <[digest := origsize]> st.2)
  end.

Definition dynamic_header (u csum : list byte) (now : Z) : list byte :=
  PROXMOX_INDEX_MAGIC_DYNAMIC ++ u ++ LE_PutUint64 (u64 (time_Unix now)) ++ csum ++ replicate 4032 x00.

Definition sorted_keys (m : gmap Z (list byte)) : list Z := merge_sort Z.le (map_to_list m).*1.
Definition sizes_json (m : gmap string Z) : json :=
  JObject ((λ k, (k, JInt (default 0 (m !! k)))) <$> merge_sort String.le (map_to_list m).*1).

Definition dynamic_close (r : Request) : hio unit :=
  s ← session;
  if HasPrefix (RequestURI r) "/dynamic_close?" && is_authenticated s && bool_decide (Method r = "POST")
  then
    let wid := i32 (fst (ParseInt (Query r "wid") 32)) in
    let csum := Query r "csum" in
    u ← world_st uuid_New;
    now ← world_st time_Now;
    wr ← writer wid;
    let wr := set_DynamicChunkSizes (KnownChunksSizes s ∪ DynamicChunkSizes wr) wr in
    _ ← set_session (set_writer wid wr s);
    st ← lift_res (foldM (dynamic_entry wr) (dynamic_header u (fst (hex_DecodeString csum)) now, ∅)
                     (sorted_keys (Assignments wr)));
    ds ← deref (SelectedDataStore s);
    snap ← deref (sv_Snapshot s);
    let key := S3Prefix snap +:+ "/" +:+ FidxName wr in
    let opts := putOptions (sc_Backups (StorageClasses s)) {[ "csum" := csum ]} in
    r ← world_st (PutObject ds key (Stream st.1 None) (Z.of_nat (length st.1)) opts);
    match r.1 with
    | Err e => _ ← WriteHeader StatusInternalServerError; Write (ErrorText e)
    | Panicked p => lift_res (Panicked p)
    | Ok _ =>
        let chunksizeinfo := string_bytes (json_encode (sizes_json st.2)) in
        r ← world_st (PutObject ds (key +:+ ".csjson") (Stream chunksizeinfo None)
                        (Z.of_nat (length chunksizeinfo)) opts);
        match r.1 with
        | Err e => _ ← WriteHeader StatusInternalServerError; Write (ErrorText e)
        | Panicked p => lift_res (Panicked p)
        | Ok _ => mret tt
        end
    end
  else mret tt.
End handlers.

(** ** Writing into a list *)

Definition splice (i : nat) (src l : list byte) : list byte := take i l ++ src ++ drop (i + length src) l.

Lemma copy_into_splice i j src s :
  0 ≤ i ≤ j → j ≤ Z.of_nat (length (arr s)) → Z.of_nat (length src) = j - i →
  copy_into i j src s = Ok (mkGSlice (splice (Z.to_nat i) src (arr s)) (len s)).
Proof.
  intros Hi Hj Hl. unfold copy_into. rewrite !(proj2 (Z.leb_le _ _)) by lia. cbn [andb].
  by rewrite (take_ge src) by lia.
Qed.
Lemma length_splice i src l : (i + length src ≤ length l)%nat → length (splice i src l) = length l.
Proof. intros. unfold splice. rewrite !length_app, length_take, length_drop. lia. Qed.
Lemma slice_splice_in i j src l :
  (i ≤ length l)%nat → j = (i + length src)%nat → slice i j (splice i src l) = src.
Proof.
  intros Hi ->. unfold slice, splice. rewrite drop_app_length' by (rewrite length_take; lia).
  replace (i + length src - i)%nat with (length src) by lia. by rewrite take_app_length.
Qed.
Lemma slice_splice_out i j k src l :
  (i + length src ≤ length l)%nat → (j ≤ i ∨ i + length src ≤ k)%nat →
  slice k j (splice i src l) = slice k j l.
Proof.
  intros Hl [Hj|Hk]; unfold splice.
  - rewrite slice_app_l by (rewrite length_take; lia). unfold slice. destruct (decide (k ≤ j)%nat).
    + rewrite skipn_firstn_comm, take_take. f_equal. lia.
    + by replace (j - k)%nat with 0%nat by lia.
  - unfold slice. f_equal. rewrite app_assoc, drop_app_ge by (rewrite length_app, length_take; lia).
    rewrite length_app, length_take, drop_drop. f_equal. lia.
Qed.
Lemma drop_splice n i src l :
  (i + length src ≤ length l)%nat → (i + length src ≤ n)%nat → drop n (splice i src l) = drop n l.
Proof.
  intros Hl Hn. unfold splice. rewrite app_assoc, drop_app_ge by (rewrite length_app, length_take; lia).
  rewrite length_app, length_take, drop_drop. f_equal. lia.
Qed.
Lemma slice_take i j n (l : list byte) : (j ≤ n)%nat → slice i j (take n l) = slice i j l.
Proof.
  intros. unfold slice. destruct (decide (i ≤ j)%nat).
  - rewrite skipn_firstn_comm, take_take. f_equal. lia.
  - by replace (j - i)%nat with 0%nat by lia.
Qed.

(** ** What the collector makes of a written file *)

Lemma parse_written key a ds meta r :
  (IndexHeaderSize ≤ length a)%nat → HasSuffix key ".fidx" = true →
  a.[0 ⋯ 8] = PROXMOX_INDEX_MAGIC_FIXED → drop IndexHeaderSize a = mjoin ds →
  Forall (λ d, length d = 32%nat) ds →
  parseIndex key a meta = Ok r ↔
    a.[32 ⋯ 64] = sha256 (mjoin ds) ∧ meta = hex_EncodeToString (sha256 (mjoin ds)) ∧
    r = mkParsedIndex meta (hex_EncodeToString <$> ds) (LE_Uint64 a.[64 ⋯ 72]).
Proof.
  intros Hl Hk Hm Hd Hds. pose proof IndexHeaderSize_fields as H80.
  assert (length (take IndexHeaderSize a) = IndexHeaderSize) as Hlen by (rewrite length_take; lia).
  assert (a = take IndexHeaderSize a ++ mjoin ds) as Ha by (by rewrite <-Hd, take_drop).
  assert (∀ i j, (j ≤ 80)%nat → (take IndexHeaderSize a).[i ⋯ j] = a.[i ⋯ j]) as Hs by (intros; apply slice_take; lia).
  assert (a.[32 ⋯ 64] = sha256 (mjoin ds) → parseIndex key a (hex_EncodeToString (sha256 (mjoin ds))) =
            Ok (mkParsedIndex (hex_EncodeToString (sha256 (mjoin ds))) (hex_EncodeToString <$> ds)
                  (LE_Uint64 a.[64 ⋯ 72]))) as Hok.
  { intros Hc. rewrite Ha at 1. rewrite parse_fixed; rewrite ?Hs by lia; done. }
  split.
  - intros Hp. pose proof Hp as (header & payload & ds' & sz & Ha' & Hh & _ & Hc & Hmeta & _)%parseIndex_inv.
    assert (payload = mjoin ds) as -> by (rewrite <-Hd, Ha', drop_app_length' by (by rewrite Hh); done).
    assert (a.[32 ⋯ 64] = sha256 (mjoin ds)) as Hc'.
    { by rewrite <-Hc, Ha', slice_app_l by (rewrite Hh; unfold IndexHeaderSize; lia). }
    split; [done|]. split; [done|]. rewrite Hmeta, Hok in Hp by done. rewrite Hmeta. by injection Hp as <-.
  - intros (Hc & -> & ->). by apply Hok.
Qed.

(** With the announced checksum as metadata: it is accepted exactly when it is
    the checksum of the records. *)
Lemma parse_written_csum key a ds csum r :
  (IndexHeaderSize ≤ length a)%nat → HasSuffix key ".fidx" = true →
  a.[0 ⋯ 8] = PROXMOX_INDEX_MAGIC_FIXED → drop IndexHeaderSize a = mjoin ds →
  Forall (λ d, length d = 32%nat) ds →
  a.[32 ⋯ 64] = slice 0 32 (arr (decoded_slice csum)) →
  parseIndex key a csum = Ok r ↔
    csum = hex_EncodeToString (sha256 (mjoin ds)) ∧
    r = mkParsedIndex csum (hex_EncodeToString <$> ds) (LE_Uint64 a.[64 ⋯ 72]).
Proof.
  intros Hl Hk Hm Hd Hds Hc. rewrite parse_written by done. split; [tauto|].
  intros [-> ->]. split; [|done]. rewrite Hc. unfold decoded_slice. rewrite hex_Decode_Encode. cbn [fst arr].
  rewrite slice_app_l by (by rewrite length_sha256). rewrite slice_0. apply take_ge. by rewrite length_sha256.
Qed.

(** ** The loop over the chunk offsets *)

(** How many offsets the loop visits. *)
Definition chunk_count (wr : Writer) : Z := (wr_Size wr + Chunksize wr - 1) / Chunksize wr.
(** The records after the loop: an assigned one is replaced. *)
Fixpoint updated (wr : Writer) (k : Z) (recs : list (list byte)) : list (list byte) :=
  match recs with
  | [] => []
  | old :: recs => default old (Assignments wr !! (k * Chunksize wr)) :: updated wr (k + 1) recs
  end.
Fixpoint has_hole (wr : Writer) (k : Z) (recs : list (list byte)) : bool :=
  match recs with
  | [] => false
  | _ :: recs => bool_decide (Assignments wr !! (k * Chunksize wr) = None) || has_hole wr (k + 1) recs
  end.
(** The sizes fit: no arithmetic of the loop wraps around. *)
Definition fits (wr : Writer) : Prop :=
  0 < Chunksize wr ∧ 0 ≤ wr_Size wr ∧ wr_Size wr + Chunksize wr ≤ 2 ^ 63.
Definition digests_ok (wr : Writer) : Prop := ∀ o v, Assignments wr !! o = Some v → length v = 32%nat.

Lemma chunk_count_lt wr k : fits wr → 0 ≤ k → k * Chunksize wr < wr_Size wr ↔ k < chunk_count wr.
Proof.
  intros (Hc & Hs & _) Hk. unfold chunk_count. split; intros H.
  - enough (k + 1 ≤ (wr_Size wr + Chunksize wr - 1) / Chunksize wr) by lia.
    apply Z.div_le_lower_bound; [lia|]. nia.
  - pose proof (Z.mul_div_le (wr_Size wr + Chunksize wr - 1) (Chunksize wr) Hc). nia.
Qed.

Lemma length_updated wr k recs : length (updated wr k recs) = length recs.
Proof. revert k. induction recs; intros; cbn; [done|]. by f_equal. Qed.
Lemma updated_32 wr k recs :
  digests_ok wr → Forall (λ d, length d = 32%nat) recs → Forall (λ d, length d = 32%nat) (updated wr k recs).
Proof.
  intros Hd. revert k. induction recs as [|r recs IH]; intros k Hr; cbn; [constructor|].
  apply Forall_cons in Hr as [Hr Hrs]. constructor; [|by apply IH].
  destruct (Assignments wr !! _) as [v|] eqn:E; [by eapply Hd|done].
Qed.

Lemma fill_spec wr recs : ∀ fuel k pre rest n,
  fits wr → digests_ok wr → Forall (λ d, length d = 32%nat) recs → 0 ≤ k →
  k + Z.of_nat (length recs) = chunk_count wr → Z.of_nat (length pre) = 4096 + 32 * k →
  4096 + 32 * chunk_count wr < 2 ^ 63 → (length recs < fuel)%nat →
  fill fuel wr (k * Chunksize wr) k (mkGSlice (pre ++ mjoin recs ++ rest) n) =
    if bool_decide (ReuseCSUM wr = "") && has_hole wr k recs then Ok Hole
    else Ok (Filled (mkGSlice (pre ++ mjoin (updated wr k recs) ++ rest) n)).
Proof.
  induction recs as [|old recs IH]; intros fuel k pre rest n Hf Hd Hall Hk Hcount Hpre Hsz Hfuel;
    destruct fuel as [|fuel]; cbn [length] in *; try lia; cbn [fill].
  { pose proof (chunk_count_lt wr k Hf Hk). rewrite (proj2 (Z.ltb_ge _ _)) by lia.
    by rewrite andb_false_r. }
  apply Forall_cons in Hall as [Ho Hall].
  pose proof (proj2 (chunk_count_lt wr k Hf Hk) ltac:(lia)) as Hlt. pose proof Hf as (Hc & Hs & Hb).
  rewrite (proj2 (Z.ltb_lt _ _)) by lia.
  rewrite (i64_id (k * Chunksize wr)) by nia.
  rewrite (u64_id (k * Chunksize wr + Chunksize wr)) by nia.
  rewrite (u64_id (k + 1)) by lia. unfold fixed_header_end.
  rewrite (u64_id (4096 + 32 * k)) by lia. rewrite (u64_id (4096 + 32 * k + 32)) by lia.
  replace (k * Chunksize wr + Chunksize wr) with ((k + 1) * Chunksize wr) by lia.
  cbn [has_hole updated]. destruct (Assignments wr !! (k * Chunksize wr)) as [v|] eqn:Hv; cbn [default orb].
  - pose proof (Hd _ _ Hv) as Hlv. rewrite (bool_decide_eq_false_2 (Some v = None)) by done. cbn [orb].
    rewrite copy_into_splice; cbn [arr len]; rewrite ?length_app; cbn; rewrite ?length_app; try lia.
    unfold splice. rewrite take_app_le, take_ge by lia.
    replace (Z.to_nat (4096 + 32 * k) + length v)%nat with (length (pre ++ old)) by (rewrite length_app; lia).
    change (mjoin (old :: recs)) with (old ++ mjoin recs).
    rewrite <-!app_assoc, (app_assoc pre old), drop_app_length. rewrite (app_assoc pre v).
    cbn [mbind res_bind]. rewrite IH; try done; [|rewrite ?length_app; lia..].
    destruct (_ && _); [done|]. cbn [id].
    change (mjoin (v :: updated wr (k + 1) recs)) with (v ++ mjoin (updated wr (k + 1) recs)).
    by rewrite <-!app_assoc.
  - rewrite (bool_decide_eq_true_2 (@None (list byte) = None)) by done. cbn [orb]. rewrite andb_true_r.
    destruct (bool_decide (ReuseCSUM wr = "")) eqn:Hr; [done|].
    change (mjoin (old :: recs)) with (old ++ mjoin recs). rewrite <-!app_assoc, (app_assoc pre old).
    rewrite IH; try done; [|rewrite ?length_app; lia..]. cbn [andb].
    change (mjoin (old :: updated wr (k + 1) recs)) with (old ++ mjoin (updated wr (k + 1) recs)).
    by rewrite <-!app_assoc.
Qed.

(** ** The header fields *)

Lemma length_LE_Put z : length (LE_PutUint64 z) = 8%nat.
Proof. apply length_le_bytes. Qed.

(** [a'] is [a] with another checksum, identifier and time. *)
Record stamped (csum a a' : list byte) : Prop := {
  st_length : length a' = length a;
  st_magic : a'.[0 ⋯ 8] = a.[0 ⋯ 8];
  st_csum : a'.[32 ⋯ 64] = csum;
  st_size : a'.[64 ⋯ 72] = a.[64 ⋯ 72];
  st_payload : drop IndexHeaderSize a' = drop IndexHeaderSize a;
}.
Lemma stamp_ok csum u now out :
  length csum = 32%nat → length u = 16%nat → (IndexHeaderSize ≤ length (arr out))%nat →
  ∃ a', stamp csum u now out = Ok (mkGSlice a' (len out)) ∧ stamped csum (arr out) a'.
Proof.
  intros Hc Hu Hl. pose proof IndexHeaderSize_fields as H80. unfold stamp.
  rewrite (copy_into_splice 32 64) by lia. cbn [mbind res_bind].
  set (a1 := splice (Z.to_nat 32) csum (arr out)).
  assert (length a1 = length (arr out)) as L1 by (apply length_splice; lia).
  rewrite (copy_into_splice 8 24) by (cbn [arr]; lia). cbn [mbind res_bind arr len].
  set (a2 := splice (Z.to_nat 8) u a1).
  assert (length a2 = length (arr out)) as L2 by (unfold a2; rewrite length_splice; lia).
  rewrite (copy_into_splice 24 32) by (cbn [arr]; rewrite ?length_LE_Put; lia). cbn [arr len].
  pose proof (length_LE_Put (u64 (time_Unix now))) as L8.
  eexists. split; [done|]. split.
  - rewrite length_splice; lia.
  - rewrite slice_splice_out by lia. unfold a2. rewrite slice_splice_out by lia.
    unfold a1. by rewrite slice_splice_out by lia.
  - rewrite slice_splice_out by lia. unfold a2. rewrite slice_splice_out by lia.
    unfold a1. by rewrite slice_splice_in by lia.
  - rewrite slice_splice_out by lia. unfold a2. rewrite slice_splice_out by lia.
    unfold a1. by rewrite slice_splice_out by lia.
  - rewrite drop_splice by lia. unfold a2. rewrite drop_splice by lia.
    unfold a1. by rewrite drop_splice by lia.
Qed.

(** The empty records of a new index. *)
Definition zeros (n : nat) : list (list byte) := replicate n (replicate 32 x00).
Lemma mjoin_zeros n : mjoin (zeros n) = replicate (32 * n) x00.
Proof.
  induction n as [|n IH]; [done|]. change (mjoin (zeros (S n))) with (replicate 32 x00 ++ mjoin (zeros n)).
  rewrite IH, <-replicate_add. f_equal. lia.
Qed.
Lemma fixed_fields_ok wr n h :
  is_u64 (wr_Size wr) → (80 ≤ h)%nat → (h ≤ n)%nat →
  ∃ a, fixed_fields wr (make n) = Ok (mkGSlice a n) ∧
    length a = n ∧ a.[0 ⋯ 8] = PROXMOX_INDEX_MAGIC_FIXED ∧
    LE_Uint64 a.[64 ⋯ 72] = wr_Size wr ∧ drop h a = replicate (n - h) x00.
Proof.
  intros Hs H80 Hn. unfold fixed_fields, make. assert (length PROXMOX_INDEX_MAGIC_FIXED = 8%nat) as L0 by done.
  pose proof (length_replicate n x00) as Lr.
  rewrite (copy_into_splice 0 8) by (cbn [arr]; lia). cbn [mbind res_bind arr len].
  set (a1 := splice (Z.to_nat 0) PROXMOX_INDEX_MAGIC_FIXED (replicate n x00)).
  assert (length a1 = n) as L1 by (unfold a1; rewrite length_splice; lia).
  pose proof (length_LE_Put (wr_Size wr)) as L8. pose proof (length_LE_Put (Chunksize wr)) as L9.
  rewrite (copy_into_splice 64 72) by (cbn [arr]; lia). cbn [mbind res_bind arr len].
  set (a2 := splice (Z.to_nat 64) _ a1).
  assert (length a2 = n) as L2 by (unfold a2; rewrite length_splice; lia).
  rewrite (copy_into_splice 72 80) by (cbn [arr]; lia). cbn [arr len].
  eexists. split; [done|]. split_and!.
  - rewrite length_splice; lia.
  - rewrite slice_splice_out by lia. unfold a2. rewrite slice_splice_out by lia.
    unfold a1. by rewrite slice_splice_in by lia.
  - rewrite slice_splice_out by lia. unfold a2. rewrite slice_splice_in by lia.
    rewrite <-(app_nil_r (LE_PutUint64 _)). by apply LE_Uint64_Put.
  - rewrite drop_splice by lia. unfold a2. rewrite drop_splice by lia.
    unfold a1. rewrite drop_splice by lia. apply drop_replicate.
Qed.
Lemma new_fixed_ok wr :
  is_u64 (wr_Size wr) →
  ∃ a, new_fixed wr = Ok (mkGSlice a (IndexHeaderSize + 32 * size (Assignments wr))) ∧
    length a = (IndexHeaderSize + 32 * size (Assignments wr))%nat ∧ a.[0 ⋯ 8] = PROXMOX_INDEX_MAGIC_FIXED ∧
    LE_Uint64 a.[64 ⋯ 72] = wr_Size wr ∧ drop IndexHeaderSize a = mjoin (zeros (size (Assignments wr))).
Proof.
  intros Hs. unfold new_fixed. change 4096%nat with IndexHeaderSize. pose proof IndexHeaderSize_fields as H80.
  generalize dependent IndexHeaderSize. intros h H80.
  destruct (fixed_fields_ok wr (h + 32 * size (Assignments wr)) h Hs H80) as (a & Ha & Hl & Hm & Hz & Hd); [lia|].
  exists a. split_and!; [done..|]. rewrite Hd, mjoin_zeros. f_equal. lia.
Qed.

(** ** Storing *)

Section stored.
Context {W : Type} `{!ObjectStore W, !Platform W, !StoreView W, !FileView W}.
Context `{!ObjectStoreLaws W, !PlatformLaws W} (ReadAll_spare : list byte → list byte).
Implicit Types (h : hstate Server W).

(** The index object under the snapshot, and its copy under [indexed/]. *)
Record index_stored (w' : W) (s : Server) (name csum : string) (out : list byte) : Prop := {
  is_object : ∃ ds snap x y, SelectedDataStore s = Some ds ∧ sv_Snapshot s = Some snap ∧
    contents w' ds !! (S3Prefix snap +:+ "/" +:+ name) = Some x ∧
    o_data x = out ∧ o_meta x !! "Csum" = Some csum ∧
    contents w' ds !! ("indexed/" +:+ csum +:+ ".fidx") = Some y ∧
    o_data y = out ∧ o_meta y !! "Csum" = Some csum
}.

Lemma csum_meta csum stored : meta_stored {[ "csum" := csum ]} stored → stored !! "Csum" = Some csum.
Proof.
  intros Hm. apply (Hm "csum"); [by rewrite lookup_singleton_eq|done|].
  intros k' [v Hk']. by apply lookup_singleton_Some in Hk' as [<- _].
Qed.
Lemma indexed_meta ds k csum class stored :
  ReplaceMetadata (indexedCopyOptions ds k csum class) = true →
  meta_stored (cd_UserMetadata (indexedCopyOptions ds k csum class)) stored → stored !! "Csum" = Some csum.
Proof.
  unfold indexedCopyOptions. case_bool_decide; [done|]. cbn. intros _ Hm.
  apply (Hm "csum"); [by rewrite lookup_insert_eq|done|].
  intros k' [v [[<- _]|[_ Hk']]%lookup_insert_Some]; [done|].
  apply lookup_insert_Some in Hk' as [[<- _]|[_ Hk']]; [|by rewrite lookup_empty in Hk'].
  vm_compute. discriminate.
Qed.

Lemma store_fixed_ok wr csum out h h' u :
  store_fixed wr csum out h = (Ok u, h') → rw_status (h_rw h) = None → answered_ok (h_rw h') = true →
  index_stored (h_world h') (h_sess h) (FidxName wr) csum out.
Proof.
  intros Hrun Hst Hok. unfold store_fixed in Hrun.
  apply io_bind_Ok_inv in Hrun as (s & h1 & [= <- <-] & Hrun).
  apply io_bind_Ok_inv in Hrun as (ds & h1 & [Hds ->]%deref_inv & Hrun).
  apply io_bind_Ok_inv in Hrun as (snap & h1 & [Hsnap ->]%deref_inv & Hrun). cbv zeta in Hrun.
  apply io_bind_Ok_inv in Hrun as ([r m] & h1 & (w1 & Hput & ->)%world_st_inv & Hrun).
  destruct r as [[]|e|p]; cbn [fst] in Hrun; [| |done].
  2:{ apply io_bind_Ok_inv in Hrun as ([] & h2 & [= <-] & [= <- <-]). cbn in Hok. rewrite Hst in Hok. done. }
  apply io_bind_Ok_inv in Hrun as (c & h2 & Hc & Hrun). unfold try, world in Hc. cbn [h_world h_rw h_sess] in Hc.
  destruct (CopyObject _ _ w1) as [[[]|e|p] w2] eqn:Hcopy; [| |done]; injection Hc as <- <-.
  2:{ apply io_bind_Ok_inv in Hrun as ([] & h2 & [= <-] & [= <- <-]). cbn in Hok. rewrite Hst in Hok. done. }
  injection Hrun as _ <-. cbn [h_world].
  pose proof Hput as (_ & _ & x & Hx & Hdata & Hmeta)%PutObject_done; [|lia].
  apply csum_meta in Hmeta. rewrite Nat2Z.id, take_ge in Hdata by (cbn; lia). cbn in Hdata.
  pose proof Hcopy as (y0 & y & Hy0 & Hy & Hdy & Hmy)%CopyObject_done. cbn [cs_Bucket cs_Object] in Hy0.
  rewrite Hx in Hy0. injection Hy0 as <-. apply CopyObject_effect in Hcopy as K.
  assert (cd_Bucket (indexedCopyOptions ds ("indexed/" +:+ csum +:+ ".fidx") csum (sc_Indexed (StorageClasses (h_sess h)))) = ds ∧
          cd_Object (indexedCopyOptions ds ("indexed/" +:+ csum +:+ ".fidx") csum (sc_Indexed (StorageClasses (h_sess h)))) =
            "indexed/" +:+ csum +:+ ".fidx") as [Hcb Hco] by (unfold indexedCopyOptions; by case_bool_decide).
  rewrite Hcb, Hco in *. split. exists ds, snap, x, y. split_and!; try done.
  - rewrite K; [done|]. right. unfold S3Prefix. done.
  - congruence.
  - destruct (ReplaceMetadata _) eqn:Hrm; [by eapply indexed_meta|by rewrite Hmy].
Qed.

(** A file with room for the records the writer's sizes announce. *)
Record base (wr : Writer) (out : gslice) (recs : list (list byte)) : Prop := {
  bs_fits : fits wr;
  bs_count : Z.of_nat (length recs) = chunk_count wr;
  bs_int : 4096 + 32 * chunk_count wr < 2 ^ 63;
  bs_recs : Forall (λ d, length d = 32%nat) recs;
  bs_len : len out = (IndexHeaderSize + 32 * length recs)%nat;
  bs_arr : (len out ≤ length (arr out))%nat;
  bs_payload : drop IndexHeaderSize (visible out) = mjoin recs;
  bs_magic : (arr out).[0 ⋯ 8] = PROXMOX_INDEX_MAGIC_FIXED;
}.

(** What the loop leaves of a stamped file. *)
Lemma fill_stamped fuel wr out recs csum a' :
  base wr out recs → digests_ok wr → (length recs < fuel)%nat → stamped csum (arr out) a' →
  fill fuel wr 0 0 (mkGSlice a' (len out)) =
    if bool_decide (ReuseCSUM wr = "") && has_hole wr 0 recs then Ok Hole
    else Ok (Filled (mkGSlice (take IndexHeaderSize a' ++ mjoin (updated wr 0 recs) ++ drop (len out) a') (len out))).
Proof.
  intros [Hf Hc Hi Hr Hl Ha Hp Hm] Hd Hfuel [Sl _ _ _ Sp].
  assert (a' = take IndexHeaderSize a' ++ mjoin recs ++ drop (len out) a') as Hsplit.
  { rewrite <-(take_drop IndexHeaderSize a') at 1. f_equal. rewrite Sp, <-Hp.
    unfold visible. rewrite skipn_firstn_comm, Hl.
    replace (IndexHeaderSize + 32 * length recs - IndexHeaderSize)%nat with (32 * length recs)%nat by lia.
    rewrite <-(take_drop (32 * length recs) (drop IndexHeaderSize (arr out))) at 1. f_equal.
    rewrite drop_drop. rewrite <-!drop_drop, <-Sp. done. }
  rewrite Hsplit at 1. apply (fill_spec wr recs fuel 0); try done.
  rewrite length_take. change (4096 + 32 * 0) with (Z.of_nat IndexHeaderSize). f_equal. lia.
Qed.

(** The file that is stored is accepted exactly with the right checksum. *)
Lemma written_parses wr out recs csum a' key r :
  base wr out recs → digests_ok wr → HasSuffix key ".fidx" = true →
  stamped (slice 0 32 (arr (decoded_slice csum))) (arr out) a' →
  let ds := updated wr 0 recs in
  parseIndex key (take IndexHeaderSize a' ++ mjoin ds) csum = Ok r ↔
    csum = hex_EncodeToString (sha256 (mjoin ds)) ∧
    r = mkParsedIndex csum (hex_EncodeToString <$> ds) (LE_Uint64 (arr out).[64 ⋯ 72]).
Proof.
  intros [_ _ _ Hr Hl Ha _ Hm] Hd Hk [Sl Sm Sc Ss _] ds. pose proof IndexHeaderSize_fields as H80.
  assert (length (take IndexHeaderSize a') = IndexHeaderSize) as L by (rewrite length_take; lia).
  assert (∀ i j, (j ≤ 80)%nat → (take IndexHeaderSize a' ++ mjoin ds).[i ⋯ j] = a'.[i ⋯ j]) as Hs.
  { intros i j Hj. rewrite slice_app_l by lia. apply slice_take. lia. }
  rewrite parse_written_csum; rewrite ?Hs by lia; [by rewrite Ss|..].
  - rewrite length_app. lia.
  - done.
  - by rewrite Sm.
  - by rewrite drop_app_length'.
  - by apply updated_32.
  - done.
Qed.

Lemma reslice_csum csum b : reslice 0 32 (decoded_slice csum) = Ok b → b = slice 0 32 (arr (decoded_slice csum)) ∧ length b = 32%nat.
Proof.
  unfold reslice. generalize (arr (decoded_slice csum)) as a. intros a.
  destruct (_ && _) eqn:E; [|done]. intros [= <-]. split; [done|]. reflect_bools. rewrite length_slice; lia.
Qed.

Lemma finish_fixed_ok fuel wid wr out recs csum h h' u :
  finish_fixed fuel wid csum out h = (Ok u, h') →
  Writers (h_sess h) !! wid = Some wr → base wr out recs → digests_ok wr → (length recs < fuel)%nat →
  HasSuffix (FidxName wr) ".fidx" = true →
  rw_status (h_rw h) = None → answered_ok (h_rw h') = true →
  (ReuseCSUM wr = "" → has_hole wr 0 recs = false) ∧
  ∃ file, index_stored (h_world h') (h_sess h) (FidxName wr) csum file ∧
    ∀ dir r, parseIndex (dir +:+ FidxName wr) file csum = Ok r ↔
      csum = hex_EncodeToString (sha256 (mjoin (updated wr 0 recs))) ∧
      r = mkParsedIndex csum (hex_EncodeToString <$> updated wr 0 recs) (LE_Uint64 (arr out).[64 ⋯ 72]).
Proof.
  intros Hrun Hwr Hb Hd Hfuel Hk Hst Hok. unfold finish_fixed in Hrun.
  apply io_bind_Ok_inv in Hrun as (c & h1 & [[-> Hl]%reslice_csum ->]%lift_res_inv & Hrun).
  apply io_bind_Ok_inv in Hrun as (u0 & h1 & (w1 & Hu%uuid_New_length & ->)%world_st_inv & Hrun).
  apply io_bind_Ok_inv in Hrun as (now & h1 & (w2 & _ & ->)%world_st_inv & Hrun). cbn [h_rw h_sess] in Hrun.
  destruct (stamp_ok (slice 0 32 (arr (decoded_slice csum))) u0 now out Hl Hu) as (a' & Ha & Sa).
  { destruct Hb as [_ _ _ _ H1 H2 _ _]. lia. }
  apply io_bind_Ok_inv in Hrun as (out' & h1 & [Ho ->]%lift_res_inv & Hrun).
  rewrite Ha in Ho. injection Ho as <-.
  apply io_bind_Ok_inv in Hrun as (wr' & h1 & Hw & Hrun). unfold writer in Hw.
  apply io_bind_Ok_inv in Hw as (s & h2 & [= <- <-] & [Hw ->]%deref_inv). cbn [h_sess] in Hw.
  rewrite Hwr in Hw. injection Hw as <-.
  apply io_bind_Ok_inv in Hrun as (f & h1 & [Hf ->]%lift_res_inv & Hrun).
  rewrite (fill_stamped _ _ _ _ _ _ Hb Hd Hfuel Sa) in Hf.
  destruct (bool_decide (ReuseCSUM wr = "") && has_hole wr 0 recs) eqn:Hh; injection Hf as <-.
  { apply io_bind_Ok_inv in Hrun as ([] & h2 & [= <-] & [= <- <-]). cbn in Hok. rewrite Hst in Hok. done. }
  apply store_fixed_ok in Hrun; [|done..]. cbn [h_sess] in Hrun. split.
  { intros Hre. by rewrite bool_decide_eq_true_2 in Hh. }
  eexists. split; [exact Hrun|]. intros dir r. cbn [visible arr len]. unfold visible. cbn [arr len].
  rewrite app_assoc, take_app_le, take_ge; [|..].
  - apply written_parses; try done. apply HasSuffix_spec in Hk as [p ->].
    rewrite <-string_app_assoc. apply HasSuffix_app.
  - destruct Hb as [_ _ _ Hr H1 H2 _ _]. rewrite length_app, length_take, (length_mjoin_const 32), length_updated
      by (by apply updated_32). lia.
  - destruct Hb as [_ _ _ Hr H1 H2 _ _]. destruct Sa as [Sl _ _ _ _].
    rewrite length_app, length_take, (length_mjoin_const 32), length_updated by (by apply updated_32). lia.
Qed.

(** A request that closes a writer of fixed indexes. *)
Record closes (r : Request) h (wid : Z) (wr : Writer) : Prop := {
  cl_uri : HasPrefix (RequestURI r) "/fixed_close?" = true;
  cl_auth : is_authenticated (h_sess h) = true;
  cl_method : Method r = "POST";
  cl_wid : i32 (fst (ParseInt (Query r "wid") 32)) = wid;
  cl_writer : Writers (h_sess h) !! wid = Some wr;
  cl_name : HasSuffix (FidxName wr) ".fidx" = true;
  cl_response : h_rw h = empty_response;
}.

Lemma fixed_close_start fuel r h wid wr u h' :
  closes r h wid wr → fixed_close ReadAll_spare fuel r h = (Ok u, h') → answered_ok (h_rw h') = true →
  ∃ out h1, (if negb (bool_decide (ReuseCSUM wr = "")) then reuse_fixed ReadAll_spare wid wr
             else out ← lift_res (new_fixed wr); mret (Some out)) h = (Ok (Some out), h1) ∧
    finish_fixed fuel wid (Query r "csum") out h1 = (Ok u, h').
Proof.
  intros [Hu Ha Hm <- Hw _ Hr] Hrun Hok. unfold fixed_close in Hrun.
  apply io_bind_Ok_inv in Hrun as (s & h1 & [= <- <-] & Hrun). rewrite Hu, Ha, bool_decide_eq_true_2 in Hrun by done.
  cbn [andb] in Hrun. cbv zeta in Hrun.
  apply io_bind_Ok_inv in Hrun as (wr' & h1 & Hw' & Hrun). unfold writer in Hw'.
  apply io_bind_Ok_inv in Hw' as (s & h2 & [= <- <-] & [Hw' ->]%deref_inv).
  rewrite Hw in Hw'. injection Hw' as <-.
  apply io_bind_Ok_inv in Hrun as (out & h1 & Hout & Hrun). destruct out as [out|]; [by exists out, h1|].
  injection Hrun as _ <-. exfalso. destruct (bool_decide (ReuseCSUM wr = "")) eqn:E; cbn [negb] in Hout.
  { by apply io_bind_Ok_inv in Hout as (? & ? & _ & ?). }
  unfold reuse_fixed in Hout.
  apply io_bind_Ok_inv in Hout as (s & h2 & [= <- <-] & Hout).
  apply io_bind_Ok_inv in Hout as (ds & h2 & [_ ->]%deref_inv & Hout).
  apply io_bind_Ok_inv in Hout as (d & h2 & Hd & Hout). unfold try in Hd.
  destruct (world _ h) as [[data|e|p] h3] eqn:Ew; [| |done]; injection Hd as <- <-.
  { apply io_bind_Ok_inv in Hout as (? & ? & _ & Hout). apply io_bind_Ok_inv in Hout as (? & ? & _ & Hout).
    apply io_bind_Ok_inv in Hout as (? & ? & _ & Hout). apply io_bind_Ok_inv in Hout as (? & ? & _ & Hout).
    by apply io_bind_Ok_inv in Hout as (? & ? & _ & ?). }
  apply world_inv in Ew as (w' & _ & ->).
  apply io_bind_Ok_inv in Hout as ([] & h4 & [= <-] & Hout). apply io_bind_Ok_inv in Hout as ([] & h5 & [= <-] & [= <-]).
  cbn in Hok. by rewrite Hr in Hok.
Qed.

Lemma updated_lookup wr k recs j :
  updated wr k recs !! j =
    (λ old, default old (Assignments wr !! ((k + Z.of_nat j) * Chunksize wr))) <$> recs !! j.
Proof.
  revert k j. induction recs as [|r recs IH]; intros k [|j]; cbn; [done..| |].
  - by rewrite Z.add_0_r.
  - rewrite IH. replace (k + 1 + Z.of_nat j) with (k + Z.of_nat (S j)) by lia. done.
Qed.
Lemma has_hole_false wr k recs j :
  has_hole wr k recs = false → (j < length recs)%nat →
  is_Some (Assignments wr !! ((k + Z.of_nat j) * Chunksize wr)).
Proof.
  revert k j. induction recs as [|r recs IH]; intros k j; cbn; [lia|].
  intros [H1 H2]%orb_false_iff Hj. destruct j as [|j].
  - rewrite Z.add_0_r. apply bool_decide_eq_false_1 in H1. by apply not_eq_None_Some.
  - replace (k + Z.of_nat (S j)) with (k + 1 + Z.of_nat j) by lia. apply IH; [done|lia].
Qed.

(** C16. Closing a new fixed index that is answered with success has stored it, and a
    copy under [indexed/] for later incremental backups, when the digests that were
    assigned have 32 bytes and are as many as the size has chunks: every offset below
    the size was assigned, the records are the assigned digests in offset order, and
    the collector accepts the file exactly when the checksum the client announced is
    that of the records.  The archive is named [.fidx], the chunk size is positive,
    the size rounded up to whole chunks and the length of the index stay below 2^63,
    and the fuel of the loop exceeds the number of chunks. *)
Theorem fixed_close_new fuel r h wid wr u h'
    (Hclose : closes r h wid wr) (Hnew : ReuseCSUM wr = "")
    (Hfits : fits wr) (Hint : 4096 + 32 * chunk_count wr < 2 ^ 63) (Hdig : digests_ok wr)
    (Hcount : Z.of_nat (size (Assignments wr)) = chunk_count wr) (Hfuel : chunk_count wr < Z.of_nat fuel)
    (Hrun : fixed_close ReadAll_spare fuel r h = (Ok u, h')) (Hok : answered_ok (h_rw h') = true) :
  ∃ recs file, Z.of_nat (length recs) = chunk_count wr ∧
    (∀ j d, recs !! j = Some d → Assignments wr !! (Z.of_nat j * Chunksize wr) = Some d) ∧
    index_stored (h_world h') (h_sess h) (FidxName wr) (Query r "csum") file ∧
    ∀ dir idx, parseIndex (dir +:+ FidxName wr) file (Query r "csum") = Ok idx ↔
      Query r "csum" = hex_EncodeToString (sha256 (mjoin recs)) ∧
      idx = mkParsedIndex (Query r "csum") (hex_EncodeToString <$> recs) (wr_Size wr).
Proof.
  pose proof (fixed_close_start _ _ _ _ _ _ _ Hclose Hrun Hok) as (out & h1 & Hout & Hfin).
  rewrite bool_decide_eq_true_2 in Hout by done. cbn [negb] in Hout.
  apply io_bind_Ok_inv in Hout as (out' & h2 & [Ho ->]%lift_res_inv & [= <- <-]).
  destruct Hfits as (Hc & Hs & Hb) eqn:E. clear E.
  destruct (new_fixed_ok wr) as (a & Ha & Hl & Hm & Hz & Hd); [lia|]. rewrite Ha in Ho. injection Ho as <-.
  set (n := size (Assignments wr)) in *.
  assert (base wr (mkGSlice a (IndexHeaderSize + 32 * n)) (zeros n)) as Hbase.
  { split; cbn [arr len]; try done.
    - unfold zeros. by rewrite length_replicate.
    - apply Forall_replicate, length_replicate.
    - unfold zeros. by rewrite length_replicate.
    - by rewrite Hl.
    - unfold visible. cbn [arr len]. by rewrite <-Hl, take_ge. }
  destruct Hclose as [_ _ _ _ Hwr Hname Hrw].
  destruct (finish_fixed_ok _ _ _ _ _ _ _ _ _ Hfin Hwr Hbase Hdig) as [Hhole (file & Hstored & Hparse)];
    [unfold zeros; rewrite length_replicate; lia|done|by rewrite Hrw|done|].
  exists (updated wr 0 (zeros n)), file. split_and!.
  - rewrite length_updated. unfold zeros. by rewrite length_replicate.
  - intros j d. rewrite updated_lookup. destruct (zeros n !! j) as [z|] eqn:Ez; [|done].
    apply lookup_lt_Some in Ez. cbn. intros [= <-].
    destruct (has_hole_false wr 0 (zeros n) j (Hhole Hnew) Ez) as [v Hv]. cbn in Hv. by rewrite Hv.
  - done.
  - intros dir idx. rewrite Hparse. cbn [arr]. by rewrite Hz.
Qed.

(** What loading the index to reuse makes of the file and of the writer. *)
Definition reusing (wr : Writer) (data : list byte) : Writer :=
  set_sizes (LE_Uint64 data.[64 ⋯ 72]) (LE_Uint64 data.[72 ⋯ 80]) wr.

Lemma reuse_fixed_ok wid wr h out h1 y ds :
  reuse_fixed ReadAll_spare wid wr h = (Ok (Some out), h1) →
  SelectedDataStore (h_sess h) = Some ds →
  contents (h_world h) ds !! ("indexed/" +:+ ReuseCSUM wr +:+ ".fidx") = Some y →
  (IndexHeaderSize ≤ length (o_data y))%nat →
  out = mkGSlice (o_data y ++ ReadAll_spare (o_data y)) (length (o_data y)) ∧
  Writers (h_sess h1) !! wid = Some (reusing wr (o_data y)) ∧
  SelectedDataStore (h_sess h1) = SelectedDataStore (h_sess h) ∧
  sv_Snapshot (h_sess h1) = sv_Snapshot (h_sess h) ∧ h_rw h1 = h_rw h.
Proof.
  intros Hrun Hds Hy Hl. unfold reuse_fixed in Hrun. pose proof IndexHeaderSize_fields as H80.
  apply io_bind_Ok_inv in Hrun as (s & h2 & [= <- <-] & Hrun).
  apply io_bind_Ok_inv in Hrun as (ds' & h2 & [Hds' ->]%deref_inv & Hrun).
  rewrite Hds in Hds'. injection Hds' as <-.
  apply io_bind_Ok_inv in Hrun as (d & h2 & Hd & Hrun). unfold try in Hd.
  destruct (world _ h) as [[data|e|p] h3] eqn:Ew; [| |done]; injection Hd as <- <-.
  2:{ apply io_bind_Ok_inv in Hrun as (? & ? & _ & Hrun). by apply io_bind_Ok_inv in Hrun as (? & ? & _ & ?). }
  apply world_inv in Ew as (w' & Hw & ->).
  apply io_bind_Ok_inv in Hw as (obj & w1 & Hget & Hw).
  apply io_bind_Ok_inv in Hw as (st & w2 & Hread & Hw). unfold lift_st in Hread.
  destruct (Object_Read obj w1) as [st' w2'] eqn:Er. injection Hread as -> ->.
  apply lift_res_inv in Hw as [Hall ->].
  pose proof (GetObject_read _ _ _ _ _ _ _ _ Hget (reflexivity w1) Er) as Hdel.
  assert (data = o_data y) as ->.
  { unfold io_ReadAll in Hall. destruct (s_err st) eqn:He; [done|]. injection Hall as <-.
    apply delivers_all in Hdel; [|done]. rewrite Hy in Hdel. by injection Hdel as <-. }
  set (a := o_data y ++ ReadAll_spare (o_data y)) in *.
  assert (length (o_data y) ≤ length a)%nat as Ha by (unfold a; rewrite length_app; lia).
  assert (∀ i j, (j ≤ 80)%nat → (i ≤ j)%nat → reslice (Z.of_nat i) (Z.of_nat j) (mkGSlice a (length (o_data y))) =
            Ok (o_data y).[i ⋯ j]) as Hsl.
  { intros i j Hj Hij. unfold reslice. cbn [arr]. rewrite !(proj2 (Z.leb_le _ _)) by lia. cbn [andb].
    rewrite !Nat2Z.id. unfold a. by rewrite slice_app_l by lia. }
  cbv zeta in Hrun. fold a in Hrun.
  apply io_bind_Ok_inv in Hrun as (sz & h4 & [Hsz ->]%lift_res_inv & Hrun).
  rewrite (Hsl 64%nat 72%nat ltac:(lia) ltac:(lia) : reslice 64 72 _ = _) in Hsz. injection Hsz as <-.
  apply io_bind_Ok_inv in Hrun as (s & h4 & [= <- <-] & Hrun).
  apply io_bind_Ok_inv in Hrun as ([] & h4 & [= <-] & Hrun).
  apply io_bind_Ok_inv in Hrun as (cs & h4 & [Hcs ->]%lift_res_inv & Hrun).
  rewrite (Hsl 72%nat 80%nat ltac:(lia) ltac:(lia) : reslice 72 80 _ = _) in Hcs. injection Hcs as <-.
  apply io_bind_Ok_inv in Hrun as (s & h4 & [= <- <-] & Hrun).
  apply io_bind_Ok_inv in Hrun as ([] & h4 & [= <-] & [= <- <-]).
  cbn. split_and!; try done. by rewrite lookup_insert_eq.
Qed.

(** C17. Closing a writer that reuses an index - one that the collector accepts under
    some checksum, and that has as many digests as its sizes say - takes the sizes and the records of that index, replaces the records
    at the offsets to which digests of 32 bytes were assigned and keeps the others,
    and, when it is answered with success, has stored the result: the collector
    accepts it exactly when the announced checksum is that of the new records.  The
    archive is named [.fidx], the chunk size of the index is positive, its size
    rounded up to whole chunks and its length stay below 2^63, and the fuel of the
    loop exceeds the number of digests. *)
Theorem fixed_close_reused fuel r h wid wr u h' ds y meta old
    (Hclose : closes r h wid wr) (Hreuse : ReuseCSUM wr ≠ "") (Hds : SelectedDataStore (h_sess h) = Some ds)
    (Hy : contents (h_world h) ds !! ("indexed/" +:+ ReuseCSUM wr +:+ ".fidx") = Some y)
    (Hold : parseIndex ("indexed/" +:+ ReuseCSUM wr +:+ ".fidx") (o_data y) meta = Ok old)
    (Hfits : fits (reusing wr (o_data y))) (Hint : Z.of_nat (length (o_data y)) < 2 ^ 63)
    (Hdig : digests_ok wr)
    (Hcount : Z.of_nat (length (digests old)) = chunk_count (reusing wr (o_data y)))
    (Hfuel : (length (digests old) < fuel)%nat)
    (Hrun : fixed_close ReadAll_spare fuel r h = (Ok u, h')) (Hok : answered_ok (h_rw h') = true) :
  let wr' := reusing wr (o_data y) in
  ∃ recs file, length recs = length (digests old) ∧
    (∀ j, hex_EncodeToString <$> recs !! j =
       (λ d, from_option hex_EncodeToString d (Assignments wr !! (Z.of_nat j * Chunksize wr'))) <$> digests old !! j) ∧
    index_stored (h_world h') (h_sess h) (FidxName wr) (Query r "csum") file ∧
    ∀ dir idx, parseIndex (dir +:+ FidxName wr) file (Query r "csum") = Ok idx ↔
      Query r "csum" = hex_EncodeToString (sha256 (mjoin recs)) ∧
      idx = mkParsedIndex (Query r "csum") (hex_EncodeToString <$> recs) (wr_Size wr').
Proof.
  intros wr'. pose proof IndexHeaderSize_fields as H80.
  pose proof (fixed_close_start _ _ _ _ _ _ _ Hclose Hrun Hok) as (out & h1 & Hout & Hfin).
  rewrite bool_decide_eq_false_2 in Hout by done. cbn [negb] in Hout.
  apply parseIndex_inv in Hold as (header & payload & ods & sz & Hdata & Hh & Hc & _ & _ & ->).
  assert (HasSuffix ("indexed/" +:+ ReuseCSUM wr +:+ ".fidx") ".fidx" = true) as Hsuf.
  { rewrite <-string_app_assoc. apply HasSuffix_app. }
  destruct Hc as [ods _ Hm Hods|? Hns]; [|congruence]. cbn [digests] in *. rewrite length_fmap in *.
  assert (length (o_data y) = (IndexHeaderSize + 32 * length ods)%nat) as Hl.
  { rewrite Hdata, length_app, Hh, (length_mjoin_const 32) by done. lia. }
  destruct (reuse_fixed_ok _ _ _ _ _ _ _ Hout Hds Hy) as (-> & Hwr & Hs1 & Hs2 & Hrw1); [lia|].
  fold wr' in Hwr, Hfits, Hcount.
  assert (∀ i j, (j ≤ 80)%nat → (o_data y ++ ReadAll_spare (o_data y)).[i ⋯ j] = (o_data y).[i ⋯ j]) as Hsl
    by (intros; apply slice_app_l; lia).
  assert (base wr' (mkGSlice (o_data y ++ ReadAll_spare (o_data y)) (length (o_data y))) ods) as Hbase.
  { split; cbn [arr len]; try done.
    - assert (Z.of_nat IndexHeaderSize = 4096) by done. lia.
    - rewrite length_app. lia.
    - unfold visible. cbn [arr len]. by rewrite take_app_length, Hdata, drop_app_length'.
    - rewrite Hsl by lia. by rewrite Hdata, slice_app_l by lia. }
  destruct Hclose as [_ _ _ _ _ Hname Hrw].
  destruct (finish_fixed_ok _ _ _ _ _ _ _ _ _ Hfin Hwr Hbase Hdig Hfuel Hname) as [_ (file & Hstored & Hparse)];
    [by rewrite Hrw1, Hrw|done|].
  exists (updated wr' 0 ods), file. split_and!.
  - apply length_updated.
  - intros j. rewrite updated_lookup, list_lookup_fmap. destruct (ods !! j) as [d|]; [|done]. cbn. f_equal.
    change (Assignments wr') with (Assignments wr). by destruct (Assignments wr !! _).
  - destruct Hstored as [(ds' & snap & Hst)]. split. exists ds', snap. by rewrite <-Hs1, <-Hs2.
  - intros dir idx. specialize (Hparse dir idx). cbn [arr] in Hparse. rewrite Hsl in Hparse by lia. exact Hparse.
Qed.

End stored.

(** ** Termination *)

Lemma fill_ends wr : ∀ fuel i k out,
  0 < Chunksize wr → wr_Size wr + Chunksize wr ≤ 2 ^ 64 → 0 ≤ i → (0 < fuel)%nat →
  wr_Size wr ≤ i + (Z.of_nat fuel - 1) * Chunksize wr → fill fuel wr i k out ≠ Ok Diverged.
Proof.
  induction fuel as [|fuel IH]; intros i k out Hc Hs Hi Hf Hb; [lia|]. cbn [fill].
  destruct (Z.ltb_spec (wr_Size wr) 0); [by rewrite (proj2 (Z.ltb_ge _ _)) by lia|].
  destruct (Z.ltb_spec i (wr_Size wr)) as [Hlt|]; [|done].
  assert (0 < fuel)%nat as Hf' by (destruct fuel; [exfalso; lia|lia]).
  rewrite (u64_id (i + Chunksize wr)) by lia.
  assert (∀ k out, fill fuel wr (i + Chunksize wr) k out ≠ Ok Diverged) as Hrec
    by (intros; apply IH; nia).
  destruct (Assignments wr !! i64 i) as [v|]; [|by destruct (bool_decide _)].
  destruct (copy_into _ _ v out); cbn; [apply Hrec|done..].
Qed.
Lemma fill_zero_chunk wr fuel k out :
  Chunksize wr = 0 → 0 < wr_Size wr → ReuseCSUM wr ≠ "" → Assignments wr !! 0 = None →
  fill fuel wr 0 k out = Ok Diverged.
Proof.
  intros Hc Hs Hr Ha. revert k. induction fuel as [|fuel IH]; intros k; [done|]. cbn [fill].
  rewrite (proj2 (Z.ltb_lt _ _)) by lia. change (i64 0) with 0. rewrite Hc, Ha, bool_decide_eq_false_2 by done. apply IH.
Qed.

Lemma copy_into_length i j src s s' : copy_into i j src s = Ok s' → length (arr s') = length (arr s).
Proof.
  unfold copy_into. destruct (_ && _) eqn:E; [|done]. intros [= <-]. cbn [arr].
  rewrite !length_app, length_take, length_drop, length_take. reflect_bools. lia.
Qed.
(** Round after round the one digest goes one record further, up to the end of the
    buffer. *)
Lemma fill_zero_assigned wr val : ∀ fuel k out,
  Chunksize wr = 0 → 0 < wr_Size wr → Assignments wr !! 0 = Some val → 0 ≤ k →
  fixed_header_end + 32 * k ≤ Z.max fixed_header_end (Z.of_nat (length (arr out))) →
  Z.of_nat (length (arr out)) < 2 ^ 63 → Z.of_nat (length (arr out)) < fixed_header_end + 32 * (k + Z.of_nat fuel) →
  (0 < fuel)%nat → fill fuel wr 0 k out = out_of_range.
Proof.
  unfold fixed_header_end. induction fuel as [|fuel IH]; intros k out Hc Hs Ha Hk Hpos Hlen Hb Hf; [lia|]. cbn [fill].
  rewrite (proj2 (Z.ltb_lt _ _)) by lia. change (i64 0) with 0. rewrite Hc, Ha. cbv zeta. unfold fixed_header_end.
  rewrite (u64_id (4096 + 32 * k)), (u64_id (4096 + 32 * k + 32)), (u64_id (k + 1)) by lia. change (u64 (0 + 0)) with 0.
  destruct (copy_into _ _ val out) as [out'|e|p] eqn:E.
  - pose proof (copy_into_length _ _ _ _ _ E) as Hl. unfold copy_into in E. destruct (_ && _) eqn:Hr in E; [|done].
    reflect_bools. cbn [mbind res_bind]. apply IH; try done; rewrite ?Hl; lia.
  - unfold copy_into in E. by destruct (_ && _) in E.
  - unfold copy_into, out_of_range in *. destruct (_ && _) in E; [done|]. by injection E as <-.
Qed.

(** C39. The loop over the offsets ends, after one round per chunk and one more, when
    the chunk size is positive and the sizes stay within 64 bits.  With the chunk size
    zero, that a damaged index hands to the writer that reuses it, and a size that is
    not, the loop stays at offset 0: it reports a hole if nothing is assigned there
    and no index is reused; it never ends if an index is reused and nothing is
    assigned there; and if a digest is, it fills the buffer with it and panics at its
    end, at most one round per record of the buffer and one more. *)
Theorem fill_termination wr out fuel :
  (0 < Chunksize wr → 0 ≤ wr_Size wr → wr_Size wr + Chunksize wr ≤ 2 ^ 64 →
     chunk_count wr < Z.of_nat fuel → fill fuel wr 0 0 out ≠ Ok Diverged) ∧
  (Chunksize wr = 0 → 0 < wr_Size wr →
     match Assignments wr !! 0 with
     | None => if decide (ReuseCSUM wr = "") then fill (S fuel) wr 0 0 out = Ok Hole else fill fuel wr 0 0 out = Ok Diverged
     | Some _ => Z.of_nat (length (arr out)) < 2 ^ 63 → Z.of_nat (length (arr out)) < fixed_header_end + 32 * Z.of_nat fuel →
         (0 < fuel)%nat → fill fuel wr 0 0 out = out_of_range
     end).
Proof.
  split.
  - intros Hc H0 Hs Hf. assert (0 ≤ chunk_count wr) by (apply Z.div_pos; lia).
    apply fill_ends; [done|done|lia|lia|]. unfold chunk_count in *.
    pose proof (Z.mul_succ_div_gt (wr_Size wr + Chunksize wr - 1) (Chunksize wr) Hc). nia.
  - intros Hc Hs. destruct (Assignments wr !! 0) as [val|] eqn:Ha.
    + intros Hlen Hb Hf. eapply fill_zero_assigned; [done..|lia|lia|done|lia|done].
    + destruct (decide (ReuseCSUM wr = "")) as [Hr|Hr]; [|by apply fill_zero_chunk]. cbn [fill].
      rewrite (proj2 (Z.ltb_lt _ _)) by lia. change (i64 0) with 0. by rewrite Ha, bool_decide_eq_true_2.
Qed.
Lemma fill_termination_witness :
  fill 4 (mkWriter "a.fidx" ∅ ∅ 4 10 "old") 0 0 (make 4192) ≠ Ok Diverged ∧
  fill 50 (mkWriter "a.fidx" ∅ ∅ 0 10 "old") 0 0 (make 4192) = Ok Diverged ∧
  fill 5 (mkWriter "a.fidx" {[ 0 := [x01] ]} ∅ 0 10 "old") 0 0 (make 4192) = out_of_range.
Proof.
  split_and!.
  - apply fill_termination; vm_compute; try reflexivity; discriminate.
  - exact (proj2 (fill_termination (mkWriter "a.fidx" ∅ ∅ 0 10 "old") (make 4192) 50) eq_refl eq_refl).
  - exact (proj2 (fill_termination (mkWriter "a.fidx" {[ 0 := [x01] ]} ∅ 0 10 "old") (make 4192) 5) eq_refl eq_refl
             ltac:(vm_compute; reflexivity) ltac:(vm_compute; reflexivity) ltac:(lia)).
Defined.

(** ** Concrete runs *)

Definition query_of (l : list (string * string)) (k : string) : string := default "" ((list_to_map l : gmap string string) !! k).
Definition post (uri : string) (q : list (string * string)) : Request :=
  mkRequest "POST" uri (λ _, "") (query_of q) (query_of q) 0 (Stream [] None).
Definition example_ticket : TicketEntry := mkTicketEntry "key" "secret" "s3.example" None 0.
Definition session_with (wr : Writer) : Server :=
  mkServer (Some example_ticket) (Some "pbs") (Some (mkSnapshot "100" 1000 "vm" [] false "" "pbs" false 0))
    {[ 1 := wr ]} 1 false ∅ (mkStorageClassPolicy "" "" "").
Definition close_writer : Writer :=
  mkWriter "drive.img.fidx" (<[0 := digest_of 1]> (<[4194304 := digest_of 2]> ∅)) ∅ 4194304 5000000 "".
Definition close_request : Request :=
  post "/fixed_close?wid=1" [("wid", "1"); ("csum", example_meta [1; 2])].
Definition close_state : hstate Server mem :=
  mkH empty_response (session_with close_writer) (Mem {[ "pbs" := ∅ ]} ∅ 1000000000000 0 []).
Definition close_run : res unit * hstate Server mem := fixed_close (λ _, []) 5 close_request close_state.

Lemma two_digests_ok wr a b x y :
  Assignments wr = <[a := digest_of x]> (<[b := digest_of y]> ∅) → digests_ok wr.
Proof.
  intros Ha o v. rewrite Ha. unfold digest_of.
  intros [[_ <-]|[_ [[_ <-]|[_ Hv]]%lookup_insert_Some]]%lookup_insert_Some; [done..|].
  by rewrite lookup_empty in Hv.
Qed.
Lemma close_run_ok : fixed_close (λ _, []) 5 close_request close_state = (Ok tt, snd close_run).
Proof. apply run_outcome. vm_compute. reflexivity. Qed.

Lemma fixed_close_new_witness :
  ∃ recs file, Z.of_nat (length recs) = chunk_count close_writer ∧
    (∀ j d, recs !! j = Some d → Assignments close_writer !! (Z.of_nat j * Chunksize close_writer) = Some d) ∧
    index_stored (h_world (snd close_run)) (h_sess close_state) (FidxName close_writer)
      (Query close_request "csum") file ∧
    ∀ dir idx, parseIndex (dir +:+ FidxName close_writer) file (Query close_request "csum") = Ok idx ↔
      Query close_request "csum" = hex_EncodeToString (sha256 (mjoin recs)) ∧
      idx = mkParsedIndex (Query close_request "csum") (hex_EncodeToString <$> recs) (wr_Size close_writer).
Proof.
  apply (fixed_close_new (λ _, []) 5 close_request close_state 1 close_writer tt (snd close_run)).
  - split; vm_compute; reflexivity.
  - reflexivity.
  - split_and!; vm_compute; congruence.
  - vm_compute. reflexivity.
  - by eapply two_digests_ok.
  - vm_compute. reflexivity.
  - vm_compute. reflexivity.
  - apply close_run_ok.
  - vm_compute. reflexivity.
Defined.

(** The next backup changes the second chunk only. *)
Definition reuse_writer : Writer :=
  mkWriter "drive.img.fidx" (<[4194304 := digest_of 3]> (<[4194304 := digest_of 3]> ∅)) ∅ 4194304 0 (example_meta [1; 2]).
Definition reuse_request : Request :=
  post "/fixed_close?wid=1" [("wid", "1"); ("csum", example_meta [1; 3])].
Definition reuse_state : hstate Server mem :=
  mkH empty_response (session_with reuse_writer) (h_world (snd close_run)).
Definition reuse_run : res unit * hstate Server mem := fixed_close (λ _, []) 5 reuse_request reuse_state.
Definition reuse_key : string := "indexed/" +:+ example_meta [1; 2] +:+ ".fidx".
Definition reuse_object : Obj :=
  default (mkObj [] ∅ ∅ 0) (contents (h_world (snd close_run)) "pbs" !! reuse_key).
Lemma reuse_run_ok : fixed_close (λ _, []) 5 reuse_request reuse_state = (Ok tt, snd reuse_run).
Proof. apply run_outcome. vm_compute. reflexivity. Qed.
Definition reuse_old : parsedIndex :=
  mkParsedIndex (example_meta [1; 2]) (hex_EncodeToString <$> [digest_of 1; digest_of 2]) 5000000.

Lemma fixed_close_reused_witness :
  let wr' := reusing reuse_writer (o_data reuse_object) in
  ∃ recs file, length recs = length (digests reuse_old) ∧
    (∀ j, hex_EncodeToString <$> recs !! j =
       (λ d, from_option hex_EncodeToString d (Assignments reuse_writer !! (Z.of_nat j * Chunksize wr')))
         <$> digests reuse_old !! j) ∧
    index_stored (h_world (snd reuse_run)) (h_sess reuse_state) (FidxName reuse_writer)
      (Query reuse_request "csum") file ∧
    ∀ dir idx, parseIndex (dir +:+ FidxName reuse_writer) file (Query reuse_request "csum") = Ok idx ↔
      Query reuse_request "csum" = hex_EncodeToString (sha256 (mjoin recs)) ∧
      idx = mkParsedIndex (Query reuse_request "csum") (hex_EncodeToString <$> recs) (wr_Size wr').
Proof.
  apply (fixed_close_reused (λ _, []) 5 reuse_request reuse_state 1 reuse_writer tt (snd reuse_run) "pbs"
           reuse_object (example_meta [1; 2]) reuse_old).
  - split; vm_compute; reflexivity.
  - vm_compute. congruence.
  - reflexivity.
  - vm_compute. reflexivity.
  - vm_compute. reflexivity.
  - split_and!; vm_compute; congruence.
  - vm_compute. reflexivity.
  - by eapply two_digests_ok.
  - vm_compute. reflexivity.
  - vm_compute. lia.
  - apply reuse_run_ok.
  - vm_compute. reflexivity.
Defined.
