(* ===== verification/DynamicIndex.v ===== *)
(** * Closing a dynamic index ([cmd/pmoxs3backuproxy/main.go], [/dynamic_close])

    The theorems about [dynamic_close] and about the assignment of digests to
    offsets, whose definitions are in [IndexWriter]. *)

From S2P Require Import Prelude GoStrings GoBytes Sha256 S3 Platform MemWorld Snapshot IndexFormat GCPlan Json Http ChunkUpload Session IndexWriter.

Local Open Scope Z_scope.

(** ** The file *)

(** The entries in the order of the offsets: where each chunk ends, and its digest. *)
Definition dynamic_entries (wr : Writer) : list (Z * list byte) :=
  (λ k, let a := default [] (Assignments wr !! k) in
        (u64 (u64 k + default 0 (DynamicChunkSizes wr !! hex_EncodeToString a)), a)) <$>
    sorted_keys (Assignments wr).
Definition dynamic_payload (wr : Writer) : list byte := mjoin ((λ e, entry e.1 e.2) <$> dynamic_entries wr).

Lemma dynamic_loop wr ks st st' :
  foldM (dynamic_entry wr) st ks = Ok st' →
  st'.1 = st.1 ++ mjoin ((λ e, entry e.1 e.2) <$>
    ((λ k, let a := default [] (Assignments wr !! k) in
        (u64 (u64 k + default 0 (DynamicChunkSizes wr !! hex_EncodeToString a)), a)) <$> ks)).
Proof.
  revert st. induction ks as [|k ks IH]; intros st; cbn [foldM].
  - intros [= <-]. by rewrite app_nil_r.
  - unfold dynamic_entry at 1. cbv zeta.
    destruct (DynamicChunkSizes wr !! _) as [sz|] eqn:Hsz; [|done]. intros ->%IH. cbn [fst].
    rewrite !fmap_cons. cbn [fst snd]. rewrite Hsz. cbn [default].
    match goal with |- _ = _ ++ mjoin (?a :: ?l) => change (mjoin (a :: l)) with (a ++ mjoin l) end.
    unfold entry at 2. cbn [id fst snd]. by rewrite <-!app_assoc.
Qed.

Lemma dynamic_known wr ks st st' :
  foldM (dynamic_entry wr) st ks = Ok st' →
  ∀ k, k ∈ ks → is_Some (DynamicChunkSizes wr !! hex_EncodeToString (default [] (Assignments wr !! k))).
Proof.
  revert st. induction ks as [|k ks IH]; intros st; cbn [foldM].
  - intros _ k Hk. by apply not_elem_of_nil in Hk.
  - destruct (dynamic_entry wr st k) as [st1| |] eqn:E; [|done..]. intros Hf k' [->|Hk']%elem_of_cons.
    + unfold dynamic_entry in E. destruct (DynamicChunkSizes wr !! _); [eauto|done].
    + by eapply IH.
Qed.

(** The table beside the file: the sizes of the chunks the entries refer to. *)
Definition dynamic_sizes (wr : Writer) : gmap string Z :=
  filter (λ kv, kv.1 ∈ hex_EncodeToString <$> (dynamic_entries wr).*2) (DynamicChunkSizes wr).

Lemma dynamic_table wr ks st st' i :
  foldM (dynamic_entry wr) st ks = Ok st' →
  st'.2 !! i = if decide (i ∈ (λ k, hex_EncodeToString (default [] (Assignments wr !! k))) <$> ks)
               then DynamicChunkSizes wr !! i else st.2 !! i.
Proof.
  revert st. induction ks as [|k ks IH]; intros st; cbn [foldM].
  - by intros [= <-].
  - unfold dynamic_entry at 1. cbv zeta.
    destruct (DynamicChunkSizes wr !! hex_EncodeToString _) as [sz|] eqn:Hsz; [|done]. intros ->%IH. cbn [snd]. rewrite fmap_cons.
    destruct (decide (i ∈ _ <$> ks)) as [Hi|Hi]; [by rewrite decide_True by (by apply elem_of_cons; right)|].
    destruct (decide (i ∈ _ :: _)) as [[->|?]%elem_of_cons|[Hne _]%not_elem_of_cons]; [|done|].
    + by rewrite lookup_insert_eq.
    + by rewrite lookup_insert_ne.
Qed.

Lemma length_dynamic_header u csum now :
  length u = 16%nat → length csum = 32%nat → length (dynamic_header u csum now) = IndexHeaderSize.
Proof.
  intros Hu Hc. unfold dynamic_header. rewrite !length_app, Hu, Hc, length_LE_Put, length_replicate. done.
Qed.
Lemma dynamic_header_fields u csum now :
  length u = 16%nat → length csum = 32%nat →
  (dynamic_header u csum now).[0 ⋯ 8] = PROXMOX_INDEX_MAGIC_DYNAMIC ∧
  (dynamic_header u csum now).[32 ⋯ 64] = csum.
Proof.
  intros Hu Hc. unfold dynamic_header. split.
  - by rewrite slice_app_l.
  - generalize 4032%nat. intros n. unfold slice.
    rewrite !app_assoc, <-(app_assoc _ csum), drop_app_length'
      by (rewrite !length_app, Hu, length_LE_Put; done).
    by rewrite take_app_length'.
Qed.

Lemma dynamic_entries_ok wr :
  digests_ok wr → Forall (λ e, is_u64 e.1 ∧ length e.2 = 32%nat) (dynamic_entries wr).
Proof.
  intros Hd. unfold dynamic_entries. apply Forall_fmap, Forall_forall. intros k Hkin.
  split; [apply u64_range|]. cbn. unfold sorted_keys in Hkin. rewrite merge_sort_Permutation in Hkin.
  apply list_elem_of_fmap in Hkin as ([k' v] & -> & Hv%elem_of_map_to_list). cbn. rewrite Hv. by eapply Hd.
Qed.

(** Under whatever name the written file is parsed, it refers to the assigned
    digests and no others. *)
Lemma dynamic_file_digests wr u csum now key meta idx :
  length u = 16%nat → length csum = 32%nat → digests_ok wr →
  parseIndex key (dynamic_header u csum now ++ dynamic_payload wr) meta = Ok idx →
  digests idx = hex_EncodeToString <$> (dynamic_entries wr).*2.
Proof.
  intros Hu Hc Hd Hp. destruct (dynamic_header_fields u csum now Hu Hc) as [Hm Hs].
  pose proof (length_dynamic_header u csum now Hu Hc) as Hlen.
  pose proof Hp as (header & payload & dl & sz & Ha & Hh & Hcont & Hsum & -> & _)%parseIndex_inv.
  apply app_inj_1 in Ha as [<- <-]; [|congruence]. inversion Hcont as [dl0 Hf Hmf|es Hf Hkd]; subst.
  - exfalso. clear -Hm Hmf. rewrite Hm in Hmf. vm_compute in Hmf. discriminate.
  - rewrite (parse_dynamic key _ (dynamic_entries wr)) in Hp; try done; [by injection Hp as <-|].
    by apply dynamic_entries_ok.
Qed.

(** The written file is accepted exactly with the right checksum. *)
Lemma dynamic_parses wr u csum now key idx :
  length u = 16%nat → digests_ok wr → HasSuffix key ".didx" = true → HasSuffix key ".fidx" = false →
  parseIndex key (dynamic_header u (fst (hex_DecodeString csum)) now ++ dynamic_payload wr) csum = Ok idx ↔
    csum = hex_EncodeToString (sha256 (dynamic_payload wr)) ∧
    idx = mkParsedIndex csum (hex_EncodeToString <$> (dynamic_entries wr).*2)
            (default 0 (last (dynamic_entries wr).*1)).
Proof.
  intros Hu Hd Hk Hnk. set (hdr := dynamic_header u _ now).
  assert (csum = hex_EncodeToString (sha256 (dynamic_payload wr)) →
    parseIndex key (hdr ++ dynamic_payload wr) csum =
      Ok (mkParsedIndex csum (hex_EncodeToString <$> (dynamic_entries wr).*2)
            (default 0 (last (dynamic_entries wr).*1)))) as Hok.
  { intros ->. unfold hdr. rewrite hex_Decode_Encode. cbn [fst].
    pose proof (length_sha256 (dynamic_payload wr)) as Hs.
    destruct (dynamic_header_fields u (sha256 (dynamic_payload wr)) now Hu Hs) as [Hm Hc].
    apply parse_dynamic; try done.
    - by apply length_dynamic_header.
    - by apply dynamic_entries_ok. }
  split; [|by intros [? ->]; apply Hok]. intros Hp.
  pose proof Hp as (header & payload & ds & sz & Ha & Hh & _ & _ & Hcs & _)%parseIndex_inv.
  assert (length (fst (hex_DecodeString csum)) = 32%nat) as Hl.
  { rewrite Hcs, hex_Decode_Encode. apply length_sha256. }
  assert (payload = dynamic_payload wr) as ->.
  { assert (length hdr = length header) as Hlh by (unfold hdr; by rewrite length_dynamic_header, Hh).
    by apply app_inj_1 in Ha as [_ ->]. }
  rewrite Hok in Hp by done. by injection Hp as <-.
Qed.
(** ** The handler *)

Section closing.
Context {W : Type} `{!ObjectStore W, !Platform W, !StoreView W, !FileView W}.
Context `{!ObjectStoreLaws W, !PlatformLaws W}.
Implicit Types (h : hstate Server W).

Record closes_dynamic (r : Request) h (wid : Z) (wr : Writer) : Prop := {
  cd_uri : HasPrefix (RequestURI r) "/dynamic_close?" = true;
  cd_auth : is_authenticated (h_sess h) = true;
  cd_method : Method r = "POST";
  cd_wid : i32 (fst (ParseInt (Query r "wid") 32)) = wid;
  cd_writer : Writers (h_sess h) !! wid = Some wr;
  cd_name : HasSuffix (FidxName wr) ".didx" = true ∧ HasSuffix (FidxName wr) ".fidx" = false;
  cd_response : h_rw h = empty_response;
}.

(** The writer once the sizes of earlier chunks are known. *)
Definition with_known_sizes (s : Server) (wr : Writer) : Writer :=
  set_DynamicChunkSizes (KnownChunksSizes s ∪ DynamicChunkSizes wr) wr.

Lemma dynamic_close_ok r h wid wr u h'
    (Hclose : closes_dynamic r h wid wr) (Hdig : digests_ok wr)
    (Hrun : dynamic_close r h = (Ok u, h')) (Hok : answered_ok (h_rw h') = true) :
  let wr' := with_known_sizes (h_sess h) wr in
  (∀ a, a ∈ (dynamic_entries wr').*2 → is_Some (DynamicChunkSizes wr' !! hex_EncodeToString a)) ∧
  ∃ ds snap x z, SelectedDataStore (h_sess h) = Some ds ∧ sv_Snapshot (h_sess h) = Some snap ∧
    contents (h_world h') ds !! (S3Prefix snap +:+ "/" +:+ FidxName wr) = Some x ∧
    o_meta x !! "Csum" = Some (Query r "csum") ∧
    contents (h_world h') ds !! (S3Prefix snap +:+ "/" +:+ FidxName wr +:+ ".csjson") = Some z ∧
    o_data z = string_bytes (json_encode (sizes_json (dynamic_sizes wr'))) ∧
    ∀ idx, parseIndex (S3Prefix snap +:+ "/" +:+ FidxName wr) (o_data x) (Query r "csum") = Ok idx ↔
      Query r "csum" = hex_EncodeToString (sha256 (dynamic_payload wr')) ∧
      idx = mkParsedIndex (Query r "csum") (hex_EncodeToString <$> (dynamic_entries wr').*2)
              (default 0 (last (dynamic_entries wr').*1)).
Proof.
  intros wr'. destruct Hclose as [Hu Ha Hm <- Hw [Hn1 Hn2] Hr]. unfold dynamic_close in Hrun.
  apply io_bind_Ok_inv in Hrun as (s & h1 & [= <- <-] & Hrun). rewrite Hu, Ha, bool_decide_eq_true_2 in Hrun by done.
  cbn [andb] in Hrun. cbv zeta in Hrun.
  apply io_bind_Ok_inv in Hrun as (u0 & h1 & (w1 & Hul%uuid_New_length & ->)%world_st_inv & Hrun).
  apply io_bind_Ok_inv in Hrun as (now & h1 & (w2 & _ & ->)%world_st_inv & Hrun). cbn [h_rw h_sess] in Hrun.
  apply io_bind_Ok_inv in Hrun as (wr0 & h1 & Hw' & Hrun). unfold writer in Hw'.
  apply io_bind_Ok_inv in Hw' as (s & h2 & [= <- <-] & [Hw' ->]%deref_inv). cbn [h_sess] in Hw'.
  rewrite Hw in Hw'. injection Hw' as <-. fold wr' in Hrun.
  apply io_bind_Ok_inv in Hrun as ([] & h1 & [= <-] & Hrun).
  apply io_bind_Ok_inv in Hrun as (st & h1 & [Hst ->]%lift_res_inv & Hrun).
  apply io_bind_Ok_inv in Hrun as (ds & h1 & [Hds ->]%deref_inv & Hrun).
  apply io_bind_Ok_inv in Hrun as (snap & h1 & [Hsnap ->]%deref_inv & Hrun).
  apply io_bind_Ok_inv in Hrun as ([q m] & h1 & (w3 & Hput & ->)%world_st_inv & Hrun).
  destruct q as [[]|e|p]; cbn [fst h_world] in Hrun, Hput; [| |done].
  2:{ apply io_bind_Ok_inv in Hrun as ([] & h2 & [= <-] & [= <- <-]). cbn in Hok. by rewrite Hr in Hok. }
  apply io_bind_Ok_inv in Hrun as ([q m'] & h1 & (w4 & Hput2 & ->)%world_st_inv & Hrun).
  destruct q as [[]|e|p]; cbn [fst h_world] in Hrun, Hput2; [| |done].
  2:{ apply io_bind_Ok_inv in Hrun as ([] & h2 & [= <-] & [= <- <-]). cbn in Hok. by rewrite Hr in Hok. }
  injection Hrun as _ <-. cbn [h_world].
  pose proof Hput as (_ & _ & x & Hx & Hdata & Hmeta)%PutObject_done; [|lia].
  pose proof Hput2 as (_ & _ & z & Hz & Hzdata & _)%PutObject_done; [|lia].
  apply PutObject_effect in Hput2 as K.
  apply csum_meta in Hmeta. rewrite Nat2Z.id, take_ge in Hdata by (cbn; lia). cbn in Hdata.
  split.
  { unfold dynamic_entries. intros a (e & -> & (k & -> & Hk)%list_elem_of_fmap)%list_elem_of_fmap.
    pose proof (dynamic_known _ _ _ _ Hst k Hk) as Hkn. exact Hkn. }
  exists ds, snap, x, z. split_and!; try done.
  - rewrite K; [done|]. right. intros Heq. apply (f_equal String.length) in Heq.
    rewrite !string_length_app in Heq. cbn in Heq. lia.
  - by rewrite string_app_assoc in Hz.
  - rewrite Hzdata, Nat2Z.id, take_ge by (cbn [s_bytes]; lia). cbn [s_bytes].
    enough (st.2 = dynamic_sizes wr') as -> by done. apply map_eq. intros i.
    rewrite (dynamic_table wr' (sorted_keys (Assignments wr')) _ _ i Hst). unfold dynamic_sizes, dynamic_entries. rewrite <-!list_fmap_compose.
    rewrite map_lookup_filter. unfold compose. fold wr'. cbn [fst snd].
    case_decide as Hi; destruct (DynamicChunkSizes wr' !! i); cbn; try case_guard; done.
  - intros idx. rewrite Hdata, (dynamic_loop _ _ _ _ Hst).
    assert (String.length ".didx" ≤ String.length (FidxName wr))%nat as Hlen.
    { apply HasSuffix_spec in Hn1 as [p ->]. rewrite string_length_app. lia. }
    apply dynamic_parses; [done|done|..]; rewrite <-(string_app_assoc _ "/"); by apply HasSuffix_extend.
Qed.

(** C15. A dynamic index, closed.  Let a session close an archive whose name ends in
    [.didx] and not in [.fidx], to whose offsets digests of 32 bytes each are
    assigned (the handlers store what they decode of a digest, whatever its length).
    If the request is answered with success, the size of every assigned chunk was
    noted - by an upload to the archive, or known from before, and the latter wins -
    and the snapshot holds two objects: the index, with the announced checksum in its
    metadata, which the collector accepts exactly when that checksum is the one of
    its entries, and then reads as the assigned digests in the order of their
    offsets, as long as the end of the last chunk; and beside it the table of the
    sizes of those chunks and no others. *)
Theorem dynamic_close_stores r h wid wr u h'
    (Hclose : closes_dynamic r h wid wr) (Hdig : digests_ok wr)
    (Hrun : dynamic_close r h = (Ok u, h')) (Hok : answered_ok (h_rw h') = true) :
  let wr' := with_known_sizes (h_sess h) wr in
  (∀ a, a ∈ (dynamic_entries wr').*2 → is_Some (DynamicChunkSizes wr' !! hex_EncodeToString a)) ∧
  ∃ ds snap x z, SelectedDataStore (h_sess h) = Some ds ∧ sv_Snapshot (h_sess h) = Some snap ∧
    contents (h_world h') ds !! (S3Prefix snap +:+ "/" +:+ FidxName wr) = Some x ∧
    o_meta x !! "Csum" = Some (Query r "csum") ∧
    contents (h_world h') ds !! (S3Prefix snap +:+ "/" +:+ FidxName wr +:+ ".csjson") = Some z ∧
    o_data z = string_bytes (json_encode (sizes_json (dynamic_sizes wr'))) ∧
    ∀ idx, parseIndex (S3Prefix snap +:+ "/" +:+ FidxName wr) (o_data x) (Query r "csum") = Ok idx ↔
      Query r "csum" = hex_EncodeToString (sha256 (dynamic_payload wr')) ∧
      idx = mkParsedIndex (Query r "csum") (hex_EncodeToString <$> (dynamic_entries wr').*2)
              (default 0 (last (dynamic_entries wr').*1)).
Proof. by eapply dynamic_close_ok. Qed.
End closing.

(** ** Assigning digests *)

Section assigning.
Context {W : Type} `{!ObjectStore W, !Platform W}.
Implicit Types (h : hstate Server W).

(** The table after the assignments: a later one replaces an earlier one. *)
Definition assigned (pairs : list (string * Z)) (m : gmap Z (list byte)) : gmap Z (list byte) :=
  foldl (λ m p, <[i64 p.2 := fst (hex_DecodeString p.1)]> m) m pairs.
Definition valid_digests (ds : list string) : bool :=
  forallb (λ d, match snd (hex_DecodeString d) with None => true | Some _ => false end) ds.

Definition pairs_of (req : AssignmentRequest) : list (string * Z) :=
  zip (DigestList req) (OffsetList req).

(** The run up to the [n]-th digest. *)
Record assigned_upto (req : AssignmentRequest) (wr : Writer) (n : nat) h h' : Prop := {
  au_world : h_world h' = h_world h;
  au_writer : Writers (h_sess h') !! Wid req =
    Some (set_Assignments (assigned (take n (pairs_of req)) (Assignments wr)) wr);
  au_status : rw_status (h_rw h') =
    if valid_digests (take n (DigestList req)) then rw_status (h_rw h)
    else Some (default StatusBadRequest (rw_status (h_rw h)));
  au_offsets : (n ≤ length (OffsetList req))%nat;
}.

(** The store through the writer of [Wid req]. *)
Lemma store_digest_inv req (i : nat) b h u h' wr :
  Writers (h_sess h) !! Wid req = Some wr →
  (wr0 ← writer (Wid req);
   offset ← lift_res (from_option Ok (Panicked "index out of range") (OffsetList req !! i));
   s ← session;
   set_session (set_writer (Wid req) (set_Assignments (<[i64 offset := b]> (Assignments wr0)) wr0) s)) h = (Ok u, h') →
  ∃ o, OffsetList req !! i = Some o ∧ h' = mkH (h_rw h)
    (set_writer (Wid req) (set_Assignments (<[i64 o := b]> (Assignments wr)) wr) (h_sess h)) (h_world h).
Proof.
  intros Hw Hr. unfold writer in Hr.
  apply io_bind_Ok_inv in Hr as (wr0 & h3 & Hw0 & Hr).
  apply io_bind_Ok_inv in Hw0 as (s & h4 & [= <- <-] & [Hw0 ->]%deref_inv).
  rewrite Hw in Hw0. injection Hw0 as <-.
  apply io_bind_Ok_inv in Hr as (o & h3 & [Ho ->]%lift_res_inv & Hr).
  apply io_bind_Ok_inv in Hr as (s & h3 & [= <- <-] & [= <-]).
  destruct (OffsetList req !! i) as [o'|]; [|done]. injection Ho as <-. eauto.
Qed.

Lemma valid_digests_snoc ds d :
  valid_digests (ds ++ [d]) = valid_digests ds && valid_digests [d].
Proof. unfold valid_digests. by rewrite forallb_app. Qed.
Lemma assigned_snoc ps d o m :
  assigned (ps ++ [(d, o)]) m = <[i64 o := fst (hex_DecodeString d)]> (assigned ps m).
Proof. unfold assigned. by rewrite foldl_app. Qed.

(** The status after one digest, reported or not. *)
Definition status_after (d : string) (st : option Z) : option Z :=
  if valid_digests [d] then st else Some (default StatusBadRequest st).

Lemma assign_one_ok req i h u h' wr :
  assign_one req i h = (Ok u, h') → Writers (h_sess h) !! Wid req = Some wr → (i < length (DigestList req))%nat →
  ∃ d o, DigestList req !! i = Some d ∧ OffsetList req !! i = Some o ∧
    h_world h' = h_world h ∧
    h_sess h' = set_writer (Wid req)
                  (set_Assignments (<[i64 o := fst (hex_DecodeString d)]> (Assignments wr)) wr) (h_sess h) ∧
    rw_status (h_rw h') = status_after d (rw_status (h_rw h)).
Proof.
  intros Hrun Hw Hi. apply lookup_lt_is_Some_2 in Hi as [d Hd]. unfold assign_one in Hrun.
  rewrite (nth_lookup_Some _ _ _ _ Hd) in Hrun. exists d. unfold status_after. cbn [valid_digests forallb].
  destruct (hex_DecodeString d) as [b err]. cbn [fst snd].
  apply io_bind_Ok_inv in Hrun as ([] & h1 & He & Hrun). destruct err as [e|].
  - apply io_bind_Ok_inv in He as ([] & h2 & [= <-] & [= <-]).
    apply (store_digest_inv _ _ _ _ _ _ wr) in Hrun as (o & Ho & ->); [|done].
    exists o. cbn [h_rw h_sess h_world rw_status]. by destruct (rw_status (h_rw h)).
  - injection He as <-. apply (store_digest_inv _ _ _ _ _ _ wr) in Hrun as (o & Ho & ->); [|done]. by exists o.
Qed.

Lemma assign_upto_step req i h h1 u h' wr :
  assigned_upto req wr i h h1 → (i < length (DigestList req))%nat →
  assign_one req i h1 = (Ok u, h') → assigned_upto req wr (S i) h h'.
Proof.
  intros [Hw0 Hwr Hst Ho0] Hi Hrun.
  destruct (assign_one_ok _ _ _ _ _ _ Hrun Hwr Hi) as (d & o & Hd & Ho & Hw & Hs & Hst').
  pose proof (lookup_lt_Some _ _ _ Ho). split.
  - congruence.
  - rewrite Hs. cbn [set_writer set_Writers Writers]. rewrite lookup_insert_eq. f_equal.
    unfold pairs_of. rewrite (take_S_r _ _ (d, o)) by (by rewrite lookup_zip_with, Hd, Ho).
    by rewrite assigned_snoc.
  - rewrite Hst', Hst, (take_S_r _ _ _ Hd), valid_digests_snoc. unfold status_after.
    destruct (valid_digests (take i _)), (valid_digests [d]); cbn; try done.
  - lia.
Qed.

(** The digests of a request are all assigned, in order, even when some of them
    are not hexadecimal: the answer is then 400, and what was decoded of the bad
    digest stands at its offset. *)
Theorem assign_all_outcome req h u h' wr
    (Hw : Writers (h_sess h) !! Wid req = Some wr) (Hst : rw_status (h_rw h) = None)
    (Hrun : assign_all req h = (Ok u, h')) :
  h_world h' = h_world h ∧
  Writers (h_sess h') !! Wid req =
    Some (set_Assignments (assigned (zip (DigestList req) (OffsetList req)) (Assignments wr)) wr) ∧
  rw_status (h_rw h') = (if valid_digests (DigestList req) then None else Some StatusBadRequest).
Proof.
  unfold assign_all in Hrun.
  assert (∀ k n h1, k + n = length (DigestList req) → assigned_upto req wr k h h1 →
    foldIO (λ _, assign_one req) tt (seq k n) h1 = (Ok u, h') →
    assigned_upto req wr (length (DigestList req)) h h')%nat as Hloop.
  { intros k n. revert k. induction n as [|n IH]; intros k h1 Hkn Hup Hr; cbn [seq foldIO] in Hr.
    - injection Hr as _ <-. by rewrite <-Hkn, Nat.add_0_r.
    - apply io_bind_Ok_inv in Hr as ([] & h2 & H1 & Hr). apply (IH (S k) h2); [lia| |done].
      eapply assign_upto_step; [done|lia|done]. }
  destruct (Hloop 0%nat (length (DigestList req)) h eq_refl) as [A B C D].
  - split; [done| |by cbn|lia]. rewrite Hw. by destruct wr.
  - exact Hrun.
  - rewrite Hst, (take_ge (DigestList req)) in C by done.
    rewrite take_ge in B by (unfold pairs_of; rewrite ?length_zip_with; lia). by split_and!.
Qed.
End assigning.

(** ** Concrete runs *)

(** A request with one good digest and one that is not hexadecimal. *)
Definition bad_digests : AssignmentRequest := mkAssignmentRequest [example_meta [7]; "abzz"] [0; 4194304] 1.
Definition bad_run : res unit * hstate Server mem := assign_all bad_digests close_state.
Lemma bad_run_ok : assign_all bad_digests close_state = (Ok tt, snd bad_run).
Proof. apply run_outcome. vm_compute. reflexivity. Qed.
Lemma assign_all_outcome_witness :
  h_world (snd bad_run) = h_world close_state ∧
  Writers (h_sess (snd bad_run)) !! Wid bad_digests =
    Some (set_Assignments (assigned (zip (DigestList bad_digests) (OffsetList bad_digests)) (Assignments close_writer))
            close_writer) ∧
  rw_status (h_rw (snd bad_run)) =
    (if valid_digests (DigestList bad_digests) then None else Some StatusBadRequest).
Proof.
  apply (assign_all_outcome bad_digests close_state tt (snd bad_run) close_writer).
  - vm_compute. reflexivity.
  - reflexivity.
  - apply bad_run_ok.
Defined.

(** A small archive of two chunks. *)
Definition dynamic_writer : Writer :=
  mkWriter "root.pxar.didx" (<[0 := digest_of 1]> (<[10 := digest_of 2]> ∅))
    (<[hex_EncodeToString (digest_of 1) := 10]> (<[hex_EncodeToString (digest_of 2) := 20]> ∅)) 0 0 "".
Definition dynamic_csum : string := hex_EncodeToString (sha256 (dynamic_payload dynamic_writer)).
Definition dynamic_request : Request :=
  post "/dynamic_close?wid=1" [("wid", "1"); ("csum", dynamic_csum)].
Definition dynamic_state : hstate Server mem :=
  mkH empty_response (session_with dynamic_writer) (Mem {[ "pbs" := ∅ ]} ∅ 1000000000000 0 []).
Definition dynamic_run : res unit * hstate Server mem := dynamic_close dynamic_request dynamic_state.
Lemma dynamic_run_ok : dynamic_close dynamic_request dynamic_state = (Ok tt, snd dynamic_run).
Proof. apply run_outcome. vm_compute. reflexivity. Qed.

Lemma dynamic_close_stores_witness :
  let wr' := with_known_sizes (h_sess dynamic_state) dynamic_writer in
  (∀ a, a ∈ (dynamic_entries wr').*2 → is_Some (DynamicChunkSizes wr' !! hex_EncodeToString a)) ∧
  ∃ ds snap x z, SelectedDataStore (h_sess dynamic_state) = Some ds ∧ sv_Snapshot (h_sess dynamic_state) = Some snap ∧
    contents (h_world (snd dynamic_run)) ds !! (S3Prefix snap +:+ "/" +:+ FidxName dynamic_writer) = Some x ∧
    o_meta x !! "Csum" = Some (Query dynamic_request "csum") ∧
    contents (h_world (snd dynamic_run)) ds !! (S3Prefix snap +:+ "/" +:+ FidxName dynamic_writer +:+ ".csjson") = Some z ∧
    o_data z = string_bytes (json_encode (sizes_json (dynamic_sizes wr'))) ∧
    ∀ idx, parseIndex (S3Prefix snap +:+ "/" +:+ FidxName dynamic_writer) (o_data x) (Query dynamic_request "csum") = Ok idx ↔
      Query dynamic_request "csum" = hex_EncodeToString (sha256 (dynamic_payload wr')) ∧
      idx = mkParsedIndex (Query dynamic_request "csum") (hex_EncodeToString <$> (dynamic_entries wr').*2)
              (default 0 (last (dynamic_entries wr').*1)).
Proof.
  apply (dynamic_close_stores dynamic_request dynamic_state 1 dynamic_writer tt (snd dynamic_run)).
  - split; vm_compute; try reflexivity. by split.
  - by eapply two_digests_ok.
  - apply dynamic_run_ok.
  - vm_compute. reflexivity.
Defined.
