(* ===== verification/Transfer.v ===== *)
(** * Moving chunks and files ([cmd/pmoxs3backuproxy/main.go], the HTTP/2 API)

    The handlers of a session that store and send data: chunk uploads, blobs, the
    index of the previous backup, and the downloads of a restore. *)

From S2P Require Import Prelude GoStrings GoBytes S3 Platform MemWorld Snapshot IndexFormat GCPlan Json Http ChunkUpload ChunkFlight Session IndexWriter DynamicIndex.

Local Open Scope Z_scope.

Section handlers.
Context {W : Type} `{!ObjectStore W, !Platform W}.
#[local] Abbreviation hio := (io (hstate Server W)).
(** [json.Unmarshal] into a [map[string]uint64] whose error is ignored. *)
Context (Unmarshal_sizes : list byte → gmap string Z).

Definition client_of (s : Server) : option minioClient := t ← H2Ticket s; Client t.

(** ** Uploads *)

Definition chunk_info (q : chunkRequest) (known : bool) : json :=
  JObject [("data", JObject
    [("digest", JString (cr_Digest q)); ("offset", JInt 0); ("size", JInt (i64 (cr_Size q)));
     ("chunk_is_known", JBool known)])].

(** After the upload: the chunk size of the writer when it has none, and the size
    of the chunk for dynamic indexes. *)
Definition note_chunk (dynamic : bool) (q : chunkRequest) : hio unit :=
  wr ← writer (cr_WriterID q);
  let wr := if Chunksize wr =? 0 then set_sizes (wr_Size wr) (cr_Size q) wr else wr in
  let wr := if dynamic then set_DynamicChunkSizes (<[cr_Digest q := cr_Size q]> (DynamicChunkSizes wr)) wr else wr in
  s ← session;
  set_session (set_writer (cr_WriterID q) wr s).

Definition chunk_upload (a : arrival) (r : Request) : hio unit :=
  s ← session;
  let dynamic := HasPrefix (RequestURI r) "/dynamic_chunk?" in
  if HasPrefix (RequestURI r) "/fixed_chunk?" || dynamic then
    match client_of s, SelectedDataStore s with
    | Some _, Some ds =>
        match parseChunkRequest r with
        | Err e => http_Error (ErrorText e) StatusBadRequest
        | Panicked p => lift_res (Panicked p)
        | Ok q =>
            match Writers s !! cr_WriterID q with
            | None => http_Error (ErrorText (Errorf "unknown writer id" [fmt_d (cr_WriterID q); cr_Digest q])) StatusBadRequest
            | Some _ =>
                u ← try (Do a (world (storeChunk ds q (Body r) (sc_Chunks (StorageClasses s))))
                              (drainChunkBody (Body r) (cr_EncodedSize q)));
                match u with
                | inr e => http_Error (ErrorText e) StatusInternalServerError
                | inl known =>
                    _ ← note_chunk dynamic q;
                    _ ← WriteHeader StatusOK;
                    _ ← Header_Add "Content-Type" "application/json";
                    Write (Json (chunk_info q known))
                end
            end
        end
    | _, _ => http_Error (Text "chunk upload requires an authenticated backup session") StatusUnauthorized
    end
  else mret tt.

Definition blob_upload (r : Request) : hio unit :=
  s ← session;
  if HasPrefix (RequestURI r) "/blob?" && is_authenticated s then
    let blobname := Query r "file-name" in
    let esize := fst (ParseInt (Query r "encoded-size") 64) in
    ds ← deref (SelectedDataStore s);
    snap ← deref (sv_Snapshot s);
    p ← world_st (PutObject ds (S3Prefix snap +:+ "/" +:+ blobname) (Body r) esize
                    (putOptions (sc_Backups (StorageClasses s)) ∅));
    match p.1 with
    | Ok _ => mret tt
    | Err e => _ ← WriteHeader StatusInternalServerError; Write (ErrorText e)
    | Panicked p => lift_res (Panicked p)
    end
  else mret tt.

Definition speedtest (r : Request) : hio unit :=
  s ← session;
  if HasPrefix (RequestURI r) "/speedtest" && is_authenticated s then WriteHeader StatusOK else mret tt.

(** ** Downloads *)

(** [io.Copy(w, obj)]: an error is logged; the client sees a short body. *)
Definition copy_body (s : stream) : hio unit :=
  if bool_decide (s_bytes s = []) then mret tt else Write (Data (s_bytes s)).
Definition send_object (obj : Object) (size : Z) : hio unit :=
  _ ← Header_Add "Content-Length" (fmt_d size);
  _ ← WriteHeader StatusOK;
  s ← world_st (Object_Read obj);
  copy_body s.

(** [GetObject] and [Stat]: an error of either is a 404 with its text. *)
Definition opened (ds key : string) : hio (option (Object * ObjectInfo)) :=
  o ← try (world (GetObject ds key None));
  match o with
  | inr e => _ ← WriteHeader StatusNotFound; _ ← Write (ErrorText e); mret None
  | inl obj =>
      st ← try (world (Object_Stat obj));
      match st with
      | inr e => _ ← WriteHeader StatusNotFound; _ ← Write (ErrorText e); mret None
      | inl st => mret (Some (obj, st))
      end
  end.
Definition serve (ds key : string) : hio unit :=
  o ← opened ds key;
  match o with
  | None => mret tt
  | Some (obj, st) => send_object obj (Size st)
  end.

Definition download (r : Request) : hio unit :=
  s ← session;
  if HasPrefix (RequestURI r) "/download?" && is_authenticated s then
    match client_of s, SelectedDataStore s with
    | Some _, Some ds =>
        let blobname := Query r "file-name" in
        if bool_decide (blobname = "") then http_Error (Text "missing file-name") StatusBadRequest
        else
          snap ← deref (sv_Snapshot s);
          serve ds (S3Prefix snap +:+ "/" +:+ blobname)
    | _, _ => http_Error (Text "download requires an authenticated restore session") StatusUnauthorized
    end
  else mret tt.

Definition chunk_download (r : Request) : hio unit :=
  s ← session;
  if HasPrefix (RequestURI r) "/chunk?" && is_authenticated s then
    match client_of s, SelectedDataStore s with
    | Some _, Some ds =>
        match chunkObjectName (Query r "digest") with
        | Err e => http_Error (ErrorText e) StatusBadRequest
        | Panicked p => lift_res (Panicked p)
        | Ok s3name => serve ds s3name
        end
    | _, _ => http_Error (Text "chunk download requires an authenticated restore session") StatusUnauthorized
    end
  else mret tt.

(** ** The previous backup *)

Definition latest (s : Server) : hio (option Snapshot + error) :=
  ds ← deref (SelectedDataStore s);
  snap ← deref (sv_Snapshot s);
  try (world (GetLatestSnapshot ds (BackupID snap) (BackupTime snap))).

Definition previous_backup_time (r : Request) : hio unit :=
  s ← session;
  if HasPrefix (RequestURI r) "/previous_backup_time" && is_authenticated s && bool_decide (Method r = "GET") then
    m ← latest s;
    match m with
    | inr e => _ ← WriteHeader StatusInternalServerError; Write (ErrorText e)
    | inl None => WriteHeader StatusNotFound
    | inl (Some mostRecent) =>
        _ ← WriteHeader StatusOK;
        _ ← Header_Add "Content-Type" "application/json";
        Write (Json (JObject [("data", JInt (BackupTime mostRecent))]))
    end
  else mret tt.

(** The sizes of the chunks of the previous index, as far as they can be read. *)
Definition load_sizes (ds key : string) : hio unit :=
  o ← try (world (GetObject ds key None));
  match o with
  | inr _ => mret tt
  | inl obj =>
      st ← try (world (Object_Stat obj));
      match st with
      | inr _ => mret tt
      | inl _ =>
          d ← world_st (Object_Read obj);
          match io_ReadAll d with
          | Ok data => s ← session; set_session (set_KnownChunksSizes (Unmarshal_sizes data ∪ KnownChunksSizes s) s)
          | _ => mret tt
          end
      end
  end.

Definition previous (r : Request) : hio unit :=
  s ← session;
  if HasPrefix (RequestURI r) "/previous?" && is_authenticated s && bool_decide (Method r = "GET") then
    m ← latest s;
    match m with
    | inr e => _ ← WriteHeader StatusInternalServerError; Write (ErrorText e)
    | inl None => WriteHeader StatusNotFound
    | inl (Some mostRecent) =>
        let name := Query r "archive-name" in
        if existsb (λ f, bool_decide (Filename f = name)) (Files mostRecent) then
          ds ← deref (SelectedDataStore s);
          let key := S3Prefix mostRecent +:+ "/" +:+ name in
          o ← opened ds key;
          match o with
          | None => mret tt
          | Some (obj, st) =>
              _ ← load_sizes ds (key +:+ ".csjson");
              send_object obj (Size st)
          end
        else WriteHeader StatusNotFound
    end
  else mret tt.
End handlers.

(** ** What a download delivers *)

(** The bytes of the answer, and whether they are as many as it announces: a client
    takes a shorter body for a broken transfer. *)
Definition received (r : response) : list byte :=
  mjoin ((λ p, match p with Data b => b | _ => [] end) <$> rw_body r).
Definition whole (r : response) : bool :=
  existsb (λ '(k, v), bool_decide (k = "Content-Length") && bool_decide (v = fmt_d (Z.of_nat (length (received r)))))
    (rw_headers r).

Section transfers.
Context {W : Type} `{!ObjectStore W, !Platform W, !StoreView W}.
Context `{!ObjectStoreLaws W}.
Implicit Types (h : hstate Server W).

Lemma serve_outcome ds key h u h' :
  serve ds key h = (Ok u, h') → h_rw h = empty_response → answered_ok (h_rw h') = true →
  ∃ x l, contents (h_world h) ds !! key = Some x ∧ l `prefix_of` o_data x ∧ received (h_rw h') = l ∧
    rw_headers (h_rw h') = [("Content-Length", fmt_d (Z.of_nat (length (o_data x))))] ∧
    keeps_all (h_world h) (h_world h').
Proof.
  intros Hrun Hrw Hok. unfold serve, opened in Hrun.
  apply io_bind_Ok_inv in Hrun as (o & h1 & Ho & Hrun).
  apply io_bind_Ok_inv in Ho as (g & h2 & Hg & Ho). unfold try in Hg.
  destruct (world (GetObject ds key None) h) as [[obj|e|p] h3] eqn:Eg; simplify_eq.
  2:{ apply world_inv in Eg as (w1 & _ & ->).
      apply io_bind_Ok_inv in Ho as ([] & h4 & [= <-] & Ho). apply io_bind_Ok_inv in Ho as ([] & h5 & [= <-] & [= <- <-]).
      injection Hrun as _ <-. cbn in Hok. by rewrite Hrw in Hok. }
  apply world_inv in Eg as (w1 & Eg & ->).
  apply io_bind_Ok_inv in Ho as (g & h3 & Hg & Ho). unfold try in Hg.
  destruct (world (Object_Stat obj) _) as [[oi|e|p] h4] eqn:Es; simplify_eq.
  2:{ apply world_inv in Es as (w2 & _ & ->).
      apply io_bind_Ok_inv in Ho as ([] & h4 & [= <-] & Ho). apply io_bind_Ok_inv in Ho as ([] & h5 & [= <-] & [= <- <-]).
      injection Hrun as _ <-. cbn in Hok. by rewrite Hrw in Hok. }
  apply world_inv in Es as (w2 & Es & ->). injection Ho as <- <-. cbn [h_rw h_sess h_world] in *.
  pose proof (Object_Stat_describes _ _ _ _ _ _ _ _ _ Eg (reflexivity _) Es) as (x & Hx & Hsz & _).
  apply Object_Stat_effect in Es. unfold send_object in Hrun.
  apply io_bind_Ok_inv in Hrun as ([] & h4 & [= <-] & Hrun).
  apply io_bind_Ok_inv in Hrun as ([] & h5 & [= <-] & Hrun).
  apply io_bind_Ok_inv in Hrun as (s & h6 & (w3 & Hr & ->)%world_st_inv & Hrun). cbn [h_rw h_sess h_world] in *.
  pose proof (GetObject_read _ _ _ _ _ _ _ _ Eg Es Hr) as Hd. rewrite Hx in Hd. destruct Hd as [Hpre _].
  exists x, (s_bytes s). rewrite Hrw, Hsz in Hrun. cbn in Hrun.
  apply GetObject_effect in Eg. apply Object_Read_effect in Hr.
  assert (keeps_all (h_world h) w3) as Hk by (etrans; [exact Eg|]; etrans; [exact Es|exact Hr]).
  unfold copy_body in Hrun. case_bool_decide as He.
  - injection Hrun as _ <-. cbn. rewrite He in *. by split_and!.
  - injection Hrun as _ <-. cbn. rewrite app_nil_r. by split_and!.
Qed.

Lemma whole_received x l (r : response) :
  l `prefix_of` o_data x → received r = l →
  rw_headers r = [("Content-Length", fmt_d (Z.of_nat (length (o_data x))))] → whole r = true → l = o_data x.
Proof.
  intros [t Ht] Hl Hh Hw. unfold whole in Hw. rewrite Hh in Hw. cbn in Hw. rewrite orb_false_r in Hw.
  apply bool_decide_eq_true in Hw. rewrite Hl in Hw. apply fmt_d_inj in Hw; [|lia..].
  rewrite Ht in *. rewrite length_app in Hw. destruct t; [by rewrite app_nil_r|cbn in Hw; lia].
Qed.

(** An answer that is whole by its own announcement is the object. *)
Lemma served_whole ds key h u h' :
  serve ds key h = (Ok u, h') → h_rw h = empty_response → answered_ok (h_rw h') = true → whole (h_rw h') = true →
  ∃ x, contents (h_world h) ds !! key = Some x ∧ received (h_rw h') = o_data x.
Proof.
  intros Hrun Hrw Hok Hwhole. destruct (serve_outcome _ _ _ _ _ Hrun Hrw Hok) as (x & l & Hx & Hpre & Hrec & Hhead & _).
  exists x. split; [done|]. rewrite Hrec. by eapply whole_received.
Qed.

(** A chunk upload that is answered with success has met [storeChunk]. *)
Lemma chunk_upload_stored r h u h' ds :
  chunk_upload First r h = (Ok u, h') → SelectedDataStore (h_sess h) = Some ds → h_rw h = empty_response →
  HasPrefix (RequestURI r) "/fixed_chunk?" || HasPrefix (RequestURI r) "/dynamic_chunk?" = true →
  answered_ok (h_rw h') = true →
  ∃ q known, parseChunkRequest r = Ok q ∧ stored ds q (Body r) known (h_world h) (h_world h') ∧
    is_Some (Writers (h_sess h) !! cr_WriterID q) ∧ rw_body (h_rw h') = [Json (chunk_info q known)].
Proof.
  intros Hrun Hds Hrw Hp Hok. unfold chunk_upload in Hrun.
  apply io_bind_Ok_inv in Hrun as (s & h1 & [= <- <-] & Hrun). rewrite Hp in Hrun.
  destruct (client_of (h_sess h)) as [c|]; [rewrite Hds in Hrun|].
  2:{ injection Hrun as _ <-. cbn in Hok. by rewrite Hrw in Hok. }
  destruct (parseChunkRequest r) as [q|e|p] eqn:Hq; [|injection Hrun as _ <-; cbn in Hok; by rewrite Hrw in Hok|done].
  destruct (Writers (h_sess h) !! cr_WriterID q) as [wr|] eqn:Hw; [|injection Hrun as _ <-; cbn in Hok; by rewrite Hrw in Hok].
  apply io_bind_Ok_inv in Hrun as (o & h1 & Ho & Hrun). unfold try in Ho. cbn [Do] in Ho.
  destruct (world (storeChunk _ _ _ _) h) as [[known|e|p] h2] eqn:Es; simplify_eq;
    apply world_inv in Es as (w1 & Es & ->).
  2:{ injection Hrun as _ <-. cbn in Hok. by rewrite Hrw in Hok. }
  pose proof (parseChunkRequest_Ok _ _ Hq) as (? & ? & ? & ? & _ & _ & ? & _ & _ & _ & _ & _ & ->).
  exists (mkChunkRequest (Query r "digest") x0 x1 x2 x), known. apply storeChunk_ok in Es; [|done].
  apply io_bind_Ok_inv in Hrun as ([] & h3 & Hn & Hrun).
  assert (h_world h3 = w1 ∧ h_rw h3 = empty_response) as [Hw3 Hr3].
  { unfold note_chunk, writer in Hn. apply io_bind_Ok_inv in Hn as (wr1 & h4 & Hn1 & Hn).
    apply io_bind_Ok_inv in Hn1 as (s & h5 & [= <- <-] & [_ ->]%deref_inv).
    by apply io_bind_Ok_inv in Hn as (s & h4 & [= <- <-] & [= <-]). }
  apply io_bind_Ok_inv in Hrun as ([] & h4 & [= <-] & Hrun).
  apply io_bind_Ok_inv in Hrun as ([] & h5 & [= <-] & [= _ <-]). cbn. rewrite Hw3, Hr3. by split_and!.
Qed.
End transfers.

(** ** A concrete client *)

Definition session_ticket : TicketEntry :=
  mkTicketEntry "key" "secret" "s3.example" (Some (mkClient "s3.example" (mkOptions "key" "secret" true BucketLookupAuto))) 0.
Definition session_snapshot : Snapshot := mkSnapshot "100" 1000 "host" [] false "" "" false 0.
Definition request (method uri : string) (q : list (string * string)) (body : string) : Request :=
  mkRequest method uri (λ _, "") (query_of q) (query_of q) (Z.of_nat (String.length body)) (Stream (string_bytes body) None).
Definition upload (n : Z) (size : string) : Request :=
  request "POST" "/dynamic_chunk?wid=1"
    [("digest", hex_EncodeToString (digest_of n)); ("encoded-size", "3"); ("size", size); ("wid", "1")] "abc".
Definition session_world : mem := Mem {[ "pbs" := ∅ ]} ∅ 1000000000000 0 [].
