(* ===== verification/Cache.v ===== *)
(** * The TTL cache ([cmd/pmoxs3backuproxy/cache.go])

    [ttlCache] memoises upstream calls by key.  A synchronous [Get] holds the
    entry's mutex while it fetches; [GetAsync] fetches in a goroutine, so its
    result can arrive after the entry was invalidated, and a generation number
    tells whether it did.  The operations are functions on the entry and the
    cache; the interleaving of clients, goroutines, invalidations and upstream
    changes is a step relation. *)

From S2P Require Import Prelude GoStrings S3 Platform MemWorld.

Local Open Scope Z_scope.

(** ** Entries *)

(** [fetched] is [None] for the zero [time.Time]. *)
Record ttlCacheEntry (T : Type) := mkEntry {
  value : T;
  fetched : option Z;
  valid : bool;
  refreshing : bool;
  generation : Z;      (* uint64 *)
}.
Arguments mkEntry {T}.
Arguments value {T}.
Arguments fetched {T}.
Arguments valid {T}.
Arguments refreshing {T}.
Arguments generation {T}.

(** [time.Since(t)]: saturated, and the zero time is that long ago. *)
Definition time_Since (now : Z) (t : option Z) : Z :=
  match t with
  | None => MaxInt64
  | Some t => Z.max (- 2 ^ 63) (Z.min MaxInt64 (now - t))
  end.

Section entry.
Context {T : Type} (zero : T).

Definition new_entry : ttlCacheEntry T := mkEntry zero None false false 0.

(** The test both kinds of reads begin with. *)
Definition e_fresh (ttl now : Z) (e : ttlCacheEntry T) : bool :=
  valid e && (time_Since now (fetched e) <? ttl).
(** [e.value = value; e.fetched = time.Now(); e.valid = true]. *)
Definition e_set (v : T) (now : Z) (e : ttlCacheEntry T) : ttlCacheEntry T :=
  mkEntry v (Some now) true (refreshing e) (generation e).
Definition e_refreshing (b : bool) (e : ttlCacheEntry T) : ttlCacheEntry T :=
  mkEntry (value e) (fetched e) (valid e) b (generation e).
Definition e_bump (e : ttlCacheEntry T) : ttlCacheEntry T :=
  mkEntry (value e) (fetched e) (valid e) (refreshing e) (u64 (generation e + 1)).
Definition e_invalidate (e : ttlCacheEntry T) : ttlCacheEntry T :=
  e_bump (mkEntry (value e) (fetched e) false (refreshing e) (generation e)).
Definition e_expire (e : ttlCacheEntry T) : ttlCacheEntry T :=
  e_bump (if valid e then mkEntry (value e) None (valid e) (refreshing e) (generation e) else e).

(** [Get] after the freshness test failed, given what the fetch answered. *)
Definition get_finish (fetch : res T) (now : Z) (e : ttlCacheEntry T) : res (T * bool) * ttlCacheEntry T :=
  match fetch with
  | Ok v => (Ok (v, true), e_set v now e)
  | Err err => if valid e then (Ok (value e, false), e) else (Err err, e)
  | Panicked p => (Panicked p, e)
  end.

(** [GetAsync]: what is answered, and the generation of the refresh it starts. *)
Definition async_start (ttl now : Z) (e : ttlCacheEntry T) : T * bool * option Z * ttlCacheEntry T :=
  if e_fresh ttl now e then (value e, true, None, e)
  else if refreshing e then (value e, valid e, None, e)
  else (value e, valid e, Some (generation e), e_refreshing true e).
(** The end of the goroutine. *)
Definition async_finish (gen : Z) (fetch : res T) (now : Z) (e : ttlCacheEntry T) : ttlCacheEntry T :=
  let e := e_refreshing false e in
  if negb (generation e =? gen) then e
  else match fetch with Ok v => e_set v now e | _ => e end.
End entry.

(** ** The cache *)

Record ttlCache (T : Type) := mkCache { ttl : Z; entries : gmap string (ttlCacheEntry T) }.
Arguments mkCache {T}.
Arguments ttl {T}.
Arguments entries {T}.

Section cache.
Context {T : Type} (zero : T).

Definition newTTLCache (ttl : Z) : ttlCache T := mkCache ttl ∅.

(** [c.entry(key)], and the update of the entry through its pointer. *)
Definition entry (c : ttlCache T) (key : string) : ttlCacheEntry T :=
  default (new_entry zero) (entries c !! key).
Definition set_entry (c : ttlCache T) (key : string) (e : ttlCacheEntry T) : ttlCache T :=
  mkCache (ttl c) (<[key := e]> (entries c)).

Definition Peek (c : ttlCache T) (key : string) : T * bool * ttlCache T :=
  let e := entry c key in (value e, valid e, set_entry c key e).
Definition Store (c : ttlCache T) (key : string) (v : T) (now : Z) : ttlCache T :=
  set_entry c key (e_bump (e_set v now (entry c key))).
Definition Invalidate (c : ttlCache T) (key : string) : ttlCache T :=
  set_entry c key (e_invalidate (entry c key)).
Definition Expire (c : ttlCache T) (key : string) : ttlCache T :=
  set_entry c key (e_expire (entry c key)).
Definition InvalidatePrefix (c : ttlCache T) (prefix : string) : ttlCache T :=
  mkCache (ttl c)
    (map_imap (λ key e, Some (if HasPrefix key prefix then e_invalidate e else e)) (entries c)).

(** The whole of [Get]; the mutex of the entry is held throughout.  The fetch may
    run in a state of its caller, so the clock is that state's. *)
Definition Get_with {V : Type} (clock : st V Z) (c : ttlCache T) (key : string) (fetch : io V T) (w : V)
    : res (T * bool) * ttlCache T * V :=
  let e := entry c key in
  let '(fresh, w) := if valid e then let '(now, w) := clock w in (e_fresh (ttl c) now e, w)
                     else (false, w) in
  if fresh then (Ok (value e, false), set_entry c key e, w)
  else
    let '(r, w) := fetch w in
    let '(now, w) := match r with Ok _ => clock w | _ => (0, w) end in
    let '(result, e) := get_finish r now e in
    (result, set_entry c key e, w).
Definition Get {W : Type} `{!Platform W} : ttlCache T → string → io W T → W → res (T * bool) * ttlCache T * W :=
  Get_with time_Now.

(** [GetAsync] up to the start of the refresh. *)
Definition GetAsync_start (c : ttlCache T) (key : string) (now : Z) : T * bool * option Z * ttlCache T :=
  let '(v, known, refresh, e) := async_start (ttl c) now (entry c key) in
  (v, known, refresh, set_entry c key e).
End cache.

(** ** Reading *)

Section reading.
Context {T : Type} (zero : T) {W : Type} `{!Platform W}.

Lemma entry_set_entry (c : ttlCache T) key e key' :
  entry zero (set_entry c key e) key' = if decide (key' = key) then e else entry zero c key'.
Proof.
  unfold entry, set_entry. cbn. case_decide; subst; [by rewrite lookup_insert_eq|by rewrite lookup_insert_ne].
Qed.

(** [Get] in the state of its caller: what it may change, and where its value is from. *)
Lemma Get_with_inv {V} (clock : st V Z) (R : relation V) `{!PreOrder R} c key fetch (w : V) r c' w' :
  st_effect R clock → effect R fetch → Get_with zero clock c key fetch w = (r, c', w') →
  R w w' ∧ ∀ v b, r = Ok (v, b) →
    (valid (entry zero c key) = true ∧ v = value (entry zero c key)) ∨
    ∃ w1 w2, (w1 = w ∨ w1 = snd (clock w)) ∧ fetch w1 = (Ok v, w2).
Proof.
  intros Hc Hf. unfold Get_with. set (e := entry zero c key).
  assert (∃ fresh w1, (if valid e then let '(now, w) := clock w in (e_fresh (ttl c) now e, w) else (false, w)) = (fresh, w1) ∧
    R w w1 ∧ (w1 = w ∨ w1 = snd (clock w)) ∧ (fresh = true → valid e = true)) as (fresh & w1 & -> & HR1 & Hw1 & Hfr).
  { destruct (valid e) eqn:Hv; [|exists false, w; split_and!; [done..|by left|done]].
    destruct (clock w) as [now w1] eqn:E. eexists _, _. split; [done|]. split_and!; [by eapply Hc|by right|done]. }
  destruct fresh. { intros [= <- <- <-]. split; [done|]. intros v b [= <- <-]. left. auto. }
  destruct (fetch w1) as [r1 w2] eqn:E2. pose proof (Hf _ _ _ E2) as HR2.
  destruct r1 as [v|er|p]; cbn [get_finish].
  - destruct (clock w2) as [now w3] eqn:E3. apply Hc in E3. intros [= <- <- <-].
    split; [by do 2 (etrans; [eassumption|])|]. intros v' b [= <- <-]. right. eauto.
  - destruct (valid e) eqn:Hv; intros [= <- <- <-]; (split; [by etrans|]); [|done]. intros ? ? [= <- <-]. by left.
  - intros [= <- <- <-]. split; [by etrans|done].
Qed.

(** A [Get] answers from the cache without calling upstream while the entry is
    fresh; otherwise with what upstream says, which is cached; and when upstream
    fails, with the last value ever seen, an error only if there is none.  It
    changes no other entry. *)
Theorem Get_outcome (c : ttlCache T) key fetch (w : W) :
  let e := entry zero c key in
  let '(now, w1) := time_Now w in
  let wf := if valid e then w1 else w in
  let '(r, c', w') := Get zero c key fetch w in
  (∀ key', key' ≠ key → entry zero c' key' = entry zero c key') ∧ generation (entry zero c' key) = generation e ∧
  if e_fresh (ttl c) now e
  then r = Ok (value e, false) ∧ entry zero c' key = e ∧ w' = w1
  else match fetch wf with
       | (Ok v, w2) => r = Ok (v, true) ∧ valid (entry zero c' key) = true ∧ value (entry zero c' key) = v ∧
                       fetched (entry zero c' key) = Some (fst (time_Now w2))
       | (Err err, w2) => entry zero c' key = e ∧ w' = w2 ∧
                          r = if valid e then Ok (value e, false) else Err err
       | (Panicked p, _) => r = Panicked p
       end.
Proof.
  cbn zeta. destruct (time_Now w) as [now w1] eqn:Ht. unfold Get, Get_with. rewrite Ht.
  destruct (valid (entry zero c key)) eqn:Hv.
  - destruct (e_fresh (ttl c) now (entry zero c key)) eqn:Hf.
    { split_and!; try done; intros; rewrite entry_set_entry; by case_decide. }
    destruct (fetch w1) as [[v|err|p] w2]; cbn [get_finish]; rewrite ?Hv.
    + destruct (time_Now w2) as [now2 w3]. split_and!; intros; rewrite ?entry_set_entry; try done;
        case_decide; done.
    + split_and!; intros; rewrite ?entry_set_entry; try done; case_decide; done.
    + split_and!; intros; rewrite ?entry_set_entry; try done; case_decide; done.
  - assert (e_fresh (ttl c) now (entry zero c key) = false) as -> by (unfold e_fresh; by rewrite Hv).
    destruct (fetch w) as [[v|err|p] w2]; cbn [get_finish]; rewrite ?Hv.
    + destruct (time_Now w2) as [now2 w3]. split_and!; intros; rewrite ?entry_set_entry; try done;
        case_decide; done.
    + split_and!; intros; rewrite ?entry_set_entry; try done; case_decide; done.
    + split_and!; intros; rewrite ?entry_set_entry; try done; case_decide; done.
Qed.
End reading.

(** ** Interleavings

    Values are the upstream versions they describe.  [fence] is the version at the
    last invalidation of a key (or the one stored), [bumps] counts them, and a
    flight is a goroutine of [GetAsync] that has not finished. *)

Record flight := mkFlight { fl_key : string; fl_gen : Z; fl_start : Z; fl_bump : Z }.
Record sys := mkSys {
  sys_cache : ttlCache Z;
  upstream : Z;
  clock : Z;
  locked : gmap string Z;        (* a [Get] is fetching, since this version *)
  flights : list flight;
  fence : string → Z;
  bumps : string → Z;
}.

Definition upd (f : string → Z) (k : string) (z : Z) : string → Z := λ k', if decide (k' = k) then z else f k'.
#[local] Abbreviation sys_entry s k := (entry 0 (sys_cache s) k).
Definition set_cache (s : sys) (c : ttlCache Z) : sys :=
  mkSys c (upstream s) (clock s) (locked s) (flights s) (fence s) (bumps s).

Inductive step : sys → sys → Prop :=
| s_mutate s :
    step s (mkSys (sys_cache s) (upstream s + 1) (clock s) (locked s) (flights s) (fence s) (bumps s))
| s_time s t : clock s ≤ t →
    step s (mkSys (sys_cache s) (upstream s) t (locked s) (flights s) (fence s) (bumps s))
| s_get_begin s k : locked s !! k = None → e_fresh (ttl (sys_cache s)) (clock s) (sys_entry s k) = false →
    step s (mkSys (sys_cache s) (upstream s) (clock s) (<[k := upstream s]> (locked s)) (flights s)
              (fence s) (bumps s))
| s_get_end s k v0 r : locked s !! k = Some v0 → (∀ v, r = Ok v → v0 ≤ v ≤ upstream s) →
    step s (mkSys (set_entry (sys_cache s) k (snd (get_finish r (clock s) (sys_entry s k)))) (upstream s)
              (clock s) (delete k (locked s)) (flights s) (fence s) (bumps s))
| s_async_start s k v ok g e : locked s !! k = None →
    async_start (ttl (sys_cache s)) (clock s) (sys_entry s k) = (v, ok, Some g, e) →
    step s (mkSys (set_entry (sys_cache s) k e) (upstream s) (clock s) (locked s)
              (mkFlight k g (upstream s) (bumps s k) :: flights s) (fence s) (bumps s))
| s_async_finish s l1 f l2 r : flights s = l1 ++ f :: l2 → locked s !! fl_key f = None →
    (∀ v, r = Ok v → fl_start f ≤ v ≤ upstream s) →
    step s (mkSys (set_entry (sys_cache s) (fl_key f) (async_finish (fl_gen f) r (clock s) (sys_entry s (fl_key f))))
              (upstream s) (clock s) (locked s) (l1 ++ l2) (fence s) (bumps s))
| s_peek s k : locked s !! k = None → step s (set_cache s (snd (Peek 0 (sys_cache s) k)))
| s_store s k v : locked s !! k = None → v ≤ upstream s →
    step s (mkSys (Store 0 (sys_cache s) k v (clock s)) (upstream s) (clock s) (locked s) (flights s)
              (upd (fence s) k v) (upd (bumps s) k (bumps s k + 1)))
| s_invalidate s k : locked s !! k = None →
    step s (mkSys (Invalidate 0 (sys_cache s) k) (upstream s) (clock s) (locked s) (flights s)
              (upd (fence s) k (upstream s)) (upd (bumps s) k (bumps s k + 1)))
| s_expire s k : locked s !! k = None →
    step s (mkSys (Expire 0 (sys_cache s) k) (upstream s) (clock s) (locked s) (flights s)
              (upd (fence s) k (upstream s)) (upd (bumps s) k (bumps s k + 1)))
| s_invalidate_prefix s p :
    (∀ k, is_Some (entries (sys_cache s) !! k) → HasPrefix k p = true → locked s !! k = None) →
    step s (mkSys (InvalidatePrefix (sys_cache s) p) (upstream s) (clock s) (locked s) (flights s)
              (λ k, if bool_decide (is_Some (entries (sys_cache s) !! k)) && HasPrefix k p
                    then upstream s else fence s k)
              (λ k, if bool_decide (is_Some (entries (sys_cache s) !! k)) && HasPrefix k p
                    then bumps s k + 1 else bumps s k)).

Definition init (ttl : Z) : sys :=
  mkSys (newTTLCache ttl) 0 0 ∅ [] (λ _, 0) (λ _, 0).

(** ** The invariant *)

(** Of one entry: its data, the upstream version, its fence and count, the version
    a lock was taken at, and whether a goroutine is under way. *)
Record entry_ok (e : ttlCacheEntry Z) (up fn bp : Z) (lock : option Z) (flying : Prop) : Prop := {
  eo_value : valid e = true → fetched e ≠ None → fn ≤ value e;
  eo_generation : generation e = u64 bp;
  eo_bumps : 0 ≤ bp;
  eo_fence : fn ≤ up;
  eo_locked v0 : lock = Some v0 → fn ≤ v0;
  eo_refreshing : refreshing e = true ↔ flying;
}.
Definition flight_ok (s : sys) (f : flight) : Prop :=
  fl_gen f = u64 (fl_bump f) ∧ 0 ≤ fl_bump f ≤ bumps s (fl_key f) ∧
  (fl_bump f = bumps s (fl_key f) → fence s (fl_key f) ≤ fl_start f).
Definition sys_ok (s : sys) : Prop :=
  (∀ k, entry_ok (sys_entry s k) (upstream s) (fence s k) (bumps s k) (locked s !! k)
          (k ∈ fl_key <$> flights s)) ∧
  (∀ f, f ∈ flights s → flight_ok s f) ∧ NoDup (fl_key <$> flights s).

(** No entry has been invalidated 2^64 times, so the generation did not wrap. *)
Definition bounded (s : sys) : Prop := ∀ k, bumps s k < 2 ^ 64.

Lemma init_ok t : sys_ok (init t).
Proof.
  split; [|split; [by intros f ?%not_elem_of_nil|constructor]].
  intros k. assert (sys_entry (init t) k = new_entry 0) as -> by reflexivity.
  split; cbn -[lookup]; try done. by rewrite elem_of_nil.
Qed.
Lemma step_bumps s s' k : step s s' → bumps s k ≤ bumps s' k.
Proof. destruct 1; cbn; unfold upd; repeat case_match; subst; lia. Qed.

Section entry_steps.
Implicit Types (e : ttlCacheEntry Z) (up fn bp : Z) (lock : option Z) (flying : Prop).

Lemma entry_ok_upstream e up up' fn bp lock flying :
  entry_ok e up fn bp lock flying → up ≤ up' → entry_ok e up' fn bp lock flying.
Proof. intros [] Hup. split; try done. lia. Qed.
Lemma entry_ok_flying e up fn bp lock flying flying' :
  entry_ok e up fn bp lock flying → (flying ↔ flying') → entry_ok e up fn bp lock flying'.
Proof. intros [] Hf. split; try done. by rewrite <-Hf. Qed.
Lemma entry_ok_lock e up fn bp flying :
  entry_ok e up fn bp None flying → entry_ok e up fn bp (Some up) flying.
Proof. intros []. split; try done. by intros v0 [= <-]. Qed.
Lemma entry_ok_get_end e up fn bp v0 flying r now :
  entry_ok e up fn bp (Some v0) flying → (∀ v, r = Ok v → v0 ≤ v ≤ up) →
  entry_ok (snd (get_finish r now e)) up fn bp None flying.
Proof.
  intros [Hv Hg Hb Hf Hl Hr] Hver. unfold get_finish. specialize (Hl v0 eq_refl).
  destruct r as [v|err|p]; cycle 1.
  { replace (snd (if valid e then _ else _)) with e by (by destruct (valid e)). by split. }
  { by split. }
  specialize (Hver v eq_refl). split; cbn; try done. intros; lia.
Qed.
Lemma entry_ok_async_start e up fn bp lock flying ttl now v ok g e' :
  entry_ok e up fn bp lock flying → async_start ttl now e = (v, ok, Some g, e') →
  ¬ flying ∧ g = u64 bp ∧ entry_ok e' up fn bp lock True.
Proof.
  intros [Hv Hg Hb Hf Hl Hr]. unfold async_start. destruct (e_fresh ttl now e); [done|].
  destruct (refreshing e) eqn:E; [done|]. intros [= <- <- <- <-].
  split; [by intros ?%Hr|]. split; [done|]. by split.
Qed.
Lemma entry_ok_async_finish e up fn bp flying gen bump start r now :
  entry_ok e up fn bp None flying → bp < 2 ^ 64 →
  gen = u64 bump → 0 ≤ bump ≤ bp → (bump = bp → fn ≤ start) → (∀ v, r = Ok v → start ≤ v ≤ up) →
  entry_ok (async_finish gen r now e) up fn bp None False.
Proof.
  intros [Hv Hg Hb Hf Hl Hr] Hbp -> Hbu Hst Hver. unfold async_finish. cbn.
  destruct (Z.eqb_spec (generation e) (u64 bump)) as [Heq|Hne]; cbn; [|by split].
  rewrite Hg, !u64_id in Heq by lia. subst bump. specialize (Hst eq_refl).
  destruct r as [v|err|p]; [|by split..]. specialize (Hver v eq_refl).
  split; cbn; try done. intros; lia.
Qed.
(** A bump moves the fence: to the present version when the value goes, or to the
    version that is stored. *)
Lemma entry_ok_bump e e' up fn fn' bp flying :
  entry_ok e up fn bp None flying → generation e' = generation e → refreshing e' = refreshing e →
  (valid e' = true → fetched e' ≠ None → fn' ≤ value e') → fn' ≤ up →
  entry_ok (e_bump e') up fn' (bp + 1) None flying.
Proof.
  intros [Hv Hg Hb Hf Hl Hr] Hg' Hr' Hv' Hup. split; cbn; try done; try lia.
  - by rewrite Hg', Hg, u64_add_l.
  - by rewrite Hr'.
Qed.
Lemma entry_ok_invalidate e up fn bp flying :
  entry_ok e up fn bp None flying → entry_ok (e_invalidate e) up up (bp + 1) None flying.
Proof. intros He. by eapply entry_ok_bump. Qed.
Lemma entry_ok_expire e up fn bp flying :
  entry_ok e up fn bp None flying → entry_ok (e_expire e) up up (bp + 1) None flying.
Proof.
  intros He. eapply entry_ok_bump; [done|..|done]; destruct (valid e) eqn:E; cbn; try done. congruence.
Qed.
Lemma entry_ok_store e up fn bp flying v now :
  entry_ok e up fn bp None flying → v ≤ up → entry_ok (e_bump (e_set v now e)) up v (bp + 1) None flying.
Proof. intros He Hv. by eapply entry_ok_bump. Qed.
End entry_steps.

Lemma entry_InvalidatePrefix {T} (zero : T) c p k :
  entry zero (InvalidatePrefix c p) k =
    if bool_decide (is_Some (entries c !! k)) && HasPrefix k p
    then e_invalidate (entry zero c k) else entry zero c k.
Proof.
  unfold entry, InvalidatePrefix. cbn. rewrite map_lookup_imap.
  destruct (entries c !! k) as [e|]; cbn; [|done]. by destruct (HasPrefix k p).
Qed.

Lemma flight_ok_bump s s' f :
  flight_ok s f → bumps s (fl_key f) ≤ bumps s' (fl_key f) →
  (bumps s' (fl_key f) = bumps s (fl_key f) → fence s' (fl_key f) = fence s (fl_key f)) → flight_ok s' f.
Proof.
  intros (Hg & Hb & Hf) Hle Hsame. split; [done|]. split; [lia|]. intros Heq.
  rewrite Hsame by lia. apply Hf. lia.
Qed.

Lemma step_ok s s' : sys_ok s → bounded s' → step s s' → sys_ok s'.
Proof.
  intros (He & Hf & Hnd) Hbd Hstep.
  assert (∀ f, f ∈ flights s → fence s' (fl_key f) = fence s (fl_key f) ∨
            bumps s (fl_key f) < bumps s' (fl_key f)) as Hfence.
  { intros f _. destruct Hstep; cbn; auto; unfold upd; repeat case_match; subst; auto; right; lia. }
  assert (∀ f, f ∈ flights s → flight_ok s' f) as Hf'.
  { intros f Hin. eapply flight_ok_bump; [by apply Hf|by apply step_bumps|].
    destruct (Hfence f Hin); [done|lia]. }
  clear Hfence. destruct Hstep; (split; [intros k'; specialize (He k')|split; [try done|try done]]);
    cbn [sys_cache upstream clock locked flights fence bumps set_cache Peek snd] in *; unfold Store, Invalidate, Expire;
    rewrite ?entry_set_entry, ?entry_InvalidatePrefix; unfold upd in *.
  - eapply entry_ok_upstream; [done|lia].
  - done.
  - destruct (decide (k' = k)) as [->|]; [|by rewrite lookup_insert_ne].
    rewrite lookup_insert_eq. apply entry_ok_lock. by rewrite <-H.
  - destruct (decide (k' = k)) as [->|]; [|by rewrite lookup_delete_ne].
    rewrite lookup_delete_eq. rewrite H in He. by eapply entry_ok_get_end.
  - destruct (decide (k' = k)) as [->|Hne].
    + eapply entry_ok_async_start in He as (_ & _ & He); [|done].
      eapply entry_ok_flying; [exact He|]. cbn. set_solver.
    + eapply entry_ok_flying; [exact He|]. cbn. set_solver.
  - intros f [->|Hin]%elem_of_cons; [|by apply Hf'].
    specialize (He k). pose proof (eo_bumps _ _ _ _ _ _ He). pose proof (eo_fence _ _ _ _ _ _ He).
    eapply entry_ok_async_start in He as (_ & Hg & _); [|done]. by split_and!.
  - cbn. constructor; [|done]. specialize (He k).
    by eapply entry_ok_async_start in He as (? & _ & _); [|done].
  - rewrite H in He, Hf, Hnd. destruct (decide (k' = fl_key f)) as [->|Hne].
    + rewrite H0 in *. destruct (Hf f) as (Hg & Hb & Hst); [set_solver|].
      eapply entry_ok_flying.
      { eapply entry_ok_async_finish; [exact He|exact (Hbd (fl_key f))|exact Hg|exact Hb|exact Hst|exact H1]. }
      split; [done|].
      rewrite fmap_app in Hnd. cbn in Hnd. apply NoDup_app in Hnd as (_ & Hd & Hn%NoDup_cons).
      rewrite fmap_app, elem_of_app. intros [Hin|Hin]; [|naive_solver].
      apply (Hd _ Hin). by left.
    + eapply entry_ok_flying; [exact He|]. rewrite !fmap_app. cbn. set_solver.
  - intros f' Hin. apply (Hf' f'). rewrite H. set_solver.
  - rewrite H, fmap_app in Hnd. cbn in Hnd. rewrite fmap_app. apply NoDup_app in Hnd as (Hn1 & Hd & Hn%NoDup_cons).
    apply NoDup_app. split; [done|]. split; [|naive_solver]. intros x Hx Hx'. apply (Hd x Hx). by right.
  - by destruct (decide (k' = k)) as [->|].
  - destruct (decide (k' = k)) as [->|]; [|done]. rewrite H in *. by eapply entry_ok_store.
  - destruct (decide (k' = k)) as [->|]; [|done]. rewrite H in *. by eapply entry_ok_invalidate.
  - destruct (decide (k' = k)) as [->|]; [|done]. rewrite H in *. by eapply entry_ok_expire.
  - destruct (bool_decide (is_Some (entries (sys_cache s) !! k'))) eqn:E; cbn [andb]; [|done].
    destruct (HasPrefix k' p) eqn:Ep; [|done]. apply bool_decide_eq_true_1 in E.
    rewrite (H k' E Ep) in *. by eapply entry_ok_invalidate.
Qed.

(** Every reachable state is well formed, up to 2^64 invalidations of one key. *)
Lemma reachable_ok t s : rtc step (init t) s → bounded s → sys_ok s.
Proof.
  revert s. refine (rtc_ind_r (λ s, bounded s → sys_ok s) (init t) _ _).
  - intros _. apply init_ok.
  - intros s1 s2 Hr Hst IH Hb. eapply step_ok; [|exact Hb|exact Hst]. apply IH. intros k.
    eapply Z.le_lt_trans; [by apply step_bumps|apply Hb].
Qed.
Lemma reachable_ttl t s : rtc step (init t) s → ttl (sys_cache s) = t.
Proof.
  revert s. refine (rtc_ind_r (λ s, ttl (sys_cache s) = t) (init t) _ _); [done|].
  intros s1 s2 _ Hst IH. by destruct Hst.
Qed.

(** C28. No interleaving of reads, background refreshes, upstream changes and
    invalidations makes an answer served as fresh older than the last invalidation
    of its key: a refresh that began before it cannot resurrect what it read. *)
Theorem fresh_after_invalidation t s k
    (Hreach : rtc step (init t) s) (Hbounded : bounded s) (Ht : t ≤ MaxInt64)
    (Hfresh : e_fresh (ttl (sys_cache s)) (clock s) (entry 0 (sys_cache s) k) = true) :
  fence s k ≤ value (entry 0 (sys_cache s) k).
Proof.
  destruct (reachable_ok t s Hreach Hbounded) as (He & _ & _).
  rewrite (reachable_ttl t s Hreach) in Hfresh. unfold e_fresh in Hfresh.
  apply andb_true_iff in Hfresh as [Hv Hs%Z.ltb_lt].
  apply (eo_value _ _ _ _ _ _ (He k) Hv). intros Hn. rewrite Hn in Hs. cbn in Hs. lia.
Qed.

(** Single flight: at any time at most one background refresh per key is under
    way, and the entry says so. *)
Theorem at_most_one_refresh t s (Hreach : rtc step (init t) s) (Hbounded : bounded s) :
  NoDup (fl_key <$> flights s) ∧
  ∀ k, refreshing (entry 0 (sys_cache s) k) = true ↔ k ∈ fl_key <$> flights s.
Proof.
  destruct (reachable_ok t s Hreach Hbounded) as (He & _ & Hnd). split; [done|].
  intros k. apply (eo_refreshing _ _ _ _ _ _ (He k)).
Qed.

(** A refresh starts, the datastore changes and is invalidated, the refresh ends:
    its answer is dropped, and the next read calls upstream. *)
Definition run1 : sys :=
  let s := init 100 in
  mkSys (set_entry (sys_cache s) "pbs" (e_refreshing true (new_entry 0))) 0 0 ∅
    [mkFlight "pbs" 0 0 0] (λ _, 0) (λ _, 0).
Definition run2 : sys :=
  mkSys (sys_cache run1) (0 + 1) 0 ∅ (flights run1) (λ _, 0) (λ _, 0).
Definition run3 : sys :=
  mkSys (Invalidate 0 (sys_cache run2) "pbs") 1 0 ∅ (flights run1)
    (upd (λ _, 0) "pbs" 1) (upd (λ _, 0) "pbs" (0 + 1)).
Definition run4 : sys :=
  mkSys (set_entry (sys_cache run3) "pbs" (async_finish 0 (Ok 0) 0 (entry 0 (sys_cache run3) "pbs"))) 1 0 ∅ []
    (fence run3) (bumps run3).
Definition run5 : sys :=
  mkSys (sys_cache run4) 1 0 (<["pbs" := 1]> ∅) [] (fence run3) (bumps run3).
Definition run6 : sys :=
  mkSys (set_entry (sys_cache run5) "pbs" (snd (get_finish (Ok 1) 0 (entry 0 (sys_cache run5) "pbs")))) 1 0
    (delete "pbs" (<["pbs" := 1]> ∅)) [] (fence run3) (bumps run3).
Lemma run6_reachable : rtc step (init 100) run6.
Proof.
  apply (rtc_l _ _ run1); [by apply (s_async_start (init 100) "pbs" 0 false 0)|].
  apply (rtc_l _ _ run2); [apply (s_mutate run1)|].
  apply (rtc_l _ _ run3); [by apply (s_invalidate run2 "pbs")|].
  apply (rtc_l _ _ run4).
  { apply (s_async_finish run3 [] (mkFlight "pbs" 0 0 0) [] (Ok 0)); [done|done|].
    intros v [= <-]. cbn. lia. }
  apply (rtc_l _ _ run5); [by apply (s_get_begin run4 "pbs")|].
  apply rtc_once. apply (s_get_end run5 "pbs" 1 (Ok 1)); [done|]. intros v [= <-]. cbn. lia.
Qed.
Lemma run6_bounded : bounded run6.
Proof. intros k. cbn. unfold upd. case_decide; lia. Qed.

Lemma fresh_after_invalidation_witness :
  fence run6 "pbs" = 1 ∧ fence run6 "pbs" ≤ value (entry 0 (sys_cache run6) "pbs").
Proof.
  split; [reflexivity|]. apply (fresh_after_invalidation 100 run6 "pbs").
  - apply run6_reachable.
  - apply run6_bounded.
  - vm_compute. discriminate.
  - vm_compute. reflexivity.
Defined.
Lemma at_most_one_refresh_witness :
  NoDup (fl_key <$> flights run6) ∧
  ∀ k, refreshing (entry 0 (sys_cache run6) k) = true ↔ k ∈ fl_key <$> flights run6.
Proof. apply (at_most_one_refresh 100 run6); [apply run6_reachable|apply run6_bounded]. Defined.
