(* ===== verification/CacheInvalidation.v ===== *)
(** * Cache invalidation in the proxy ([cmd/pmoxs3backuproxy/cache_invalidation.go])

    The five caches of derived metadata, what a mutation of a datastore drops of
    them, and the two ends of the token file: publishing after a terminal mutation,
    and looking at the token at the beginning of a request. *)

From S2P Require Import Prelude GoStrings S3 Platform MemWorld Snapshot Invalidation UsageStats Sizes Cache.

Local Open Scope Z_scope.

Record proxyCaches := mkCaches {
  snapshotListCache : ttlCache (list Snapshot);
  datastoreUsageCache : ttlCache DataStoreUsage;
  usageStatsCache : ttlCache (list byte);
  archiveSizeCache : ttlCache Z;
  manifestCryptModeCache : ttlCache (gmap string string);
}.

Definition invalidateDataStoreCachesLocal (datastore : string) (c : proxyCaches) : proxyCaches :=
  mkCaches (Invalidate [] (snapshotListCache c) datastore)
    (Expire zero_DataStoreUsage (datastoreUsageCache c) datastore)
    (Invalidate [] (usageStatsCache c) datastore)
    (InvalidatePrefix (archiveSizeCache c) (datastore +:+ "/"))
    (InvalidatePrefix (manifestCryptModeCache c) (datastore +:+ "/")).

(** The package-level [cacheInvalidations] with the caches it governs. *)
Record cacheInvalidations := mkInvalidations {
  ci_directory : string;
  ci_endpoint : string;
  ci_seen : gmap string string;
  ci_caches : proxyCaches;
}.

Definition configureCacheInvalidations (directory endpoint : string) (s : cacheInvalidations) : cacheInvalidations :=
  mkInvalidations directory endpoint (ci_seen s) (ci_caches s).
Definition set_seen (datastore token : string) (s : cacheInvalidations) : cacheInvalidations :=
  mkInvalidations (ci_directory s) (ci_endpoint s) (<[datastore := token]> (ci_seen s)) (ci_caches s).
Definition invalidate_local (datastore : string) (s : cacheInvalidations) : cacheInvalidations :=
  mkInvalidations (ci_directory s) (ci_endpoint s) (ci_seen s)
    (invalidateDataStoreCachesLocal datastore (ci_caches s)).

Section operations.
Context {W : Type} `{!Platform W}.

(** Errors are logged and dropped: both operations answer with the new state. *)
Definition publishDataStoreCacheInvalidation (datastore : string) (s : cacheInvalidations)
    : io W cacheInvalidations :=
  let s := invalidate_local datastore s in
  r ← try (PublishCacheInvalidation (ci_directory s) (ci_endpoint s) datastore);
  match r with
  | inr _ => mret s
  | inl token => mret (if bool_decide (token = "") then s else set_seen datastore token s)
  end.

Definition syncDataStoreCacheInvalidation (datastore : string) (s : cacheInvalidations)
    : io W cacheInvalidations :=
  let seen := get_tag (ci_seen s) datastore in
  r ← try (ReadCacheInvalidation (ci_directory s) (ci_endpoint s) datastore);
  match r with
  | inr _ => mret s
  | inl token =>
      if bool_decide (token = "") || bool_decide (token = seen) then mret s
      else mret (invalidate_local datastore (set_seen datastore token s))
  end.
End operations.

(** ** What an invalidation drops *)

(** A cache key belongs to a datastore: the keys of the metadata caches are
    object paths below it. *)
Definition below (datastore key : string) : bool := HasPrefix key (datastore +:+ "/").

Lemma InvalidatePrefix_valid {T} (zero : T) c p k :
  HasPrefix k p = true → valid (entry zero (InvalidatePrefix c p) k) = false.
Proof.
  intros Hp. rewrite entry_InvalidatePrefix, Hp, andb_true_r. case_bool_decide as He; [done|].
  unfold entry. apply eq_None_not_Some in He. by rewrite He.
Qed.

(** A local invalidation leaves nothing of the datastore that a later request
    could be served from - the usage figure, which is answered without blocking,
    is kept but counts as outdated - and nothing of another datastore changes. *)
Theorem invalidate_local_exact datastore c (now : Z) :
  let c' := invalidateDataStoreCachesLocal datastore c in
  valid (entry [] (snapshotListCache c') datastore) = false ∧
  valid (entry [] (usageStatsCache c') datastore) = false ∧
  (ttl (datastoreUsageCache c) ≤ MaxInt64 →
     e_fresh (ttl (datastoreUsageCache c')) now (entry zero_DataStoreUsage (datastoreUsageCache c') datastore) = false) ∧
  value (entry zero_DataStoreUsage (datastoreUsageCache c') datastore) =
    value (entry zero_DataStoreUsage (datastoreUsageCache c) datastore) ∧
  (∀ k, below datastore k = true →
     valid (entry 0 (archiveSizeCache c') k) = false ∧ valid (entry ∅ (manifestCryptModeCache c') k) = false) ∧
  (∀ other, other ≠ datastore →
     entry [] (snapshotListCache c') other = entry [] (snapshotListCache c) other ∧
     entry zero_DataStoreUsage (datastoreUsageCache c') other = entry zero_DataStoreUsage (datastoreUsageCache c) other ∧
     entry [] (usageStatsCache c') other = entry [] (usageStatsCache c) other) ∧
  (∀ k, below datastore k = false →
     entry 0 (archiveSizeCache c') k = entry 0 (archiveSizeCache c) k ∧
     entry ∅ (manifestCryptModeCache c') k = entry ∅ (manifestCryptModeCache c) k).
Proof.
  cbn. unfold Invalidate, Expire. rewrite !entry_set_entry, !decide_True by done.
  split; [done|]. split; [done|]. split.
  { intros Ht. unfold e_fresh, e_expire. destruct (valid (entry zero_DataStoreUsage _ datastore)) eqn:E; cbn; [|by rewrite E].
    apply Z.ltb_ge. lia. }
  split; [unfold e_expire; by destruct (valid _)|]. split.
  { intros k Hk. by rewrite !InvalidatePrefix_valid. }
  split.
  - intros other Hne. by rewrite !entry_set_entry, !decide_False by done.
  - intros k Hk. unfold below in Hk. by rewrite !entry_InvalidatePrefix, Hk, !andb_false_r.
Qed.

(** ** The token protocol *)

Section protocol.
Context {W : Type} `{!Platform W}.

(** A request looks at the token once: when it is one the process has not
    seen the caches of the datastore are dropped, and looking again at the same
    token changes nothing; an unreadable or missing token changes nothing either. *)
Theorem sync_once datastore s (w w' : W) s'
    (Hrun : syncDataStoreCacheInvalidation datastore s w = (Ok s', w')) :
  (s' = s ∨ ∃ token, token ≠ "" ∧ token ≠ get_tag (ci_seen s) datastore ∧
     fst (ReadCacheInvalidation (ci_directory s) (ci_endpoint s) datastore w) = Ok token ∧
     s' = invalidate_local datastore (set_seen datastore token s)) ∧
  ∀ w1 w2 s2, fst (ReadCacheInvalidation (ci_directory s') (ci_endpoint s') datastore w1) =
              fst (ReadCacheInvalidation (ci_directory s) (ci_endpoint s) datastore w) →
    syncDataStoreCacheInvalidation datastore s' w1 = (Ok s2, w2) → s2 = s'.
Proof.
  unfold syncDataStoreCacheInvalidation, try, mbind, io_bind in *.
  destruct (ReadCacheInvalidation (ci_directory s) (ci_endpoint s) datastore w) as [[token|e|p] wa] eqn:Er;
    [| |done].
  - destruct (bool_decide (token = "") || bool_decide (token = get_tag (ci_seen s) datastore)) eqn:Eb.
    + injection Hrun as <- <-. split; [by left|]. intros w1 w2 s2 Heq. cbn in Heq.
      destruct (ReadCacheInvalidation _ _ _ w1) as [r wb]. cbn in Heq. subst r. rewrite Eb. by intros [= <- _].
    + injection Hrun as <- <-. reflect_bools. split.
      { right. exists token. by split_and!. }
      intros w1 w2 s2 Heq. cbn in Heq. cbn [ci_directory ci_endpoint invalidate_local set_seen ci_seen].
      destruct (ReadCacheInvalidation _ _ _ w1) as [r wb]. cbn in Heq. subst r.
      unfold get_tag. rewrite lookup_insert_eq. cbn. rewrite (bool_decide_eq_true_2 (token = token)) by done.
      rewrite orb_true_r. by intros [= <- _].
  - injection Hrun as <- <-. split; [by left|]. intros w1 w2 s2 Heq. cbn in Heq.
    destruct (ReadCacheInvalidation _ _ _ w1) as [r wb]. cbn in Heq. subst r. by intros [= <- _].
Qed.
End protocol.

Definition token_path : string := CacheInvalidationTokenPath "/run/pbs" "s3.example" "pbs".
Definition token_world : mem := Mem ∅ {[ token_path := "17-3-1" ]} 0 0 [].
Definition token_state : cacheInvalidations :=
  mkInvalidations "/run/pbs" "s3.example" ∅
    (mkCaches (newTTLCache 100) (newTTLCache 100) (newTTLCache 100) (newTTLCache 100) (newTTLCache 100)).
Definition token_seen : cacheInvalidations := invalidate_local "pbs" (set_seen "pbs" "17-3-1" token_state).
Lemma sync_once_witness :
  (token_seen = token_state ∨ ∃ token, token ≠ "" ∧ token ≠ get_tag (ci_seen token_state) "pbs" ∧
     fst (ReadCacheInvalidation "/run/pbs" "s3.example" "pbs" token_world) = Ok token ∧
     token_seen = invalidate_local "pbs" (set_seen "pbs" token token_state)) ∧
  ∀ w1 w2 s2, fst (ReadCacheInvalidation "/run/pbs" "s3.example" "pbs" w1) =
              fst (ReadCacheInvalidation "/run/pbs" "s3.example" "pbs" token_world) →
    syncDataStoreCacheInvalidation "pbs" token_seen w1 = (Ok s2, w2) → s2 = token_seen.
Proof.
  apply (sync_once "pbs" token_state token_world token_world token_seen). vm_compute. reflexivity.
Defined.
