(* ===== verification/Manifest.v ===== *)
(** * The manifest of a snapshot ([internal/s3pmoxcommon/manifest.go])

    [index.json.blob] is a data blob: a magic number, a CRC-32 and the manifest,
    plain or compressed.  The proxy reads the encryption modes of the archives from
    it.  The decompressor and [json.Unmarshal] are parameters. *)

From S2P Require Import Prelude GoStrings GoBytes Sha256 S3 Platform MemWorld Snapshot.

Local Open Scope Z_scope.

(** ** hash/crc32, the IEEE polynomial *)

Definition crc_shift (c : Z) : Z :=
  if Z.odd c then Z.lxor (Z.shiftr c 1) 3988292384 else Z.shiftr c 1.
Definition crc_step (c : Z) (b : byte) : Z := Nat.iter 8 crc_shift (Z.lxor c (byte_Z b)).
Definition crc32_ChecksumIEEE (bs : list byte) : Z :=
  Z.lxor (foldl crc_step (2 ^ 32 - 1) bs) (2 ^ 32 - 1).

Example crc32_check : crc32_ChecksumIEEE (string_bytes "123456789") = 3421780262.
Proof. vm_compute. reflexivity. Qed.

(** ** Blobs *)

Definition uncompressedBlobMagic : list byte := Z_byte <$> [66; 171; 56; 7; 190; 131; 112; 161].
Definition compressedBlobMagic : list byte := Z_byte <$> [49; 185; 88; 66; 111; 182; 163; 127].
Definition maxManifestSize : Z := 128 * 1024 * 1024.

(** [io.LimitReader]: what is beyond the limit is not read, nor its error. *)
Definition io_LimitReader (s : stream) (n : Z) : stream :=
  if Z.of_nat (length (s_bytes s)) <? n then s else Stream (take (Z.to_nat n) (s_bytes s)) None.

Record manifestFile := mkManifestFile { mf_Filename : string; mf_CryptMode : string }.

Section manifest.
(** [zstd.NewReader] with the memory limit of its decoder, and [json.Unmarshal] into
    a [backupManifest]. *)
Context (zstd_NewReader : list byte → Z → res stream)
        (Unmarshal_manifest : list byte → res (list manifestFile)).

Definition decodeManifestBlob (raw : list byte) : res (list byte) :=
  if Z.of_nat (length raw) <? 12 then Err (Errorf "manifest blob too small" [])
  else if negb (crc32_ChecksumIEEE (drop 12 raw) =? LE_Uint32 (raw.[8 ⋯ 12]))
  then Err (Errorf "manifest blob CRC mismatch" [])
  else
    let magic := raw.[0 ⋯ 8] in
    if bool_decide (magic = uncompressedBlobMagic) then Ok (drop 12 raw)
    else if bool_decide (magic = compressedBlobMagic) then
      decoder ← wrap "open compressed manifest" [] (zstd_NewReader (drop 12 raw) maxManifestSize);
      decoded ← wrap "decompress manifest" [] (io_ReadAll (io_LimitReader decoder (maxManifestSize + 1)));
      if maxManifestSize <? Z.of_nat (length decoded) then Err (Errorf "decoded manifest exceeds" [])
      else Ok decoded
    else Err (Errorf "unsupported manifest blob magic" []).

Definition supported (mode : string) : bool :=
  bool_decide (mode = "none") || bool_decide (mode = "sign-only") || bool_decide (mode = "encrypt").
Definition mode_of (file : manifestFile) : string :=
  if bool_decide (mf_CryptMode file = "") then "none" else mf_CryptMode file.
Definition modes_step (modes : gmap string string) (file : manifestFile) : res (gmap string string) :=
  if supported (mode_of file) then Ok (<[mf_Filename file := mode_of file]> modes)
  else Err (Errorf "file has unsupported crypt mode" [mf_Filename file; mode_of file]).

Definition ParseManifestCryptModes (raw : list byte) : res (gmap string string) :=
  data ← decodeManifestBlob raw;
  files ← wrap "decode manifest JSON" [] (Unmarshal_manifest data);
  foldM modes_step ∅ files.

Definition apply_mode (modes : gmap string string) (f : SnapshotFile) : SnapshotFile :=
  match modes !! Filename f with
  | Some mode => mkSnapshotFile (Filename f) mode (sf_Size f)
  | None => f
  end.
Definition ApplySnapshotCryptModes (snapshot : Snapshot) (modes : gmap string string) : Snapshot :=
  set_Files (apply_mode modes <$> Files snapshot) snapshot.

Definition applyManifestCryptModes (snapshot : Snapshot) (raw : list byte) : res Snapshot :=
  modes ← ParseManifestCryptModes raw;
  Ok (ApplySnapshotCryptModes snapshot modes).

Section read.
Context {W : Type} `{!ObjectStore W}.

(** Closing a reader of the client answers nil. *)
Definition ReadSnapshotCryptModes (snapshot : Snapshot) : io W (gmap string string) :=
  let key := S3Prefix snapshot +:+ "/index.json.blob" in
  obj ← wrap_io "get" [key] (GetObject (Datastore snapshot) key None);
  s ← lift_st (Object_Read obj);
  raw ← lift_res (wrap "read" [key] (io_ReadAll (io_LimitReader s (maxManifestSize + 13))));
  if maxManifestSize + 12 <? Z.of_nat (length raw)
  then fail (Errorf "exceeds the maximum manifest size" [key])
  else lift_res (wrap "parse" [key] (ParseManifestCryptModes raw)).
End read.
End manifest.

(** ** The checksum *)

Lemma lxor_range n a b : 0 ≤ n → 0 ≤ a < 2 ^ n → 0 ≤ b < 2 ^ n → 0 ≤ Z.lxor a b < 2 ^ n.
Proof.
  intros Hn Ha Hb. split; [apply Z.lxor_nonneg; lia|].
  destruct (Z.eq_dec (Z.lxor a b) 0) as [->|Hx]; [lia|].
  assert (0 ≤ Z.lxor a b) by (apply Z.lxor_nonneg; lia).
  apply Z.log2_lt_pow2; [lia|]. eapply Z.le_lt_trans; [apply Z.log2_lxor; lia|].
  assert (∀ x, 0 ≤ x < 2 ^ n → x = 0 ∨ Z.log2 x < n) as Hl.
  { intros x Hx'. destruct (Z.eq_dec x 0); [by left|right]. apply Z.log2_lt_pow2; lia. }
  assert (0 < n) by (destruct (Z.eq_dec n 0) as [->|]; [change (2 ^ 0) with 1 in *; assert (a = 0 ∧ b = 0) as [-> ->] by lia; done|lia]).
  destruct (Hl a Ha) as [->|], (Hl b Hb) as [->|]; change (Z.log2 0) with 0; lia.
Qed.
Lemma crc_shift_range c : 0 ≤ c < 2 ^ 32 → 0 ≤ crc_shift c < 2 ^ 32.
Proof.
  intros Hc. assert (0 ≤ Z.shiftr c 1 < 2 ^ 32) as Hs.
  { rewrite Z.shiftr_div_pow2 by lia. change (2 ^ 1) with 2. Z.to_euclidean_division_equations; lia. }
  unfold crc_shift. destruct (Z.odd c); [|done]. by apply lxor_range.
Qed.
Lemma crc32_range bs : 0 ≤ crc32_ChecksumIEEE bs < 2 ^ 32.
Proof.
  unfold crc32_ChecksumIEEE. apply lxor_range; [lia| |lia].
  assert (∀ c, 0 ≤ c < 2 ^ 32 → 0 ≤ foldl crc_step c bs < 2 ^ 32) as Hf; [|by apply Hf; lia].
  induction bs as [|b bs IH]; cbn; [done|]. intros c Hc. apply IH. unfold crc_step.
  assert (∀ n c, 0 ≤ c < 2 ^ 32 → 0 ≤ Nat.iter n crc_shift c < 2 ^ 32) as Hi.
  { induction n as [|n IHn]; cbn; [done|]. intros. apply crc_shift_range. by apply IHn. }
  apply (Hi 8%nat), lxor_range; [lia|done|]. pose proof (byte_Z_range b). lia.
Qed.

(** ** Decoding *)

Lemma ReadAll_Limit s n data :
  io_ReadAll (io_LimitReader s (n + 1)) = Ok data ∧ Z.of_nat (length data) ≤ n ↔
  s_err s = None ∧ data = s_bytes s ∧ Z.of_nat (length data) ≤ n.
Proof.
  unfold io_LimitReader, io_ReadAll. destruct (Z.ltb_spec (Z.of_nat (length (s_bytes s))) (n + 1)) as [Hl|Hl].
  - destruct (s_err s); naive_solver.
  - split; [intros [[= <-] Hn]|intros (_ & -> & ?); lia]. cbn [s_bytes] in Hn. rewrite length_take in Hn. lia.
Qed.

Lemma le_bytes_Z bs : le_bytes (length bs) (le_Z bs) = bs.
Proof.
  induction bs as [|b bs IH]; [done|]. cbn [length le_bytes le_Z]. pose proof (byte_Z_range b) as Hb.
  replace ((byte_Z b + 256 * le_Z bs) / 256) with (le_Z bs) by (Z.to_euclidean_division_equations; lia).
  rewrite IH. f_equal. apply byte_Z_inj. rewrite byte_Z_byte. Z.to_euclidean_division_equations; lia.
Qed.

Section decoding.
Context (zstd_NewReader : list byte → Z → res stream)
        (Unmarshal_manifest : list byte → res (list manifestFile)).
#[local] Abbreviation decode := (decodeManifestBlob zstd_NewReader).
#[local] Abbreviation parse := (ParseManifestCryptModes zstd_NewReader Unmarshal_manifest).

Definition blob (magic payload : list byte) : list byte :=
  magic ++ le_bytes 4 (crc32_ChecksumIEEE payload) ++ payload.

(** What a payload under a magic number decodes to. *)
Inductive decodes : list byte → list byte → list byte → Prop :=
| decodes_plain payload : decodes uncompressedBlobMagic payload payload
| decodes_zstd payload s :
    zstd_NewReader payload maxManifestSize = Ok s → s_err s = None →
    Z.of_nat (length (s_bytes s)) ≤ maxManifestSize → decodes compressedBlobMagic payload (s_bytes s).

Lemma blob_split raw :
  12 ≤ Z.of_nat (length raw) → crc32_ChecksumIEEE (drop 12 raw) = LE_Uint32 (raw.[8 ⋯ 12]) →
  raw = blob (raw.[0 ⋯ 8]) (drop 12 raw).
Proof.
  intros Hl Hc. unfold blob. rewrite Hc.
  assert (length (raw.[8 ⋯ 12]) = 4%nat) as H4 by (rewrite length_slice; lia).
  assert (le_bytes 4 (LE_Uint32 (raw.[8 ⋯ 12])) = raw.[8 ⋯ 12]) as ->.
  { unfold LE_Uint32. rewrite take_ge by lia. rewrite <-H4 at 1. apply le_bytes_Z. }
  unfold slice. rewrite drop_0. change (12 - 8)%nat with 4%nat. change (8 - 0)%nat with 8%nat.
  rewrite <-(take_drop 8 raw) at 1. f_equal. rewrite <-(take_drop 4 (drop 8 raw)) at 1. f_equal.
  by rewrite drop_drop.
Qed.
Lemma blob_parts magic payload :
  length magic = 8%nat →
  12 ≤ Z.of_nat (length (blob magic payload)) ∧ drop 12 (blob magic payload) = payload ∧
  LE_Uint32 ((blob magic payload).[8 ⋯ 12]) = crc32_ChecksumIEEE payload ∧ (blob magic payload).[0 ⋯ 8] = magic.
Proof.
  intros Hm. unfold blob. rewrite !length_app, length_le_bytes. split; [lia|].
  rewrite (app_assoc magic), drop_app_length' by (by rewrite length_app, length_le_bytes, Hm).
  rewrite <-app_assoc. unfold slice. rewrite drop_app_length' by done. rewrite take_app_length' by (by rewrite length_le_bytes).
  rewrite drop_0, take_app_length' by done. split_and!; [done| |done].
  unfold LE_Uint32. rewrite take_ge by (by rewrite length_le_bytes). rewrite le_Z_bytes.
  apply Z.mod_small. exact (crc32_range payload).
Qed.

Lemma decode_iff raw data :
  decode raw = Ok data ↔ ∃ magic payload, raw = blob magic payload ∧ decodes magic payload data.
Proof.
  unfold decodeManifestBlob. split.
  - destruct (Z.ltb_spec (Z.of_nat (length raw)) 12) as [|Hl]; [done|].
    destruct (Z.eqb_spec (crc32_ChecksumIEEE (drop 12 raw)) (LE_Uint32 (raw.[8 ⋯ 12]))) as [Hc|]; [|done].
    cbn [negb]. cbv zeta. intros Hr. exists (raw.[0 ⋯ 8]), (drop 12 raw). split; [by apply blob_split|].
    case_bool_decide as Hu; [rewrite Hu; injection Hr as <-; constructor|].
    case_bool_decide as Hz; [rewrite Hz|done].
    apply res_bind_Ok in Hr as (s & Hs%wrap_Ok & Hr). apply res_bind_Ok in Hr as (d & Hd%wrap_Ok & Hr).
    destruct (Z.ltb_spec maxManifestSize (Z.of_nat (length d))) as [|Hn]; [done|]. injection Hr as ->.
    destruct (proj1 (ReadAll_Limit s maxManifestSize data) (conj Hd Hn)) as (He & -> & _). by constructor.
  - intros (magic & payload & -> & Hd).
    assert (length magic = 8%nat) as Hm by by destruct Hd.
    destruct (blob_parts magic payload Hm) as (Hl & Hp & Hc & Hmg). rewrite Hp, Hc, Hmg, Z.eqb_refl.
    destruct (Z.ltb_spec (Z.of_nat (length (blob magic payload))) 12); [lia|]. cbn [negb]. cbv zeta.
    destruct Hd as [payload|payload s Hs He Hn]; [by rewrite bool_decide_eq_true_2|].
    rewrite bool_decide_eq_false_2 by (by vm_compute). rewrite bool_decide_eq_true_2 by done.
    rewrite Hs. cbn [wrap mbind res_bind].
    destruct (proj2 (ReadAll_Limit s maxManifestSize (s_bytes s)) (conj He (conj eq_refl Hn))) as [-> _].
    cbn [wrap mbind res_bind]. destruct (Z.ltb_spec maxManifestSize (Z.of_nat (length (s_bytes s)))); [lia|done].
Qed.

(** The modes of a list of files: the last entry of a name counts. *)
Definition modes_of (files : list manifestFile) : gmap string string :=
  list_to_map (reverse ((λ f, (mf_Filename f, mode_of f)) <$> files)).

Lemma modes_loop files modes :
  foldM modes_step ∅ files = Ok modes ↔
  Forall (λ f, supported (mode_of f) = true) files ∧ modes = modes_of files.
Proof.
  enough (∀ m0 modes, foldM modes_step m0 files = Ok modes ↔
            Forall (λ f, supported (mode_of f) = true) files ∧ modes = modes_of files ∪ m0) as H.
  { rewrite H. by rewrite map_union_empty. }
  clear modes. induction files as [|f files IH]; intros m0 modes; cbn [foldM].
  { unfold modes_of. cbn. rewrite (left_id ∅ (∪)). split; [by intros [= <-]|by intros [_ ->]]. }
  unfold modes_of. rewrite fmap_cons, reverse_cons, list_to_map_app. cbn [list_to_map foldr].
  fold (modes_of files). unfold modes_step at 1. rewrite Forall_cons.
  destruct (supported (mode_of f)) eqn:Hs; cbn.
  - rewrite IH. rewrite insert_empty, <-(assoc_L (∪)), <-insert_union_singleton_l. naive_solver.
  - naive_solver.
Qed.

(** C34. The modes of a manifest are read from an intact blob only: it has one of
    the two magic numbers and the checksum of its payload, decompresses without an
    error to at most the limit, and every mode it names is known; a missing mode is
    [none], and the last entry of a file name counts. *)
Theorem ParseManifestCryptModes_iff raw modes :
  parse raw = Ok modes ↔
  ∃ magic payload data files, raw = blob magic payload ∧ decodes magic payload data ∧
    Unmarshal_manifest data = Ok files ∧
    Forall (λ f, mode_of f ∈ ["none"; "sign-only"; "encrypt"]) files ∧ modes = modes_of files.
Proof.
  assert (∀ f, supported (mode_of f) = true ↔ mode_of f ∈ ["none"; "sign-only"; "encrypt"]) as Hsup.
  { intros f. unfold supported. rewrite !orb_true_iff, !bool_decide_eq_true. set_solver. }
  unfold ParseManifestCryptModes. rewrite res_bind_Ok. setoid_rewrite decode_iff. setoid_rewrite res_bind_Ok.
  setoid_rewrite wrap_Ok. setoid_rewrite modes_loop. setoid_rewrite <-Hsup. naive_solver.
Qed.
End decoding.

(** ** Reading it *)

Section reading.
Context (zstd_NewReader : list byte → Z → res stream)
        (Unmarshal_manifest : list byte → res (list manifestFile)).
Context {W : Type} `{!ObjectStore W, !StoreView W, !ObjectStoreLaws W}.
#[local] Abbreviation parse := (ParseManifestCryptModes zstd_NewReader Unmarshal_manifest).
#[local] Abbreviation read := (ReadSnapshotCryptModes (W:=W) zstd_NewReader Unmarshal_manifest).

Lemma ReadSnapshotCryptModes_effect s : effect keeps_all (read s).
Proof. unfold ReadSnapshotCryptModes. solve_effect. Qed.

Lemma ReadSnapshotCryptModes_ok s (w : W) modes w' :
  read s w = (Ok modes, w') →
  ∃ x, contents w (Datastore s) !! (S3Prefix s +:+ "/index.json.blob") = Some x ∧ parse (o_data x) = Ok modes ∧
    Z.of_nat (length (o_data x)) ≤ maxManifestSize + 12.
Proof.
  unfold ReadSnapshotCryptModes. cbv zeta. intros Hr.
  apply io_bind_Ok_inv in Hr as (obj & w1 & Hg%wrap_io_Ok_inv & Hr).
  apply io_bind_Ok_inv in Hr as (st & w2 & Hs & Hr). unfold lift_st in Hs.
  destruct (Object_Read obj w1) as [st' w2'] eqn:Hd. injection Hs as -> ->.
  apply io_bind_Ok_inv in Hr as (raw & w3 & [Hraw%wrap_Ok ->]%lift_res_inv & Hr).
  destruct (Z.ltb_spec (maxManifestSize + 12) (Z.of_nat (length raw))) as [|Hn]; [done|].
  apply lift_res_inv in Hr as [Hp%wrap_Ok ->].
  replace (maxManifestSize + 13) with (maxManifestSize + 12 + 1) in Hraw by lia.
  destruct (proj1 (ReadAll_Limit st (maxManifestSize + 12) raw) (conj Hraw Hn)) as (He & -> & _).
  pose proof (GetObject_read _ _ _ _ _ _ _ _ Hg (reflexivity _) Hd) as Hdel.
  apply delivers_all in Hdel; [|done]. destruct (contents w _ !! _) as [x|]; [|done].
  injection Hdel as Hx. exists x. by rewrite Hx.
Qed.
End reading.
