(* ===== verification/Listing.v ===== *)
(** * Listings with their reports ([cmd/pmoxs3backuproxy/main.go], [sizes.go])

    The cached listing of a datastore: its snapshots as the store lists them,
    decorated - when the proxy is told to - with encryption modes, archive sizes
    and the figures of the collector.  The workers that read manifests and indexes
    write to places of their own, so they are modelled in the order of the jobs. *)

From S2P Require Import Prelude GoStrings GoBytes S3 Platform MemWorld Snapshot IndexFormat UsageStats Sizes ChunkUpload Session Cache Invalidation CacheInvalidation Manifest.

Local Open Scope Z_scope.

(** What the command line asks to report. *)
Record reports := mkReports {
  reportDataStoreUsage : bool;
  reportArchiveSize : bool;
  reportEncryption : bool;
  reportGCStats : bool;
  snapshotSizeMode : string;
  datastoreCapacity : Z;           (* uint64 *)
}.

(** ** Calls through the caches *)

Section caches.
Context {W : Type} `{!Platform W}.
#[local] Abbreviation cio := (io (proxyCaches * W)).

Definition upstream {A} (m : io W A) : cio A := λ cw, let '(r, w) := m cw.2 in (r, (cw.1, w)).
Definition clock : st (proxyCaches * W) Z := λ cw, let '(now, w) := time_Now cw.2 in (now, (cw.1, w)).

Definition set_snapshotList (c : ttlCache (list Snapshot)) (p : proxyCaches) : proxyCaches :=
  mkCaches c (datastoreUsageCache p) (usageStatsCache p) (archiveSizeCache p) (manifestCryptModeCache p).
Definition set_datastoreUsage (c : ttlCache DataStoreUsage) (p : proxyCaches) : proxyCaches :=
  mkCaches (snapshotListCache p) c (usageStatsCache p) (archiveSizeCache p) (manifestCryptModeCache p).
Definition set_usageStats (c : ttlCache (list byte)) (p : proxyCaches) : proxyCaches :=
  mkCaches (snapshotListCache p) (datastoreUsageCache p) c (archiveSizeCache p) (manifestCryptModeCache p).
Definition set_archiveSize (c : ttlCache Z) (p : proxyCaches) : proxyCaches :=
  mkCaches (snapshotListCache p) (datastoreUsageCache p) (usageStatsCache p) c (manifestCryptModeCache p).
Definition set_manifestCryptMode (c : ttlCache (gmap string string)) (p : proxyCaches) : proxyCaches :=
  mkCaches (snapshotListCache p) (datastoreUsageCache p) (usageStatsCache p) (archiveSizeCache p) c.

(** [Get] on one of the caches; a fetch may use the others. *)
Definition cached {T} (zero : T) (get : proxyCaches → ttlCache T) (set : ttlCache T → proxyCaches → proxyCaches)
    (key : string) (fetch : cio T) : cio (T * bool) := λ cw,
  let '(r, c, cw') := Get_with zero clock (get cw.1) key fetch cw in
  (r, (set c cw'.1, cw'.2)).
End caches.

Section listing.
Context {W : Type} `{!ObjectStore W, !Platform W}.
#[local] Abbreviation cio := (io (proxyCaches * W)).
Context (zstd_NewReader : list byte → Z → res stream)
        (Unmarshal_manifest : list byte → res (list manifestFile))
        (Unmarshal_stats : list byte → res UsageStats) (cfg : reports).

(** ** Archive sizes *)

Record job := mkJob { jb_snapshot : nat; jb_key : string; jb_objSize : Z }.

Definition snapshot_jobs (i : nat) (s : Snapshot) : list job :=
  (λ f, mkJob i (S3Prefix s +:+ "/" +:+ Filename f) (i64 (sf_Size f))) <$>
    List.filter (λ f, IsIndex (Filename f)) (Files s).
Definition archive_jobs (snapshots : list Snapshot) : list job := concat (imap snapshot_jobs snapshots).

(** A size that cannot be determined counts as 0. *)
Definition lookup_size (snapshots : list Snapshot) (sizes : list Z) (j : job) : cio (list Z) :=
  let ds := default "" (Datastore <$> snapshots !! jb_snapshot j) in
  r ← try (cached 0 archiveSizeCache set_archiveSize (ds +:+ "/" +:+ jb_key j)
             (upstream (ArchiveSize ds (jb_key j) (jb_objSize j))));
  mret (sizes ++ [match r with inl (size, _) => size | inr _ => 0 end]).
Definition add_size (snapshots : list Snapshot) (js : job * Z) : list Snapshot :=
  alter (λ s, set_Size (u64 (sn_Size s + js.2)) s) (jb_snapshot js.1) snapshots.

Definition FillArchiveSizes (snapshots : list Snapshot) : cio (list Snapshot) :=
  let jobs := archive_jobs snapshots in
  sizes ← foldIO (lookup_size snapshots) [] jobs;
  mret (foldl add_size snapshots (zip jobs sizes)).

(** ** Encryption modes *)

Definition fill_crypt_mode (done : list Snapshot) (s : Snapshot) : cio (list Snapshot) :=
  let key := Datastore s +:+ "/" +:+ S3Prefix s +:+ "/index.json.blob" in
  r ← try (cached ∅ manifestCryptModeCache set_manifestCryptMode key
             (upstream (ReadSnapshotCryptModes zstd_NewReader Unmarshal_manifest s)));
  mret (done ++ [match r with inl (modes, _) => ApplySnapshotCryptModes s modes | inr _ => s end]).
Definition FillSnapshotCryptModes (snapshots : list Snapshot) : cio (list Snapshot) :=
  foldIO fill_crypt_mode [] snapshots.

(** ** The report of the collector *)

Definition fetchUsageStats (datastore : string) : io W (list byte) :=
  obj ← GetObject datastore UsageStatsObject None;
  s ← lift_st (Object_Read obj);
  lift_res (io_ReadAll s).
Definition readUsageStats (datastore : string) : cio (option UsageStats) :=
  if bool_decide (snapshotSizeMode cfg = SnapshotSizeLogical) then mret None
  else
    r ← try (cached [] usageStatsCache set_usageStats datastore (upstream (fetchUsageStats datastore)));
    match r with
    | inr _ => mret None
    | inl (raw, _) =>
        match Unmarshal_stats raw with
        | Ok stats => mret (Some stats)
        | Err _ => mret None
        | Panicked p => lift_res (Panicked p)
        end
    end.

(** ** The listing *)

Definition applyOptionalSnapshotReports (datastore : string) (snapshots : list Snapshot) : cio (list Snapshot) :=
  snapshots ← (if reportEncryption cfg then FillSnapshotCryptModes snapshots else mret snapshots);
  snapshots ← (if reportArchiveSize cfg then FillArchiveSizes snapshots else mret snapshots);
  if reportGCStats cfg then
    stats ← readUsageStats datastore;
    mret (ApplySnapshotSizeMode (snapshotSizeMode cfg) snapshots stats)
  else mret snapshots.

Definition listSnapshotsCached (datastore : string) : cio (list Snapshot) :=
  r ← cached [] snapshotListCache set_snapshotList datastore
        (s ← upstream (ListSnapshots datastore false);
         applyOptionalSnapshotReports datastore s);
  mret (fst r).
End listing.

(** ** The usage of a datastore *)

Section usage.
Context {W : Type} `{!ObjectStore W}.
(** [GetBucketLocation] of the client, and the signed HEAD request on the bucket:
    the status of its answer and its headers. *)
Context (GetBucketLocation : string → io W string)
        (bucket_HEAD : string → TicketEntry → string → string → io W (Z * (string → string))).

Definition usageFromHeaders (status : Z) (header : string → string) : option DataStoreUsage :=
  if negb (status =? 200) then None
  else match ParseUint (header "x-ovh-bucket-size") 64 with
       | (_, Some _) => None
       | (size, None) =>
           let count := match ParseUint (header "x-ovh-bucket-object-count") 64 with
                        | (count, None) => count
                        | (_, Some _) => 0
                        end in
           Some (mkDataStoreUsage size 0 count 0)
       end.
Definition usageFromBucketHeaders (C : TicketEntry) (secure : bool) (datastore : string) : io W (option DataStoreUsage) :=
  if bool_decide (Client C = None) || bool_decide (AccessKeyID C = "") then mret None
  else
    location ← try (GetBucketLocation datastore);
    match location with
    | inr _ => mret None
    | inl location =>
        r ← try (bucket_HEAD (if secure then "https" else "http") C datastore location);
        mret (match r with
              | inr _ => None
              | inl (status, header) => usageFromHeaders status header
              end)
    end.
Definition ComputeDataStoreUsage (C : TicketEntry) (secure : bool) (datastore : string) : io W DataStoreUsage :=
  u ← usageFromBucketHeaders C secure datastore;
  match u with
  | Some usage => mret usage
  | None => walkDataStoreUsage datastore
  end.

(** Whatever the probe does short of a panic, the figure is that of the headers or
    that of a walk. *)
Lemma ComputeDataStoreUsage_source C secure ds (w : W) u w' :
  ComputeDataStoreUsage C secure ds w = (Ok u, w') →
  (∃ status header, usageFromHeaders status header = Some u) ∨ ∃ w1, walkDataStoreUsage ds w1 = (Ok u, w').
Proof.
  unfold ComputeDataStoreUsage. intros (o & w1 & Ho & Hr)%io_bind_Ok_inv.
  destruct o as [u'|]; [|by right; eauto]. injection Hr as -> _. left.
  unfold usageFromBucketHeaders in Ho. destruct (_ || _); [done|].
  apply io_bind_Ok_inv in Ho as ([location|e] & w2 & _ & Ho); [|done].
  apply io_bind_Ok_inv in Ho as ([[status header]|e] & w3 & _ & [= Ho _]); eauto.
Qed.
End usage.

(** ** What the reports may change *)

(** A decorated snapshot differs in its size and in the modes of its files. *)
Definition same_file (f f' : SnapshotFile) : Prop := Filename f' = Filename f ∧ sf_Size f' = sf_Size f.
Record decorates (s s' : Snapshot) : Prop := {
  dc_name : snapshot_name s' = snapshot_name s;
  dc_id : BackupID s' = BackupID s;
  dc_time : BackupTime s' = BackupTime s;
  dc_type : BackupType s' = BackupType s;
  dc_files : Forall2 same_file (Files s) (Files s');
  dc_flags : Protected s' = Protected s ∧ corrupted s' = corrupted s;
  dc_text : Comment s' = Comment s ∧ Datastore s' = Datastore s;
}.
#[export] Instance same_file_preorder : PreOrder same_file.
Proof. split; [by split|]. intros f1 f2 f3 [] []. split; congruence. Qed.
#[export] Instance decorates_preorder : PreOrder decorates.
Proof.
  split; [intros s; by split|]. intros s1 s2 s3 [] []. split; try naive_solver congruence. by etrans.
Qed.
Lemma decorates_size n s : decorates s (set_Size n s).
Proof. by split. Qed.
Lemma decorates_modes modes s : decorates s (ApplySnapshotCryptModes s modes).
Proof.
  split; try done. cbn. induction (Files s) as [|f l IH]; cbn; constructor; [|done].
  unfold apply_mode. by destruct (modes !! _).
Qed.
#[export] Hint Resolve decorates_size decorates_modes : go_listing.

Section proofs.
Context {W : Type} `{!ObjectStore W, !Platform W, !StoreView W, !FileView W}.
Context `{!ObjectStoreLaws W, !PlatformLaws W}.
Context (zstd_NewReader : list byte → Z → res stream)
        (Unmarshal_manifest : list byte → res (list manifestFile))
        (Unmarshal_stats : list byte → res UsageStats) (cfg : reports).

(** The store is read only. *)
Definition reads_only : relation (proxyCaches * W) := λ cw cw', keeps_all cw.2 cw'.2.
#[export] Instance reads_only_preorder : PreOrder reads_only.
Proof.
  split; [intros cw; unfold reads_only; reflexivity|]. intros c1 c2 c3 H12 H23. unfold reads_only in *.
  by transitivity c2.2.
Qed.
Lemma upstream_effect {A} (m : io W A) : effect keeps_all m → effect reads_only (upstream m).
Proof. intros Hm [p w] r cw'. unfold upstream. cbn. destruct (m w) as [r0 w0] eqn:E. intros [= <- <-]. by eapply Hm. Qed.

Lemma clock_effect : st_effect reads_only clock.
Proof.
  intros cw now cw'. unfold clock. destruct (time_Now cw.2) as [n w1] eqn:E. intros [= <- <-].
  unfold reads_only. cbn. by apply time_Now_effect in E.
Qed.
Lemma cached_inv {T} (zero : T) get set key (fetch : io (proxyCaches * W) T) cw r cw' :
  effect reads_only fetch → cached zero get set key fetch cw = (r, cw') →
  reads_only cw cw' ∧ ∀ v b, r = Ok (v, b) →
    (valid (entry zero (get cw.1) key) = true ∧ v = value (entry zero (get cw.1) key)) ∨
    ∃ cw1 cw2, cw1.1 = cw.1 ∧ reads_only cw cw1 ∧ fetch cw1 = (Ok v, cw2).
Proof.
  intros Hf. unfold cached. destruct (Get_with _ _ _ _ _ _) as [[r0 c] cw0] eqn:E. intros [= <- <-].
  apply (Get_with_inv _ _ reads_only) in E as [HR Hv]; [|apply clock_effect|done]. split; [exact HR|].
  intros v b Hr. destruct (Hv v b Hr) as [?|(cw1 & cw2 & Hcw & Hfetch)]; [by left|right]. exists cw1, cw2.
  destruct Hcw as [->| ->]; [done|]. destruct (clock cw) as [now cw2'] eqn:E2. cbn [snd] in *.
  split_and!; [|by apply clock_effect in E2|done]. unfold clock in E2. destruct (time_Now cw.2). by injection E2 as _ <-.
Qed.

#[local] Hint Resolve upstream_effect : go_effect.
Lemma cached_effect {T} (zero : T) get set key (fetch : io (proxyCaches * W) T) :
  effect reads_only fetch → effect reads_only (cached zero get set key fetch).
Proof. intros Hf cw r cw' Hr. by apply cached_inv in Hr as [HR _]. Qed.
#[local] Hint Resolve cached_effect : go_effect.
Lemma ArchiveSize_effect b k n : effect keeps_all (ArchiveSize (W:=W) b k n).
Proof. unfold ArchiveSize, fixedArchiveSize, dynamicArchiveSize, rangeRead. solve_effect. Qed.
Lemma fetchUsageStats_effect ds : effect keeps_all (fetchUsageStats (W:=W) ds).
Proof. unfold fetchUsageStats. solve_effect. Qed.

(** ** Every report decorates *)

Lemma fill_crypt_modes_ok l (cw : proxyCaches * W) l' cw' :
  FillSnapshotCryptModes zstd_NewReader Unmarshal_manifest l cw = (Ok l', cw') →
  Forall2 decorates l l' ∧ reads_only cw cw'.
Proof.
  intros Hr. apply (foldIO_ind (Forall2 decorates) reads_only _ _ _ _ _ _ Hr); [constructor|].
  intros done s todo st st' w1 w2 _ HP _ Hf. unfold fill_crypt_mode in Hf.
  apply io_bind_Ok_inv in Hf as (x & w3 & Hx & [= <- <-]). split.
  - apply Forall2_app; [done|]. constructor; [|constructor]. destruct x as [[modes b]|e]; auto with go_listing; reflexivity.
  - eapply effect_try; [|exact Hx]. by apply cached_effect, upstream_effect, ReadSnapshotCryptModes_effect.
Qed.

Lemma add_size_ok l l' js : Forall2 decorates l l' → Forall2 decorates l (add_size l' js).
Proof.
  intros Hl. unfold add_size. apply Forall2_alter_r; [done|]. intros s s' _ _ Hs. etrans; [exact Hs|]. apply decorates_size.
Qed.
Lemma fill_archive_sizes_ok l (cw : proxyCaches * W) l' cw' :
  FillArchiveSizes l cw = (Ok l', cw') → Forall2 decorates l l' ∧ reads_only cw cw'.
Proof.
  unfold FillArchiveSizes. cbv zeta. intros (sizes & cw1 & Hs & [= <- <-])%io_bind_Ok_inv. split.
  - generalize (zip (archive_jobs l) sizes). intros js.
    enough (∀ l', Forall2 decorates l l' → Forall2 decorates l (foldl add_size l' js)) as H.
    { apply H. reflexivity. }
    induction js as [|js1 js IH]; cbn; [done|]. intros l' Hl. by apply IH, add_size_ok.
  - eapply effect_foldIO; [typeclasses eauto| |exact Hs]. intros sz j. unfold lookup_size. cbv zeta.
    apply effect_bind; [typeclasses eauto| |intros; apply effect_ret; typeclasses eauto].
    by apply effect_try, cached_effect, upstream_effect, ArchiveSize_effect.
Qed.
Lemma size_mode_ok mode l stats : Forall2 decorates l (ApplySnapshotSizeMode mode l stats).
Proof.
  unfold ApplySnapshotSizeMode. destruct stats as [stats|]; [|reflexivity]. case_bool_decide; [reflexivity|]. cbv zeta.
  apply Forall2_fmap_r, Forall_Forall2_diag, Forall_forall. intros s _. unfold compose, size_step.
  repeat case_match; auto with go_listing; reflexivity.
Qed.
Lemma readUsageStats_effect ds : effect reads_only (readUsageStats (W:=W) Unmarshal_stats cfg ds).
Proof. pose proof (fetchUsageStats_effect ds). unfold readUsageStats. solve_effect. Qed.

Lemma reports_ok ds l (cw : proxyCaches * W) l' cw' :
  applyOptionalSnapshotReports zstd_NewReader Unmarshal_manifest Unmarshal_stats cfg ds l cw = (Ok l', cw') →
  Forall2 decorates l l'.
Proof.
  unfold applyOptionalSnapshotReports. intros (l1 & w1 & H1 & (l2 & w2 & H2 & H3)%io_bind_Ok_inv)%io_bind_Ok_inv.
  assert (Forall2 decorates l l1) as D1.
  { destruct (reportEncryption cfg); [by apply fill_crypt_modes_ok in H1 as [? _]|by injection H1 as <- _]. }
  assert (Forall2 decorates l1 l2) as D2.
  { destruct (reportArchiveSize cfg); [by apply fill_archive_sizes_ok in H2 as [? _]|by injection H2 as <- _]. }
  assert (Forall2 decorates l2 l') as D3.
  { destruct (reportGCStats cfg); [|by injection H3 as <- _].
    apply io_bind_Ok_inv in H3 as (stats & w3 & _ & [= <- _]). apply size_mode_ok. }
  etrans; [exact D1|]. by etrans.
Qed.

#[local] Abbreviation listing := (listSnapshotsCached (W:=W) zstd_NewReader Unmarshal_manifest Unmarshal_stats cfg).
Lemma crypt_modes_effect l : effect reads_only (FillSnapshotCryptModes (W:=W) zstd_NewReader Unmarshal_manifest l).
Proof.
  pose proof (ReadSnapshotCryptModes_effect (W:=W) zstd_NewReader Unmarshal_manifest).
  unfold FillSnapshotCryptModes, fill_crypt_mode. cbv zeta. solve_effect.
Qed.
Lemma archive_sizes_effect l : effect reads_only (FillArchiveSizes (W:=W) l).
Proof. pose proof ArchiveSize_effect. unfold FillArchiveSizes, lookup_size. cbv zeta. solve_effect. Qed.
Lemma listing_fetch_effect ds :
  effect reads_only (s ← upstream (ListSnapshots (W:=W) ds false);
    applyOptionalSnapshotReports zstd_NewReader Unmarshal_manifest Unmarshal_stats cfg ds s).
Proof.
  pose proof crypt_modes_effect. pose proof archive_sizes_effect. pose proof readUsageStats_effect.
  pose proof (upstream_effect (ListSnapshots (W:=W) ds false) (ListSnapshots_effect _ _)).
  unfold applyOptionalSnapshotReports. solve_effect.
Qed.
Lemma listing_effect ds : effect reads_only (listing ds).
Proof.
  unfold listSnapshotsCached. apply effect_bind; [typeclasses eauto|apply cached_effect, listing_fetch_effect|].
  intros. apply effect_ret. typeclasses eauto.
Qed.
Lemma listing_source ds (p p' : proxyCaches) (w w' : W) l :
  listing ds (p, w) = (Ok l, (p', w')) →
  keeps_all w w' ∧
  ((valid (entry [] (snapshotListCache p) ds) = true ∧ l = value (entry [] (snapshotListCache p) ds)) ∨
   ∃ l0 w1 w2, keeps_all w w1 ∧ ListSnapshots ds false w1 = (Ok l0, w2) ∧ Forall2 decorates l0 l).
Proof.
  unfold listSnapshotsCached. intros ([v b] & [p1 w1] & Hc & [= <- <- <-])%io_bind_Ok_inv.
  apply cached_inv in Hc as [HR Hv]; [|apply listing_fetch_effect]. split; [exact HR|].
  destruct (Hv v b eq_refl) as [?|([p2 w2] & cw3 & Hp & HR2 & Hf)]; [by left|right].
  apply io_bind_Ok_inv in Hf as (l0 & [p3 w3] & Hl0 & Hrep). unfold upstream in Hl0. cbn in Hl0.
  destruct (ListSnapshots ds false w2) as [r0 w0] eqn:E0. injection Hl0 as -> <- <-.
  exists l0, w2, w0. split_and!; [exact HR2|done|]. by apply reports_ok in Hrep.
Qed.

(** C29. After the caches of a datastore were dropped, the next listing is what the
    store holds then: the reports change nothing of a snapshot but its size and the
    modes of its files, keep the order, and the store is only read. *)
Theorem listing_current ds (p p' : proxyCaches) (w w' : W) l
    (Hrun : listing ds (invalidateDataStoreCachesLocal ds p, w) = (Ok l, (p', w'))) :
  keeps_all w w' ∧
  ∃ l0 w1 w2, keeps_all w w1 ∧ ListSnapshots ds false w1 = (Ok l0, w2) ∧ Forall2 decorates l0 l.
Proof.
  apply listing_source in Hrun as [Hk [[Hv _]|?]]; [|done]. cbn in Hv.
  unfold Invalidate in Hv. by rewrite entry_set_entry, decide_True in Hv.
Qed.
End proofs.

(** ** A run *)

Definition plain_manifest : list byte :=
  blob uncompressedBlobMagic (string_bytes "{}").
Definition no_zstd (_ : list byte) (_ : Z) : res stream := Err (Sentinel "zstd").
Definition one_file (_ : list byte) : res (list manifestFile) := Ok [mkManifestFile "drive-scsi0.img.fidx" "encrypt"].
Definition no_stats (_ : list byte) : res UsageStats := Err (Sentinel "json").
Definition all_reports : reports := mkReports true true true true "exclusive" 0.
Definition listing_key (f : string) : string := "backups/100|1000|vm/" +:+ f.
Definition listing_world : mem :=
  Mem {[ "pbs" := {[ listing_key "index.json.blob" := mkObj plain_manifest ∅ ∅ 0;
                     listing_key "drive-scsi0.img.fidx" := mkObj (Z_byte <$> [1; 2; 3]) ∅ ∅ 0 ]} ]} ∅ 1000 0 [].
Definition listing_caches : proxyCaches :=
  mkCaches (newTTLCache 100) (newTTLCache 100) (newTTLCache 100) (newTTLCache 100) (newTTLCache 100).
Definition listed : res (list Snapshot) * (proxyCaches * mem) :=
  listSnapshotsCached no_zstd one_file no_stats all_reports "pbs"
    (invalidateDataStoreCachesLocal "pbs" listing_caches, listing_world).
Definition listed_snapshots : list Snapshot :=
  [mkSnapshot "100" 1000 "vm"
     [mkSnapshotFile "index.json.blob" "none" 14; mkSnapshotFile "drive-scsi0.img.fidx" "encrypt" 3] false "" "pbs" false 0].
Lemma listed_run :
  listSnapshotsCached no_zstd one_file no_stats all_reports "pbs"
    (invalidateDataStoreCachesLocal "pbs" listing_caches, listing_world) = (Ok listed_snapshots, ((snd listed).1, (snd listed).2)).
Proof. rewrite <-surjective_pairing. unfold listed. apply run_outcome. vm_compute. reflexivity. Qed.
Lemma listing_current_witness :
  keeps_all listing_world (snd listed).2 ∧
  ∃ l0 w1 w2, keeps_all listing_world w1 ∧ ListSnapshots "pbs" false w1 = (Ok l0, w2) ∧ Forall2 decorates l0 listed_snapshots.
Proof.
  exact (listing_current no_zstd one_file no_stats all_reports "pbs" listing_caches (snd listed).1 listing_world (snd listed).2
    listed_snapshots listed_run).
Defined.
