(* ===== verification/WorkerPool.v ===== *)
(** * The worker pools of [sizes.go]

    [FillArchiveSizes] and [FillSnapshotCryptModes] hand the indices of their jobs
    through a channel to a few workers and wait for them.  [Listing] takes the jobs
    one after the other; this file shows that the order does not matter: however the
    workers interleave, every job is done once, by one worker, and when the wait is
    over each slot holds the answer to its own job. *)

From S2P Require Import Prelude.

Local Open Scope Z_scope.

Definition sizeLookupConcurrency : nat := 16.
(** The workers of [FillSnapshotCryptModes]: no more than there are snapshots. *)
Definition workerCount (snapshots : nat) : nat :=
  if (snapshots <? sizeLookupConcurrency)%nat then snapshots else sizeLookupConcurrency.

(** A worker: at the receive of its loop, at work on a job, or at its end. *)
Inductive worker := Receiving | Working (idx : nat) | Done.
#[export] Instance worker_eq : EqDecision worker.
Proof. solve_decision. Defined.
(** The caller: about to send an index, past [close] at the wait, or past the wait. *)
Inductive caller := Sending (i : nat) | Waiting | Returned.

Section pool.
(** What the slots hold before: zeros, or the snapshots as they were listed. *)
Context {A : Type} (slots0 : list A).
#[local] Abbreviation jobs := (length slots0).

(** The slots - [sizes], or the snapshots themselves - and, for the record, the
    answers in the order they came; [None] for a job that failed. *)
Record pool := mkPool {
  pl_caller : caller;
  pl_workers : list worker;
  pl_slots : list A;
  pl_answers : list (nat * option A);
}.
Definition pool_start (workers : nat) : pool := mkPool (Sending 0) (replicate workers Receiving) slots0 [].
(** The slot of a job that failed stays as it is. *)
Definition write_slot (slots : list A) (a : nat * option A) : list A :=
  match a.2 with Some v => <[a.1 := v]> slots | None => slots end.

Inductive pool_step : pool → pool → Prop :=
| hands_over ws slots answers i w :
    (i < jobs)%nat → ws !! w = Some Receiving →
    pool_step (mkPool (Sending i) ws slots answers) (mkPool (Sending (S i)) (<[w := Working i]> ws) slots answers)
| closes ws slots answers :
    pool_step (mkPool (Sending jobs) ws slots answers) (mkPool Waiting ws slots answers)
| finishes c ws slots answers w idx v :
    ws !! w = Some (Working idx) →
    pool_step (mkPool c ws slots answers)
      (mkPool c (<[w := Receiving]> ws) (write_slot slots (idx, v)) (answers ++ [(idx, v)]))
| leaves ws slots answers w :
    ws !! w = Some Receiving →
    pool_step (mkPool Waiting ws slots answers) (mkPool Waiting (<[w := Done]> ws) slots answers)
| returns ws slots answers :
    Forall (λ w, w = Done) ws → pool_step (mkPool Waiting ws slots answers) (mkPool Returned ws slots answers).

(** ** The invariant *)

Definition in_work (w : worker) : option nat := match w with Working idx => Some idx | _ => None end.
Definition sent (c : caller) : nat := match c with Sending i => i | _ => jobs end.
(** What was sent is in work or answered, once. *)
Record pool_ok (st : pool) : Prop := {
  po_sent : omap in_work (pl_workers st) ++ (pl_answers st).*1 ≡ₚ seq 0 (sent (pl_caller st));
  po_bound : (sent (pl_caller st) ≤ jobs)%nat;
  po_slots : pl_slots st = foldl write_slot slots0 (pl_answers st);
  po_returned : pl_caller st = Returned → Forall (λ w, w = Done) (pl_workers st);
}.

Lemma in_work_insert ws w old new :
  ws !! w = Some old → omap in_work (<[w := new]> ws) ++ option_list (in_work old) ≡ₚ option_list (in_work new) ++ omap in_work ws.
Proof.
  revert w. induction ws as [|x ws IH]; intros [|w]; cbn; [done|done| |].
  - intros [= ->]. destruct (in_work old), (in_work new); cbn; solve_Permutation.
  - intros Hw. specialize (IH w Hw). destruct (in_work x); cbn; [|done]. rewrite IH. solve_Permutation.
Qed.

Lemma pool_step_ok st st' : pool_step st st' → pool_ok st → pool_ok st'.
Proof.
  intros Hstep [H1 H2 H3 H4].
  destruct Hstep as [ws slots answers i w Hi Hw|ws slots answers|c ws slots answers w idx v Hw|ws slots answers w Hw|ws slots answers Hd];
    cbn [pl_caller pl_workers pl_slots pl_answers sent] in *.
  - pose proof (in_work_insert _ _ _ (Working i) Hw) as Hp. cbn in Hp. rewrite app_nil_r in Hp.
    split; cbn [pl_caller pl_workers pl_slots pl_answers sent]; [|lia|done|done].
    rewrite Hp, seq_S, <-H1. cbn. solve_Permutation.
  - by split.
  - pose proof (in_work_insert _ _ _ Receiving Hw) as Hp. cbn in Hp.
    split; cbn [pl_caller pl_workers pl_slots pl_answers]; [|done| |].
    + rewrite fmap_app. cbn. rewrite <-H1, <-Hp. solve_Permutation.
    + by rewrite foldl_app, H3.
    + intros Hc. specialize (H4 Hc). rewrite Forall_lookup in H4. by apply H4 in Hw.
  - pose proof (in_work_insert _ _ _ Done Hw) as Hp. cbn in Hp. rewrite app_nil_r in Hp.
    split; cbn [pl_caller pl_workers pl_slots pl_answers sent]; [|done|done|done]. by rewrite Hp.
  - by split.
Qed.
Lemma pool_start_ok workers : pool_ok (pool_start workers).
Proof.
  split; cbn; [|lia|done|done]. induction workers; [done|]. by cbn.
Qed.
Lemma pool_reachable workers st : rtc pool_step (pool_start workers) st → pool_ok st.
Proof.
  intros Hr. pose proof (pool_start_ok workers) as H. induction Hr as [|? ? ? Hstep _ IH]; [done|].
  by eapply IH, pool_step_ok.
Qed.

(** ** What the slots hold *)

Lemma write_slots_length l slots : length (foldl write_slot slots l) = length slots.
Proof.
  revert slots. induction l as [|[i [v|]] l IH]; intros slots; cbn; [done| |apply IH]. rewrite IH. apply length_insert.
Qed.
Lemma write_slot_other slots a i : i ≠ a.1 → write_slot slots a !! i = slots !! i.
Proof. intros Hi. unfold write_slot. destruct a.2; [|done]. by rewrite list_lookup_insert_ne. Qed.
Lemma write_slots_other l slots i : i ∉ l.*1 → foldl write_slot slots l !! i = slots !! i.
Proof.
  revert slots. induction l as [|a l IH]; intros slots; cbn; [done|]. intros [Hne Hl]%not_elem_of_cons.
  rewrite IH by done. by apply write_slot_other.
Qed.
Lemma write_slots_answer l slots i v old :
  NoDup l.*1 → (i, v) ∈ l → slots !! i = Some old → foldl write_slot slots l !! i = Some (default old v).
Proof.
  revert slots. induction l as [|a l IH]; intros slots Hnd Hin Hold; [by apply elem_of_nil in Hin|].
  apply NoDup_cons in Hnd as [Hna Hnd]. cbn. apply elem_of_cons in Hin as [<-|Hin].
  - rewrite write_slots_other by done. cbn in *. destruct v as [v|]; cbn; [|done].
    apply list_lookup_insert_eq. by eapply lookup_lt_Some.
  - apply IH; [done..|]. rewrite write_slot_other; [done|]. intros ->.
    apply Hna. apply list_elem_of_fmap. by exists (a.1, v).
Qed.

Lemma nobody_works ws : Forall (λ w, w = Done) ws → omap in_work ws = [].
Proof. induction 1 as [|w ws -> _ IH]; [done|exact IH]. Qed.

(** C38. When the caller of a pool goes on, whatever the order in which its workers
    took and ended the jobs: each job was answered exactly once, and each slot holds
    the answer to its own job, or what it held before if that job failed.  On the
    way no two workers are ever at work on one job - so no slot is written by two
    goroutines -, and none on a job that is already answered. *)
Theorem pool_result workers st (Hreach : rtc pool_step (pool_start workers) st) :
  NoDup (omap in_work (pl_workers st) ++ (pl_answers st).*1) ∧
  (pl_caller st = Returned →
     (pl_answers st).*1 ≡ₚ seq 0 jobs ∧
     ∀ i old, slots0 !! i = Some old → ∃ v, (i, v) ∈ pl_answers st ∧ pl_slots st !! i = Some (default old v)).
Proof.
  pose proof (pool_reachable _ _ Hreach) as [H1 H2 H3 H4].
  assert (NoDup (omap in_work (pl_workers st) ++ (pl_answers st).*1)) as Hnd by (rewrite H1; apply NoDup_seq).
  split; [done|]. intros Hc. specialize (H4 Hc). rewrite Hc in H1. cbn [sent] in H1.
  rewrite (nobody_works _ H4) in H1, Hnd. cbn [app] in *. split; [done|]. intros i old Hi.
  assert (i ∈ (pl_answers st).*1) as Hin.
  { rewrite H1. apply elem_of_seq. apply lookup_lt_Some in Hi. lia. }
  apply list_elem_of_fmap in Hin as ([i' v] & -> & Hin). exists v. split; [done|].
  rewrite H3. by eapply write_slots_answer.
Qed.

(** Two orders, the same answers: the same slots. *)
Corollary pool_order_free workers workers' st st' :
  rtc pool_step (pool_start workers) st → rtc pool_step (pool_start workers') st' →
  pl_caller st = Returned → pl_caller st' = Returned →
  (∀ i v v', (i, v) ∈ pl_answers st → (i, v') ∈ pl_answers st' → v = v') → pl_slots st = pl_slots st'.
Proof.
  intros Hr Hr' Hc Hc' Hsame. apply pool_result in Hr as Hp. apply pool_result in Hr' as Hp'.
  destruct Hp as [_ [_ Hp]%(λ H, H Hc)], Hp' as [_ [_ Hp']%(λ H, H Hc')].
  apply pool_reachable in Hr. apply pool_reachable in Hr'.
  apply list_eq. intros i. destruct (slots0 !! i) as [old|] eqn:Hi.
  - destruct (Hp i old Hi) as (v & Hv & ->), (Hp' i old Hi) as (v' & Hv' & ->). by rewrite (Hsame i v v').
  - rewrite (po_slots _ Hr), (po_slots _ Hr'). rewrite !lookup_ge_None_2; [done|..];
      rewrite write_slots_length; by apply lookup_ge_None_1.
Qed.

(** ** The wait ends *)

Definition weight (w : worker) : nat := match w with Receiving => 1 | Working _ => 2 | Done => 0 end.
Definition work_left (st : pool) : nat :=
  match pl_caller st with Sending i => 2 + 2 * (jobs - i) | Waiting => 1 | Returned => 0 end +
  sum_list_with weight (pl_workers st).
Lemma sum_insert ws w old new :
  ws !! w = Some old →
  (sum_list_with weight (<[w := new]> ws) + weight old = sum_list_with weight ws + weight new)%nat.
Proof.
  revert w. induction ws as [|x ws IH]; intros [|w] Hw; [done|done|injection Hw as ->; cbn; lia|].
  specialize (IH w Hw). change (<[S w := new]> (x :: ws)) with (x :: <[w := new]> ws). cbn [sum_list_with]. lia.
Qed.
Lemma pool_step_less st st' : pool_step st st' → (work_left st' < work_left st)%nat.
Proof.
  intros [ws slots answers i w Hi Hw|ws slots answers|c ws slots answers w idx v Hw|ws slots answers w Hw|ws slots answers Hd];
    unfold work_left; cbn [pl_caller pl_workers].
  - pose proof (sum_insert _ _ _ (Working i) Hw). cbn [weight] in *. lia.
  - lia.
  - pose proof (sum_insert _ _ _ Receiving Hw). cbn [weight] in *. lia.
  - pose proof (sum_insert _ _ _ Done Hw). cbn [weight] in *. lia.
  - lia.
Qed.

(** The workers stay, and none leaves before the channel is closed. *)
Definition staffed (workers : nat) (st : pool) : Prop :=
  length (pl_workers st) = workers ∧
  match pl_caller st with Sending _ => Forall (λ w, w ≠ Done) (pl_workers st) | _ => True end.
Lemma pool_step_staffed workers st st' : pool_step st st' → staffed workers st → staffed workers st'.
Proof.
  intros [ws slots answers i w Hi Hw|ws slots answers|c ws slots answers w idx v Hw|ws slots answers w Hw|ws slots answers Hd]
    [Hl Hn]; unfold staffed; cbn [pl_caller pl_workers] in *; rewrite ?length_insert; (split; [done|]); try done.
  - by apply Forall_insert.
  - destruct c; [by apply Forall_insert|done..].
Qed.

(** A pool with a worker, or without a job, always comes to its end: every step
    takes from the work that is left, and until the caller has returned there is a
    step.  ([workerCount] of no snapshot is no worker, and no job.) *)
Theorem pool_terminates workers st (Hpos : (0 < workers)%nat ∨ jobs = 0%nat)
    (Hreach : rtc pool_step (pool_start workers) st) :
  (∀ st', pool_step st st' → (work_left st' < work_left st)%nat) ∧
  (pl_caller st ≠ Returned → ∃ st', pool_step st st').
Proof.
  split; [intros st'; apply pool_step_less|]. intros Hc.
  assert (staffed workers st) as [Hl Hn].
  { assert (staffed workers (pool_start workers)) as H.
    { split; cbn; [by rewrite length_replicate|]. by apply Forall_replicate. }
    clear -Hreach H. induction Hreach as [|? ? ? Hstep _ IH]; [done|]. by eapply IH, pool_step_staffed. }
  pose proof (po_bound _ (pool_reachable _ _ Hreach)) as Hb.
  destruct st as [c ws slots answers]. cbn in *. destruct c as [i| |]; [| |done].
  - destruct (decide (i = jobs)) as [->|Hne]; [eexists; apply closes|]. cbn in Hb.
    destruct ws as [|w ws]; [cbn in Hl; lia|]. apply Forall_cons in Hn as [Hw _].
    destruct w as [|idx|]; [|eexists; by eapply (finishes _ _ _ _ 0 idx None)|done].
    eexists. eapply (hands_over _ _ _ _ 0); [lia|done].
  - destruct (decide (Forall (λ w, w = Done) ws)) as [Hd|Hd]; [eexists; by apply returns|].
    apply not_Forall_Exists, Exists_exists in Hd as (w & Hin & Hw); [|intros x; apply _].
    apply list_elem_of_lookup in Hin as [k Hk].
    destruct w as [|idx|]; [eexists; by eapply leaves|eexists; by eapply (finishes _ _ _ _ k idx None)|by destruct Hw].
Qed.
End pool.

(** ** A run: two workers, two jobs; the second is answered first, the first fails *)

Definition two_slots : list Z := [0; 0].
Definition two_done : pool := mkPool Returned [Done; Done] [0; 7] [(1%nat, Some 7); (0%nat, None)].
Lemma two_done_reachable : rtc (pool_step two_slots) (pool_start two_slots 2) two_done.
Proof.
  eapply rtc_l; [apply (hands_over _ _ _ _ 0 0); [cbn; lia|done]|].
  eapply rtc_l; [apply (hands_over _ _ _ _ 1 1); [cbn; lia|done]|].
  eapply rtc_l; [by apply (closes two_slots)|].
  eapply rtc_l; [by apply (finishes _ _ _ _ _ 1 1 (Some 7))|].
  eapply rtc_l; [by apply (finishes _ _ _ _ _ 0 0 None)|].
  eapply rtc_l; [by apply (leaves _ _ _ _ 0)|]. eapply rtc_l; [by apply (leaves _ _ _ _ 1)|].
  eapply rtc_l; [apply returns; by repeat constructor|]. apply rtc_refl.
Qed.
Lemma pool_result_witness :
  (two_done.(pl_answers)).*1 ≡ₚ seq 0 2 ∧
  ∀ i old, two_slots !! i = Some old → ∃ v, (i, v) ∈ pl_answers two_done ∧ pl_slots two_done !! i = Some (default old v).
Proof. exact (proj2 (pool_result two_slots 2 two_done two_done_reachable) eq_refl). Defined.
Lemma pool_terminates_witness :
  (0 < 2)%nat ∧ ∀ st', pool_step two_slots (pool_start two_slots 2) st' →
    (work_left two_slots st' < work_left two_slots (pool_start two_slots 2))%nat.
Proof.
  split; [lia|].
  exact (proj1 (pool_terminates two_slots 2 (pool_start two_slots 2) (or_introl Nat.lt_0_2) (rtc_refl _ _))).
Defined.
