(* ===== verification/Auth.v ===== *)
(** * Tickets ([cmd/pmoxs3backuproxy/main.go]: the ticket endpoint, [ticketGC], the cookie)

    A client logs in with S3 credentials and gets a random ticket; each request
    presents it in a cookie.  The S3 client of a user is made at the first login
    and kept. *)

From S2P Require Import Prelude GoStrings GoBytes S3 Platform MemWorld Snapshot GCPlan Json Http Cache HandlerLogic ChunkUpload Session.

Local Open Scope Z_scope.

(** ** The state *)

(** The process: tickets, connections by user name, the bucket listings, and what
    the command line fixed. *)
Record api := mkApi {
  Auth : gmap string TicketEntry;
  connectionList : gmap string minioClient;
  bucketListCache : ttlCache (list string);
  S3Endpoint : string;
  SecureFlag : bool;
  TicketExpire : Z;              (* uint64, seconds *)
  LookupTypeFlag : string;
}.
Definition set_Auth (m : gmap string TicketEntry) (s : api) : api :=
  mkApi m (connectionList s) (bucketListCache s) (S3Endpoint s) (SecureFlag s) (TicketExpire s) (LookupTypeFlag s).
Definition set_connections (m : gmap string minioClient) (s : api) : api :=
  mkApi (Auth s) m (bucketListCache s) (S3Endpoint s) (SecureFlag s) (TicketExpire s) (LookupTypeFlag s).
Definition set_buckets (c : ttlCache (list string)) (s : api) : api :=
  mkApi (Auth s) (connectionList s) c (S3Endpoint s) (SecureFlag s) (TicketExpire s) (LookupTypeFlag s).

Record AccessTicketRequest := mkAccess { rq_Username : string; rq_Password : string }.

(** ** Tickets *)

Definition letterBytes : string := "abcdefghijklmnopqrstuvwxyzABCDEFGHIJKLMNOPQRSTUVWXYZ".
Definition letter_at (i : Z) : ascii := default "a"%char (String.get (Z.to_nat i) letterBytes).

(** The first cookie with a value: the text after the name up to a semicolon, as the
    pattern [PBSAuthCookie=([^;]+)] finds it. *)
Definition semicolon : ascii := ";"%char.
Definition cookie_name : string := "PBSAuthCookie=".
Fixpoint until_semicolon (s : string) : string :=
  match s with
  | "" => ""
  | String c s => if Ascii.eqb c semicolon then "" else String c (until_semicolon s)
  end.
Fixpoint cookie_ticket (header : string) : option string :=
  match (if HasPrefix header cookie_name
         then until_semicolon (drop_string (String.length cookie_name) header) else ""), header with
  | "", "" => None
  | "", String _ rest => cookie_ticket rest
  | ticket, _ => Some ticket
  end.

Definition authenticate (r : Request) (s : api) : option TicketEntry :=
  ticket ← cookie_ticket (Header r "Cookie"); Auth s !! ticket.

(** One round of [ticketGC]. *)
Definition ticketGC (now : Z) (s : api) : api :=
  set_Auth (filter (λ kv, ¬ Expire kv.2 < u64 (time_Unix now)) (Auth s)) s.

(** ** Logging in *)

Section handlers.
Context {W : Type} `{!ObjectStore W, !Platform W}.
#[local] Abbreviation hio := (io (hstate api W)).
(** [json.Unmarshal] into the request, errors ignored, and [r.ParseForm]. *)
Context (Unmarshal_login : list byte → AccessTicketRequest) (ParseForm : Request → res unit).

Fixpoint RandStringBytes (n : nat) : st W string := λ w,
  match n with
  | O => ("", w)
  | S n =>
      let '(i, w) := rand_Intn (Z.of_nat (String.length letterBytes)) w in
      let '(s, w) := RandStringBytes n w in
      (String (letter_at i) s, w)
  end.

Definition read_login (r : Request) : hio (option AccessTicketRequest) :=
  if bool_decide (Header r "Content-Type" = "application/json") then
    match io_ReadAll (Body r) with
    | Ok body => mret (Some (Unmarshal_login body))
    | Err _ => _ ← WriteHeader StatusBadRequest; mret None
    | Panicked p => lift_res (Panicked p)
    end
  else
    match ParseForm r with
    | Ok _ => mret (Some (mkAccess (FormValue r "username") (FormValue r "password")))
    | Err _ => _ ← WriteHeader StatusBadRequest; mret None
    | Panicked p => lift_res (Panicked p)
    end.

(** What a ticket request does to what the process shares, access by access: the map
    of the connections, which is a plain map, the cache of the bucket lists, and the
    tickets. *)
Definition has_connection (te : TicketEntry) : hio bool :=
  s ← session; mret (bool_decide (is_Some (connectionList s !! AccessKeyID te))).
Definition new_client (te : TicketEntry) : hio (minioClient + error) :=
  s ← session;
  let opts := mkOptions (AccessKeyID te) (SecretAccessKey te) (SecureFlag s) (GetLookupType (LookupTypeFlag s)) in
  c ← try (world (minio_New (Endpoint te) opts));
  mret (match c with inl _ => inl (mkClient (Endpoint te) opts) | inr e => inr e end).
Definition file_connection (te : TicketEntry) (c : minioClient) : hio unit :=
  s ← session; set_session (set_connections (<[AccessKeyID te := c]> (connectionList s)) s).
Definition take_connection (te : TicketEntry) : hio (option minioClient) :=
  s ← session; mret (connectionList s !! AccessKeyID te).
Definition try_client (c : option minioClient) : hio (list string + error) :=
  c ← deref c; try (world (ListBuckets (cl_Endpoint c) (cl_Options c))).
Definition drop_connection (te : TicketEntry) : hio unit :=
  s ← session; set_session (set_connections (delete (AccessKeyID te) (connectionList s)) s).
Definition keep_buckets (te : TicketEntry) (buckets : list string) : hio unit :=
  now ← world_st time_Now;
  s ← session;
  set_session (set_buckets (Store [] (bucketListCache s) (AccessKeyID te +:+ "@" +:+ Endpoint te) buckets now) s).
Definition issue_ticket (ticket : string) (te : TicketEntry) (c : option minioClient) : hio unit :=
  s ← session;
  set_session (set_Auth (<[ticket := mkTicketEntry (AccessKeyID te) (SecretAccessKey te) (Endpoint te) c (Expire te)]> (Auth s)) s).
Definition refuse_login (e : error) : hio unit := _ ← WriteHeader StatusForbidden; Write (ErrorText e).

(** The connection of the user, made and tried when there is none; [false] when the
    request has been answered.  Other requests may run between any two of these
    accesses: [Logins] interleaves them. *)
Definition connect (te : TicketEntry) : hio bool :=
  found ← has_connection te;
  if (found : bool) then mret true
  else
    c ← new_client te;
    match c with
    | inr e => _ ← refuse_login e; mret false
    | inl c =>
        _ ← file_connection te c;
        c ← take_connection te;
        b ← try_client c;
        match b with
        | inr e => _ ← drop_connection te; _ ← refuse_login e; mret false
        | inl buckets => _ ← keep_buckets te buckets; mret true
        end
    end.

Definition ticket_json (ticket username : string) : json :=
  JObject [("data", JObject
    [("CSRFPreventionToken", JString "35h235h23yh23"); ("ticket", JString ticket); ("username", JString username)])].

Definition username_of (req : AccessTicketRequest) : string :=
  default "" (head (Split (rq_Username req) "@"%char)).

Definition answer_ticket (ticket : string) (req : AccessTicketRequest) : hio unit :=
  _ ← Header_Add "Content-Type" "application/json";
  _ ← WriteHeader StatusOK;
  Write (Json (ticket_json ticket (rq_Username req))).

(** The ticket, and its entry but for the client. *)
Definition new_entry (req : AccessTicketRequest) : hio (string * TicketEntry) :=
  ticket ← world_st (RandStringBytes 64);
  s ← session;
  now ← world_st time_Now;
  mret (ticket, mkTicketEntry (username_of req) (rq_Password req) (S3Endpoint s) None
                  (u64 (u64 (time_Unix now) + TicketExpire s))).

Definition login (r : Request) : hio unit :=
  if (bool_decide (RequestURI r = "//api2/json/access/ticket") || bool_decide (RequestURI r = "/api2/json/access/ticket"))
     && bool_decide (Method r = "POST")
  then
    req ← read_login r;
    match req with
    | None => mret tt
    | Some req =>
        x ← new_entry req;
        let ticket := x.1 in
        let te := x.2 in
        ok ← connect te;
        if negb ok then mret tt
        else
          c ← take_connection te;
          _ ← issue_ticket ticket te c;
          answer_ticket ticket req
    end
  else mret tt.
End handlers.

(** ** The ticket text *)

Fixpoint letters (s : string) : bool :=
  match s with
  | "" => true
  | String c s => negb (Ascii.eqb c semicolon) && letters s
  end.

Section proofs.
Context {W : Type} `{!ObjectStore W, !Platform W, !StoreView W, !FileView W}.
Context `{!ObjectStoreLaws W, !PlatformLaws W}.
Context (Unmarshal_login : list byte → AccessTicketRequest) (ParseForm : Request → res unit).
Implicit Types (h : hstate api W).
#[local] Abbreviation login := (login (W:=W) Unmarshal_login ParseForm).

Lemma letters_get s i c : letters s = true → String.get i s = Some c → Ascii.eqb c semicolon = false.
Proof.
  revert i. induction s as [|a s IH]; intros i Hl; [done|]. cbn in Hl. apply andb_true_iff in Hl as [Ha Hl].
  destruct i; cbn; [intros [= ->]; by apply negb_true_iff|by apply IH].
Qed.
Lemma letter_at_letter i : Ascii.eqb (letter_at i) semicolon = false.
Proof.
  unfold letter_at. destruct (String.get _ letterBytes) as [c|] eqn:Ec; [|reflexivity].
  change (Ascii.eqb c semicolon = false). by eapply (letters_get letterBytes).
Qed.
Lemma RandStringBytes_spec n (w : W) s w' :
  RandStringBytes n w = (s, w') → String.length s = n ∧ letters s = true ∧ keeps_all w w'.
Proof.
  revert w s w'. induction n as [|n IH]; intros w s w'; cbn [RandStringBytes]; [by intros [= <- <-]|].
  destruct (rand_Intn _ w) as [i w1] eqn:E1. destruct (RandStringBytes n w1) as [s1 w2] eqn:E2. intros [= <- <-].
  apply IH in E2 as (<- & Hl & Hk). apply rand_Intn_effect in E1. split_and!; [done| |by etrans].
  cbn [letters]. by rewrite Hl, letter_at_letter.
Qed.

Lemma until_semicolon_letters s : letters s = true → until_semicolon s = s.
Proof.
  induction s as [|c s IH]; cbn; [done|]. intros [Hc Hs]%andb_true_iff. apply negb_true_iff in Hc.
  by rewrite Hc, IH.
Qed.
Lemma cookie_ticket_app ticket : ticket ≠ "" → letters ticket = true → cookie_ticket (cookie_name +:+ ticket) = Some ticket.
Proof.
  intros Hne Hl.
  assert (∀ t, HasPrefix t cookie_name = true → until_semicolon (drop_string (String.length cookie_name) t) = ticket →
            cookie_ticket t = Some ticket) as Hc.
  { intros t Hp Hu. destruct t as [|a t]; [done|]. cbn [cookie_ticket]. rewrite Hp, Hu. by destruct ticket. }
  apply Hc; [apply HasPrefix_app|]. by rewrite drop_string_app, until_semicolon_letters.
Qed.

(** ** Logging in *)

(** The connections of the process: each is for the user it is filed under. *)
Definition for_user (u : string) (c : minioClient) : Prop := Creds_AccessKeyID (cl_Options c) = u.

Lemma world_try_inv {A} (m : io W A) h x h' :
  (∀ w r w', m w = (r, w') → keeps_all w w') → try (world m) h = (Ok x, h') →
  ∃ w', h' = mkH (h_rw h) (h_sess h) w' ∧ keeps_all (h_world h) w' ∧
    match x with inl a => m (h_world h) = (Ok a, w') | inr e => m (h_world h) = (Err e, w') end.
Proof.
  intros Hm. unfold try. destruct (world m h) as [[a|e|p] h2] eqn:E; intros; simplify_eq;
    apply world_inv in E as (w1 & E & ->); pose proof (Hm _ _ _ E); eauto.
Qed.
Lemma refuse_login_run e h u h' :
  refuse_login e h = (Ok u, h') →
  h_sess h' = h_sess h ∧ h_world h' = h_world h ∧ rw_status (h_rw h') = Some (default StatusForbidden (rw_status (h_rw h))).
Proof. intros Hr. apply io_bind_Ok_inv in Hr as ([] & h1 & [= <-] & [= _ <-]). cbn. by destruct (rw_status (h_rw h)). Qed.

(** The store has listed its buckets for the client. *)
Definition accepted (c : minioClient) : Prop :=
  ∃ (w w' : W) buckets, ListBuckets (cl_Endpoint c) (cl_Options c) w = (Ok buckets, w').
Definition client_for (te : TicketEntry) (s : api) : minioClient :=
  mkClient (Endpoint te) (mkOptions (AccessKeyID te) (SecretAccessKey te) (SecureFlag s) (GetLookupType (LookupTypeFlag s))).
Lemma connect_ok te h ok h' :
  connect te h = (Ok ok, h') →
  Auth (h_sess h') = Auth (h_sess h) ∧ keeps_all (h_world h) (h_world h') ∧
  if ok then
    h_rw h' = h_rw h ∧
    ((∃ c, connectionList (h_sess h) !! AccessKeyID te = Some c ∧ h' = h) ∨
     connectionList (h_sess h) !! AccessKeyID te = None ∧ accepted (client_for te (h_sess h)) ∧
       connectionList (h_sess h') = <[AccessKeyID te := client_for te (h_sess h)]> (connectionList (h_sess h)))
  else
    connectionList (h_sess h) !! AccessKeyID te = None ∧ connectionList (h_sess h') = connectionList (h_sess h) ∧
    rw_status (h_rw h') = Some (default StatusForbidden (rw_status (h_rw h))).
Proof.
  intros Hrun. unfold connect in Hrun. apply io_bind_Ok_inv in Hrun as (found & h1 & [= <- <-] & Hrun). cbn [h_sess] in Hrun.
  case_bool_decide as Hfound.
  { destruct Hfound as [c Hc]. injection Hrun as <- <-. split_and!; [done..|]. left. eauto. }
  apply eq_None_not_Some in Hfound as Hc.
  apply io_bind_Ok_inv in Hrun as (x & h1 & Hx & Hrun). unfold new_client in Hx.
  apply io_bind_Ok_inv in Hx as (s & h2 & [= <- <-] & Hx). cbv zeta in Hx.
  apply io_bind_Ok_inv in Hx as (y & h2 & Hy & [= <- <-]).
  apply world_try_inv in Hy as (w1 & -> & Hk1 & _); [|apply minio_New_effect].
  destruct y as [[]|e].
  2:{ apply io_bind_Ok_inv in Hrun as ([] & h3 & (Hs & Hw & Hst)%refuse_login_run & [= <- <-]).
      rewrite Hs, Hw. by split_and!. }
  apply io_bind_Ok_inv in Hrun as ([] & h2 & [= <-] & Hrun). cbn [h_rw h_sess h_world] in Hrun.
  apply io_bind_Ok_inv in Hrun as (c & h2 & [= <- <-] & Hrun). cbn [h_rw h_sess h_world set_connections connectionList] in Hrun.
  rewrite lookup_insert_eq in Hrun. fold (client_for te (h_sess h)) in Hrun.
  apply io_bind_Ok_inv in Hrun as (b & h2 & Hb & Hrun). unfold try_client in Hb.
  apply io_bind_Ok_inv in Hb as (c & h3 & [= <- <-] & Hb).
  apply world_try_inv in Hb as (w2 & -> & Hk2 & Hl); [|apply ListBuckets_effect]. cbn [h_rw h_sess h_world] in *.
  assert (keeps_all (h_world h) w2) as Hk by (by etrans). destruct b as [b|e].
  - apply io_bind_Ok_inv in Hrun as ([] & h3 & Hkeep & [= <- <-]). unfold keep_buckets in Hkeep.
    apply io_bind_Ok_inv in Hkeep as (now & h4 & (w3 & Ht & ->)%world_st_inv & Hkeep).
    apply io_bind_Ok_inv in Hkeep as (s & h4 & [= <- <-] & [= <-]). cbn [h_rw h_sess h_world] in *.
    apply time_Now_effect in Ht. split_and!; [done|by etrans|done|]. right. split_and!; [done| |done].
    eexists _, _, _. exact Hl.
  - apply io_bind_Ok_inv in Hrun as ([] & h3 & [= <-] & Hrun).
    apply io_bind_Ok_inv in Hrun as ([] & h4 & (Hs & Hw & Hst)%refuse_login_run & [= <- <-]). cbn [h_rw h_sess h_world] in *.
    rewrite Hs, Hw, Hst. cbn. split_and!; [done|done|done|by rewrite delete_insert_id|done].
Qed.

(** Is this a request for a ticket? *)
Definition login_request (r : Request) : bool :=
  (bool_decide (RequestURI r = "//api2/json/access/ticket") || bool_decide (RequestURI r = "/api2/json/access/ticket"))
  && bool_decide (Method r = "POST").

(** The credentials a request carries: in its body, or in its form. *)
Definition carries (r : Request) (req : AccessTicketRequest) : Prop :=
  (Header r "Content-Type" = "application/json" ∧ ∃ body, io_ReadAll (Body r) = Ok body ∧ req = Unmarshal_login body) ∨
  (Header r "Content-Type" ≠ "application/json" ∧ ParseForm r = Ok tt ∧
     rq_Username req = FormValue r "username" ∧ rq_Password req = FormValue r "password").
Definition carries_nothing (r : Request) : Prop :=
  if decide (Header r "Content-Type" = "application/json") then ∃ e, io_ReadAll (Body r) = Err e else ∃ e, ParseForm r = Err e.

Lemma read_login_ok r h o h' :
  read_login Unmarshal_login ParseForm r h = (Ok o, h') →
  h_sess h' = h_sess h ∧ h_world h' = h_world h ∧
  match o with
  | Some req => h_rw h' = h_rw h ∧ carries r req
  | None => rw_status (h_rw h') = Some (default StatusBadRequest (rw_status (h_rw h))) ∧ carries_nothing r
  end.
Proof.
  assert ((_ ← WriteHeader StatusBadRequest; mret None) h = (Ok o, h') →
    h_sess h' = h_sess h ∧ h_world h' = h_world h ∧ o = None ∧
    rw_status (h_rw h') = Some (default StatusBadRequest (rw_status (h_rw h)))) as Hbad.
  { intros ([] & h1 & [= <-] & [= <- <-])%io_bind_Ok_inv. cbn. by destruct (rw_status (h_rw h)). }
  unfold read_login. intros Hr.
  case_bool_decide as Hct; [destruct (io_ReadAll (Body r)) as [body|e|e] eqn:Eb|destruct (ParseForm r) as [[]|e|e] eqn:Eb];
    try discriminate Hr.
  - injection Hr as <- <-. split_and!; [done..|]. left. eauto.
  - apply Hbad in Hr as (? & ? & -> & ?). split_and!; [done..|]. unfold carries_nothing. rewrite decide_True by done. eauto.
  - injection Hr as <- <-. split_and!; [done..|]. by right.
  - apply Hbad in Hr as (? & ? & -> & ?). split_and!; [done..|]. unfold carries_nothing. rewrite decide_False by done. eauto.
Qed.
Lemma new_entry_run req h x h' :
  new_entry req h = (Ok x, h') →
  h_sess h' = h_sess h ∧ h_rw h' = h_rw h ∧ keeps_all (h_world h) (h_world h') ∧
  x.1 ≠ "" ∧ letters x.1 = true ∧ ∃ now, x.2 = mkTicketEntry (username_of req) (rq_Password req) (S3Endpoint (h_sess h)) None
    (u64 (u64 (time_Unix now) + TicketExpire (h_sess h))).
Proof.
  intros Hrun. unfold new_entry in Hrun.
  apply io_bind_Ok_inv in Hrun as (ticket & h2 & (w2 & Ht & ->)%world_st_inv & Hrun).
  apply RandStringBytes_spec in Ht as (Hlen & Hlet & Hk1).
  apply io_bind_Ok_inv in Hrun as (s & h2 & [= <- <-] & Hrun). cbn [h_rw h_sess h_world] in *.
  apply io_bind_Ok_inv in Hrun as (now & h2 & (w3 & Hn & ->)%world_st_inv & [= <- <-]). cbn [h_rw h_sess h_world] in *.
  apply time_Now_effect in Hn. split_and!; [done|done|by etrans| |done|by exists now]. cbn. by intros ->.
Qed.

(** The entry a request is given, and the connection in it: the one the user had, or
    one that was made with the credentials of the request and accepted by the store. *)
Definition entry_for (req : AccessTicketRequest) (s : api) (te : TicketEntry) : Prop :=
  AccessKeyID te = username_of req ∧ SecretAccessKey te = rq_Password req ∧ Endpoint te = S3Endpoint s ∧
  ∃ now, Expire te = u64 (u64 (time_Unix now) + TicketExpire s).
Definition connected (te : TicketEntry) (s s' : api) : Prop :=
  ∃ c, Client te = Some c ∧ connectionList s' = <[AccessKeyID te := c]> (connectionList s) ∧
    (connectionList s !! AccessKeyID te = Some c ∨
     connectionList s !! AccessKeyID te = None ∧ c = client_for te s ∧ accepted c).

Lemma login_ok r h u h' :
  login r h = (Ok u, h') → login_request r = true → h_rw h = empty_response →
  keeps_all (h_world h) (h_world h') ∧
  if answered_ok (h_rw h') then
    ∃ req ticket te, carries r req ∧ entry_for req (h_sess h) te ∧ connected te (h_sess h) (h_sess h') ∧
      ticket ≠ "" ∧ letters ticket = true ∧ Auth (h_sess h') = <[ticket := te]> (Auth (h_sess h)) ∧
      rw_body (h_rw h') = [Json (ticket_json ticket (rq_Username req))]
  else Auth (h_sess h') = Auth (h_sess h) ∧ connectionList (h_sess h') = connectionList (h_sess h) ∧
    (rw_status (h_rw h') = Some StatusBadRequest ∧ carries_nothing r ∨
     rw_status (h_rw h') = Some StatusForbidden ∧
       ∃ req, carries r req ∧ connectionList (h_sess h) !! username_of req = None).
Proof.
  intros Hrun Hl Hrw. unfold Auth.login in Hrun. unfold login_request in Hl. rewrite Hl in Hrun.
  apply io_bind_Ok_inv in Hrun as (o & h1 & Ho & Hrun). apply read_login_ok in Ho as (Hs & Hw & Ho).
  destruct o as [req|].
  2:{ injection Hrun as _ <-. rewrite Hw, Hs. destruct Ho as [Ho Hno]. rewrite Hrw in Ho. cbn in Ho.
      split; [done|]. unfold answered_ok. rewrite Ho. split_and!; [done..|]. by left. }
  rewrite <-Hs, <-Hw. rewrite Hrw in Ho. destruct Ho as [Ho Hcar]. clear Hs Hw Hrw.
  apply io_bind_Ok_inv in Hrun as ([ticket te] & h2 & (Hs2 & Hw2 & Hk2 & Hne & Hlet & now & Hte)%new_entry_run & Hrun).
  cbn [fst snd] in *. rewrite <-Hs2.
  apply io_bind_Ok_inv in Hrun as (ok & h3 & (Ha & Hk & Hc)%connect_ok & Hrun).
  assert (keeps_all (h_world h1) (h_world h3)) as Hk13 by by etrans.
  assert (AccessKeyID te = username_of req) as Hu by (by rewrite Hte).
  destruct ok; cbn [negb] in Hrun.
  2:{ injection Hrun as _ <-. destruct Hc as (Hnone & Hc & Hst). rewrite Hw2, Ho in Hst. cbn in Hst. split; [done|].
      unfold answered_ok. rewrite Hst. split_and!; [done..|]. right. split; [done|]. exists req. by rewrite <-Hu. }
  destruct Hc as (Hrw & Hc). unfold answer_ticket in Hrun.
  apply io_bind_Ok_inv in Hrun as (c & h4 & [= <- <-] & Hrun).
  apply io_bind_Ok_inv in Hrun as ([] & h4 & [= <-] & Hrun).
  apply io_bind_Ok_inv in Hrun as ([] & h4 & [= <-] & Hrun).
  apply io_bind_Ok_inv in Hrun as ([] & h4 & [= <-] & Hrun). injection Hrun as _ <-. cbn [h_rw h_sess h_world].
  split; [done|]. rewrite Hrw, Hw2, Ho. cbn -[client_for]. rewrite Ha. eexists req, ticket, _. split_and!; [done| | |done..].
  - rewrite Hte, Hs2. split_and!; [done..|]. by exists now.
  - destruct Hc as [(c & Hc & ->)|(Hc & Hacc & Hcl)].
    + exists c. cbn. rewrite insert_id by done. split_and!; [done..|by left].
    + exists (client_for te (h_sess h2)). cbn -[client_for]. rewrite Hcl, lookup_insert_eq. split_and!; [done..|by right].
Qed.

Lemma authenticate_cookie (s : api) ticket te r' :
  ticket ≠ "" → letters ticket = true → Auth s !! ticket = Some te →
  Header r' "Cookie" = cookie_name +:+ ticket → authenticate r' s = Some te.
Proof. intros Hne Hl Hs Hr. unfold authenticate. by rewrite Hr, cookie_ticket_app. Qed.

(** ** The invariant of the process *)

(** A ticket carries the connection of its user, and a connection is made with the
    key it is filed under. *)
Definition auth_inv (s : api) : Prop :=
  (∀ u c, connectionList s !! u = Some c → for_user u c) ∧
  ∀ t te, Auth s !! t = Some te →
    ∃ c, Client te = Some c ∧ connectionList s !! AccessKeyID te = Some c.

Lemma auth_inv_ext s s' : Auth s = Auth s' → connectionList s = connectionList s' → auth_inv s → auth_inv s'.
Proof. unfold auth_inv. by intros -> ->. Qed.
Lemma auth_inv_GC now s : auth_inv s → auth_inv (ticketGC now s).
Proof.
  intros [Hc Ht]. split; [done|]. intros t te. cbn. intros [Hte _]%map_lookup_filter_Some. eauto.
Qed.
Lemma auth_inv_connection u c s :
  auth_inv s → connectionList s !! u = None → for_user u c →
  auth_inv (set_connections (<[u := c]> (connectionList s)) s).
Proof.
  intros [Hc Ht] Hn Hu. split; cbn.
  - intros u' c' [[<- <-]|[_ ?]]%lookup_insert_Some; eauto.
  - intros t te (c' & Hc' & Hl)%Ht. exists c'. rewrite lookup_insert_ne by (intros ->; congruence). done.
Qed.
Lemma auth_inv_ticket t te s :
  auth_inv s → Client te = connectionList s !! AccessKeyID te → is_Some (connectionList s !! AccessKeyID te) →
  auth_inv (set_Auth (<[t := te]> (Auth s)) s).
Proof.
  intros [Hc Ht] Hcl [c Hs]. split; [done|]. cbn.
  intros t' te' [[_ <-]|[_ ?]]%lookup_insert_Some; [|eauto]. exists c. by rewrite Hcl.
Qed.

#[local] Abbreviation J := (λ (s : api) (_ : W), auth_inv s).
Lemma auth_stable (R : relation W) : stable J R.
Proof. by intros s w w' HJ _. Qed.

Lemma refuse_login_runs e h : auth_inv (h_sess h) → runs J (refuse_login e) h (λ _ _, True).
Proof.
  intros HJ. apply runs_bind, runs_responds; [auto with go_runs|done|]. intros rw.
  by apply runs_responds; [auto with go_runs|done|].
Qed.
Lemma world_try_runs {A} (m : io W A) h :
  auth_inv (h_sess h) → (∀ w r w', m w = (r, w') → keeps_all w w') →
  runs J (try (world m)) h (λ _ h', h_sess h' = h_sess h).
Proof.
  intros HJ Hm. apply runs_try.
  - eapply runs_world; [done|apply auth_stable|intros ???; apply Hm|]. by intros.
  - intros e h1 _ (w1 & _ & ->)%world_inv. done.
Qed.
Lemma connect_runs te h :
  auth_inv (h_sess h) →
  runs J (connect te) h (λ ok h', ok = true → is_Some (connectionList (h_sess h') !! AccessKeyID te)).
Proof.
  intros HJ. unfold connect. apply runs_bind, runs_bind, runs_session, runs_ret; [done..|].
  case_bool_decide as Hfound; [by apply runs_ret|]. apply eq_None_not_Some in Hfound as Hc.
  apply runs_bind, runs_bind, runs_session; [done|]. cbv zeta. apply runs_bind.
  eapply runs_mono; [apply world_try_runs; [done|apply minio_New_effect]|]. intros x h1 HJ1 Hs1. apply runs_ret; [done|].
  destruct x as [[]|e].
  2: { apply runs_bind. eapply runs_mono; [by apply refuse_login_runs|]. intros _ h2 HJ2 _. by apply runs_ret. }
  set (c := mkClient _ _). assert (auth_inv (set_connections (<[AccessKeyID te := c]> (connectionList (h_sess h1))) (h_sess h1))) as HJ2
    by (apply auth_inv_connection; [done|by rewrite Hs1|done]).
  apply runs_bind, runs_bind, runs_session, runs_set_session; [done..|]. cbn [h_rw h_sess h_world].
  apply runs_bind, runs_bind, runs_session, runs_ret; [done..|]. cbn [h_rw h_sess h_world set_connections connectionList].
  rewrite lookup_insert_eq. apply runs_bind, runs_bind, runs_ret; [done|].
  eapply runs_mono; [apply world_try_runs; [done|apply ListBuckets_effect]|]. intros b h2 HJ3 Hs2. cbn [h_sess] in Hs2.
  destruct b as [b|e].
  - apply runs_bind, runs_bind. eapply runs_world_st; [done|apply auth_stable|apply time_Now_effect|]. intros now w3 _ _.
    apply runs_bind, runs_session, runs_set_session, runs_ret; [done..|]. intros _. cbn. rewrite Hs2. cbn.
    rewrite lookup_insert_eq. eauto.
  - assert (auth_inv (set_connections (delete (AccessKeyID te) (connectionList (h_sess h2))) (h_sess h2))) as HJ4
      by (apply (auth_inv_ext (h_sess h1)); [by rewrite Hs2| |done]; rewrite Hs2; cbn; by rewrite delete_insert_id by (by rewrite Hs1)).
    apply runs_bind, runs_bind, runs_session, runs_set_session; [done..|]. apply runs_bind.
    eapply runs_mono; [by apply refuse_login_runs|]. intros _ h3 HJ5 _. by apply runs_ret.
Qed.

Lemma read_login_runs r h : auth_inv (h_sess h) → runs J (read_login Unmarshal_login ParseForm r) h (λ _ _, True).
Proof.
  intros HJ. unfold read_login.
  assert (runs J (_ ← WriteHeader StatusBadRequest; mret None) h (λ (_ : option AccessTicketRequest) _, True)) as Hbad.
  { apply runs_bind, runs_responds; [auto with go_runs|done|]. intros. by apply runs_ret. }
  case_bool_decide; [destruct (io_ReadAll (Body r))|destruct (ParseForm r)];
    first [by apply runs_ret|by apply runs_lift_res|done].
Qed.

Lemma new_entry_runs req h : auth_inv (h_sess h) → runs J (new_entry req) h (λ _ _, True).
Proof.
  intros HJ. apply runs_bind. eapply runs_world_st; [done|apply auth_stable|
    intros w ticket w' (_ & _ & Hk)%RandStringBytes_spec; exact Hk|]. intros ticket w1 _ _.
  apply runs_bind, runs_session; [done|]. cbn [h_rw h_sess h_world].
  apply runs_bind. eapply runs_world_st; [done|apply auth_stable|apply time_Now_effect|]. intros now w2 _ _.
  by apply runs_ret.
Qed.
Lemma login_runs r h : auth_inv (h_sess h) → runs J (login r) h (λ _ _, True).
Proof.
  intros HJ. unfold Auth.login. destruct (_ && _); [|by apply runs_ret].
  apply runs_bind. eapply runs_mono; [by apply read_login_runs|]. intros [req|] h1 HJ1 _; [|by apply runs_ret].
  apply runs_bind. eapply runs_mono; [by apply new_entry_runs|]. intros [ticket te] h2 HJ2 _. cbn [fst snd].
  apply runs_bind. eapply runs_mono; [by apply connect_runs|]. intros [] h3 HJ3 Hc; [|by apply runs_ret].
  cbn [negb]. specialize (Hc eq_refl).
  apply runs_bind, runs_bind, runs_session, runs_ret; [done..|].
  assert (∀ te', Client te' = connectionList (h_sess h3) !! AccessKeyID te' →
            is_Some (connectionList (h_sess h3) !! AccessKeyID te') →
            auth_inv (set_Auth (<[ticket := te']> (Auth (h_sess h3))) (h_sess h3))) as Ht by (intros; by apply auth_inv_ticket).
  apply runs_bind, runs_bind, runs_session, runs_set_session; [done|by apply Ht|].
  apply runs_bind, runs_responds; [auto with go_runs|by apply Ht|]. intros rw1.
  apply runs_bind, runs_responds; [auto with go_runs|by apply Ht|]. intros rw2.
  apply runs_responds; [auto with go_runs|by apply Ht|]. done.
Qed.

(** The process from its start: ticket requests, whatever they answer, rounds of
    [ticketGC], and whatever else happens to the world. *)
Inductive auth_step : relation (api * W) :=
| step_login s w r res h' :
    login r (mkH empty_response s w) = (res, h') → auth_step (s, w) (h_sess h', h_world h')
| step_ticketGC s w now : auth_step (s, w) (ticketGC now s, w)
| step_world s w w' : auth_step (s, w) (s, w').
Definition auth_start (s : api) : Prop := Auth s = ∅ ∧ connectionList s = ∅.

Lemma auth_step_inv x y : auth_step x y → auth_inv x.1 → auth_inv y.1.
Proof.
  intros [s w r res h' Hl|s w now|s w w']; cbn; intros HJ; [|by apply auth_inv_GC|done].
  by apply (login_runs _ (mkH empty_response s w) HJ) in Hl as [? _].
Qed.
Lemma auth_steps_inv x y : rtc auth_step x y → auth_inv x.1 → auth_inv y.1.
Proof. induction 1; eauto using auth_step_inv. Qed.
Lemma auth_start_inv s : auth_start s → auth_inv s.
Proof. intros [Ha Hc]. unfold auth_inv. rewrite Ha, Hc. split; intros ??; by rewrite lookup_empty. Qed.

Lemma authenticate_GC now r s te :
  authenticate r s = Some te → u64 (time_Unix now) ≤ Expire te → authenticate r (ticketGC now s) = Some te.
Proof.
  unfold authenticate. destruct (cookie_ticket _) as [t|]; [|done]. cbn. intros Ht He.
  apply map_lookup_filter_Some. split; [done|]. cbn. lia.
Qed.

(** ** Theorems *)



(** The password is not checked for a user who has a connection: the request is
    answered with a ticket for that connection, whatever the password, and no call
    is made to the store. *)
Theorem login_password_unchecked r h req c :
  login_request r = true → h_rw h = empty_response →
  read_login Unmarshal_login ParseForm r h = (Ok (Some req), h) →
  connectionList (h_sess h) !! username_of req = Some c →
  ∃ ticket te h', login r h = (Ok tt, h') ∧ answered_ok (h_rw h') = true ∧
    Auth (h_sess h') !! ticket = Some te ∧ Client te = Some c ∧
    SecretAccessKey te = rq_Password req ∧
    h_world h' = (time_Now (RandStringBytes 64 (h_world h)).2).2.
Proof.
  intros Hl Hrw Hread Hc. destruct (RandStringBytes 64 (h_world h)) as [t w1] eqn:Et.
  destruct (time_Now w1) as [now w2] eqn:En. exists t. eexists _, _. unfold Auth.login. unfold login_request in Hl.
  rewrite Hl. erewrite io_bind_Ok by exact Hread. cbv beta iota.
  erewrite io_bind_Ok; last first.
  { unfold new_entry. erewrite io_bind_Ok by (unfold world_st, world, lift_st; rewrite Et; reflexivity).
    erewrite io_bind_Ok by reflexivity. cbn [h_rw h_sess h_world].
    erewrite io_bind_Ok by (unfold world_st, world, lift_st; cbn [h_world]; rewrite En; reflexivity). reflexivity. }
  cbn [fst snd]. erewrite io_bind_Ok; last first.
  { unfold connect. erewrite io_bind_Ok by reflexivity. cbn [AccessKeyID h_sess]. rewrite Hc. reflexivity. }
  cbn [negb]. split; [reflexivity|]. cbn. rewrite Hrw, lookup_insert_eq, Hc, En. done.
Qed.
End proofs.

(** ** A run *)

Section run.
Definition api0 : api := mkApi ∅ ∅ (newTTLCache 300000000000) "s3.example" true 7200 "auto".
Definition parse_nothing (_ : list byte) : AccessTicketRequest := mkAccess "" "".
Definition form_ok (_ : Request) : res unit := Ok tt.
Definition ticket_request (password : string) : Request :=
  mkRequest "POST" "/api2/json/access/ticket" (λ _, "") (λ _, "")
    (λ k, if bool_decide (k = "username") then "AKIA@pbs" else password) 0 (Stream [] None).
Definition w0 : mem := Mem {[ "bucket" := ∅ ]} ∅ 5000000000 0 [].
Definition run1 : res unit * hstate api mem :=
  login parse_nothing form_ok (ticket_request "secret") (mkH empty_response api0 w0).
Definition h1 : hstate api mem := snd run1.
Definition ticket1 : string := default "" (head (map_to_list (Auth (h_sess h1))).*1).
Definition with_cookie : Request :=
  mkRequest "GET" "/api2/json/version" (λ _, cookie_name +:+ ticket1) (λ _, "") (λ _, "") 0 (Stream [] None).
Definition te1 : TicketEntry := default (mkTicketEntry "" "" "" None 0) (Auth (h_sess h1) !! ticket1).
Definition c1 : minioClient := mkClient "s3.example" (mkOptions "AKIA" "secret" true (GetLookupType "auto")).

Lemma run1_run : login parse_nothing form_ok (ticket_request "secret") (mkH empty_response api0 w0) = (Ok tt, h1).
Proof. unfold h1, run1. apply run_outcome. vm_compute. reflexivity. Qed.

(** A second request of the user. *)
Definition h2 : hstate api mem := mkH empty_response (h_sess h1) (h_world h1).

Lemma login_password_unchecked_witness :
  ∃ ticket te h', login parse_nothing form_ok (ticket_request "wrong") h2 = (Ok tt, h') ∧
    answered_ok (h_rw h') = true ∧ Auth (h_sess h') !! ticket = Some te ∧ Client te = Some c1 ∧
    SecretAccessKey te = "wrong" ∧
    h_world h' = (time_Now (RandStringBytes 64 (h_world h2)).2).2.
Proof.
  refine (login_password_unchecked parse_nothing form_ok (ticket_request "wrong") h2 (mkAccess "AKIA@pbs" "wrong") c1 _ _ _ _);
    vm_compute; reflexivity.
Defined.
End run.
