(* ===== verification/Logins.v ===== *)
(** * Ticket requests, interleaved ([cmd/pmoxs3backuproxy/main.go])

    The ticket requests of a process run concurrently, and share the tickets and the
    map of the connections without a lock.  [Auth] takes a request by itself; here
    each of its accesses is a step of its own, and the steps of any number of requests
    and of [ticketGC] interleave.  What survives is the isolation of the users: no
    ticket ever holds a client of another user.  What does not is that a ticket holds
    a connection which the store has accepted, or any at all; two requests show it at
    the end. *)

From S2P Require Import Prelude GoStrings GoBytes S3 Platform MemWorld Snapshot GCPlan Json Http Cache HandlerLogic ChunkUpload Session Auth.

Local Open Scope Z_scope.

(** ** A request, access by access *)

(** Where a request stands: what it does next. *)
Inductive stage :=
| Looking                                       (* _, ok := connectionList[username] *)
| Making                                        (* minio.New *)
| Filing (c : minioClient)                      (* connectionList[username] = minioClient *)
| Taking                                        (* connectionList[username] *)
| Listing (c : option minioClient)              (* .ListBuckets *)
| Dropping (e : error)                          (* delete(connectionList, username) *)
| Refusing (e : error)
| Caching (buckets : list string)               (* bucketListCache.Store *)
| Choosing                                      (* te.Client = connectionList[username] *)
| Issuing (c : option minioClient)              (* s.Auth.Store *)
| Answering
| Ended.

Section stages.
Context {W : Type} `{!ObjectStore W, !Platform W}.
Context (Unmarshal_login : list byte → AccessTicketRequest) (ParseForm : Request → res unit).
#[local] Abbreviation hio := (io (hstate api W)).

Definition stage_step (req : AccessTicketRequest) (ticket : string) (te : TicketEntry) (st : stage) : hio stage :=
  match st with
  | Looking => found ← has_connection te; mret (if (found : bool) then Choosing else Making)
  | Making => c ← new_client te; mret (match c with inl c => Filing c | inr e => Refusing e end)
  | Filing c => _ ← file_connection te c; mret Taking
  | Taking => c ← take_connection te; mret (Listing c)
  | Listing c => b ← try_client c; mret (match b with inl buckets => Caching buckets | inr e => Dropping e end)
  | Dropping e => _ ← drop_connection te; mret (Refusing e)
  | Refusing e => _ ← refuse_login e; mret Ended
  | Caching buckets => _ ← keep_buckets te buckets; mret Choosing
  | Choosing => c ← take_connection te; mret (Issuing c)
  | Issuing c => _ ← issue_ticket ticket te c; mret Answering
  | Answering => _ ← answer_ticket ticket req; mret Ended
  | Ended => mret Ended
  end.
(** Up to [n] of them, with nobody in between. *)
Fixpoint stages (n : nat) (req : AccessTicketRequest) (ticket : string) (te : TicketEntry) (st : stage) : hio stage :=
  match n with
  | O => mret st
  | S n => st ← stage_step req ticket te st; stages n req ticket te st
  end.

(** What comes before: the credentials, and the entry of the ticket. *)
Definition begin_login (r : Request) : hio (option (AccessTicketRequest * string * TicketEntry)) :=
  req ← read_login Unmarshal_login ParseForm r;
  match req with
  | None => mret None
  | Some req => x ← new_entry req; mret (Some (req, x.1, x.2))
  end.

(** A request of its own: the handler of [Auth]. *)
Definition uninterrupted (r : Request) : hio unit :=
  x ← begin_login r;
  match x with
  | None => mret tt
  | Some (req, ticket, te) => _ ← stages 9 req ticket te Looking; mret tt
  end.

Lemma ended_stays n req ticket te (h : hstate api W) : stages n req ticket te Ended h = (Ok Ended, h).
Proof. induction n as [|n IH]; [done|]. cbn [stages]. by erewrite io_bind_Ok by reflexivity. Qed.
(** One stage, by what its access answers. *)
Lemma stages_next {A} n req ticket te st (m : hio A) (k : A → stage) (h : hstate api W) :
  stage_step req ticket te st = (a ← m; mret (k a)) →
  stages (S n) req ticket te st h = (a ← m; stages n req ticket te (k a)) h.
Proof.
  intros Hst. cbn [stages]. rewrite Hst. cbv [mbind io_bind mret io_ret]. by destruct (m h) as [[a|e|p] h'].
Qed.
Ltac next_stage := erewrite stages_next by reflexivity; cbv [mbind io_bind mret io_ret].
Lemma answering_stages n req ticket te c (h : hstate api W) :
  (_ ← stages (2 + n) req ticket te (Issuing c); mret tt) h = (_ ← issue_ticket ticket te c; answer_ticket ticket req) h.
Proof.
  cbv [mbind io_bind mret io_ret]. cbn [Nat.add]. next_stage.
  destruct (issue_ticket _ _ _ h) as [[[]|e|p] h1]; [|done..]. next_stage.
  destruct (answer_ticket _ _ h1) as [[[]|e|p] h2]; [|done..]. by rewrite ended_stays.
Qed.
Lemma refusing_stages n req ticket te e (h : hstate api W) :
  (_ ← stages (1 + n) req ticket te (Refusing e); mret tt) h = refuse_login e h.
Proof.
  cbv [mbind io_bind mret io_ret]. cbn [Nat.add]. next_stage.
  destruct (refuse_login e h) as [[[]|e'|p] h1]; [|done..]. by rewrite ended_stays.
Qed.
(** The handler of [Auth] is the request that nobody interrupts. *)
Lemma login_uninterrupted r (h : hstate api W) :
  login_request r = true → login Unmarshal_login ParseForm r h = uninterrupted r h.
Proof.
  unfold login_request, login. intros ->. unfold uninterrupted, begin_login. cbv [mbind io_bind].
  destruct (read_login _ _ r h) as [[[req|]|e|p] h1]; [|done..].
  destruct (new_entry req h1) as [[[ticket te]|e|p] h2]; [|done..]. cbn [mret io_ret fst snd].
  pose proof (answering_stages) as Hans. pose proof refusing_stages as Href. cbv [mbind io_bind mret io_ret] in Hans, Href.
  unfold connect. cbv [mbind io_bind mret io_ret].
  next_stage. destruct (has_connection te h2) as [[[]|e|p] h3]; [| |done..]; cbn [negb].
  { next_stage. destruct (take_connection te h3) as [[c|e|p] h4]; [|done..]. by rewrite (Hans 5%nat). }
  next_stage. destruct (new_client te h3) as [[[c|e]|e|p] h4]; [| |done..]; cbn [negb].
  2: { rewrite (Href 6%nat). by destruct (refuse_login e h4) as [[[]| |] ?]. }
  next_stage. destruct (file_connection te c h4) as [[[]|e|p] h5]; [|done..].
  next_stage. destruct (take_connection te h5) as [[c'|e|p] h6]; [|done..].
  next_stage. destruct (try_client c' h6) as [[[b|e]|e|p] h7]; [| |done..]; cbn [negb].
  - next_stage. destruct (keep_buckets te b h7) as [[[]|e|p] h8]; [|done..]. cbn [negb].
    next_stage. destruct (take_connection te h8) as [[c''|e|p] h9]; [|done..]. by rewrite (Hans 0%nat).
  - next_stage. destruct (drop_connection te h7) as [[[]|e'|p] h8]; [|done..].
    rewrite (Href 2%nat). by destruct (refuse_login e h8) as [[[]| |] ?].
Qed.
End stages.

(** ** Any number of requests *)

(** A request that has arrived: its credentials, its ticket and the entry it is to
    issue, where it stands, and its response. *)
Record login_thread := mkThread {
  lt_request : Request;
  lt_credentials : AccessTicketRequest;
  lt_ticket : string;
  lt_entry : TicketEntry;
  lt_stage : stage;
  lt_rw : response;
}.
Definition moved (t : login_thread) (st : stage) (rw : response) : login_thread :=
  mkThread (lt_request t) (lt_credentials t) (lt_ticket t) (lt_entry t) st rw.

Section interleaved.
Context {W : Type} `{!ObjectStore W, !Platform W, !StoreView W, !FileView W}.
Context `{!ObjectStoreLaws W, !PlatformLaws W}.
Context (Unmarshal_login : list byte → AccessTicketRequest) (ParseForm : Request → res unit).
#[local] Abbreviation carries := (carries Unmarshal_login ParseForm).

(** The process and the world; a panic ends its request. *)
Record process := mkProcess { pr_threads : list login_thread; pr_api : api; pr_world : W }.
Inductive logins_step : relation process :=
| login_arrives ts s w r req ticket te h :
    login_request r = true →
    begin_login Unmarshal_login ParseForm r (mkH empty_response s w) = (Ok (Some (req, ticket, te)), h) →
    logins_step (mkProcess ts s w)
      (mkProcess (ts ++ [mkThread r req ticket te Looking (h_rw h)]) (h_sess h) (h_world h))
| login_moves ts s w i t x h :
    ts !! i = Some t →
    stage_step (lt_credentials t) (lt_ticket t) (lt_entry t) (lt_stage t) (mkH (lt_rw t) s w) = (x, h) →
    logins_step (mkProcess ts s w)
      (mkProcess (<[i := moved t (match x with Ok st => st | _ => Ended end) (h_rw h)]> ts) (h_sess h) (h_world h))
| tickets_collected ts s w now : logins_step (mkProcess ts s w) (mkProcess ts (ticketGC now s) w)
| world_changes ts s w w' : logins_step (mkProcess ts s w) (mkProcess ts s w').

(** ** The invariant *)

Definition stage_client (st : stage) : option minioClient :=
  match st with Filing c => Some c | Listing c | Issuing c => c | _ => None end.
Record thread_ok (t : login_thread) : Prop := {
  tk_carries : carries (lt_request t) (lt_credentials t);
  tk_user : AccessKeyID (lt_entry t) = username_of (lt_credentials t);
  tk_password : SecretAccessKey (lt_entry t) = rq_Password (lt_credentials t);
  tk_client c : stage_client (lt_stage t) = Some c → for_user (AccessKeyID (lt_entry t)) c;
}.
(** What a ticket is: issued by a request, for its user. *)
Definition issued (ts : list login_thread) (ticket : string) (te : TicketEntry) : Prop :=
  ∃ t, t ∈ ts ∧ lt_ticket t = ticket ∧ AccessKeyID te = AccessKeyID (lt_entry t) ∧
    SecretAccessKey te = SecretAccessKey (lt_entry t).
Definition connections_ok (s : api) : Prop := ∀ u c, connectionList s !! u = Some c → for_user u c.
Definition client_ok (te : TicketEntry) : Prop := ∀ c, Client te = Some c → for_user (AccessKeyID te) c.
Record process_ok (p : process) : Prop := {
  po_threads t : t ∈ pr_threads p → thread_ok t;
  po_connections : connections_ok (pr_api p);
  po_tickets ticket te : Auth (pr_api p) !! ticket = Some te → issued (pr_threads p) ticket te ∧ client_ok te;
}.

Lemma begin_login_run r h req ticket te h' :
  begin_login Unmarshal_login ParseForm r h = (Ok (Some (req, ticket, te)), h') →
  h_sess h' = h_sess h ∧ thread_ok (mkThread r req ticket te Looking (h_rw h')).
Proof.
  intros Hr. apply io_bind_Ok_inv in Hr as (o & h1 & (Hs & _ & Ho)%read_login_ok & Hr). destruct o as [req'|]; [|done].
  apply io_bind_Ok_inv in Hr as (x & h2 & (Hs2 & _ & _ & _ & _ & now & Hte)%new_entry_run & [= -> <- <- <-]).
  split; [congruence|]. split; cbn; [apply Ho|by rewrite Hte..|done].
Qed.

(** What a stage does: the connections stay those of their users, and of the tickets
    it changes its own at most, which is for its user. *)
Section stage_invariant.
Context (a : gmap string TicketEntry) (ticket : string) (te : TicketEntry).
Definition tickets_since (s : api) : Prop :=
  Auth s = a ∨ ∃ te', Auth s = <[ticket := te']> a ∧
    AccessKeyID te' = AccessKeyID te ∧ SecretAccessKey te' = SecretAccessKey te ∧ client_ok te'.
#[local] Abbreviation J := (λ (s : api) (_ : W), connections_ok s ∧ tickets_since s).
Definition leads (st : stage) : Prop := ∀ c, stage_client st = Some c → for_user (AccessKeyID te) c.
#[local] Abbreviation keeps_J m := (∀ h, J (h_sess h) (h_world h) → runs J m h (λ _ _, True)).

Lemma J_stable (R : relation W) : stable J R.
Proof. by intros s w w' HJ _. Qed.
Lemma leads_none st (m : io (hstate api W) unit) :
  keeps_J m → stage_client st = None → ∀ h, J (h_sess h) (h_world h) → runs J (_ ← m; mret st) h (λ st _, leads st).
Proof.
  intros Hm Hst h HJ. apply runs_bind. eapply runs_mono; [by apply Hm|]. intros _ h1 HJ1 _. apply runs_ret; [done|].
  intros c. by rewrite Hst.
Qed.
Lemma world_try_keeps {A} (m : io W A) : (∀ w r w', m w = (r, w') → keeps_all w w') → keeps_J (try (world m)).
Proof.
  intros Hm h HJ. apply runs_try; [|done]. eapply runs_world; [done|apply J_stable|intros ???; apply Hm|]. done.
Qed.
Lemma refuse_login_keeps e : keeps_J (refuse_login e).
Proof.
  intros h HJ. apply runs_bind, runs_responds; [auto with go_runs|done|]. intros rw.
  by apply runs_responds; [auto with go_runs|done|].
Qed.
Lemma answer_ticket_keeps req : keeps_J (answer_ticket ticket req).
Proof.
  intros h HJ. apply runs_bind, runs_responds; [auto with go_runs|done|]. intros rw.
  apply runs_bind, runs_responds; [auto with go_runs|done|]. intros rw'.
  by apply runs_responds; [auto with go_runs|done|].
Qed.
Lemma keep_buckets_keeps b : keeps_J (keep_buckets te b).
Proof.
  intros h HJ. apply runs_bind. eapply runs_world_st; [done|apply J_stable|apply time_Now_effect|]. intros now w3 _ _.
  by apply runs_bind, runs_session, runs_set_session.
Qed.
Lemma drop_connection_keeps : keeps_J (drop_connection te).
Proof.
  intros h [HJ1 HJ2]. apply runs_bind, runs_session, runs_set_session; [done| |done]. split; [|done].
  intros u c. cbn. intros [_ Hc]%lookup_delete_Some. by apply HJ1.
Qed.
Lemma file_connection_keeps c : for_user (AccessKeyID te) c → keeps_J (file_connection te c).
Proof.
  intros Hu h [HJ1 HJ2]. apply runs_bind, runs_session, runs_set_session; [done| |done]. split; [|done].
  intros u c'. cbn. intros [[<- <-]|[_ Hc]]%lookup_insert_Some; [done|by apply HJ1].
Qed.
Lemma take_connection_leads (k : option minioClient → stage) h :
  (∀ c, stage_client (k c) = c) → J (h_sess h) (h_world h) → runs J (c ← take_connection te; mret (k c)) h (λ st _, leads st).
Proof.
  intros Hk HJ. apply runs_bind, runs_bind, runs_session, runs_ret, runs_ret; [done..|]. intros c. rewrite Hk. by apply HJ.
Qed.
Lemma stage_step_runs req st h :
  J (h_sess h) (h_world h) → Auth (h_sess h) = a → leads st →
  runs J (stage_step req ticket te st) h (λ st' _, leads st').
Proof.
  intros HJ Ha Hst. destruct st as [| |c| |c|e|e|b| |c| |]; cbn [stage_step].
  - apply runs_bind, runs_bind, runs_session, runs_ret, runs_ret; [done..|]. by case_bool_decide.
  - apply runs_bind, runs_bind, runs_session; [done|]. cbv zeta. apply runs_bind.
    eapply runs_mono; [apply world_try_keeps; [apply minio_New_effect|done]|]. intros x h1 HJ1 _.
    apply runs_ret, runs_ret; [done..|]. destruct x; [|done]. by intros c [= <-].
  - apply leads_none; [apply file_connection_keeps; by apply Hst|done..].
  - by apply (take_connection_leads Listing).
  - apply runs_bind. unfold try_client. destruct c as [c|]; [|by intros r h' [= <- <-]]. apply runs_bind, runs_ret; [done|].
    eapply runs_mono; [apply world_try_keeps; [apply ListBuckets_effect|done]|]. intros [b|e] h1 HJ1 _; by apply runs_ret.
  - by apply leads_none; [apply drop_connection_keeps|..].
  - by apply leads_none; [apply refuse_login_keeps|..].
  - by apply leads_none; [apply keep_buckets_keeps|..].
  - by apply (take_connection_leads Issuing).
  - apply runs_bind, runs_bind, runs_session, runs_set_session, runs_ret; [done| |try done..].
    + destruct HJ as [HJ1 _]. split; [done|]. right. eexists. split_and!; [by rewrite <-Ha|done..].
    + destruct HJ as [HJ1 _]. split; [done|]. right. eexists. split_and!; [by rewrite <-Ha|done..].
  - by apply leads_none; [apply answer_ticket_keeps|..].
  - by apply runs_ret.
Qed.
End stage_invariant.

Lemma issued_move ts i t st rw ticket te :
  ts !! i = Some t → issued ts ticket te → issued (<[i := moved t st rw]> ts) ticket te.
Proof.
  intros Hi (t' & [j Hj]%list_elem_of_lookup & H). destruct (decide (i = j)) as [->|Hne].
  - simplify_eq. exists (moved t st rw). split; [|exact H]. eapply list_elem_of_lookup_2, list_lookup_insert_eq, lookup_lt_Some, Hi.
  - exists t'. split; [|exact H]. apply (list_elem_of_lookup_2 _ j). by rewrite list_lookup_insert_ne.
Qed.
Lemma logins_step_ok p p' : logins_step p p' → process_ok p → process_ok p'.
Proof.
  intros [ts s w r req ticket te h Hl Hb|ts s w i t x h Hi Hrun|ts s w now|ts s w w'] [Ht Hc Ha]; cbn in *.
  - apply begin_login_run in Hb as [Hs Hok]. cbn in Hs. split; cbn; rewrite ?Hs; [|done|].
    + intros t [?|Hin]%elem_of_app; [by apply Ht|]. apply list_elem_of_singleton in Hin as ->. exact Hok.
    + intros tk te' [(t & Hin & H) Hcl]%Ha. split; [|done]. exists t. split; [set_solver|done].
  - pose proof (Ht t (list_elem_of_lookup_2 _ _ _ Hi)) as [T1 T2 T3 T4].
    destruct (stage_step_runs (Auth s) (lt_ticket t) (lt_entry t) _ _ (mkH (lt_rw t) s w)
      (conj Hc (or_introl eq_refl)) eq_refl T4 _ _ Hrun) as [[Hc' Ha'] Hlead].
    split; cbn; [|done|].
    + intros t' [j [(<- & <- & _)|[_ Hj]]%list_lookup_insert_Some]%list_elem_of_lookup;
        [|by apply Ht, (list_elem_of_lookup_2 _ j)].
      split; [done..|]. cbn. destruct x as [st|e|e]; [by apply (Hlead st)|done..].
    + intros tk te' Hl. destruct Ha' as [Ha'|(te1 & Ha' & U1 & U2 & U3)]; rewrite Ha' in Hl.
      * destruct (Ha _ _ Hl) as [Hiss Hcl]. split; [by apply issued_move|done].
      * apply lookup_insert_Some in Hl as [[<- <-]|[_ Hl]].
        -- split; [|done]. eexists. split; [eapply list_elem_of_lookup_2, list_lookup_insert_eq, lookup_lt_Some, Hi|done].
        -- destruct (Ha _ _ Hl) as [Hiss Hcl]. split; [by apply issued_move|done].
  - split; cbn; [done..|]. intros tk te' [Hl _]%map_lookup_filter_Some. by apply Ha.
  - by split.
Qed.

(** C23. Isolation, whatever interleaves.  In every state that concurrent ticket requests
    and rounds of [ticketGC] can reach - each access of a request to the connections
    and the tickets a step of its own, between any two of which others may run,
    refused and panicking requests included - what a request authenticates as was
    issued by a ticket request, whose credentials named that user and had that
    password; and the client in it, if there is one, was made with the access key of
    that user, and so was every connection, of the user it is filed under. *)
Theorem logins_isolated s0 w0 p r te
    (Hstart : auth_start s0) (Hsteps : rtc logins_step (mkProcess [] s0 w0) p)
    (Hauth : authenticate r (pr_api p) = Some te) :
  (∃ t, t ∈ pr_threads p ∧ cookie_ticket (Header r "Cookie") = Some (lt_ticket t) ∧
     carries (lt_request t) (lt_credentials t) ∧
     AccessKeyID te = username_of (lt_credentials t) ∧ SecretAccessKey te = rq_Password (lt_credentials t)) ∧
  (∀ c, Client te = Some c → Creds_AccessKeyID (cl_Options c) = AccessKeyID te) ∧
  (∀ u c, connectionList (pr_api p) !! u = Some c → Creds_AccessKeyID (cl_Options c) = u).
Proof.
  assert (process_ok p) as [Ht Hc Ha].
  { assert (process_ok (mkProcess [] s0 w0)) as Hok.
    { destruct Hstart as [Ha Hc]. split; cbn; [set_solver| |].
      - intros u c. by rewrite Hc, lookup_empty.
      - intros tk te'. by rewrite Ha, lookup_empty. }
    clear Hauth. induction Hsteps as [|p1 p2 p3 Hs _ IH]; [done|]. by eapply IH, logins_step_ok. }
  unfold authenticate in Hauth. destruct (cookie_ticket _) as [tk|]; [|done].
  destruct (Ha _ _ Hauth) as [(t & Hin & <- & U1 & U2) Hcl]. destruct (Ht t Hin) as [T1 T2 T3 _]. split_and!.
  - exists t. split_and!; [done..| |]; congruence.
  - exact Hcl.
  - exact Hc.
Qed.
End interleaved.

(** ** Runs *)

(** What a stage does to the map of the connections, which no lock guards. *)
Definition reads_connections (st : stage) : bool :=
  match st with Looking | Taking | Choosing => true | _ => false end.
Definition writes_connections (st : stage) : bool :=
  match st with Filing _ | Dropping _ => true | _ => false end.
(** Two requests are about to use the map, and one of them writes it. *)
Definition connections_raced {W} (p : process (W:=W)) : Prop :=
  ∃ i j t t', i ≠ j ∧ pr_threads p !! i = Some t ∧ pr_threads p !! j = Some t' ∧
    writes_connections (lt_stage t) = true ∧
    (reads_connections (lt_stage t') || writes_connections (lt_stage t')) = true.

Inductive login_event := Begin (r : Request) | Next (i : nat).
Definition play_login (p : process) (e : login_event) : process (W:=mem) :=
  match e with
  | Begin r =>
      match login_request r, begin_login parse_nothing form_ok r (mkH empty_response (pr_api p) (pr_world p)) with
      | true, (Ok (Some (req, ticket, te)), h) =>
          mkProcess (pr_threads p ++ [mkThread r req ticket te Looking (h_rw h)]) (h_sess h) (h_world h)
      | _, _ => p
      end
  | Next i =>
      match pr_threads p !! i with
      | Some t =>
          let '(x, h) := stage_step (lt_credentials t) (lt_ticket t) (lt_entry t) (lt_stage t)
                           (mkH (lt_rw t) (pr_api p) (pr_world p)) in
          mkProcess (<[i := moved t (match x with Ok st => st | _ => Ended end) (h_rw h)]> (pr_threads p)) (h_sess h) (h_world h)
      | None => p
      end
  end.
Lemma play_login_steps es p : rtc (logins_step parse_nothing form_ok) p (foldl play_login p es).
Proof.
  revert p. induction es as [|e es IH]; intros [ts s w]; [done|]. cbn [foldl]. etrans; [|apply IH].
  destruct e as [r|i]; cbn.
  - destruct (login_request r) eqn:Hl; [|done].
    destruct (begin_login _ _ r _) as [[[[[req ticket] te]|]|e|e] h] eqn:E; try done. apply rtc_once. by econstructor.
  - destruct (ts !! i) as [t|] eqn:Hi; [|done]. destruct (stage_step _ _ _ _ _) as [x h] eqn:E. apply rtc_once. by econstructor.
Qed.

(** Of two requests of one user the first finds no connection and makes one with a
    password the store does not accept; the second comes before the store has said so. *)
Definition refusing_world : mem :=
  Mem {[ "bucket" := ∅ ]} ∅ 5000000000 0 [None; Some (ErrorResponse 403 "InvalidAccessKeyId")].
Definition logins_start : process := mkProcess [] api0 refusing_world.
Definition both : list login_event := [Begin (ticket_request "guessed"); Next 0; Next 0; Next 0; Begin (ticket_request "any"); Next 1].
(** It takes the connection that is about to be refused ... *)
Definition unverified_end : process := foldl play_login logins_start (both ++ [Next 1; Next 1; Next 1; Next 0; Next 0; Next 0; Next 0]).
(** ... or finds it gone again. *)
Definition nil_end : process := foldl play_login logins_start (both ++ [Next 0; Next 0; Next 0; Next 0; Next 1; Next 1; Next 1]).
Definition tickets_of (p : process (W:=mem)) : list (option minioClient * string) :=
  (λ kv, (Client kv.2, SecretAccessKey kv.2)) <$> map_to_list (Auth (pr_api p)).
Definition refused_client : minioClient := mkClient "s3.example" (mkOptions "AKIA" "guessed" true (GetLookupType "auto")).
Definition statuses (p : process (W:=mem)) : list (option Z) := (λ t, rw_status (lt_rw t)) <$> pr_threads p.

Example unverified_ticket :
  tickets_of unverified_end = [(Some refused_client, "any")] ∧ connectionList (pr_api unverified_end) = ∅ ∧
  statuses unverified_end = [Some StatusForbidden; Some StatusOK].
Proof. split_and!; vm_compute; reflexivity. Qed.
Example nil_ticket : tickets_of nil_end = [(None, "any")] ∧ statuses nil_end = [Some StatusForbidden; Some StatusOK].
Proof. split; vm_compute; reflexivity. Qed.
(** On the way there the two use the map at the same time. *)
Example logins_race : connections_raced (foldl play_login logins_start [Begin (ticket_request "a"); Begin (ticket_request "b"); Next 0; Next 0]).
Proof. exists 0%nat, 1%nat. do 2 eexists. split_and!; vm_compute; reflexivity || done. Qed.

Definition unverified_cookie : Request :=
  mkRequest "GET" "/api2/json/version"
    (λ _, cookie_name +:+ default "" (head (map_to_list (Auth (pr_api unverified_end))).*1)) (λ _, "") (λ _, "") 0 (Stream [] None).
Definition unverified_entry : TicketEntry :=
  default (mkTicketEntry "" "" "" None 0) (authenticate unverified_cookie (pr_api unverified_end)).
Lemma logins_isolated_witness :
  authenticate unverified_cookie (pr_api unverified_end) = Some unverified_entry ∧
  ∀ c, Client unverified_entry = Some c → Creds_AccessKeyID (cl_Options c) = AccessKeyID unverified_entry.
Proof.
  assert (authenticate unverified_cookie (pr_api unverified_end) = Some unverified_entry) as Ha by (vm_compute; reflexivity).
  split; [exact Ha|].
  destruct (logins_isolated parse_nothing form_ok api0 refusing_world unverified_end unverified_cookie unverified_entry) as (_ & H & _).
  - split; reflexivity.
  - apply play_login_steps.
  - exact Ha.
  - exact H.
Defined.
