(* ===== verification/Admin.v ===== *)
(** * The API of the datastores ([cmd/pmoxs3backuproxy/main.go], the HTTP/1 handlers)

    Notes, protection, files, listings, groups, usage and deletion of the snapshots
    of a datastore, for the holder of a ticket; the version, the list of datastores
    and the ticket endpoint complete the requests the process answers itself. *)

From S2P Require Import Prelude GoStrings GoBytes S3 Platform MemWorld Snapshot GCPlan IndexFormat Json UsageStats Sizes Http HandlerLogic Hijack ChunkUpload Session Cache Invalidation CacheInvalidation Manifest Listing Auth.

Local Open Scope Z_scope.

(** ** The state *)

Record admin := mkAdmin { ad_api : api; ad_inv : cacheInvalidations }.
Definition set_inv (i : cacheInvalidations) (s : admin) : admin := mkAdmin (ad_api s) i.
Definition set_caches (p : proxyCaches) (i : cacheInvalidations) : cacheInvalidations :=
  mkInvalidations (ci_directory i) (ci_endpoint i) (ci_seen i) p.

Definition StatusNotImplemented : Z := 501.

(** [DecodeString] of a note whose error is ignored: the bytes of the groups of four
    digits before the first corrupt one. *)
Fixpoint b64_leading (s : string) : list Z * bool :=
  match s with
  | "" => ([], true)
  | String c s =>
      if Ascii.eqb c "010"%char || Ascii.eqb c "013"%char then b64_leading s
      else match b64_val c with
           | Some v => let '(vs, ok) := b64_leading s in (v :: vs, ok)
           | None => ([], false)
           end
  end.
Definition b64_DecodeLenient (s : string) : list byte :=
  match b64_DecodeString s with
  | Some bs => bs
  | None => let vs := fst (b64_leading s) in default [] (b64_groups (take (length vs / 4 * 4) vs))
  end.

(** ** What is answered *)

Definition response_json (data : json) : body_part := Json (JObject [("data", data)]).
(** A slice that starts as nil is [null] while it is empty. *)
Definition nil_array (l : list json) : json := if l is [] then JNull else JArray l.
Definition file_json (f : SnapshotFile) : json :=
  JObject [("filename", JString (Filename f)); ("crypt-mode", JString (CryptMode f)); ("size", JInt (sf_Size f))].
Definition snapshot_json (files : json) (s : Snapshot) : json :=
  JObject [("backup-id", JString (BackupID s)); ("backup-time", JInt (BackupTime s));
           ("backup-type", JString (BackupType s)); ("files", files); ("protected", JBool (Protected s));
           ("comment", JString (Comment s)); ("Datastore", JString (Datastore s)); ("size", JInt (sn_Size s))].
Definition listed_json (s : Snapshot) : json := snapshot_json (JArray (file_json <$> Files s)) s.

Record Group := mkGrp {
  gr_Count : Z;                    (* uint64 *)
  gr_BackupID : string;
  gr_BackupType : string;
  gr_Files : list string;
  gr_BackupTime : Z;               (* uint64 *)
  gr_Size : Z;                     (* uint64 *)
  gr_Owner : string;
}.
Definition group_json (g : Group) : json :=
  JObject [("backup-count", JInt (gr_Count g)); ("backup-id", JString (gr_BackupID g));
           ("backup-type", JString (gr_BackupType g)); ("files", nil_array (JString <$> gr_Files g));
           ("last-backup", JInt (gr_BackupTime g)); ("size", JInt (gr_Size g)); ("owner", JString (gr_Owner g))].

Definition groupSize (size : Z) : Z := if size =? 0 then 200 else size.
Definition group_of (owner : string) (snap : Snapshot) : Group :=
  mkGrp 1 (BackupID snap) (BackupType snap) (Filename <$> Files snap) (BackupTime snap)
    (groupSize (sn_Size snap)) (owner +:+ "@pbs").
Definition same_group (g k : Group) : bool :=
  bool_decide (gr_BackupType k = gr_BackupType g) && bool_decide (gr_BackupID k = gr_BackupID g).
Definition merge_group (g k : Group) : Group :=
  if same_group g k
  then mkGrp (u64 (gr_Count k + 1)) (gr_BackupID k) (gr_BackupType k) (gr_Files k) (gr_BackupTime g)
         (gr_Size k) (gr_Owner k)
  else k.
Definition group_step (owner : string) (groups : list Group) (snap : Snapshot) : list Group :=
  let g := group_of owner snap in
  let groups' := merge_group g <$> groups in
  if existsb (same_group g) groups then groups' else groups' ++ [g].
Definition groups_of (owner : string) (snapshots : list Snapshot) : list Group :=
  foldl (group_step owner) [] snapshots.

(** The figures of the status page. *)
Record DataStoreStatus := mkStatus { st_Avail : Z; st_Total : Z; st_Used : Z; st_Counts : Z; st_GCState : bool }.
Definition status_json (s : DataStoreStatus) : json :=
  JObject [("avail", JInt (st_Avail s)); ("total", JInt (st_Total s)); ("used", JInt (st_Used s));
           ("counts", JInt (st_Counts s)); ("gc-status", JBool (st_GCState s))].
Definition unknownDataStoreCapacity : Z := Z.shiftl 1 50.
Definition placeholder_status : DataStoreStatus := mkStatus 10000000 (10000 + 10000000) 10000 0 true.
Definition datastore_avail (capacity bytes : Z) : Z :=
  if bytes <? capacity then u64 (capacity - bytes)
  else if 0 <? capacity then 0 else unknownDataStoreCapacity.
Definition datastore_status (capacity : Z) (usage : DataStoreUsage) (listed : option Z) : DataStoreStatus :=
  let snapshots := if du_Snapshots usage =? 0 then default 0 listed else du_Snapshots usage in
  let avail := datastore_avail capacity (du_Bytes usage) in
  mkStatus (i64 avail) (i64 (u64 (du_Bytes usage + avail))) (i64 (du_Bytes usage)) (i64 snapshots) true.

(** [waitForDataStoreUsage], given what each tick before the deadline sees. *)
Fixpoint waitForDataStoreUsage (ticks : list (DataStoreUsage * bool)) : DataStoreUsage * bool :=
  match ticks with
  | [] => (zero_DataStoreUsage, false)
  | (usage, ok) :: ticks => if ok then (usage, true) else waitForDataStoreUsage ticks
  end.

(** Datastore and action of a request of this API. *)
Definition admin_path (r : Request) : option (string * string) :=
  let path := Split (RequestURI r) slash in
  if (7 <=? Z.of_nat (length path)) && HasPrefix (RequestURI r) "/api2/json/admin/datastore/" then
    ds ← path !! 5%nat; action ← path !! 6%nat; Some (ds, action)
  else None.

(** ** Handlers *)

Section handlers.
Context {W : Type} `{!ObjectStore W, !Platform W}.
#[local] Abbreviation hio := (io (hstate admin W)).
Context (zstd_NewReader : list byte → Z → res stream)
        (Unmarshal_manifest : list byte → res (list manifestFile))
        (Unmarshal_stats : list byte → res UsageStats)
        (Unmarshal_login : list byte → AccessTicketRequest) (ParseForm : Request → res unit).
(** [tags.NewTags], [None] when it refuses the tags, and what the client does with
    the nil tags it then gets; [json.Marshal] of a raw message. *)
Context (NewTags : gmap string string → option (gmap string string))
        (PutObjectTagging_nil : string → string → io W unit)
        (Marshal_raw : list byte → list byte).
(** The command line, and what the ticks of a wait for the usage figure see. *)
Context (cfg : reports) (backups_class : string) (ticks : list (DataStoreUsage * bool)).

Definition on_api {A} (m : io (hstate api W) A) : hio A := λ h,
  let '(r, h') := m (mkH (h_rw h) (ad_api (h_sess h)) (h_world h)) in
  (r, mkH (h_rw h') (mkAdmin (h_sess h') (ad_inv (h_sess h))) (h_world h')).
Definition on_caches {A} (m : io (proxyCaches * W) A) : hio A := λ h,
  let i := ad_inv (h_sess h) in
  let '(r, pw) := m (ci_caches i, h_world h) in
  (r, mkH (h_rw h) (set_inv (set_caches pw.1 i) (h_sess h)) pw.2).
Definition on_invalidations (m : cacheInvalidations → io W cacheInvalidations) : hio unit :=
  s ← session;
  i ← world (m (ad_inv s));
  set_session (set_inv i s).
Definition publish (ds : string) : hio unit := on_invalidations (publishDataStoreCacheInvalidation ds).
Definition sync (ds : string) : hio unit := on_invalidations (syncDataStoreCacheInvalidation ds).

Definition answer (data : json) : hio unit :=
  _ ← Header_Add "Content-Type" "application/json";
  Write (response_json data).
Definition refuse (e : error) : hio unit :=
  _ ← WriteHeader StatusInternalServerError;
  Write (ErrorText e).

Definition put_tags (ds key : string) (t : option (gmap string string)) : io W unit :=
  match t with
  | Some t => PutObjectTagging ds key t
  | None => PutObjectTagging_nil ds key
  end.
Definition manifest_key (s : Snapshot) : string := S3Prefix s +:+ "/index.json.blob".
Definition requested (get : string → string) (ds : string) : Snapshot :=
  mkSnapshot (get "backup-id") (fst (ParseUint (get "backup-time") 64)) (get "backup-type") [] false "" ds false 0.

Definition notes_get (ds : string) (r : Request) : hio unit :=
  t ← try (world (ReadTags (requested (Query r) ds)));
  match t with
  | inr e => refuse e
  | inl tags =>
      let note := match tags !! "note" with Some v => b64_DecodeLenient v | None => [] end in
      answer (JString (bytes_string note))
  end.

(** The error of [ReadTags] is dropped: the map is nil then, and assigning to it
    panics. *)
Definition notes_put (ds : string) (r : Request) : hio unit :=
  let ss := requested (Query r) ds in
  let note := b64_EncodeToString (string_bytes (FormValue r "notes")) in
  t ← try (world (ReadTags ss));
  match t with
  | inr _ => lift_res (Panicked "assignment to entry in nil map")
  | inl tags =>
      u ← try (world (put_tags ds (manifest_key ss) (NewTags (<["note" := note]> tags))));
      match u with
      | inr e => refuse e
      | inl _ => _ ← publish ds; WriteHeader StatusOK
      end
  end.

Definition files_get (ds : string) (r : Request) : hio unit :=
  ss ← world (GetFiles (requested (Query r) ds));
  l ← (if reportEncryption cfg
       then on_caches (FillSnapshotCryptModes zstd_NewReader Unmarshal_manifest [ss]) else mret [ss]);
  match l with
  | [] => lift_res (Panicked "index out of range")
  | ss :: _ => answer (nil_array (file_json <$> Files ss))
  end.

Definition protected_get (ds : string) (r : Request) : hio unit :=
  _ ← Header_Add "Content-Type" "application/json";
  t ← try (world (ReadTags (requested (Query r) ds)));
  match t with
  | inr e => refuse e
  | inl tags => Write (response_json (JBool (bool_decide (tags !! "protected" = Some "true"))))
  end.

Definition toggled (tags : gmap string string) : gmap string string :=
  match tags !! "protected" with
  | Some v => <["protected" := if bool_decide (v = "true") then "false" else "true"]> tags
  | None => <["protected" := "true"]> tags
  end.
(** A failure to write the tags is logged only. *)
Definition protected_put (ds : string) (r : Request) : hio unit :=
  let ss := requested (FormValue r) ds in
  t ← try (world (ReadTags ss));
  match t with
  | inr e => refuse e
  | inl tags =>
      u ← try (world (put_tags ds (manifest_key ss) (NewTags (toggled tags))));
      _ ← match u with inr _ => mret tt | inl _ => publish ds end;
      answer (snapshot_json JNull ss)
  end.

Definition not_implemented : hio unit :=
  _ ← WriteHeader StatusNotImplemented; Write (Text "Not implemented").

Definition s3stats (ds : string) : hio unit :=
  if reportGCStats cfg then
    r ← try (on_caches (cached [] usageStatsCache set_usageStats ds (upstream (fetchUsageStats ds))));
    match r with
    | inr e =>
        _ ← WriteHeader StatusNotFound;
        Write (ErrorText (Wrapf "no usage report yet, it is written by the garbage collector" [] e))
    | inl (stats, _) =>
        _ ← Header_Add "Content-Type" "application/json";
        Write (Data (Marshal_raw stats))
    end
  else http_Error (Text "GC usage reporting is disabled; start the proxy with -reportgcstats") StatusNotFound.

(** [readDataStoreUsageForStatus]; a refresh that is started runs on its own. *)
Definition readDataStoreUsageForStatus (ds : string) : hio (DataStoreUsage * bool) :=
  if reportDataStoreUsage cfg then
    now ← world_st time_Now;
    s ← session;
    let i := ad_inv s in
    let '(usage, known, _, c) := GetAsync_start zero_DataStoreUsage (datastoreUsageCache (ci_caches i)) ds now in
    _ ← set_session (set_inv (set_caches (set_datastoreUsage c (ci_caches i)) i) s);
    mret (if known then (usage, true) else waitForDataStoreUsage ticks)
  else mret (zero_DataStoreUsage, false).

(** The listing is looked at only when the usage figure does not count snapshots. *)
Definition listed_count (ds : string) : hio (option Z) :=
  s ← session;
  let p := ci_caches (ad_inv s) in
  let x := Peek [] (snapshotListCache p) ds in
  _ ← set_session (set_inv (set_caches (set_snapshotList x.2 p) (ad_inv s)) s);
  mret (if x.1.2 then Some (Z.of_nat (length x.1.1)) else None).
Definition status (ds : string) : hio unit :=
  '(usage, known) ← readDataStoreUsageForStatus ds;
  if (known : bool) then
    listed ← (if du_Snapshots usage =? 0 then listed_count ds else mret None);
    answer (status_json (datastore_status (datastoreCapacity cfg) usage listed))
  else answer (status_json placeholder_status).

Definition namespaces (r : Request) : hio unit :=
  if bool_decide (Method r = "GET")
  then answer (JArray [JObject [("ns", JString "Root"); ("comment", JString "")]])
  else not_implemented.

Definition listing (ds : string) : hio (list Snapshot) :=
  on_caches (listSnapshotsCached zstd_NewReader Unmarshal_manifest Unmarshal_stats cfg ds).

(** A listing that fails is an empty one here. *)
Definition groups (te : TicketEntry) (ds : string) : hio unit :=
  l ← try (listing ds);
  let snapshots := match l with inl l => l | inr _ => [] end in
  answer (JArray (group_json <$> groups_of (AccessKeyID te) snapshots)).

Definition upload_log (ds : string) (r : Request) : hio unit :=
  p ← world_st (PutObject ds (S3Prefix (requested (Query r) "") +:+ "/client.log.blob") (Body r) (ContentLength r)
                  (putOptions backups_class ∅));
  match p.1 with
  | Ok _ => _ ← publish ds; WriteHeader StatusOK
  | Err e => refuse e
  | Panicked p => lift_res (Panicked p)
  end.

Definition snapshot_delete (ds : string) (r : Request) : hio unit :=
  let ss := requested (FormValue r) ds in
  s ← session;
  _ ← set_session (set_inv (invalidate_local ds (ad_inv s)) s);
  u ← try (world (Delete ss));
  match u with
  | inl _ => _ ← publish ds; answer (snapshot_json JNull ss)
  | inr e => _ ← publish ds; refuse e
  end.

(** After an error the handler goes on, with no snapshots. *)
Definition snapshots_get (ds : string) (r : Request) : hio unit :=
  let id := Query r "backup-id" in
  let bcktype := Query r "backup-type" in
  l ← try (listing ds);
  _ ← match l with inl _ => mret tt | inr e => refuse e end;
  let snapshots := match l with inl l => l | inr _ => [] end in
  let returned := List.filter (λ s, bool_decide (BackupID s = id) && bool_decide (BackupType s = bcktype)) snapshots in
  answer (if bool_decide (id = "")
          then match l with inl l => JArray (listed_json <$> l) | inr _ => JNull end
          else JArray (listed_json <$> returned)).

Definition when (b : bool) (m : hio unit) : hio unit := if b then m else mret tt.

(** The actions: no two of the conditions hold of one request, so returning early
    and falling through come to the same. *)
Definition datastore_action (te : TicketEntry) (ds action : string) (r : Request) : hio unit :=
  let get := bool_decide (Method r = "GET") in
  let put := bool_decide (Method r = "PUT") in
  _ ← sync ds;
  _ ← when (HasPrefix action "notes" && get) (notes_get ds r);
  _ ← when (HasPrefix action "notes" && put) (notes_put ds r);
  _ ← when (HasPrefix action "files" && get) (files_get ds r);
  _ ← when (HasPrefix action "protected" && get) (protected_get ds r);
  _ ← when (HasPrefix action "protected" && put) (protected_put ds r);
  _ ← when (bool_decide (action = "gc") || bool_decide (action = "prune")) not_implemented;
  _ ← when (bool_decide (action = "s3stats") && get) (s3stats ds);
  _ ← when (bool_decide (action = "status")) (status ds);
  _ ← when (HasPrefix action "namespace") (namespaces r);
  _ ← when (HasPrefix action "groups") (groups te ds);
  _ ← when (HasPrefix action "upload-backup-log" && bool_decide (Method r = "POST")) (upload_log ds r);
  _ ← when (HasPrefix action "snapshots" && bool_decide (Method r = "DELETE")) (snapshot_delete ds r);
  when (HasPrefix action "snapshots" && get) (snapshots_get ds r).

Definition version (r : Request) : hio unit :=
  when (HasPrefix (RequestURI r) "/api2/json/version")
    (answer (JObject [("release", JString "0"); ("repoid", JString "f418479aaaa13ca794e2743296f9b909fe52516c");
                      ("version", JString "3.3")])).

Definition datastores (te : TicketEntry) (r : Request) : hio unit :=
  when (bool_decide (RequestURI r = "/api2/json/admin/datastore") && bool_decide (Method r = "GET"))
    (s ← session;
     client ← deref (Client te);
     let key := AccessKeyID te +:+ "@" +:+ Endpoint te in
     b ← try (λ h,
       let '(x, c, h') := Get_with [] (λ h, let '(now, w) := time_Now (h_world h) in (now, mkH (h_rw h) (h_sess h) w))
                            (bucketListCache (ad_api s)) key
                            (world (ListBuckets (cl_Endpoint client) (cl_Options client))) h in
       (x, mkH (h_rw h') (mkAdmin (set_buckets c (ad_api s)) (ad_inv s)) (h_world h')));
     match b with
     | inr e => refuse e
     | inl (buckets, _) => answer (JArray ((λ b, JObject [("store", JString b)]) <$> buckets))
     end).

(** What the holder of a ticket asks of a datastore. *)
Definition datastore_request (te : TicketEntry) (r : Request) : hio unit :=
  match admin_path r with
  | Some (ds, action) => datastore_action te ds action r
  | None => mret tt
  end.
End handlers.

(** ** The groups *)

Definition snap_key (s : Snapshot) : string * string := (BackupType s, BackupID s).
Definition group_key (g : Group) : string * string := (gr_BackupType g, gr_BackupID g).
Definition in_group (k : string * string) (s : Snapshot) : bool := bool_decide (snap_key s = k).

(** Grouping as one would define it: the keys in order of first appearance, and for
    each the number of its snapshots, the files and size of the first and the time
    of the last. *)
Definition add_key (ks : list (string * string)) (s : Snapshot) : list (string * string) :=
  if bool_decide (snap_key s ∈ ks) then ks else ks ++ [snap_key s].
Definition group_keys (l : list Snapshot) : list (string * string) := foldl add_key [] l.
Definition group_ref (owner : string) (l : list Snapshot) (k : string * string) : Group :=
  let members := List.filter (in_group k) l in
  let first := default zero_Snapshot (head members) in
  mkGrp (u64 (Z.of_nat (length members))) k.2 k.1 (Filename <$> Files first)
    (BackupTime (default zero_Snapshot (last members))) (groupSize (sn_Size first)) (owner +:+ "@pbs").

Lemma same_group_key g k : same_group g k = bool_decide (group_key k = group_key g).
Proof. unfold same_group, group_key. repeat case_bool_decide; cbn; congruence. Qed.
Lemma group_keys_NoDup l : NoDup (group_keys l).
Proof.
  induction l as [|s l IH] using rev_ind; [constructor|]. unfold group_keys in *. rewrite foldl_app. cbn.
  unfold add_key at 1. case_bool_decide as Hs; [done|]. apply NoDup_app. split_and!; [done| |by repeat constructor; set_solver].
  set_solver.
Qed.
Lemma filter_snoc {A} (f : A → bool) l a : List.filter f (l ++ [a]) = List.filter f l ++ if f a then [a] else [].
Proof. rewrite List.filter_app. cbn. by destruct (f a). Qed.
Lemma group_keys_members l k : k ∈ group_keys l ↔ List.filter (in_group k) l ≠ [].
Proof.
  induction l as [|s l IH] using rev_ind; [cbn; set_solver|]. unfold group_keys in *. rewrite foldl_app, filter_snoc. cbn.
  unfold add_key at 1. unfold in_group at 2.
  assert (k ∈ (if bool_decide (snap_key s ∈ foldl add_key [] l) then foldl add_key [] l
               else foldl add_key [] l ++ [snap_key s]) ↔ k ∈ foldl add_key [] l ∨ k = snap_key s) as ->.
  { case_bool_decide; set_solver. }
  rewrite IH. case_bool_decide as Hk; [|rewrite app_nil_r; naive_solver].
  split; [intros _ [_ ?]%app_eq_nil; done|auto].
Qed.

Lemma group_ref_snoc owner l s k :
  k ∈ group_keys l →
  group_ref owner (l ++ [s]) k = merge_group (group_of owner s) (group_ref owner l k).
Proof.
  intros Hk%group_keys_members. unfold merge_group. rewrite same_group_key. unfold group_ref at 1. rewrite filter_snoc.
  assert (bool_decide (group_key (group_ref owner l k) = group_key (group_of owner s)) = in_group k s) as ->.
  { unfold in_group, group_key, group_ref, snap_key. destruct k as [ty id]. cbn.
    repeat case_bool_decide; congruence. }
  destruct (in_group k s); [|by rewrite app_nil_r].
  destruct (List.filter (in_group k) l) as [|s0 m] eqn:E; [done|]. unfold group_ref. rewrite E.
  rewrite last_snoc, length_app. cbn [app head default length gr_Count gr_BackupID gr_BackupType gr_Files gr_Size gr_Owner group_of gr_BackupTime].
  f_equal. by rewrite u64_add_l, Nat2Z.inj_add.
Qed.

Lemma groups_reference owner l : groups_of owner l = group_ref owner l <$> group_keys l.
Proof.
  induction l as [|s l IH] using rev_ind; [done|]. unfold groups_of, group_keys in *. rewrite !foldl_app, IH. cbn.
  fold (group_keys l). unfold group_step, add_key.
  assert (existsb (same_group (group_of owner s)) (group_ref owner l <$> group_keys l) =
          bool_decide (snap_key s ∈ group_keys l)) as ->.
  { apply eq_bool_prop_intro. rewrite Is_true_true, existsb_exists, bool_decide_spec. split.
    - intros (g & Hg & Hs). apply list_elem_of_In, list_elem_of_fmap in Hg as (k & -> & Hk).
      rewrite same_group_key, bool_decide_eq_true in Hs. by destruct k; injection Hs as -> ->.
    - intros Hk. exists (group_ref owner l (snap_key s)). split; [by apply list_elem_of_In, list_elem_of_fmap_2|].
      rewrite same_group_key. by apply bool_decide_eq_true. }
  assert (merge_group (group_of owner s) <$> (group_ref owner l <$> group_keys l) =
          group_ref owner (l ++ [s]) <$> group_keys l) as ->.
  { rewrite <-list_fmap_compose. apply list_fmap_ext. intros i k Hk. symmetry. apply group_ref_snoc.
    by eapply list_elem_of_lookup_2. }
  case_bool_decide as Hk; [done|]. rewrite fmap_app. f_equal. cbn. f_equal.
  unfold group_ref. rewrite filter_snoc. rewrite group_keys_members in Hk.
  destruct (List.filter (in_group (snap_key s)) l) eqn:E; [|by destruct Hk].
  unfold in_group. rewrite bool_decide_eq_true_2 by done. done.
Qed.

(** ** Theorems about what is answered *)

(** The groups of a listing: one for each type and id that occurs, in order of
    first appearance, with the number of its snapshots, the files of the first and
    the time of the last. *)
Theorem groups_of_reference owner l :
  groups_of owner l = group_ref owner l <$> group_keys l ∧ NoDup (group_keys l) ∧
  ∀ k, k ∈ group_keys l ↔ ∃ s, s ∈ l ∧ snap_key s = k.
Proof.
  split_and!; [apply groups_reference|apply group_keys_NoDup|]. intros k. rewrite group_keys_members. split.
  - destruct (List.filter (in_group k) l) as [|s m] eqn:E; [done|]. intros _. exists s.
    assert (s ∈ List.filter (in_group k) l) as Hs by (rewrite E; set_solver).
    apply list_elem_of_In, filter_In in Hs as [Hs Hk]. split; [by apply list_elem_of_In|]. by apply bool_decide_eq_true in Hk.
  - intros (s & Hs & Hk) Hn. assert (In s (List.filter (in_group k) l)) as Hin.
    { apply filter_In. split; [by apply list_elem_of_In|]. by apply bool_decide_eq_true. }
    by rewrite Hn in Hin.
Qed.

(** The figures of the status page stay within their width and add up, for a
    bucket of up to 2^62 bytes and any capacity below 2^62: the space in use is what
    the bucket holds, the total the announced capacity or what is in use when that
    is more, and the free space is never reported as zero without a capacity. *)
Theorem datastore_status_exact capacity usage listed
    (Hc : 0 ≤ capacity < 2 ^ 62) (Hb : 0 ≤ du_Bytes usage < 2 ^ 62) :
  let s := datastore_status capacity usage listed in
  st_Used s = du_Bytes usage ∧ st_Total s = st_Used s + st_Avail s ∧ 0 ≤ st_Avail s ∧
  (capacity = 0 → st_Avail s = 2 ^ 50) ∧
  (0 < capacity → st_Total s = Z.max capacity (du_Bytes usage)).
Proof.
  assert (0 ≤ datastore_avail capacity (du_Bytes usage) < 2 ^ 62 ∧
    (capacity = 0 → datastore_avail capacity (du_Bytes usage) = 2 ^ 50) ∧
    (0 < capacity → du_Bytes usage + datastore_avail capacity (du_Bytes usage) = Z.max capacity (du_Bytes usage)))
    as (Ha & H0 & H1).
  { unfold datastore_avail. change unknownDataStoreCapacity with (2 ^ 50).
    destruct (Z.ltb_spec (du_Bytes usage) capacity).
    - rewrite u64_id by lia. lia.
    - destruct (Z.ltb_spec 0 capacity); lia. }
  cbn. rewrite (u64_id (_ + _)) by lia. rewrite !i64_id by lia. split_and!; try lia; auto.
Qed.
Lemma datastore_status_exact_witness :
  let s := datastore_status 1000 (mkDataStoreUsage 400 300 5 2) None in
  st_Used s = 400 ∧ st_Total s = st_Used s + st_Avail s ∧ 0 ≤ st_Avail s ∧
  (1000 = 0 → st_Avail s = 2 ^ 50) ∧ (0 < 1000 → st_Total s = Z.max 1000 400).
Proof. apply (datastore_status_exact 1000 (mkDataStoreUsage 400 300 5 2) None); cbn; lia. Defined.

(** ** What a request touches *)

Section proofs.
Context {W : Type} `{!ObjectStore W, !Platform W, !StoreView W, !FileView W}.
Context `{!ObjectStoreLaws W, !PlatformLaws W}.
Context (zstd_NewReader : list byte → Z → res stream)
        (Unmarshal_manifest : list byte → res (list manifestFile))
        (Unmarshal_stats : list byte → res UsageStats)
        (Unmarshal_login : list byte → AccessTicketRequest) (ParseForm : Request → res unit).
Context (NewTags : gmap string string → option (gmap string string))
        (PutObjectTagging_nil : string → string → io W unit)
        (Marshal_raw : list byte → list byte).
Context (cfg : reports) (backups_class : string) (ticks : list (DataStoreUsage * bool)).
(** A tag request without tags concerns its object only. *)
Context (PutObjectTagging_nil_effect : ∀ b k,
  effect (keeps (λ b' k', b' ≠ b ∨ k' ≠ k)) (PutObjectTagging_nil b k)).
Implicit Types (h : hstate admin W).

(** The snapshot a request is about: the form names it where it is protected or
    deleted, the query elsewhere. *)
Definition by_form (action : string) : bool := HasPrefix action "protected" || HasPrefix action "snapshots".
Definition about (r : Request) (ds action : string) : Snapshot :=
  requested (if by_form action then FormValue r else Query r) ds.

(** What a request may do to the store: objects of its snapshot go, and its manifest
    and its client log are written. *)
Definition written_file (k : string) : Prop :=
  HasSuffix k "/index.json.blob" = true ∨ HasSuffix k "/client.log.blob" = true.
Definition edits (ds : string) (S : Snapshot) : relation W := λ w w', ∀ b k,
  contents w' b !! k = contents w b !! k ∨
  b = ds ∧ in_snapshot S k = true ∧ (contents w' b !! k = None ∨ written_file k).
#[export] Instance edits_preorder ds S : PreOrder (edits ds S).
Proof.
  split; [by left|]. intros w1 w2 w3 H12 H23 b k. destruct (H23 b k) as [->|]; [|by right]. apply H12.
Qed.
Lemma edits_keeps_all ds S w w' : keeps_all w w' → edits ds S w w'.
Proof. intros Hk b k. left. by apply Hk. Qed.
Lemma edits_shrinks ds S w w' : shrinks (λ b k, b = ds ∧ in_snapshot S k = true) w w' → edits ds S w w'.
Proof. intros Hs b k. destruct (Hs b k) as [|[[? ?] ?]]; auto. Qed.
Lemma edits_one ds S key w w' :
  in_snapshot S key = true → written_file key → keeps (λ b k, b ≠ ds ∨ k ≠ key) w w' → edits ds S w w'.
Proof.
  intros Hin Hf Hk b k. destruct (decide (b = ds)) as [->|]; [|left; apply Hk; by left].
  destruct (decide (k = key)) as [->|]; [|left; apply Hk; by right]. right. auto.
Qed.
Lemma effect_edits {A} ds S (m : io W A) : effect keeps_all m → effect (edits ds S) m.
Proof. apply effect_mono. intros w w'. apply edits_keeps_all. Qed.
Lemma st_effect_edits {A} ds S (m : st W A) : st_effect keeps_all m → st_effect (edits ds S) m.
Proof. intros Hm w a w' Hr. by eapply edits_keeps_all, Hm. Qed.
Lemma on_caches_effect {A} R (m : io (proxyCaches * W) A) :
  (∀ w w', keeps_all w w' → R w w') → effect reads_only m → effect (in_world R) (on_caches m).
Proof.
  intros HR Hm h x h'. unfold on_caches. destruct (m _) as [x0 pw] eqn:E. intros [= <- <-].
  apply Hm in E. by apply HR.
Qed.
Lemma on_invalidations_effect R (m : cacheInvalidations → io W cacheInvalidations) `{!PreOrder R} :
  (∀ i, effect R (m i)) → effect (in_world R) (on_invalidations m).
Proof. intros Hm. unfold on_invalidations. solve_effect. Qed.

Lemma publishing_effect ds c : effect (W:=W) keeps_all (publishDataStoreCacheInvalidation ds c).
Proof. unfold publishDataStoreCacheInvalidation. pose proof (PublishCacheInvalidation_effect (W:=W)). solve_effect. Qed.
Lemma syncing_effect ds c : effect (W:=W) keeps_all (syncDataStoreCacheInvalidation ds c).
Proof.
  assert (∀ d e, effect (W:=W) keeps_all (ReadCacheInvalidation d e ds)) as Hr.
  { intros d e. unfold ReadCacheInvalidation. case_bool_decide; [solve_effect|]. intros w x w'.
    destruct (os_ReadFile _ w) as [[t|er|p] w1] eqn:E; apply os_ReadFile_effect in E; [|case_match|]; by intros [= <- <-]. }
  unfold syncDataStoreCacheInvalidation. solve_effect.
Qed.
Lemma publish_touches ds R `{!PreOrder R} : (∀ w w', keeps_all w w' → R w w') → effect (in_world R) (publish (W:=W) ds).
Proof.
  intros HR. apply on_invalidations_effect; [done|]. intros i. eapply effect_mono; [exact HR|apply publishing_effect].
Qed.

Lemma own_file S f : in_snapshot S (S3Prefix S +:+ String slash f) = true.
Proof. unfold in_snapshot. change (String slash f) with ("/" +:+ f). rewrite <-string_app_assoc. apply HasPrefix_app. Qed.
Lemma put_tags_edits ds S t : effect (edits ds S) (put_tags PutObjectTagging_nil ds (manifest_key S) t).
Proof.
  assert (∀ w w', keeps (λ b' k', b' ≠ ds ∨ k' ≠ manifest_key S) w w' → edits ds S w w') as Hk.
  { intros w w'. apply edits_one; [apply own_file|left; apply HasSuffix_app]. }
  destruct t; cbn; eapply effect_mono; eauto using PutObjectTagging_effect.
Qed.

#[local] Hint Resolve effect_edits st_effect_edits edits_keeps_all on_caches_effect publish_touches
  publishing_effect syncing_effect put_tags_edits : go_effect.

Lemma in_world_mono {A} (R R' : relation W) (m : io (hstate admin W) A) :
  (∀ w w', R w w' → R' w w') → effect (in_world R) m → effect (in_world R') m.
Proof. intros HR. apply effect_mono. intros h h'. apply HR. Qed.
Lemma answer_effect R j `{!PreOrder R} : effect (in_world R) (answer (W:=W) j).
Proof. unfold answer. solve_effect. Qed.
Lemma refuse_effect R e `{!PreOrder R} : effect (in_world R) (refuse (W:=W) e).
Proof. unfold refuse. solve_effect. Qed.
Lemma ReadTags_effect s : effect keeps_all (ReadTags (W:=W) s).
Proof. apply GetObjectTagging_effect. Qed.
#[local] Hint Resolve answer_effect refuse_effect ReadTags_effect : go_effect.
#[local] Hint Extern 1 (PreOrder _) => typeclasses eauto : go_effect.

Lemma get_actions_effect ds r te :
  effect (in_world keeps_all) (notes_get (W:=W) ds r) ∧ effect (in_world keeps_all) (protected_get (W:=W) ds r) ∧
  effect (in_world keeps_all) (files_get (W:=W) zstd_NewReader Unmarshal_manifest cfg ds r) ∧
  effect (in_world keeps_all) (s3stats (W:=W) Marshal_raw cfg ds) ∧
  effect (in_world keeps_all) (status (W:=W) cfg ticks ds) ∧
  effect (in_world keeps_all) (groups (W:=W) zstd_NewReader Unmarshal_manifest Unmarshal_stats cfg te ds) ∧
  effect (in_world keeps_all) (snapshots_get (W:=W) zstd_NewReader Unmarshal_manifest Unmarshal_stats cfg ds r).
Proof.
  pose proof (crypt_modes_effect (W:=W) zstd_NewReader Unmarshal_manifest) as Hc.
  pose proof (λ ds, cached_effect [] usageStatsCache set_usageStats ds _ (upstream_effect _ (fetchUsageStats_effect (W:=W) ds))) as Hu.
  assert (∀ ds, effect (in_world keeps_all) (listing (W:=W) zstd_NewReader Unmarshal_manifest Unmarshal_stats cfg ds)) as Hl.
  { intros. apply on_caches_effect; [done|apply listing_effect]. }
  pose proof (GetFiles_effect (W:=W)).
  split_and!; unfold notes_get, protected_get, files_get, s3stats, status, readDataStoreUsageForStatus, listed_count, groups, snapshots_get;
    cbv zeta; solve_effect.
Qed.

Lemma put_actions_effect ds r :
  effect (in_world (edits ds (requested (Query r) ds))) (notes_put (W:=W) NewTags PutObjectTagging_nil ds r) ∧
  effect (in_world (edits ds (requested (FormValue r) ds))) (protected_put (W:=W) NewTags PutObjectTagging_nil ds r).
Proof.
  pose proof (λ t, put_tags_edits ds (requested (Query r) ds) t).
  pose proof (λ t, put_tags_edits ds (requested (FormValue r) ds) t).
  split; unfold notes_put, protected_put; cbv zeta; solve_effect.
Qed.
Lemma upload_log_effect ds r :
  effect (in_world (edits ds (requested (Query r) ds))) (upload_log (W:=W) backups_class ds r).
Proof.
  assert (st_effect (edits ds (requested (Query r) ds)) (PutObject (W:=W) ds (S3Prefix (requested (Query r) "") +:+ "/client.log.blob")
            (Body r) (ContentLength r) (putOptions backups_class ∅))).
  { intros w x w' Hp%PutObject_effect. eapply edits_one; [|right; apply HasSuffix_app|exact Hp].
    exact (own_file (requested (Query r) ds) "client.log.blob"). }
  unfold upload_log. solve_effect.
Qed.
Lemma snapshot_delete_effect ds r :
  effect (in_world (edits ds (requested (FormValue r) ds))) (snapshot_delete (W:=W) ds r).
Proof.
  assert (effect (edits ds (requested (FormValue r) ds)) (Delete (W:=W) (requested (FormValue r) ds))).
  { intros w x w' (Hs & _)%Delete_ok. by apply edits_shrinks. }
  unfold snapshot_delete. cbv zeta. solve_effect.
Qed.

(** Two of the prefixes of the actions never fit one. *)
Lemma HasPrefix_same s p q : HasPrefix s p = true → HasPrefix s q = true → HasPrefix p q || HasPrefix q p = true.
Proof.
  unfold HasPrefix. revert p q. induction s as [|a s IH]; intros [|b p] [|c q]; cbn; try done.
  destruct (ascii_dec b a) as [->|]; [|done]. destruct (ascii_dec c a) as [->|]; [|done].
  intros Hp Hq. destruct (ascii_dec a a); [|done]. by apply IH.
Qed.
Lemma by_form_not action p :
  HasPrefix action p = true → HasPrefix "protected" p || HasPrefix p "protected" = false →
  HasPrefix "snapshots" p || HasPrefix p "snapshots" = false → by_form action = false.
Proof.
  intros Hp H1 H2. unfold by_form. apply orb_false_iff. split; apply not_true_iff_false; intros Hq;
    pose proof (HasPrefix_same _ _ _ Hp Hq); rewrite orb_comm in H; congruence.
Qed.
Lemma by_form_yes action p : HasPrefix action p = true → p = "protected" ∨ p = "snapshots" → by_form action = true.
Proof. unfold by_form. intros Hp [-> | ->]; rewrite Hp; [done|apply orb_true_r]. Qed.
Lemma when_effect {R : relation (hstate admin W)} `{!PreOrder R} b (m : io (hstate admin W) unit) :
  (b = true → effect R m) → effect R (when b m).
Proof. intros Hm. destruct b; [by apply Hm|]. cbn. solve_effect. Qed.

Lemma datastore_action_effect te ds action r :
  effect (in_world (edits ds (about r ds action)))
    (datastore_action (W:=W) zstd_NewReader Unmarshal_manifest Unmarshal_stats NewTags PutObjectTagging_nil Marshal_raw
       cfg backups_class ticks te ds action r).
Proof.
  destruct (get_actions_effect ds r te) as (G1 & G2 & G3 & G4 & G5 & G6 & G7).
  destruct (put_actions_effect ds r) as [P1 P2].
  pose proof (upload_log_effect ds r) as P3. pose proof (snapshot_delete_effect ds r) as P4.
  pose proof (λ m : io (hstate admin W) unit, in_world_mono keeps_all (edits ds (about r ds action)) m
    (edits_keeps_all ds (about r ds action))) as Hro.
  apply Hro in G1, G2, G3, G4, G5, G6, G7.
  assert (∀ p, HasPrefix action p = true → (HasPrefix "protected" p || HasPrefix p "protected") = false →
    (HasPrefix "snapshots" p || HasPrefix p "snapshots") = false → about r ds action = requested (Query r) ds) as Hq.
  { intros p ???. unfold about. by erewrite by_form_not. }
  assert (∀ p, HasPrefix action p = true → p = "protected" ∨ p = "snapshots" →
    about r ds action = requested (FormValue r) ds) as Hf.
  { intros p ??. unfold about. by erewrite by_form_yes. }
  assert (effect (in_world (edits ds (about r ds action))) (sync (W:=W) ds)).
  { apply on_invalidations_effect; [typeclasses eauto|]. intros i. apply effect_edits, syncing_effect. }
  assert (effect (in_world (edits ds (about r ds action))) (not_implemented (W:=W))) by (unfold not_implemented; solve_effect).
  assert (effect (in_world (edits ds (about r ds action))) (namespaces (W:=W) r)) by (unfold namespaces; solve_effect).
  unfold datastore_action. cbv zeta. apply effect_bind; [typeclasses eauto|done|]. intros [].
  repeat (apply effect_bind; [typeclasses eauto| |intros []]); apply when_effect;
    intros Hw; try done; apply andb_true_iff in Hw as [Hw _].
  - by rewrite (Hq _ Hw).
  - by rewrite (Hf _ Hw) by auto.
  - by rewrite (Hq _ Hw).
  - by rewrite (Hf _ Hw) by auto.
Qed.
(** A deletion is nothing but itself, after the look at the token. *)
Lemma datastore_action_delete te ds action r h :
  HasPrefix action "snapshots" = true → Method r = "DELETE" →
  datastore_action zstd_NewReader Unmarshal_manifest Unmarshal_stats NewTags PutObjectTagging_nil Marshal_raw
    cfg backups_class ticks te ds action r h = (_ ← sync ds; snapshot_delete ds r) h.
Proof.
  intros Ha Hm. unfold datastore_action. cbv zeta. apply io_bind_ext. intros [] h1.
  assert (∀ p, HasPrefix "snapshots" p || HasPrefix p "snapshots" = false → HasPrefix action p = false) as Hp.
  { intros p Hp. apply not_true_iff_false. intros Hq. pose proof (HasPrefix_same _ _ _ Ha Hq). congruence. }
  assert (∀ p, HasPrefix p "snapshots" = false → bool_decide (action = p) = false) as He.
  { intros p Hn. apply bool_decide_eq_false_2. intros ->. congruence. }
  rewrite Hm, (Hp "notes"), (Hp "files"), (Hp "protected"), (Hp "namespace"), (Hp "groups"), (Hp "upload-backup-log"),
    (He "gc"), (He "prune"), (He "s3stats"), (He "status"), Ha by reflexivity. cbn [andb orb when bool_decide].
  rewrite (bool_decide_eq_false_2 ("DELETE" = "GET")) by done. rewrite (bool_decide_eq_true_2 ("DELETE" = "DELETE")) by done.
  cbv [when mbind io_bind mret io_ret andb].
  by destruct (snapshot_delete ds r h1) as [[[]| |] ?].
Qed.
Lemma sync_run ds h u h' : sync (W:=W) ds h = (Ok u, h') → keeps_all (h_world h) (h_world h') ∧ h_rw h' = h_rw h.
Proof.
  unfold sync, on_invalidations. intros Hr. apply io_bind_Ok_inv in Hr as (s & h1 & [= <- <-] & Hr).
  apply io_bind_Ok_inv in Hr as (i & h1 & Hp & [= _ <-]). apply world_inv in Hp as (w & Hp & ->).
  apply syncing_effect in Hp. done.
Qed.
Lemma datastore_request_effect te r ds action :
  admin_path r = Some (ds, action) →
  effect (in_world (edits ds (about r ds action)))
    (datastore_request (W:=W) zstd_NewReader Unmarshal_manifest Unmarshal_stats NewTags PutObjectTagging_nil Marshal_raw
       cfg backups_class ticks te r).
Proof. intros Hp. unfold datastore_request. rewrite Hp. apply datastore_action_effect. Qed.

Lemma datastores_effect te r : effect (in_world keeps_all) (datastores (W:=W) te r).
Proof.
  unfold datastores, when. destruct (_ && _); [|solve_effect].
  apply effect_bind; [typeclasses eauto|solve_effect|]. intros s.
  apply effect_bind; [typeclasses eauto|solve_effect|]. intros client. cbv zeta.
  apply effect_bind; [typeclasses eauto| |intros [[buckets b]|e]; solve_effect].
  apply effect_try. intros h x h'.
  destruct (Get_with _ _ _ _ _ h) as [[x0 c] h0] eqn:E. intros [= <- <-].
  apply (Get_with_inv _ _ (in_world keeps_all)) in E as [HR _]; [exact HR| |solve_effect].
  intros h1 now h2. destruct (time_Now (h_world h1)) as [n w] eqn:En. intros [= <- <-]. by apply time_Now_effect in En.
Qed.
Lemma login_keeps r : effect (in_world keeps_all) (login (W:=W) Unmarshal_login ParseForm r).
Proof.
  assert (∀ n, st_effect keeps_all (RandStringBytes (W:=W) n)) as Hr.
  { intros n w s w' (_ & _ & Hk)%RandStringBytes_spec. exact Hk. }
  unfold login, read_login, new_entry, connect, has_connection, new_client, file_connection, take_connection, try_client,
    drop_connection, keep_buckets, issue_ticket, answer_ticket, refuse_login. cbv zeta. solve_effect.
Qed.
Lemma on_api_effect {A} R (m : io (hstate api W) A) : effect (in_world R) m → effect (in_world R) (on_api m).
Proof.
  intros Hm h x h'. unfold on_api. destruct (m _) as [x0 h0] eqn:E. intros [= <- <-]. by apply Hm in E.
Qed.

(** ** Notes *)

Context (NewTags_same : ∀ t t', NewTags t = Some t' → t' = t).
(** A tag request has to carry the tags. *)
Context (PutObjectTagging_nil_refused : ∀ b k w, fst (PutObjectTagging_nil b k w) ≠ Ok tt).

Lemma publish_run ds h u h' :
  publish ds h = (Ok u, h') → keeps_all (h_world h) (h_world h') ∧ h_rw h' = h_rw h ∧ ad_api (h_sess h') = ad_api (h_sess h).
Proof.
  unfold publish, on_invalidations. intros Hr. apply io_bind_Ok_inv in Hr as (s & h1 & [= <- <-] & Hr).
  apply io_bind_Ok_inv in Hr as (i & h1 & Hp & [= <- <-]). apply world_inv in Hp as (w & Hp & ->).
  apply publishing_effect in Hp. done.
Qed.
Lemma put_tags_done ds key t w w' :
  put_tags PutObjectTagging_nil ds key (NewTags t) w = (Ok tt, w') →
  keeps (λ b k, b ≠ ds ∨ k ≠ key) w w' ∧
  ∃ x y, contents w ds !! key = Some x ∧ contents w' ds !! key = Some y ∧
    o_data y = o_data x ∧ o_meta y = o_meta x ∧ o_tags y = t.
Proof.
  destruct (NewTags t) as [t'|] eqn:Ht; cbn; [|intros Hn; by apply (f_equal fst), PutObjectTagging_nil_refused in Hn].
  apply NewTags_same in Ht as ->. intros Hp. split; [by eapply PutObjectTagging_effect|].
  by apply PutObjectTagging_done in Hp.
Qed.

Lemma bytes_string_bytes s : bytes_string (string_bytes s) = s.
Proof. apply String.string_of_list_byte_of_string. Qed.


(** ** Protection *)

(** What the collector and the listing take for protected. *)
Definition is_protected (tags : gmap string string) : bool := bool_decide (get_tag tags "protected" = "true").
Lemma toggled_protected tags : is_protected (toggled tags) = negb (is_protected tags).
Proof.
  unfold is_protected, toggled, get_tag. destruct (tags !! "protected") as [v|]; cbn.
  - rewrite lookup_insert_eq. cbn. by destruct (bool_decide (v = "true")).
  - by rewrite lookup_insert_eq.
Qed.
Lemma toggled_other tags k : k ≠ "protected" → toggled tags !! k = tags !! k.
Proof. intros Hk. unfold toggled. destruct (tags !! "protected"); by rewrite lookup_insert_ne. Qed.

(** An answered request to change the protection of a snapshot flips what the
    collector reads and no other tag, and leaves the manifest and every other
    object as they were - or the tags could not be written, which the answer does
    not tell. *)
Theorem protected_put_outcome ds r h u h'
    (Hrun : protected_put NewTags PutObjectTagging_nil ds r h = (Ok u, h'))
    (Hrw : h_rw h = empty_response) (Hok : answered_ok (h_rw h') = true) :
  let key := manifest_key (requested (FormValue r) ds) in
  ∃ x, contents (h_world h) ds !! key = Some x ∧
  ((∃ y, contents (h_world h') ds !! key = Some y ∧ o_data y = o_data x ∧
      is_protected (o_tags y) = negb (is_protected (o_tags x)) ∧
      (∀ k, k ≠ "protected" → o_tags y !! k = o_tags x !! k) ∧
      keeps (λ b k, b ≠ ds ∨ k ≠ key) (h_world h) (h_world h')) ∨
   ∃ w w' e, put_tags PutObjectTagging_nil ds key (NewTags (toggled (o_tags x))) w = (Err e, w') ∧
     keeps_all w' (h_world h')).
Proof.
  cbv zeta. unfold protected_put in Hrun. cbv zeta in Hrun. set (ss := requested (FormValue r) ds) in *.
  apply io_bind_Ok_inv in Hrun as (t & h3 & Ht & Hrun). unfold try in Ht.
  destruct (world _ h) as [[tags|e|p] h4] eqn:Er; simplify_eq; apply world_inv in Er as (w4 & Er & ->).
  2:{ exfalso. unfold refuse in Hrun. apply io_bind_Ok_inv in Hrun as ([] & h5 & [= <-] & [= _ <-]).
      cbn in Hok. by rewrite Hrw in Hok. }
  pose proof (ReadTags_effect _ _ _ _ Er) as Hk4. apply GetObjectTagging_read in Er as (x & Hx & <-).
  change (S3Prefix ss +:+ "/index.json.blob") with (manifest_key ss) in *. change (Datastore ss) with ds in *.
  exists x. split; [done|]. apply io_bind_Ok_inv in Hrun as (t & h3 & Ht & Hrun). unfold try in Ht.
  assert (∀ hm, (_ ← match t with inr _ => mret tt | inl _ => publish ds end; answer (snapshot_json JNull ss)) hm = (Ok u, h') →
            keeps_all (h_world hm) (h_world h')) as Hrest.
  { intros hm Hm. apply (effect_bind (in_world keeps_all)) in Hm; [exact Hm| |intros; apply answer_effect; typeclasses eauto].
    destruct t; [|solve_effect]. by apply publish_touches; [typeclasses eauto|]. }
  destruct (world _ _) as [[[]|e|p] h4] eqn:Er in Ht; simplify_eq; apply world_inv in Er as (w5 & Er & ->);
    cbn [h_world] in *; apply Hrest in Hrun; cbn [h_world] in Hrun.
  - left. apply put_tags_done in Er as (Hk5 & x' & y & Hx' & Hy & Hd & _ & Hty). cbn [h_world] in *.
    rewrite (keeps_all_lookup _ _ _ _ Hk4), Hx in Hx'. injection Hx' as <-. exists y.
    split_and!; [by rewrite (keeps_all_lookup _ _ _ _ Hrun)|done|by rewrite Hty, toggled_protected| |].
    + intros k Hk. by rewrite Hty, toggled_other.
    + etrans; [by apply keeps_all_keeps, Hk4|]. etrans; [exact Hk5|by apply keeps_all_keeps].
  - right. eauto 6.
Qed.

(** ** Deletion *)

Lemma snapshot_delete_ok ds r h u h'
    (Hrun : snapshot_delete ds r h = (Ok u, h')) (Hrw : h_rw h = empty_response) :
  let ss := requested (FormValue r) ds in
  shrinks (λ b k, b = ds ∧ in_snapshot ss k = true) (h_world h) (h_world h') ∧
  (answered_ok (h_rw h') = true → ∀ k, in_snapshot ss k = true → contents (h_world h') ds !! k = None) ∧
  valid (entry [] (snapshotListCache (ci_caches (ad_inv (h_sess h')))) ds) = false.
Proof.
  cbv zeta. unfold snapshot_delete in Hrun. cbv zeta in Hrun. set (ss := requested (FormValue r) ds) in *.
  apply io_bind_Ok_inv in Hrun as (s & h1 & [= <- <-] & Hrun).
  apply io_bind_Ok_inv in Hrun as ([] & h1 & [= <-] & Hrun).
  apply io_bind_Ok_inv in Hrun as (d & h1 & Hd & Hrun).
  assert (∃ r0 w1, Delete ss (h_world h) = (r0, w1) ∧ h_world h1 = w1 ∧ h_rw h1 = empty_response ∧
            (r0 = Ok tt ↔ d = inl tt)) as (r0 & w1 & Hdel & Hw1 & Hrw1 & Hr0).
  { unfold try in Hd. destruct (world _ _) as [[[]|e|p] h2] eqn:Er in Hd; simplify_eq;
      apply world_inv in Er as (w1 & Er & ->); eexists _, w1; (split; [exact Er|]); by rewrite Hrw. }
  apply Delete_ok in Hdel as (Hsh & Hgone & _).
  assert (∀ h2, publish ds h1 = (Ok tt, h2) → keeps_all w1 (h_world h2) ∧ h_rw h2 = empty_response ∧
            valid (entry [] (snapshotListCache (ci_caches (ad_inv (h_sess h2)))) ds) = false) as Hpub.
  { intros h2 Hp. pose proof (publish_run _ _ _ _ Hp) as (Hk & Hr & _). rewrite Hw1 in Hk. rewrite Hrw1 in Hr.
    split_and!; [done..|]. unfold publish, on_invalidations in Hp.
    apply io_bind_Ok_inv in Hp as (s & h3 & [= <- <-] & Hp). apply io_bind_Ok_inv in Hp as (i & h3 & Hp & [= <-]).
    apply world_inv in Hp as (w & Hp & ->). cbn. unfold publishDataStoreCacheInvalidation in Hp. cbv zeta in Hp.
    apply io_bind_Ok_inv in Hp as (t & w2 & _ & Hp).
    assert (∀ c, valid (entry [] (snapshotListCache (ci_caches (invalidate_local ds c))) ds) = false) as Hv.
    { intros c. cbn. unfold Invalidate. by rewrite entry_set_entry, decide_True. }
    destruct t as [token|e]; [case_bool_decide|]; injection Hp as <- _; apply Hv. }
  assert (∃ h2, publish ds h1 = (Ok tt, h2) ∧ h_world h' = h_world h2 ∧ h_sess h' = h_sess h2 ∧
            (answered_ok (h_rw h') = true → d = inl tt)) as (h2 & Hp & Hw & Hs & Ha).
  { destruct d as [[]|e]; apply io_bind_Ok_inv in Hrun as ([] & h2 & Hp & Hrun); exists h2; (split; [exact Hp|]);
      apply Hpub in Hp as (_ & Hr2 & _); unfold answer, refuse in Hrun;
      apply io_bind_Ok_inv in Hrun as ([] & h3 & [= <-] & [= _ <-]); (split_and!; [done..|]); [done|].
    cbn. by rewrite Hr2. }
  apply Hpub in Hp as (Hk & _ & Hv). rewrite Hw, Hs. split_and!; [| |exact Hv].
  - etrans; [exact Hsh|]. by apply keeps_all_shrinks.
  - intros Hok k Hin. rewrite (keeps_all_lookup _ _ _ _ Hk). apply Hgone; [|done]. by apply Hr0, Ha.
Qed.

(** C32. The deletion of a snapshot, as its handler ends, the store failing as it may.
    Nothing is written, and nothing is removed but objects of the snapshot which the
    form of the request names, in the datastore of the request.  If it is answered
    with success, no object of that snapshot is left.  Whatever is answered, the
    listing that was cached for the datastore is no longer valid. *)
Theorem snapshot_delete_outcome ds r h u h'
    (Hrun : snapshot_delete ds r h = (Ok u, h')) (Hrw : h_rw h = empty_response) :
  let ss := requested (FormValue r) ds in
  shrinks (λ b k, b = ds ∧ in_snapshot ss k = true) (h_world h) (h_world h') ∧
  (answered_ok (h_rw h') = true → ∀ k, in_snapshot ss k = true → contents (h_world h') ds !! k = None) ∧
  valid (entry [] (snapshotListCache (ci_caches (ad_inv (h_sess h')))) ds) = false.
Proof. by eapply snapshot_delete_ok. Qed.
End proofs.

(** ** A run *)

Section run.
Definition accept_tags (t : gmap string string) : option (gmap string string) := Some t.
Definition refuse_nil (_ _ : string) : io mem unit := fail (Sentinel "MalformedXML").
Definition admin_request (method action : string) : Request :=
  let get k := if bool_decide (k = "backup-id") then "100" else if bool_decide (k = "backup-time") then "1000"
               else if bool_decide (k = "backup-type") then "host" else if bool_decide (k = "notes") then "weekly" else "" in
  mkRequest method ("/api2/json/admin/datastore/pbs/" +:+ action) (λ _, cookie_name +:+ ticket1) get get 0 (Stream [] None).
Definition admin_objects : gmap string Obj :=
  {[ "backups/100|1000|host/index.json.blob" := mkObj plain_manifest ∅ ∅ 0; "chunks/aa" := mkObj [] ∅ ∅ 0 ]}.
Definition admin_world (faults : list (option error)) : mem := Mem {[ "pbs" := admin_objects ]} ∅ 5000000000 0 faults.
Definition admin_state (faults : list (option error)) : hstate admin mem :=
  mkH empty_response (mkAdmin (h_sess h1) (mkInvalidations "" "s3.example" ∅ listing_caches)) (admin_world faults).

Lemma accept_same t t' : accept_tags t = Some t' → t' = t.
Proof. by intros [= <-]. Qed.
Lemma refuse_refused b k w : fst (refuse_nil b k w) ≠ Ok tt.
Proof. done. Qed.
Lemma refuse_effects b k : effect (keeps (λ b' k', b' ≠ b ∨ k' ≠ k)) (refuse_nil b k).
Proof. unfold refuse_nil. solve_effect. Qed.

(** A note is stored, then read. *)
Definition noted : res unit * hstate admin mem :=
  notes_put accept_tags refuse_nil "pbs" (admin_request "PUT" "notes") (admin_state []).
Lemma noted_run : notes_put accept_tags refuse_nil "pbs" (admin_request "PUT" "notes") (admin_state []) = (Ok tt, snd noted).
Proof. unfold noted. apply run_outcome. vm_compute. reflexivity. Qed.
Definition reading_state : hstate admin mem := mkH empty_response (h_sess (snd noted)) (h_world (snd noted)).
Definition note_read : res unit * hstate admin mem := notes_get "pbs" (admin_request "GET" "notes") reading_state.
Lemma note_read_run : notes_get "pbs" (admin_request "GET" "notes") reading_state = (Ok tt, snd note_read).
Proof. unfold note_read. apply run_outcome. vm_compute. reflexivity. Qed.

(** The tags cannot be written: the answer is the same. *)
Definition protected_faulty : res unit * hstate admin mem :=
  protected_put accept_tags refuse_nil "pbs" (admin_request "PUT" "protected") (admin_state [None; Some (Sentinel "outage")]).
Lemma protected_faulty_run :
  protected_put accept_tags refuse_nil "pbs" (admin_request "PUT" "protected") (admin_state [None; Some (Sentinel "outage")]) =
    (Ok tt, snd protected_faulty).
Proof. unfold protected_faulty. apply run_outcome. vm_compute. reflexivity. Qed.
Example protected_put_hides_failure :
  answered_ok (h_rw (snd protected_faulty)) = true ∧
  contents (h_world (snd protected_faulty)) "pbs" !! "backups/100|1000|host/index.json.blob" = Some (mkObj plain_manifest ∅ ∅ 0).
Proof. split; vm_compute; reflexivity. Qed.

Definition protected_run : res unit * hstate admin mem :=
  protected_put accept_tags refuse_nil "pbs" (admin_request "PUT" "protected") (admin_state []).
Lemma protected_run_ok :
  protected_put accept_tags refuse_nil "pbs" (admin_request "PUT" "protected") (admin_state []) = (Ok tt, snd protected_run).
Proof. unfold protected_run. apply run_outcome. vm_compute. reflexivity. Qed.
Lemma protected_put_outcome_witness :
  ∃ x, contents (admin_world []) "pbs" !! "backups/100|1000|host/index.json.blob" = Some x.
Proof.
  destruct (protected_put_outcome accept_tags refuse_nil accept_same refuse_refused "pbs" (admin_request "PUT" "protected")
    (admin_state []) tt (snd protected_run) protected_run_ok) as (x & Hx & _); [reflexivity|vm_compute; reflexivity|].
  exists x. exact Hx.
Defined.

Definition deleted_run : res unit * hstate admin mem :=
  snapshot_delete "pbs" (admin_request "DELETE" "snapshots") (admin_state []).
Lemma deleted_run_ok : snapshot_delete "pbs" (admin_request "DELETE" "snapshots") (admin_state []) = (Ok tt, snd deleted_run).
Proof. unfold deleted_run. apply run_outcome. vm_compute. reflexivity. Qed.
Lemma snapshot_delete_outcome_witness :
  contents (h_world (snd deleted_run)) "pbs" !! "backups/100|1000|host/index.json.blob" = None ∧
  valid (entry [] (snapshotListCache (ci_caches (ad_inv (h_sess (snd deleted_run))))) "pbs") = false.
Proof.
  destruct (snapshot_delete_outcome "pbs" (admin_request "DELETE" "snapshots") (admin_state []) tt (snd deleted_run)
    deleted_run_ok) as (_ & Hgone & Hv); [reflexivity|].
  split; [apply Hgone; vm_compute; reflexivity|exact Hv].
Defined.

End run.
