(* ===== verification/Serve.v ===== *)
(** * A request ([cmd/pmoxs3backuproxy/main.go], [ServeHTTP])

    One function answers every request: those to the process, and those of a backup
    or restore session, whose server is another value of the same type with a ticket,
    a datastore and a snapshot of its own.  [ServeHTTP] tests the route of every
    handler in turn and many blocks fall through to the next.  No request matches two
    routes, so a request runs the handler of its route and nothing else. *)

From S2P Require Import Prelude GoStrings GoBytes Sha256 S3 Platform MemWorld Snapshot IndexFormat Invalidation GCPlan Json UsageStats Sizes Http HandlerLogic Hijack ChunkUpload ChunkFlight Session IndexWriter DynamicIndex Transfer Cache CacheInvalidation Manifest Listing Auth Admin.

Local Open Scope Z_scope.

(** ** What is not in the sources *)

(** The functions of other packages, as the handlers use them. *)
Record externals (W : Type) := mkExternals {
  ReadAll_spare : list byte → list byte;
  Unmarshal_AssignmentRequest : list byte → res AssignmentRequest;
  Unmarshal_sizes : list byte → gmap string Z;
  zstd_NewReader : list byte → Z → res stream;
  Unmarshal_manifest : list byte → res (list manifestFile);
  Unmarshal_stats : list byte → res UsageStats;
  Unmarshal_login : list byte → AccessTicketRequest;
  ParseForm : Request → res unit;
  NewTags : gmap string string → option (gmap string string);
  PutObjectTagging_nil : string → string → io W unit;
  Marshal_raw : list byte → list byte;
  usage_ticks : list (DataStoreUsage * bool);      (* what a wait for the usage figure sees *)
}.
Arguments ReadAll_spare {W}.
Arguments Unmarshal_AssignmentRequest {W}.
Arguments Unmarshal_sizes {W}.
Arguments zstd_NewReader {W}.
Arguments Unmarshal_manifest {W}.
Arguments Unmarshal_stats {W}.
Arguments Unmarshal_login {W}.
Arguments ParseForm {W}.
Arguments NewTags {W}.
Arguments PutObjectTagging_nil {W}.
Arguments Marshal_raw {W}.
Arguments usage_ticks {W}.

(** What is relied on: a tag request without tags concerns its object only. *)
Definition externals_ok {W} `{!ObjectStore W, !StoreView W} (X : externals W) : Prop :=
  ∀ b k, effect (keeps (λ b' k', b' ≠ b ∨ k' ≠ k)) (PutObjectTagging_nil X b k).

(** ** The state a request is served with *)

(** A session that is started on the connection of its request. *)
Inductive upgrade :=
| Backup (C : TicketEntry) (store : string) (S : Snapshot)
| Restore (C : TicketEntry) (store : string) (S : Snapshot).

(** The server, in two parts - what the handlers of a session use, and the tickets,
    with the connections and caches of the process - and the sessions it has started
    in the background. *)
Record session_state := mkSession {
  ss_server : Server;
  ss_admin : admin;
  ss_launched : list (netConn * upgrade);
}.
Definition ss_caches (s : session_state) : cacheInvalidations := ad_inv (ss_admin s).
Definition set_caches_of (c : cacheInvalidations) (s : session_state) : session_state :=
  mkSession (ss_server s) (set_inv c (ss_admin s)) (ss_launched s).
Definition set_server (sv : Server) (s : session_state) : session_state :=
  mkSession sv (ss_admin s) (ss_launched s).

(** ** The handlers *)

Section serve.
Context {W : Type} `{!ObjectStore W, !Platform W}.
Context (X : externals W) (cfg : reports) (fuel : nat).
#[local] Abbreviation hio := (io (hstate session_state W)).

(** A handler of one part of the state. *)
Definition on_server {A} (m : io (hstate Server W) A) : hio A := λ h,
  let '(r, h') := m (mkH (h_rw h) (ss_server (h_sess h)) (h_world h)) in
  (r, mkH (h_rw h') (set_server (h_sess h') (h_sess h)) (h_world h')).
Definition on_admin {A} (m : io (hstate admin W) A) : hio A := λ h,
  let '(r, h') := m (mkH (h_rw h) (ss_admin (h_sess h)) (h_world h)) in
  (r, mkH (h_rw h') (mkSession (ss_server (h_sess h)) (h_sess h') (ss_launched (h_sess h))) (h_world h')).

Definition finish_backup (r : Request) : hio unit :=
  s ← session;
  if HasPrefix (RequestURI r) "/finish" && is_authenticated (ss_server s) && bool_decide (Method r = "POST") then
    let s := set_server (set_Finished true (ss_server s)) s in
    _ ← set_session s;
    match SelectedDataStore (ss_server s) with
    | None => mret tt
    | Some ds =>
        c ← world (publishDataStoreCacheInvalidation ds (ss_caches s));
        set_session (set_caches_of c s)
    end
  else mret tt.

(** The blocks of the HTTP/2 protocols after it, in the order of the code. *)
Definition serve_server (r : Request) : io (hstate Server W) unit :=
  _ ← previous_backup_time r;
  _ ← previous (Unmarshal_sizes X) r;
  _ ← fixed_index r;
  _ ← dynamic_index r;
  _ ← fixed_close (ReadAll_spare X) fuel r;
  _ ← dynamic_close r;
  _ ← dynamic_assign (Unmarshal_AssignmentRequest X) r;
  _ ← fixed_assign (Unmarshal_AssignmentRequest X) r;
  _ ← chunk_upload First r;
  _ ← blob_upload r;
  _ ← speedtest r;
  _ ← download r;
  chunk_download r.

(** The API of the datastores: the storage class is that of the server. *)
Definition api_version (C : option TicketEntry) (r : Request) : hio unit :=
  match C with Some _ => on_admin (version r) | None => mret tt end.
Definition api_datastore (C : option TicketEntry) (r : Request) : hio unit :=
  match C with
  | Some te =>
      s ← session;
      on_admin (datastore_request (zstd_NewReader X) (Unmarshal_manifest X) (Unmarshal_stats X) (NewTags X)
                  (PutObjectTagging_nil X) (Marshal_raw X) cfg (sc_Backups (StorageClasses (ss_server s)))
                  (usage_ticks X) te r)
  | None => mret tt
  end.
Definition api_datastores (C : option TicketEntry) (r : Request) : hio unit :=
  match C with Some te => on_admin (datastores te r) | None => mret tt end.
Definition api_ticket (r : Request) : hio unit :=
  on_admin (on_api (login (Unmarshal_login X) (ParseForm X) r)).

(** Upgrades: the connection is taken over and a session started on it in the
    background.  [hijacker] is what the response offers; over HTTP/2 nothing. *)
Definition StatusSwitchingProtocols : Z := 101.
Definition switch_protocols (hijacker : option (res (option (list byte)))) (u : upgrade) : hio unit :=
  match hijacker with
  | None => http_Error (Text "protocol upgrade is not supported by this connection") StatusInternalServerError
  | Some _ =>
      _ ← Header_Add "Upgrade" "proxmox-backup-protocol-v1";
      _ ← WriteHeader StatusSwitchingProtocols;
      conn ← try (lift_res (hijackWithBuffered hijacker));
      match conn with
      | inr _ => mret tt
      | inl conn =>
          s ← session;
          set_session (mkSession (ss_server s) (ss_admin s) (ss_launched s ++ [(conn, u)]))
      end
  end.
Definition upgrade_backup hijacker (C : option TicketEntry) (r : Request) : hio unit :=
  match C with
  | Some te =>
      if HasPrefix (RequestURI r) "//api2/json/backup"
      then switch_protocols hijacker (Backup te (Query r "store") (requested (Query r) "")) else mret tt
  | None => mret tt
  end.
Definition upgrade_reader hijacker (C : option TicketEntry) (r : Request) : hio unit :=
  match C with
  | Some te =>
      if HasPrefix (RequestURI r) "//api2/json/reader"
      then switch_protocols hijacker (Restore te (Query r "store") (requested (Query r) "")) else mret tt
  | None => mret tt
  end.

(** ** [ServeHTTP] *)

Definition ServeHTTP hijacker (r : Request) : hio unit :=
  s ← session;
  let C := authenticate r (ad_api (ss_admin s)) in
  _ ← api_version C r;
  _ ← api_datastore C r;
  _ ← finish_backup r;
  _ ← on_server (serve_server r);
  _ ← api_datastores C r;
  _ ← upgrade_backup hijacker C r;
  _ ← upgrade_reader hijacker C r;
  api_ticket r.

(** ** Routes *)

(** A prefix of the URI or the whole of it, and a method when one is asked for. *)
Inductive pattern := Prefix (p : string) | Exact (u : string).
Definition route : Type := pattern * option string.
Definition pattern_fits (p : pattern) (u : string) : bool :=
  match p with Prefix p => HasPrefix u p | Exact e => bool_decide (u = e) end.
Definition route_matches (r : Request) (x : route) : bool :=
  pattern_fits x.1 (RequestURI r) && (if x.2 is Some m then bool_decide (Method r = m) else true).
Definition on_routes (rts : list route) (r : Request) : bool := existsb (route_matches r) rts.

Definition chunk_routes : list route := [(Prefix "/fixed_chunk?", None); (Prefix "/dynamic_chunk?", None)].
Definition session_handlers : list (list route * (Request → io (hstate Server W) unit)) :=
  [([(Prefix "/previous_backup_time", Some "GET")], previous_backup_time);
   ([(Prefix "/previous?", Some "GET")], previous (Unmarshal_sizes X));
   ([(Prefix "/fixed_index?", Some "POST")], fixed_index);
   ([(Prefix "/dynamic_index?", Some "POST")], dynamic_index);
   ([(Prefix "/fixed_close?", Some "POST")], fixed_close (ReadAll_spare X) fuel);
   ([(Prefix "/dynamic_close?", Some "POST")], dynamic_close);
   ([(Prefix "/dynamic_index", Some "PUT")], dynamic_assign (Unmarshal_AssignmentRequest X));
   ([(Prefix "/fixed_index", Some "PUT")], fixed_assign (Unmarshal_AssignmentRequest X));
   (chunk_routes, chunk_upload First);
   ([(Prefix "/blob?", None)], blob_upload);
   ([(Prefix "/speedtest", None)], speedtest);
   ([(Prefix "/download?", None)], download);
   ([(Prefix "/chunk?", None)], chunk_download)].
Definition finish_routes : list route := [(Prefix "/finish", Some "POST")].
Definition api_handlers (C : option TicketEntry) : list (list route * (Request → hio unit)) :=
  [([(Prefix "/api2/json/version", None)], api_version C);
   ([(Prefix "/api2/json/admin/datastore/", None)], api_datastore C)].
Definition process_handlers hijacker (C : option TicketEntry) : list (list route * (Request → hio unit)) :=
  [([(Exact "/api2/json/admin/datastore", Some "GET")], api_datastores C);
   ([(Prefix "//api2/json/backup", None)], upgrade_backup hijacker C);
   ([(Prefix "//api2/json/reader", None)], upgrade_reader hijacker C);
   ([(Exact "//api2/json/access/ticket", Some "POST"); (Exact "/api2/json/access/ticket", Some "POST")], api_ticket)].
(** All of them, in the order in which they are asked. *)
Definition http_handlers hijacker (C : option TicketEntry) : list (list route * (Request → hio unit)) :=
  api_handlers C ++ (finish_routes, finish_backup) ::
  ((λ x, (x.1, λ r, on_server (x.2 r))) <$> session_handlers) ++ process_handlers hijacker C.
End serve.

(** Their routes. *)
Definition http_routes : list route :=
  [(Prefix "/api2/json/version", None); (Prefix "/api2/json/admin/datastore/", None); (Prefix "/finish", Some "POST");
   (Prefix "/previous_backup_time", Some "GET"); (Prefix "/previous?", Some "GET");
   (Prefix "/fixed_index?", Some "POST"); (Prefix "/dynamic_index?", Some "POST"); (Prefix "/fixed_close?", Some "POST");
   (Prefix "/dynamic_close?", Some "POST"); (Prefix "/dynamic_index", Some "PUT"); (Prefix "/fixed_index", Some "PUT");
   (Prefix "/fixed_chunk?", None); (Prefix "/dynamic_chunk?", None); (Prefix "/blob?", None); (Prefix "/speedtest", None);
   (Prefix "/download?", None); (Prefix "/chunk?", None); (Exact "/api2/json/admin/datastore", Some "GET");
   (Prefix "//api2/json/backup", None); (Prefix "//api2/json/reader", None);
   (Exact "//api2/json/access/ticket", Some "POST"); (Exact "/api2/json/access/ticket", Some "POST")].

(** ** Routes that exclude each other *)

Definition comparable (x y : route) : bool :=
  match x.1, y.1 with
  | Prefix p, Prefix q => HasPrefix p q || HasPrefix q p
  | Prefix p, Exact e | Exact e, Prefix p => HasPrefix e p
  | Exact e, Exact f => bool_decide (e = f)
  end &&
  match x.2, y.2 with Some m, Some m' => bool_decide (m = m') | _, _ => true end.
Lemma matched_comparable r x y : route_matches r x = true → route_matches r y = true → comparable x y = true.
Proof.
  intros [Hpx Hmx]%andb_true_iff [Hpy Hmy]%andb_true_iff. unfold comparable. apply andb_true_iff. split.
  - destruct x as [[p|e] ?], y as [[q|f] ?]; cbn in *; reflect_bools; subst.
    + by eapply HasPrefix_same.
    + done.
    + done.
    + by apply bool_decide_eq_true.
  - destruct x as [? [m|]], y as [? [m'|]]; try done. cbn in *. reflect_bools. apply bool_decide_eq_true. congruence.
Qed.

(** No route of one handler matches a request that one of another does. *)
Definition apart (x y : list route) : bool := forallb (λ a, forallb (λ b, negb (comparable a b)) y) x.
Fixpoint all_apart (xs : list (list route)) : bool :=
  match xs with [] => true | x :: xs => forallb (apart x) xs && all_apart xs end.
Lemma apart_off x y r : apart x y = true → on_routes x r = true → on_routes y r = false.
Proof.
  intros Hap (a & Ha & Hra)%existsb_exists. apply not_true_iff_false. intros (b & Hb & Hrb)%existsb_exists.
  unfold apart in Hap. rewrite forallb_forall in Hap. specialize (Hap a Ha). rewrite forallb_forall in Hap.
  specialize (Hap b Hb). by rewrite (matched_comparable r a b) in Hap.
Qed.
Lemma apart_off_r x y r : apart x y = true → on_routes y r = true → on_routes x r = false.
Proof.
  intros Hap Hy. apply not_true_iff_false. intros Hx. by rewrite (apart_off _ _ _ Hap Hx) in Hy.
Qed.

(** ** A sequence of handlers of which one is asked *)

Section in_turn.
Context {S W : Type}.
#[local] Abbreviation handler := (Request → io (hstate S W) unit).

(** A handler that is asked off its routes does nothing at all. *)
Definition idle_off (rts : list route) (m : handler) : Prop :=
  ∀ r h, on_routes rts r = false → m r h = (Ok tt, h).

Definition in_turn (ms : list (list route * handler)) (r : Request) : io (hstate S W) unit :=
  foldr (λ m rest, _ ← m.2 r; rest) (mret tt) ms.
Lemma in_turn_cons x ms r h : in_turn (x :: ms) r h = (_ ← x.2 r; in_turn ms r) h.
Proof. done. Qed.
Lemma in_turn_last x r h : in_turn [x] r h = x.2 r h.
Proof. cbv [in_turn foldr mbind io_bind mret]. by destruct (x.2 r h) as [[[]| |] ?]. Qed.
Lemma in_turn_app ms ms' r h : in_turn (ms ++ ms') r h = (_ ← in_turn ms r; in_turn ms' r) h.
Proof.
  revert h. induction ms as [|x ms IH]; intros h; [done|]. cbn [app]. rewrite in_turn_cons.
  unfold mbind, io_bind. rewrite in_turn_cons. unfold mbind, io_bind.
  destruct (x.2 r h) as [[[]| |] h1]; [|done..]. rewrite IH. done.
Qed.
Lemma in_turn_same (ms : list (list route * handler)) r h :
  Forall (λ x : list route * handler, x.2 r h = (Ok tt, h)) ms → in_turn ms r h = (Ok tt, h).
Proof.
  induction 1 as [|x ms Hx _ IH]; [done|]. rewrite in_turn_cons. cbv [mbind io_bind]. by rewrite Hx.
Qed.
Lemma in_turn_idle ms r h :
  Forall (λ x, idle_off x.1 x.2) ms → Forall (λ x, on_routes x.1 r = false) ms → in_turn ms r h = (Ok tt, h).
Proof.
  intros Hms Hr. apply in_turn_same. rewrite !Forall_forall in *. intros x Hx. by apply Hms, Hr.
Qed.
Lemma in_turn_one ms x r h :
  Forall (λ x, idle_off x.1 x.2) ms → all_apart ms.*1 = true → x ∈ ms → on_routes x.1 r = true →
  in_turn ms r h = x.2 r h.
Proof.
  intros Hms. revert h. induction Hms as [|y ms Hy Hms IH]; intros h Hap Hx Hr; [by apply elem_of_nil in Hx|].
  cbn in Hap. apply andb_true_iff in Hap as [Hap Hrest]. rewrite forallb_forall in Hap.
  rewrite in_turn_cons. unfold mbind, io_bind. apply elem_of_cons in Hx as [->|Hx].
  - destruct (y.2 r h) as [[[]| |] h1] eqn:E; symmetry; (etrans; [exact E|]); [|done..]. symmetry. apply in_turn_idle; [done|]. apply Forall_forall. intros z Hz.
    eapply apart_off; [|exact Hr]. apply Hap, list_elem_of_In, list_elem_of_fmap. by exists z.
  - rewrite Hy; [by apply IH|]. eapply apart_off_r; [|exact Hr]. apply Hap, list_elem_of_In, list_elem_of_fmap. by exists x.
Qed.
End in_turn.

(** ** One handler per request *)

Section one_handler.
Context {W : Type} `{!ObjectStore W, !Platform W}.
Context (X : externals W) (cfg : reports) (fuel : nat).
Implicit Types (h : hstate session_state W).
#[local] Abbreviation serve := (ServeHTTP X cfg fuel).
#[local] Abbreviation handlers := (http_handlers X cfg fuel).

Lemma off_prefix r p (m : option string) (a : bool) :
  on_routes [(Prefix p, m)] r = false →
  HasPrefix (RequestURI r) p && a && (if m is Some m then bool_decide (Method r = m) else true) = false.
Proof.
  unfold on_routes, route_matches. cbn. rewrite orb_false_r.
  destruct (HasPrefix _ _), a; cbn; [|done..]. by destruct m.
Qed.
Ltac idle_handler a :=
  let r := fresh "r" in let h := fresh "h" in let Hr := fresh "Hr" in
  intros r h Hr; apply (off_prefix _ _ _ (a h)) in Hr;
  cbv [mbind io_bind session]; rewrite ?andb_true_r in Hr; by rewrite Hr.

Lemma session_handlers_idle : Forall (λ x, idle_off x.1 x.2) (session_handlers X fuel).
Proof.
  repeat first [apply Forall_nil_2 | apply Forall_cons_2]; cbn [fst snd];
    try (unfold previous_backup_time, previous, fixed_index, dynamic_index, fixed_close, dynamic_close, dynamic_assign,
           fixed_assign, blob_upload, speedtest, download, chunk_download;
         idle_handler (λ h : hstate Server W, is_authenticated (h_sess h))).
  intros r h Hr. unfold chunk_upload. cbv [mbind io_bind session].
  unfold on_routes, route_matches in Hr. cbn in Hr. rewrite !andb_true_r, orb_false_r in Hr. by rewrite Hr.
Qed.
Lemma finish_idle : idle_off finish_routes (finish_backup (W:=W)).
Proof. unfold finish_backup. idle_handler (λ h : hstate session_state W, is_authenticated (ss_server (h_sess h))). Qed.
Lemma on_server_idle rts m : idle_off rts m → idle_off rts (λ r, on_server (W:=W) (m r)).
Proof. intros Hm r h Hr. unfold on_server. rewrite (Hm _ _ Hr). by destruct h as [? [] ?]. Qed.
Lemma on_admin_same {A} (m : io (hstate admin W) A) a h :
  m (mkH (h_rw h) (ss_admin (h_sess h)) (h_world h)) = (Ok a, mkH (h_rw h) (ss_admin (h_sess h)) (h_world h)) →
  on_admin m h = (Ok a, h).
Proof. intros Hm. unfold on_admin. rewrite Hm. by destruct h as [? [] ?]. Qed.

Lemma admin_path_off r : on_routes [(Prefix "/api2/json/admin/datastore/", None)] r = false → admin_path r = None.
Proof.
  unfold on_routes, route_matches, admin_path. cbn. rewrite orb_false_r, andb_true_r. intros ->. by rewrite andb_false_r.
Qed.
Lemma version_off r : on_routes [(Prefix "/api2/json/version", None)] r = false → HasPrefix (RequestURI r) "/api2/json/version" = false.
Proof. unfold on_routes, route_matches. cbn. by rewrite orb_false_r, andb_true_r. Qed.
Lemma datastores_off r :
  on_routes [(Exact "/api2/json/admin/datastore", Some "GET")] r = false →
  bool_decide (RequestURI r = "/api2/json/admin/datastore") && bool_decide (Method r = "GET") = false.
Proof. unfold on_routes, route_matches. cbn. by rewrite orb_false_r. Qed.
Lemma ticket_routes r :
  on_routes [(Exact "//api2/json/access/ticket", Some "POST"); (Exact "/api2/json/access/ticket", Some "POST")] r = login_request r.
Proof. unfold on_routes, route_matches, login_request. cbn. by rewrite orb_false_r, andb_orb_distrib_l. Qed.

Lemma ticket_idle r h : login_request r = false → api_ticket X r h = (Ok tt, h).
Proof.
  intros Hr. unfold api_ticket, login. unfold login_request in Hr. rewrite Hr.
  apply on_admin_same. unfold on_api. cbn. by destruct (ss_admin (h_sess h)).
Qed.

Lemma http_handlers_idle hj C : Forall (λ x, idle_off x.1 x.2) (handlers hj C).
Proof.
  unfold http_handlers. apply Forall_app. split; [|apply Forall_cons; split; [apply finish_idle|apply Forall_app; split]].
  - repeat first [apply Forall_nil_2 | apply Forall_cons_2]; cbn [fst snd]; intros r h Hr; destruct C; try done.
    + apply on_admin_same. unfold version, when. by rewrite version_off.
    + unfold api_datastore. erewrite io_bind_Ok by reflexivity. apply on_admin_same.
      unfold datastore_request. by rewrite admin_path_off.
  - apply Forall_fmap. eapply Forall_impl; [apply session_handlers_idle|]. intros [rts m] Hm. by apply on_server_idle.
  - repeat first [apply Forall_nil_2 | apply Forall_cons_2]; cbn [fst snd]; intros r h Hr.
    + destruct C; [|done]. apply on_admin_same. unfold datastores, when. by rewrite datastores_off.
    + unfold upgrade_backup. destruct C; [|done]. unfold on_routes, route_matches in Hr. cbn in Hr.
      rewrite orb_false_r, andb_true_r in Hr. by rewrite Hr.
    + unfold upgrade_reader. destruct C; [|done]. unfold on_routes, route_matches in Hr. cbn in Hr.
      rewrite orb_false_r, andb_true_r in Hr. by rewrite Hr.
    + rewrite ticket_routes in Hr. by apply ticket_idle.
Qed.
Lemma http_handlers_apart hj C : all_apart (handlers hj C).*1 = true.
Proof. vm_compute. reflexivity. Qed.
Lemma http_handlers_routes hj C : mjoin (handlers hj C).*1 = http_routes.
Proof. reflexivity. Qed.

Lemma on_server_bind {A B} (m : io (hstate Server W) A) (k : A → io (hstate Server W) B) h :
  on_server (m ≫= k) h = (a ← on_server m; on_server (k a)) h.
Proof.
  cbv [on_server mbind io_bind]. destruct (m _) as [[a|e|p] [rw s w]]; [|done..]. cbn. by destruct (k a _).
Qed.
Lemma serve_server_in_turn r (h : hstate Server W) : serve_server X fuel r h = in_turn (session_handlers X fuel) r h.
Proof.
  unfold serve_server, session_handlers.
  repeat (rewrite in_turn_cons; apply io_bind_ext; intros ? h'; clear h; rename h' into h; cbn [snd]).
  symmetry. apply (in_turn_last ([(Prefix "/chunk?", None)], chunk_download)).
Qed.
Lemma on_server_in_turn ms r h :
  on_server (in_turn ms r) h = in_turn ((λ x, (x.1, λ r, on_server (W:=W) (x.2 r))) <$> ms) r h.
Proof.
  revert h. induction ms as [|x ms IH]; intros h.
  - unfold on_server, in_turn. cbn. by destruct h as [? [] ?].
  - cbn [fmap list_fmap in_turn foldr]. etrans; [apply on_server_bind|]. apply io_bind_ext. intros []. apply IH.
Qed.
Lemma ServeHTTP_in_turn hj r h :
  serve hj r h = in_turn (handlers hj (authenticate r (ad_api (ss_admin (h_sess h))))) r h.
Proof.
  unfold ServeHTTP. erewrite io_bind_Ok by reflexivity. cbv zeta. generalize (authenticate r (ad_api (ss_admin (h_sess h)))).
  intros C. assert (∀ h, (_ ← api_datastores C r; _ ← upgrade_backup hj C r; _ ← upgrade_reader hj C r; api_ticket X r) h =
    in_turn (process_handlers X hj C) r h) as Htail.
  { clear h. intros h. unfold process_handlers.
    do 3 (rewrite in_turn_cons; apply io_bind_ext; intros ? h'; clear h; rename h' into h; cbn [snd]).
    symmetry. apply (in_turn_last (_, λ r, api_ticket X r)). }
  unfold http_handlers. cbn [app api_handlers].
  do 3 (rewrite in_turn_cons; apply io_bind_ext; intros ? h'; clear h; rename h' into h; cbn [snd]).
  assert (on_server (serve_server X fuel r) h =
    in_turn ((λ x, (x.1, λ r, on_server (x.2 r))) <$> session_handlers X fuel) r h) as Hmid.
  { rewrite <-on_server_in_turn. unfold on_server. by rewrite serve_server_in_turn. }
  rewrite in_turn_app. unfold mbind at 1, io_bind at 1. rewrite Hmid. unfold mbind at 4, io_bind at 4.
  destruct (in_turn _ r h) as [[[]| |] h1]; [|done..]. apply Htail.
Qed.

(** A request on a route of a handler, and one on none. *)
Lemma ServeHTTP_one hj r h rts m :
  (rts, m) ∈ handlers hj (authenticate r (ad_api (ss_admin (h_sess h)))) → on_routes rts r = true → serve hj r h = m r h.
Proof.
  intros Hin Hr. rewrite ServeHTTP_in_turn.
  exact (in_turn_one _ (rts, m) r h (http_handlers_idle hj _) (http_handlers_apart hj _) Hin Hr).
Qed.
Lemma ServeHTTP_none hj r h : on_routes http_routes r = false → serve hj r h = (Ok tt, h).
Proof.
  intros Hr. rewrite ServeHTTP_in_turn. apply in_turn_idle; [apply http_handlers_idle|]. apply Forall_forall. intros x Hx.
  apply not_true_iff_false. intros (a & Ha & Hm)%existsb_exists. apply not_true_iff_false in Hr. apply Hr.
  apply existsb_exists. exists a. split; [|done]. erewrite <-http_handlers_routes.
  apply list_elem_of_In, list_elem_of_join. exists x.1. split; [by apply list_elem_of_In|]. by apply list_elem_of_fmap_2.
Qed.
Lemma ServeHTTP_session hj r h rts m :
  (rts, m) ∈ session_handlers X fuel → on_routes rts r = true → serve hj r h = on_server (m r) h.
Proof.
  intros Hin Hr. apply (ServeHTTP_one hj r h rts (λ r, on_server (m r))); [|done].
  unfold http_handlers. apply elem_of_app. right. right. apply elem_of_app. left. apply list_elem_of_fmap. by exists (rts, m).
Qed.

(** C36. A request, to the process or within a session, runs the handler of its
    route, once and alone: the blocks before and after it change neither the answer,
    the server, the caches nor the store.  A request on no route is answered with an
    empty success and changes nothing.  Within a session that goes for the tickets
    and for the API of the datastores too. *)
Theorem one_handler_per_request hj r h :
  (∀ rts m, (rts, m) ∈ handlers hj (authenticate r (ad_api (ss_admin (h_sess h)))) → on_routes rts r = true →
     serve hj r h = m r h) ∧
  (on_routes http_routes r = false → serve hj r h = (Ok tt, h)).
Proof. split; [intros rts m; apply ServeHTTP_one|apply ServeHTTP_none]. Qed.

(** The sessions a request may ask for. *)
Definition upgrades_of (te : TicketEntry) (r : Request) : list upgrade :=
  [Backup te (Query r "store") (requested (Query r) ""); Restore te (Query r "store") (requested (Query r) "")].
(** The cases, the handlers of a session as one. *)
Inductive served_by (hj : option (res (option (list byte)))) (r : Request) (h : hstate session_state W) :
  res unit * hstate session_state W → Prop :=
| by_nothing : served_by hj r h (Ok tt, h)
| by_session : served_by hj r h (on_server (serve_server X fuel r) h)
| by_finish : served_by hj r h (finish_backup r h)
| by_version te : authenticate r (ad_api (ss_admin (h_sess h))) = Some te → served_by hj r h (on_admin (version r) h)
| by_datastore te ds action :
    authenticate r (ad_api (ss_admin (h_sess h))) = Some te → admin_path r = Some (ds, action) →
    served_by hj r h (api_datastore X cfg (Some te) r h)
| by_datastores te :
    authenticate r (ad_api (ss_admin (h_sess h))) = Some te → admin_path r = None →
    served_by hj r h (on_admin (datastores te r) h)
| by_upgrade te u :
    authenticate r (ad_api (ss_admin (h_sess h))) = Some te → admin_path r = None →
    u ∈ upgrades_of te r → served_by hj r h (switch_protocols hj u h)
| by_ticket : login_request r = true → served_by hj r h (api_ticket X r h).
Lemma on_routes_split rts rts' r : on_routes (rts ++ rts') r = on_routes rts r || on_routes rts' r.
Proof. apply existsb_app. Qed.
Lemma admin_path_prefix r x : admin_path r = Some x → HasPrefix (RequestURI r) "/api2/json/admin/datastore/" = true.
Proof. unfold admin_path. by destruct (_ <=? _), (HasPrefix _ _). Qed.
(** What has another prefix or is another URI names no datastore. *)
Lemma no_admin_path r rt :
  route_matches r rt = true → comparable rt (Prefix "/api2/json/admin/datastore/", None) = false → admin_path r = None.
Proof.
  intros Hr Hc. destruct (admin_path r) as [x|] eqn:Hp; [|done]. apply admin_path_prefix in Hp.
  rewrite (matched_comparable r) in Hc; [done..|]. unfold route_matches. cbn. by rewrite Hp.
Qed.
Lemma ServeHTTP_cases hj r h : served_by hj r h (serve hj r h).
Proof.
  destruct (on_routes http_routes r) eqn:Hr; [|rewrite (ServeHTTP_none _ _ _ Hr); constructor].
  assert (∀ i rts m, handlers hj (authenticate r (ad_api (ss_admin (h_sess h)))) !! i = Some (rts, m) →
    on_routes rts r = true → served_by hj r h (m r h) → served_by hj r h (serve hj r h)) as Hone.
  { intros i rts m Hi%list_elem_of_lookup_2 Hm. by rewrite (ServeHTTP_one _ _ _ _ _ Hi Hm). }
  assert (∀ i rts m, session_handlers X fuel !! i = Some (rts, m) →
    on_routes rts r = true → served_by hj r h (serve hj r h)) as Hsess.
  { intros i rts m Hi%list_elem_of_lookup_2 Hm. rewrite (ServeHTTP_session _ _ _ _ _ Hi Hm).
    assert (on_server (m r) h = on_server (serve_server X fuel r) h) as ->; [|constructor].
    unfold on_server. rewrite serve_server_in_turn.
    rewrite (in_turn_one _ (rts, m)); [done|apply session_handlers_idle|vm_compute; reflexivity|done|done]. }
  set (C := authenticate r (ad_api (ss_admin (h_sess h)))) in Hone.
  change http_routes with ([(Prefix "/api2/json/version", None)] ++ [(Prefix "/api2/json/admin/datastore/", None)] ++ finish_routes ++
    mjoin (session_handlers X fuel).*1 ++ [(Exact "/api2/json/admin/datastore", Some "GET")] ++
    [(Prefix "//api2/json/backup", None)] ++ [(Prefix "//api2/json/reader", None)] ++
    [(Exact "//api2/json/access/ticket", Some "POST"); (Exact "/api2/json/access/ticket", Some "POST")]) in Hr.
  rewrite !on_routes_split, !orb_true_iff in Hr. destruct Hr as [Hr|[Hr|[Hr|[Hr|[Hr|[Hr|[Hr|Hr]]]]]]].
  - eapply (Hone 0%nat); [done|exact Hr|]. unfold api_version. destruct C as [te|] eqn:HC; econstructor. exact HC.
  - eapply (Hone 1%nat); [done|exact Hr|]. destruct C as [te|] eqn:HC; [|constructor].
    destruct (admin_path r) as [[ds action]|] eqn:Hp; [by econstructor|].
    assert (api_datastore X cfg (Some te) r h = (Ok tt, h)) as ->; [|constructor].
    unfold api_datastore. erewrite io_bind_Ok by reflexivity. apply on_admin_same. unfold datastore_request. by rewrite Hp.
  - eapply (Hone 2%nat); [done|exact Hr|constructor].
  - apply existsb_exists in Hr as (a & Ha & Hm). apply list_elem_of_In, list_elem_of_join in Ha as (rts & Ha & Hin).
    apply list_elem_of_fmap in Hin as ([rts' m] & -> & Hin). apply list_elem_of_lookup in Hin as [i Hi].
    eapply (Hsess i); [exact Hi|]. apply existsb_exists. exists a. split; [by apply list_elem_of_In|done].
  - eapply (Hone 16%nat); [done|exact Hr|]. unfold api_datastores. destruct C as [te|] eqn:HC; econstructor; [exact HC|].
    unfold on_routes in Hr. cbn [existsb] in Hr. rewrite orb_false_r in Hr. by eapply no_admin_path.
  - eapply (Hone 17%nat); [done|exact Hr|]. unfold upgrade_backup. destruct C as [te|] eqn:HC; [|constructor].
    unfold on_routes in Hr. cbn [existsb] in Hr. rewrite orb_false_r in Hr. pose proof (no_admin_path _ _ Hr eq_refl).
    unfold route_matches in Hr. cbn in Hr. rewrite andb_true_r in Hr. rewrite Hr. econstructor; [exact HC|done|set_solver].
  - eapply (Hone 18%nat); [done|exact Hr|]. unfold upgrade_reader. destruct C as [te|] eqn:HC; [|constructor].
    unfold on_routes in Hr. cbn [existsb] in Hr. rewrite orb_false_r in Hr. pose proof (no_admin_path _ _ Hr eq_refl).
    unfold route_matches in Hr. cbn in Hr. rewrite andb_true_r in Hr. rewrite Hr. econstructor; [exact HC|done|set_solver].
  - eapply (Hone 19%nat); [done|exact Hr|]. constructor. by rewrite <-ticket_routes.
Qed.
End one_handler.

(** ** What a request touches *)

Section footprint.
Context {W : Type} `{!ObjectStore W, !Platform W, !StoreView W, !FileView W}.
Context `{!ObjectStoreLaws W, !PlatformLaws W}.
Context (X : externals W) (cfg : reports) (fuel : nat) (HX : externals_ok X).
Implicit Types (h : hstate session_state W).
#[local] Abbreviation serve := (ServeHTTP X cfg fuel).

Lemma on_admin_run {A} R (m : io (hstate admin W) A) h x h' :
  effect (in_world R) m → on_admin m h = (x, h') →
  R (h_world h) (h_world h') ∧ ss_server (h_sess h') = ss_server (h_sess h) ∧ ss_launched (h_sess h') = ss_launched (h_sess h).
Proof.
  intros Hm. unfold on_admin. destruct (m _) as [x0 h0] eqn:E. intros [= <- <-]. by apply Hm in E.
Qed.
Lemma version_effect r : effect (in_world keeps_all) (version (W:=W) r).
Proof. unfold version, when. destruct (HasPrefix _ _); [apply answer_effect; typeclasses eauto|solve_effect]. Qed.
Lemma api_datastore_edits te r ds action h x h' :
  admin_path r = Some (ds, action) → api_datastore X cfg (Some te) r h = (x, h') →
  edits ds (about r ds action) (h_world h) (h_world h') ∧ ss_server (h_sess h') = ss_server (h_sess h) ∧
  ss_launched (h_sess h') = ss_launched (h_sess h).
Proof.
  intros Hp Hr. unfold api_datastore in Hr. erewrite io_bind_Ok in Hr by reflexivity.
  eapply on_admin_run; [|exact Hr]. by apply datastore_request_effect.
Qed.
Lemma api_ticket_run r h x h' :
  api_ticket X r h = (x, h') →
  keeps_all (h_world h) (h_world h') ∧ ss_server (h_sess h') = ss_server (h_sess h) ∧
  ss_launched (h_sess h') = ss_launched (h_sess h) ∧ ss_caches (h_sess h') = ss_caches (h_sess h).
Proof.
  unfold api_ticket, on_admin, on_api. destruct (login _ _ r _) as [x0 h0] eqn:E. intros [= <- <-].
  by apply login_keeps in E.
Qed.
Lemma switch_protocols_run hj u h x h' :
  switch_protocols (W:=W) hj u h = (x, h') →
  h_world h' = h_world h ∧ ss_server (h_sess h') = ss_server (h_sess h) ∧ ss_admin (h_sess h') = ss_admin (h_sess h) ∧
  (ss_launched (h_sess h') = ss_launched (h_sess h) ∨
   ∃ conn, hijackWithBuffered hj = Ok conn ∧ ss_launched (h_sess h') = ss_launched (h_sess h) ++ [(conn, u)]).
Proof.
  unfold switch_protocols. destruct hj as [o|]; [|by intros [= <- <-]; auto].
  cbv [mbind io_bind Header_Add WriteHeader try lift_res session set_session mret io_ret].
  destruct (hijackWithBuffered (Some o)) as [conn|e|p]; intros [= <- <-]; cbn; split_and!; eauto.
Qed.

(** The handlers of a session, asked of a server that is in none. *)
Definition refused_chunk : io (hstate Server W) unit :=
  http_Error (Text "chunk upload requires an authenticated backup session") StatusUnauthorized.
Lemma session_handlers_outside :
  Forall (λ x, ∀ r (h : hstate Server W), H2Ticket (h_sess h) = None → on_routes chunk_routes r = false →
    x.2 r h = (Ok tt, h)) (session_handlers X fuel).
Proof.
  repeat first [apply Forall_nil_2 | apply Forall_cons_2]; cbn [fst snd]; intros r h Ht Hc;
    try (unfold previous_backup_time, previous, fixed_index, dynamic_index, fixed_close, dynamic_close, dynamic_assign,
           fixed_assign, blob_upload, speedtest, download, chunk_download;
         cbv [mbind io_bind session]; unfold is_authenticated; rewrite Ht, bool_decide_eq_false_2 by (by intros []);
         by rewrite ?andb_false_r).
  unfold chunk_upload. cbv [mbind io_bind session].
  unfold on_routes, route_matches in Hc. cbn in Hc. rewrite !andb_true_r, orb_false_r in Hc. by rewrite Hc.
Qed.
Lemma chunk_upload_outside r (h : hstate Server W) :
  H2Ticket (h_sess h) = None → on_routes chunk_routes r = true → chunk_upload First r h = refused_chunk h.
Proof.
  intros Ht Hc. unfold on_routes, route_matches in Hc. cbn in Hc. rewrite !andb_true_r, orb_false_r in Hc.
  unfold chunk_upload. cbv [mbind io_bind session]. rewrite Hc. unfold client_of. by rewrite Ht.
Qed.
Lemma serve_server_outside r (h : hstate Server W) :
  H2Ticket (h_sess h) = None →
  serve_server X fuel r h = if on_routes chunk_routes r then refused_chunk h else (Ok tt, h).
Proof.
  intros Ht. rewrite serve_server_in_turn. destruct (on_routes chunk_routes r) eqn:Hc.
  - rewrite (in_turn_one _ (chunk_routes, chunk_upload First));
      [by apply chunk_upload_outside|apply session_handlers_idle|vm_compute; reflexivity|by apply (list_elem_of_lookup_2 _ 8)|done].
  - apply in_turn_same. eapply Forall_impl; [apply session_handlers_outside|]. intros m Hm. by apply Hm.
Qed.
Lemma finish_outside r h : H2Ticket (ss_server (h_sess h)) = None → finish_backup r h = (Ok tt, h).
Proof.
  intros Ht. unfold finish_backup. cbv [mbind io_bind session]. unfold is_authenticated.
  by rewrite Ht, bool_decide_eq_false_2, andb_false_r by (by intros []).
Qed.
Lemma serve_outside hj r h :
  H2Ticket (ss_server (h_sess h)) = None → authenticate r (ad_api (ss_admin (h_sess h))) = None → login_request r = false →
  serve hj r h = if on_routes chunk_routes r then on_server refused_chunk h else (Ok tt, h).
Proof.
  intros Ht Ha Hl. destruct (on_routes chunk_routes r) eqn:Hc.
  - rewrite (ServeHTTP_session _ _ _ _ _ _ chunk_routes (chunk_upload First));
      [|by apply (list_elem_of_lookup_2 _ 8)|done]. unfold on_server. by rewrite chunk_upload_outside.
  - rewrite ServeHTTP_in_turn, Ha. apply in_turn_same. unfold http_handlers.
    apply Forall_cons_2; [done|]. apply Forall_cons_2; [done|]. apply Forall_cons_2; [|apply Forall_app; split].
    + by apply finish_outside.
    + apply Forall_fmap. eapply Forall_impl; [apply session_handlers_outside|]. intros x Hx. cbn.
      unfold on_server. rewrite Hx by done. by destruct h as [? [] ?].
    + repeat (apply Forall_cons_2; [first [done|by apply ticket_idle]|]). constructor.
Qed.

Lemma api_footprint_ok hj r h x h'
    (Hproc : H2Ticket (ss_server (h_sess h)) = None) (Hrun : serve hj r h = (x, h')) :
  ss_server (h_sess h') = ss_server (h_sess h) ∧
  match authenticate r (ad_api (ss_admin (h_sess h))) with
  | None =>
      keeps_all (h_world h) (h_world h') ∧ ss_caches (h_sess h') = ss_caches (h_sess h) ∧
      ss_launched (h_sess h') = ss_launched (h_sess h) ∧
      (login_request r = false → x = Ok tt ∧ h_sess h' = h_sess h ∧ h_world h' = h_world h ∧
         h_rw h' = if on_routes chunk_routes r then h_rw (snd (on_server refused_chunk h)) else h_rw h)
  | Some te =>
      match admin_path r with
      | None => keeps_all (h_world h) (h_world h')
      | Some (ds, action) => edits ds (about r ds action) (h_world h) (h_world h')
      end ∧
      (ss_launched (h_sess h') = ss_launched (h_sess h) ∨
       ∃ conn u, u ∈ upgrades_of te r ∧ hijackWithBuffered hj = Ok conn ∧
         ss_launched (h_sess h') = ss_launched (h_sess h) ++ [(conn, u)])
  end.
Proof.
  assert (∀ R : relation W, (∀ w w', keeps_all w w' → R w w') →
    (∀ te ds action, authenticate r (ad_api (ss_admin (h_sess h))) = Some te → admin_path r = Some (ds, action) →
       ∀ w w', edits ds (about r ds action) w w' → R w w') →
    R (h_world h) (h_world h') ∧ ss_server (h_sess h') = ss_server (h_sess h) ∧
    (authenticate r (ad_api (ss_admin (h_sess h))) = None → ss_caches (h_sess h') = ss_caches (h_sess h)) ∧
    (ss_launched (h_sess h') = ss_launched (h_sess h) ∨
     ∃ te conn u, authenticate r (ad_api (ss_admin (h_sess h))) = Some te ∧ u ∈ upgrades_of te r ∧
       hijackWithBuffered hj = Ok conn ∧ ss_launched (h_sess h') = ss_launched (h_sess h) ++ [(conn, u)])) as Hall.
  { intros R HR He. pose proof (ServeHTTP_cases X cfg fuel hj r h) as Hcase. rewrite Hrun in Hcase.
    assert (R (h_world h) (h_world h)) as Hrefl by by apply HR.
    remember (x, h') as o eqn:Ho. destruct Hcase as [| | |te Ha|te ds action Ha Hp|te Ha Hp|te u Ha Hp Hu|Hl].
    - simplify_eq. auto.
    - unfold on_server in Ho. rewrite serve_server_outside in Ho by done.
      destruct (on_routes chunk_routes r); injection Ho as <- <-; cbn; auto.
    - rewrite finish_outside in Ho by done. simplify_eq. auto.
    - eapply on_admin_run in Ho as (? & ? & ?); [|apply version_effect]. split_and!; auto. congruence.
    - eapply api_datastore_edits in Ho as (? & ? & ?); [|done]. split_and!; eauto. congruence.
    - eapply on_admin_run in Ho as (? & ? & ?); [|apply datastores_effect]. split_and!; auto. congruence.
    - apply switch_protocols_run in Ho as (Hw & ? & ? & Hc). rewrite Hw. split_and!; [done..|congruence|].
      destruct Hc as [?|(conn & ? & ?)]; [by left|]. right. eauto 10.
    - apply api_ticket_run in Ho as (? & ? & ? & ?). split_and!; auto. }
  destruct (Hall (λ _ _, True)) as (_ & Hs & Hc & Hl); [done|done|]. split; [done|].
  destruct (authenticate r (ad_api (ss_admin (h_sess h)))) as [te|] eqn:Ha.
  - split.
    + destruct (admin_path r) as [[ds action]|] eqn:Hp; apply Hall; try done.
      * intros. by apply edits_keeps_all.
      * by intros te' ds' action' [= <-] [= <- <-].
    + destruct Hl as [?|(te' & conn & u & [= <-] & ? & ? & ?)]; [by left|right; eauto].
  - split_and!.
    + by apply Hall.
    + by apply Hc.
    + destruct Hl as [?|(te' & ? & ? & ? & _)]; [done|congruence].
    + intros Hlog. rewrite serve_outside in Hrun by done. destruct (on_routes _ _); injection Hrun as <- <-; [|done].
      split_and!; try done. by destruct (h_sess h).
Qed.

(** C20. What a request to the process may touch.  Without a valid ticket it leaves
    the store and the caches of the datastores alone and starts no session; and
    unless it asks for a ticket it changes nothing at all: it is answered with an
    empty success, or with 401 when it is a chunk upload.  With a ticket, it may
    remove objects of the one snapshot that its path and its query or form name,
    write the manifest and the client log of that snapshot, and start one session for
    the holder of the ticket.  The server of the process stays as it is. *)
Theorem api_footprint hj r h x h'
    (Hproc : H2Ticket (ss_server (h_sess h)) = None) (Hrun : serve hj r h = (x, h')) :
  ss_server (h_sess h') = ss_server (h_sess h) ∧
  match authenticate r (ad_api (ss_admin (h_sess h))) with
  | None =>
      keeps_all (h_world h) (h_world h') ∧ ss_caches (h_sess h') = ss_caches (h_sess h) ∧
      ss_launched (h_sess h') = ss_launched (h_sess h) ∧
      (login_request r = false → x = Ok tt ∧ h_sess h' = h_sess h ∧ h_world h' = h_world h ∧
         h_rw h' = if on_routes chunk_routes r then h_rw (snd (on_server refused_chunk h)) else h_rw h)
  | Some te =>
      match admin_path r with
      | None => keeps_all (h_world h) (h_world h')
      | Some (ds, action) => edits ds (about r ds action) (h_world h) (h_world h')
      end ∧
      (ss_launched (h_sess h') = ss_launched (h_sess h) ∨
       ∃ conn u, u ∈ upgrades_of te r ∧ hijackWithBuffered hj = Ok conn ∧
         ss_launched (h_sess h') = ss_launched (h_sess h) ++ [(conn, u)])
  end.
Proof. by apply (api_footprint_ok hj r). Qed.
End footprint.

(** ** A request to the process *)

Section run.
(** The packages of the examples. *)
Definition example_externals (assign : list byte → res AssignmentRequest) (sizes : list byte → gmap string Z) : externals mem :=
  mkExternals mem (λ _, []) assign sizes no_zstd one_file no_stats parse_nothing form_ok accept_tags refuse_nil (λ bs, bs) [].
Lemma example_externals_ok assign sizes : externals_ok (example_externals assign sizes).
Proof. exact refuse_effects. Qed.
Definition no_assignment (_ : list byte) : res AssignmentRequest := Err EOF.
Definition plain_externals : externals mem := example_externals no_assignment (λ _, ∅).

(** The server of the process is in no session. *)
Definition process_server (classes : storageClassPolicy) : Server := mkServer None None None ∅ 0 false ∅ classes.
Definition process_state : hstate session_state mem :=
  mkH empty_response (mkSession (process_server (mkStorageClassPolicy "" "" "")) (h_sess (admin_state [])) []) (admin_world []).
Definition delete_request : Request := admin_request "DELETE" "snapshots".

(** The ticket of the cookie is valid, and the form names the snapshot. *)
Definition served_delete : res unit * hstate session_state mem :=
  ServeHTTP plain_externals all_reports 5 (Some (Ok None)) delete_request process_state.
Lemma served_delete_ok :
  ServeHTTP plain_externals all_reports 5 (Some (Ok None)) delete_request process_state = (Ok tt, snd served_delete).
Proof. unfold served_delete. apply run_outcome. vm_compute. reflexivity. Qed.
Lemma delete_authenticated : authenticate delete_request (ad_api (ss_admin (h_sess process_state))) = Some te1.
Proof. vm_compute. reflexivity. Qed.
Lemma delete_path : admin_path delete_request = Some ("pbs", "snapshots").
Proof. vm_compute. reflexivity. Qed.
Lemma api_footprint_witness :
  edits "pbs" (about delete_request "pbs" "snapshots") (h_world process_state) (h_world (snd served_delete)) ∧
  ss_server (h_sess (snd served_delete)) = ss_server (h_sess process_state).
Proof.
  pose proof (api_footprint plain_externals all_reports 5 (example_externals_ok _ _) (Some (Ok None)) delete_request process_state
    (Ok tt) (snd served_delete) eq_refl served_delete_ok) as [Hs H].
  rewrite delete_authenticated, delete_path in H. destruct H as [H _]. split; [exact H|exact Hs].
Defined.
(** A holder of a ticket starts a backup on the connection of the request. *)
Definition backup_request : Request :=
  mkRequest "GET" "//api2/json/backup?store=pbs" (λ _, cookie_name +:+ ticket1)
    (λ k, if bool_decide (k = "store") then "pbs" else Query delete_request k) (λ _, "") 0 (Stream [] None).
Example backup_started :
  ss_launched (h_sess (snd (ServeHTTP plain_externals all_reports 5 (Some (Ok None)) backup_request process_state))) =
  [(plainConn, Backup te1 "pbs" (requested (Query delete_request) ""))].
Proof. vm_compute. reflexivity. Qed.
(** Outside a session a chunk is refused. *)
Example chunk_refused :
  rw_status (h_rw (snd (ServeHTTP plain_externals all_reports 5 None
    (mkRequest "POST" "/fixed_chunk?wid=1" (λ _, "") (λ _, "") (λ _, "") 0 (Stream [] None)) process_state))) = Some 401.
Proof. vm_compute. reflexivity. Qed.
End run.
