(* ===== verification/BackupSession.v ===== *)
(** * A whole backup session ([cmd/pmoxs3backuproxy/http2.go], [backup] and [restore])

    A session is a server of its own for any sequence of requests, and an end.  This
    file shows what any such sequence keeps: the session writes below its own
    snapshot, to [indexed/] and to [chunks/], and removes nothing; a chunk whose size
    it has noted is in the store.  A session also answers ticket requests, and with a
    ticket those of the API of the datastores: what it does beyond its own keys, it
    does to snapshots that such requests name. *)

From S2P Require Import Prelude GoStrings GoBytes Sha256 S3 Platform MemWorld Snapshot IndexFormat Invalidation GCPlan Json UsageStats Sizes Http HandlerLogic ChunkUpload ChunkFlight Session IndexWriter DynamicIndex Transfer Cache CacheInvalidation Manifest Listing Auth Admin Serve.

Local Open Scope Z_scope.

(** ** What every handler keeps *)

(** The keys a session may write. *)
Definition session_key (ds : string) (sn : Snapshot) (b k : string) : Prop :=
  b = ds ∧ (HasPrefix k (S3Prefix sn +:+ "/") = true ∨ HasPrefix k "indexed/" = true ∨ HasPrefix k "chunks/" = true).

Section invariant.
Context {W : Type} `{!ObjectStore W, !Platform W, !StoreView W, !FileView W}.
Context `{!ObjectStoreLaws W, !PlatformLaws W}.

Definition chunk_stored (w : W) (ds d : string) : Prop :=
  ∃ k, chunkObjectName d = Ok k ∧ is_Some (contents w ds !! k).

(** Some keys belong to other snapshots that the session is asked to change.  The
    world moves within them and the keys of the session, loses nothing but of the
    former, and a chunk that is there stays as it is. *)
Context (others : string → string → Prop).
Definition is_chunk (k : string) : Prop := HasPrefix k "chunks/" = true.
Definition loses_of_others : relation W := λ w w',
  ∀ b k, ¬ others b k → is_Some (contents w b !! k) → is_Some (contents w' b !! k).
Definition session_moves (ds : string) (sn : Snapshot) : relation W := λ w w',
  keeps (λ b k, ¬ session_key ds sn b k ∧ ¬ others b k) w w' ∧ loses_of_others w w' ∧ keeps_present is_chunk w w'.
#[export] Instance session_moves_preorder ds sn : PreOrder (session_moves ds sn).
Proof.
  split; [intros w; split_and!; [reflexivity|by intros b k|reflexivity]|]. intros w1 w2 w3 (? & H12 & ?) (? & H23 & ?).
  split_and!; [by transitivity w2| |by transitivity w2]. intros b k Hn Hs. by apply H23, H12.
Qed.

(** A key of the session that is no chunk. *)
Lemma own_not_chunk (S : Snapshot) k : ¬ is_chunk (S3Prefix S +:+ "/" +:+ k).
Proof. unfold is_chunk, S3Prefix. by rewrite !string_app_assoc. Qed.
Lemma indexed_not_chunk k : ¬ is_chunk ("indexed/" +:+ k).
Proof. done. Qed.
Lemma chunkObjectName_prefix d k : chunkObjectName d = Ok k → HasPrefix k "chunks/" = true.
Proof.
  unfold chunkObjectName. destruct (hex_DecodeString d) as [b [e|]]; [done|]. destruct (_ =? _)%nat; [|done].
  match goal with |- Ok (_ +:+ ?x) = _ → _ => generalize x end. intros x [= <-]. apply (HasPrefix_app "chunks/").
Qed.
Lemma in_snapshot_not_chunk S k : in_snapshot S k = true → ¬ is_chunk k.
Proof.
  unfold is_chunk, in_snapshot, S3Prefix. intros [x ->]%HasPrefix_spec. by rewrite !string_app_assoc.
Qed.

Record session_ok (ds : string) (sn : Snapshot) (w0 : W) (s : Server) (w : W) : Prop := {
  so_ds : SelectedDataStore s = Some ds;
  so_snap : sv_Snapshot s = Some sn;
  so_moves : session_moves ds sn w0 w;
  so_sizes : ∀ wid wr d n, Writers s !! wid = Some wr → DynamicChunkSizes wr !! d = Some n →
    chunk_stored w ds d ∨ is_Some (KnownChunksSizes s !! d);
}.

Lemma keeps_all_moves ds sn (w w' : W) : keeps_all w w' → session_moves ds sn w w'.
Proof.
  intros Hk. split_and!; [by apply keeps_all_keeps| |by apply keeps_all_keeps_present].
  intros b k _. by apply keeps_all_loses_nothing.
Qed.
Lemma effect_moves {A} ds sn (m : io W A) : effect keeps_all m → effect (session_moves ds sn) m.
Proof. apply effect_mono. apply keeps_all_moves. Qed.
Lemma st_effect_moves {A} ds sn (m : st W A) : st_effect keeps_all m → st_effect (session_moves ds sn) m.
Proof. intros Hm w a w' Hr. by eapply keeps_all_moves, Hm. Qed.
Lemma keeps_not_key ds sn k (w w' : W) :
  session_key ds sn ds k → ¬ is_chunk k → keeps (λ b' k', b' ≠ ds ∨ k' ≠ k) w w' → loses_nothing w w' →
  session_moves ds sn w w'.
Proof.
  intros Hk Hc Hw Hl. split_and!.
  - eapply keeps_weaken; [|exact Hw]. intros b k' [Hn _].
    destruct (decide (b = ds)) as [->|]; [|by left]. right. by intros ->.
  - intros b k' _. apply Hl.
  - intros b k' Hk' _. apply Hw. right. by intros ->.
Qed.
Lemma PutObject_moves ds sn k s n o :
  session_key ds sn ds k → ¬ is_chunk k → st_effect (session_moves ds sn) (PutObject ds k s n o).
Proof.
  intros Hk Hc w r w' Hr. eapply keeps_not_key; [done..|by eapply PutObject_effect|by eapply PutObject_present].
Qed.
Lemma CopyObject_moves ds sn d s :
  session_key ds sn (cd_Bucket d) (cd_Object d) → ¬ is_chunk (cd_Object d) → effect (session_moves ds sn) (CopyObject d s).
Proof.
  intros Hk Hc w r w' Hr. pose proof (proj1 Hk) as Hds. rewrite Hds in Hk.
  eapply keeps_not_key; [done..| |by eapply CopyObject_present]. rewrite <-Hds. by eapply CopyObject_effect.
Qed.

(** What is asked of the API. *)
Lemma edits_moves ds' S ds sn w w' :
  (∀ k, in_snapshot S k = true → others ds' k) → edits ds' S w w' → session_moves ds sn w w'.
Proof.
  intros Ho He. split_and!; intros b k.
  - intros [_ Hn]. destruct (He b k) as [|(-> & Hin & _)]; [done|]. by apply Ho in Hin.
  - intros Hn. destruct (He b k) as [->|(-> & Hin & _)]; [done|]. by apply Ho in Hin.
  - intros Hk _. destruct (He b k) as [|(_ & Hin & _)]; [done|]. by apply in_snapshot_not_chunk in Hin.
Qed.

Lemma chunk_stored_mono (w w' : W) ds d : keeps_present is_chunk w w' → chunk_stored w ds d → chunk_stored w' ds d.
Proof.
  intros Hl (k & Hk & Hs). exists k. split; [done|]. rewrite Hl; [done| |done]. by eapply chunkObjectName_prefix.
Qed.
Lemma session_ok_stable ds sn w0 : stable (session_ok ds sn w0) (session_moves ds sn).
Proof.
  intros s w w' [H1 H2 H3 H4] Hm. pose proof Hm as (_ & _ & Hl). split; [done|done|by etrans|].
  intros wid wr d n Hw Hd. destruct (H4 _ _ _ _ Hw Hd) as [Hs|]; [left|by right]. by eapply chunk_stored_mono.
Qed.

(** The session changes in two ways: a writer is replaced by one that has noted
    no more sizes than the invariant allows, or the known sizes grow. *)
Definition sizes_ok (ds : string) (s : Server) (w : W) (wr : Writer) : Prop :=
  ∀ d n, DynamicChunkSizes wr !! d = Some n → chunk_stored w ds d ∨ is_Some (KnownChunksSizes s !! d).
Lemma session_ok_writers ds sn w0 s w wid wr cur :
  session_ok ds sn w0 s w → sizes_ok ds s w wr → session_ok ds sn w0 (set_Writers (<[wid := wr]> (Writers s)) cur s) w.
Proof.
  intros [H1 H2 H3 H4] Hwr. split; [done..|]. cbn. intros wid' wr' d n Hw Hd.
  apply lookup_insert_Some in Hw as [[<- <-]|[_ Hw]]; [by eapply Hwr|by eapply H4].
Qed.
Lemma session_ok_writer ds sn w0 s w wid wr :
  session_ok ds sn w0 s w → Writers s !! wid = Some wr → sizes_ok ds s w wr.
Proof. intros [_ _ _ H4] Hw d n Hd. by eapply H4. Qed.
Lemma session_ok_known ds sn w0 s w m :
  session_ok ds sn w0 s w → session_ok ds sn w0 (set_KnownChunksSizes (m ∪ KnownChunksSizes s) s) w.
Proof.
  intros [H1 H2 H3 H4]. split; [done..|]. cbn. intros wid wr d n Hw Hd.
  destruct (H4 _ _ _ _ Hw Hd) as [|[x Hx]]; [by left|right]. rewrite lookup_union_is_Some. eauto.
Qed.
(** The invariant may be taken from any later moment on. *)
Lemma session_ok_now ds sn w0 s w : session_ok ds sn w0 s w → session_ok ds sn w s w.
Proof. intros [H1 H2 _ H4]. split; [done|done|by apply keeps_all_moves|done]. Qed.
Lemma session_ok_finished ds sn w0 s w b : session_ok ds sn w0 s w → session_ok ds sn w0 (set_Finished b s) w.
Proof. by intros [H1 H2 H3 H4]. Qed.
End invariant.

#[export] Hint Resolve session_ok_stable : go_stable.
Ltac runs_halt m ::= lazymatch m with writer _ => fail | _ => idtac end.
#[export] Hint Resolve effect_moves st_effect_moves : go_runs.

(** ** Reading keeps whatever reading the store keeps *)

Section reading.
Context {W : Type} `{!ObjectStore W, !Platform W, !StoreView W, !FileView W}.
Context `{!ObjectStoreLaws W, !PlatformLaws W}.
Context (J : Server → W → Prop) (J_reads : stable J keeps_all).
#[local] Abbreviation keeps_J m := (∀ rw s w, J s w → runs J m (mkH rw s w) (λ _ _, True)).

Lemma serve_ok b key : keeps_J (serve (W:=W) b key).
Proof. intros rw s w HJ. unfold serve, opened, send_object, copy_body. runs_go. Qed.
Lemma download_ok r : keeps_J (download (W:=W) r).
Proof. intros rw s w HJ. unfold download. runs_go; try by apply serve_ok. Qed.
Lemma chunk_download_ok r : keeps_J (chunk_download (W:=W) r).
Proof. intros rw s w HJ. unfold chunk_download. runs_go; try by apply serve_ok. Qed.
Lemma latest_ok s1 : keeps_J (latest (W:=W) s1).
Proof. intros rw s w HJ. unfold latest. runs_go. apply GetLatestSnapshot_effect. Qed.
Lemma previous_backup_time_ok r : keeps_J (previous_backup_time (W:=W) r).
Proof.
  intros rw s w HJ. unfold previous_backup_time. runs_go.
  eapply runs_keeps; [apply latest_ok|done|]. intros. runs_go.
Qed.
Lemma speedtest_ok r : keeps_J (speedtest (W:=W) r).
Proof. intros rw s w HJ. unfold speedtest. runs_go. Qed.

(** The request for the previous index also learns the sizes of its chunks. *)
Context (J_known : ∀ s w m, J s w → J (set_KnownChunksSizes (m ∪ KnownChunksSizes s) s) w).
Lemma load_sizes_ok U b key : keeps_J (load_sizes (W:=W) U b key).
Proof. intros rw s w HJ. unfold load_sizes. runs_go. apply runs_set_session; [by apply J_known|done]. Qed.
Lemma previous_ok U r : keeps_J (previous (W:=W) U r).
Proof.
  intros rw s w HJ. unfold previous. runs_go.
  eapply runs_keeps; [apply latest_ok|done|]. intros. unfold opened, send_object, copy_body. runs_go.
  eapply runs_keeps; [apply load_sizes_ok|done|]. intros. runs_go.
Qed.
End reading.

Section handlers_ok.
Context {W : Type} `{!ObjectStore W, !Platform W, !StoreView W, !FileView W}.
Context `{!ObjectStoreLaws W, !PlatformLaws W}.
Context (others : string → string → Prop) (ds : string) (sn : Snapshot) (w0 : W).
#[local] Abbreviation J := (session_ok others ds sn w0).
#[local] Abbreviation session_moves := (session_moves others).
Implicit Types (s : Server) (w : W).

#[local] Abbreviation keeps_J m := (∀ rw s w, J s w → runs J m (mkH rw s w) (λ _ _, True)).

Lemma own_key k : session_key ds sn ds (S3Prefix sn +:+ "/" +:+ k).
Proof. split; [done|]. left. rewrite <-(string_app_assoc _ "/"). apply HasPrefix_app. Qed.

(** *** Reading *)

Lemma J_reads : stable J keeps_all.
Proof. intros s w w' HJ Hk. eapply session_ok_stable; [done|]. by apply keeps_all_moves. Qed.
Lemma J_known s w m : J s w → J (set_KnownChunksSizes (m ∪ KnownChunksSizes s) s) w.
Proof. apply session_ok_known. Qed.

(** *** Writers *)

Lemma open_writer_ok wr : DynamicChunkSizes wr = ∅ → keeps_J (open_writer (W:=W) wr).
Proof.
  intros Hwr rw s w HJ. unfold open_writer. runs_go.
  apply runs_bind, runs_set_session; [|cbn [h_rw h_sess h_world]].
  - apply session_ok_writers; [done|]. intros d n. by rewrite Hwr, lookup_empty.
  - assert (J (set_Writers (<[i32 (CurWriter s + 1):=wr]> (Writers s)) (i32 (CurWriter s + 1)) s) w).
    { apply session_ok_writers; [done|]. intros d n. by rewrite Hwr, lookup_empty. }
    runs_go.
Qed.
Lemma fixed_index_ok r : keeps_J (fixed_index (W:=W) r).
Proof. intros rw s w HJ. unfold fixed_index. runs_go. by apply open_writer_ok. Qed.
Lemma dynamic_index_ok r : keeps_J (dynamic_index (W:=W) r).
Proof. intros rw s w HJ. unfold dynamic_index. runs_go. by apply open_writer_ok. Qed.

(** The writer that is read, with the sizes the invariant gives it. *)
Lemma writer_ok {A} wid rw s w (k : Writer → io (hstate Server W) A) Q :
  J s w → (∀ wr, Writers s !! wid = Some wr → sizes_ok ds s w wr → runs J (k wr) (mkH rw s w) Q) →
  runs J (writer wid ≫= k) (mkH rw s w) Q.
Proof.
  intros HJ Hk. unfold writer. runs_go. apply Hk; [done|]. by eapply session_ok_writer.
Qed.
(** The writer that is written back. *)
Lemma set_writer_ok {A} wid wr rw s w (k : io (hstate Server W) A) Q :
  J s w → sizes_ok ds s w wr →
  (J (set_writer wid wr s) w → runs J k (mkH rw (set_writer wid wr s) w) Q) →
  runs J (_ ← set_session (set_writer wid wr s); k) (mkH rw s w) Q.
Proof.
  intros HJ Hwr Hk. assert (J (set_writer wid wr s) w) by by apply session_ok_writers.
  apply runs_bind, runs_set_session; [done|]. by apply Hk.
Qed.
Lemma set_writer_last_ok wid wr rw s w :
  J s w → sizes_ok ds s w wr → runs J (set_session (set_writer wid wr s)) (mkH rw s w) (λ _ _, True).
Proof. intros HJ Hwr. apply runs_set_session; [by apply session_ok_writers|done]. Qed.

Lemma assign_one_keeps req i : keeps_J (assign_one (W:=W) req i).
Proof.
  intros rw s w HJ. unfold assign_one. destruct (hex_DecodeString _) as [b err]. apply runs_bind.
  assert (keeps_J (wr ← writer (W:=W) (Wid req);
    offset ← lift_res (from_option Ok (Panicked "index out of range") (OffsetList req !! i));
    s ← session;
    set_session (set_writer (Wid req) (set_Assignments (<[i64 offset:=b]> (Assignments wr)) wr) s))) as Hrest.
  { clear -PlatformLaws0. intros rw s w HJ. apply writer_ok; [done|]. intros wr Hw Hwr. runs_go. by apply set_writer_last_ok. }
  destruct err; runs_by ltac:(by apply Hrest).
Qed.
Lemma assign_all_keeps req : keeps_J (assign_all (W:=W) req).
Proof.
  intros rw s w HJ. unfold assign_all. apply runs_foldIO; [done|]. intros _ i [rw' s' w'] HJ'. by apply assign_one_keeps.
Qed.
Lemma read_assignment_ok U r : keeps_J (read_assignment (W:=W) U r).
Proof. intros rw s w HJ. unfold read_assignment. runs_go. Qed.
Lemma dynamic_assign_ok U r : keeps_J (dynamic_assign (W:=W) U r).
Proof.
  intros rw s w HJ. unfold dynamic_assign. runs_go.
  eapply runs_keeps; [apply read_assignment_ok|done|]. intros. runs_go. by apply assign_all_keeps.
Qed.
Lemma fixed_assign_ok U r : keeps_J (fixed_assign (W:=W) U r).
Proof.
  intros rw s w HJ. unfold fixed_assign. runs_go.
  eapply runs_keeps; [apply read_assignment_ok|done|]. intros req rw1 s1 w1 HJ1. runs_go.
  - apply writer_ok; [done|]. intros. runs_go.
  - apply runs_bind, runs_keeps; [|done|].
    + intros rw2 s2 w2 HJ2. apply runs_foldIO; [done|]. intros ok o [rw3 s3 w3] HJ3. unfold aligned_step.
      cbn [h_sess h_world] in HJ3. runs_go. apply writer_ok; [done|]. intros. runs_go.
    + intros. runs_go. by apply assign_all_keeps.
Qed.

(** *** Closing *)

Lemma reuse_fixed_keeps R wid wr rw s w :
  J s w → Writers s !! wid = Some wr → runs J (reuse_fixed (W:=W) R wid wr) (mkH rw s w) (λ _ _, True).
Proof.
  intros HJ Hw. unfold reuse_fixed. runs_go.
  - apply effect_moves. solve_effect.
  - match goal with H : J s ?w1 |- runs _ (set_session _ ≫= _) (mkH _ _ ?w1) _ =>
      pose proof (session_ok_writer _ _ _ _ _ _ _ _ H Hw) as Hwr1 end.
    apply set_writer_ok; [done|done|]. intros HJ'. runs_go. apply set_writer_ok; [done|done|]. intros. runs_go.
Qed.

(** The datastore and the snapshot that the session has selected. *)
Lemma selected s w b : J s w → SelectedDataStore s = Some b → b = ds.
Proof. intros [H1 _ _ _]. congruence. Qed.
Lemma selected_snapshot s w x : J s w → sv_Snapshot s = Some x → x = sn.
Proof. intros [_ H1 _ _]. congruence. Qed.
Lemma put_own b x k body n o w s1 :
  J s1 w → SelectedDataStore s1 = Some b → sv_Snapshot s1 = Some x →
  st_effect (session_moves ds sn) (PutObject (W:=W) b (S3Prefix x +:+ "/" +:+ k) body n o).
Proof.
  intros HJ Hb Hx. rewrite (selected _ _ _ HJ Hb), (selected_snapshot _ _ _ HJ Hx). apply PutObject_moves; [apply own_key|apply own_not_chunk].
Qed.

Lemma store_fixed_keeps wr csum out : keeps_J (store_fixed (W:=W) wr csum out).
Proof.
  intros rw s w HJ. unfold store_fixed. runs_go.
  - by eapply put_own.
  - apply CopyObject_moves; unfold indexedCopyOptions; (erewrite (selected s w a); [|done..]);
      case_bool_decide; try apply indexed_not_chunk; (split; [done|]); right; left; apply HasPrefix_app.
Qed.
Lemma finish_fixed_keeps fuel wid csum out : keeps_J (finish_fixed (W:=W) fuel wid csum out).
Proof.
  intros rw s w HJ. unfold finish_fixed. runs_go. apply writer_ok; [done|]. intros. runs_go.
  by apply store_fixed_keeps.
Qed.
Lemma fixed_close_ok R fuel r : keeps_J (fixed_close (W:=W) R fuel r).
Proof.
  intros rw s w HJ. unfold fixed_close. runs_go. apply writer_ok; [done|]. intros wr Hw Hwr.
  destruct (negb _).
  - apply runs_bind. eapply runs_mono; [by apply reuse_fixed_keeps|]. intros o [rw1 s1 w1] HJ1 _. cbn in HJ1.
    runs_go. by apply finish_fixed_keeps.
  - runs_go. by apply finish_fixed_keeps.
Qed.
Lemma dynamic_close_keeps r : keeps_J (dynamic_close (W:=W) r).
Proof.
  intros rw s w HJ. unfold dynamic_close. runs_go. apply writer_ok; [done|]. intros wr Hw Hwr.
  apply set_writer_ok; [done|..].
  - intros d n. cbn. rewrite lookup_union_Some_raw. intros [Hk|[_ Hd]]; [right; eauto|by eapply Hwr].
  - intros HJ'. runs_go.
    + by eapply put_own.
    + rewrite !string_app_assoc. by eapply put_own.
Qed.

(** *** Uploads *)

Lemma blob_upload_ok r : keeps_J (blob_upload (W:=W) r).
Proof. intros rw s w HJ. unfold blob_upload. runs_go. by eapply put_own. Qed.

Lemma storeChunk_moves q body sc :
  chunkObjectName (cr_Digest q) = Ok (cr_ObjectName q) →
  effect (session_moves ds sn) (storeChunk (W:=W) ds q body sc).
Proof.
  intros Hq w r w' Hr. split_and!; [| |by eapply storeChunk_keeps_present].
  - eapply keeps_weaken; [|by eapply storeChunk_effect]. intros b k [Hn _].
    destruct (decide (b = ds)) as [->|]; [|by left]. right. intros ->. apply Hn.
    split; [done|]. right; right. by eapply chunkObjectName_prefix.
  - assert (effect loses_nothing (storeChunk (W:=W) ds q body sc)) as He; [|intros b k _; by eapply He].
    unfold storeChunk, storeBufferedChunk, storeStreamedChunk. solve_effect.
Qed.
Lemma note_chunk_ok dynamic q rw s w :
  J s w → chunk_stored w ds (cr_Digest q) → runs J (note_chunk (W:=W) dynamic q) (mkH rw s w) (λ _ _, True).
Proof.
  intros HJ Hst. unfold note_chunk. apply writer_ok; [done|]. intros wr Hw Hwr. runs_go.
  apply set_writer_last_ok; [done|].
  set (wr1 := if Chunksize wr =? 0 then _ else _).
  assert (DynamicChunkSizes wr1 = DynamicChunkSizes wr) as Hd1 by (unfold wr1; by destruct (_ =? _)).
  intros d n. destruct dynamic; cbn; rewrite Hd1; [|by apply Hwr].
  intros [[<- _]|[_ Hd]]%lookup_insert_Some; [by left|by eapply Hwr].
Qed.
Lemma chunk_upload_ok r : keeps_J (chunk_upload (W:=W) First r).
Proof.
  intros rw s w HJ. unfold chunk_upload. cbn [Do]. runs_go;
    match goal with Hq : parseChunkRequest _ = Ok _, Hs : SelectedDataStore s = Some _ |- _ =>
      apply (selected _ _ _ HJ) in Hs as ->;
      apply parseChunkRequest_Ok in Hq as (key & enc & size & wid & Hkey & _ & Henc & _ & _ & _ & _ & _ & ->) end.
  - by apply storeChunk_moves.
  - eapply runs_mono; [apply note_chunk_ok; [done|]|].
    + match goal with H : storeChunk _ _ _ _ _ = _ |- _ =>
        apply storeChunk_ok in H; [|done]; apply stored_present in H end. by eexists.
    + intros _ [rw2 s2 w2] HJ2 _. cbn in HJ2. runs_go.
Qed.

(** *** Any request *)

Lemma serve_server_ok X fuel r : keeps_J (serve_server (W:=W) X fuel r).
Proof.
  pose proof (previous_backup_time_ok J J_reads) as Htime. pose proof (previous_ok J J_reads J_known) as Hprevious.
  pose proof (speedtest_ok (W:=W) J) as Hspeed. pose proof (download_ok J J_reads) as Hdownload.
  pose proof (chunk_download_ok J J_reads) as Hchunk. intros rw s w HJ. unfold serve_server.
  repeat match goal with
  | |- runs _ (?m ≫= _) _ _ => apply runs_bind, (runs_keeps _ m); [|done|intros [] ????]
  end; auto using fixed_index_ok, dynamic_index_ok, fixed_close_ok, dynamic_close_keeps, dynamic_assign_ok,
    fixed_assign_ok, chunk_upload_ok, blob_upload_ok.
Qed.
End handlers_ok.

(** ** The session from its first to its last request ([http2.go], [backup]) *)

Section session.
Context {W : Type} `{!ObjectStore W, !Platform W}.
Context (X : externals W) (cfg : reports) (fuel : nat).

(** The server a session is served with: nobody is logged in to it, and its endpoint
    and the options of its connections are not set.  The connections and the caches
    are those of the process. *)
Definition new_session (C : TicketEntry) (ds : string) (S : Snapshot) : Server :=
  mkServer (Some C) (Some ds) (Some S) ∅ 0 false ∅ (mkStorageClassPolicy "" "" "").
Definition session_admin (g : admin) : admin :=
  mkAdmin (mkApi ∅ (connectionList (ad_api g)) (bucketListCache (ad_api g)) "" false 0 "") (ad_inv g).
Definition start (C : TicketEntry) (ds : string) (S : Snapshot) (g : admin) : session_state :=
  mkSession (new_session C ds S) (session_admin g) [].
(** The process goes on with what the session has left of what they share. *)
Definition rejoin (g a : admin) : admin :=
  mkAdmin (set_buckets (bucketListCache (ad_api a)) (set_connections (connectionList (ad_api a)) (ad_api g))) (ad_inv a).

(** [ServeConn]: each request has a response of its own, which offers no takeover; a
    handler that panics ends its stream, not the session. *)
Definition serve_request (st : session_state * W) (r : Request) : session_state * W :=
  let h' := snd (ServeHTTP X cfg fuel None r (mkH empty_response st.1 st.2)) in
  (h_sess h', h_world h').
Definition ServeConn (requests : list Request) (st : session_state * W) : session_state * W :=
  foldl serve_request st requests.

Definition set_Datastore (ds : string) (s : Snapshot) : Snapshot :=
  mkSnapshot (BackupID s) (BackupTime s) (BackupType s) (Files s) (Protected s) (Comment s) ds (corrupted s) (sn_Size s).

(** What follows the last request: an incomplete backup is removed. *)
Definition end_backup (ds : string) (S : Snapshot) (st : session_state) : io W session_state :=
  _ ← (if negb (Finished (ss_server st)) then _ ← try (Delete (set_Datastore ds S)); mret tt else mret tt);
  c ← publishDataStoreCacheInvalidation ds (ss_caches st);
  mret (set_caches_of c st).

(** A backup session, under the lock of the datastore: the requests that arrive,
    then the end. *)
Definition backup_session (C : TicketEntry) (ds : string) (S : Snapshot) (requests : list Request)
    (g : admin) : io W admin := λ w,
  let '(st, w) := ServeConn requests (start C ds S g, w) in
  (st ← end_backup ds S st; mret (rejoin g (ss_admin st))) w.

(** A restore session has the same handlers and no end of its own. *)
Definition restore_session (C : TicketEntry) (ds : string) (S : Snapshot) (requests : list Request)
    (g : admin) : st W admin := λ w,
  let '(st, w) := ServeConn requests (start C ds S g, w) in
  (rejoin g (ss_admin st), w).

Lemma ServeConn_app pre post st : ServeConn (pre ++ post) st = ServeConn post (ServeConn pre st).
Proof. apply foldl_app. Qed.
Lemma ServeConn_snoc rs r st : ServeConn (rs ++ [r]) st = serve_request (ServeConn rs st) r.
Proof. apply ServeConn_app. Qed.
Lemma ServeConn_split pre r post st : ServeConn (pre ++ r :: post) st = ServeConn post (serve_request (ServeConn pre st) r).
Proof. apply ServeConn_app. Qed.
End session.

(** ** The tickets of a session *)

Section tickets.
Context {W : Type} `{!ObjectStore W, !Platform W}.
Context (zstd_NewReader : list byte → Z → res stream)
        (Unmarshal_manifest : list byte → res (list manifestFile))
        (Unmarshal_stats : list byte → res UsageStats)
        (NewTags : gmap string string → option (gmap string string))
        (PutObjectTagging_nil : string → string → io W unit) (Marshal_raw : list byte → list byte).
Context (cfg : reports) (backups_class : string) (ticks : list (DataStoreUsage * bool)).
(** Only a request for a ticket makes one: the rest of the API leaves the tickets of
    its server as they are. *)
Context (a : gmap string TicketEntry).
#[local] Abbreviation J := (λ (s : admin) (_ : W), Auth (ad_api s) = a).
#[local] Abbreviation keeps_J m := (∀ rw s w, J s w → runs J m (mkH rw s w) (λ _ _, True)).
Lemma tickets_stable : stable J (λ _ _, True).
Proof. by intros s w w' HJ _. Qed.
Lemma any_effect {A} (m : io W A) : effect (λ _ _, True) m.
Proof. done. Qed.
Lemma any_st_effect {A} (m : st W A) : st_effect (λ _ _, True) m.
Proof. done. Qed.
#[local] Hint Resolve tickets_stable : go_stable.
#[local] Hint Resolve any_effect any_st_effect : go_runs.

Lemma on_caches_tickets {A} (m : io (proxyCaches * W) A) : keeps_J (on_caches m).
Proof. intros rw s w HJ r h'. unfold on_caches. destruct (m _) as [x pw]. by intros [= <- <-]. Qed.
Lemma on_invalidations_tickets (m : cacheInvalidations → io W cacheInvalidations) : keeps_J (on_invalidations m).
Proof. intros rw s w HJ. unfold on_invalidations. runs_go. by apply runs_set_session. Qed.
Ltac tickets_step :=
  cbn [h_rw h_sess h_world] in *;
  lazymatch goal with
  | |- runs _ (on_caches _) _ _ => eapply runs_keeps; [apply on_caches_tickets|eassumption|intros ? ? ? ? ?]
  | |- runs _ (on_invalidations _) _ _ => eapply runs_keeps; [apply on_invalidations_tickets|eassumption|intros ? ? ? ? ?]
  | |- runs _ (set_session _) _ _ => apply runs_set_session; [assumption|]
  | |- runs _ (set_session _ ≫= _) _ _ => apply runs_bind, runs_set_session; [assumption|]
  | |- runs _ (_ ≫= _) _ _ => apply runs_bind
  | |- _ => runs_step
  end.
Ltac tickets_go := repeat tickets_step; try (solve [eauto 4 with go_runs]).

Lemma datastore_action_tickets te ds action r :
  keeps_J (datastore_action (W:=W) zstd_NewReader Unmarshal_manifest Unmarshal_stats NewTags PutObjectTagging_nil Marshal_raw
             cfg backups_class ticks te ds action r).
Proof.
  intros rw s w HJ. unfold datastore_action. cbv zeta. unfold sync.
  repeat match goal with |- runs _ (?m ≫= _) _ _ => apply runs_bind, (runs_keeps _ m); [|eassumption|intros [] ? ? ? ?] end;
    [apply on_invalidations_tickets|intros ? ? ? ?..|];
    unfold when, notes_get, notes_put, files_get, protected_get, protected_put, s3stats, status,
      readDataStoreUsageForStatus, listed_count, namespaces, groups, upload_log, snapshot_delete, snapshots_get, listing,
      publish, answer, refuse, http_Error, not_implemented; cbv zeta; tickets_go.
Qed.
Lemma datastores_tickets te r : keeps_J (datastores (W:=W) te r).
Proof.
  intros rw s w HJ. unfold datastores, when, answer, refuse. cbv zeta. tickets_go.
  eapply (runs_mono _ _ _ (λ _ _, True)); [|intros [buckets b] [rw' s' w'] HJ' _; tickets_go].
  intros r0 h0. destruct (Get_with _ _ _ _ _ _) as [[x c] h1]. by intros [= <- <-].
Qed.
Lemma api_tickets te r :
  keeps_J (version (W:=W) r) ∧
  keeps_J (datastore_request (W:=W) zstd_NewReader Unmarshal_manifest Unmarshal_stats NewTags PutObjectTagging_nil Marshal_raw
             cfg backups_class ticks te r) ∧ keeps_J (datastores (W:=W) te r).
Proof.
  split_and!; [|intros rw s w HJ; unfold datastore_request..|apply datastores_tickets].
  - intros rw s w HJ. unfold version, when, answer. tickets_go.
  - destruct (admin_path r) as [[ds action]|]; [by apply datastore_action_tickets|by apply runs_ret].
Qed.
End tickets.

Section any_requests.
Context {W : Type} `{!ObjectStore W, !Platform W, !StoreView W, !FileView W}.
Context `{!ObjectStoreLaws W, !PlatformLaws W}.
Context (X : externals W) (cfg : reports) (fuel : nat).
#[local] Abbreviation serve_next := (serve_request X cfg fuel).
#[local] Abbreviation serve_all := (ServeConn X cfg fuel).
Implicit Types (st : session_state * W).
#[local] Abbreviation tickets st := (Auth (ad_api (ss_admin st.1))).

Lemma on_admin_tickets {A} (m : io (hstate admin W) A) a h x h' :
  (∀ rw s w, Auth (ad_api s) = a → runs (λ s _, Auth (ad_api s) = a) m (mkH rw s w) (λ _ _, True)) →
  on_admin m h = (x, h') → Auth (ad_api (ss_admin (h_sess h))) = a → Auth (ad_api (ss_admin (h_sess h'))) = a.
Proof.
  intros Hm. unfold on_admin. destruct (m _) as [x0 h0] eqn:E. intros [= _ <-] Ha. by apply (Hm _ _ _ Ha) in E as [? _].
Qed.
Lemma finish_backup_admin r h x h' : finish_backup (W:=W) r h = (x, h') → ad_api (ss_admin (h_sess h')) = ad_api (ss_admin (h_sess h)).
Proof.
  unfold finish_backup. cbv [mbind io_bind session set_session]. destruct (_ && _); [|by intros [= _ <-]].
  destruct (SelectedDataStore _); [|by intros [= _ <-]]. unfold world. cbn.
  destruct (publishDataStoreCacheInvalidation _ _ _) as [[c|e|p] w]; by intros [= _ <-].
Qed.
Lemma serve_request_tickets st r : login_request r = false → tickets (serve_next st r) = tickets st.
Proof.
  intros Hl. unfold serve_request. set (h := mkH empty_response st.1 st.2).
  pose proof (ServeHTTP_cases X cfg fuel None r h) as Hcase. destruct (ServeHTTP X cfg fuel None r h) as [x h'] eqn:E. cbn.
  pose proof (λ te, api_tickets (W:=W) (zstd_NewReader X) (Unmarshal_manifest X) (Unmarshal_stats X) (NewTags X)
    (PutObjectTagging_nil X) (Marshal_raw X) cfg (sc_Backups (StorageClasses (ss_server st.1))) (usage_ticks X) (tickets st)
    te r) as Hapi.
  clear E. remember (x, h') as o eqn:Ho. destruct Hcase as [| | |te Ha|te ds action Ha Hp|te Ha Hp|te u Ha Hp Hu|Hl'].
  - by injection Ho as _ <-.
  - unfold on_server in Ho. destruct (serve_server _ _ _ _) as [? ?]. by injection Ho as _ <-.
  - apply finish_backup_admin in Ho. by rewrite Ho.
  - eapply on_admin_tickets; [|exact Ho|done]. by apply (Hapi te).
  - unfold api_datastore in Ho. erewrite io_bind_Ok in Ho by reflexivity.
    eapply on_admin_tickets; [|exact Ho|done]. by apply (Hapi te).
  - eapply on_admin_tickets; [|exact Ho|done]. by apply (Hapi te).
  - apply switch_protocols_run in Ho as (_ & _ & -> & _). done.
  - congruence.
Qed.
Lemma ServeConn_tickets rs st : existsb login_request rs = false → tickets (serve_all rs st) = tickets st.
Proof.
  revert st. induction rs as [|r rs IH]; intros st; [done|]. cbn [existsb]. intros [Hr Hrs]%orb_false_iff.
  unfold ServeConn. cbn [foldl]. etrans; [by apply IH|]. by apply serve_request_tickets.
Qed.

Lemma publish_effect ds c : effect (W:=W) keeps_all (publishDataStoreCacheInvalidation ds c).
Proof. unfold publishDataStoreCacheInvalidation. pose proof (PublishCacheInvalidation_effect (W:=W)). solve_effect. Qed.
Lemma finish_keeps (J : Server → W → Prop) r h x h' :
  stable J keeps_all → (∀ s w, J s w → J (set_Finished true s) w) → finish_backup r h = (x, h') →
  J (ss_server (h_sess h)) (h_world h) → J (ss_server (h_sess h')) (h_world h').
Proof.
  intros Hreads Hfin Hrun HJ. unfold finish_backup in Hrun. cbv [mbind io_bind session set_session] in Hrun.
  destruct (_ && _); [|by injection Hrun as _ <-]. apply Hfin in HJ.
  destruct (SelectedDataStore _); [|by injection Hrun as _ <-]. unfold world in Hrun. cbn in Hrun.
  destruct (publishDataStoreCacheInvalidation _ _ _) as [y w] eqn:Ep. apply publish_effect in Ep.
  destruct y; injection Hrun as _ <-; cbn; by eapply Hreads.
Qed.

(** What the handlers keep, and reading the store and what is asked of the API do
    not break, a request keeps. *)
Context (HX : externals_ok X).
Lemma serve_request_keeps (J : Server → W → Prop) r st :
  stable J keeps_all → (∀ s w, J s w → J (set_Finished true s) w) →
  (∀ rw s w, J s w → runs J (serve_server (W:=W) X fuel r) (mkH rw s w) (λ _ _, True)) →
  (∀ te ds action, authenticate r (ad_api (ss_admin st.1)) = Some te → admin_path r = Some (ds, action) →
     stable J (edits ds (about r ds action))) →
  J (ss_server st.1) st.2 → J (ss_server (serve_next st r).1) (serve_next st r).2.
Proof.
  intros Hreads Hfin Hserve Hedits HJ. unfold serve_request. set (h := mkH empty_response st.1 st.2).
  pose proof (ServeHTTP_cases X cfg fuel None r h) as Hcase. destruct (ServeHTTP X cfg fuel None r h) as [x h'] eqn:E. cbn.
  clear E. remember (x, h') as o eqn:Ho. destruct Hcase as [| | |te Ha|te ds action Ha Hp|te Ha Hp|te u Ha Hp Hu|Hl'].
  - by injection Ho as _ <-.
  - unfold on_server in Ho. destruct (serve_server _ _ _ _) as [x1 h1] eqn:E1. injection Ho as _ <-. cbn.
    by apply (Hserve _ _ _ HJ) in E1 as [? _].
  - by eapply finish_keeps.
  - eapply on_admin_run in Ho as (Hk & -> & _); [by eapply Hreads|apply version_effect].
  - destruct (api_datastore_edits X cfg HX te r ds action h x h' Hp Ho) as (Hk & -> & _). by eapply Hedits.
  - eapply on_admin_run in Ho as (Hk & -> & _); [by eapply Hreads|apply datastores_effect].
  - apply switch_protocols_run in Ho as (-> & -> & _). done.
  - apply api_ticket_run in Ho as (Hk & -> & _). by eapply Hreads.
Qed.

(** Any sequence of requests, of which the authenticated ones for a datastore may
    do what such a request may. *)
Lemma ServeConn_keeps_at (J : Server → W → Prop) rs st :
  stable J keeps_all → (∀ s w, J s w → J (set_Finished true s) w) →
  (∀ r rw s w, r ∈ rs → J s w → runs J (serve_server (W:=W) X fuel r) (mkH rw s w) (λ _ _, True)) →
  (∀ pre r post te ds action, rs = pre ++ r :: post → authenticate r (ad_api (ss_admin (serve_all pre st).1)) = Some te →
     admin_path r = Some (ds, action) → stable J (edits ds (about r ds action))) →
  J (ss_server st.1) st.2 → J (ss_server (serve_all rs st).1) (serve_all rs st).2.
Proof.
  intros Hreads Hfin. induction rs as [|r rs IH] using rev_ind; intros Hserve Hedits HJ; [done|].
  rewrite ServeConn_snoc. apply serve_request_keeps; [done|done|..].
  - intros. apply Hserve; [set_solver|done].
  - intros te ds action Ha Hp. eapply (Hedits rs r []); [done|exact Ha|exact Hp].
  - apply IH; [intros; apply Hserve; [set_solver|done]| |done]. intros pre r' post te ds action ->. 
    apply (Hedits pre r' (post ++ [r])). by rewrite <-app_assoc.
Qed.

(** The requests of a session that may come with one of its own tickets: before them
    a ticket was asked for.  And the keys of the snapshots they name. *)
Definition ticketed (rs : list Request) (r : Request) : Prop :=
  ∃ pre post, rs = pre ++ r :: post ∧ existsb login_request pre = true.
Definition asked (rs : list Request) (b k : string) : Prop :=
  ∃ r ds action, ticketed rs r ∧ admin_path r = Some (ds, action) ∧ b = ds ∧ in_snapshot (about r ds action) k = true.
Lemma asked_nothing rs b k : existsb login_request rs = false → ¬ asked rs b k.
Proof.
  intros Hn (r & ds & action & (pre & post & -> & Hl) & _). rewrite existsb_app, Hl in Hn. done.
Qed.
Lemma authenticated_ticketed rs st pre r post te :
  tickets st = ∅ → rs = pre ++ r :: post →
  authenticate r (ad_api (ss_admin (serve_all pre st).1)) = Some te → ticketed rs r.
Proof.
  intros Hst Hrs Ha. exists pre, post. split; [done|]. apply not_false_iff_true. intros Hl.
  unfold authenticate in Ha. rewrite ServeConn_tickets, Hst in Ha by done.
  destruct (cookie_ticket _); [|done]. cbn in Ha. by rewrite lookup_empty in Ha.
Qed.

Lemma serve_server_J others ds sn w0 r rw s w :
  session_ok others ds sn w0 s w → runs (session_ok others ds sn w0) (serve_server (W:=W) X fuel r) (mkH rw s w) (λ _ _, True).
Proof. intros HJ. by apply serve_server_ok. Qed.
Lemma edits_J others ds sn w0 ds' S :
  (∀ k, in_snapshot S k = true → others ds' k) → stable (session_ok (W:=W) others ds sn w0) (edits ds' S).
Proof. intros Ho s w w' HJ He. eapply session_ok_stable; [exact HJ|]. by apply (edits_moves others ds' S). Qed.
(** From the start of a session. *)
Lemma ServeConn_ok ds sn w0 rs st :
  tickets st = ∅ → session_ok (asked rs) ds sn w0 (ss_server st.1) st.2 →
  session_ok (asked rs) ds sn w0 (ss_server (serve_all rs st).1) (serve_all rs st).2.
Proof.
  intros Ht. apply ServeConn_keeps_at; [apply J_reads|intros s w; apply session_ok_finished|..].
  - intros. by apply serve_server_J.
  - intros pre r post te ds' action Hrs Ha Hp. apply edits_J. intros k Hk. exists r, ds', action.
    split_and!; [|done..]. by eapply authenticated_ticketed.
Qed.
(** From any moment of it, when it does not matter what is asked of the API. *)
Lemma ServeConn_chunks ds sn w0 rs st :
  session_ok (λ _ _, True) ds sn w0 (ss_server st.1) st.2 →
  session_ok (λ _ _, True) ds sn w0 (ss_server (serve_all rs st).1) (serve_all rs st).2.
Proof.
  apply ServeConn_keeps_at; [apply J_reads|intros s w; apply session_ok_finished|intros; by apply serve_server_J|].
  intros. by apply edits_J.
Qed.
Lemma new_session_ok others C ds sn (w : W) : session_ok others ds sn w (new_session C ds sn) w.
Proof. split; [done|done|by apply keeps_all_moves|]. intros wid wr d n. cbn. by rewrite lookup_empty. Qed.
Lemma session_ok_any others ds sn (w0 : W) s w : session_ok others ds sn w0 s w → session_ok (λ _ _, True) ds sn w0 s w.
Proof.
  intros [H1 H2 (Hk & Hl & Hc) H4]. split; [done|done| |done]. split_and!; [|by intros b k []|done].
  intros b k [_ Hn]. by destruct Hn.
Qed.

(** ** The theorems *)

Lemma in_snapshot_Datastore ds S : in_snapshot (set_Datastore ds S) = in_snapshot S.
Proof. done. Qed.

Lemma backup_session_run C ds S rs g w r w' :
  backup_session X cfg fuel C ds S rs g w = (r, w') →
  let '(st, w1) := serve_all rs (start C ds S g, w) in
  session_ok (asked rs) ds S w (ss_server st) w1 ∧
  (Finished (ss_server st) = true → keeps_all w1 w') ∧
  shrinks (λ b k, b = ds ∧ in_snapshot S k = true) w1 w' ∧
  (Finished (ss_server st) = false → fst (Delete (set_Datastore ds S) w1) = Ok tt →
     ∀ k, in_snapshot S k = true → contents w' ds !! k = None).
Proof.
  intros Hrun. unfold backup_session in Hrun.
  pose proof (ServeConn_ok ds S w rs (start C ds S g, w) eq_refl (new_session_ok _ C ds S w)) as HJ.
  destruct (serve_all _ _) as [st w1]. cbn [fst snd] in HJ. split; [done|].
  assert (∃ r0, end_backup ds S st w1 = (r0, w')) as [r0 He].
  { apply io_bind_inv in Hrun as [(a & w2 & Ha & [= _ <-])|[(e & He & _)|(p & Hp & _)]]; eauto. }
  clear Hrun. unfold end_backup in He.
  assert (∀ w2, (c ← publishDataStoreCacheInvalidation ds (ss_caches st); mret (set_caches_of c st)) w2 = (r0, w') → keeps_all w2 w') as Hpub.
  { intros w2 Hp. apply io_bind_inv in Hp as [(c & w3 & Hc & [= _ <-])|[(e & Hc & _)|(p & Hc & _)]]; by eapply publish_effect. }
  destruct (Finished (ss_server st)) eqn:Hf; cbn [negb] in He.
  - apply Hpub in He. split_and!; [done|by apply keeps_all_shrinks|done].
  - destruct (Delete (set_Datastore ds S) w1) as [x w2] eqn:Hd.
    assert (keeps_all w2 w') as Hk.
    { unfold try in He. cbv [mbind io_bind] in He. rewrite Hd in He.
      destruct x; cbn in He; [by apply Hpub..|]. by injection He as _ <-. }
    apply Delete_ok in Hd as (Hs & Hok & _). rewrite in_snapshot_Datastore in *. cbn [Datastore set_Datastore] in *.
    split_and!; [done|..].
    + etrans; [exact Hs|by apply keeps_all_shrinks].
    + intros _ Hx k Hk2. rewrite (keeps_all_lookup _ _ _ _ Hk). by apply Hok.
Qed.

(** The removal of a snapshot reaches no chunk. *)
Lemma chunks_outlive ds S (w w1 w' : W) :
  keeps_present is_chunk w w1 → shrinks (λ b k, b = ds ∧ in_snapshot S k = true) w1 w' → keeps_present is_chunk w w'.
Proof.
  intros Hc Hs b k Hk Hx. rewrite <-(Hc b k Hk Hx). destruct (Hs b k) as [?|[[_ Hin] _]]; [done|].
  by apply in_snapshot_not_chunk in Hin.
Qed.

(** A restore removes nothing of its own accord, and keeps to the keys of its session. *)
Lemma restore_session_footprint C ds S rs g (w : W) g' w' :
  restore_session X cfg fuel C ds S rs g w = (g', w') → session_moves (asked rs) ds S w w'.
Proof.
  unfold restore_session. destruct (serve_all rs _) as [st w1] eqn:E. intros [= _ <-].
  pose proof (ServeConn_ok ds S w rs (start C ds S g, w) eq_refl (new_session_ok _ C ds S w)) as H.
  rewrite E in H. apply H.
Qed.

(** C8. Whatever a client requests, in whatever order and whatever fails, a backup
    session writes only below its own snapshot and under [indexed/] and [chunks/] of
    its datastore, and removes nothing outside its own snapshot, or nothing at all
    when it was finished - but for what its client asks of the API of the datastores
    after asking for a ticket within the session: that may also change the snapshots
    which these requests name.  A chunk that is there is never overwritten or
    removed. *)
Theorem backup_session_footprint C ds S rs g (w : W) r w'
    (Hrun : backup_session X cfg fuel C ds S rs g w = (r, w')) :
  keeps (λ b k, ¬ session_key ds S b k ∧ ¬ asked rs b k) w w' ∧
  (∀ b k, b ≠ ds ∨ in_snapshot S k = false → ¬ asked rs b k →
     is_Some (contents w b !! k) → is_Some (contents w' b !! k)) ∧
  keeps_present is_chunk w w' ∧
  (Finished (ss_server (serve_all rs (start C ds S g, w)).1) = true →
     ∀ b k, ¬ asked rs b k → is_Some (contents w b !! k) → is_Some (contents w' b !! k)) ∧
  (existsb login_request rs = false → ∀ b k, ¬ asked rs b k).
Proof.
  apply backup_session_run in Hrun. destruct (serve_all _ _) as [st w1]. cbn [fst].
  destruct Hrun as ([_ _ (Hk & Hl & Hc) _] & Hfin & Hs & _). split_and!.
  - etrans; [exact Hk|]. intros b k [Hn _]. destruct (Hs b k) as [?|[[-> Hin] _]]; [done|].
    destruct Hn. split; [done|]. by left.
  - intros b k Hn Hno Hsome. apply Hl in Hsome; [|done]. destruct (Hs b k) as [->|[[-> Hin] _]]; [done|].
    destruct Hn; congruence.
  - by eapply chunks_outlive.
  - intros Hf b k Hn Hsome. apply Hfin, keeps_all_loses_nothing in Hf. by apply Hf, Hl.
  - intros Hn b k. by apply asked_nothing.
Qed.

(** C14. A session that ends without being finished leaves nothing of its snapshot,
    when the removal reports no error: neither what it stored nor what was there. *)
Theorem incomplete_session_leaves_nothing C ds S rs g (w : W) r w' (st : session_state) (w1 : W)
    (Hrun : backup_session X cfg fuel C ds S rs g w = (r, w'))
    (Hconn : serve_all rs (start C ds S g, w) = (st, w1))
    (Hfin : Finished (ss_server st) = false)
    (Hdel : fst (Delete (set_Datastore ds S) w1) = Ok tt) :
  (∀ k, in_snapshot S k = true → contents w' ds !! k = None) ∧
  (∀ k, HasPrefix k "backups/" = false → is_Some (contents w1 ds !! k) → is_Some (contents w' ds !! k)).
Proof.
  apply backup_session_run in Hrun. rewrite Hconn in Hrun. destruct Hrun as (_ & _ & Hs & Hd). split.
  - by apply Hd.
  - intros k Hk Hsome. destruct (Hs ds k) as [->|[[_ Hin] _]]; [done|].
    unfold in_snapshot, S3Prefix in Hin. rewrite !string_app_assoc in Hin.
    apply HasPrefix_spec in Hin as [x ->]. rewrite !string_app_assoc in Hk.
    by rewrite HasPrefix_app in Hk.
Qed.
End any_requests.

(** ** A concrete session *)

Definition session_requests : list Request :=
  [request "POST" "/dynamic_index?archive-name=root.pxar.didx" [("archive-name", "root.pxar.didx")] "";
   upload 1 "10"; upload 2 "20"; request "PUT" "/dynamic_index" [] "{...}"].
Definition session_assignment (_ : list byte) : res AssignmentRequest :=
  Ok (mkAssignmentRequest [hex_EncodeToString (digest_of 1); hex_EncodeToString (digest_of 2)] [0; 10] 1).
Definition session_close : Request := request "POST" "/dynamic_close?wid=1" [("wid", "1"); ("csum", dynamic_csum)] "".
Definition session_externals : externals mem := example_externals session_assignment (λ _, ∅).
(** The process: a user has logged in. *)
Definition session_process : admin := h_sess (admin_state []).
#[local] Abbreviation run_backup := (backup_session session_externals all_reports 5 session_ticket "pbs" session_snapshot).
#[local] Abbreviation run_requests := (ServeConn session_externals all_reports 5).
Definition session_begin : session_state := start session_ticket "pbs" session_snapshot session_process.

(** Broken off before [/finish]. *)
Definition aborted : res admin * mem := run_backup (session_requests ++ [session_close]) session_process session_world.
Definition aborted_served : session_state * mem :=
  run_requests (session_requests ++ [session_close]) (session_begin, session_world).

Lemma aborted_run :
  run_backup (session_requests ++ [session_close]) session_process session_world = (fst aborted, snd aborted).
Proof. unfold aborted. apply surjective_pairing. Qed.
Lemma aborted_served_run :
  run_requests (session_requests ++ [session_close]) (start session_ticket "pbs" session_snapshot session_process, session_world) =
  (aborted_served.1, aborted_served.2).
Proof. unfold aborted_served, session_begin. apply surjective_pairing. Qed.
Lemma incomplete_session_leaves_nothing_witness :
  (∀ k, in_snapshot session_snapshot k = true → contents (snd aborted) "pbs" !! k = None) ∧
  (∀ k, HasPrefix k "backups/" = false → is_Some (contents aborted_served.2 "pbs" !! k) →
     is_Some (contents (snd aborted) "pbs" !! k)).
Proof.
  apply (incomplete_session_leaves_nothing session_externals all_reports 5 (example_externals_ok _ _) session_ticket "pbs"
           session_snapshot (session_requests ++ [session_close]) session_process session_world (fst aborted) (snd aborted)
           aborted_served.1 aborted_served.2).
  - exact aborted_run.
  - exact aborted_served_run.
  - vm_compute. reflexivity.
  - vm_compute. reflexivity.
Defined.
(** The session did store something, and its removal leaves the chunks. *)
Example aborted_keys :
  merge_sort String.le (map_to_list (contents aborted_served.2 "pbs")).*1 =
    ["backups/100|1000|host/root.pxar.didx"; "backups/100|1000|host/root.pxar.didx.csjson";
     "chunks/01/01/" +:+ drop_string 4 (hex_EncodeToString (digest_of 1));
     "chunks/02/02/" +:+ drop_string 4 (hex_EncodeToString (digest_of 2))] ∧
  length (map_to_list (contents (snd aborted) "pbs")) = 2%nat.
Proof. split; vm_compute; reflexivity. Qed.

(** The client of a session asks it for a ticket, for a user who has a connection and
    with any password, and deletes another snapshot with it. *)
Definition other_world : mem :=
  Mem {[ "pbs" := {[ "backups/200|1000|host/index.json.blob" := mkObj [] ∅ ∅ 0; "chunks/aa" := mkObj [] ∅ ∅ 0 ]} ]} ∅
    1000000000000 0 [].
Definition session_login : session_state * mem := run_requests [ticket_request "guessed"] (session_begin, other_world).
Definition session_cookie : string :=
  cookie_name +:+ default "" (head (map_to_list (Auth (ad_api (ss_admin session_login.1)))).*1).
Definition delete_other : Request :=
  mkRequest "DELETE" "/api2/json/admin/datastore/pbs/snapshots" (λ _, session_cookie) (λ _, "")
    (query_of [("backup-id", "200"); ("backup-time", "1000"); ("backup-type", "host")]) 0 (Stream [] None).
Definition reaching_requests : list Request :=
  [ticket_request "guessed"; delete_other; request "POST" "/finish" [] ""].
Definition reaching : res admin * mem := run_backup reaching_requests session_process other_world.
Lemma reaching_run : run_backup reaching_requests session_process other_world = (fst reaching, snd reaching).
Proof. unfold reaching. apply surjective_pairing. Qed.
Example other_deleted : (map_to_list (contents (snd reaching) "pbs")).*1 = ["chunks/aa"].
Proof. vm_compute. reflexivity. Qed.
Lemma backup_session_footprint_witness :
  keeps (λ b k, ¬ session_key "pbs" session_snapshot b k ∧ ¬ asked reaching_requests b k) other_world (snd reaching) ∧
  keeps_present is_chunk other_world (snd reaching).
Proof.
  pose proof (backup_session_footprint session_externals all_reports 5 (example_externals_ok _ _) session_ticket "pbs"
    session_snapshot reaching_requests session_process other_world (fst reaching) (snd reaching) reaching_run) as (H1 & _ & H3 & _).
  split; [exact H1|exact H3].
Defined.
