(* ===== verification/Conversation.v ===== *)
(** * What a client sees of a session

    A session as the list of its answers: each request runs the handler of its route
    ([Serve]) on the state that the requests before it have left. *)

From S2P Require Import Prelude GoStrings GoBytes S3 Platform Snapshot Json Http HandlerLogic ChunkUpload ChunkFlight Session IndexWriter Transfer Cache CacheInvalidation Listing Auth Admin Serve BackupSession.

Local Open Scope Z_scope.

Section conversation.
Context {W : Type} `{!ObjectStore W, !Platform W, !StoreView W, !FileView W}.
Context `{!ObjectStoreLaws W, !PlatformLaws W}.
Context (X : externals W) (cfg : reports) (fuel : nat).
#[local] Abbreviation handlers := (session_handlers X fuel).
#[local] Abbreviation serve_next := (serve_request X cfg fuel).
#[local] Abbreviation serve_all := (ServeConn X cfg fuel).
Implicit Types (st : session_state * W).

(** The answer to a request; a handler that panics resets its stream. *)
Definition answered st (r : Request) : option response :=
  match ServeHTTP X cfg fuel None r (mkH empty_response st.1 st.2) with
  | (Ok _, h) => Some (h_rw h)
  | _ => None
  end.

Lemma answered_by st r rw rts m :
  answered st r = Some rw → (rts, m) ∈ handlers → on_routes rts r = true →
  ∃ h, m r (mkH empty_response (ss_server st.1) st.2) = (Ok tt, h) ∧ rw = h_rw h ∧
    serve_next st r = (set_server (h_sess h) st.1, h_world h).
Proof.
  unfold answered, serve_request. intros Ha Hin Hr.
  rewrite (ServeHTTP_session X cfg fuel _ _ _ _ _ Hin Hr) in *. unfold on_server in *. cbn [h_rw h_sess h_world] in *.
  destruct (m r _) as [[[]| |] h]; [|done..]. injection Ha as <-. by exists h.
Qed.

(** ** Requests that read *)

Definition reading_routes : list route :=
  [(Prefix "/previous_backup_time", Some "GET"); (Prefix "/previous?", Some "GET"); (Prefix "/speedtest", None); (Prefix "/download?", None);
   (Prefix "/chunk?", None)].
Definition reads (r : Request) : Prop := on_routes reading_routes r = true.

(** The session of a client, and a store nobody writes. *)
Definition session_of (s0 : Server) (w0 : W) (s : Server) (w : W) : Prop :=
  H2Ticket s = H2Ticket s0 ∧ SelectedDataStore s = SelectedDataStore s0 ∧ sv_Snapshot s = sv_Snapshot s0 ∧ keeps_all w0 w.
Lemma session_of_stable s0 w0 : stable (session_of s0 w0) keeps_all.
Proof. intros s w w' (? & ? & ? & ?) Hk. split_and!; [done..|]. by transitivity w. Qed.
End conversation.

Section transcript.
Context {W : Type} `{!ObjectStore W, !Platform W, !StoreView W, !FileView W}.
Context `{!ObjectStoreLaws W, !PlatformLaws W}.
Context (X : externals W) (cfg : reports) (fuel : nat).
#[local] Abbreviation handlers := (session_handlers X fuel).
#[local] Abbreviation serve_next := (serve_request X cfg fuel).
#[local] Abbreviation serve_all := (ServeConn X cfg fuel).
#[local] Abbreviation answered := (answered X cfg fuel).
Implicit Types (st : session_state * W).

(** Reading leaves the session with its client and the store as it was. *)
Lemma reads_handler r : reads r → ∃ rts m, (rts, m) ∈ handlers ∧ on_routes rts r = true ∧
  ∀ s0 w0 rw s w, session_of s0 w0 s w → runs (session_of s0 w0) (m r) (mkH rw s w) (λ _ _, True).
Proof.
  unfold reads, on_routes, reading_routes. cbn [existsb]. rewrite orb_false_r. intros Hr.
  assert (∀ i p q m, handlers !! i = Some ([(Prefix p, q)], m) → route_matches r (Prefix p, q) = true →
    (∀ s0 w0 rw s w, session_of s0 w0 s w → runs (session_of s0 w0) (m r) (mkH rw s w) (λ _ _, True)) →
    ∃ rts m, (rts, m) ∈ handlers ∧ on_routes rts r = true ∧
      ∀ s0 w0 rw s w, session_of s0 w0 s w → runs (session_of s0 w0) (m r) (mkH rw s w) (λ _ _, True)) as Hex.
  { intros i p q m Hi Hm Hk. exists [(Prefix p, q)], m. split; [by eapply list_elem_of_lookup_2|]. split; [|done].
    unfold on_routes. cbn [existsb]. by rewrite Hm. }
  rewrite !orb_true_iff in Hr. destruct Hr as [Hr|[Hr|[Hr|[Hr|Hr]]]].
  - eapply (Hex 0%nat); [done|exact Hr|]. intros. by apply previous_backup_time_ok; [apply session_of_stable|].
  - eapply (Hex 1%nat); [done|exact Hr|]. intros. by apply previous_ok; [apply session_of_stable|..].
  - eapply (Hex 10%nat); [done|exact Hr|]. intros. by apply speedtest_ok.
  - eapply (Hex 11%nat); [done|exact Hr|]. intros. by apply download_ok; [apply session_of_stable|].
  - eapply (Hex 12%nat); [done|exact Hr|]. intros. by apply chunk_download_ok; [apply session_of_stable|].
Qed.
Lemma serve_next_reads st r s0 w0 :
  reads r → session_of s0 w0 (ss_server st.1) st.2 →
  session_of s0 w0 (ss_server (serve_next st r).1) (serve_next st r).2.
Proof.
  intros (rts & m & Hin & Hr & Hm)%reads_handler HJ. unfold serve_request.
  rewrite (ServeHTTP_session X cfg fuel _ _ _ _ _ Hin Hr). unfold on_server. cbn [h_rw h_sess h_world].
  destruct (m r _) as [x h] eqn:E. by apply (Hm s0 w0 _ _ _ HJ) in E as [HJ' _].
Qed.
Lemma serve_all_reads rs st s0 w0 :
  Forall reads rs → session_of s0 w0 (ss_server st.1) st.2 →
  session_of s0 w0 (ss_server (serve_all rs st).1) (serve_all rs st).2.
Proof.
  intros Hrs. revert st. induction Hrs as [|r rs Hr _ IH]; intros st HJ; [done|].
  unfold ServeConn. cbn [foldl]. apply IH. by apply serve_next_reads.
Qed.

(** An upload whose answer says that the chunk was not known before. *)
Definition uploaded_new (rw : response) : Prop :=
  answered_ok rw = true ∧ ∃ q, rw_body rw = [Json (chunk_info q false)].
Definition uploads (r : Request) : Prop := on_routes chunk_routes r = true.

Lemma upload_answered st r rw ds :
  uploads r → SelectedDataStore (ss_server st.1) = Some ds → answered st r = Some rw → uploaded_new rw →
  ∃ key x, chunkObjectName (Query r "digest") = Ok key ∧
    contents (serve_next st r).2 ds !! key = Some x ∧ o_data x = s_bytes (Body r).
Proof.
  intros Hr Hds Ha [Hok [q Hq]].
  destruct (answered_by _ _ _ st r rw chunk_routes (chunk_upload First) Ha)
    as (h & Hrun & -> & ->); [by apply (list_elem_of_lookup_2 _ 8)|done|].
  unfold uploads, on_routes, route_matches in Hr. cbn in Hr. rewrite !andb_true_r, orb_false_r in Hr.
  destruct (chunk_upload_stored _ _ _ _ _ Hrun Hds eq_refl Hr Hok) as (q' & known & Hp & (_ & _ & Hst) & _ & Hbody).
  rewrite Hq in Hbody. assert (known = false) as -> by (unfold chunk_info in Hbody; congruence).
  destruct Hst as (x & Hx & Hdata). apply parseChunkRequest_Ok in Hp as (key & ? & ? & ? & Hkey & _ & _ & _ & _ & _ & _ & _ & ->).
  by exists key, x.
Qed.

(** Downloads: an answer that is whole by its own announcement is the object. *)
Lemma file_answered st r rw ds S :
  route_matches r (Prefix "/download?", None) = true → SelectedDataStore (ss_server st.1) = Some ds →
  sv_Snapshot (ss_server st.1) = Some S → answered st r = Some rw → answered_ok rw = true → whole rw = true →
  ∃ x, contents st.2 ds !! (S3Prefix S +:+ "/" +:+ Query r "file-name") = Some x ∧ received rw = o_data x.
Proof.
  intros Hr Hds HS Ha Hok Hwhole.
  destruct (answered_by _ _ _ st r rw [(Prefix "/download?", None)] download Ha) as (h & Hrun & -> & _);
    [by apply (list_elem_of_lookup_2 _ 11)|unfold on_routes; cbn [existsb]; by rewrite Hr|].
  apply andb_true_iff in Hr as [Hr _]. cbn in Hr. unfold download in Hrun.
  apply io_bind_Ok_inv in Hrun as (s & h1 & [= <- <-] & Hrun). cbn [h_sess fst] in *. rewrite Hr in Hrun.
  destruct (is_authenticated _); [|injection Hrun as <-; done]. cbn [andb] in Hrun.
  destruct (client_of _) as [c|]; [rewrite Hds in Hrun|injection Hrun as <-; done]. cbv zeta in Hrun.
  case_bool_decide; [injection Hrun as <-; done|].
  apply io_bind_Ok_inv in Hrun as (S' & h1 & [HS' ->]%deref_inv & Hrun). rewrite HS in HS'. injection HS' as <-.
  exact (served_whole _ _ _ _ _ Hrun eq_refl Hok Hwhole).
Qed.
Lemma chunk_answered st r rw ds :
  route_matches r (Prefix "/chunk?", None) = true → SelectedDataStore (ss_server st.1) = Some ds →
  answered st r = Some rw → answered_ok rw = true → whole rw = true →
  ∃ key x, chunkObjectName (Query r "digest") = Ok key ∧ contents st.2 ds !! key = Some x ∧ received rw = o_data x.
Proof.
  intros Hr Hds Ha Hok Hwhole.
  destruct (answered_by _ _ _ st r rw [(Prefix "/chunk?", None)] chunk_download Ha) as (h & Hrun & -> & _);
    [by apply (list_elem_of_lookup_2 _ 12)|unfold on_routes; cbn [existsb]; by rewrite Hr|].
  apply andb_true_iff in Hr as [Hr _]. cbn in Hr. unfold chunk_download in Hrun.
  apply io_bind_Ok_inv in Hrun as (s & h1 & [= <- <-] & Hrun). cbn [h_sess fst] in *. rewrite Hr in Hrun.
  destruct (is_authenticated _); [|injection Hrun as <-; done]. cbn [andb] in Hrun.
  destruct (client_of _) as [c|]; [rewrite Hds in Hrun|injection Hrun as <-; done].
  destruct (chunkObjectName _) as [key|e|p]; [|injection Hrun as <-; done|done]. exists key.
  destruct (served_whole _ _ _ _ _ Hrun eq_refl Hok Hwhole) as (x & ? & ?). by exists x.
Qed.
End transcript.
