(* ===== verification/SessionRace.v ===== *)
(** * The requests of a session, interleaved ([cmd/pmoxs3backuproxy/main.go])

    HTTP/2 serves the requests of a session concurrently, and the handlers share
    the [Server].  [BackupSession] takes the requests one at a time; this file takes
    the handlers that touch the writers apart into their accesses - to the counter,
    to [writer_mux], to the map [Writers], and through pointers to the fields of a
    writer - and interleaves them.

    Go's maps are not safe for concurrent use: the run-time ends the process when it
    sees an access to a map while another goroutine writes it.  The file says which
    requests may overlap ([compatible]), that nothing goes wrong as long as the
    client keeps to it, and that it can go wrong when the client does not. *)

From S2P Require Import Prelude GoStrings GoBytes S3 Snapshot Http ChunkUpload Session IndexWriter Transfer.

Local Open Scope Z_scope.

(** ** Accesses *)

(** A pointer to a writer: the number it was stored under when it was created, and
    the number of its allocation. *)
Abbreviation ptr := (Z * nat)%type.

Inductive reply :=
| Opened (wid : Z)
| Refused                                       (* unknown writer *)
| Failed
| Uploaded (known : bool)
| Unaligned
| Mismatch
| Assigned
| Closed (name : string) (index : list byte) (sizes : gmap string Z)   (* the index is stored under that name *)
| ClosedFixed (name : string) (index : list byte)
| HoleInIndex
| OutOfFuel                                     (* the loop over the offsets has not ended *)
| Crashed (p : string).                         (* a panic ends the request *)

(** A handler: its next access to what the requests share, and how it goes on with
    the answer. *)
Inductive prog :=
| Return (r : reply)
| AddInt32_CurWriter (k : Z → prog)             (* atomic.AddInt32(&s.CurWriter, 1) *)
| Lock (k : prog)                               (* writer_mux *)
| Unlock (k : prog)
| RLock (k : prog)
| RUnlock (k : prog)
| Writers_put (wid : Z) (wr : Writer) (k : prog)            (* s.Writers[wid] = &Writer{...} *)
| Writers_get (wid : Z) (k : option ptr → prog)             (* s.Writers[wid] *)
| Assignments_put (p : ptr) (offset : Z) (b : list byte) (k : prog)
| Assignments_get (p : ptr) (offset : Z) (k : option (list byte) → prog)
| Assignments_range (p : ptr) (k : list Z → prog)
| Chunksize_get (p : ptr) (k : Z → prog)
| Size_get (p : ptr) (k : Z → prog)
| ReuseCSUM_get (p : ptr) (k : string → prog)
| FidxName_get (p : ptr) (k : string → prog)
| Chunksize_put (p : ptr) (size : Z) (k : prog)
| Size_put (p : ptr) (size : Z) (k : prog)
| Chunksize_CAS (p : ptr) (size : Z) (k : prog)             (* atomic.CompareAndSwapUint64(..., 0, size) *)
| DynamicChunkSizes_Store (p : ptr) (digest : string) (size : Z) (k : prog)   (* sync.Map *)
| DynamicChunkSizes_Load (p : ptr) (digest : string) (k : option Z → prog)
| chunkUploads_Do (k : res bool → prog)         (* the store; nothing shared here is touched *)
| Store (k : bool → prog).                      (* PutObject, CopyObject: whether it succeeds *)

Definition open_prog (wr : Writer) : prog :=
  AddInt32_CurWriter (λ wid, Lock (Writers_put wid wr (Unlock (Return (Opened wid))))).

(** The upload, once the writer has been looked up under the lock. *)
Definition store_prog (dynamic : bool) (q : chunkRequest) (writer : option ptr) : prog :=
  match writer with
  | None => Return Refused
  | Some p =>
      chunkUploads_Do (λ r,
        match r with
        | Ok known =>
            Chunksize_CAS p (cr_Size q)
              (if dynamic then DynamicChunkSizes_Store p (cr_Digest q) (cr_Size q) (Return (Uploaded known))
               else Return (Uploaded known))
        | Err _ => Return Failed
        | Panicked e => Return (Crashed e)
        end)
  end.
Definition upload_prog (dynamic : bool) (q : chunkRequest) : prog :=
  RLock (Writers_get (cr_WriterID q) (λ writer, RUnlock (store_prog dynamic q writer))).

(** [s.Writers[wid]] without the mutex, and its dereference. *)
Definition with_writer (wid : Z) (k : ptr → prog) : prog :=
  Writers_get wid (λ p, match p with None => Return (Crashed "nil pointer dereference") | Some p => k p end).

(** [s.Writers[wid].FidxName], for a key or for the log. *)
Definition named (wid : Z) (k : string → prog) : prog := with_writer wid (λ p, FidxName_get p k).
(** A call of the store about the file of a writer; the log of its failure names the
    file again. *)
Definition stored_as (wid : Z) (k : string → prog) : prog :=
  named wid (λ name, Store (λ ok, if ok then k name else named wid (λ _, Return Failed))).

Definition assign_step (req : AssignmentRequest) (i : nat) (k : prog) : prog :=
  let b := fst (hex_DecodeString (nth i (DigestList req) "")) in
  with_writer (Wid req) (λ p,
    match OffsetList req !! i with
    | None => Return (Crashed "index out of range")
    | Some offset => Assignments_put p (i64 offset) b k
    end).
Definition dynamic_assign_prog (req : AssignmentRequest) : prog :=
  foldr (assign_step req) (Return Assigned) (seq 0 (length (DigestList req))).
Definition aligned_prog (wid : Z) (offset : Z) (k : prog) : prog :=
  with_writer wid (λ p, Chunksize_get p (λ chunksize,
    if chunksize =? 0 then Return (Crashed "integer divide by zero")
    else if offset `mod` chunksize =? 0 then k else named wid (λ _, Return Unaligned))).
Definition fixed_assign_prog (req : AssignmentRequest) : prog :=
  if negb (length (DigestList req) =? length (OffsetList req))%nat
  then named (Wid req) (λ _, Return Mismatch)
  else foldr (aligned_prog (Wid req)) (dynamic_assign_prog req) (OffsetList req).

(** The entries of a dynamic index, then the index and the table of its sizes go to
    the store; every mention of the writer in the code looks it up again. *)
Fixpoint entries_prog (wid : Z) (keys : list Z) (acc : list byte * gmap string Z) : prog :=
  match keys with
  | [] => stored_as wid (λ name, stored_as wid (λ _, Return (Closed name acc.1 acc.2)))
  | key :: keys =>
      with_writer wid (λ p, Assignments_get p key (λ a, let digest := hex_EncodeToString (default [] a) in
      with_writer wid (λ p, DynamicChunkSizes_Load p digest (λ entry,
        match entry with
        | None => Return (Crashed "Missing size info for chunk")
        | Some origsize =>
            with_writer wid (λ p, Assignments_get p key (λ a,
              entries_prog wid keys
                (acc.1 ++ LE_PutUint64 (u64 (u64 key + origsize)) ++ default [] a, <[digest := origsize]> acc.2)))
        end))))
  end.
Definition dynamic_close_prog (wid : Z) (header : list byte) (known : list (string * Z)) : prog :=
  foldr (λ kv k, with_writer wid (λ p, DynamicChunkSizes_Store p kv.1 kv.2 k))
    (with_writer wid (λ p, Assignments_range p (λ keys, entries_prog wid (merge_sort Z.le keys) (header, ∅))))
    known.

(** The loop over the offsets of a fixed index; it reads the size and the chunk
    size anew in each round.  Then the index goes to the store, and is copied. *)
Fixpoint fill_prog (fuel : nat) (wid : Z) (i k : Z) (out : gslice) : prog :=
  match fuel with
  | O => Return OutOfFuel
  | S fuel =>
      with_writer wid (λ p, Size_get p (λ size,
        if i <? size then
          with_writer wid (λ p, Assignments_get p (i64 i) (λ val,
            match val with
            | None =>
                with_writer wid (λ p, ReuseCSUM_get p (λ reuse,
                  if bool_decide (reuse = "") then Return HoleInIndex
                  else with_writer wid (λ p, Chunksize_get p (λ chunksize,
                         fill_prog fuel wid (u64 (i + chunksize)) (u64 (k + 1)) out))))
            | Some val =>
                let at_ := u64 (fixed_header_end + 32 * k) in
                match copy_into at_ (u64 (at_ + 32)) val out with
                | Ok out => with_writer wid (λ p, Chunksize_get p (λ chunksize,
                              fill_prog fuel wid (u64 (i + chunksize)) (u64 (k + 1)) out))
                | Err _ => Return Failed
                | Panicked e => Return (Crashed e)
                end
            end))
        else stored_as wid (λ name, stored_as wid (λ _, Return (ClosedFixed name (visible out))))))
  end.
(** The header, then the loop. *)
Definition stamped_prog (fuel : nat) (wid : Z) (stamped : gslice → res gslice) (out : gslice) : prog :=
  match stamped out with
  | Ok out => fill_prog fuel wid 0 0 out
  | Err _ => Return Failed
  | Panicked e => Return (Crashed e)
  end.
(** [IndexWriter.new_fixed], from what was read of the writer. *)
Definition new_header (size chunksize : Z) (assignments : nat) : res gslice :=
  fixed_fields (mkWriter "" ∅ ∅ chunksize size "") (make (4096 + 32 * assignments)).
(** A reused index - [reused] is what reading the one of a checksum answers - gives
    its sizes to the writer; a new one is made with the sizes the writer has. *)
Definition reuse_prog (fuel : nat) (wid : Z) (index : res gslice) (stamped : gslice → res gslice) : prog :=
  match index with
  | Ok out =>
      with_writer wid (λ p,
        match reslice 64 72 out with
        | Ok size => Size_put p (LE_Uint64 size) (
            with_writer wid (λ p,
              match reslice 72 80 out with
              | Ok chunksize => Chunksize_put p (LE_Uint64 chunksize) (stamped_prog fuel wid stamped out)
              | Err _ => Return Failed
              | Panicked e => Return (Crashed e)
              end))
        | Err _ => Return Failed
        | Panicked e => Return (Crashed e)
        end)
  | Err _ => with_writer wid (λ p, ReuseCSUM_get p (λ _, Return Failed))    (* the log *)
  | Panicked e => Return (Crashed e)
  end.
Definition new_prog (fuel : nat) (wid : Z) (stamped : gslice → res gslice) : prog :=
  with_writer wid (λ p, Assignments_range p (λ keys,
  with_writer wid (λ p, Size_get p (λ size,
  with_writer wid (λ p, Chunksize_get p (λ chunksize,
    match new_header size chunksize (length keys) with
    | Ok out => stamped_prog fuel wid stamped out
    | Err _ => Return Failed
    | Panicked e => Return (Crashed e)
    end)))))).
Definition fixed_close_prog (fuel : nat) (wid : Z) (reused : string → res gslice) (stamped : gslice → res gslice) : prog :=
  with_writer wid (λ p, ReuseCSUM_get p (λ reuse,
    if negb (bool_decide (reuse = ""))
    then with_writer wid (λ p, ReuseCSUM_get p (λ csum, reuse_prog fuel wid (reused csum) stamped))
    else new_prog fuel wid stamped)).

(** The requests; what they read outside the writers is given: the body of an
    assignment, the header of an index, the sizes [KnownChunksSizes.Range] visits,
    the indexes that may be reused. *)
Inductive request_kind :=
| OpenWriter (wr : Writer)
| UploadChunk (dynamic : bool) (q : chunkRequest)
| DynamicAssign (req : AssignmentRequest)
| FixedAssign (req : AssignmentRequest)
| DynamicClose (wid : Z) (header : list byte) (known : list (string * Z))
| FixedClose (fuel : nat) (wid : Z) (reused : string → res gslice) (stamped : gslice → res gslice).
(** The writers that [/dynamic_index] and [/fixed_index] open. *)
Definition archive (name : string) : request_kind := OpenWriter (mkWriter name ∅ ∅ 0 0 "").
Definition image (name : string) (size : Z) (reuse : string) : request_kind :=
  OpenWriter (mkWriter name ∅ ∅ 4194304 size reuse).

Definition handler (r : request_kind) : prog :=
  match r with
  | OpenWriter wr => open_prog wr
  | UploadChunk dynamic q => upload_prog dynamic q
  | DynamicAssign req => dynamic_assign_prog req
  | FixedAssign req => fixed_assign_prog req
  | DynamicClose wid header known => dynamic_close_prog wid header known
  | FixedClose fuel wid reused stamped => fixed_close_prog fuel wid reused stamped
  end.

(** ** What the requests share *)

Record shared := mkShared {
  sh_CurWriter : Z;
  sh_Writers : gmap Z ptr;
  sh_heap : gmap ptr Writer;
  sh_allocated : nat;
  mux_writer : option nat;                      (* the request that holds the lock *)
  mux_readers : gset nat;
}.
Definition set_mux (w : option nat) (rs : gset nat) (sh : shared) : shared :=
  mkShared (sh_CurWriter sh) (sh_Writers sh) (sh_heap sh) (sh_allocated sh) w rs.
(** The update of a writer through a pointer, which is never to nothing. *)
Definition update (p : ptr) (f : Writer → Writer) (sh : shared) : shared :=
  mkShared (sh_CurWriter sh) (sh_Writers sh) (alter f p (sh_heap sh)) (sh_allocated sh) (mux_writer sh) (mux_readers sh).
Definition add_CurWriter (sh : shared) : shared :=
  mkShared (i32 (sh_CurWriter sh + 1)) (sh_Writers sh) (sh_heap sh) (sh_allocated sh) (mux_writer sh) (mux_readers sh).
Definition put_writer (wid : Z) (wr : Writer) (sh : shared) : shared :=
  mkShared (sh_CurWriter sh) (<[wid := (wid, sh_allocated sh)]> (sh_Writers sh))
    (<[(wid, sh_allocated sh) := wr]> (sh_heap sh)) (S (sh_allocated sh)) (mux_writer sh) (mux_readers sh).
(** The writer behind a pointer. *)
Definition target (p : ptr) (sh : shared) : Writer := default inhabitant (sh_heap sh !! p).

(** The next access of request [i]; [None] while it has to wait for the mutex. *)
Definition access (i : nat) (u : res bool) (p : prog) (sh : shared) : option (prog * shared) :=
  match p with
  | Return _ => None
  | AddInt32_CurWriter k => Some (k (sh_CurWriter (add_CurWriter sh)), add_CurWriter sh)
  | Lock k =>
      if decide (mux_writer sh = None ∧ mux_readers sh = ∅) then Some (k, set_mux (Some i) ∅ sh) else None
  | Unlock k => if decide (mux_writer sh = Some i) then Some (k, set_mux None (mux_readers sh) sh) else None
  | RLock k =>
      if decide (mux_writer sh = None) then Some (k, set_mux None ({[i]} ∪ mux_readers sh) sh) else None
  | RUnlock k =>
      if decide (i ∈ mux_readers sh) then Some (k, set_mux (mux_writer sh) (mux_readers sh ∖ {[i]}) sh) else None
  | Writers_put wid wr k => Some (k, put_writer wid wr sh)
  | Writers_get wid k => Some (k (sh_Writers sh !! wid), sh)
  | Assignments_put a offset b k =>
      Some (k, update a (λ wr, set_Assignments (<[offset := b]> (Assignments wr)) wr) sh)
  | Assignments_get a offset k => Some (k (Assignments (target a sh) !! offset), sh)
  | Assignments_range a k => Some (k (map_to_list (Assignments (target a sh))).*1, sh)
  | Chunksize_get a k => Some (k (Chunksize (target a sh)), sh)
  | Size_get a k => Some (k (wr_Size (target a sh)), sh)
  | ReuseCSUM_get a k => Some (k (ReuseCSUM (target a sh)), sh)
  | FidxName_get a k => Some (k (FidxName (target a sh)), sh)
  | Chunksize_put a size k => Some (k, update a (λ wr, set_sizes (wr_Size wr) size wr) sh)
  | Size_put a size k => Some (k, update a (λ wr, set_sizes size (Chunksize wr) wr) sh)
  | Chunksize_CAS a size k =>
      Some (k, update a (λ wr, if Chunksize wr =? 0 then set_sizes (wr_Size wr) size wr else wr) sh)
  | DynamicChunkSizes_Store a digest size k =>
      Some (k, update a (λ wr, set_DynamicChunkSizes (<[digest := size]> (DynamicChunkSizes wr)) wr) sh)
  | DynamicChunkSizes_Load a digest k => Some (k (DynamicChunkSizes (target a sh) !! digest), sh)
  | chunkUploads_Do k => Some (k u, sh)
  | Store k => Some (k (match u with Ok _ => true | _ => false end), sh)
  end.

(** The requests that have arrived, each with what is left of its handler. *)
Record running := mkRunning { rn_threads : list (request_kind * prog); rn_shared : shared }.
Definition is_answered (p : prog) : bool := match p with Return _ => true | _ => false end.

(** A request arrives when the client may send it ([may_send]); an access of a
    request that has arrived is a step. *)
Inductive session_step (may_send : list (request_kind * prog) → request_kind → Prop) : running → running → Prop :=
| arrives ts sh r : may_send ts r → session_step may_send (mkRunning ts sh) (mkRunning (ts ++ [(r, handler r)]) sh)
| moves ts sh i r p u p' sh' :
    ts !! i = Some (r, p) → access i u p sh = Some (p', sh') →
    session_step may_send (mkRunning ts sh) (mkRunning (<[i := (r, p')]> ts) sh').

Definition no_writers : shared := mkShared 0 ∅ ∅ 0 None ∅.
Definition session_start : running := mkRunning [] no_writers.

(** ** Races *)

(** The maps of the session, and what the next access does to one. *)
Inductive go_map := TheWriters | TheAssignments (p : ptr).
#[export] Instance go_map_eq : EqDecision go_map.
Proof. solve_decision. Defined.
Inductive use := Reads | Writes.
#[export] Instance use_eq : EqDecision use.
Proof. solve_decision. Defined.
Definition map_use (p : prog) : option (go_map * use) :=
  match p with
  | Writers_put _ _ _ => Some (TheWriters, Writes)
  | Writers_get _ _ => Some (TheWriters, Reads)
  | Assignments_put a _ _ _ => Some (TheAssignments a, Writes)
  | Assignments_get a _ _ | Assignments_range a _ => Some (TheAssignments a, Reads)
  | _ => None
  end.
(** Two requests are about to use one map, and one of them writes it. *)
Definition racy (st : running) : Prop :=
  ∃ i j r p r' p' m u u', i ≠ j ∧
    rn_threads st !! i = Some (r, p) ∧ rn_threads st !! j = Some (r', p') ∧
    map_use p = Some (m, u) ∧ map_use p' = Some (m, u') ∧ (u = Writes ∨ u' = Writes).

(** The writer a request uses without the mutex, and whether it changes its map. *)
Definition unguarded (r : request_kind) : option (Z * use) :=
  match r with
  | OpenWriter _ | UploadChunk _ _ => None
  | DynamicAssign req | FixedAssign req => Some (Wid req, Writes)
  | DynamicClose wid _ _ | FixedClose _ wid _ _ => Some (wid, Reads)
  end.
Definition unguarded_wid (r : request_kind) : option Z := fst <$> unguarded r.
Definition is_open (r : request_kind) : bool := match r with OpenWriter _ => true | _ => false end.
(** Requests that may overlap: an assignment or a close with no opening, and with
    no assignment to the same writer. *)
Definition compatible (r r' : request_kind) : bool :=
  match unguarded r, unguarded r' with
  | None, None => true
  | Some _, None => negb (is_open r')
  | None, Some _ => negb (is_open r)
  | Some (w, u), Some (w', u') => negb (bool_decide (w = w')) || (bool_decide (u = Reads) && bool_decide (u' = Reads))
  end.
(** A client that waits for the answers of the requests its next one must not
    overlap, and one that does not care. *)
Definition careful (ts : list (request_kind * prog)) (r : request_kind) : Prop :=
  Forall (λ t, is_answered t.2 = true ∨ compatible t.1 r = true) ts.
Definition careless (ts : list (request_kind * prog)) (r : request_kind) : Prop := True.

(** ** The mutex *)

Inductive held := Nothing | Reading | Writing.
#[export] Instance held_eq : EqDecision held.
Proof. solve_decision. Defined.
Definition holding (i : nat) (sh : shared) : held :=
  if decide (mux_writer sh = Some i) then Writing else if decide (i ∈ mux_readers sh) then Reading else Nothing.

(** What a request has for a writer: the size of a chunk to note, a chunk size to
    offer, a digest to assign at an offset. *)
Definition notes (r : request_kind) (wid : Z) (digest : string) (n : Z) : Prop :=
  match r with
  | UploadChunk true q => cr_WriterID q = wid ∧ cr_Digest q = digest ∧ cr_Size q = n
  | DynamicClose wid' _ known => wid' = wid ∧ (digest, n) ∈ known
  | _ => False
  end.
Definition offers (r : request_kind) (wid n : Z) : Prop :=
  match r with UploadChunk _ q => cr_WriterID q = wid ∧ cr_Size q = n | _ => False end.
Definition assigns (r : request_kind) (wid o : Z) (b : list byte) : Prop :=
  match r with
  | DynamicAssign req | FixedAssign req =>
      Wid req = wid ∧ ∃ i offset digest, OffsetList req !! i = Some offset ∧ DigestList req !! i = Some digest ∧
        o = i64 offset ∧ b = fst (hex_DecodeString digest)
  | _ => False
  end.

(** What a handler may do with what it holds: only an opening writes [Writers],
    under the lock; [Writers] is read under the lock, or at the writer the request
    uses without it; only that writer's assignments are used. *)
Fixpoint disciplined (r : request_kind) (h : held) (p : prog) : Prop :=
  match p with
  | Return _ => h = Nothing
  | AddInt32_CurWriter k => is_open r = true ∧ ∀ n, disciplined r h (k n)
  | Lock k => h = Nothing ∧ disciplined r Writing k
  | Unlock k => h = Writing ∧ disciplined r Nothing k
  | RLock k => h = Nothing ∧ disciplined r Reading k
  | RUnlock k => h = Reading ∧ disciplined r Nothing k
  | Writers_put _ wr k => h = Writing ∧ r = OpenWriter wr ∧ disciplined r h k
  | Writers_get wid k =>
      (h = Reading ∨ unguarded_wid r = Some wid) ∧
      ∀ o : option ptr, (∀ a, o = Some a → a.1 = wid) → disciplined r h (k o)
  | Assignments_put a o b k => unguarded r = Some (a.1, Writes) ∧ assigns r a.1 o b ∧ disciplined r h k
  | Assignments_get a _ k => unguarded_wid r = Some a.1 ∧ ∀ b, disciplined r h (k b)
  | Assignments_range a k => unguarded_wid r = Some a.1 ∧ ∀ l, disciplined r h (k l)
  | Chunksize_get _ k | Size_get _ k => ∀ n, disciplined r h (k n)
  | ReuseCSUM_get _ k | FidxName_get _ k => ∀ c, disciplined r h (k c)
  | Size_put _ _ k | Chunksize_put _ _ k => disciplined r h k
  | Chunksize_CAS a n k => offers r a.1 n ∧ disciplined r h k
  | DynamicChunkSizes_Store a d n k => notes r a.1 d n ∧ disciplined r h k
  | DynamicChunkSizes_Load _ _ k => ∀ n, disciplined r h (k n)
  | chunkUploads_Do k => ∀ u, disciplined r h (k u)
  | Store k => ∀ ok, disciplined r h (k ok)
  end.

Lemma with_writer_disciplined r wid k :
  unguarded_wid r = Some wid → (∀ a : ptr, a.1 = wid → disciplined r Nothing (k a)) →
  disciplined r Nothing (with_writer wid k).
Proof. intros Hr Hk. split; [by right|]. intros [a|] Ha; [|done]. by apply Hk, Ha. Qed.
Lemma named_disciplined r wid k :
  unguarded_wid r = Some wid → (∀ name, disciplined r Nothing (k name)) → disciplined r Nothing (named wid k).
Proof. intros Hr Hk. apply with_writer_disciplined; [done|]. intros a _. exact Hk. Qed.
Lemma stored_disciplined r wid k :
  unguarded_wid r = Some wid → (∀ name, disciplined r Nothing (k name)) → disciplined r Nothing (stored_as wid k).
Proof. intros Hr Hk. apply named_disciplined; [done|]. intros name [|]; [apply Hk|]. by apply named_disciplined. Qed.
Lemma assign_disciplined r req :
  r = DynamicAssign req ∨ r = FixedAssign req → disciplined r Nothing (dynamic_assign_prog req).
Proof.
  intros Hr. assert (unguarded r = Some (Wid req, Writes)) as Hu by (by destruct Hr as [-> | ->]).
  unfold dynamic_assign_prog. assert (∀ i, i ∈ seq 0 (length (DigestList req)) → (i < length (DigestList req))%nat) as Hlt
    by (intros i Hi%elem_of_seq; lia).
  induction (seq _ _) as [|i l IH]; [done|]. cbn [foldr].
  apply with_writer_disciplined; [by unfold unguarded_wid; rewrite Hu|]. intros a Ha.
  destruct (lookup_lt_is_Some_2 (DigestList req) i) as [d Hd]; [apply Hlt; set_solver|].
  destruct (OffsetList req !! i) as [o|] eqn:Ho; [|done]. split; [by rewrite Hu, Ha|]. split; [|apply IH; set_solver].
  rewrite (nth_lookup_Some _ _ _ _ Hd), Ha.
  destruct Hr as [-> | ->]; (split; [done|]); by exists i, o, d.
Qed.
Lemma entries_disciplined r wid keys acc :
  unguarded_wid r = Some wid → disciplined r Nothing (entries_prog wid keys acc).
Proof.
  intros Hr. revert acc. induction keys as [|key keys IH]; intros acc; cbn [entries_prog].
  { apply stored_disciplined; [done|]. intros name. by apply stored_disciplined. }
  apply with_writer_disciplined; [done|]. intros a Ha. split; [by rewrite Ha|]. intros b.
  apply with_writer_disciplined; [done|]. intros a1 Ha1 [origsize|]; [|done].
  apply with_writer_disciplined; [done|]. intros a2 Ha2. split; [by rewrite Ha2|]. intros b2. apply IH.
Qed.
Lemma close_disciplined wid header known :
  disciplined (DynamicClose wid header known) Nothing (dynamic_close_prog wid header known).
Proof.
  unfold dynamic_close_prog. assert (known ⊆ known) as Hall by done. revert Hall.
  generalize known at 1 4 as l. induction l as [|kv l IH]; intros Hall; cbn [foldr].
  - apply with_writer_disciplined; [done|]. intros a Ha. split; [by rewrite Ha|]. intros keys.
    by apply entries_disciplined.
  - apply with_writer_disciplined; [done|]. intros a Ha. split; [|apply IH; set_solver].
    split; [done|]. apply Hall. destruct kv. set_solver.
Qed.
Lemma fill_disciplined r fuel wid i k out :
  unguarded_wid r = Some wid → disciplined r Nothing (fill_prog fuel wid i k out).
Proof.
  intros Hr. revert i k out. induction fuel as [|fuel IH]; intros i k out; [done|]. cbn [fill_prog].
  apply with_writer_disciplined; [done|]. intros a Ha size. destruct (i <? size).
  2: { apply stored_disciplined; [done|]. intros name. by apply stored_disciplined. }
  apply with_writer_disciplined; [done|]. intros a1 Ha1. split; [by rewrite Ha1|]. intros [val|].
  - destruct (copy_into _ _ val out) as [out'|e|e]; [|done..].
    apply with_writer_disciplined; [done|]. intros a2 _ chunksize. apply IH.
  - apply with_writer_disciplined; [done|]. intros a2 _ c. destruct (bool_decide (c = "")); [done|].
    apply with_writer_disciplined; [done|]. intros a3 _ chunksize. apply IH.
Qed.
Lemma stamped_disciplined r fuel wid stamped out :
  unguarded_wid r = Some wid → disciplined r Nothing (stamped_prog fuel wid stamped out).
Proof. intros Hr. unfold stamped_prog. destruct (stamped out); [by apply fill_disciplined|done..]. Qed.
Lemma reuse_disciplined r fuel wid index stamped :
  unguarded_wid r = Some wid → disciplined r Nothing (reuse_prog fuel wid index stamped).
Proof.
  intros Hr. unfold reuse_prog. destruct index as [out|e|e]; [|by apply with_writer_disciplined|done].
  apply with_writer_disciplined; [done|]. intros a1 _.
  destruct (reslice 64 72 out) as [size|e|e]; [|done..]. apply with_writer_disciplined; [done|]. intros a2 _.
  destruct (reslice 72 80 out) as [chunksize|e|e]; [|done..]. by apply stamped_disciplined.
Qed.
Lemma new_disciplined r fuel wid stamped :
  unguarded_wid r = Some wid → disciplined r Nothing (new_prog fuel wid stamped).
Proof.
  intros Hr. apply with_writer_disciplined; [done|]. intros a1 Ha1. split; [by rewrite Ha1|]. intros keys.
  apply with_writer_disciplined; [done|]. intros a2 _ size. apply with_writer_disciplined; [done|]. intros a3 _ chunksize.
  destruct (new_header _ _ _) as [out|e|e]; [by apply stamped_disciplined|done..].
Qed.
Lemma fixed_close_disciplined r fuel wid reused stamped :
  unguarded_wid r = Some wid → disciplined r Nothing (fixed_close_prog fuel wid reused stamped).
Proof.
  intros Hr. apply with_writer_disciplined; [done|]. intros a _ c. destruct (negb _); [|by apply new_disciplined].
  apply with_writer_disciplined; [done|]. intros a1 _ csum. by apply reuse_disciplined.
Qed.
Lemma fixed_assign_disciplined req : disciplined (FixedAssign req) Nothing (fixed_assign_prog req).
Proof.
  unfold fixed_assign_prog. destruct (negb _); [by apply named_disciplined|].
  induction (OffsetList req) as [|o l IH]; [apply assign_disciplined; by right|]. cbn [foldr].
  apply with_writer_disciplined; [done|]. intros a Ha chunksize. destruct (chunksize =? 0); [done|].
  destruct (o `mod` chunksize =? 0); [done|by apply named_disciplined].
Qed.
Lemma upload_disciplined dynamic q : disciplined (UploadChunk dynamic q) Nothing (upload_prog dynamic q).
Proof.
  split; [done|]. split; [by left|]. intros [a|] Ha; (split; [done|]); [|done].
  specialize (Ha a eq_refl). intros [known|e|e]; [|done..]. split; [done|]. destruct dynamic; [|done]. by split.
Qed.
Lemma handler_disciplined r : disciplined r Nothing (handler r).
Proof.
  destruct r as [wr|dynamic q|req|req|wid header known|fuel wid reused stamped]; cbn [handler].
  - done.
  - apply upload_disciplined.
  - apply assign_disciplined. by left.
  - apply fixed_assign_disciplined.
  - apply close_disciplined.
  - by apply fixed_close_disciplined.
Qed.

(** ** What an access changes *)

(** What an access does to the mutex. *)
Definition mux (sh : shared) : option nat * gset nat := (mux_writer sh, mux_readers sh).
Lemma access_mux i u p sh p' sh' :
  access i u p sh = Some (p', sh') →
  match p with
  | Lock _ => mux sh = (None, ∅) ∧ mux sh' = (Some i, ∅)
  | Unlock _ => mux_writer sh = Some i ∧ mux sh' = (None, mux_readers sh)
  | RLock _ => mux_writer sh = None ∧ mux sh' = (None, {[i]} ∪ mux_readers sh)
  | RUnlock _ => i ∈ mux_readers sh ∧ mux sh' = (mux_writer sh, mux_readers sh ∖ {[i]})
  | _ => mux sh' = mux sh
  end.
Proof.
  unfold mux. destruct p; cbn; try (case_decide; [|done]); intros; simplify_eq/=; try done.
  naive_solver congruence.
Qed.

Definition held_by (m : option nat * gset nat) (i : nat) : held :=
  if decide (m.1 = Some i) then Writing else if decide (i ∈ m.2) then Reading else Nothing.
Lemma holding_mux i sh : holding i sh = held_by (mux sh) i.
Proof. done. Qed.

(** An access of a request leaves what the others hold, and changes what it holds
    itself as [disciplined] expects. *)
Lemma access_others i u p sh p' sh' j :
  access i u p sh = Some (p', sh') → j ≠ i → holding j sh' = holding j sh.
Proof.
  intros Ha%access_mux Hj. rewrite !holding_mux. unfold held_by.
  destruct p; (try by rewrite Ha); unfold mux in Ha; destruct Ha as [H1 H2]; unfold mux;
    injection H2 as -> ->; try injection H1 as -> ->; cbn; repeat case_decide; try done; set_solver.
Qed.
Lemma held_by_after i m :
  held_by (Some i, ∅) i = Writing ∧ held_by (None, {[i]} ∪ m) i = Reading ∧
  (i ∉ m → held_by (None, m) i = Nothing) ∧ ∀ w, w ≠ Some i → held_by (w, m ∖ {[i]}) i = Nothing.
Proof. unfold held_by. split_and!; intros; cbn; repeat case_decide; try done; set_solver. Qed.
Lemma access_disciplined r i u p sh p' sh' :
  access i u p sh = Some (p', sh') → mux_writer sh = None ∨ mux_readers sh = ∅ →
  (∀ wid a, sh_Writers sh !! wid = Some a → a.1 = wid) →
  disciplined r (holding i sh) p → disciplined r (holding i sh') p'.
Proof.
  intros Ha Hx Hw Hp. pose proof (access_mux _ _ _ _ _ _ Ha) as Hm. rewrite !holding_mux in *.
  destruct (held_by_after i (mux_readers sh)) as (Hwr & Hrd & Hno & Hout).
  destruct p; cbn [access] in Ha; try (case_decide as Hd; [|done]); try injection Ha as <- <-; try done;
    cbn [disciplined] in Hp; rewrite ?Hm; try (by apply Hp); destruct Hm as [_ Hm]; rewrite ?Hm.
  - rewrite Hwr. by apply Hp.
  - rewrite Hno; [by apply Hp|]. destruct Hx as [Hx| ->]; [by rewrite Hx in Hd|set_solver].
  - rewrite Hrd. by apply Hp.
  - rewrite Hout; [by apply Hp|]. destruct Hx as [->|Hx]; [done|]. rewrite Hx in Hd. set_solver.
  - destruct Hp as [_ Hp]. apply Hp. intros a Ha. by eapply Hw.
Qed.
Lemma access_exclusive i u p sh p' sh' :
  access i u p sh = Some (p', sh') → mux_writer sh = None ∨ mux_readers sh = ∅ →
  mux_writer sh' = None ∨ mux_readers sh' = ∅.
Proof.
  intros Ha%access_mux Hx. unfold mux in Ha.
  destruct p; (try (injection Ha as -> ->; exact Hx)); destruct Ha as [H1 [= -> ->]];
    first [by left|by right|destruct Hx as [Hx|Hx]; [by left|set_solver]].
Qed.
(** A pointer in the map is under its own number. *)
Definition numbered (sh : shared) : Prop := ∀ wid a, sh_Writers sh !! wid = Some a → a.1 = wid.
Lemma access_numbered i u p sh p' sh' : access i u p sh = Some (p', sh') → numbered sh → numbered sh'.
Proof.
  intros Ha Hn. destruct p; cbn in Ha; try (case_decide; [|done]); simplify_eq; try done.
  - intros wid' a Hl. cbn in Hl. apply lookup_insert_Some in Hl as [[<- <-]|[_ Hl]]; [done|by apply Hn].
Qed.

(** ** The invariant of the interleavings *)

Record running_ok (st : running) : Prop := {
  ro_disciplined : ∀ i r p, rn_threads st !! i = Some (r, p) → disciplined r (holding i (rn_shared st)) p;
  ro_holder : ∀ i, holding i (rn_shared st) ≠ Nothing → (i < length (rn_threads st))%nat;
  ro_exclusive : mux_writer (rn_shared st) = None ∨ mux_readers (rn_shared st) = ∅;
  ro_numbered : numbered (rn_shared st);
}.

Lemma session_start_ok : running_ok session_start.
Proof. split; cbn; try done. by left. Qed.

Lemma session_step_ok may_send st st' : session_step may_send st st' → running_ok st → running_ok st'.
Proof.
  intros [ts sh r _|ts sh i r p u p' sh' Hi Ha] [H1 H2 H3 H4]; cbn in *.
  - split; cbn; [|intros j Hj; rewrite length_app; apply H2 in Hj; lia|done|done].
    intros j r' p [Hj|[Hj Hl]]%lookup_app_Some; [by apply H1|].
    destruct (j - length ts)%nat as [|k] eqn:E; [|done]. injection Hl as <- <-.
    destruct (decide (holding j sh = Nothing)) as [->|Hh]; [apply handler_disciplined|]. apply H2 in Hh. lia.
  - split; cbn; [|intros j Hj; rewrite length_insert| |by eapply access_numbered].
    + intros j r' q [(<- & [= <- <-] & _)|[Hne Hj]]%list_lookup_insert_Some.
      * eapply access_disciplined; eauto.
      * rewrite (access_others _ _ _ _ _ _ _ Ha) by done. by apply H1.
    + destruct (decide (j = i)) as [->|Hne]; [by eapply lookup_lt_Some|].
      apply H2. by rewrite <-(access_others _ _ _ _ _ _ _ Ha).
    + by eapply access_exclusive.
Qed.
Lemma running_reachable may_send st : rtc (session_step may_send) session_start st → running_ok st.
Proof.
  intros Hr. cut (running_ok session_start); [|apply session_start_ok].
  induction Hr as [|? ? ? Hstep _ IH]; [done|]. intros H. by eapply IH, session_step_ok.
Qed.

(** Requests in progress may overlap, when the client is careful. *)
Definition overlaps_ok (ts : list (request_kind * prog)) : Prop :=
  ∀ i j r p r' p', i ≠ j → ts !! i = Some (r, p) → ts !! j = Some (r', p') →
    is_answered p = false → is_answered p' = false → compatible r r' = true.
Lemma compatible_sym r r' : compatible r r' = compatible r' r.
Proof.
  unfold compatible. destruct (unguarded r) as [[w u]|], (unguarded r') as [[w' u']|]; try done.
  rewrite (bool_decide_ext (w = w') (w' = w)) by done. by rewrite andb_comm.
Qed.
Lemma careful_step_ok st st' :
  session_step careful st st' → overlaps_ok (rn_threads st) → overlaps_ok (rn_threads st').
Proof.
  intros [ts sh r Hc|ts sh i r p u p' sh' Hi Ha] Hok; cbn in *.
  - unfold careful in Hc. rewrite Forall_lookup in Hc.
    assert (∀ k t, (ts ++ [(r, handler r)]) !! k = Some t → is_answered t.2 = false →
      (ts !! k = Some t ∧ compatible t.1 r = true) ∨ (k = length ts ∧ t = (r, handler r))) as Hcase.
    { intros k t [Hk|[Hk Hl]]%lookup_app_Some Hrun; [left|right].
      - split; [done|]. destruct (Hc k t Hk) as [E|]; [by rewrite E in Hrun|done].
      - destruct (k - length ts)%nat eqn:E; [|done]. injection Hl as <-. split; [lia|done]. }
    intros j k r1 p1 r2 p2 Hne Hj Hk R1 R2.
    destruct (Hcase _ _ Hj R1) as [[Hj' C1]|[-> [= -> ->]]], (Hcase _ _ Hk R2) as [[Hk' C2]|[-> [= -> ->]]]; [|done| |done].
    + by eapply Hok.
    + by rewrite compatible_sym.
  - assert (∀ k r1 p1, <[i:=(r, p')]> ts !! k = Some (r1, p1) → is_answered p1 = false →
      ∃ p0, ts !! k = Some (r1, p0) ∧ is_answered p0 = false) as Hcase.
    { intros k r1 p1 [(<- & [= <- <-] & _)|[_ Hk]]%list_lookup_insert_Some Hrun; [|eauto].
      exists p. split; [done|]. by destruct p. }
    intros j k r1 p1 r2 p2 Hne Hj Hk R1 R2.
    destruct (Hcase _ _ _ Hj R1) as (q1 & Hj' & E1), (Hcase _ _ _ Hk R2) as (q2 & Hk' & E2). by eapply Hok.
Qed.
Lemma careful_reachable st : rtc (session_step careful) session_start st → overlaps_ok (rn_threads st).
Proof.
  intros Hr. cut (overlaps_ok (rn_threads session_start)); [|done].
  induction Hr as [|? ? ? Hstep _ IH]; [done|]. intros H. by eapply IH, careful_step_ok.
Qed.

(** What a use of a map tells of the request, and of what it holds. *)
Lemma disciplined_use r h p m u :
  disciplined r h p → map_use p = Some (m, u) →
  match m, u with
  | TheWriters, Writes => (∃ wr, r = OpenWriter wr) ∧ h = Writing
  | TheWriters, Reads => h = Reading ∨ is_Some (unguarded r)
  | TheAssignments a, _ => ∃ u', unguarded r = Some (a.1, u') ∧ (u = Writes → u' = Writes)
  end.
Proof.
  unfold unguarded_wid. destruct p; cbn; intros Hp [= <- <-]; try by (destruct_and?; eauto).
  - destruct Hp as [[->|Hu] _]; [by left|]. apply fmap_Some in Hu as (x & -> & _). right. eauto.
  - destruct Hp as [Hu _]. apply fmap_Some in Hu as ([w u] & -> & ->). by exists u.
  - destruct Hp as [Hu _]. apply fmap_Some in Hu as ([w u] & -> & ->). by exists u.
Qed.
Lemma holding_exclusive i j sh :
  mux_writer sh = None ∨ mux_readers sh = ∅ → i ≠ j → holding i sh = Writing → holding j sh = Nothing.
Proof. unfold holding. intros Hx Hne. repeat case_decide; try done; set_solver. Qed.

(** ** Properties *)

Lemma overlap_not_racy r r' h h' p p' m u :
  compatible r r' = true → (h = Writing → h' = Nothing) → disciplined r h p → disciplined r' h' p' →
  map_use p = Some (m, Writes) → map_use p' = Some (m, u) → False.
Proof.
  intros Hc Hx Hp Hp' Hu Hu'. pose proof (disciplined_use _ _ _ _ _ Hp Hu) as A.
  pose proof (disciplined_use _ _ _ _ _ Hp' Hu') as B. destruct m as [|a].
  - destruct A as [[wr ->] Hw]. rewrite (Hx Hw) in B. unfold compatible in Hc.
    cbn in Hc. destruct u; [destruct B as [?|[[w v] Hr]]|by destruct B]; [done|].
    by rewrite Hr in Hc.
  - destruct A as (v & Hr & Hv), B as (v' & Hr' & _). rewrite Hv in Hr by done. unfold compatible in Hc.
    rewrite Hr, Hr' in Hc. by rewrite bool_decide_true in Hc.
Qed.

(** C10. A careful client never runs into a race: when it sends no assignment or
    close while it opens a writer, and no assignment to a writer while another
    assignment to it or its close is not answered yet, no interleaving of the
    accesses of its requests comes to a point where two of them use the map of the
    writers, or the map of the assignments of one writer, and one of the two
    writes it.  Openings and chunk uploads may overlap each other without limit:
    they take [writer_mux]. *)
Theorem careful_session_race_free st (Hreach : rtc (session_step careful) session_start st) : ¬ racy st.
Proof.
  pose proof (running_reachable _ _ Hreach) as [Hd _ Hx _]. pose proof (careful_reachable _ Hreach) as Hov.
  intros (i & j & r & p & r' & p' & m & u & u' & Hne & Hi & Hj & Hu & Hu' & Hw).
  assert (compatible r r' = true) as Hc.
  { eapply Hov; [exact Hne|exact Hi|exact Hj| |]; [by destruct p|by destruct p']. }
  destruct Hw as [-> | ->].
  - apply (overlap_not_racy _ _ _ _ _ _ _ _ Hc (holding_exclusive i j _ Hx Hne) (Hd _ _ _ Hi) (Hd _ _ _ Hj) Hu Hu').
  - rewrite compatible_sym in Hc.
    apply (overlap_not_racy _ _ _ _ _ _ _ _ Hc (holding_exclusive j i _ Hx (not_eq_sym Hne))
             (Hd _ _ _ Hj) (Hd _ _ _ Hi) Hu' Hu).
Qed.

Lemma access_enabled i p sh : is_Some (access i (Ok true) p sh) → ∀ u, is_Some (access i u p sh).
Proof. intros H u. destruct p; first [exact H|by eexists]. Qed.
Lemma holder_enabled r i p sh : disciplined r (holding i sh) p → holding i sh ≠ Nothing → is_Some (access i (Ok true) p sh).
Proof.
  unfold holding. intros Hp Hh. destruct p; cbn in *; destruct_and?; repeat case_decide; try done; by eexists.
Qed.
(** Who waits, waits for a holder. *)
Lemma waits_for_holder r i p sh :
  disciplined r (holding i sh) p → is_answered p = false → access i (Ok true) p sh = None →
  ∃ j, holding j sh ≠ Nothing.
Proof.
  intros Hp Hr Ha. destruct (decide (holding i sh = Nothing)) as [Hn|Hn]; [|eauto].
  assert (∀ w, mux_writer sh = Some w → ∃ j, holding j sh ≠ Nothing) as Hw.
  { intros w Hw. exists w. unfold holding. by rewrite decide_True. }
  destruct (mux_writer sh) as [w|] eqn:E; [by eapply Hw|].
  destruct (decide (mux_readers sh = ∅)) as [He|Hne]; [|apply set_choose_L in Hne as [j Hj]].
  - rewrite Hn in Hp. destruct p; cbn in Ha, Hp; try done; try (by destruct Hp).
    all: case_decide as Hd; [done|]. all: exfalso; naive_solver.
  - exists j. unfold holding. rewrite E. repeat case_decide; done.
Qed.
(** Whatever the client does, no request waits for ever: a request that is not
    answered can make its next access, or it waits for [writer_mux] and a request
    that holds it can make its own. *)
Theorem session_progress may_send st i r p (Hreach : rtc (session_step may_send) session_start st)
    (Hi : rn_threads st !! i = Some (r, p)) (Hrun : is_answered p = false) :
  (∀ u, is_Some (access i u p (rn_shared st))) ∨
  ∃ j r' p', j ≠ i ∧ rn_threads st !! j = Some (r', p') ∧ holding j (rn_shared st) ≠ Nothing ∧
    ∀ u, is_Some (access j u p' (rn_shared st)).
Proof.
  pose proof (running_reachable _ _ Hreach) as [Hd Hh _ _].
  destruct (access i (Ok true) p (rn_shared st)) as [x|] eqn:E; [left; by apply access_enabled; rewrite E|].
  right. assert (∃ j, holding j (rn_shared st) ≠ Nothing) as [j Hj].
  { eapply waits_for_holder; eauto. }
  destruct (lookup_lt_is_Some_2 _ _ (Hh j Hj)) as [[r' p'] Hl].
  pose proof (holder_enabled _ _ _ _ (Hd _ _ _ Hl) Hj) as Hen.
  exists j, r', p'. split_and!; [|done|done|by apply access_enabled].
  intros ->. simplify_eq. rewrite E in Hen. by destruct Hen.
Qed.

(** ** What the requests of a session may rely on

    Each access only adds: a number keeps its writer, a writer keeps its name, the
    offsets that were assigned, the sizes that were noted and - unless it takes them
    from an index that is reused - its size, and its chunk size once it has one. *)

Record writer_grows (wr wr' : Writer) : Prop := {
  wg_FidxName : FidxName wr' = FidxName wr;
  wg_ReuseCSUM : ReuseCSUM wr' = ReuseCSUM wr;
  wg_Size : ReuseCSUM wr = "" → wr_Size wr' = wr_Size wr;
  wg_Assignments : dom (Assignments wr) ⊆ dom (Assignments wr');
  wg_DynamicChunkSizes : dom (DynamicChunkSizes wr) ⊆ dom (DynamicChunkSizes wr');
  wg_Chunksize : ReuseCSUM wr = "" → Chunksize wr ≠ 0 → Chunksize wr' = Chunksize wr;
}.
#[export] Instance writer_grows_preorder : PreOrder writer_grows.
Proof.
  split; [intros wr; by split|]. intros w1 w2 w3 [A1 A2 A3 A4 A5 A6] [B1 B2 B3 B4 B5 B6].
  split; [congruence|congruence| |set_solver|set_solver|].
  - intros Hr. assert (ReuseCSUM w2 = "") as Hr2 by congruence. by rewrite B3, A3.
  - intros Hr Hc. assert (ReuseCSUM w2 = "") as Hr2 by congruence. specialize (A6 Hr Hc).
    rewrite <-A6. apply B6; [done|]. by rewrite A6.
Qed.
Record grows (sh sh' : shared) : Prop := {
  gr_Writers : sh_Writers sh ⊆ sh_Writers sh';
  gr_heap : ∀ a wr, sh_heap sh !! a = Some wr → ∃ wr', sh_heap sh' !! a = Some wr' ∧ writer_grows wr wr';
}.
#[export] Instance grows_preorder : PreOrder grows.
Proof.
  split; [intros sh; split; [done|intros a wr; by exists wr]|]. intros s1 s2 s3 [A1 A2] [B1 B2]. split; [by etrans|].
  intros a wr Ha. destruct (A2 _ _ Ha) as (w2 & H2 & G2). destruct (B2 _ _ H2) as (w3 & H3 & G3).
  exists w3. split; [done|by etrans].
Qed.

Lemma update_grows_at a f sh : (∀ wr, sh_heap sh !! a = Some wr → writer_grows wr (f wr)) → grows sh (update a f sh).
Proof.
  intros Hf. split; [done|]. intros b wr Hb. cbn. destruct (decide (b = a)) as [->|Hne].
  - exists (f wr). rewrite lookup_alter_eq, Hb. split; [done|by apply Hf].
  - exists wr. by rewrite lookup_alter_ne.
Qed.
Lemma update_grows a f sh : (∀ wr, writer_grows wr (f wr)) → grows sh (update a f sh).
Proof. intros Hf. by apply update_grows_at. Qed.
Lemma put_writer_grows wid wr sh :
  sh_Writers sh !! wid = None → (∀ a, is_Some (sh_heap sh !! a) → (a.2 < sh_allocated sh)%nat) →
  grows sh (put_writer wid wr sh).
Proof.
  intros Hw Hh. split; cbn; [by apply insert_subseteq|]. intros a w Ha. exists w. rewrite lookup_insert_ne; [done|].
  intros <-. assert (is_Some (sh_heap sh !! (wid, sh_allocated sh))) as H%Hh by eauto. cbn in H. lia.
Qed.
Lemma assign_grows offset b wr : writer_grows wr (set_Assignments (<[offset := b]> (Assignments wr)) wr).
Proof. split; cbn; try done. set_solver. Qed.
Lemma size_grows digest n wr :
  writer_grows wr (set_DynamicChunkSizes (<[digest := n]> (DynamicChunkSizes wr)) wr).
Proof. split; cbn; try done. set_solver. Qed.
Lemma CAS_grows n wr : writer_grows wr (if Chunksize wr =? 0 then set_sizes (wr_Size wr) n wr else wr).
Proof. destruct (Chunksize wr =? 0) eqn:E; [|done]. split; cbn; try done. lia. Qed.
(** Only the close of a writer that reuses an index sets its sizes. *)
Definition reuses (a : ptr) (sh : shared) : Prop := ∃ wr, sh_heap sh !! a = Some wr ∧ ReuseCSUM wr ≠ "".
Lemma put_sizes_grows a f g sh :
  reuses a sh → grows sh (update a (λ wr, set_sizes (f wr) (g wr) wr) sh).
Proof. intros (wr & Hwr & Hr). apply update_grows_at. intros wr' Hwr'. simplify_eq. by split. Qed.
Lemma reuses_grows a sh sh' : grows sh sh' → reuses a sh → reuses a sh'.
Proof.
  intros [_ Hg] (wr & Hwr & Hr). destruct (Hg _ _ Hwr) as (wr' & Hwr' & Hw). exists wr'. split; [done|].
  by rewrite (wg_ReuseCSUM _ _ Hw).
Qed.

(** ** What an answer promises *)

Definition writer_at (sh : shared) (wid : Z) (P : Writer → Prop) : Prop :=
  ∃ a wr, sh_Writers sh !! wid = Some a ∧ sh_heap sh !! a = Some wr ∧ P wr.

Definition promise (r : request_kind) (x : reply) (sh : shared) : Prop :=
  match r, x with
  | OpenWriter wr, Opened wid =>
      writer_at sh wid (λ w, FidxName w = FidxName wr ∧ ReuseCSUM w = ReuseCSUM wr ∧
                             (ReuseCSUM wr = "" → wr_Size w = wr_Size wr))
  | UploadChunk dynamic q, Uploaded _ =>
      writer_at sh (cr_WriterID q) (λ w,
        (cr_Size q ≠ 0 → ReuseCSUM w = "" → Chunksize w ≠ 0) ∧ (dynamic = true → is_Some (DynamicChunkSizes w !! cr_Digest q)))
  | (DynamicAssign req | FixedAssign req), Assigned =>
      ∀ i, (i < length (DigestList req))%nat → ∃ offset, OffsetList req !! i = Some offset ∧
        writer_at sh (Wid req) (λ w, is_Some (Assignments w !! i64 offset))
  | DynamicClose wid header known, Closed name index sizes =>
      writer_at sh wid (λ w, FidxName w = name ∧
        ∀ digest, is_Some (sizes !! digest) → is_Some (DynamicChunkSizes w !! digest))
  | FixedClose fuel wid reused stamped, ClosedFixed name index => writer_at sh wid (λ w, FidxName w = name)
  | _, _ => True
  end.

Lemma writer_at_grows sh sh' wid (P : Writer → Prop) :
  grows sh sh' → (∀ w w', writer_grows w w' → P w → P w') → writer_at sh wid P → writer_at sh' wid P.
Proof.
  intros [Hw Hh] HP (a & wr & Ha & Hwr & H). destruct (Hh _ _ Hwr) as (wr' & Hwr' & Hg).
  exists a, wr'. split_and!; [by eapply lookup_weaken|done|by eapply HP].
Qed.
Lemma assigned_grows o w w' : writer_grows w w' → is_Some (Assignments w !! o) → is_Some (Assignments w' !! o).
Proof. intros Hg. rewrite <-!elem_of_dom. apply (wg_Assignments _ _ Hg). Qed.
Lemma sized_grows d w w' : writer_grows w w' → is_Some (DynamicChunkSizes w !! d) → is_Some (DynamicChunkSizes w' !! d).
Proof. intros Hg. rewrite <-!elem_of_dom. apply (wg_DynamicChunkSizes _ _ Hg). Qed.
Lemma chunksize_grows w w' :
  writer_grows w w' → (ReuseCSUM w = "" → Chunksize w ≠ 0) → ReuseCSUM w' = "" → Chunksize w' ≠ 0.
Proof. intros Hg Hc. rewrite (wg_ReuseCSUM _ _ Hg). intros Hr. rewrite (wg_Chunksize _ _ Hg); auto. Qed.
Lemma promise_grows r x sh sh' : grows sh sh' → promise r x sh → promise r x sh'.
Proof.
  intros Hg. destruct r, x; cbn; try done.
  - apply writer_at_grows; [done|]. intros w w' [E1 E2 E3 _ _ _] (F1 & F2 & F3).
    rewrite E1, E2. split_and!; [done..|]. intros Hr. rewrite E3; [by apply F3|]. by rewrite F2.
  - apply writer_at_grows; [done|]. intros w w' Hw [Hc Hd]. split; [|intros E; by eapply sized_grows, Hd].
    intros Hq. by eapply chunksize_grows, Hc.
  - intros H i Hi. destruct (H i Hi) as (o & Ho & Hw). exists o. split; [done|].
    eapply writer_at_grows; [done| |done]. apply assigned_grows.
  - intros H i Hi. destruct (H i Hi) as (o & Ho & Hw). exists o. split; [done|].
    eapply writer_at_grows; [done| |done]. apply assigned_grows.
  - apply writer_at_grows; [done|]. intros w w' Hw [Hn H]. split; [by rewrite (wg_FidxName _ _ Hw)|].
    intros d Hd. by eapply sized_grows, H.
  - apply writer_at_grows; [done|]. intros w w' Hw. by rewrite (wg_FidxName _ _ Hw).
Qed.

(** A handler ends in [Q], whatever the others add before each of its accesses, and
    sets the sizes only of a writer that reuses an index. *)
Definition heap_ok (sh : shared) : Prop := ∀ wid a, sh_Writers sh !! wid = Some a → is_Some (sh_heap sh !! a).
Fixpoint ensures (Q : reply → shared → Prop) (p : prog) (sh : shared) : Prop :=
  match p with
  | Return r => Q r sh
  | AddInt32_CurWriter k => ∀ n, ensures Q (k n) sh
  | Lock k | Unlock k | RLock k | RUnlock k => ensures Q k sh
  | Writers_put wid wr k => ∀ sh', grows sh sh' → ensures Q k (put_writer wid wr sh')
  | Writers_get wid k => ∀ sh', grows sh sh' → heap_ok sh' → ensures Q (k (sh_Writers sh' !! wid)) sh'
  | Assignments_put a offset b k => ∀ sh', grows sh sh' →
      ensures Q k (update a (λ wr, set_Assignments (<[offset := b]> (Assignments wr)) wr) sh')
  | Assignments_get a _ k => ∀ b, ensures Q (k b) sh
  | Assignments_range a k => ∀ l, ensures Q (k l) sh
  | Chunksize_get a k | Size_get a k => ∀ n, ensures Q (k n) sh
  | ReuseCSUM_get a k => ∀ sh', grows sh sh' → ensures Q (k (ReuseCSUM (target a sh'))) sh'
  | FidxName_get a k => ∀ sh', grows sh sh' → ensures Q (k (FidxName (target a sh'))) sh'
  | Size_put a size k => reuses a sh ∧ ∀ sh', grows sh sh' →
      ensures Q k (update a (λ wr, set_sizes size (Chunksize wr) wr) sh')
  | Chunksize_put a size k => reuses a sh ∧ ∀ sh', grows sh sh' →
      ensures Q k (update a (λ wr, set_sizes (wr_Size wr) size wr) sh')
  | Chunksize_CAS a size k => ∀ sh', grows sh sh' →
      ensures Q k (update a (λ wr, if Chunksize wr =? 0 then set_sizes (wr_Size wr) size wr else wr) sh')
  | DynamicChunkSizes_Store a digest size k => ∀ sh', grows sh sh' →
      ensures Q k (update a (λ wr, set_DynamicChunkSizes (<[digest := size]> (DynamicChunkSizes wr)) wr) sh')
  | DynamicChunkSizes_Load a digest k => ∀ sh', grows sh sh' →
      ensures Q (k (DynamicChunkSizes (target a sh') !! digest)) sh'
  | chunkUploads_Do k => ∀ u, ensures Q (k u) sh
  | Store k => ∀ ok, ensures Q (k ok) sh
  end.

Lemma ensures_grows Q p sh sh' :
  (∀ x sh sh', grows sh sh' → Q x sh → Q x sh') → grows sh sh' → ensures Q p sh → ensures Q p sh'.
Proof.
  intros HQ. revert sh sh'. induction p; cbn [ensures]; intros s1 s2 Hg Hp; try (by eauto);
    try (split; [by eapply reuses_grows, Hp|]);
    intros s3 Hg3; intros; apply Hp; try done; by etrans.
Qed.
Lemma same_grows sh sh' : sh_Writers sh' = sh_Writers sh → sh_heap sh' = sh_heap sh → grows sh sh'.
Proof. intros Hw Hh. split; [by rewrite Hw|]. intros a wr. rewrite Hh. by exists wr. Qed.
Lemma access_ensures Q i u p sh p' sh' :
  (∀ x sh sh', grows sh sh' → Q x sh → Q x sh') → heap_ok sh →
  access i u p sh = Some (p', sh') → ensures Q p sh → ensures Q p' sh'.
Proof.
  intros HQ Hok Ha Hp. destruct p; cbn in Ha; try (case_decide; [|done]); simplify_eq; cbn [ensures] in Hp;
    first [by apply Hp|eapply ensures_grows; [exact HQ| |apply Hp]; by apply same_grows].
Qed.

Lemma writer_at_intro sh wid a (P : Writer → Prop) :
  sh_Writers sh !! wid = Some a → is_Some (sh_heap sh !! a) → (∀ wr, sh_heap sh !! a = Some wr → P wr) →
  writer_at sh wid P.
Proof. intros Ha [wr Hwr] HP. exists a, wr. by split_and!; [..|apply HP]. Qed.
Lemma update_lookup a f sh wr : sh_heap (update a f sh) !! a = Some wr → ∃ wr0, sh_heap sh !! a = Some wr0 ∧ wr = f wr0.
Proof. cbn. rewrite lookup_alter_eq. intros (wr0 & -> & ->)%fmap_Some. eauto. Qed.
(** The pointer that was read is still the writer's. *)
Lemma pointer_kept sh sh' wid a :
  grows sh sh' → sh_Writers sh !! wid = Some a → is_Some (sh_heap sh !! a) →
  sh_Writers sh' !! wid = Some a ∧ is_Some (sh_heap sh' !! a).
Proof.
  intros [Hw Hh] Ha [wr Hwr]. split; [by eapply lookup_weaken|]. destruct (Hh _ _ Hwr) as (wr' & -> & _). by eexists.
Qed.

Lemma open_ensures wr sh : ensures (promise (OpenWriter wr)) (open_prog wr) sh.
Proof.
  intros wid sh' Hg. cbn. exists (wid, sh_allocated sh'), wr. cbn. by rewrite !lookup_insert_eq.
Qed.
Lemma upload_ensures dynamic q sh : ensures (promise (UploadChunk dynamic q)) (upload_prog dynamic q) sh.
Proof.
  intros s1 Hg1 Hok1. cbn. destruct (sh_Writers s1 !! cr_WriterID q) as [a|] eqn:Ha; cbn; [|done].
  intros [known|e|e]; cbn; [|done..]. intros s2 Hg2.
  destruct (pointer_kept _ _ _ _ Hg2 Ha (Hok1 _ _ Ha)) as [Ha2 Hh2].
  set (s2' := update a _ s2). assert (grows s2 s2') as Hg2' by apply update_grows, CAS_grows.
  destruct (pointer_kept _ _ _ _ Hg2' Ha2 Hh2) as [Ha2' Hh2'].
  assert (writer_at s2' (cr_WriterID q) (λ w, cr_Size q ≠ 0 → ReuseCSUM w = "" → Chunksize w ≠ 0)) as Hcas.
  { eapply writer_at_intro; [done..|]. intros wr (wr0 & _ & ->)%update_lookup. destruct (_ =? 0) eqn:E; [done|]. lia. }
  destruct dynamic; cbn.
  - intros s3 Hg3. destruct (pointer_kept _ _ _ _ Hg3 Ha2' Hh2') as [Ha3 Hh3]. set (s3' := update a _ s3).
    assert (grows s3 s3') as Hg3' by apply update_grows, size_grows.
    destruct (pointer_kept _ _ _ _ Hg3' Ha3 Hh3) as [Ha3' Hh3'].
    assert (writer_at s3' (cr_WriterID q) (λ w, cr_Size q ≠ 0 → ReuseCSUM w = "" → Chunksize w ≠ 0)) as (a' & wr & Ha' & Hwr & Hc).
    { eapply (writer_at_grows s2'); [by etrans| |done]. intros w w' Hw Hc Hq. by eapply chunksize_grows, Hc. }
    simplify_eq. exists a, wr. split_and!; [done..|]. intros _.
    apply update_lookup in Hwr as (wr0 & _ & ->). cbn. by rewrite lookup_insert_eq.
  - destruct Hcas as (a' & wr & Ha' & Hwr & Hc). by exists a', wr.
Qed.

Definition assigned (req : AssignmentRequest) (n : nat) (sh : shared) : Prop :=
  ∀ i, (i < n)%nat → ∃ offset, OffsetList req !! i = Some offset ∧
    writer_at sh (Wid req) (λ w, is_Some (Assignments w !! i64 offset)).
Lemma assigned_kept req n sh sh' : grows sh sh' → assigned req n sh → assigned req n sh'.
Proof.
  intros Hg H i Hi. destruct (H i Hi) as (o & Ho & Hw). exists o. split; [done|].
  eapply writer_at_grows; [done| |done]. apply assigned_grows.
Qed.
(** A request that ends well only when all its offsets are assigned. *)
Definition assign_promise (req : AssignmentRequest) (x : reply) (sh : shared) : Prop :=
  x = Assigned → assigned req (length (DigestList req)) sh.
Lemma assign_steps_ensure req m n sh :
  (n + m = length (DigestList req))%nat → assigned req n sh →
  ensures (assign_promise req) (foldr (assign_step req) (Return Assigned) (seq n m)) sh.
Proof.
  revert n sh. induction m as [|m IH]; intros n sh Hl Hn; cbn [seq foldr].
  - intros _. by replace (length (DigestList req)) with n by lia.
  - intros s1 Hg1 Hok1. destruct (sh_Writers s1 !! Wid req) as [a|] eqn:Ha; [|done].
    destruct (OffsetList req !! n) as [o|] eqn:Ho; [|done]. intros s2 Hg2. apply IH; [lia|].
    destruct (pointer_kept _ _ _ _ Hg2 Ha (Hok1 _ _ Ha)) as [Ha2 Hh2]. set (s2' := update a _ s2).
    assert (grows s2 s2') as Hg2' by apply update_grows, assign_grows.
    destruct (pointer_kept _ _ _ _ Hg2' Ha2 Hh2) as [Ha2' Hh2'].
    intros i Hi. destruct (decide (i = n)) as [->|Hne].
    + exists o. split; [done|]. eapply writer_at_intro; [done..|]. intros wr (wr0 & _ & ->)%update_lookup.
      cbn. by rewrite lookup_insert_eq.
    + apply (assigned_kept req n sh); [by etrans; [|etrans]|done|lia].
Qed.
Lemma assign_ensures req sh : ensures (assign_promise req) (dynamic_assign_prog req) sh.
Proof. apply assign_steps_ensure; [done|]. intros i Hi. lia. Qed.
Lemma fixed_assign_ensures req sh : ensures (assign_promise req) (fixed_assign_prog req) sh.
Proof.
  unfold fixed_assign_prog. destruct (negb _).
  { intros s1 _ _. by destruct (sh_Writers s1 !! Wid req). }
  revert sh. induction (OffsetList req) as [|o l IH]; intros sh; [apply assign_ensures|]. cbn [foldr].
  intros s1 _ _. destruct (sh_Writers s1 !! Wid req); [|done]. intros chunksize.
  destruct (chunksize =? 0); [done|]. destruct (o `mod` chunksize =? 0); [apply IH|].
  intros s2 _ _. by destruct (sh_Writers s2 !! Wid req).
Qed.

(** A call about the file of a writer goes by its name. *)
Lemma stored_ensures Q wid k sh :
  (∀ name sh', grows sh sh' → writer_at sh' wid (λ w, FidxName w = name) → ensures Q (k name) sh') →
  (∀ sh', Q Failed sh') → (∀ e sh', Q (Crashed e) sh') → ensures Q (stored_as wid k) sh.
Proof.
  intros Hk Hf Hc s1 Hg1 Hok1. destruct (sh_Writers s1 !! wid) as [a|] eqn:Ha; [|apply Hc].
  intros s2 Hg2 [|].
  - apply Hk; [by etrans|]. destruct (pointer_kept _ _ _ _ Hg2 Ha (Hok1 _ _ Ha)) as [Ha2 [wr Hwr]].
    exists a, wr. split_and!; [done..|]. unfold target. by rewrite Hwr.
  - intros s3 _ _. destruct (sh_Writers s3 !! wid); [|apply Hc]. intros s4 _. apply Hf.
Qed.

Definition close_promise (wid : Z) (x : reply) (sh : shared) : Prop :=
  match x with
  | Closed name index sizes =>
      writer_at sh wid (λ w, FidxName w = name ∧
        ∀ digest, is_Some (sizes !! digest) → is_Some (DynamicChunkSizes w !! digest))
  | _ => True
  end.
Lemma sizes_kept (m : gmap string Z) sh sh' wid :
  grows sh sh' →
  writer_at sh wid (λ w, ∀ digest, is_Some (m !! digest) → is_Some (DynamicChunkSizes w !! digest)) →
  writer_at sh' wid (λ w, ∀ digest, is_Some (m !! digest) → is_Some (DynamicChunkSizes w !! digest)).
Proof.
  intros Hg. apply writer_at_grows; [done|]. intros w w' Hw H d Hd. by eapply sized_grows, H.
Qed.
Lemma entries_ensure wid keys acc sh :
  writer_at sh wid (λ w, ∀ digest, is_Some (acc.2 !! digest) → is_Some (DynamicChunkSizes w !! digest)) →
  ensures (close_promise wid) (entries_prog wid keys acc) sh.
Proof.
  revert acc sh. induction keys as [|key keys IH]; intros acc sh Hacc; cbn [entries_prog].
  { apply stored_ensures; [|done..]. intros name s1 Hg1 (a & wr & Ha & Hwr & Hn).
    assert (writer_at s1 wid (λ w, FidxName w = name ∧
      ∀ digest, is_Some (acc.2 !! digest) → is_Some (DynamicChunkSizes w !! digest))) as Hboth.
    { eapply sizes_kept in Hacc as (a' & wr' & Ha' & Hwr' & Hs); [|exact Hg1]. simplify_eq. by exists a, wr. }
    apply stored_ensures; [|done..]. intros _ s2 Hg2 _. eapply writer_at_grows; [exact Hg2| |exact Hboth].
    intros w w' Hw [Hn' Hs]. split; [by rewrite (wg_FidxName _ _ Hw)|]. intros d Hd. by eapply sized_grows, Hs. }
  intros s1 Hg1 _. destruct (sh_Writers s1 !! wid); [|done]. intros b.
  intros s2 Hg2 Hok2. destruct (sh_Writers s2 !! wid) as [a|] eqn:Ha; [|done]. intros s3 Hg3.
  destruct (pointer_kept _ _ _ _ Hg3 Ha (Hok2 _ _ Ha)) as [Ha3 Hh3].
  destruct (DynamicChunkSizes (target a s3) !! hex_EncodeToString (default [] b)) as [n|] eqn:En; [|done].
  assert (writer_at s3 wid (λ w, ∀ digest, is_Some ((<[hex_EncodeToString (default [] b) := n]> acc.2) !! digest) →
            is_Some (DynamicChunkSizes w !! digest))) as Hnew.
  { eapply sizes_kept in Hacc as (a' & wr & Ha' & Hwr & Hs); [|by etrans; [|etrans]]. simplify_eq.
    exists a, wr. split_and!; [done..|]. intros d [<-|Hd]%lookup_insert_is_Some'; [|by apply Hs].
    unfold target in En. rewrite Hwr in En. by eexists. }
  intros s4 Hg4 Hok4. destruct (sh_Writers s4 !! wid) as [a4|] eqn:Ha4; [|done]. intros b4.
  apply IH. by eapply sizes_kept.
Qed.
Lemma dynamic_close_ensures wid header known sh :
  ensures (close_promise wid) (dynamic_close_prog wid header known) sh.
Proof.
  unfold dynamic_close_prog. revert sh. induction known as [|kv known IH]; intros sh; cbn [foldr].
  - intros s1 Hg1 Hok1. destruct (sh_Writers s1 !! wid) as [a|] eqn:Ha; [|done]. intros keys.
    apply entries_ensure. eapply writer_at_intro; [done|by eapply Hok1|]. cbn. intros wr _ d [n Hd]. done.
  - intros s1 Hg1 Hok1. destruct (sh_Writers s1 !! wid) as [a|] eqn:Ha; [|done]. intros s2 Hg2. apply IH.
Qed.

(** A fixed close sets no sizes it may not, and names its file. *)
Definition fixed_promise (wid : Z) (x : reply) (sh : shared) : Prop :=
  match x with ClosedFixed name index => writer_at sh wid (λ w, FidxName w = name) | _ => True end.
Lemma fill_ensures fuel wid i k out sh : ensures (fixed_promise wid) (fill_prog fuel wid i k out) sh.
Proof.
  revert i k out sh. induction fuel as [|fuel IH]; intros i k out sh; [done|]. cbn [fill_prog].
  intros s1 _ _. destruct (sh_Writers s1 !! wid); [|done]. intros size. destruct (i <? size).
  2: { apply stored_ensures; [|done..]. intros name s2 _ Hn. apply stored_ensures; [|done..]. intros _ s3 Hg3 _.
       eapply writer_at_grows; [exact Hg3| |exact Hn]. intros w w' Hw. by rewrite (wg_FidxName _ _ Hw). }
  intros s2 _ _. destruct (sh_Writers s2 !! wid); [|done]. intros [val|].
  - destruct (copy_into _ _ val out); [|done..]. intros s3 _ _. destruct (sh_Writers s3 !! wid); [|done]. intros n. apply IH.
  - intros s3 _ _. destruct (sh_Writers s3 !! wid); [|done]. intros s4 _. destruct (bool_decide _); [done|].
    intros s5 _ _. destruct (sh_Writers s5 !! wid); [|done]. intros n. apply IH.
Qed.
Lemma stamped_ensures fuel wid stamped out sh : ensures (fixed_promise wid) (stamped_prog fuel wid stamped out) sh.
Proof. unfold stamped_prog. destruct (stamped out); [apply fill_ensures|done..]. Qed.
Lemma new_ensures fuel wid stamped sh : ensures (fixed_promise wid) (new_prog fuel wid stamped) sh.
Proof.
  intros s3 _ _. destruct (sh_Writers s3 !! wid); [|done]. intros keys.
  intros s4 _ _. destruct (sh_Writers s4 !! wid); [|done]. intros size.
  intros s5 _ _. destruct (sh_Writers s5 !! wid); [|done]. intros chunksize.
  destruct (new_header _ _ _); [apply stamped_ensures|done..].
Qed.
Lemma reuse_ensures fuel wid index stamped a sh :
  sh_Writers sh !! wid = Some a → reuses a sh → ensures (fixed_promise wid) (reuse_prog fuel wid index stamped) sh.
Proof.
  intros Ha2 Hr2. assert (is_Some (sh_heap sh !! a)) as Hwr by (destruct Hr2 as (wr & Hwr & _); by eexists).
  destruct index as [out|e|e]; [| |done].
  2: { intros s3 _ _. destruct (sh_Writers s3 !! wid); [|done]. by intros s4 _. }
  intros s3 Hg3 _. destruct (pointer_kept _ _ _ _ Hg3 Ha2 Hwr) as [Ha3 Hh3]. rewrite Ha3.
  destruct (reslice 64 72 out) as [size|e|e]; [|done..]. split; [by eapply reuses_grows|]. intros s4 Hg4.
  destruct (pointer_kept _ _ _ _ Hg4 Ha3 Hh3) as [Ha4 Hh4]. intros s5 Hg5 _.
  assert (grows s4 s5) as Hg45.
  { etrans; [|exact Hg5]. apply (put_sizes_grows a (λ _, LE_Uint64 size) Chunksize).
    eapply reuses_grows, Hr2. by etrans. }
  destruct (pointer_kept _ _ _ _ Hg45 Ha4 Hh4) as [Ha5 _]. rewrite Ha5.
  destruct (reslice 72 80 out) as [chunksize|e|e]; [|done..].
  split; [|intros s6 _; apply stamped_ensures]. eapply reuses_grows, Hr2. etrans; [|exact Hg45]. by etrans.
Qed.
Lemma fixed_close_ensures fuel wid reused stamped sh :
  ensures (fixed_promise wid) (fixed_close_prog fuel wid reused stamped) sh.
Proof.
  intros s1 Hg1 Hok1. destruct (sh_Writers s1 !! wid) as [a|] eqn:Ha; [|done]. intros s2 Hg2.
  destruct (pointer_kept _ _ _ _ Hg2 Ha (Hok1 _ _ Ha)) as [Ha2 [wr Hwr]].
  destruct (negb (bool_decide (ReuseCSUM (target a s2) = ""))) eqn:E; [|apply new_ensures].
  assert (reuses a s2) as Hr2.
  { apply negb_true_iff, bool_decide_eq_false in E. unfold target in E. rewrite Hwr in E. by exists wr. }
  intros s3 Hg3 Hok3. destruct (pointer_kept _ _ _ _ Hg3 Ha2 (ex_intro _ wr Hwr)) as [Ha3 Hh3]. rewrite Ha3.
  intros s4 Hg4. destruct (pointer_kept _ _ _ _ Hg4 Ha3 Hh3) as [Ha4 _].
  apply (reuse_ensures _ _ _ _ a); [done|]. eapply reuses_grows, Hr2. by etrans.
Qed.

Lemma ensures_mono Q Q' p sh :
  (∀ x sh, Q x sh → Q' x sh) → ensures Q p sh → ensures Q' p sh.
Proof.
  intros HQ. revert sh. induction p; cbn [ensures]; intros s1 Hp; try (destruct Hp as [? Hp]; split; [done|]); eauto.
Qed.
Lemma handler_ensures r sh : ensures (promise r) (handler r) sh.
Proof.
  destruct r as [wr|dynamic q|req|req|wid header known|fuel wid reused stamped]; cbn [handler].
  - apply open_ensures.
  - apply upload_ensures.
  - eapply ensures_mono; [|apply assign_ensures]. intros x s H. destruct x; try done. by apply H.
  - eapply ensures_mono; [|apply fixed_assign_ensures]. intros x s H. destruct x; try done. by apply H.
  - eapply ensures_mono; [|apply dynamic_close_ensures]. intros x s H. by destruct x.
  - eapply ensures_mono; [|apply fixed_close_ensures]. intros x s H. by destruct x.
Qed.

(** ** The numbers of the writers *)

(** The number an opening has drawn, and whether its writer is in the map. *)
Definition opened_wid (p : prog) : option Z :=
  match p with
  | Lock (Writers_put wid _ _) | Writers_put wid _ _ | Unlock (Return (Opened wid)) | Return (Opened wid) => Some wid
  | _ => None
  end.
Definition opened_stored (p : prog) : bool := match p with Unlock _ | Return _ => true | _ => false end.
Definition wid_of (t : request_kind * prog) : option Z := if is_open t.1 then opened_wid t.2 else None.

(** Where an opening can be. *)
Inductive open_at (wr : Writer) : prog → Prop :=
| at_start : open_at wr (open_prog wr)
| at_lock wid : open_at wr (Lock (Writers_put wid wr (Unlock (Return (Opened wid)))))
| at_put wid : open_at wr (Writers_put wid wr (Unlock (Return (Opened wid))))
| at_unlock wid : open_at wr (Unlock (Return (Opened wid)))
| at_end wid : open_at wr (Return (Opened wid)).

Definition count {A} (f : A → bool) (l : list A) : Z := Z.of_nat (length (List.filter f l)).
Definition is_opening (t : request_kind * prog) : bool := is_open t.1.
Definition has_number (t : request_kind * prog) : bool := bool_decide (is_Some (wid_of t)).

Lemma count_app {A} (f : A → bool) l x : count f (l ++ [x]) = count f l + (if f x then 1 else 0).
Proof. unfold count. rewrite List.filter_app, length_app. cbn. destruct (f x); cbn; lia. Qed.
Lemma count_insert {A} (f : A → bool) l i x y :
  l !! i = Some x → count f (<[i := y]> l) + (if f x then 1 else 0) = count f l + (if f y then 1 else 0).
Proof.
  unfold count. revert i. induction l as [|z l IH]; intros [|i] Hi; [done|done|injection Hi as ->|specialize (IH i Hi)].
  - cbn. destruct (f x), (f y); cbn; lia.
  - change (<[S i := y]> (z :: l)) with (z :: <[i := y]> l). cbn [List.filter]. destruct (f z); cbn [length]; lia.
Qed.
Lemma count_le {A} (f g : A → bool) l : (∀ x, f x = true → g x = true) → 0 ≤ count f l ≤ count g l.
Proof.
  intros Hfg. unfold count. induction l as [|x l IH]; cbn; [lia|].
  destruct (f x) eqn:E; [rewrite (Hfg x E); cbn; lia|]. destruct (g x); cbn; lia.
Qed.

Record numbers_ok (st : running) : Prop := {
  no_at : ∀ i wr p, rn_threads st !! i = Some (OpenWriter wr, p) → open_at wr p;
  no_range : ∀ i t wid, rn_threads st !! i = Some t → wid_of t = Some wid → 0 < wid ≤ sh_CurWriter (rn_shared st);
  no_distinct : ∀ i j t t' wid, rn_threads st !! i = Some t → rn_threads st !! j = Some t' →
    wid_of t = Some wid → wid_of t' = Some wid → i = j;
  no_stored : ∀ wid, is_Some (sh_Writers (rn_shared st) !! wid) →
    ∃ i t, rn_threads st !! i = Some t ∧ wid_of t = Some wid ∧ opened_stored t.2 = true;
  no_count : sh_CurWriter (rn_shared st) = count has_number (rn_threads st);
  no_heap : heap_ok (rn_shared st) ∧
    ∀ a, is_Some (sh_heap (rn_shared st) !! a) → (a.2 < sh_allocated (rn_shared st))%nat;
}.

Lemma open_at_access wr i u p sh p' sh' : access i u p sh = Some (p', sh') → open_at wr p → open_at wr p'.
Proof. intros Ha Hp. destruct Hp; cbn in Ha; try (case_decide; [|done]); simplify_eq; constructor. Qed.
(** Only an opening that draws its number or stores its writer changes the maps. *)
Definition same_maps (sh sh' : shared) : Prop :=
  sh_CurWriter sh' = sh_CurWriter sh ∧ sh_Writers sh' = sh_Writers sh ∧ sh_allocated sh' = sh_allocated sh ∧
  ∀ a, is_Some (sh_heap sh' !! a) ↔ is_Some (sh_heap sh !! a).
Lemma access_maps i u p sh p' sh' :
  access i u p sh = Some (p', sh') →
  match p with
  | AddInt32_CurWriter k => sh' = add_CurWriter sh
  | Writers_put wid wr k => sh' = put_writer wid wr sh
  | _ => same_maps sh sh'
  end.
Proof.
  intros Ha. destruct p; cbn in Ha; try (case_decide; [|done]); simplify_eq; try done;
    (split_and!; [done..|]); intros ?; cbn; by rewrite lookup_alter_is_Some.
Qed.

(** A request that moves on without a new number. *)
Lemma numbers_move ts sh i r p p' :
  numbers_ok (mkRunning ts sh) → ts !! i = Some (r, p) →
  wid_of (r, p') = wid_of (r, p) → (wid_of (r, p) ≠ None → opened_stored p = true → opened_stored p' = true) →
  (∀ wr, r = OpenWriter wr → open_at wr p') →
  numbers_ok (mkRunning (<[i := (r, p')]> ts) sh).
Proof.
  intros [H1 H2 H3 H4 H5 H6] Hi Hw Hs Hat; cbn in *.
  assert (∀ j t, <[i := (r, p')]> ts !! j = Some t → ∃ t0, ts !! j = Some t0 ∧ wid_of t0 = wid_of t) as Hback.
  { intros j t [(<- & <- & _)|[_ Hj]]%list_lookup_insert_Some; [by exists (r, p)|by exists t]. }
  split; cbn; [| | | | |done].
  - intros j wr q [(<- & [= -> <-] & _)|[_ Hj]]%list_lookup_insert_Some; [by apply Hat|by eapply H1].
  - intros j t wid (t0 & Hj & <-)%Hback. by apply (H2 j).
  - intros j k t t' wid (t0 & Hj & <-)%Hback (t1 & Hk & <-)%Hback. by apply (H3 j k t0 t1).
  - intros wid (j & t & Hj & Ht & Hst)%H4. destruct (decide (j = i)) as [->|Hne].
    + exists i, (r, p'). simplify_eq. rewrite Hw. split_and!; [|done|apply Hs; [by rewrite Ht|done]].
      apply list_lookup_insert_eq. by eapply lookup_lt_Some.
    + exists j, t. by rewrite list_lookup_insert_ne.
  - rewrite H5. pose proof (count_insert has_number ts i (r, p) (r, p') Hi) as Hc.
    unfold has_number in Hc at 2 4. rewrite Hw in Hc. lia.
Qed.
Lemma numbers_shared ts sh sh' : same_maps sh sh' → numbers_ok (mkRunning ts sh) → numbers_ok (mkRunning ts sh').
Proof.
  intros (E1 & E2 & E3 & E4) [H1 H2 H3 H4 H5 [H6 H7]]. cbn in *.
  split; cbn; rewrite ?E1, ?E2, ?E3; [done..|]. unfold heap_ok. rewrite E2.
  split; [|intros a Ha%E4; by apply H7]. intros wid a Ha. apply E4. by eapply H6.
Qed.

(** Drawing a number. *)
Lemma numbers_draw ts sh i wr :
  numbers_ok (mkRunning ts sh) → ts !! i = Some (OpenWriter wr, open_prog wr) → count is_opening ts < 2 ^ 31 →
  numbers_ok (mkRunning
    (<[i := (OpenWriter wr, Lock (Writers_put (sh_CurWriter sh + 1) wr (Unlock (Return (Opened (sh_CurWriter sh + 1))))))]> ts)
    (mkShared (sh_CurWriter sh + 1) (sh_Writers sh) (sh_heap sh) (sh_allocated sh) (mux_writer sh) (mux_readers sh))).
Proof.
  intros [H1 H2 H3 H4 H5 H6] Hi Hb; cbn in *. set (wid := sh_CurWriter sh + 1). set (t' := (OpenWriter wr, _)).
  assert (0 ≤ sh_CurWriter sh) as Hpos by (rewrite H5; unfold count; lia).
  split; cbn; [| | | | |done].
  - intros j wr' q [(<- & [= -> <-] & _)|[_ Hj]]%list_lookup_insert_Some; [constructor|by eapply H1].
  - intros j t n [(<- & <- & _)|[_ Hj]]%list_lookup_insert_Some Hn; [injection Hn as <-; lia|].
    pose proof (H2 j t n Hj Hn). lia.
  - intros j k t1 t2 n [(<- & <- & _)|[Nj Hj]]%list_lookup_insert_Some [(<- & <- & _)|[Nk Hk]]%list_lookup_insert_Some E1 E2.
    + done.
    + injection E1 as <-. pose proof (H2 k t2 _ Hk E2). lia.
    + injection E2 as <-. pose proof (H2 j t1 _ Hj E1). lia.
    + by eapply H3.
  - intros n (j & t & Hj & Ht & Hst)%H4. exists j, t. rewrite list_lookup_insert_ne; [done|].
    intros <-. by simplify_eq.
  - pose proof (count_insert has_number ts i _ t' Hi) as Hc. cbn in Hc. unfold wid. lia.
Qed.

(** Storing the writer. *)
Lemma numbers_store ts sh i wr wid :
  numbers_ok (mkRunning ts sh) → ts !! i = Some (OpenWriter wr, Writers_put wid wr (Unlock (Return (Opened wid)))) →
  sh_Writers sh !! wid = None ∧
  numbers_ok (mkRunning (<[i := (OpenWriter wr, Unlock (Return (Opened wid)))]> ts) (put_writer wid wr sh)).
Proof.
  intros Hok Hi. assert (sh_Writers sh !! wid = None) as Hfree.
  { destruct (sh_Writers sh !! wid) as [a|] eqn:E; [|done].
    destruct (no_stored _ Hok wid) as (j & t & Hj & Ht & Hst); [cbn; by rewrite E|]. cbn in Hj.
    rewrite (no_distinct _ Hok j i t _ wid Hj Hi Ht) in Hj by done. by simplify_eq. }
  split; [done|]. destruct (no_heap _ Hok) as [Hv Hf].
  assert (numbers_ok (mkRunning (<[i := (OpenWriter wr, Unlock (Return (Opened wid)))]> ts) sh)) as [H1 H2 H3 H4 H5 _].
  { eapply numbers_move; [done..|]. intros ? [= ->]. constructor. }
  split; cbn in *; [done|done|done| |done|].
  - intros n [<-|Hn]%lookup_insert_is_Some'; [|by apply H4].
    exists i, (OpenWriter wr, Unlock (Return (Opened wid))). split_and!; [|done|done].
    apply list_lookup_insert_eq. by eapply lookup_lt_Some.
  - split.
    + intros n a. cbn. intros [[<- <-]|[_ Ha]]%lookup_insert_Some; [by rewrite lookup_insert_eq|].
      rewrite lookup_insert_is_Some'. right. by eapply Hv.
    + intros a [<-|Ha]%lookup_insert_is_Some'; cbn; [lia|]. apply Hf in Ha. cbn in Ha. lia.
Qed.

Lemma access_grows Q i u p sh p' sh' :
  access i u p sh = Some (p', sh') → (∀ wid wr k, p ≠ Writers_put wid wr k) → ensures Q p sh → grows sh sh'.
Proof.
  intros Ha Hp Hens. destruct p; cbn in Ha; try (case_decide; [|done]); simplify_eq; try done; try by apply same_grows.
  - by destruct (Hp wid wr p').
  - apply update_grows, assign_grows.
  - apply (put_sizes_grows p wr_Size (λ _, size)), Hens.
  - apply (put_sizes_grows p (λ _, size) Chunksize), Hens.
  - apply update_grows, CAS_grows.
  - apply update_grows, size_grows.
Qed.

(** ** Where the values come from *)

(** A writer is what its opening made of it and the requests for it have added. *)
Record made_from (rs : list request_kind) (wid : Z) (wr0 w : Writer) : Prop := {
  mf_FidxName : FidxName w = FidxName wr0;
  mf_ReuseCSUM : ReuseCSUM w = ReuseCSUM wr0;
  mf_Size : ReuseCSUM wr0 = "" → wr_Size w = wr_Size wr0;
  mf_Chunksize : ReuseCSUM wr0 = "" →
    Chunksize w = Chunksize wr0 ∨ Chunksize wr0 = 0 ∧ ∃ r, r ∈ rs ∧ offers r wid (Chunksize w);
  mf_Assignments o b : Assignments w !! o = Some b →
    Assignments wr0 !! o = Some b ∨ ∃ r, r ∈ rs ∧ assigns r wid o b;
  mf_DynamicChunkSizes digest n : DynamicChunkSizes w !! digest = Some n →
    DynamicChunkSizes wr0 !! digest = Some n ∨ ∃ r, r ∈ rs ∧ notes r wid digest n;
}.
Definition opened_by (ts : list (request_kind * prog)) (wid : Z) (wr0 : Writer) : Prop :=
  ∃ i p, ts !! i = Some (OpenWriter wr0, p) ∧ opened_wid p = Some wid.
Definition made_ok (ts : list (request_kind * prog)) (sh : shared) : Prop := ∀ a w,
  sh_heap sh !! a = Some w → ∃ wr0, opened_by ts a.1 wr0 ∧ made_from ts.*1 a.1 wr0 w.

Lemma made_from_more rs rs' wid wr0 w : rs ⊆ rs' → made_from rs wid wr0 w → made_from rs' wid wr0 w.
Proof. intros Hs [H1 H2 H3 H4 H5 H6]. split; [done..|naive_solver|naive_solver|naive_solver]. Qed.
Lemma made_assign rs wid wr0 w o b r :
  r ∈ rs → assigns r wid o b → made_from rs wid wr0 w → made_from rs wid wr0 (set_Assignments (<[o := b]> (Assignments w)) w).
Proof.
  intros Hr Ha [H1 H2 H3 H4 H5 H6]. split; [done..| |done]. cbn.
  intros o' b' [[<- <-]|[_ H]]%lookup_insert_Some; [right; eauto|by apply H5].
Qed.
Lemma made_note rs wid wr0 w d n r :
  r ∈ rs → notes r wid d n → made_from rs wid wr0 w →
  made_from rs wid wr0 (set_DynamicChunkSizes (<[d := n]> (DynamicChunkSizes w)) w).
Proof.
  intros Hr Ha [H1 H2 H3 H4 H5 H6]. split; [done..|]. cbn.
  intros d' n' [[<- <-]|[_ H]]%lookup_insert_Some; [right; eauto|by apply H6].
Qed.
Lemma made_offer rs wid wr0 w n r :
  r ∈ rs → offers r wid n → made_from rs wid wr0 w →
  made_from rs wid wr0 (if Chunksize w =? 0 then set_sizes (wr_Size w) n w else w).
Proof.
  intros Hr Ha HM. pose proof HM as [H1 H2 H3 H4 H5 H6]. destruct (Chunksize w =? 0) eqn:E; [|done]. split; [done..| |done|done]. cbn.
  intros Hu. right. destruct (H4 Hu) as [Hc|[Hc _]]; (split; [lia|]); eauto.
Qed.
(** The sizes of a writer that reuses an index are those of the index. *)
Lemma made_sizes rs wid wr0 w f g :
  ReuseCSUM w ≠ "" → made_from rs wid wr0 w → made_from rs wid wr0 (set_sizes f g w).
Proof. intros Hr [H1 H2 H3 H4 H5 H6]. split; try done; cbn; congruence. Qed.

Lemma opened_wid_access wr i u p sh p' sh' wid :
  open_at wr p → access i u p sh = Some (p', sh') → opened_wid p = Some wid → opened_wid p' = Some wid.
Proof. intros Hat Ha Hw. destruct Hat; cbn in Ha; try (case_decide; [|done]); by simplify_eq. Qed.
Lemma opened_by_move ts sh i r p u p' sh' wid wr0 :
  numbers_ok (mkRunning ts sh) → ts !! i = Some (r, p) → access i u p sh = Some (p', sh') →
  opened_by ts wid wr0 → opened_by (<[i := (r, p')]> ts) wid wr0.
Proof.
  intros Hn Hi Ha (j & q & Hj & Hw). destruct (decide (j = i)) as [->|Hne].
  - simplify_eq. exists i, p'. split; [apply list_lookup_insert_eq; by eapply lookup_lt_Some|].
    eapply opened_wid_access; [by eapply (no_at _ Hn)|done..].
  - exists j, q. by rewrite list_lookup_insert_ne.
Qed.
Lemma made_update (P : ptr → Writer → Prop) a f sh :
  (∀ w, sh_heap sh !! a = Some w → P a w → P a (f w)) → (∀ b w, sh_heap sh !! b = Some w → P b w) →
  ∀ b w, sh_heap (update a f sh) !! b = Some w → P b w.
Proof.
  intros Hf Hall b w. destruct (decide (b = a)) as [->|Hne].
  - intros (w0 & Hw & ->)%update_lookup. auto.
  - cbn. rewrite lookup_alter_ne by done. apply Hall.
Qed.
Lemma made_move ts sh i r p u p' sh' :
  numbers_ok (mkRunning ts sh) → ts !! i = Some (r, p) → access i u p sh = Some (p', sh') →
  disciplined r (holding i sh) p → ensures (promise r) p sh →
  made_ok ts sh → made_ok (<[i := (r, p')]> ts) sh'.
Proof.
  intros Hn Hi Ha Hd He HM.
  assert (((<[i := (r, p')]> ts).*1) = ts.*1) as Hts.
  { rewrite list_fmap_insert. apply list_insert_id. by rewrite list_lookup_fmap, Hi. }
  assert (r ∈ ts.*1) as Hr by (apply list_elem_of_fmap; exists (r, p); split; [done|by eapply list_elem_of_lookup_2]).
  assert (∀ a w, sh_heap sh !! a = Some w → ∃ wr0, opened_by (<[i := (r, p')]> ts) a.1 wr0 ∧ made_from ts.*1 a.1 wr0 w) as HM'.
  { intros a w Hw. destruct (HM a w Hw) as (wr0 & Ho & Hf). exists wr0. split; [by eapply opened_by_move|done]. }
  assert (∀ a f, sh' = update a f sh →
    (∀ wr0 w, sh_heap sh !! a = Some w → made_from ts.*1 a.1 wr0 w → made_from ts.*1 a.1 wr0 (f w)) →
    made_ok (<[i := (r, p')]> ts) sh') as Hupd.
  { intros a f -> Hf. unfold made_ok. rewrite Hts.
    apply (made_update (λ a w, ∃ wr0, opened_by (<[i := (r, p')]> ts) a.1 wr0 ∧ made_from ts.*1 a.1 wr0 w)); [|done].
    intros w Hw (wr0 & Ho & H0). exists wr0. split; [done|by apply Hf]. }
  unfold made_ok in *. rewrite Hts in *.
  destruct p; cbn [access] in Ha; try (case_decide; [|done]); simplify_eq; cbn [disciplined ensures] in Hd, He;
    try exact HM'; try (eapply Hupd; [reflexivity|]; intros wr0 w Hw Hm).
  - (* Writers_put *) destruct Hd as (_ & -> & _). intros a w Hw. cbn in Hw.
    apply lookup_insert_Some in Hw as [[<- <-]|[_ Hw]]; [|by apply HM'].
    exists wr. split; [|by split; auto]. exists i, p'. cbn. split; [apply list_lookup_insert_eq; by eapply lookup_lt_Some|].
    pose proof (no_at _ Hn _ _ _ Hi) as Hat. by inversion Hat.
  - eapply made_assign; [done|apply Hd|done].
  - destruct He as [(w' & Hw' & Hne) _]. simplify_eq. by apply made_sizes.
  - destruct He as [(w' & Hw' & Hne) _]. simplify_eq. by apply made_sizes.
  - eapply made_offer; [done|apply Hd|done].
  - eapply made_note; [done|apply Hd|done].
Qed.
Lemma made_arrive ts sh t : made_ok ts sh → made_ok (ts ++ [t]) sh.
Proof.
  intros HM a w Hw. destruct (HM a w Hw) as (wr0 & (i & p & Hi & Ho) & Hf). exists wr0. split.
  - exists i, p. split; [by apply lookup_app_l_Some|done].
  - eapply made_from_more; [|exact Hf]. rewrite fmap_app. set_solver.
Qed.

(** Everything a state of the interleavings owes to the requests. *)
Record answers_ok (st : running) : Prop := {
  ao_running : running_ok st;
  ao_numbers : numbers_ok st;
  ao_promises : ∀ i r p, rn_threads st !! i = Some (r, p) → ensures (promise r) p (rn_shared st);
  ao_made : made_ok (rn_threads st) (rn_shared st);
}.

Lemma answers_arrive ts sh r : answers_ok (mkRunning ts sh) → numbers_ok (mkRunning (ts ++ [(r, handler r)]) sh).
Proof.
  intros [_ [H1 H2 H3 H4 H5 H6] _ _]; cbn in *. assert (wid_of (r, handler r) = None) as Hnone by by destruct r.
  assert (∀ j t n, (ts ++ [(r, handler r)]) !! j = Some t → wid_of t = Some n → ts !! j = Some t) as Hback.
  { intros j t n [Hj|[_ Hj]]%lookup_app_Some Hn; [done|].
    destruct (j - length ts)%nat; [|done]. injection Hj as <-. by rewrite Hnone in Hn. }
  split; cbn; [| | | | |done].
  - intros j wr p [Hj|[_ Hj]]%lookup_app_Some; [by eapply H1|].
    destruct (j - length ts)%nat; [|done]. injection Hj as -> <-. constructor.
  - intros j t n Hj Hn. by eapply H2; [eapply Hback|].
  - intros j k t t' n Hj Hk Hn Hn'. by eapply H3; [eapply Hback|eapply Hback|..].
  - intros n (j & t & Hj & Ht)%H4. exists j, t. by rewrite (lookup_app_l_Some _ _ _ _ Hj).
  - rewrite count_app, H5. unfold has_number at 3. rewrite Hnone. cbn. lia.
Qed.
Lemma answers_move ts sh i r p u p' sh' :
  answers_ok (mkRunning ts sh) → ts !! i = Some (r, p) → access i u p sh = Some (p', sh') →
  count is_opening ts < 2 ^ 31 → numbers_ok (mkRunning (<[i := (r, p')]> ts) sh') ∧ grows sh sh'.
Proof.
  intros [[Hd _ _ _] Hn Hens _] Hi Ha Hb. specialize (Hd i r p Hi). specialize (Hens i r p Hi). pose proof (access_maps _ _ _ _ _ _ Ha) as Hm.
  assert (∀ wr, r = OpenWriter wr → open_at wr p) as Hat by (intros wr ->; by eapply (no_at _ Hn)).
  destruct (match p with AddInt32_CurWriter _ | Writers_put _ _ _ => true | _ => false end) eqn:Hspecial.
  - destruct p; try done; cbn in Hd.
    + destruct Hd as [Hr _]. destruct r as [wr| | | | |]; try done. specialize (Hat wr eq_refl).
      injection Ha as <- <-. split; [|by apply same_grows].
      assert (i32 (sh_CurWriter sh + 1) = sh_CurWriter sh + 1) as E.
      { apply i32_id. pose proof (no_count _ Hn) as Hcur. cbn in Hcur. rewrite Hcur.
        pose proof (count_insert has_number ts i _ (OpenWriter wr, Return (Opened 0)) Hi) as Hc.
        pose proof (count_insert is_opening ts i _ (OpenWriter wr, Return (Opened 0)) Hi) as Hc'.
        inversion Hat; subst. cbn in Hc, Hc'.
        pose proof (count_le has_number is_opening (<[i := (OpenWriter wr, Return (Opened 0))]> ts)) as [Hpos Hle].
        { by intros [[] ?]. }
        pose proof (count_le has_number is_opening ts) as [? _]; [by intros [[] ?]|]. lia. }
      inversion Hat; subst. unfold add_CurWriter. cbn. rewrite E. by apply numbers_draw.
    + destruct Hd as (_ & -> & _). specialize (Hat wr eq_refl).
      injection Ha as <- <-. inversion Hat; subst. destruct (numbers_store _ _ _ _ _ Hn Hi) as [Hfree Hok].
      split; [done|]. apply put_writer_grows; [done|]. apply (no_heap _ Hn).
  - split; [|eapply access_grows; [done|by intros ? ? ? ->|done]].
    apply (numbers_shared _ sh); [destruct p; done|]. eapply numbers_move; [done|done| | |].
    + destruct r as [wr| | | | |]; try done. specialize (Hat wr eq_refl).
      inversion Hat; subst; cbn in Ha; try (case_decide; [|done]); by simplify_eq.
    + intros Hw Hs. destruct r as [wr| | | | |]; try done. specialize (Hat wr eq_refl).
      inversion Hat; subst; cbn in Ha; try (case_decide; [|done]); by simplify_eq.
    + intros wr ->. eapply open_at_access; eauto.
Qed.

Lemma answers_step may_send st st' :
  session_step may_send st st' → count is_opening (rn_threads st') < 2 ^ 31 → answers_ok st → answers_ok st'.
Proof.
  intros Hstep Hb Hok. assert (running_ok st') as Hrun by (eapply session_step_ok; [done|apply Hok]).
  destruct Hstep as [ts sh r _|ts sh i r p u p' sh' Hi Ha]; cbn in Hb.
  - split; [done|by apply answers_arrive| |apply made_arrive, Hok]. cbn. intros j r' p [Hj|[_ Hj]]%lookup_app_Some; [by eapply (ao_promises _ Hok)|].
    destruct (j - length ts)%nat; [|done]. injection Hj as <- <-. apply handler_ensures.
  - assert (count is_opening ts < 2 ^ 31) as Hb'.
    { pose proof (count_insert is_opening ts i _ (r, p') Hi) as Hc. unfold is_opening in Hc at 2 4. cbn in Hc. lia. }
    destruct (answers_move _ _ _ _ _ _ _ _ Hok Hi Ha Hb') as [Hn Hg]. split; [done..| |]; cbn.
    2: { eapply made_move; [apply Hok|done..| | |apply Hok]; [by eapply (ro_disciplined _ (ao_running _ Hok))|by eapply (ao_promises _ Hok)]. }
    intros j r' q [(<- & [= <- <-] & _)|[_ Hj]]%list_lookup_insert_Some.
    + eapply access_ensures; [apply promise_grows|apply (no_heap _ (ao_numbers _ Hok))|done|].
      by eapply (ao_promises _ Hok).
    + eapply ensures_grows; [apply promise_grows|done|]. by eapply (ao_promises _ Hok).
Qed.
Lemma step_openings may_send st st' :
  session_step may_send st st' → count is_opening (rn_threads st) ≤ count is_opening (rn_threads st').
Proof.
  intros [ts sh r _|ts sh i r p u p' sh' Hi Ha]; cbn.
  - rewrite count_app. destruct (is_opening _); lia.
  - pose proof (count_insert is_opening ts i _ (r, p') Hi) as Hc. unfold is_opening in Hc at 2 4. cbn in Hc. lia.
Qed.
Lemma answers_reachable may_send st :
  rtc (session_step may_send) session_start st → count is_opening (rn_threads st) < 2 ^ 31 → answers_ok st.
Proof.
  revert st. apply (rtc_ind_r (λ st, count is_opening (rn_threads st) < 2 ^ 31 → answers_ok st) session_start); [|intros st st' _ Hstep IH]; intros Hb.
  - split; [apply session_start_ok| |done|done]. split; cbn; try done; [by intros wid [? ?]|].
    split; [done|]. by intros a [? ?].
  - eapply answers_step; [done..|]. apply IH. pose proof (step_openings _ _ _ Hstep). lia.
Qed.

(** C11. What the answers to concurrent requests promise, in every interleaving of
    fewer than 2^31 openings with any uploads, assignments and closes.  Two openings
    are never answered with the same number, and under the number stands a writer
    with the name of the request.  A chunk of a dynamic archive that was answered has
    a size with its writer; a writer that does not reuse an index has a chunk size
    once the upload of a chunk of a size other than 0 was answered; an assignment
    that was answered has all its offsets in the index; a close stored its index
    under the name of its writer, and a dynamic one has a size with the writer for
    each of its chunks.  None of this is lost to a request that runs at the same
    time.  And nothing else gets there: of the writer of an answered opening, each
    size is one that an upload of this chunk to this writer, or the sizes known to
    one of its closes, gave; each digest is at an offset where an assignment to this
    writer puts it; and, unless it reuses an index, its size is that of its opening,
    and its chunk size too, or, where that was 0, the size of a chunk uploaded to it. *)
Theorem concurrent_answers may_send st i r x
    (Hreach : rtc (session_step may_send) session_start st) (Hfew : count is_opening (rn_threads st) < 2 ^ 31)
    (Hi : rn_threads st !! i = Some (r, Return x)) :
  promise r x (rn_shared st) ∧
  (∀ j r' wid, rn_threads st !! j = Some (r', Return (Opened wid)) → x = Opened wid →
    is_open r = true → is_open r' = true → i = j) ∧
  (∀ wr wid, r = OpenWriter wr → x = Opened wid →
    writer_at (rn_shared st) wid (made_from (rn_threads st).*1 wid wr)).
Proof.
  pose proof (answers_reachable _ _ Hreach Hfew) as [[_ _ _ Hnum] Hn Hp HM].
  pose proof (Hp i r (Return x) Hi) as Hpr. split_and!; [exact Hpr| |].
  - intros j r' wid Hj -> Hr Hr'. eapply (no_distinct _ Hn); [done|done| |]; unfold wid_of; cbn.
    + by rewrite Hr.
    + by rewrite Hr'.
  - intros wr wid -> ->. destruct Hpr as (a & w & Ha & Hw & _). exists a, w. split_and!; [done..|].
    pose proof (Hnum _ _ Ha) as <-. destruct (HM a w Hw) as (wr0 & (j & p & Hj & Ho) & Hf).
    assert (i = j) as <- by (by eapply (no_distinct _ Hn); [exact Hi|exact Hj|..]).
    by simplify_eq.
Qed.

(** ** Runs *)

(** A schedule: which request arrives, and which makes its next access. *)
Inductive event := Arrive (r : request_kind) | Move (i : nat) (u : res bool).
#[export] Instance careful_dec ts r : Decision (careful ts r).
Proof. unfold careful. apply _. Defined.
#[export] Instance careless_dec ts r : Decision (careless ts r).
Proof. unfold careless. apply _. Defined.

Section play.
Context (may_send : list (request_kind * prog) → request_kind → Prop) `{!∀ ts r, Decision (may_send ts r)}.
Definition play1 (st : option running) (e : event) : option running :=
  match st, e with
  | Some (mkRunning ts sh), Arrive r => if decide (may_send ts r) then Some (mkRunning (ts ++ [(r, handler r)]) sh) else None
  | Some (mkRunning ts sh), Move i u =>
      match ts !! i with
      | Some (r, p) => (λ x, mkRunning (<[i := (r, x.1)]> ts) x.2) <$> access i u p sh
      | None => None
      end
  | None, _ => None
  end.
Definition play (es : list event) : option running := foldl play1 (Some session_start) es.
Lemma play_reachable es st : play es = Some st → rtc (session_step may_send) session_start st.
Proof.
  unfold play. revert st. induction es as [|e es IH] using rev_ind; intros st.
  - intros [= <-]. done.
  - rewrite foldl_app. cbn. destruct (foldl _ _ es) as [[ts sh]|]; [|done].
    intros Hp. eapply rtc_r; [by apply IH|]. destruct e as [r|i u]; cbn in Hp.
    + destruct (decide _); [|done]. injection Hp as <-. by constructor.
    + destruct (ts !! i) as [[r p]|] eqn:Hi; [|done].
      apply fmap_Some in Hp as ([p' sh'] & Ha & ->). by econstructor.
Qed.
End play.

Definition moves_of (i n : nat) : list event := replicate n (Move i (Ok false)).
Definition chunk_of (wid : Z) : request_kind := UploadChunk true (mkChunkRequest "d1" 20 30 wid "chunks/d1").
Definition assignment (wid : Z) : request_kind := DynamicAssign (mkAssignmentRequest ["d1"] [0] wid).

(** A client that opens an archive, uploads to it and opens another one at the
    same time, then assigns. *)
Definition careful_schedule : list event :=
  Arrive (archive "catalog.pcat1.didx") :: moves_of 0 4 ++
  [Arrive (chunk_of 1); Arrive (archive "root.pxar.didx"); Move 1 (Ok false); Move 2 (Ok false);
   Move 1 (Ok false); Move 1 (Ok false); Move 2 (Ok false); Move 1 (Ok false)] ++ moves_of 2 2 ++ moves_of 1 2 ++
  Arrive (assignment 1) :: moves_of 3 2.
Definition careful_end : running := default session_start (play careful careful_schedule).
Lemma careful_end_reachable : rtc (session_step careful) session_start careful_end.
Proof.
  apply (play_reachable careful careful_schedule). unfold careful_end.
  destruct (play careful careful_schedule) eqn:E; [done|]. by vm_compute in E.
Qed.

Lemma careful_session_race_free_witness :
  rtc (session_step careful) session_start careful_end ∧ ¬ racy careful_end.
Proof. split; [exact careful_end_reachable|]. exact (careful_session_race_free _ careful_end_reachable). Defined.

Lemma concurrent_answers_witness :
  promise (archive "catalog.pcat1.didx") (Opened 1) (rn_shared careful_end) ∧
  writer_at (rn_shared careful_end) 1 (made_from (rn_threads careful_end).*1 1 (mkWriter "catalog.pcat1.didx" ∅ ∅ 0 0 "")).
Proof.
  assert (count is_opening (rn_threads careful_end) < 2 ^ 31) as Hfew by (by vm_compute).
  assert (rn_threads careful_end !! 0%nat = Some (archive "catalog.pcat1.didx", Return (Opened 1))) as Hi
    by (vm_compute; reflexivity).
  pose proof (concurrent_answers careful careful_end 0 (archive "catalog.pcat1.didx") (Opened 1) careful_end_reachable
    Hfew Hi) as (Hp & _ & Hm).
  split; [exact Hp|by apply Hm].
Defined.

(** A client that goes on assigning to one archive while it opens the next: what a
    backup of a container does with its catalog and its root. *)
Definition racing_schedule : list event :=
  Arrive (archive "catalog.pcat1.didx") :: moves_of 0 4 ++
  [Arrive (assignment 1); Arrive (archive "root.pxar.didx"); Move 2 (Ok false); Move 2 (Ok false)].
(** Two requests assign to one archive. *)
Definition assigning_schedule : list event :=
  Arrive (archive "root.pxar.didx") :: moves_of 0 4 ++
  [Arrive (assignment 1); Arrive (assignment 1); Move 1 (Ok false); Move 2 (Ok false)].

(** Without that care the session can race: an assignment to an archive reads
    the map of the writers, without [writer_mux], while another archive is being
    opened, and two assignments to one archive write its map at the same time.
    The run-time of Go ends the whole process on either. *)
Example careless_session_races :
  (∃ st, play careless racing_schedule = Some st ∧ rtc (session_step careless) session_start st ∧ racy st) ∧
  (∃ st, play careless assigning_schedule = Some st ∧ rtc (session_step careless) session_start st ∧ racy st).
Proof.
  assert (∀ es, is_Some (play careless es) → ∃ st, play careless es = Some st ∧ rtc (session_step careless) session_start st)
    as Hplay by (intros es [st Hst]; exists st; split; [done|by eapply play_reachable]).
  split; (edestruct Hplay as (st & Hst & Hr); [|exists st; split_and!; [exact Hst|exact Hr|]]).
  1,3: eexists; vm_compute; reflexivity.
  - vm_compute in Hst. injection Hst as <-. exists 1%nat, 2%nat. do 7 eexists. split_and!; try reflexivity; [lia|by right].
  - vm_compute in Hst. injection Hst as <-. exists 1%nat, 2%nat. do 7 eexists. split_and!; try reflexivity; [lia|by right].
Qed.
