(* ===== verification/SessionAlone.v ===== *)
(** * A request alone ([cmd/pmoxs3backuproxy/main.go])

    [SessionRace] takes the handlers of a session apart into accesses,
    [IndexWriter] and [Transfer] model them in one piece.  Here the two agree: run
    alone, from the same state, the accesses of a handler end in the state and with
    the answer of its model in one piece. *)

From S2P Require Import Prelude GoStrings GoBytes S3 Platform MemWorld Snapshot Http ChunkUpload Session IndexWriter Transfer SessionRace.

Local Open Scope Z_scope.

(** The state of the session without its pointers; nobody holds the mutex. *)
Record represents (sh : shared) (s : Server) : Prop := {
  rp_CurWriter : sh_CurWriter sh = CurWriter s;
  rp_Writers : ∀ wid, Writers s !! wid = sh_Writers sh !! wid ≫= λ a, sh_heap sh !! a;
  rp_heap_ok : heap_ok sh;
  rp_numbered : numbered sh;
  rp_allocated : ∀ a, is_Some (sh_heap sh !! a) → (a.2 < sh_allocated sh)%nat;
  rp_mux : mux sh = (None, ∅);
}.
(** The accesses of one request, with nobody else there. *)
Definition alone (u : res bool) : relation (prog * shared) := λ x y, access 0 u x.1 x.2 = Some y.

Lemma represents_writer sh s wid a :
  represents sh s → sh_Writers sh !! wid = Some a → ∃ wr, sh_heap sh !! a = Some wr ∧ Writers s !! wid = Some wr.
Proof.
  intros H Ha. destruct (rp_heap_ok _ _ H wid a Ha) as [wr Hwr]. exists wr. split; [done|].
  by rewrite (rp_Writers _ _ H), Ha.
Qed.
Lemma represents_pointer sh s wid wr :
  represents sh s → Writers s !! wid = Some wr → ∃ a, sh_Writers sh !! wid = Some a ∧ sh_heap sh !! a = Some wr.
Proof. intros H. rewrite (rp_Writers _ _ H). destruct (sh_Writers sh !! wid) as [a|]; [by exists a|done]. Qed.
Lemma represents_none sh s wid : represents sh s → Writers s !! wid = None ↔ sh_Writers sh !! wid = None.
Proof.
  intros H. rewrite (rp_Writers _ _ H). destruct (sh_Writers sh !! wid) as [a|] eqn:E; [|done].
  destruct (rp_heap_ok _ _ H wid a E) as [wr Hwr]. cbn. by rewrite Hwr.
Qed.
(** An update through a pointer is an update of its writer, and of no other: the
    pointers of different numbers are different. *)
Lemma represents_update sh s wid a wr f :
  represents sh s → sh_Writers sh !! wid = Some a → sh_heap sh !! a = Some wr →
  represents (update a f sh) (set_writer wid (f wr) s).
Proof.
  intros [H1 H2 H3 H4 H5 H6] Ha Hwr. split; cbn; [done| | |done| |done].
  - intros n. destruct (decide (n = wid)) as [->|Hne].
    + rewrite lookup_insert_eq, Ha. cbn. by rewrite lookup_alter_eq, Hwr.
    + rewrite lookup_insert_ne, H2 by done. destruct (sh_Writers sh !! n) as [b|] eqn:Hb; [|done]. cbn.
      rewrite lookup_alter_ne; [done|]. intros <-. apply H4 in Ha. apply H4 in Hb. congruence.
  - intros n b Hb. cbn. rewrite lookup_alter_is_Some. by eapply H3.
  - intros b. rewrite lookup_alter_is_Some. apply H5.
Qed.
Lemma represents_put sh s wid wr :
  represents sh s → represents (put_writer wid wr sh) (set_writer wid wr s).
Proof.
  intros [H1 H2 H3 H4 H5 H6]. assert (∀ n b, sh_Writers sh !! n = Some b → b ≠ (wid, sh_allocated sh)) as Hfresh.
  { intros n b Hb ->. apply H3, H5 in Hb. cbn in Hb. lia. }
  split; cbn; [done| | | | |done].
  - intros n. destruct (decide (n = wid)) as [->|Hne]; [by rewrite !lookup_insert_eq; cbn; rewrite lookup_insert_eq|].
    rewrite !lookup_insert_ne, H2 by done. destruct (sh_Writers sh !! n) as [b|] eqn:Hb; [|done]. cbn.
    rewrite lookup_insert_ne; [done|]. intros E. by apply (Hfresh n b).
  - intros n b. cbn. intros [[<- <-]|[_ Hb]]%lookup_insert_Some; [by rewrite lookup_insert_eq|].
    rewrite lookup_insert_is_Some'. right. by eapply H3.
  - intros n b. cbn. intros [[<- <-]|[_ Hb]]%lookup_insert_Some; [done|by apply H4].
  - intros b [<-|Hb]%lookup_insert_is_Some'; cbn; [lia|]. apply H5 in Hb. lia.
Qed.
Lemma represents_same sh sh' s :
  represents sh s → sh_CurWriter sh' = sh_CurWriter sh → sh_Writers sh' = sh_Writers sh → sh_heap sh' = sh_heap sh →
  sh_allocated sh' = sh_allocated sh → mux sh' = (None, ∅) → represents sh' s.
Proof.
  intros [H1 H2 H3 H4 H5 H6] E1 E2 E3 E4 E5. split; rewrite ?E1, ?E3, ?E4; try done.
  - intros wid. by rewrite E2.
  - intros wid a. rewrite E2, E3. apply H3.
  - intros wid a. rewrite E2. apply H4.
Qed.

(** A run alone that ends as the handler in one piece does: with [x] where the
    handler comes to its end, with its panic where it panics. *)
Definition agrees {W} (u : res bool) (p : prog) (sh : shared) (o : res unit * hstate Server W) (x : reply) : Prop :=
  ∃ sh', rtc (alone u) (p, sh) (Return (match o.1 with Ok _ => x | Err _ => Failed | Panicked e => Crashed e end), sh') ∧
    represents sh' (h_sess (snd o)).
Lemma agrees_step {W} u p sh p' sh' (o : res unit * hstate Server W) x :
  access 0 u p sh = Some (p', sh') → agrees u p' sh' o x → agrees u p sh o x.
Proof. intros Ha (sh'' & Hr & Hs). exists sh''. split; [|done]. eapply rtc_l; [exact Ha|exact Hr]. Qed.

(** The accesses to the mutex of a request that is alone. *)
Lemma free_mux sh s : represents sh s → mux_writer sh = None ∧ mux_readers sh = ∅.
Proof. intros [_ _ _ _ _ [= -> ->]]. done. Qed.
Lemma access_Lock u k sh s : represents sh s → access 0 u (Lock k) sh = Some (k, set_mux (Some 0%nat) ∅ sh).
Proof. intros [? ?]%free_mux. cbn. by rewrite decide_True. Qed.
Lemma access_RLock u k sh s : represents sh s → access 0 u (RLock k) sh = Some (k, set_mux None ({[0%nat]} ∪ ∅) sh).
Proof. intros [? Hr]%free_mux. cbn. rewrite decide_True by done. by rewrite Hr. Qed.

Section alone.
Context {W : Type} `{!ObjectStore W, !Platform W}.

Lemma open_alone u wr sh s rw (w : W) :
  represents sh s →
  agrees u (open_prog wr) sh (open_writer wr (mkH rw s w)) (Opened (i32 (CurWriter s + 1))).
Proof.
  intros H. set (wid := i32 (CurWriter s + 1)).
  assert (represents (add_CurWriter sh) (set_Writers (Writers s) wid s)) as H1.
  { destruct H as [E1 E2 E3 E4 E5 E6]. split; cbn; try done. by rewrite E1. }
  assert (sh_CurWriter (add_CurWriter sh) = wid) as Ewid by apply (rp_CurWriter _ _ H1).
  eapply agrees_step; [reflexivity|]. rewrite Ewid. eapply agrees_step; [by eapply access_Lock|].
  eapply agrees_step; [reflexivity|]. eapply agrees_step; [cbn; by rewrite decide_True|].
  eexists. split; [apply rtc_refl|]. cbn.
  eapply (represents_same (put_writer wid wr (add_CurWriter sh))); [|done..]. by apply (represents_put _ _ wid wr) in H1.
Qed.

(** The lookup of a chunk's writer, under the lock. *)
Lemma upload_lookup u dynamic q sh s (o : res unit * hstate Server W) x :
  represents sh s →
  (∀ sh1, represents sh1 s → sh_Writers sh1 = sh_Writers sh →
    agrees u (store_prog dynamic q (sh_Writers sh1 !! cr_WriterID q)) sh1 o x) →
  agrees u (upload_prog dynamic q) sh o x.
Proof.
  intros H Hk. eapply agrees_step; [by eapply access_RLock|]. eapply agrees_step; [reflexivity|].
  eapply agrees_step; [cbn; by rewrite decide_True by set_solver|].
  apply (Hk (set_mux None (({[0%nat]} ∪ ∅) ∖ {[0%nat]}) (set_mux None ({[0%nat]} ∪ ∅) sh))); [|done].
  by apply (represents_same sh).
Qed.

Lemma note_alone known dynamic q sh s rw (w : W) :
  represents sh s → is_Some (Writers s !! cr_WriterID q) →
  agrees (Ok known) (upload_prog dynamic q) sh (note_chunk dynamic q (mkH rw s w)) (Uploaded known).
Proof.
  intros H [wr Hwr]. eapply upload_lookup; [done|]. intros sh1 H1 _.
  destruct (represents_pointer _ _ _ _ H1 Hwr) as (a & Ha & Hh). rewrite Ha.
  set (wr1 := if Chunksize wr =? 0 then set_sizes (wr_Size wr) (cr_Size q) wr else wr).
  set (wr2 := if dynamic then set_DynamicChunkSizes (<[cr_Digest q := cr_Size q]> (DynamicChunkSizes wr1)) wr1 else wr1).
  assert (note_chunk dynamic q (mkH rw s w) = (Ok tt, mkH rw (set_writer (cr_WriterID q) wr2 s) w)) as ->.
  { unfold note_chunk, writer. cbv [mbind io_bind session]. cbn. rewrite Hwr. done. }
  eapply agrees_step; [reflexivity|]. eapply agrees_step; [reflexivity|].
  pose proof (represents_update _ _ _ _ _ (λ wr, if Chunksize wr =? 0 then set_sizes (wr_Size wr) (cr_Size q) wr else wr)
                H1 Ha Hh) as H2.
  destruct dynamic; [eapply agrees_step; [reflexivity|]|]; (eexists; split; [apply rtc_refl|]); cbn [h_sess snd]; [|done].
  assert (set_writer (cr_WriterID q) wr2 s = set_writer (cr_WriterID q) wr2 (set_writer (cr_WriterID q) wr1 s)) as ->.
  { unfold set_writer. cbn. by rewrite insert_insert_eq. }
  eapply (represents_update _ _ _ _ wr1); [exact H2|done|]. cbn. by rewrite lookup_alter_eq, Hh.
Qed.

(** One digest: the step ends, or panics, in both. *)
Lemma assign_one_alone u req i k sh s rw (w : W) :
  represents sh s →
  ∃ sh' rw' s', represents sh' s' ∧
    ((assign_one req i (mkH rw s w) = (Ok tt, mkH rw' s' w) ∧ rtc (alone u) (assign_step req i k, sh) (k, sh')) ∨
     ∃ e, assign_one req i (mkH rw s w) = (Panicked e, mkH rw' s' w) ∧
       rtc (alone u) (assign_step req i k, sh) (Return (Crashed e), sh')).
Proof.
  intros H. unfold assign_one, assign_step, with_writer, writer.
  destruct (hex_DecodeString _) as [b err]. cbn [fst].
  assert (∃ rw1, (match err with
       | Some e => _ ← WriteHeader StatusBadRequest; Write (ErrorText e)
       | None => mret tt end : io (hstate Server W) unit) (mkH rw s w) = (Ok tt, mkH rw1 s w)) as [rw1 Hrw].
  { destruct err; by eexists. }
  cbv [mbind io_bind] in *. rewrite Hrw. cbn.
  destruct (Writers s !! Wid req) as [wr|] eqn:Hwr.
  - destruct (represents_pointer _ _ _ _ H Hwr) as (a & Ha & Hh). cbn.
    destruct (OffsetList req !! i) as [o|]; cbn.
    + do 3 eexists. split; [by eapply (represents_update _ _ _ _ _ (λ wr, set_Assignments (<[i64 o := b]> (Assignments wr)) wr))|].
      left. split; [done|]. eapply rtc_l; [by unfold alone; cbn; rewrite Ha|]. by eapply rtc_once.
    + exists sh, rw1, s. split; [done|]. right. eexists. split; [done|].
      eapply rtc_once. unfold alone. cbn. by rewrite Ha.
  - pose proof (proj1 (represents_none _ _ _ H) Hwr) as Ha. exists sh, rw1, s. split; [done|]. right.
    eexists. split; [done|]. eapply rtc_once. unfold alone. cbn. by rewrite Ha.
Qed.
Lemma assign_alone u req sh s rw (w : W) :
  represents sh s → agrees u (dynamic_assign_prog req) sh (assign_all req (mkH rw s w)) Assigned.
Proof.
  unfold dynamic_assign_prog, assign_all. revert sh s rw.
  induction (seq 0 (length (DigestList req))) as [|i l IH]; intros sh s rw H; [by exists sh|].
  cbn [foldr foldIO]. unfold mbind at 1, io_bind at 1.
  destruct (assign_one_alone u req i (foldr (assign_step req) (Return Assigned) l) _ _ rw w H)
    as (sh' & rw' & s' & H' & [[-> Hr]|(e & -> & Hr)]).
  - destruct (IH sh' s' rw' H') as (sh'' & Hr' & H''). exists sh''. split; [by etrans|done].
  - by exists sh'.
Qed.
End alone.

(** ** Closing a dynamic index *)

(** [Range] stores the entries of one map into the other. *)
Lemma stores_union (l : list (string * Z)) (m : gmap string Z) :
  NoDup l.*1 → foldl (λ m kv, <[kv.1 := kv.2]> m) m l = list_to_map l ∪ m.
Proof.
  revert m. induction l as [|[k v] l IH]; intros m Hl; cbn; [by rewrite (left_id_L ∅ (∪))|].
  apply NoDup_cons in Hl as [Hk Hl]. rewrite IH by done.
  rewrite <-insert_union_r by by apply not_elem_of_list_to_map. by rewrite insert_union_l.
Qed.

Lemma stores_alone u wid (k : prog) known sh s wr :
  represents sh s → Writers s !! wid = Some wr →
  ∃ sh', represents sh' (set_writer wid
           (set_DynamicChunkSizes (foldl (λ m kv, <[kv.1 := kv.2]> m) (DynamicChunkSizes wr) known) wr) s) ∧
    rtc (alone u) (foldr (λ kv k, with_writer wid (λ p, DynamicChunkSizes_Store p kv.1 kv.2 k)) k known, sh) (k, sh').
Proof.
  revert sh s wr. induction known as [|[d n] known IH]; intros sh s wr H Hwr; cbn [foldr foldl].
  - exists sh. split; [|done]. assert (set_writer wid (set_DynamicChunkSizes (DynamicChunkSizes wr) wr) s = s) as ->; [|done].
    unfold set_writer, set_Writers. destruct s, wr. cbn in *. by rewrite insert_id.
  - destruct (represents_pointer _ _ _ _ H Hwr) as (a & Ha & Hh).
    set (wr1 := set_DynamicChunkSizes (<[d := n]> (DynamicChunkSizes wr)) wr).
    pose proof (represents_update _ _ _ _ _ (λ wr, set_DynamicChunkSizes (<[d := n]> (DynamicChunkSizes wr)) wr) H Ha Hh) as H1.
    destruct (IH _ _ wr1 H1) as (sh' & H' & Hr); [apply lookup_insert_eq|].
    exists sh'. split.
    + unfold set_writer in H' |- *. cbn in H' |- *. by rewrite insert_insert_eq in H'.
    + eapply rtc_l; [unfold alone; cbn; by rewrite Ha|]. eapply rtc_l; [reflexivity|exact Hr].
Qed.

(** The answer of a close, when the store took what it was given or did not. *)
Definition once_stored (u : res bool) (x : reply) : reply := match u with Ok _ => x | _ => Failed end.
Lemma stored_alone u wid (k : string → prog) x sh s wr :
  represents sh s → Writers s !! wid = Some wr →
  rtc (alone u) (k (FidxName wr), sh) (Return (once_stored u x), sh) →
  rtc (alone u) (stored_as wid k, sh) (Return (once_stored u x), sh).
Proof.
  intros H Hwr Hk. destruct (represents_pointer _ _ _ _ H Hwr) as (a & Ha & Hh).
  assert (target a sh = wr) as Ht by (unfold target; by rewrite Hh). unfold stored_as, named, with_writer.
  do 2 (eapply rtc_l; [unfold alone; cbn; rewrite ?Ha, ?Ht; reflexivity|]). eapply rtc_l; [reflexivity|].
  destruct u; [exact Hk|..];
    do 2 (eapply rtc_l; [unfold alone; cbn; rewrite ?Ha, ?Ht; reflexivity|]); done.
Qed.
(** Two calls: the index, and what goes beside it. *)
Lemma twice_stored_alone u wid (x : string → reply) sh s wr :
  represents sh s → Writers s !! wid = Some wr →
  rtc (alone u) (stored_as wid (λ name, stored_as wid (λ _, Return (x name))), sh)
    (Return (once_stored u (x (FidxName wr))), sh).
Proof.
  intros H Hwr. destruct u as [b|e|e].
  - do 2 (eapply stored_alone; [done..|]). done.
  - destruct (represents_pointer _ _ _ _ H Hwr) as (a & Ha & Hh). unfold stored_as at 1, named, with_writer.
    do 3 (eapply rtc_l; [unfold alone; cbn; rewrite ?Ha; reflexivity|]).
    by do 2 (eapply rtc_l; [unfold alone; cbn; rewrite ?Ha; reflexivity|]).
  - destruct (represents_pointer _ _ _ _ H Hwr) as (a & Ha & Hh). unfold stored_as at 1, named, with_writer.
    do 3 (eapply rtc_l; [unfold alone; cbn; rewrite ?Ha; reflexivity|]).
    by do 2 (eapply rtc_l; [unfold alone; cbn; rewrite ?Ha; reflexivity|]).
Qed.

Lemma entries_alone u wid keys acc sh s wr :
  represents sh s → Writers s !! wid = Some wr →
  rtc (alone u) (entries_prog wid keys acc, sh)
    (Return (match foldM (dynamic_entry wr) acc keys with
             | Ok st => once_stored u (Closed (FidxName wr) st.1 st.2) | Err _ => Failed | Panicked e => Crashed e end), sh).
Proof.
  intros H Hwr. destruct (represents_pointer _ _ _ _ H Hwr) as (a & Ha & Hh).
  assert (target a sh = wr) as Ht by (unfold target; by rewrite Hh).
  revert acc. induction keys as [|key keys IH]; intros acc; cbn [entries_prog foldM].
  { exact (twice_stored_alone u wid (λ name, Closed name acc.1 acc.2) sh s wr H Hwr). }
  unfold with_writer, dynamic_entry at 1.
  do 4 (eapply rtc_l; [unfold alone; cbn; rewrite ?Ha, ?Ht; reflexivity|]).
  destruct (DynamicChunkSizes wr !! _) as [origsize|]; [|done].
  do 2 (eapply rtc_l; [unfold alone; cbn; rewrite ?Ha, ?Ht; reflexivity|]). apply IH.
Qed.

Lemma close_alone u wid header sh s wr :
  represents sh s → Writers s !! wid = Some wr →
  let wr' := set_DynamicChunkSizes (KnownChunksSizes s ∪ DynamicChunkSizes wr) wr in
  ∃ sh', represents sh' (set_writer wid wr' s) ∧
    rtc (alone u) (dynamic_close_prog wid header (map_to_list (KnownChunksSizes s)), sh)
      (Return (match foldM (dynamic_entry wr') (header, ∅) (sorted_keys (Assignments wr')) with
               | Ok st => once_stored u (Closed (FidxName wr') st.1 st.2) | Err _ => Failed | Panicked e => Crashed e end), sh').
Proof.
  intros H Hwr wr'. edestruct (stores_alone u wid) as (sh' & H' & Hr); [exact H|exact Hwr|].
  rewrite stores_union, list_to_map_to_list in H' by apply NoDup_fst_map_to_list.
  exists sh'. split; [exact H'|]. etrans; [exact Hr|].
  assert (Writers (set_writer wid wr' s) !! wid = Some wr') as Hwr' by apply lookup_insert_eq.
  destruct (represents_pointer _ _ _ _ H' Hwr') as (a & Ha & Hh).
  assert (target a sh' = wr') as Ht by (unfold target; by rewrite Hh).
  do 2 (eapply rtc_l; [unfold alone; cbn; rewrite ?Ha, ?Ht; reflexivity|]). by eapply entries_alone.
Qed.

(** ** Closing a fixed index *)

Definition filled_reply (u : res bool) (name : string) (r : res filled) : reply :=
  match r with
  | Ok (Filled out) => once_stored u (ClosedFixed name (visible out))
  | Ok Hole => HoleInIndex
  | Ok Diverged => OutOfFuel
  | Err _ => Failed
  | Panicked e => Crashed e
  end.
Lemma fill_alone u fuel wid i k out sh s wr :
  represents sh s → Writers s !! wid = Some wr →
  rtc (alone u) (fill_prog fuel wid i k out, sh) (Return (filled_reply u (FidxName wr) (fill fuel wr i k out)), sh).
Proof.
  intros H Hwr. destruct (represents_pointer _ _ _ _ H Hwr) as (a & Ha & Hh).
  assert (target a sh = wr) as Ht by (unfold target; by rewrite Hh).
  revert i k out. induction fuel as [|fuel IH]; intros i k out; [done|]. cbn [fill_prog fill]. unfold with_writer.
  do 2 (eapply rtc_l; [unfold alone; cbn; rewrite ?Ha, ?Ht; reflexivity|]).
  destruct (i <? wr_Size wr).
  2: { exact (twice_stored_alone u wid (λ name, ClosedFixed name (visible out)) sh s wr H Hwr). }
  do 2 (eapply rtc_l; [unfold alone; cbn; rewrite ?Ha, ?Ht; reflexivity|]).
  destruct (Assignments wr !! i64 i) as [val|].
  - unfold mbind, res_bind. destruct (copy_into _ _ val out) as [out'|e|e]; [|done..].
    do 2 (eapply rtc_l; [unfold alone; cbn; rewrite ?Ha, ?Ht; reflexivity|]). apply IH.
  - do 2 (eapply rtc_l; [unfold alone; cbn; rewrite ?Ha, ?Ht; reflexivity|]).
    destruct (bool_decide (ReuseCSUM wr = "")); [done|].
    do 2 (eapply rtc_l; [unfold alone; cbn; rewrite ?Ha, ?Ht; reflexivity|]). apply IH.
Qed.
Lemma stamped_alone u fuel wid stamped out sh s wr :
  represents sh s → Writers s !! wid = Some wr →
  rtc (alone u) (stamped_prog fuel wid stamped out, sh)
    (Return (filled_reply u (FidxName wr) (out ← stamped out; fill fuel wr 0 0 out)), sh).
Proof.
  intros H Hwr. unfold stamped_prog, mbind, res_bind. destruct (stamped out); [by eapply fill_alone|done..].
Qed.
Lemma new_fixed_alone u fuel wid reused stamped sh s wr :
  represents sh s → Writers s !! wid = Some wr → ReuseCSUM wr = "" →
  rtc (alone u) (fixed_close_prog fuel wid reused stamped, sh)
    (Return (filled_reply u (FidxName wr) (out ← new_fixed wr; out ← stamped out; fill fuel wr 0 0 out)), sh).
Proof.
  intros H Hwr Hr. destruct (represents_pointer _ _ _ _ H Hwr) as (a & Ha & Hh).
  assert (target a sh = wr) as Ht by (unfold target; by rewrite Hh). unfold fixed_close_prog, with_writer.
  do 2 (eapply rtc_l; [unfold alone; cbn; rewrite ?Ha, ?Ht; reflexivity|]). rewrite Hr. cbn [negb bool_decide decide].
  rewrite bool_decide_true by done. cbn [negb]. unfold new_prog, with_writer.
  do 6 (eapply rtc_l; [unfold alone; cbn; rewrite ?Ha, ?Ht; reflexivity|]).
  rewrite length_fmap, length_map_to_list.
  assert (new_header (wr_Size wr) (Chunksize wr) (size (Assignments wr)) = new_fixed wr) as -> by done.
  unfold mbind at 1, res_bind at 1. destruct (new_fixed wr) as [out|e|e]; [by eapply stamped_alone|done..].
Qed.
(** The sizes of the index that is reused become the writer's. *)
Lemma reuse_fixed_alone u fuel wid reused out b1 b2 stamped sh s wr :
  represents sh s → Writers s !! wid = Some wr → ReuseCSUM wr ≠ "" →
  reused (ReuseCSUM wr) = Ok out → reslice 64 72 out = Ok b1 → reslice 72 80 out = Ok b2 →
  let wr' := set_sizes (LE_Uint64 b1) (LE_Uint64 b2) wr in
  ∃ sh', represents sh' (set_writer wid wr' s) ∧
    rtc (alone u) (fixed_close_prog fuel wid reused stamped, sh)
      (Return (filled_reply u (FidxName wr) (out ← stamped out; fill fuel wr' 0 0 out)), sh').
Proof.
  intros H Hwr Hr Hout H1 H2 wr'. destruct (represents_pointer _ _ _ _ H Hwr) as (a & Ha & Hh).
  assert (target a sh = wr) as Ht by (unfold target; by rewrite Hh). set (wr1 := set_sizes (LE_Uint64 b1) (Chunksize wr) wr).
  pose proof (represents_update _ _ _ _ _ (λ wr, set_sizes (LE_Uint64 b1) (Chunksize wr) wr) H Ha Hh) as R1.
  assert (sh_heap (update a (λ wr, set_sizes (LE_Uint64 b1) (Chunksize wr) wr) sh) !! a = Some wr1) as Hh1
    by (cbn; by rewrite lookup_alter_eq, Hh).
  pose proof (represents_update _ _ _ _ wr1 (λ wr, set_sizes (wr_Size wr) (LE_Uint64 b2) wr) R1 Ha Hh1) as R2.
  assert (set_writer wid wr' s = set_writer wid wr' (set_writer wid wr1 s)) as ->.
  { unfold set_writer. cbn. by rewrite insert_insert_eq. }
  eexists. split; [exact R2|]. unfold fixed_close_prog, with_writer.
  do 2 (eapply rtc_l; [unfold alone; cbn; rewrite ?Ha, ?Ht; reflexivity|]).
  rewrite bool_decide_false by done. cbn [negb].
  do 2 (eapply rtc_l; [unfold alone; cbn; rewrite ?Ha, ?Ht; reflexivity|]). rewrite Hout. unfold reuse_prog, with_writer.
  eapply rtc_l; [unfold alone; cbn; rewrite Ha, H1; reflexivity|].
  eapply rtc_l; [reflexivity|]. eapply rtc_l; [unfold alone; cbn; rewrite Ha, H2; reflexivity|].
  eapply rtc_l; [reflexivity|]. change (FidxName wr) with (FidxName wr'). eapply stamped_alone; [exact R2|]. apply lookup_insert_eq.
Qed.

(** ** Agreement *)

(** A request that nobody interrupts does, access by access, what its handler
    does in one piece.  From any state of the session, an opening ends with the
    number and the writer of [open_writer]; an upload whose chunk was stored leaves
    the sizes of [note_chunk]; an assignment ends as [assign_all] does, the panic of
    an unknown writer or of a missing offset included; the close of a dynamic index
    takes over the known sizes and assembles the entries of [dynamic_close], or
    panics where it does; the close of a new fixed index is filled as by [fill], to
    its end, its hole or its panic. *)
Lemma alone_as_one_piece {W} `{!ObjectStore W, !Platform W} u sh s rw (w : W) (Hrep : represents sh s) :
  (∀ wr, agrees u (handler (OpenWriter wr)) sh (open_writer wr (mkH rw s w)) (Opened (i32 (CurWriter s + 1)))) ∧
  (∀ dynamic q known, u = Ok known → is_Some (Writers s !! cr_WriterID q) →
     agrees u (handler (UploadChunk dynamic q)) sh (note_chunk dynamic q (mkH rw s w)) (Uploaded known)) ∧
  (∀ req, agrees u (handler (DynamicAssign req)) sh (assign_all req (mkH rw s w)) Assigned) ∧
  (∀ wid header wr, Writers s !! wid = Some wr →
     let wr' := set_DynamicChunkSizes (KnownChunksSizes s ∪ DynamicChunkSizes wr) wr in
     ∃ sh', represents sh' (set_writer wid wr' s) ∧
       rtc (alone u) (handler (DynamicClose wid header (map_to_list (KnownChunksSizes s))), sh)
         (Return (match foldM (dynamic_entry wr') (header, ∅) (sorted_keys (Assignments wr')) with
                  | Ok st => once_stored u (Closed (FidxName wr') st.1 st.2) | Err _ => Failed | Panicked e => Crashed e end), sh')) ∧
  (∀ fuel wid reused stamped wr, Writers s !! wid = Some wr → ReuseCSUM wr = "" →
     rtc (alone u) (handler (FixedClose fuel wid reused stamped), sh)
       (Return (filled_reply u (FidxName wr) (out ← new_fixed wr; out ← stamped out; fill fuel wr 0 0 out)), sh)).
Proof.
  split_and!.
  - intros wr. by apply open_alone.
  - intros dynamic q known -> Hw. by apply note_alone.
  - intros req. by apply assign_alone.
  - intros wid header wr Hwr. by apply close_alone.
  - intros fuel wid reused stamped wr Hwr Hr. by apply new_fixed_alone with s.
Qed.

Example session_opening_alone :
  represents no_writers (mkServer None None None ∅ 0 false ∅ (mkStorageClassPolicy "" "" "")) ∧
  agrees (Ok true) (handler (archive "root.pxar.didx")) no_writers
    (open_writer (W:=mem) (mkWriter "root.pxar.didx" ∅ ∅ 0 0 "")
       (mkH empty_response (mkServer None None None ∅ 0 false ∅ (mkStorageClassPolicy "" "" "")) session_world)) (Opened 1).
Proof.
  assert (represents no_writers (mkServer None None None ∅ 0 false ∅ (mkStorageClassPolicy "" "" ""))) as H.
  { split; cbn; try done. by intros a [? ?]. }
  split; [exact H|].
  exact (proj1 (alone_as_one_piece (W:=mem) (Ok true) no_writers _ empty_response session_world H) _).
Defined.
