(* ===== verification/SessionLock.v ===== *)
(** * Sessions and the lock of a datastore ([cmd/pmoxs3backuproxy/http2.go], [signal.go])

    The proxy holds one inter-process lock per endpoint and bucket while sessions
    on it are open, and counts them; the collector holds the same lock while it
    runs.  The step relation interleaves the sessions of one proxy with any number
    of collectors. *)

From S2P Require Import Prelude GoStrings S3 Platform Snapshot Invalidation GCPlan UsageStats CacheInvalidation Http IndexWriter Session Listing Auth Admin Serve BackupSession.

Local Open Scope Z_scope.

(** ** Counting sessions *)

(** [SessionLocks] - the count of each lock, whose releaser releases its name -
    and [Sessions], both under [SessionsMutex]. *)
Record sessions := mkSessions { SessionLocks : gmap string Z; Sessions : Z }.

Section operations.
Context {W : Type}.
(** The variable [acquireProcessMutex] and the release of what it answers. *)
Context (acquireProcessMutex : string → io W unit) (Release : string → st W unit).

Definition beginDataStoreSession (endpoint datastore : string) (s : sessions) : io W (string * sessions) :=
  let lockName := DataStoreLockName endpoint datastore in
  count ← (match SessionLocks s !! lockName with
           | Some count => mret count
           | None => _ ← acquireProcessMutex lockName; mret 0
           end);
  mret (lockName, mkSessions (<[lockName := u64 (count + 1)]> (SessionLocks s)) (u64 (Sessions s + 1))).

Definition endDataStoreSession (lockName : string) (s : sessions) : st W sessions := λ w,
  match SessionLocks s !! lockName with
  | None => (s, w)
  | Some count =>
      if count =? 0 then (s, w)
      else
        let count := u64 (count - 1) in
        let n := u64 (Sessions s - 1) in
        if count =? 0 then let '(_, w) := Release lockName w in (mkSessions (delete lockName (SessionLocks s)) n, w)
        else (mkSessions (<[lockName := count]> (SessionLocks s)) n, w)
  end.

Definition activeSessions (s : sessions) : Z := Sessions s.
End operations.

(** A backup from the upgraded connection to its end: the lock is taken first and
    given back last, whatever happens in between. *)
Section backup.
Context {W : Type} `{!ObjectStore W, !Platform W, !StoreView W, !FileView W}.
Context (X : externals W) (cfg : reports) (fuel : nat).

Definition backup (C : TicketEntry) (ds : string) (S : Snapshot) (requests : list Request)
    (g : admin) (s : sessions) : io W (sessions * admin) := λ w,
  match beginDataStoreSession mutex_Acquire (Endpoint C) ds s w with
  | (Ok (lockName, s), w) =>
      let '(c, w) := backup_session X cfg fuel C ds S requests g w in
      let '(s, w) := endDataStoreSession mutex_Release lockName s w in
      (pair s <$> c, w)
  | (Err _, w) => (Ok (s, g), w)         (* logged; the connection is closed *)
  | (Panicked p, w) => (Panicked p, w)
  end.
Definition restore (C : TicketEntry) (ds : string) (S : Snapshot) (requests : list Request)
    (g : admin) (s : sessions) : io W (sessions * admin) := λ w,
  match beginDataStoreSession mutex_Acquire (Endpoint C) ds s w with
  | (Ok (lockName, s), w) =>
      let '(c, w) := restore_session X cfg fuel C ds S requests g w in
      let '(s, w) := endDataStoreSession mutex_Release lockName s w in
      (Ok (s, c), w)
  | (Err _, w) => (Ok (s, g), w)
  | (Panicked p, w) => (Panicked p, w)
  end.
End backup.

(** ** Signals *)

Inductive signal := SIGINT | SIGTERM | SIGUSR1.

(** What one signal does: the number of signals that were put off, and the exit
    status when the process ends. *)
Definition on_signal (sig : signal) (active signalcnt : Z) : Z * option Z :=
  match sig with
  | SIGUSR1 => (signalcnt, None)
  | _ =>
      if (0 <? active) && (signalcnt <? 1) then (signalcnt + 1, None)
      else if 0 <? active then (signalcnt, Some 1) else (signalcnt, Some 0)
  end.
(** The goroutine, given the signals that arrive and the sessions active at each. *)
Fixpoint handleSignal (signalcnt : Z) (l : list (signal * Z)) : option Z :=
  match l with
  | [] => None
  | (sig, active) :: l =>
      match on_signal sig active signalcnt with
      | (_, Some status) => Some status
      | (signalcnt, None) => handleSignal signalcnt l
      end
  end.

(** ** The proxy and the collectors *)

Inductive holder := Proxy | Collector (n : nat).
#[export] Instance holder_eq : EqDecision holder.
Proof. solve_decision. Defined.
(** The locks of the operating system, by name. *)
Abbreviation mutexes := (gmap string holder).
Definition acquire (who : holder) (name : string) : io mutexes unit := λ m,
  match m !! name with
  | None => (Ok tt, <[name := who]> m)
  | Some _ => (Err (Sentinel "mutex.ErrTimeout"), m)
  end.
Definition release (name : string) : st mutexes unit := λ m, (tt, delete name m).

(** The counters of the proxy, the locks of the sessions it serves, the mutexes,
    and the collectors that run with the lock each has taken. *)
Record system := mkSystem {
  sy_proxy : sessions;
  sy_open : list string;
  sy_mutexes : mutexes;
  sy_collectors : gmap nat string;
}.

Inductive sys_step : system → system → Prop :=
| session_opens s endpoint ds name p' m' :
    Z.of_nat (length (sy_open s)) + 1 < 2 ^ 64 →
    beginDataStoreSession (acquire Proxy) endpoint ds (sy_proxy s) (sy_mutexes s) = (Ok (name, p'), m') →
    sys_step s (mkSystem p' (name :: sy_open s) m' (sy_collectors s))
| session_refused s endpoint ds e m' :
    beginDataStoreSession (acquire Proxy) endpoint ds (sy_proxy s) (sy_mutexes s) = (Err e, m') →
    sys_step s (mkSystem (sy_proxy s) (sy_open s) m' (sy_collectors s))
| session_ends s l1 name l2 p' m' :
    sy_open s = l1 ++ name :: l2 →
    endDataStoreSession release name (sy_proxy s) (sy_mutexes s) = (p', m') →
    sys_step s (mkSystem p' (l1 ++ l2) m' (sy_collectors s))
| collector_starts s n name m' :
    sy_collectors s !! n = None →
    acquire (Collector n) name (sy_mutexes s) = (Ok tt, m') →
    sys_step s (mkSystem (sy_proxy s) (sy_open s) m' (<[n := name]> (sy_collectors s)))
| collector_ends s n name m' :
    sy_collectors s !! n = Some name →
    release name (sy_mutexes s) = (tt, m') →
    sys_step s (mkSystem (sy_proxy s) (sy_open s) m' (delete n (sy_collectors s)))
| proxy_exits s :          (* the system releases what the process held *)
    sys_step s (mkSystem (mkSessions ∅ 0) [] (filter (λ kv, kv.2 ≠ Proxy) (sy_mutexes s)) (sy_collectors s)).

Definition at_start : system := mkSystem (mkSessions ∅ 0) [] ∅ ∅.

(** ** The invariant *)

Definition count_open (name : string) (l : list string) : nat := length (filter (.= name) l).

(** The counters are those of the open sessions; the proxy holds exactly the locks
    it counts, and each collector that runs the lock it has taken. *)
Record system_ok (s : system) : Prop := {
  ok_total : Sessions (sy_proxy s) = Z.of_nat (length (sy_open s));
  ok_counts : ∀ name, SessionLocks (sy_proxy s) !! name =
    if decide (name ∈ sy_open s) then Some (Z.of_nat (count_open name (sy_open s))) else None;
  ok_proxy : ∀ name, sy_mutexes s !! name = Some Proxy ↔ name ∈ sy_open s;
  ok_collector : ∀ name n, sy_mutexes s !! name = Some (Collector n) ↔ sy_collectors s !! n = Some name;
  ok_bound : Z.of_nat (length (sy_open s)) < 2 ^ 64;
}.

Lemma count_open_cons name x l : count_open name (x :: l) = ((if decide (x = name) then 1 else 0) + count_open name l)%nat.
Proof. unfold count_open. rewrite filter_cons. by case_decide. Qed.
Lemma count_open_app name l1 l2 : count_open name (l1 ++ l2) = (count_open name l1 + count_open name l2)%nat.
Proof. unfold count_open. by rewrite filter_app, length_app. Qed.
Lemma count_open_pos name l : name ∈ l ↔ (0 < count_open name l)%nat.
Proof.
  induction l as [|x l IH]; [rewrite elem_of_nil; cbn; lia|].
  rewrite elem_of_cons, count_open_cons. case_decide; [subst; split; [lia|by left]|]. rewrite IH. split; [|auto].
  intros [->|?]; [done|lia].
Qed.
Lemma count_open_le name l : (count_open name l ≤ length l)%nat.
Proof. apply length_filter. Qed.

Lemma counts_add name l (locks : gmap string Z) :
  (∀ x, locks !! x = if decide (x ∈ l) then Some (Z.of_nat (count_open x l)) else None) →
  Z.of_nat (length l) + 1 < 2 ^ 64 →
  ∀ x, <[name := u64 (Z.of_nat (count_open name l) + 1)]> locks !! x =
    if decide (x ∈ name :: l) then Some (Z.of_nat (count_open x (name :: l))) else None.
Proof.
  intros Hl Hb x. pose proof (count_open_le name l). rewrite count_open_cons.
  destruct (decide (name = x)) as [->|Hne].
  - rewrite lookup_insert_eq, decide_True by set_solver. f_equal. rewrite u64_id by lia. lia.
  - rewrite lookup_insert_ne, Hl by done. destruct (decide (x ∈ l)).
    + by rewrite decide_True by set_solver.
    + by rewrite decide_False by set_solver.
Qed.

Lemma opens_ok s endpoint ds name p' m' :
  system_ok s → Z.of_nat (length (sy_open s)) + 1 < 2 ^ 64 →
  beginDataStoreSession (acquire Proxy) endpoint ds (sy_proxy s) (sy_mutexes s) = (Ok (name, p'), m') →
  system_ok (mkSystem p' (name :: sy_open s) m' (sy_collectors s)).
Proof.
  intros [H1 H2 H3 H4 H5] Hb Hrun. unfold beginDataStoreSession in Hrun. cbv zeta in Hrun.
  apply io_bind_Ok_inv in Hrun as (count & m1 & Hc & [= <- <- <-]).
  set (name := DataStoreLockName endpoint ds) in *. clearbody name. rewrite H2 in Hc.
  assert (count = Z.of_nat (count_open name (sy_open s)) ∧
          (∀ x, m1 !! x = if decide (x = name) then Some Proxy else sy_mutexes s !! x) ∧
          (sy_mutexes s !! name = Some Proxy ∨ sy_mutexes s !! name = None)) as (-> & Hm & Hfree).
  { destruct (decide (name ∈ sy_open s)) as [Hin|Hin].
    - injection Hc as <- <-. split; [done|]. apply H3 in Hin. split; [|by left]. intros x. by case_decide; [subst|].
    - apply io_bind_Ok_inv in Hc as ([] & m2 & Ha & [= <- <-]). unfold acquire in Ha.
      destruct (sy_mutexes s !! name) eqn:Em; [done|]. injection Ha as <-. split.
      { rewrite count_open_pos in Hin. lia. }
      split; [|by right]. intros x. case_decide as Hx; [rewrite Hx; by rewrite lookup_insert_eq|by rewrite lookup_insert_ne]. }
  split; cbn [sy_proxy sy_open sy_mutexes sy_collectors SessionLocks Sessions].
  - rewrite H1. cbn [length]. rewrite u64_id; lia.
  - by apply counts_add.
  - intros x. rewrite Hm, elem_of_cons. destruct (decide (x = name)) as [Hx|Hx]; [split; [intros _; left; exact Hx|done]|].
    rewrite H3. split; [intros ?; by right|by intros [?|?]].
  - intros x n. rewrite Hm. destruct (decide (x = name)) as [Hx|Hx]; [|by apply H4]. rewrite <-H4, Hx. destruct Hfree as [->| ->]; by split.
  - cbn [length]. lia.
Qed.

Lemma refused_ok s endpoint ds e m' :
  beginDataStoreSession (acquire Proxy) endpoint ds (sy_proxy s) (sy_mutexes s) = (Err e, m') → m' = sy_mutexes s.
Proof.
  unfold beginDataStoreSession. cbv zeta. intros [(c & m1 & _ & [=])|[(e' & Hc & _)|(p & Hc & [=])]]%io_bind_inv.
  destruct (_ !! _); [done|]. apply io_bind_inv in Hc as [(u & m1 & _ & [=])|[(e'' & Hc & _)|(p & Hc & [=])]].
  unfold acquire in Hc. destruct (sy_mutexes s !! _); by injection Hc.
Qed.

Lemma ends_ok s l1 name l2 p' m' :
  system_ok s → sy_open s = l1 ++ name :: l2 →
  endDataStoreSession release name (sy_proxy s) (sy_mutexes s) = (p', m') →
  system_ok (mkSystem p' (l1 ++ l2) m' (sy_collectors s)).
Proof.
  intros [H1 H2 H3 H4 H5] Ho Hrun. rewrite Ho in *. unfold endDataStoreSession in Hrun.
  assert (∀ x, count_open x (l1 ++ name :: l2) = ((if decide (name = x) then 1 else 0) + count_open x (l1 ++ l2))%nat) as Hc
    by (intros x; rewrite !count_open_app, count_open_cons; lia).
  assert (∀ x, x ∈ l1 ++ name :: l2 ↔ x = name ∨ x ∈ l1 ++ l2) as Hin by set_solver.
  pose proof (count_open_le name (l1 ++ l2)) as Hle. rewrite length_app in *. cbn [length] in *.
  rewrite H2, decide_True, Hc, decide_True in Hrun by (try done; apply Hin; by left).
  set (c := count_open name (l1 ++ l2)) in *.
  assert (Z.of_nat (1 + c) =? 0 = false) as E0 by (apply Z.eqb_neq; lia). rewrite E0 in Hrun.
  rewrite (u64_id (_ - 1)) in Hrun by lia. rewrite H1, (u64_id (_ - 1)) in Hrun by lia.
  assert (∀ x, x ≠ name → (if decide (x ∈ l1 ++ l2) then Some (Z.of_nat (count_open x (l1 ++ l2))) else None) =
            SessionLocks (sy_proxy s) !! x) as Hother.
  { intros x Hne. rewrite H2, Hc. rewrite (decide_False (P := name = x)) by congruence. cbn. destruct (decide (x ∈ l1 ++ l2)).
    - rewrite decide_True by (apply Hin; auto). done.
    - rewrite decide_False by (rewrite Hin; naive_solver). done. }
  destruct (Z.eqb_spec (Z.of_nat (1 + c) - 1) 0) as [Hz|Hz].
  - assert (name ∉ l1 ++ l2) as Hnin by (rewrite count_open_pos; fold c; lia).
    injection Hrun as <- <-. split; cbn [sy_proxy sy_open sy_mutexes sy_collectors SessionLocks Sessions].
    + rewrite length_app. lia.
    + intros x. destruct (decide (x = name)) as [->|Hne]; [by rewrite lookup_delete_eq, decide_False|].
      by rewrite lookup_delete_ne, Hother.
    + intros x. destruct (decide (x = name)) as [->|Hne]; [by rewrite lookup_delete_eq|].
      rewrite lookup_delete_ne, H3, Hin by done. split; [by intros [?|?]|intros ?; by right].
    + intros x n. rewrite <-H4. destruct (decide (x = name)) as [->|Hne]; [|by rewrite lookup_delete_ne].
      rewrite lookup_delete_eq. assert (sy_mutexes s !! name = Some Proxy) as -> by (apply H3, Hin; by left). done.
    + rewrite length_app. lia.
  - assert (name ∈ l1 ++ l2) as Hnin by (rewrite count_open_pos; fold c; lia).
    injection Hrun as <- <-. split; cbn [sy_proxy sy_open sy_mutexes sy_collectors SessionLocks Sessions].
    + rewrite length_app. lia.
    + intros x. destruct (decide (x = name)) as [->|Hne].
      * rewrite lookup_insert_eq, decide_True by done. f_equal. fold c. lia.
      * by rewrite lookup_insert_ne, Hother.
    + intros x. rewrite H3, Hin. split; [by intros [->|?]|intros ?; by right].
    + done.
    + rewrite length_app. lia.
Qed.

Lemma sys_step_ok s s' : system_ok s → sys_step s s' → system_ok s'.
Proof.
  intros Hok Hstep. destruct Hstep as [s e ds name p' m' Hb Hr|s e ds err m' Hr|s l1 name l2 p' m' Ho Hr|s n name m' Hn Hr|s n name m' Hn Hr|s].
  - by eapply opens_ok.
  - apply refused_ok in Hr as ->. by destruct Hok.
  - by eapply ends_ok.
  - destruct Hok as [H1 H2 H3 H4 H5]. unfold acquire in Hr. destruct (sy_mutexes s !! name) eqn:Em; [done|].
    injection Hr as <-. split; cbn; [done|done| | |done].
    + intros x. rewrite <-H3. destruct (decide (x = name)) as [->|]; [rewrite lookup_insert_eq; naive_solver|by rewrite lookup_insert_ne].
    + intros x k. rewrite !lookup_insert_Some. pose proof (H4 x k). pose proof (H4 name n). pose proof (H4 x n). pose proof (H4 name k). naive_solver.
  - destruct Hok as [H1 H2 H3 H4 H5]. injection Hr as <-. split; cbn; [done|done| | |done].
    + intros x. rewrite <-H3, lookup_delete_Some. apply H4 in Hn. naive_solver.
    + intros x k. rewrite !lookup_delete_Some. pose proof (H4 x k). pose proof (H4 name k). pose proof (H4 x n). naive_solver.
  - destruct Hok as [H1 H2 H3 H4 H5]. split; cbn; [done|by intros; rewrite lookup_empty| | |done].
    + intros x. rewrite map_lookup_filter_Some, elem_of_nil. naive_solver.
    + intros x n. rewrite map_lookup_filter_Some, <-H4. naive_solver.
Qed.
Lemma system_reachable s : rtc sys_step at_start s → system_ok s.
Proof.
  intros Hr. cut (system_ok at_start).
  - induction Hr as [|? ? ? Hstep _ IH]; [done|]. intros H. by eapply IH, sys_step_ok.
  - split; cbn; [done|by intros; rewrite lookup_empty|..|done].
    + intros x. rewrite lookup_empty, elem_of_nil. naive_solver.
    + intros x n. rewrite !lookup_empty. naive_solver.
Qed.

(** ** Properties *)

(** C9. Mutual exclusion: while a session on a datastore is open, no collector runs
    on it, and no two collectors do; the proxy holds exactly one lock per datastore
    with open sessions and counts each of them. *)
Theorem sessions_exclude_collector s (Hreach : rtc sys_step at_start s) :
  (∀ name n, name ∈ sy_open s → sy_collectors s !! n ≠ Some name) ∧
  (∀ name n k, sy_collectors s !! n = Some name → sy_collectors s !! k = Some name → n = k) ∧
  (∀ name, sy_mutexes s !! name = Some Proxy ↔ name ∈ sy_open s) ∧
  (∀ name, name ∈ sy_open s →
     SessionLocks (sy_proxy s) !! name = Some (Z.of_nat (count_open name (sy_open s)))) ∧
  activeSessions (sy_proxy s) = Z.of_nat (length (sy_open s)).
Proof.
  pose proof (system_reachable s Hreach) as [H1 H2 H3 H4 H5]. split_and!.
  - intros name n Hin%H3 Hn%H4. congruence.
  - intros name n k Hn%H4 Hk%H4. congruence.
  - done.
  - intros name Hin. by rewrite H2, decide_True.
  - done.
Qed.

(** The process exits with status 0 only when no session is active at the signal,
    and with status 1 only on a terminating signal that follows one that was put off;
    a first signal during a session never ends it. *)
Theorem handleSignal_exit l status (Hact : Forall (λ x, 0 ≤ x.2) l) (Hexit : handleSignal 0 l = Some status) :
  ∃ l1 sig active l2, l = l1 ++ (sig, active) :: l2 ∧ sig ≠ SIGUSR1 ∧ handleSignal 0 l1 = None ∧
    ((status = 0 ∧ active = 0) ∨
     (status = 1 ∧ 0 < active ∧ ∃ x, x ∈ l1 ∧ x.1 ≠ SIGUSR1 ∧ 0 < x.2)).
Proof.
  enough (∀ l c, Forall (λ x, 0 ≤ x.2) l → 0 ≤ c → handleSignal c l = Some status →
    ∃ l1 sig active l2, l = l1 ++ (sig, active) :: l2 ∧ sig ≠ SIGUSR1 ∧ handleSignal c l1 = None ∧
      ((status = 0 ∧ active = 0) ∨ (status = 1 ∧ 0 < active ∧ (0 < c ∨ ∃ x, x ∈ l1 ∧ x.1 ≠ SIGUSR1 ∧ 0 < x.2)))) as Hgen.
  { destruct (Hgen l 0 Hact ltac:(lia) Hexit) as (l1 & sig & a & l2 & ? & ? & ? & Hs).
    exists l1, sig, a, l2. split_and!; [done..|]. destruct Hs as [?|(? & ? & [?|?])]; [by left|lia|by right]. }
  clear l Hact Hexit. induction l as [|[sig a] l IH]; intros c Hall Hc; cbn [handleSignal]; [done|].
  apply Forall_cons_1 in Hall as [Ha Hl].
  cbn in Ha. destruct (on_signal sig a c) as [c' [st|]] eqn:Es.
  - intros [= ->]. exists [], sig, a, l. split; [done|]. unfold on_signal in Es. destruct sig; [| |done];
      (split; [done|]); (split; [done|]);
      destruct (Z.ltb_spec 0 a), (Z.ltb_spec c 1); cbn in Es; simplify_eq;
      first [left; lia|right; split_and!; [done|lia|left; lia]].
  - intros Hs.
    assert (0 ≤ c' ∧ (0 < c' → 0 < c ∨ (sig ≠ SIGUSR1 ∧ 0 < a))) as [Hc' Hpos].
    { unfold on_signal in Es. destruct sig; destruct (Z.ltb_spec 0 a), (Z.ltb_spec c 1); cbn in Es;
        simplify_eq; (split; [lia|]); intros; first [left; lia|right; by split]. }
    destruct (IH c' Hl Hc' Hs) as (l1 & sg & x & l2 & -> & Hsg & Hn & Hst).
    exists ((sig, a) :: l1), sg, x, l2. split; [done|]. split; [done|]. cbn [handleSignal]. rewrite Es. split; [done|].
    destruct Hst as [?|(? & ? & Hst)]; [by left|right]. split; [done|]. split; [done|].
    destruct Hst as [Hp|(y & Hy & ?)].
    + destruct (Hpos Hp) as [?|[? ?]]; [by left|right]. exists (sig, a). split; [by left|done].
    + right. exists y. split; [by right|done].
Qed.
Lemma handleSignal_exit_witness :
  ∃ l1 sig active l2, [(SIGTERM, 2); (SIGUSR1, 2); (SIGINT, 1)] = l1 ++ (sig, active) :: l2 ∧ sig ≠ SIGUSR1 ∧
    handleSignal 0 l1 = None ∧
    ((1 = 0 ∧ active = 0) ∨ (1 = 1 ∧ 0 < active ∧ ∃ x, x ∈ l1 ∧ x.1 ≠ SIGUSR1 ∧ 0 < x.2)).
Proof. apply handleSignal_exit; [|reflexivity]. repeat constructor; done. Defined.

(** ** A run *)

Definition lock_a : string := DataStoreLockName "s3.example" "pbs".
Definition sy1 : system := mkSystem (mkSessions (<[lock_a := 1]> ∅) 1) [lock_a] (<[lock_a := Proxy]> ∅) ∅.
Definition lock_b : string := DataStoreLockName "s3.example" "other".
Definition sy2 : system :=
  mkSystem (sy_proxy sy1) [lock_a] (<[lock_b := Collector 0]> (sy_mutexes sy1)) (<[0%nat := lock_b]> ∅).
Lemma sy2_reachable : rtc sys_step at_start sy2.
Proof.
  eapply rtc_l.
  - apply (session_opens at_start "s3.example" "pbs" lock_a (sy_proxy sy1) (sy_mutexes sy1)); [done|].
    vm_compute. reflexivity.
  - eapply rtc_l; [|apply rtc_refl].
    apply (collector_starts sy1 0 lock_b (sy_mutexes sy2)); vm_compute; reflexivity.
Qed.
Lemma sessions_exclude_collector_witness :
  (∀ name n, name ∈ sy_open sy2 → sy_collectors sy2 !! n ≠ Some name) ∧
  (∀ name n k, sy_collectors sy2 !! n = Some name → sy_collectors sy2 !! k = Some name → n = k) ∧
  (∀ name, sy_mutexes sy2 !! name = Some Proxy ↔ name ∈ sy_open sy2) ∧
  (∀ name, name ∈ sy_open sy2 →
     SessionLocks (sy_proxy sy2) !! name = Some (Z.of_nat (count_open name (sy_open sy2)))) ∧
  activeSessions (sy_proxy sy2) = Z.of_nat (length (sy_open sy2)).
Proof. apply sessions_exclude_collector. apply sy2_reachable. Defined.
