(* ===== verification/Flags.v ===== *)
(** * The command line ([flag] of Go's library, as the two programs use it)

    [flag.Parse] over the arguments of a process, with flags of the three types the
    programs declare, and the number and truth syntax of [strconv] behind them.
    The flags of the two programs are in [Startup]. *)

From S2P Require Import Prelude GoStrings.

Local Open Scope Z_scope.

(** ** Numbers in any base: [strconv.ParseUint(s, 0, 64)] *)

(** The letter or digit as a digit of a large base. *)
Definition any_digit (c : ascii) : option Z :=
  let n := Z.of_nat (nat_of_ascii c) in
  let l := Z.of_nat (nat_of_ascii (to_lower c)) in
  if (48 <=? n) && (n <=? 57) then Some (n - 48)
  else if (97 <=? l) && (l <=? 122) then Some (l - 87)
  else None.
Definition underscore : ascii := "_"%char.

(** The digit loop; underscores are passed over. *)
Fixpoint base_digits (base n : Z) (s : string) : Z * option error :=
  match s with
  | "" => (n, None)
  | String c s =>
      if Ascii.eqb c underscore then base_digits base n s
      else
        match any_digit c with
        | None => (0, Some ErrSyntax)
        | Some d =>
            if base <=? d then (0, Some ErrSyntax)
            else if MaxUint64 / base + 1 <=? n then (MaxUint64, Some ErrRange)
            else
              let nb := u64 (n * base) in
              let n1 := u64 (nb + d) in
              if (n1 <? nb) || (MaxUint64 <? n1) then (MaxUint64, Some ErrRange)
              else base_digits base n1 s
        end
  end.

(** The prefix of a base, and what follows it. *)
Definition base_prefix (s : string) : Z * string :=
  match s with
  | String "0" r =>
      match r with
      | String c (String _ _ as digits) =>
          let l := to_lower c in
          if Ascii.eqb l "b" then (2, digits)
          else if Ascii.eqb l "o" then (8, digits)
          else if Ascii.eqb l "x" then (16, digits)
          else (8, r)
      | _ => (8, r)
      end
  | _ => (10, s)
  end.

(** Underscores separate digits, or follow the prefix of a base. *)
Inductive last_seen := AtStart | Digit | Underscore | Other.
Fixpoint underscores_ok (hex : bool) (i : last_seen) (s : string) : bool :=
  match s with
  | "" => match i with Underscore => false | _ => true end
  | String c s =>
      let n := Z.of_nat (nat_of_ascii c) in
      let l := Z.of_nat (nat_of_ascii (to_lower c)) in
      if ((48 <=? n) && (n <=? 57)) || (hex && (97 <=? l) && (l <=? 102)) then underscores_ok hex Digit s
      else if Ascii.eqb c underscore then
        match i with Digit => underscores_ok hex Underscore s | _ => false end
      else
        match i with Underscore => false | _ => underscores_ok hex Other s end
  end.
Definition underscoreOK (s : string) : bool :=
  let s := match s with String ("-" | "+") r => r | _ => s end in
  match s with
  | String "0" (String c r) =>
      let l := to_lower c in
      if Ascii.eqb l "b" || Ascii.eqb l "o" || Ascii.eqb l "x" then underscores_ok (Ascii.eqb l "x") Digit r
      else underscores_ok false AtStart s
  | _ => underscores_ok false AtStart s
  end.

Definition ParseUint0 (s : string) : Z * option error :=
  match s with
  | "" => (0, Some ErrSyntax)
  | _ =>
      let '(base, digits) := base_prefix s in
      match base_digits base 0 digits with
      | (n, None) => if has_byte underscore digits && negb (underscoreOK s) then (0, Some ErrSyntax) else (n, None)
      | (n, Some e) => (n, Some e)
      end
  end.

Definition ParseBool (s : string) : option bool :=
  if bool_decide (s ∈ ["1"; "t"; "T"; "TRUE"; "true"; "True"]) then Some true
  else if bool_decide (s ∈ ["0"; "f"; "F"; "FALSE"; "false"; "False"]) then Some false
  else None.

Example base_0_plain : ParseUint0 "3600" = (3600, None).
Proof. vm_compute. reflexivity. Qed.
(** A leading zero is octal, and underscores are allowed. *)
Example base_0_octal : ParseUint0 "0100" = (64, None).
Proof. vm_compute. reflexivity. Qed.
Example base_0_hex : ParseUint0 "0xFF_ff" = (65535, None).
Proof. vm_compute. reflexivity. Qed.
Example base_0_bad : snd (ParseUint0 "1__0") = Some ErrSyntax ∧ snd (ParseUint0 "08") = Some ErrSyntax.
Proof. vm_compute. done. Qed.
Example base_0_range : ParseUint0 "18446744073709551616" = (MaxUint64, Some ErrRange).
Proof. vm_compute. reflexivity. Qed.

(** ** Flags *)

Inductive flag_value := VString (s : string) | VBool (b : bool) | VUint64 (n : Z).
#[export] Instance flag_value_eq : EqDecision flag_value.
Proof. solve_decision. Defined.

(** The variable each name sets - two names may set one - and the values. *)
Record FlagSet := mkFlagSet { formal : gmap string string; vars : gmap string flag_value }.
(** [flag.String] and its like: a name, and the default of its variable. *)
Definition define_var (name variable : string) (v : flag_value) (f : FlagSet) : FlagSet :=
  mkFlagSet (<[name := variable]> (formal f)) (<[variable := v]> (vars f)).
Definition define (name : string) (v : flag_value) : FlagSet → FlagSet := define_var name name v.
Definition no_flags : FlagSet := mkFlagSet ∅ ∅.

(** [Value.Set] of the three types. *)
Definition set_value (old : flag_value) (s : string) : option flag_value :=
  match old with
  | VString _ => Some (VString s)
  | VBool _ => VBool <$> ParseBool s
  | VUint64 _ => match ParseUint0 s with (n, None) => Some (VUint64 n) | _ => None end
  end.

(** How parsing ends: with the arguments that are left, or the process exits
    ([flag.ExitOnError]): 0 after [-help], 2 after an error. *)
Inductive parsed := Parsed (f : FlagSet) (args : list string) | ParseExit (status : Z).

Definition dash : ascii := "-"%char.
Definition equals : ascii := "="%char.
(** What an argument is: not a flag, the end of the flags, or a flag with its
    text after the dashes. *)
Inductive argument := Positional | Terminator | BadSyntax | FlagText (name : string).
Definition classify (s : string) : argument :=
  match s with
  | String c1 (String c2 _ as r) =>
      if negb (Ascii.eqb c1 dash) then Positional
      else
        let name := if Ascii.eqb c2 dash then drop_string 1 r else r in
        if Ascii.eqb c2 dash && bool_decide (name = "") then Terminator
        else
          match name with
          | "" => BadSyntax
          | String c _ => if Ascii.eqb c dash || Ascii.eqb c equals then BadSyntax else FlagText name
          end
  | _ => Positional
  end.
(** The name and the value behind the first equals sign. *)
Definition split_flag (text : string) : string * option string :=
  match Cut text equals with Some (name, v) => (name, Some v) | None => (text, None) end.

Definition set_var (variable : string) (v : flag_value) (f : FlagSet) : FlagSet :=
  mkFlagSet (formal f) (<[variable := v]> (vars f)).

(** [parseOne] until there is no flag left. *)
Fixpoint Parse (f : FlagSet) (args : list string) : parsed :=
  match args with
  | [] => Parsed f []
  | s :: rest =>
      match classify s with
      | Positional => Parsed f args
      | Terminator => Parsed f rest
      | BadSyntax => ParseExit 2
      | FlagText text =>
          let '(name, value) := split_flag text in
          match formal f !! name with
          | None => ParseExit (if bool_decide (name = "help") || bool_decide (name = "h") then 0 else 2)
          | Some variable =>
              match vars f !! variable, value, rest with
              | Some (VBool b), _, _ =>
                  match set_value (VBool b) (default "true" value) with
                  | Some v => Parse (set_var variable v f) rest
                  | None => ParseExit 2
                  end
              | Some old, Some s, _ =>
                  match set_value old s with
                  | Some v => Parse (set_var variable v f) rest
                  | None => ParseExit 2
                  end
              | Some old, None, s :: rest =>
                  match set_value old s with
                  | Some v => Parse (set_var variable v f) rest
                  | None => ParseExit 2
                  end
              | Some _, None, [] => ParseExit 2
              | None, _, _ => ParseExit 2     (* every name has its variable: [defined] *)
              end
          end
      end
  end.

(** The values of the variables, by their type. *)
Definition get_string (f : FlagSet) (variable : string) : string :=
  match vars f !! variable with Some (VString s) => s | _ => "" end.
Definition get_bool (f : FlagSet) (variable : string) : bool :=
  match vars f !! variable with Some (VBool b) => b | _ => false end.
Definition get_uint64 (f : FlagSet) (variable : string) : Z :=
  match vars f !! variable with Some (VUint64 n) => n | _ => 0 end.

(** ** Numbers: every 64-bit number is read back from its decimal text *)

Lemma any_digit_val c d : digit_val c = Some d → any_digit c = Some d ∧ 0 ≤ d < 10 ∧ Ascii.eqb c underscore = false.
Proof.
  unfold digit_val, any_digit. destruct ((48 <=? _) && _) eqn:E; [|done]. intros [= <-].
  destruct (Ascii.eqb_spec c underscore) as [->|_]; [done|]. reflect_bools. split_and!; [done|lia..|done].
Qed.
Lemma base_digits_10 n s v :
  parse_digits MaxUint64 n s = (v, None) → base_digits 10 n s = (v, None) ∧ has_byte underscore s = false.
Proof.
  revert n. induction s as [|c s IH]; intros n; cbn [parse_digits base_digits has_byte]; [done|].
  destruct (digit_val c) as [d|] eqn:Hd; [|done]. apply any_digit_val in Hd as (-> & Hr & ->).
  rewrite (proj2 (Z.leb_gt 10 d)) by lia. destruct (_ <=? n); [done|]. destruct (_ || _); [done|]. apply IH.
Qed.
Lemma pretty_head x s : (0 < x)%N → ∃ c r, pretty_N_go x s = String c r ∧ c ≠ "0"%char.
Proof.
  revert s. induction (N.lt_wf_0 x) as [x _ IH]; intros s Hx. rewrite pretty_N_go_step by done.
  destruct (decide (x < 10)%N) as [Hl|Hl].
  - rewrite N.div_small, N.mod_small by done. change (pretty_N_go 0 ?s) with s.
    do 2 eexists. split; [done|]. assert (x ∈ [1;2;3;4;5;6;7;8;9]%N) as Hin by (rewrite !elem_of_cons; lia).
    repeat (apply elem_of_cons in Hin as [->|Hin]; [done|]). by apply not_elem_of_nil in Hin.
  - apply IH; [apply N.div_lt; lia|]. apply N.div_str_pos. lia.
Qed.
Lemma ParseUint0_fmt_d n : is_u64 n → ParseUint0 (fmt_d n) = (n, None).
Proof.
  intros Hn. pose proof (ParseUint_fmt_d n 64 ltac:(lia) Hn) as Hp.
  destruct n as [|p|p]; [done| |lia].
  assert (∃ c r, fmt_d (Zpos p) = String c r ∧ c ≠ "0"%char) as (c & r & Hs & Hc).
  { unfold fmt_d, pretty, pretty_Z, pretty, pretty_positive, pretty, pretty_N. rewrite decide_False by done.
    by apply pretty_head. }
  rewrite Hs in Hp |- *. unfold ParseUint in Hp. cbv beta iota in Hp.
  apply base_digits_10 in Hp as [Hp Hu]. unfold ParseUint0.
  assert (base_prefix (String c r) = (10, String c r)) as ->.
  { unfold base_prefix. destruct c as [[] [] [] [] [] [] [] []]; done. }
  by rewrite Hp, Hu.
Qed.

(** ** Flags: values written on the command line are read back *)

Definition flag_text (v : flag_value) : string :=
  match v with VString s => s | VBool b => if b then "true" else "false" | VUint64 n => fmt_d n end.
Definition flag_argument (nv : string * flag_value) : string := "-" +:+ nv.1 +:+ "=" +:+ flag_text nv.2.

Definition same_type (v v' : flag_value) : bool :=
  match v, v' with VString _, VString _ | VBool _, VBool _ | VUint64 _, VUint64 _ => true | _, _ => false end.
(** A number the type of the flag has. *)
Definition in_range (v : flag_value) : Prop := match v with VUint64 n => is_u64 n | _ => True end.
#[export] Instance in_range_dec v : Decision (in_range v).
Proof. destruct v; unfold in_range; apply _. Defined.
(** A value of the flag's type. *)
Definition fits (f : FlagSet) (nv : string * flag_value) : Prop :=
  ∃ variable old, formal f !! nv.1 = Some variable ∧ vars f !! variable = Some old ∧ same_type old nv.2 = true ∧
    in_range nv.2.
Definition assign (f : FlagSet) (nv : string * flag_value) : FlagSet :=
  match formal f !! nv.1 with Some variable => set_var variable nv.2 f | None => f end.
(** The names flags have: no dash in front, no equals sign. *)
Definition plain_name (name : string) : bool :=
  match name with String c _ => negb (Ascii.eqb c dash) && negb (has_byte equals name) | "" => false end.
Definition plain_names (f : FlagSet) : Prop := map_Forall (λ name _, plain_name name = true) (formal f).

Lemma Cut_plain name v : has_byte equals name = false → Cut (name +:+ String equals v) equals = Some (name, v).
Proof.
  induction name as [|c name IH]; cbn; [by intros _|]. intros [Hc Hn]%orb_false_iff. by rewrite Hc, IH.
Qed.
Lemma classify_flag name v :
  plain_name name = true → classify ("-" +:+ name +:+ "=" +:+ v) = FlagText (name +:+ String equals v).
Proof.
  destruct name as [|c name]; [done|]. cbn [plain_name]. intros [Hd He]%andb_true_iff.
  apply negb_true_iff in Hd, He. cbn [has_byte] in He. apply orb_false_iff in He as [He _].
  change ("-" +:+ String c name +:+ "=" +:+ v) with (String dash (String c (name +:+ String equals v))).
  unfold classify. cbn [negb Ascii.eqb dash]. rewrite Hd. cbn. by rewrite Hd, He.
Qed.
Lemma set_value_text old v :
  same_type old v = true → in_range v → set_value old (flag_text v) = Some v.
Proof.
  destruct old, v; cbn; try done.
  - intros _ _. by destruct b0.
  - intros _ Hn. by rewrite ParseUint0_fmt_d.
Qed.

(** One flag of the command line. *)
Lemma Parse_flag f nv rest :
  plain_names f → fits f nv → Parse f (flag_argument nv :: rest) = Parse (assign f nv) rest.
Proof.
  destruct nv as [name v]. intros Hp (variable & old & Hf & Hv & Ht & Hn). cbn [fst snd] in *.
  specialize (Hp name variable Hf). cbn [Parse]. unfold flag_argument, assign, split_flag. cbn [fst snd].
  rewrite classify_flag by done. destruct name as [|c name]; [done|].
  rewrite Cut_plain by (cbn [plain_name] in Hp; by apply andb_true_iff in Hp as [_ ->%negb_true_iff]).
  rewrite Hf, Hv. pose proof (set_value_text old v Ht Hn) as Hset.
  destruct old; change (default "true" (Some (flag_text v))) with (flag_text v); by rewrite Hset.
Qed.

(** *** One flag at a time, and what ends the process *)

(** The text for a flag: behind the equals sign, for a truth value "true" without
    one, for any other the next argument; and what is left. *)
Definition flag_input (old : flag_value) (value : option string) (rest : list string) : option (string * list string) :=
  match old, value, rest with
  | VBool _, _, _ => Some (default "true" value, rest)
  | _, Some s, _ => Some (s, rest)
  | _, None, s :: rest => Some (s, rest)
  | _, None, [] => None
  end.
Inductive takes : relation (FlagSet * list string) :=
| takes_flag f s rest text name value variable old input rest' v :
    classify s = FlagText text → split_flag text = (name, value) → formal f !! name = Some variable →
    vars f !! variable = Some old → flag_input old value rest = Some (input, rest') → set_value old input = Some v →
    takes (f, s :: rest) (set_var variable v f, rest').
(** The argument that ends the process, with its status. *)
Inductive stops (f : FlagSet) : list string → Z → Prop :=
| asks_help s rest text name value :
    classify s = FlagText text → split_flag text = (name, value) → formal f !! name = None →
    name = "help" ∨ name = "h" → stops f (s :: rest) 0
| unknown_flag s rest text name value :
    classify s = FlagText text → split_flag text = (name, value) → formal f !! name = None →
    name ≠ "help" → name ≠ "h" → stops f (s :: rest) 2
| bad_syntax s rest : classify s = BadSyntax → stops f (s :: rest) 2
| bad_value s rest text name value variable old input rest' :
    classify s = FlagText text → split_flag text = (name, value) → formal f !! name = Some variable →
    vars f !! variable = Some old → flag_input old value rest = Some (input, rest') → set_value old input = None →
    stops f (s :: rest) 2
| no_value s rest text name value variable old :
    classify s = FlagText text → split_flag text = (name, value) → formal f !! name = Some variable →
    vars f !! variable = Some old → flag_input old value rest = None → stops f (s :: rest) 2.
(** Every flag has a variable. *)
Definition defined (f : FlagSet) : Prop := map_Forall (λ _ variable, is_Some (vars f !! variable)) (formal f).
Lemma Parse_next f s rest text name value variable old :
  classify s = FlagText text → split_flag text = (name, value) → formal f !! name = Some variable → vars f !! variable = Some old →
  Parse f (s :: rest) =
    match flag_input old value rest with
    | Some (input, rest') =>
        match set_value old input with Some v => Parse (set_var variable v f) rest' | None => ParseExit 2 end
    | None => ParseExit 2
    end.
Proof.
  intros Hc Hs Hf Hv. cbn [Parse]. rewrite Hc, Hs, Hf, Hv. destruct old; [|done|]; (destruct value; [done|]); by destruct rest.
Qed.
Lemma flag_input_shorter old value rest input rest' :
  flag_input old value rest = Some (input, rest') → (length rest' ≤ length rest)%nat.
Proof. destruct old, value, rest; cbn; intros; simplify_eq; cbn; lia. Qed.
Lemma Parse_stops f args status :
  defined f → Parse f args = ParseExit status → ∃ f' args', rtc takes (f, args) (f', args') ∧ stops f' args' status.
Proof.
  remember (length args) as n eqn:Hl. assert (length args ≤ n)%nat as Hle by lia. clear Hl.
  revert f args Hle. induction n as [|n IH]; intros f [|s args] Hl Hd Hp; cbn in Hl; try done; try lia.
  destruct (classify s) as [| | |text] eqn:Hc; try (cbn [Parse] in Hp; by rewrite Hc in Hp).
  { cbn [Parse] in Hp. rewrite Hc in Hp. injection Hp as <-. exists f, (s :: args). split; [done|]. by constructor. }
  destruct (split_flag text) as [name value] eqn:Hs. destruct (formal f !! name) as [variable|] eqn:Hf.
  2: { cbn [Parse] in Hp. rewrite Hc, Hs, Hf in Hp. exists f, (s :: args). split; [done|].
       destruct (bool_decide (name = "help") || bool_decide (name = "h")) eqn:Hh; injection Hp as <-.
       - eapply asks_help; [done..|]. apply orb_true_iff in Hh as [?%bool_decide_eq_true|?%bool_decide_eq_true]; auto.
       - apply orb_false_iff in Hh as [?%bool_decide_eq_false ?%bool_decide_eq_false]. by eapply unknown_flag. }
  destruct (Hd _ _ Hf) as [old Hold]. rewrite (Parse_next _ _ _ _ _ _ _ _ Hc Hs Hf Hold) in Hp.
  destruct (flag_input old value args) as [[input rest']|] eqn:Hi.
  2: { injection Hp as <-. exists f, (s :: args). split; [done|]. by eapply no_value. }
  destruct (set_value old input) as [v|] eqn:Hv.
  2: { injection Hp as <-. exists f, (s :: args). split; [done|]. by eapply bad_value. }
  pose proof (flag_input_shorter _ _ _ _ _ Hi) as Hshort.
  destruct (IH (set_var variable v f) rest') as (f' & args' & Hr & Hst); [lia| |done|].
  - intros nm vr Hnm. cbn. rewrite lookup_insert_is_Some'. right. by eapply Hd.
  - exists f', args'. split; [|done]. eapply rtc_l; [|exact Hr]. by econstructor.
Qed.
Lemma Parse_stopped f args f' args' status :
  rtc takes (f, args) (f', args') → stops f' args' status → Parse f args = ParseExit status.
Proof.
  intros Hr Hst. remember (f, args) as x eqn:Hx. remember (f', args') as y eqn:Hy. revert f args Hx.
  induction Hr as [|x1 x2 x3 Hstep _ IH]; intros f args ->; [injection Hy as -> ->|].
  - destruct Hst as [s rest text name value Hc Hs Hf Hh|s rest text name value Hc Hs Hf H1 H2|s rest Hc|
      s rest text name value variable old input rest' Hc Hs Hf Hv Hi Hset|s rest text name value variable old Hc Hs Hf Hv Hi].
    + cbn [Parse]. rewrite Hc, Hs, Hf. by destruct Hh as [-> | ->].
    + cbn [Parse]. rewrite Hc, Hs, Hf. by rewrite !bool_decide_eq_false_2.
    + cbn [Parse]. by rewrite Hc.
    + by rewrite (Parse_next _ _ _ _ _ _ _ _ Hc Hs Hf Hv), Hi, Hset.
    + by rewrite (Parse_next _ _ _ _ _ _ _ _ Hc Hs Hf Hv), Hi.
  - inversion Hstep; subst. erewrite Parse_next by eassumption.
    match goal with Hi : flag_input _ _ _ = _, Hset : set_value _ _ = _ |- _ => rewrite Hi, Hset end. by apply IH.
Qed.

(** Parsing keeps the flags, and every variable the type it was declared with. *)
Definition same_flags (f f' : FlagSet) : Prop :=
  formal f' = formal f ∧ ∀ variable, match vars f !! variable, vars f' !! variable with
    | Some v, Some v' => same_type v v' = true | None, None => True | _, _ => False end.
#[export] Instance same_flags_preorder : PreOrder same_flags.
Proof.
  split.
  - intros f. split; [done|]. intros x. destruct (vars f !! x) as [[]|]; done.
  - intros f1 f2 f3 [E1 H1] [E2 H2]. split; [congruence|]. intros x. specialize (H1 x). specialize (H2 x).
    destruct (vars f1 !! x) as [[]|], (vars f2 !! x) as [[]|], (vars f3 !! x) as [[]|]; done.
Qed.
Lemma set_var_same f variable old v :
  vars f !! variable = Some old → same_type old v = true → same_flags f (set_var variable v f).
Proof.
  intros Hv Ht. split; [done|]. intros x. cbn. destruct (decide (x = variable)) as [->|Hne].
  - by rewrite Hv, lookup_insert_eq.
  - rewrite lookup_insert_ne by done. destruct (vars f !! x) as [[]|]; done.
Qed.
Lemma set_value_type old s v : set_value old s = Some v → same_type old v = true.
Proof.
  destruct old; cbn; [by intros [= <-]|by destruct (ParseBool s); intros [= <-]|].
  destruct (ParseUint0 s) as [? [|]]; [done|]. by intros [= <-].
Qed.
(** What holds of every end, and is kept by every single assignment, holds of the
    whole command line. *)
Lemma Parse_walk (Q : FlagSet → parsed → Prop) :
  (∀ f rest, Q f (Parsed f rest)) → (∀ f status, status = 0 ∨ status = 2 → Q f (ParseExit status)) →
  (∀ f variable old s v r, vars f !! variable = Some old → set_value old s = Some v → Q (set_var variable v f) r → Q f r) →
  ∀ f args, Q f (Parse f args).
Proof.
  intros Hend Hexit HQ f args. remember (length args) as n eqn:Hl. assert (length args ≤ n)%nat as Hle by lia. clear Hl.
  revert f args Hle. induction n as [|n IH]; intros f [|s args] Hl; cbn in Hl; try lia; cbn [Parse]; try done.
  destruct (classify s) as [| | |text]; try done; [by apply Hexit; right|].
  destruct (split_flag text) as [name value]. destruct (formal f !! name) as [variable|];
    [|apply Hexit; destruct (_ || _); [by left|by right]].
  destruct (vars f !! variable) as [old|] eqn:Hold; [|by apply Hexit; right].
  assert (∀ s' args', (length args' ≤ n)%nat →
    Q f (match set_value old s' with Some v => Parse (set_var variable v f) args' | None => ParseExit 2 end)) as Hset.
  { intros s' args' Hl'. destruct (set_value old s') as [v|] eqn:Hv; [|by apply Hexit; right].
    eapply HQ; [done..|]. by apply IH. }
  destruct old; [|apply Hset; lia|]; (destruct value as [s'|]; [apply Hset; lia|]);
    (destruct args as [|s' args]; [by apply Hexit; right|]); apply Hset; cbn in Hl; lia.
Qed.
Lemma Parse_steps (R : relation FlagSet) `{!PreOrder R} f args f' rest :
  (∀ f variable old s v, vars f !! variable = Some old → set_value old s = Some v → R f (set_var variable v f)) →
  Parse f args = Parsed f' rest → R f f'.
Proof.
  intros HR Hp. pose proof (Parse_walk (λ f r, match r with Parsed f' _ => R f f' | ParseExit _ => True end)) as Hwalk.
  specialize (λ a b c, Hwalk a b c f args). rewrite Hp in Hwalk. apply Hwalk; [done|done|].
  intros g variable old s v [g' ?|] Hold Hv Hr; [|done]. etrans; [by eapply HR|done].
Qed.
(** The process exits with 0 after the help, with 2 after an error. *)
Lemma Parse_exit f args status : Parse f args = ParseExit status → status = 0 ∨ status = 2.
Proof.
  intros Hp. pose proof (Parse_walk (λ f r, match r with ParseExit n => n = 0 ∨ n = 2 | _ => True end)) as Hwalk.
  specialize (λ a b c, Hwalk a b c f args). rewrite Hp in Hwalk. by apply Hwalk.
Qed.
Lemma Parse_types f args f' rest : Parse f args = Parsed f' rest → same_flags f f'.
Proof.
  apply Parse_steps; [apply _|]. intros. eapply set_var_same; [done|]. by eapply set_value_type.
Qed.

Lemma assign_same f nv : fits f nv → same_flags f (assign f nv).
Proof.
  intros (variable & old & Hf & Hv & Ht & _). unfold assign. rewrite Hf. by eapply set_var_same.
Qed.
Lemma fits_same f f' nv : same_flags f f' → fits f nv → fits f' nv.
Proof.
  intros [Hf Hs] (variable & old & Hn & Hv & Ht & Hr). specialize (Hs variable). rewrite Hv in Hs.
  destruct (vars f' !! variable) as [v|] eqn:E; [|done]. exists variable, v. rewrite Hf. split_and!; [done..| |done].
  destruct old, v, (nv.2); done.
Qed.

(** The arguments that end the flags. *)
Definition no_flag_first (rest : list string) : Prop :=
  match rest with [] => True | s :: _ => classify s = Positional end.
Theorem Parse_roundtrip f settings rest
    (Hnames : plain_names f) (Hfit : Forall (fits f) settings) (Hrest : no_flag_first rest) :
  Parse f (map flag_argument settings ++ rest) = Parsed (foldl assign f settings) rest.
Proof.
  revert f Hnames Hfit. induction settings as [|nv settings IH]; intros f Hnames Hfit; cbn [map app foldl].
  - destruct rest as [|s rest]; [done|]. cbn [Parse]. cbn in Hrest. by rewrite Hrest.
  - apply Forall_cons in Hfit as [Hnv Hfit]. rewrite Parse_flag by done. apply IH.
    + unfold plain_names. by rewrite (proj1 (assign_same _ _ Hnv)).
    + eapply Forall_impl; [done|]. intros x. apply fits_same. by apply assign_same.
Qed.

(** ** What the variables hold afterwards *)

(** The last value that was written for a variable, or its default. *)
Definition told (f : FlagSet) (settings : list (string * flag_value)) (variable : string) : option flag_value :=
  foldl (λ v nv, if decide (formal f !! nv.1 = Some variable) then Some nv.2 else v) (vars f !! variable) settings.
Lemma told_assigned f settings variable :
  vars (foldl assign f settings) !! variable = told f settings variable ∧ formal (foldl assign f settings) = formal f.
Proof.
  unfold told. revert f. induction settings as [|nv settings IH]; intros f; cbn [foldl]; [done|].
  destruct (IH (assign f nv)) as [-> ->]. assert (formal (assign f nv) = formal f) as ->
    by (unfold assign; by destruct (formal f !! nv.1)).
  split; [|done]. f_equal. unfold assign. destruct (formal f !! nv.1) as [x|]; cbn; case_decide as Hd; simplify_eq; try done.
  - by rewrite lookup_insert_eq.
  - rewrite lookup_insert_ne; [done|]. congruence.
Qed.

(** ** The range of the numbers *)

Lemma base_digits_range base n s v : is_u64 n → base_digits base n s = (v, None) → is_u64 v.
Proof.
  revert n. induction s as [|c s IH]; intros n Hn; cbn [base_digits]; [by intros [= <-]|].
  destruct (Ascii.eqb c underscore); [by apply IH|]. destruct (any_digit c); [|done].
  destruct (_ <=? _); [done|]. destruct (_ <=? _); [done|]. destruct (_ || _); [done|]. apply IH, u64_range.
Qed.
Lemma ParseUint0_range s v : ParseUint0 s = (v, None) → is_u64 v.
Proof.
  unfold ParseUint0. destruct s as [|c s]; [done|]. destruct (base_prefix _) as [base digits].
  destruct (base_digits base 0 digits) as [n [e|]] eqn:E; [done|]. destruct (_ && _); [done|]. intros [= <-].
  by eapply base_digits_range.
Qed.
Definition numbers_fit (f : FlagSet) : Prop := map_Forall (λ _ v, in_range v) (vars f).
Lemma set_value_fits old s v : set_value old s = Some v → in_range v.
Proof.
  destruct old; cbn; [by intros [= <-]|by destruct (ParseBool s); intros [= <-]|].
  destruct (ParseUint0 s) as [m [|]] eqn:E; [done|]. intros [= <-]. by eapply ParseUint0_range.
Qed.
Lemma Parse_numbers f args f' rest : Parse f args = Parsed f' rest → numbers_fit f → numbers_fit f'.
Proof.
  assert (PreOrder (λ f f', numbers_fit f → numbers_fit f')) as Hpre.
  { split; [by intros g|]. intros f1 f2 f3 H1 H2 H. by apply H2, H1. }
  apply (Parse_steps (λ f f', numbers_fit f → numbers_fit f')).
  - intros g variable old s v _ Hv Hg. apply map_Forall_insert_2; [by eapply set_value_fits|done].
Qed.
Lemma get_uint64_range f variable : numbers_fit f → is_u64 (get_uint64 f variable).
Proof.
  intros Hf. unfold get_uint64. destruct (vars f !! variable) as [[s|b|n]|] eqn:E; try lia. exact (Hf variable _ E).
Qed.
