(* ===== verification/Startup.v ===== *)
(** * Starting the programs ([main] of both, and [certFingeprint])

    From the arguments of a process to the state it serves with: the flags of the
    proxy and of the collector, what they are checked for, and the first value of
    every variable the other files take as given.  The listening itself, and the
    parsers of certificates, are parameters. *)

From S2P Require Import Prelude GoStrings GoBytes Sha256 S3 Platform MemWorld Snapshot GCPlan UsageStats Sizes GC GCSnapshots Http ChunkUpload Session Cache CacheInvalidation Listing SessionLock Auth Flags.

Local Open Scope Z_scope.

(** ** White space ([strings.TrimSpace]) *)

(** The white space of Unicode, in UTF-8. *)
Definition utf8 (bytes : list nat) : string := String.string_of_list_ascii (map ascii_of_nat bytes).
Definition white_space : list string :=
  utf8 <$> ([[9]; [10]; [11]; [12]; [13]; [32]; [194; 133]; [194; 160]; [225; 154; 128]; [226; 128; 168]; [226; 128; 169];
             [226; 128; 175]; [226; 129; 159]; [227; 128; 128]] ++ ((λ n, [226; 128; n]%nat) <$> seq 128 11))%nat.
Definition leading (s : string) : option string := head (filter (λ p, HasPrefix s p = true) white_space).
Definition trailing (s : string) : option string := head (filter (λ p, HasSuffix s p = true) white_space).
(** Every character has a byte at least: as many rounds as there are bytes. *)
Fixpoint trim_left (fuel : nat) (s : string) : string :=
  match fuel, leading s with
  | S fuel, Some p => trim_left fuel (drop_string (String.length p) s)
  | _, _ => s
  end.
Fixpoint trim_right (fuel : nat) (s : string) : string :=
  match fuel, trailing s with
  | S fuel, Some p => trim_right fuel (take_string (String.length s - String.length p) s)
  | _, _ => s
  end.
Definition TrimSpace (s : string) : string :=
  let s := trim_left (String.length s) s in trim_right (String.length s) s.

(** ** The flags *)

Definition defaultCacheTTLSeconds : Z := 3600.
(** The proxy's; [-v] and [-version] set one variable. *)
Definition proxy_flags : FlagSet :=
  define_var "v" "version" (VBool false) (foldl (λ f nv, define nv.1 nv.2 f) no_flags
    [("cert", VString "server.crt"); ("key", VString "server.key"); ("endpoint", VString "");
     ("bind", VString "127.0.0.1:8007"); ("usessl", VBool false); ("ticketexpire", VUint64 3600);
     ("lookuptype", VString "auto"); ("bucketcachettl", VUint64 defaultCacheTTLSeconds);
     ("snapshotcachettl", VUint64 defaultCacheTTLSeconds); ("usagecachettl", VUint64 defaultCacheTTLSeconds);
     ("metadatacachettl", VUint64 defaultCacheTTLSeconds); ("gcstatscachettl", VUint64 defaultCacheTTLSeconds);
     ("reportdatastoreusage", VBool false); ("reportarchivesize", VBool false); ("reportencryption", VBool false);
     ("reportgcstats", VBool false); ("cacheinvalidatedir", VString ""); ("datastoresize", VUint64 0);
     ("snapshotsize", VString SnapshotSizeLogical); ("debug", VBool false); ("chunks3timeout", VUint64 300);
     ("chunkstorageclass", VString ""); ("backupstorageclass", VString ""); ("indexedstorageclass", VString "");
     ("version", VBool false)]).
(** The collector's; [uint] has 64 bits. *)
Definition collector_flags : FlagSet :=
  define_var "v" "version" (VBool false) (foldl (λ f nv, define nv.1 nv.2 f) no_flags
    [("endpoint", VString ""); ("usessl", VBool false); ("bucket", VString ""); ("accesskey", VString "");
     ("secretkey", VString ""); ("secretkeyfile", VString ""); ("retention", VUint64 60); ("chunkgrace", VUint64 24);
     ("cacheinvalidatedir", VString ""); ("version", VBool false); ("lookuptype", VString "auto"); ("debug", VBool false)]).

(** ** The proxy *)

(** What the process serves with. *)
Record process := mkProcess {
  pr_api : api;
  pr_invalidations : cacheInvalidations;
  pr_reports : reports;
  pr_sessions : sessions;
  pr_ChunkS3Timeout : Z;                          (* time.Duration *)
  pr_StorageClasses : storageClassPolicy;
  pr_bindAddress : string;
  pr_debug : bool;
}.
(** How [main] goes on after the flags: the process exits, or serves. *)
Inductive startup := Exits (status : Z) | Serves (p : process).

(** [time.Duration(n) * time.Second]. *)
Definition seconds (n : Z) : Z := i64 (i64 n * 1000000000).

Definition proxy_process (f : FlagSet) : process :=
  let ttl name := seconds (get_uint64 f name) in
  mkProcess
    (mkApi ∅ ∅ (newTTLCache (ttl "bucketcachettl")) (get_string f "endpoint") (get_bool f "usessl")
       (get_uint64 f "ticketexpire") (get_string f "lookuptype"))
    (configureCacheInvalidations (get_string f "cacheinvalidatedir") (get_string f "endpoint")
       (mkInvalidations "" "" ∅
          (mkCaches (newTTLCache (ttl "snapshotcachettl")) (newTTLCache (ttl "usagecachettl"))
             (newTTLCache (ttl "gcstatscachettl")) (newTTLCache (ttl "metadatacachettl"))
             (newTTLCache (ttl "metadatacachettl")))))
    (mkReports (get_bool f "reportdatastoreusage") (get_bool f "reportarchivesize") (get_bool f "reportencryption")
       (get_bool f "reportgcstats") (get_string f "snapshotsize") (get_uint64 f "datastoresize"))
    (mkSessions ∅ 0)
    (ttl "chunks3timeout")
    (mkStorageClassPolicy (TrimSpace (get_string f "chunkstorageclass")) (TrimSpace (get_string f "backupstorageclass"))
       (TrimSpace (get_string f "indexedstorageclass")))
    (get_string f "bind")
    (get_bool f "debug").

(** The checks, in the order of the code; [FatalPrint] exits with 1. *)
Definition proxy_start (f : FlagSet) : startup :=
  if get_bool f "version" then Exits 0
  else if bool_decide (get_string f "endpoint" = "") then Exits 1
  else if negb (ValidSnapshotSizeMode (get_string f "snapshotsize")) then Exits 1
  else if negb (bool_decide (get_string f "snapshotsize" = SnapshotSizeLogical)) && negb (get_bool f "reportgcstats")
  then Exits 1
  else Serves (proxy_process f).
Definition proxy_command (args : list string) : startup :=
  match Parse proxy_flags args with
  | ParseExit status => Exits status
  | Parsed f _ => proxy_start f
  end.

(** ** The certificate *)

Section certificate.
Context {W : Type} `{!Platform W}.
(** [pem.Decode] - the bytes of the first block - and [x509.ParseCertificate] - the
    [Raw] of the certificate. *)
Context (pem_Decode : string → option (list byte)) (x509_ParseCertificate : list byte → res (list byte)).

Definition ToUpper (s : string) : string := String.string_of_list_ascii (map to_upper (String.list_ascii_of_string s)).
Definition colon : ascii := ":"%char.
Definition fingerprint_text (fingerprint : list byte) : string :=
  ToUpper (Join (map (λ b, hex_EncodeToString [b]) fingerprint) colon).

(** [None] when the certificate cannot be read; the reason is logged. *)
Definition certFingeprint (cfile : string) : io W (option string) :=
  certData ← try (os_ReadFile cfile);
  match certData with
  | inr _ => mret None
  | inl certData =>
      match pem_Decode certData with
      | None => mret None
      | Some block =>
          match x509_ParseCertificate block with
          | Ok raw => mret (Some (fingerprint_text (sha256 raw)))
          | Err _ => mret None
          | Panicked p => lift_res (Panicked p)
          end
      end
  end.

(** The certificate that comes with the sources: the operator is warned. *)
Definition default_fingerprint : string :=
  "55:BC:29:4B:BA:B6:A1:03:42:A9:D8:51:14:9D:BD:00:D2:2A:9C:A1:B8:4A:85:E1:AF:B2:0C:48:40:D6:CC:A4".
Definition warns_default (fing : option string) : bool := bool_decide (fing = Some default_fingerprint).

(** [srv.ListenAndServeTLS(cert, key)]: what it answers when it returns. *)
Context (ListenAndServeTLS : process → string → string → st W (option error)).

(** The end of the process: a status, or the panic of a listener that failed. *)
Definition proxy_main (args : list string) : io W Z :=
  match Parse proxy_flags args with
  | ParseExit status => mret status
  | Parsed f _ =>
      match proxy_start f with
      | Exits status => mret status
      | Serves p =>
          _ ← certFingeprint (get_string f "cert");
          err ← lift_st (ListenAndServeTLS p (get_string f "cert") (get_string f "key"));
          match err with
          | Some _ => lift_res (Panicked "ListenAndServeTLS")
          | None => mret 0
          end
      end
  end.
End certificate.

(** ** The collector *)

Definition gc_flags (f : FlagSet) : gcFlags :=
  mkFlags (get_string f "endpoint") (get_bool f "usessl") (get_string f "bucket") (get_string f "accesskey")
    (get_string f "secretkey") (get_string f "secretkeyfile") (get_uint64 f "retention") (get_uint64 f "chunkgrace")
    (get_string f "cacheinvalidatedir") (get_string f "lookuptype").
(** The exit status of a process: of one that ends, of [FatalPrint], of a panic. *)
Definition exit_status (r : res unit) : Z := match r with Ok _ => 0 | Err _ => 1 | Panicked _ => 2 end.
Definition collector_main {W} `{!ObjectStore W, !Platform W, !MapRange} (args : list string) : st W Z := λ w,
  match Parse collector_flags args with
  | ParseExit status => (status, w)
  | Parsed f _ =>
      if get_bool f "version" then (0, w)
      else let '(r, w) := gc_main (gc_flags f) w in (exit_status r, w)
  end.

(** ** Durations *)

(** [MaxInt64] nanoseconds, in seconds: 292 years. *)
Definition max_seconds : Z := 9223372036.

(** A number of seconds from the command line becomes the duration it says
    exactly up to 292 years; from there to twice that the multiplication wraps to a
    negative duration, with which a cache never answers from its entries, and
    which [ChunkS3Timeout > 0] takes for no deadline. *)
Theorem seconds_exact n (Hn : is_u64 n) :
  (seconds n = n * 1000000000 ↔ n ≤ max_seconds) ∧
  (max_seconds < n ≤ 2 * max_seconds →
     seconds n < 0 ∧ ∀ {T} (now t : Z) (e : ttlCacheEntry T), fetched e = Some t → t ≤ now → e_fresh (seconds n) now e = false).
Proof.
  unfold max_seconds. split.
  - split; intros H.
    + destruct (Z.le_gt_cases n 9223372036) as [|Hgt]; [done|].
      pose proof (i64_range (i64 n * 1000000000)) as Hr. unfold seconds in H. rewrite H in Hr. lia.
    + unfold seconds. rewrite (i64_id n), i64_id; lia.
  - intros Hgt. assert (seconds n < 0) as Hneg.
    { unfold seconds. rewrite (i64_id n) by lia. unfold i64.
      change (2 ^ 63) with 9223372036854775808. change (2 ^ 64) with 18446744073709551616.
      rewrite <-(Z.mod_unique (n * 1000000000 + 9223372036854775808) 18446744073709551616 1
                 (n * 1000000000 + 9223372036854775808 - 18446744073709551616)); lia. }
    split; [done|]. intros T now t e He Ht. unfold e_fresh. rewrite He. apply andb_false_iff. right.
    apply Z.ltb_ge. cbn [time_Since]. unfold MaxInt64. lia.
Qed.
Lemma seconds_exact_witness : is_u64 3600 ∧ (seconds 3600 = 3600 * 1000000000 ↔ 3600 ≤ max_seconds).
Proof. split; [lia|]. exact (proj1 (seconds_exact 3600 ltac:(lia))). Defined.

(** ** The process at its start *)

(** Nothing is cached, nobody is logged in, no session is open; what the other
    files assume of the values of the flags. *)
Record fresh_process (p : process) : Prop := {
  fp_auth : auth_start (pr_api p);
  fp_buckets : entries (bucketListCache (pr_api p)) = ∅;
  fp_snapshots : entries (snapshotListCache (ci_caches (pr_invalidations p))) = ∅;
  fp_usage : entries (datastoreUsageCache (ci_caches (pr_invalidations p))) = ∅;
  fp_stats : entries (usageStatsCache (ci_caches (pr_invalidations p))) = ∅;
  fp_archives : entries (archiveSizeCache (ci_caches (pr_invalidations p))) = ∅;
  fp_modes : entries (manifestCryptModeCache (ci_caches (pr_invalidations p))) = ∅;
  fp_seen : ci_seen (pr_invalidations p) = ∅;
  fp_sessions : pr_sessions p = sy_proxy at_start;
  fp_endpoint : S3Endpoint (pr_api p) ≠ "" ∧ ci_endpoint (pr_invalidations p) = S3Endpoint (pr_api p);
  fp_expire : is_u64 (TicketExpire (pr_api p));
  fp_capacity : is_u64 (datastoreCapacity (pr_reports p));
  fp_mode : ValidSnapshotSizeMode (snapshotSizeMode (pr_reports p)) = true;
  fp_report : snapshotSizeMode (pr_reports p) ≠ SnapshotSizeLogical → reportGCStats (pr_reports p) = true;
  fp_timeout : is_i64 (pr_ChunkS3Timeout p);
  fp_ttl : is_i64 (ttl (bucketListCache (pr_api p))) ∧ is_i64 (ttl (snapshotListCache (ci_caches (pr_invalidations p))));
}.

Lemma proxy_flags_fit : plain_names proxy_flags ∧ numbers_fit proxy_flags.
Proof. split; apply (bool_decide_unpack _); vm_compute; exact I. Qed.

Lemma proxy_started_fresh f : numbers_fit f → proxy_start f = Serves (proxy_process f) → fresh_process (proxy_process f).
Proof.
  intros Hf Hs. unfold proxy_start in Hs. destruct (get_bool f "version"); [done|].
  destruct (bool_decide (get_string f "endpoint" = "")) eqn:He; [done|].
  destruct (ValidSnapshotSizeMode _) eqn:Hm; [|done]. cbn [negb] in Hs.
  split; cbn; try done.
  - split; [|done]. by apply bool_decide_eq_false in He.
  - by apply get_uint64_range.
  - by apply get_uint64_range.
  - intros Hne. rewrite bool_decide_false in Hs by done. by destruct (get_bool f "reportgcstats").
  - apply i64_range.
  - split; apply i64_range.
Qed.

(** The state holds what the command line says, each value where it is used. *)
Record configured (f : FlagSet) (p : process) : Prop := {
  cf_endpoint : S3Endpoint (pr_api p) = get_string f "endpoint";
  cf_secure : SecureFlag (pr_api p) = get_bool f "usessl";
  cf_expire : TicketExpire (pr_api p) = get_uint64 f "ticketexpire";
  cf_lookup : LookupTypeFlag (pr_api p) = get_string f "lookuptype";
  cf_buckets : ttl (bucketListCache (pr_api p)) = seconds (get_uint64 f "bucketcachettl");
  cf_snapshots : ttl (snapshotListCache (ci_caches (pr_invalidations p))) = seconds (get_uint64 f "snapshotcachettl");
  cf_usage : ttl (datastoreUsageCache (ci_caches (pr_invalidations p))) = seconds (get_uint64 f "usagecachettl");
  cf_stats : ttl (usageStatsCache (ci_caches (pr_invalidations p))) = seconds (get_uint64 f "gcstatscachettl");
  cf_archives : ttl (archiveSizeCache (ci_caches (pr_invalidations p))) = seconds (get_uint64 f "metadatacachettl");
  cf_modes : ttl (manifestCryptModeCache (ci_caches (pr_invalidations p))) = seconds (get_uint64 f "metadatacachettl");
  cf_directory : ci_directory (pr_invalidations p) = get_string f "cacheinvalidatedir";
  cf_mode : snapshotSizeMode (pr_reports p) = get_string f "snapshotsize";
  cf_capacity : datastoreCapacity (pr_reports p) = get_uint64 f "datastoresize";
  cf_timeout : pr_ChunkS3Timeout p = seconds (get_uint64 f "chunks3timeout");
  cf_usage_report : reportDataStoreUsage (pr_reports p) = get_bool f "reportdatastoreusage";
  cf_archive_report : reportArchiveSize (pr_reports p) = get_bool f "reportarchivesize";
  cf_encryption_report : reportEncryption (pr_reports p) = get_bool f "reportencryption";
  cf_stats_report : reportGCStats (pr_reports p) = get_bool f "reportgcstats";
  cf_chunk_class : sc_Chunks (pr_StorageClasses p) = TrimSpace (get_string f "chunkstorageclass");
  cf_backup_class : sc_Backups (pr_StorageClasses p) = TrimSpace (get_string f "backupstorageclass");
  cf_indexed_class : sc_Indexed (pr_StorageClasses p) = TrimSpace (get_string f "indexedstorageclass");
  cf_bind : pr_bindAddress p = get_string f "bind";
  cf_debug : pr_debug p = get_bool f "debug";
}.
(** What is wrong with the values of a command line. *)
Definition unfit (f : FlagSet) : Prop :=
  get_string f "endpoint" = "" ∨ ValidSnapshotSizeMode (get_string f "snapshotsize") = false ∨
  (get_string f "snapshotsize" ≠ SnapshotSizeLogical ∧ get_bool f "reportgcstats" = false).
Lemma proxy_start_exit f status :
  proxy_start f = Exits status ↔
    (get_bool f "version" = true ∧ status = 0) ∨ (get_bool f "version" = false ∧ unfit f ∧ status = 1).
Proof.
  unfold proxy_start, unfit. destruct (get_bool f "version").
  { split; [intros [= <-]; by left|]. by intros [[_ ->]|[? _]]. }
  case_bool_decide as He; cbn [negb].
  { split; [intros [= <-]; right; auto|]. by intros [[? _]|(_ & _ & ->)]. }
  destruct (ValidSnapshotSizeMode _) eqn:Hm; cbn [negb].
  2: { split; [intros [= <-]; right; auto|]. by intros [[? _]|(_ & _ & ->)]. }
  destruct (negb (bool_decide (get_string f "snapshotsize" = SnapshotSizeLogical)) && negb (get_bool f "reportgcstats")) eqn:Hr.
  - apply andb_true_iff in Hr as [H1 H2]. apply negb_true_iff in H1, H2. apply bool_decide_eq_false in H1.
    split; [intros [= <-]; right; split_and!; [done|by right; right|done]|]. by intros [[? _]|(_ & _ & ->)].
  - split; [done|]. intros [[? _]|(_ & [?|[?|[Hne Hg]]] & _)]; try done. by rewrite Hg, bool_decide_false in Hr by done.
Qed.
Lemma proxy_flags_defined : defined proxy_flags.
Proof. apply (bool_decide_unpack _); vm_compute; exact I. Qed.

Definition some_settings : list (string * flag_value) :=
  [("endpoint", VString "s3.example:9000"); ("usessl", VBool true); ("ticketexpire", VUint64 7200);
   ("snapshotsize", VString "exclusive"); ("endpoint", VString "other.example"); ("reportgcstats", VBool true)].
Definition some_process : process := proxy_process (foldl assign proxy_flags some_settings).
Example some_start : proxy_command (map flag_argument some_settings) = Serves some_process.
Proof. vm_compute. reflexivity. Qed.
Example version_start : proxy_command ["-endpoint"; "s3.example"; "--v"] = Exits 0.
Proof. vm_compute. reflexivity. Qed.
Example mode_start : proxy_command ["-endpoint=s3.example"; "-snapshotsize"; "referenced"] = Exits 1.
Proof. vm_compute. reflexivity. Qed.
Example unknown_start : proxy_command ["-endpoint=s3.example"; "-ticketexpire=soon"] = Exits 2.
Proof. vm_compute. reflexivity. Qed.

(** ** Reading the command line *)

Lemma collector_flags_fit : plain_names collector_flags ∧ numbers_fit collector_flags.
Proof. split; apply (bool_decide_unpack _); vm_compute; exact I. Qed.

(** The command lines of both programs are read as they are written: of flags
    given as [-name=value], with any text, truth value or 64-bit number, each
    variable holds the last value that one of its names was given, or its default,
    and what follows the flags is left. *)
Theorem command_line_roundtrip flags settings rest
    (Hflags : flags = proxy_flags ∨ flags = collector_flags) (Hfit : Forall (fits flags) settings)
    (Hrest : no_flag_first rest) :
  ∃ f, Parse flags (map flag_argument settings ++ rest) = Parsed f rest ∧
    ∀ variable, vars f !! variable = told flags settings variable.
Proof.
  exists (foldl assign flags settings). split; [|intros x; apply told_assigned].
  apply Parse_roundtrip; [|done|done]. destruct Hflags as [->| ->]; [apply proxy_flags_fit|apply collector_flags_fit].
Qed.
Lemma some_settings_fit : Forall (fits proxy_flags) some_settings.
Proof.
  repeat (apply Forall_cons; split; [do 2 eexists; split_and!; [vm_compute; reflexivity..|cbn; try done; lia]|]).
  by apply Forall_nil.
Qed.
Lemma command_line_roundtrip_witness :
  ∃ f, Parse proxy_flags (map flag_argument some_settings ++ []) = Parsed f [] ∧
    ∀ variable, vars f !! variable = told proxy_flags some_settings variable.
Proof. exact (command_line_roundtrip proxy_flags some_settings [] (or_introl eq_refl) some_settings_fit I). Defined.

(** ** The fingerprint *)

Definition fingerprint_bytes (s : string) : list byte := concat (map (λ w, fst (hex_DecodeString w)) (Split s colon)).
Lemma ToUpper_app s t : ToUpper (s +:+ t) = ToUpper s +:+ ToUpper t.
Proof. unfold ToUpper. induction s as [|c s IH]; [done|]. cbn in *. by rewrite IH. Qed.
Lemma ToUpper_Join ws : ToUpper (Join ws colon) = Join (map ToUpper ws) colon.
Proof.
  induction ws as [|w ws IH]; [done|]. destruct ws as [|w' ws]; [done|].
  rewrite Join_cons by done. cbn [map]. rewrite (Join_cons (ToUpper w)) by done. rewrite ToUpper_app. change (ToUpper (String colon (Join (w' :: ws) colon))) with (String colon (ToUpper (Join (w' :: ws) colon))). by rewrite IH.
Qed.
Lemma byte_text (b : byte) :
  hex_DecodeString (ToUpper (hex_EncodeToString [b])) = ([b], None) ∧
  has_byte colon (ToUpper (hex_EncodeToString [b])) = false.
Proof. destruct b; vm_compute; split; reflexivity. Qed.
Lemma Split_Join ws c : ws ≠ [] → Forall (λ w, has_byte c w = false) ws → Split (Join ws c) c = ws.
Proof.
  induction ws as [|w ws IH]; [done|]. intros _ [Hw Hws]%Forall_cons. destruct ws as [|w' ws].
  - by apply Split_word.
  - rewrite Join_cons by done. rewrite Split_app by done. by rewrite IH.
Qed.
(** The digest can be read off the text: what is shown identifies the certificate
    as well as its digest does. *)
Theorem fingerprint_roundtrip digest : digest ≠ [] → fingerprint_bytes (fingerprint_text digest) = digest.
Proof.
  intros Hne. unfold fingerprint_bytes, fingerprint_text. rewrite ToUpper_Join, map_map, Split_Join.
  - rewrite map_map. clear Hne. induction digest as [|b digest IH]; [done|]. cbn [map concat].
    rewrite (proj1 (byte_text b)). cbn [fst app]. f_equal. exact IH.
  - by destruct digest.
  - apply Forall_forall. intros w Hw. apply list_elem_of_fmap in Hw as (b & -> & _). apply byte_text.
Qed.
(** The warning is given for the one certificate only. *)
Lemma warned_certificate raw :
  warns_default (Some (fingerprint_text (sha256 raw))) = true ↔ sha256 raw = fingerprint_bytes default_fingerprint.
Proof.
  unfold warns_default. rewrite bool_decide_eq_true. split.
  - intros [= E]. rewrite <-E, fingerprint_roundtrip; [done|]. intros Hn. rewrite Hn in E. by vm_compute in E.
  - intros ->. vm_compute. reflexivity.
Qed.

(** ** The collector *)

Section collector.
Context {W : Type} `{!ObjectStore W, !Platform W, !MapRange, !StoreView W, !FileView W}.
Context `{!ObjectStoreLaws W, !PlatformLaws W}.

(** A command line the collector does not run with changes nothing, and a run
    touches the bucket it names and no other. *)
Theorem collector_confined args (w w' : W) status :
  collector_main args w = (status, w') →
  match Parse collector_flags args with
  | ParseExit _ => w' = w
  | Parsed f _ =>
      (get_bool f "version" = true ∨ flags_missing (gc_flags f) = true → w' = w) ∧
      ∀ b, b ≠ get_string f "bucket" → contents w' b = contents w b
  end.
Proof.
  unfold collector_main. destruct (Parse collector_flags args) as [f rest|n]; [|by intros [= _ <-]].
  destruct (get_bool f "version"); [by intros [= _ <-]|].
  destruct (gc_main (gc_flags f) w) as [r w1] eqn:E. intros [= _ <-]. split.
  - intros [?|Hm]; [done|]. unfold gc_main, gc_mark, gc_inventory, gc_setup in E. rewrite Hm in E.
    by injection E as _ <-.
  - intros b Hb. by eapply (gc_other_buckets (gc_flags f)).
Qed.
End collector.
