(* ===== verification/DataStore.v ===== *)
(** * What a datastore promises: a set of snapshots

    To its users a datastore is a set of named snapshots, which a listing shows, a
    deletion takes one from, a backup changes at its own name, and a collection at
    the names that are due.  This file states that as a transition system on sets and
    shows that the requests, the sessions and the collections are steps of it on the
    objects of the bucket; and that a complete snapshot outlives, byte for byte,
    everything that is not meant for it.  What the client of a session asks of the API
    with a ticket of that session is meant for the snapshots it names. *)

From S2P Require Import Prelude GoStrings GoBytes S3 Platform MemWorld Snapshot IndexFormat GCPlan Json UsageStats Sizes Http HandlerLogic Hijack ChunkUpload ChunkFlight Session IndexWriter Transfer Cache Invalidation CacheInvalidation Manifest Listing Auth Admin Serve BackupSession GC GCSnapshots.

Local Open Scope Z_scope.

(** ** The abstract datastores *)

(** The snapshots of each datastore, by name. *)
Definition shelf : Type := string → gset string.

(** A listed snapshot is told by what its name says. *)
Definition told (p : string) (s : Snapshot) : Prop :=
  parse_name p = Some (BackupID s, BackupTime s, BackupType s).

(** What is seen of a run.  [at] tells the names, each in its datastore, that a run may
    change besides the one it is about. *)
Inductive request_kind :=
| Listed (ds : string) (l : list Snapshot)
| Deleted (ds p : string) (at_ : string → string → Prop)
| Changed (at_ : string → string → Prop)
| Collected (ds : string) (spared : string → Prop).
Definition nowhere (_ _ : string) : Prop := False.

Inductive shelf_step : request_kind → relation shelf :=
| shelf_listed ds l ps (s s' : shelf) :
    Forall2 told ps l → NoDup ps → list_to_set ps = s ds → (∀ ds', s' ds' = s ds') → shelf_step (Listed ds l) s s'
| shelf_deleted ds p at_ (s s' : shelf) :
    p ∉ s' ds → (∀ b q, b ≠ ds ∨ q ≠ p → ¬ at_ b q → q ∈ s' b ↔ q ∈ s b) → shelf_step (Deleted ds p at_) s s'
| shelf_changed at_ (s s' : shelf) :
    (∀ b q, ¬ at_ b q → q ∈ s' b ↔ q ∈ s b) → shelf_step (Changed at_) s s'
| shelf_collected ds (spared : string → Prop) (s s' : shelf) :
    (∀ p, spared p → p ∈ s' ds ↔ p ∈ s ds) → (∀ ds', ds' ≠ ds → s' ds' = s ds') →
    shelf_step (Collected ds spared) s s'.

(** ** The abstraction *)

Definition corrupted_key (p : string) : string := "backups/" +:+ p +:+ "/corrupted".
Definition key_name (k : string) : option string := fst <$> split_key k.
(** The names that occur below [backups/] and are not marked corrupted. *)
Definition visible (m : gmap string Obj) : gset string :=
  filter (λ p, m !! corrupted_key p = None) (list_to_set (omap key_name (map_to_list m).*1)).
Definition shelf_of {W} `{StoreView W} (w : W) : shelf := λ ds, visible (contents w ds).

Lemma elem_of_visible m p :
  p ∈ visible m ↔ m !! corrupted_key p = None ∧ ∃ k, is_Some (m !! k) ∧ key_name k = Some p.
Proof.
  unfold visible. rewrite elem_of_filter, elem_of_list_to_set, list_elem_of_omap.
  split; intros [Hc H]; (split; [done|]).
  - destruct H as (k & Hk & Hp). apply list_elem_of_fmap in Hk as ([k' x] & -> & Hin%elem_of_map_to_list). eauto.
  - destruct H as (k & [x Hx] & Hp). exists k. split; [|done]. apply list_elem_of_fmap. exists (k, x).
    split; [done|]. by apply elem_of_map_to_list.
Qed.

Lemma split_key_inv k p f :
  split_key k = Some (p, f) → k = "backups/" +:+ p +:+ "/" +:+ f ∧ has_byte slash p = false ∧ p ≠ "" ∧ f ≠ "".
Proof.
  unfold split_key. destruct (HasPrefix k "backups/") eqn:Hp; [|done].
  apply HasPrefix_spec in Hp as [r ->]. rewrite TrimPrefix_app.
  destruct (Cut r slash) as [[a b]|] eqn:Hc; [|done]. apply Cut_Some in Hc as [-> Ha].
  destruct (bool_decide (a = "") || bool_decide (b = "")) eqn:Hb; [done|]. intros [= <- <-]. by reflect_bools.
Qed.
Lemma split_key_of p f :
  has_byte slash p = false → p ≠ "" → f ≠ "" → split_key ("backups/" +:+ p +:+ "/" +:+ f) = Some (p, f).
Proof.
  intros Hs Hp Hf. unfold split_key. rewrite HasPrefix_app, TrimPrefix_app.
  change ("/" +:+ f) with (String slash f). rewrite Cut_app by done. by rewrite !bool_decide_eq_false_2.
Qed.
Lemma key_name_inv k p :
  key_name k = Some p → has_byte slash p = false ∧ p ≠ "" ∧ ∃ f, k = "backups/" +:+ p +:+ "/" +:+ f.
Proof.
  unfold key_name. destruct (split_key k) as [[p' f]|] eqn:Hk; [|done]. intros [= ->].
  apply split_key_inv in Hk as (-> & ? & ? & _). eauto.
Qed.
Lemma corrupted_key_name p : has_byte slash p = false → p ≠ "" → split_key (corrupted_key p) = Some (p, "corrupted").
Proof. intros. by apply (split_key_of p "corrupted"). Qed.

Lemma key_name_dir k p : key_name k = Some p → plain p ∧ in_dir p k.
Proof. intros (Hs & Hne & f & ->)%key_name_inv. split; [done|]. apply in_dir_spec. by exists f. Qed.

(** A name without a slash: its directory holds its keys and no others. *)
Definition plain_name (S : Snapshot) : Prop := has_byte slash (snapshot_name S) = false.
Lemma plain_name_plain S : plain_name S → plain (snapshot_name S).
Proof. intros Hs. split; [done|]. apply snapshot_name_nonempty. Qed.
(** Any other ends at its first slash, as a listing sees it. *)
Definition listed_name (S : Snapshot) : string :=
  match Cut (snapshot_name S) slash with Some (a, _) => a | None => snapshot_name S end.
Lemma listed_name_plain S : plain_name S → listed_name S = snapshot_name S.
Proof.
  unfold plain_name, listed_name. intros Hs. destruct (Cut _ _) as [[a b]|] eqn:Hc; [|done].
  apply Cut_Some in Hc as [Hc _]. rewrite Hc, has_byte_app in Hs. cbn in Hs. by rewrite orb_true_r in Hs.
Qed.
Lemma in_listed_dir S k : in_snapshot S k = true → in_dir (listed_name S) k.
Proof.
  intros [f ->]%in_snapshot_dir%in_dir_spec. unfold listed_name. destruct (Cut _ _) as [[a b]|] eqn:Hc.
  - apply Cut_Some in Hc as [-> _]. apply in_dir_spec. exists (b +:+ String slash f). by rewrite !string_app_assoc.
  - apply in_dir_spec. by exists f.
Qed.
Lemma in_listed_dir_unique S p k : plain p → in_dir p k → in_snapshot S k = true → p = listed_name S.
Proof.
  intros [Hp _] [f ->]%in_dir_spec [g Hg]%in_listed_dir%in_dir_spec. apply string_app_inj_l in Hg.
  assert (has_byte slash (listed_name S) = false) as Hs.
  { unfold listed_name. destruct (Cut _ _) as [[a b]|] eqn:Hc; [by apply Cut_Some in Hc as [_ ?]|by apply Cut_None in Hc]. }
  pose proof (Cut_app slash p f Hp) as H1. rewrite Hg, Cut_app in H1 by done. by injection H1.
Qed.

(** ** What changes of a set of objects mean for its names *)

Lemma visible_same (m m' : gmap string Obj) q :
  (∀ k, key_name k = Some q → m' !! k = m !! k) → q ∈ visible m' ↔ q ∈ visible m.
Proof.
  intros Hk. rewrite !elem_of_visible.
  assert ((∃ k, is_Some (m' !! k) ∧ key_name k = Some q) ↔ ∃ k, is_Some (m !! k) ∧ key_name k = Some q) as Hex.
  { split; intros (k & Hs & Hn); exists k; (split; [|done]); by rewrite Hk in * by done. }
  rewrite Hex. clear Hex. split; intros [Hc (k & Hs & Hn)]; (split; [|by exists k]);
    apply key_name_inv in Hn as (Hsl & Hne & _);
    rewrite Hk in * by (unfold key_name; by rewrite corrupted_key_name); done.
Qed.
Lemma visible_gone (m : gmap string Obj) q : (∀ k, key_name k = Some q → m !! k = None) → q ∉ visible m.
Proof. intros Hk [_ (k & [x Hx] & Hn)]%elem_of_visible. by rewrite Hk in Hx. Qed.

Lemma and_iff_under (A B C : Prop) : (A → B ↔ C) → (A ∧ B) ↔ (A ∧ C).
Proof. tauto. Qed.

Section refinement.
Context {W : Type} `{!ObjectStore W, !Platform W, !StoreView W, !FileView W}.
Context `{!ObjectStoreLaws W, !PlatformLaws W}.

Lemma shelf_keeps_all (w w' : W) ds : keeps_all w w' → shelf_of w' ds = shelf_of w ds.
Proof. intros Hk. unfold shelf_of. by rewrite (keeps_all_contents _ _ _ Hk). Qed.

(** Changes within the directories of some snapshots, and outside [backups/]. *)
Definition within (at_ : string → string → Prop) : relation W := λ w w',
  ∀ b p k, plain p → in_dir p k → ¬ at_ b p → contents w' b !! k = contents w b !! k.
(** The names of the datastore of a session. *)
Definition own (ds : string) (S : Snapshot) (b p : string) : Prop := b = ds ∧ p = listed_name S.

Lemma visible_elsewhere at_ (w w' : W) b q :
  within at_ w w' → ¬ at_ b q → q ∈ visible (contents w' b) ↔ q ∈ visible (contents w b).
Proof. intros Hk Hne. apply visible_same. intros k [Hq Hin]%key_name_dir. by eapply Hk. Qed.
Lemma shelf_changes at_ (w w' : W) : within at_ w w' → shelf_step (Changed at_) (shelf_of w) (shelf_of w').
Proof. intros Hk. constructor. intros b q. by apply visible_elsewhere. Qed.
Lemma shelf_removes ds p at_ (w w' : W) :
  within (λ b q, (b = ds ∧ q = p) ∨ at_ b q) w w' → (∀ k, in_dir p k → contents w' ds !! k = None) →
  shelf_step (Deleted ds p at_) (shelf_of w) (shelf_of w').
Proof.
  intros Hk Hgone. constructor.
  - apply visible_gone. intros k [_ Hin]%key_name_dir. by apply Hgone.
  - intros b q Hne Hat. eapply visible_elsewhere; [exact Hk|]. intros [[-> ->]|?]; [|done]. by destruct Hne.
Qed.

Lemma within_trans at_ (w1 w2 w3 : W) : within at_ w1 w2 → within at_ w2 w3 → within at_ w1 w3.
Proof. intros H12 H23 b p k Hp Hb Hne. by rewrite (H23 b p), (H12 b p). Qed.
Lemma within_mono (at1 at2 : string → string → Prop) (w w' : W) :
  (∀ b p, at1 b p → at2 b p) → within at1 w w' → within at2 w w'.
Proof. intros Hat Hk b p k Hp Hin Hne. apply (Hk b p); auto. Qed.
Lemma keeps_all_within at_ (w w' : W) : keeps_all w w' → within at_ w w'.
Proof. intros Hk b p k _ _ _. by apply Hk. Qed.
Lemma shrinks_within S ds (w w' : W) :
  shrinks (λ b k, b = ds ∧ in_snapshot S k = true) w w' → within (own ds S) w w'.
Proof.
  intros Hs b p k Hp Hd Hne. destruct (Hs b k) as [?|[[-> Hin] _]]; [done|]. destruct Hne. split; [done|].
  by eapply in_listed_dir_unique.
Qed.
Lemma edits_within S ds (w w' : W) : edits ds S w w' → within (own ds S) w w'.
Proof.
  intros He b p k Hp Hd Hne. destruct (He b k) as [?|(-> & Hin & _)]; [done|]. destruct Hne. split; [done|].
  by eapply in_listed_dir_unique.
Qed.
Lemma edits_chunks S ds (w w' : W) : edits ds S w w' → keeps_present is_chunk w w'.
Proof. intros He b k Hk _. destruct (He b k) as [?|(_ & Hin & _)]; [done|]. by apply in_snapshot_not_chunk in Hin. Qed.

(** What a session touches: its own name, and those its client asks the API for with
    a ticket of the session. *)
Definition asked_at (rs : list Request) (b p : string) : Prop :=
  ∃ r ds action, ticketed rs r ∧ admin_path r = Some (ds, action) ∧ own ds (about r ds action) b p.
Definition session_at (ds : string) (S : Snapshot) (rs : list Request) (b p : string) : Prop :=
  own ds S b p ∨ asked_at rs b p.
Lemma session_within S ds rs (w w' : W) :
  keeps (λ b k, ¬ session_key ds S b k ∧ ¬ asked rs b k) w w' → within (session_at ds S rs) w w'.
Proof.
  intros Hk b p k Hp Hd Hne. apply Hk. split; intros Hs; apply Hne.
  - left. destruct Hs as [-> Hs]. split; [done|]. pose proof Hd as [f ->]%in_dir_spec.
    destruct Hs as [Hs|[Hs|Hs]]; [by eapply in_listed_dir_unique|done..].
  - right. destruct Hs as (r & ds' & action & Ht & Hpath & -> & Hs). exists r, ds', action. split_and!; [done..|].
    split; [done|]. by eapply in_listed_dir_unique.
Qed.

(** ** Listings *)

Lemma told_filter (f : string → Snapshot) ps :
  (∀ p, p ∈ ps → told p (f p)) →
  Forall2 told (List.filter (λ p, reported false (f p)) ps) (List.filter (reported false) (f <$> ps)).
Proof.
  induction ps as [|p ps IH]; intros Hps; [constructor|]. rewrite fmap_cons. cbn [List.filter].
  assert (Forall2 told (List.filter (λ p, reported false (f p)) ps) (List.filter (reported false) (f <$> ps))) as IH'
    by (apply IH; set_solver).
  destruct (reported false (f p)); [|exact IH']. constructor; [apply Hps; set_solver|exact IH'].
Qed.
Lemma NoDup_bool_filter {A} (f : A → bool) l : NoDup l → NoDup (List.filter f l).
Proof.
  induction 1 as [|p l Hp _ IH]; cbn; [constructor|]. destruct (f p); [|done]. constructor; [|done].
  intros [Hin _]%list_elem_of_In%filter_In. by apply Hp, list_elem_of_In.
Qed.

(** A complete listing of [backups/] and the objects there. *)
Lemma listed_keys ds m (w : W) lst w' k p f :
  ListObjects ds (mkListOptions "backups/" m) w = (lst, w') → Forall (λ o, oi_Err o = None) lst →
  split_key k = Some (p, f) → is_Some (contents w ds !! k) ↔ ∃ o, o ∈ lst ∧ Key o = k.
Proof.
  intros El Herr (-> & _)%split_key_inv. split.
  - intros [x Hx]. destruct (ListObjects_complete _ _ _ _ _ El Herr _ _ Hx) as (oi & Hin & Hkey & _); [by apply HasPrefix_app|eauto].
  - intros (o & Ho & <-). rewrite Forall_forall in Herr.
    destruct (ListObjects_sound _ _ _ _ _ El o Ho (Herr o Ho)) as (_ & x & Hx & _). eauto.
Qed.
Lemma listed_names ds m (w : W) lst w' p :
  ListObjects ds (mkListOptions "backups/" m) w = (lst, w') → Forall (λ o, oi_Err o = None) lst →
  p ∈ names lst ↔ ∃ k, is_Some (contents w ds !! k) ∧ key_name k = Some p.
Proof.
  intros El Herr. rewrite elem_of_names. unfold object_name, key_name. split.
  - intros (o & Ho & Hp). destruct (split_key (Key o)) as [[p' f]|] eqn:Hs; [|done]. exists (Key o). rewrite Hs.
    split; [|done]. apply (listed_keys _ _ _ _ _ _ _ _ El Herr Hs). eauto.
  - intros (k & Hx & Hp). destruct (split_key k) as [[p' f]|] eqn:Hs; [|done].
    apply (listed_keys _ _ _ _ _ _ _ _ El Herr Hs) in Hx as (o & Ho & <-). exists o. by rewrite Hs.
Qed.
Lemma marked_corrupted lst p :
  has_byte slash p = false → p ≠ "" →
  existsb marks_corrupted (members p lst) = true ↔ ∃ o, o ∈ lst ∧ Key o = corrupted_key p.
Proof.
  intros Hsl Hne. rewrite existsb_exists. split.
  - intros ([o f] & Hin & Hf). apply list_elem_of_In, list_elem_of_omap in Hin as (o' & Ho' & Hmem).
    unfold member_of in Hmem. destruct (split_key (Key o')) as [[p' f']|] eqn:Hs; [|done].
    case_bool_decide; [|done]. injection Hmem as -> ->. subst p'. apply bool_decide_eq_true in Hf. cbn in Hf. subst f.
    exists o. split; [done|]. by apply split_key_inv in Hs as (-> & _).
  - intros (o & Ho & Hk). exists (o, "corrupted"). split; [|done]. apply list_elem_of_In, list_elem_of_omap.
    exists o. split; [done|]. unfold member_of. rewrite Hk, corrupted_key_name by done. by rewrite bool_decide_eq_true_2.
Qed.
Lemma valid_name lst p : forallb valid_object lst = true → p ∈ names lst → is_Some (parse_name p).
Proof.
  intros Hval (o & Ho & Hp)%elem_of_names. rewrite forallb_forall in Hval.
  specialize (Hval o (proj1 (list_elem_of_In _ _) Ho)). unfold object_name in Hp.
  apply valid_object_cases in Hval as [_ [[_ Hs]|(p' & f & id & t & ty & Hs & Hn)]]; rewrite Hs in Hp; [done|].
  injection Hp as <-. rewrite Hn. eauto.
Qed.

(** A listing is the set, told snapshot by snapshot. *)
Lemma listing_shelf ds (w w' : W) l :
  ListSnapshots ds false w = (Ok l, w') → shelf_step (Listed ds l) (shelf_of w) (shelf_of w').
Proof.
  intros Hl. pose proof (ListSnapshots_effect ds false _ _ _ Hl) as Hk. unfold ListSnapshots in Hl.
  apply io_bind_Ok_inv in Hl as (lst & w1 & Hlst & Hl). unfold lift_st in Hlst.
  destruct (ListObjects ds _ w) as [lst' w1'] eqn:El. injection Hlst as -> ->.
  apply io_bind_Ok_inv in Hl as (objs & w2 & [Hobjs ->]%lift_res_inv & [Hl ->]%lift_res_inv).
  apply collect_listing_Ok in Hobjs as [-> Herr].
  pose proof (SnapshotsFromObjects_ok ds lst false) as Hval. rewrite Hl in Hval. cbn in Hval. symmetry in Hval.
  apply SnapshotsFromObjects_spec in Hl as ->.
  assert (∀ p, p ∈ names lst → told p (snapshot_of ds lst p) ∧
    corrupted (snapshot_of ds lst p) = existsb marks_corrupted (members p lst)) as Hd.
  { intros p Hp. destruct (valid_name _ _ Hval Hp) as [[[id t] ty] Hn]. rewrite snapshot_of_described.
    unfold told, described_snapshot. by rewrite Hn. }
  eapply (shelf_listed ds _ (List.filter (λ p, reported false (snapshot_of ds lst p)) (names lst))).
  - apply told_filter. intros p Hp. by apply Hd.
  - apply NoDup_bool_filter, names_NoDup.
  - apply set_eq. intros p. rewrite elem_of_list_to_set. unfold shelf_of.
    rewrite elem_of_visible, list_elem_of_In, filter_In, <-list_elem_of_In, <-(listed_names _ _ _ _ _ _ El Herr).
    rewrite (and_comm (_ = None)). apply and_iff_under. intros Hp.
    destruct (proj1 (listed_names _ _ _ _ _ _ El Herr) Hp) as (k & _ & (Hsl & Hne & _)%key_name_inv).
    unfold reported. cbn [orb]. rewrite (proj2 (Hd p Hp)), negb_true_iff, <-not_true_iff_false, marked_corrupted by done.
    rewrite <-(listed_keys _ _ _ _ _ _ _ _ El Herr (corrupted_key_name p Hsl Hne)).
    by rewrite <-eq_None_not_Some.
  - intros ds'. by apply shelf_keeps_all.
Qed.

(** ** The operations of the proxy *)

Context (X : externals W) (cfg : reports) (fuel : nat) (HX : externals_ok X).
#[local] Abbreviation serve_session := (ServeConn X cfg fuel).
#[local] Abbreviation backup := (backup_session X cfg fuel).
#[local] Abbreviation restore := (restore_session X cfg fuel).
#[local] Abbreviation serve := (ServeHTTP X cfg fuel).

(** A deletion that is asked for by the holder of a ticket. *)
Definition deletes (r : Request) (te : TicketEntry) (ds action : string) (h : hstate session_state W) : Prop :=
  H2Ticket (ss_server (h_sess h)) = None ∧ authenticate r (ad_api (ss_admin (h_sess h))) = Some te ∧
  admin_path r = Some (ds, action) ∧ HasPrefix action "snapshots" = true ∧ Method r = "DELETE".

(** Runs of the proxy and what they are to the user: a listing; a backup or restore
    session, whatever its requests; an aborted backup whose removal reports no error;
    an answered deletion; a request of the API about a snapshot; and any other
    request.  Where a snapshot is said to be gone, its name holds no slash. *)
Inductive proxy_run : request_kind → relation W :=
| run_listing ds l w w' : ListSnapshots ds false w = (Ok l, w') → proxy_run (Listed ds l) w w'
| run_backup C ds S rs g w r w' : backup C ds S rs g w = (r, w') → proxy_run (Changed (session_at ds S rs)) w w'
| run_aborted C ds S rs g w r w' st w1 :
    backup C ds S rs g w = (r, w') → plain_name S →
    serve_session rs (start C ds S g, w) = (st, w1) → Finished (ss_server st) = false →
    fst (Delete (set_Datastore ds S) w1) = Ok tt →
    proxy_run (Deleted ds (snapshot_name S) (asked_at rs)) w w'
| run_restore C ds S rs g w g' w' : restore C ds S rs g w = (g', w') → proxy_run (Changed (session_at ds S rs)) w w'
| run_delete hj r te ds action h h' :
    deletes r te ds action h → serve hj r h = (Ok tt, h') → h_rw h = empty_response → answered_ok (h_rw h') = true →
    plain_name (about r ds action) →
    proxy_run (Deleted ds (snapshot_name (about r ds action)) nowhere) (h_world h) (h_world h')
| run_request hj r te ds action h x h' :
    H2Ticket (ss_server (h_sess h)) = None → serve hj r h = (x, h') →
    authenticate r (ad_api (ss_admin (h_sess h))) = Some te → admin_path r = Some (ds, action) →
    proxy_run (Changed (own ds (about r ds action))) (h_world h) (h_world h')
| run_other hj r h x h' :
    H2Ticket (ss_server (h_sess h)) = None → serve hj r h = (x, h') →
    authenticate r (ad_api (ss_admin (h_sess h))) = None ∨ admin_path r = None →
    proxy_run (Changed nowhere) (h_world h) (h_world h').

(** What a run of each kind does to the objects. *)
Definition footprint (k : request_kind) (w w' : W) : Prop :=
  match k with
  | Changed at_ => within at_ w w'
  | Deleted ds p at_ =>
      within (λ b q, (b = ds ∧ q = p) ∨ at_ b q) w w' ∧ ∀ key, in_dir p key → contents w' ds !! key = None
  | Listed _ _ => keeps_all w w'
  | Collected _ _ => False
  end.

Lemma shrinks_chunks S ds (w w' : W) :
  shrinks (λ b k, b = ds ∧ in_snapshot S k = true) w w' → keeps_present is_chunk w w'.
Proof. intros Hs. by apply (chunks_outlive ds S w w w'). Qed.
Lemma in_dir_gone S (w : W) ds :
  (∀ k, in_snapshot S k = true → contents w ds !! k = None) →
  ∀ k, in_dir (snapshot_name S) k → contents w ds !! k = None.
Proof. intros Hgone k Hk. by apply Hgone, in_snapshot_dir. Qed.

Lemma backup_run C ds S rs g w r w' :
  backup C ds S rs g w = (r, w') → within (session_at ds S rs) w w' ∧ keeps_present is_chunk w w'.
Proof.
  intros Hr. apply (backup_session_run X cfg fuel HX) in Hr. destruct (ServeConn _ _ _ _ _) as [st w3].
  destruct Hr as ([_ _ (Hk & _ & Hc) _] & _ & Hs & _). split.
  - eapply within_trans; [by apply session_within|]. eapply within_mono; [|by apply shrinks_within]. by left.
  - by eapply chunks_outlive.
Qed.

(** An authenticated deletion, in its handler. *)
Lemma deletes_run r te ds action hj h h' :
  deletes r te ds action h → serve hj r h = (Ok tt, h') →
  ∃ h1 h2, keeps_all (h_world h) (h_world h1) ∧ h_rw h1 = h_rw h ∧
    snapshot_delete ds r h1 = (Ok tt, h2) ∧ h_world h2 = h_world h' ∧ h_rw h2 = h_rw h'.
Proof.
  intros (_ & Ha & Hp & Hact & Hm) Hr.
  assert (on_routes [(Prefix "/api2/json/admin/datastore/", None)] r = true) as Hroute.
  { unfold on_routes, route_matches. cbn. by rewrite (admin_path_prefix _ _ Hp). }
  rewrite (ServeHTTP_one X cfg fuel hj r h [(Prefix "/api2/json/admin/datastore/", None)] (api_datastore X cfg (Some te)))
    in Hr; [|rewrite Ha; by apply (list_elem_of_lookup_2 _ 1)|exact Hroute].
  unfold api_datastore in Hr. erewrite io_bind_Ok in Hr by reflexivity. unfold on_admin, datastore_request in Hr.
  rewrite Hp, datastore_action_delete in Hr by done. destruct (_ ≫= _) as [x h2] eqn:E in Hr. injection Hr as -> <-.
  apply io_bind_Ok_inv in E as ([] & h1 & Hs & Hd). apply sync_run in Hs as [Hk Hrw]. by exists h1, h2.
Qed.

Lemma proxy_run_footprint k w w' : proxy_run k w w' → footprint k w w' ∧ keeps_present is_chunk w w'.
Proof.
  intros [ds l w1 w2 Hl|C ds S rs g w1 r w2 Hr|C ds S rs g w1 r w2 st w3 Hr Hn Hc Hf Hd|C ds S rs g w1 g' w2 Hr|
          hj r te ds action h h' Hdel Hr Hrw Ha Hn|hj r te ds action h x h' Ht Hr Ha Hp|hj r h x h' Ht Hr Ha].
  - apply ListSnapshots_effect in Hl. split; [done|by apply keeps_all_keeps_present].
  - by eapply backup_run.
  - destruct (backup_run _ _ _ _ _ _ _ _ Hr) as [Hw Hch]. split; [|done].
    apply (backup_session_run X cfg fuel HX) in Hr. rewrite Hc in Hr. destruct Hr as (_ & _ & _ & Hgone). split.
    + eapply within_mono; [|exact Hw]. intros b p [[-> ->]|?]; [left|by right]. by rewrite listed_name_plain.
    + by apply in_dir_gone, Hgone.
  - apply (restore_session_footprint X cfg fuel HX) in Hr as (Hk & _ & Hch). split; [|done]. by apply session_within.
  - destruct (deletes_run _ _ _ _ _ _ _ Hdel Hr) as (h1 & h2 & Hk & Hrw1 & Hd & Hw2 & Hrw2).
    destruct Hdel as (_ & _ & _ & Hact & _).
    apply snapshot_delete_ok in Hd as (Hs & Hgone & _); [|congruence]. rewrite Hw2, Hrw2 in *.
    assert (about r ds action = requested (FormValue r) ds) as -> by (unfold about; by rewrite (by_form_yes _ _ Hact) by auto).
    split; [split|].
    + eapply within_trans; [by apply keeps_all_within, Hk|]. eapply within_mono; [|by apply shrinks_within].
      intros b p [-> ->]. left. split; [done|]. apply listed_name_plain. 
      unfold about in Hn. by rewrite (by_form_yes _ _ Hact) in Hn by auto.
    + by apply in_dir_gone, Hgone.
    + etrans; [by apply keeps_all_keeps_present|by eapply shrinks_chunks].
  - destruct (api_footprint_ok X cfg fuel HX _ _ _ _ _ Ht Hr) as [_ H]. rewrite Ha, Hp in H. destruct H as [He _].
    split; [by apply edits_within|by eapply edits_chunks].
  - destruct (api_footprint_ok X cfg fuel HX _ _ _ _ _ Ht Hr) as [_ H].
    assert (keeps_all (h_world h) (h_world h')) as Hk.
    { destruct Ha as [Ha|Ha]; rewrite Ha in H; [by destruct H|]. by destruct (authenticate _ _), H. }
    split; [by apply keeps_all_within|by apply keeps_all_keeps_present].
Qed.
Lemma proxy_run_shelf k w w' : proxy_run k w w' → shelf_step k (shelf_of w) (shelf_of w').
Proof.
  intros Hrun. pose proof (proxy_run_footprint _ _ _ Hrun) as [Hf _]. destruct k; cbn in Hf.
  - inversion Hrun; subst. by eapply listing_shelf.
  - destruct Hf as [? ?]. by apply shelf_removes.
  - by apply shelf_changes.
  - done.
Qed.

(** *** The collector *)

Context `{!MapRange}.

(** A run of the collector on its datastore spares a snapshot that is not due and
    has all its chunks. *)
Definition spared (fl : gcFlags) (w : W) (p : string) : Prop :=
  ¬ due fl w p ∧ complete w (bucketFlag fl) p.
Inductive system_run : request_kind → relation W :=
| run_proxy k w w' : proxy_run k w w' → system_run k w w'
| run_collector fl w r w' :
    gc_main fl w = (r, w') → system_run (Collected (bucketFlag fl) (spared fl w)) w w'.

Lemma collected_shelf fl w r w' :
  gc_main fl w = (r, w') → shelf_step (Collected (bucketFlag fl) (spared fl w)) (shelf_of w) (shelf_of w').
Proof.
  intros Hrun. constructor.
  - intros p [Hdue Hcomp]. apply visible_same. intros k [Hpl Hin]%key_name_dir. by eapply gc_keeps_objects.
  - intros ds Hds. unfold shelf_of. by rewrite (gc_other_buckets fl w r w').
Qed.

(** C6. The proxy and the collector keep what a datastore promises: seen as a set of
    named snapshots, a listing shows the set, one snapshot each and under its own
    name; a deletion that is answered with success takes its snapshot, whose name
    holds no slash, from it and changes nothing else; a backup or restore session
    changes it at its own name at most, and at the names of the snapshots that its
    client, with a ticket it got within the session, asks the API about; an aborted
    backup whose removal reports no error has taken its own name, one without a
    slash, from it; any other request to the process changes it at the name it is
    about, or, without a ticket, nowhere; and a collection at the names that are due
    or of which a chunk is missing. No other name of any datastore changes. The name
    of a snapshot whose id or type holds a slash ends, here as in a listing, at the
    first slash. *)
Theorem datastore_refinement k w w' :
  system_run k w w' → shelf_step k (shelf_of w) (shelf_of w').
Proof. intros [k' w1 w2 Hrun|fl w1 r w2 Hrun]; [by apply proxy_run_shelf|by eapply collected_shelf]. Qed.

(** *** What outlives a run *)

(** A run that does not concern a snapshot: it is not its own, and a collection
    spares it. *)
Definition leaves (ds p : string) (k : request_kind) : Prop :=
  match k with
  | Listed _ _ => True
  | Deleted ds' p' at_ => (ds' ≠ ds ∨ p' ≠ p) ∧ ¬ at_ ds p
  | Changed at_ => ¬ at_ ds p
  | Collected ds' spared => ds' ≠ ds ∨ spared p
  end.
Lemma system_run_leaves ds p k w w' :
  plain p → complete w ds p → system_run k w w' → leaves ds p k → same_snapshot ds p w w'.
Proof.
  intros Hp Hcomp Hrun. revert Hcomp. destruct Hrun as [k' w1 w2 Hrun|fl w1 r w2 Hrun]; intros Hcomp Hl; cbn in Hl.
  - apply proxy_run_footprint in Hrun as [Hf Hc]. split.
    + intros key Hin. destruct k'; cbn in Hf, Hl; [by apply Hf| | |done].
      * destruct Hf as [Hf _], Hl as [Hne Hat]. apply (Hf ds p); [done..|]. intros [[-> ->]|?]; [|done]. by destruct Hne.
      * by apply (Hf ds p).
    + intros d ck y _ Hck Hy. rewrite (Hc ds ck); [exact Hy| |rewrite Hy; eauto].
      exact (proj1 (chunk_key _ _ Hck)).
  - destruct (decide (bucketFlag fl = ds)) as [<-|Hne].
    + destruct Hl as [|[Hdue _]]; [done|]. by eapply gc_keeps_snapshot.
    + pose proof (gc_other_buckets fl w1 r w2 ds Hrun ltac:(congruence)) as Heq.
      split; intros; by rewrite Heq.
Qed.

(** Any sequence of runs none of which concerns the snapshot. *)
Definition history (ds p : string) : relation W := rtc (λ w w', ∃ k, leaves ds p k ∧ system_run k w w').
Lemma history_leaves ds p w w' :
  plain p → complete w ds p → history ds p w w' → same_snapshot ds p w w' ∧ complete w' ds p.
Proof.
  intros Hplain Hcomp Hrun. induction Hrun as [|w1 w2 w3 (k & Hk & Hstep) _ IH]; [done|].
  pose proof (system_run_leaves _ _ _ _ _ Hplain Hcomp Hstep Hk) as Hsame.
  destruct IH as [H23 H3]; [by eapply complete_same|]. split; [|done]. by transitivity w2.
Qed.

(** C1. Durability: a snapshot that is complete - every chunk of its indexes is in
    the store - stays so, byte for byte, its objects and its chunks, through any
    sequence of listings, backups, aborted backups, restores, deletions, other
    requests and collections, whatever fails in them, except those that are meant
    for it: the requests and sessions about it - also those a client makes within a
    session of another snapshot, with a ticket it got there - and the collections
    that find it due.  The steps of the sequence follow one another.  Names that hold
    a slash count as the name before it. *)
Theorem snapshot_durable ds p w w'
    (Hplain : plain p) (Hcomp : complete w ds p)
    (Hrun : history ds p w w') :
  (∀ k, in_dir p k → contents w' ds !! k = contents w ds !! k) ∧
  (∀ d ck y, refers w ds p d → chunkDigestFromKey ck = Ok d → contents w ds !! ck = Some y →
     contents w' ds !! ck = Some y) ∧
  complete w' ds p.
Proof. by destruct (history_leaves _ _ _ _ Hplain Hcomp Hrun) as [[? ?] ?]. Qed.

(** A deleted snapshot stays out of every listing until its own name is used again. *)
Definition spares (ds p : string) (k : request_kind) : Prop :=
  match k with
  | Changed at_ => ¬ at_ ds p
  | Deleted ds' p' at_ => (ds' = ds ∧ p' = p) ∨ ¬ at_ ds p
  | Collected _ _ => False
  | Listed _ _ => True
  end.
Lemma shelf_step_spares ds p k s s' : shelf_step k s s' → spares ds p k → p ∉ s ds → p ∉ s' ds.
Proof.
  intros [ds0 l ps s0 s1 _ _ _ Heq|ds0 p0 at_ s0 s1 Hn Ho|at_ s0 s1 Ho|ds0 sp s0 s1 _ _] Hsp Hp; [by rewrite Heq| | |done].
  - destruct (decide (ds0 = ds ∧ p0 = p)) as [[-> ->]|Hne]; [done|]. destruct Hsp as [|Hat]; [done|].
    rewrite Ho; [done| |done]. destruct (decide (ds = ds0)) as [->|]; [right|by left]. intros ->. by apply Hne.
  - by rewrite Ho.
Qed.
Lemma deleted_stays_unlisted ds p at_ l w w1 w2 w3 :
  proxy_run (Deleted ds p at_) w w1 → rtc (λ w w', ∃ k, spares ds p k ∧ proxy_run k w w') w1 w2 →
  ListSnapshots ds false w2 = (Ok l, w3) → Forall (λ s, ¬ told p s) l ∨
    ∃ q, q ≠ p ∧ parse_name q = parse_name p.
Proof.
  intros Hdel Hrun Hl. apply proxy_run_shelf in Hdel. assert (p ∉ shelf_of w1 ds) as Hp.
  { by inversion Hdel. }
  assert (p ∉ shelf_of w2 ds) as Hp2.
  { clear Hdel Hl. induction Hrun as [|w1 w' w2 (k & Hsp & Hk) _ IH]; [done|]. apply IH.
    apply proxy_run_shelf in Hk. by eapply shelf_step_spares. }
  apply listing_shelf in Hl. inversion Hl as [? ? ps ? ? Ht _ Hps _| | |]; subst.
  destruct (decide (Exists (λ q, q ≠ p ∧ parse_name q = parse_name p) ps)) as [He|Hne].
  - right. apply Exists_exists in He as (q & _ & Hq). eauto.
  - left. apply Forall_forall. intros s Hs Htold. apply Hne. apply Exists_exists.
    apply list_elem_of_lookup in Hs as [i Hi]. destruct (Forall2_lookup_r _ _ _ _ _ Ht Hi) as (q & Hq & Hqs).
    exists q. apply list_elem_of_lookup_2 in Hq. split; [done|]. split.
    + intros ->. apply Hp2. rewrite <-Hps. by apply elem_of_list_to_set.
    + unfold told in *. congruence.
Qed.
End refinement.

(** ** Two runs *)

#[local] Existing Instance default_range.

Example shelf_before : elements (visible admin_objects) = ["100|1000|host"].
Proof. vm_compute. reflexivity. Qed.
Lemma datastore_refinement_witness :
  shelf_step (Deleted "pbs" (snapshot_name (about delete_request "pbs" "snapshots")) nowhere)
    (shelf_of (h_world process_state)) (shelf_of (h_world (snd served_delete))).
Proof.
  apply (datastore_refinement plain_externals all_reports 5 (example_externals_ok _ _)).
  apply run_proxy. eapply (run_delete plain_externals all_reports 5 (Some (Ok None)) delete_request te1).
  - split_and!; vm_compute; reflexivity.
  - exact served_delete_ok.
  - reflexivity.
  - vm_compute. reflexivity.
  - vm_compute. reflexivity.
Defined.

(** The collector removes the older of two snapshots that share a chunk: the other
    is left as it is. *)
Lemma snapshot_durable_witness :
  (∀ k, in_dir kept_name k → contents (snd example_run) "pbs" !! k = contents example_world "pbs" !! k) ∧
  (∀ d ck y, refers example_world "pbs" kept_name d → chunkDigestFromKey ck = Ok d →
     contents example_world "pbs" !! ck = Some y → contents (snd example_run) "pbs" !! ck = Some y) ∧
  complete (snd example_run) "pbs" kept_name.
Proof.
  apply (snapshot_durable plain_externals all_reports 5 (example_externals_ok _ _) "pbs" kept_name example_world (snd example_run)).
  - by vm_compute.
  - apply kept_complete.
  - apply rtc_once. exists (Collected "pbs" (spared example_flags example_world)). split.
    + right. split; [apply kept_not_due|apply kept_complete].
    + exact (run_collector _ _ _ example_flags example_world (fst example_run) (snd example_run) example_run_eq).
Defined.
