(* ===== verification/Restored.v ===== *)
(** * What was backed up is restored

    The sessions and the datastore together: a backup session, any history of the
    datastore that is not meant for its snapshot - other sessions, deletions,
    collections - and a restore session.  What the client of the restore receives
    is what the client of the backup sent. *)

From S2P Require Import Prelude GoStrings GoBytes S3 Platform MemWorld Snapshot IndexFormat GCPlan Json UsageStats Sizes Http HandlerLogic ChunkUpload ChunkFlight Session IndexWriter DynamicIndex Transfer Cache Invalidation CacheInvalidation Manifest Listing Auth Admin Serve BackupSession Conversation GC GCSnapshots DataStore.

Local Open Scope Z_scope.

Section restored.
Context {W : Type} `{!ObjectStore W, !Platform W, !StoreView W, !FileView W}.
Context `{!ObjectStoreLaws W, !PlatformLaws W, !MapRange}.
Context (X : externals W) (cfg : reports) (fuel : nat) (HX : externals_ok X).
#[local] Abbreviation serve_all := (ServeConn X cfg fuel).
#[local] Abbreviation answered := (answered X cfg fuel).
#[local] Abbreviation backup := (backup_session X cfg fuel).
#[local] Abbreviation history := (history X cfg fuel).

(** A chunk that is there at some moment of a backup session is there, unchanged,
    when the session has ended - finished or aborted. *)
Lemma chunk_outlives_session C ds S pre post g w r w1 :
  backup C ds S (pre ++ post) g w = (r, w1) → keeps_present is_chunk (serve_all pre (start C ds S g, w)).2 w1.
Proof.
  intros Hrun. apply (backup_session_run X cfg fuel HX) in Hrun. rewrite ServeConn_app in Hrun.
  pose proof (session_ok_now _ _ _ _ _ _ (ServeConn_chunks X cfg fuel HX ds S w pre (start C ds S g, w)
                (new_session_ok _ C ds S w))) as HJ.
  apply (ServeConn_chunks X cfg fuel HX ds S _ post) in HJ.
  destruct (serve_all post _) as [st w2]. cbn [fst snd] in HJ. destruct HJ as [_ _ (_ & _ & Hc) _].
  destruct Hrun as (_ & _ & Hs & _). by eapply chunks_outlive.
Qed.
Lemma upload_outlives_session C ds S pre up post g w r w1 rw :
  backup C ds S (pre ++ up :: post) g w = (r, w1) → uploads up →
  answered (serve_all pre (start C ds S g, w)) up = Some rw → uploaded_new rw →
  ∃ key x, chunkObjectName (Query up "digest") = Ok key ∧ contents w1 ds !! key = Some x ∧ o_data x = s_bytes (Body up).
Proof.
  intros Hrun Hup Ha Hnew.
  pose proof (ServeConn_chunks X cfg fuel HX ds S w pre (start C ds S g, w) (new_session_ok _ C ds S w)) as HJ.
  destruct (upload_answered X cfg fuel _ _ _ _ Hup (so_ds _ _ _ _ _ _ HJ) Ha Hnew) as (key & x & Hkey & Hx & Hdata).
  exists key, x. split; [done|]. split; [|done]. rewrite cons_middle, app_assoc in Hrun.
  apply chunk_outlives_session in Hrun. rewrite ServeConn_snoc in Hrun. rewrite (Hrun ds key); [done| |by rewrite Hx].
  by apply chunkObjectName_prefix in Hkey.
Qed.

(** The state of a restore session after requests that only read. *)
Lemma restoring C ds S g (w : W) reads0 :
  Forall reads reads0 →
  let st := serve_all reads0 (start C ds S g, w) in
  SelectedDataStore (ss_server st.1) = Some ds ∧ sv_Snapshot (ss_server st.1) = Some S ∧ keeps_all w st.2.
Proof.
  intros Hr st. assert (session_of (new_session C ds S) w (ss_server st.1) st.2) as (_ & -> & -> & ?); [|done].
  by apply serve_all_reads.
Qed.

(** C2. What was backed up is restored, byte for byte.  After a backup session whose
    snapshot has all its chunks at the end, and after any history that is not meant
    for that snapshot - sessions of other snapshots whose clients ask the API nothing
    about it, requests and deletions of the API about others, collections that do not
    find it due, whatever fails in them - a restore session that has only read so far
    answers a request for a file with the file as the backup left it, and a request
    for a chunk of the snapshot with the body that was uploaded, if the backup was
    told that the chunk was new; provided that the answer is whole by its own
    announcement.  The name of the snapshot holds no slash. *)
Theorem backup_restored C ds S rs g w r w1 w2 C' S' g' earlier down rw
    (Hname : plain_name S) (Hback : backup C ds S rs g w = (r, w1)) (Hcomp : complete w1 ds (snapshot_name S))
    (Hhist : history ds (snapshot_name S) w1 w2)
    (Hsame : S3Prefix S' = S3Prefix S) (Hreads : Forall reads earlier)
    (Hans : answered (serve_all earlier (start C' ds S' g', w2)) down = Some rw)
    (Hok : answered_ok rw = true) (Hwhole : whole rw = true) :
  (route_matches down (Prefix "/download?", None) = true →
     ∃ x, contents w1 ds !! (S3Prefix S +:+ "/" +:+ Query down "file-name") = Some x ∧ received rw = o_data x) ∧
  (route_matches down (Prefix "/chunk?", None) = true → refers w1 ds (snapshot_name S) (Query down "digest") →
     ∀ pre up post rw', rs = pre ++ up :: post → uploads up → Query up "digest" = Query down "digest" →
       answered (serve_all pre (start C ds S g, w)) up = Some rw' → uploaded_new rw' →
       received rw = s_bytes (Body up)).
Proof.
  apply (history_leaves X cfg fuel HX) in Hhist as [[Hfiles Hchunks] _]; [|by apply plain_name_plain|done].
  destruct (restoring C' ds S' g' w2 earlier Hreads) as (Hds & Hsnap & Hkeep). split.
  - intros Hr. destruct (file_answered X cfg fuel _ _ _ _ _ Hr Hds Hsnap Hans Hok Hwhole) as (x & Hx & Hrec).
    exists x. split; [|done]. rewrite (keeps_all_lookup _ _ _ _ Hkeep), Hsame in Hx. rewrite <-Hfiles; [done|].
    apply in_snapshot_dir. unfold in_snapshot. rewrite <-string_app_assoc. apply HasPrefix_app.
  - intros Hr Href pre up post rw' -> Hup Hdig Ha Hnew.
    destruct (chunk_answered X cfg fuel _ _ _ _ Hr Hds Hans Hok Hwhole) as (key & x & Hkey & Hx & ->).
    destruct (upload_outlives_session _ _ _ _ _ _ _ _ _ _ _ Hback Hup Ha Hnew) as (key' & y & Hkey' & Hy & <-).
    rewrite Hdig, Hkey in Hkey'. injection Hkey' as <-.
    rewrite (keeps_all_lookup _ _ _ _ Hkeep) in Hx. apply chunkObjectName_inverse in Hkey.
    rewrite (Hchunks _ _ _ Href Hkey Hy) in Hx. by injection Hx as ->.
Qed.
End restored.

(** ** A backup, a collection and a restore *)

#[local] Existing Instance default_range.

Definition story_requests : list Request :=
  session_requests ++ [session_close; request "POST" "/finish" [] ""].
#[local] Abbreviation story_serve := (ServeConn session_externals all_reports 5).
#[local] Abbreviation story_answered := (answered session_externals all_reports 5).
Definition story_start : session_state * mem := (start session_ticket "pbs" session_snapshot session_process, session_world).
Definition story_backup : res admin * mem :=
  backup_session session_externals all_reports 5 session_ticket "pbs" session_snapshot
    story_requests session_process session_world.
Definition story_collection : res unit * mem := gc_main example_flags (snd story_backup).
Definition story_restore : session_state * mem :=
  story_serve [request "GET" "/speedtest" [] ""]
    (start session_ticket "pbs" session_snapshot session_process, snd story_collection).
Definition story_file : Request :=
  request "GET" "/download?file-name=root.pxar.didx" [("file-name", "root.pxar.didx")] "".
Definition story_chunk : Request := request "GET" "/chunk?digest=" [("digest", hex_EncodeToString (digest_of 2))] "".
Definition story_before : list Request := take 2 session_requests.

Lemma story_backup_run :
  backup_session session_externals all_reports 5 session_ticket "pbs" session_snapshot
    story_requests session_process session_world = (fst story_backup, snd story_backup).
Proof. unfold story_backup. apply surjective_pairing. Qed.
Lemma story_collection_run :
  gc_main example_flags (snd story_backup) = (fst story_collection, snd story_collection).
Proof. unfold story_collection. apply surjective_pairing. Qed.

(** What the backup has left. *)
Definition story_index : string := "backups/100|1000|host/root.pxar.didx".
Definition story_parsed : parsedIndex :=
  mkParsedIndex dynamic_csum [hex_EncodeToString (digest_of 1); hex_EncodeToString (digest_of 2)] 30.
Lemma story_keys :
  merge_sort String.le (map_to_list (contents (snd story_backup) "pbs")).*1 =
  [story_index; story_index +:+ ".csjson"; chunk_key_of 1; chunk_key_of 2].
Proof. vm_compute. reflexivity. Qed.
Lemma story_index_parsed :
  (λ x, parseIndex story_index (o_data x) dynamic_csum) <$> contents (snd story_backup) "pbs" !! story_index =
  Some (Ok story_parsed).
Proof. vm_compute. reflexivity. Qed.
Lemma story_chunks n : (n =? 1) || (n =? 2) = true →
  is_Some (contents (snd story_backup) "pbs" !! chunk_key_of n).
Proof. intros [->%Z.eqb_eq| ->%Z.eqb_eq]%orb_true_iff; vm_compute; eauto. Qed.

Lemma not_an_index data meta idx : parseIndex (story_index +:+ ".csjson") data meta = Ok idx → False.
Proof. unfold parseIndex. destruct (_ <? _)%nat; [done|]. by destruct (compareSum _ _ _). Qed.
Lemma among_keys (objs : gmap string Obj) keys k x :
  merge_sort String.le (map_to_list objs).*1 = keys → objs !! k = Some x → k ∈ keys.
Proof.
  intros <- Hx. rewrite (merge_sort_Permutation String.le). apply list_elem_of_fmap. exists (k, x).
  split; [done|]. by apply elem_of_map_to_list.
Qed.

(** The index is the one file of the snapshot that refers to chunks. *)
Lemma story_refers d :
  refers (snd story_backup) "pbs" (snapshot_name session_snapshot) d ↔ d ∈ digests story_parsed.
Proof.
  pose proof story_keys as Hkeys. pose proof story_index_parsed as Hp. unfold refers. revert Hkeys Hp.
  generalize (contents (snd story_backup) "pbs"). intros objs Hkeys Hp.
  destruct (objs !! story_index) as [x0|] eqn:Hx0; [|done].
  cbn [fmap option_fmap option_map] in Hp. injection Hp as Hp. split.
  - intros (k & x & meta & idx & Hin & Hx & Hidx & Hd).
    pose proof (among_keys _ _ _ _ Hkeys Hx) as Hk.
    rewrite !elem_of_cons in Hk. destruct Hk as [->|[->|[->|[->|Hk]]]]; [..|by apply elem_of_nil in Hk].
    + rewrite Hx0 in Hx. injection Hx as <-. rewrite (parseIndex_det _ _ _ _ _ _ Hidx Hp) in Hd. exact Hd.
    + exfalso. clear -Hidx. revert Hidx. apply not_an_index.
    + by vm_compute in Hin.
    + by vm_compute in Hin.
  - intros Hd. exists story_index, x0, dynamic_csum, story_parsed. by split_and!.
Qed.
Lemma story_refers_second :
  refers (snd story_backup) "pbs" (snapshot_name session_snapshot) (Query story_chunk "digest").
Proof. apply story_refers, (list_elem_of_lookup_2 _ 1). reflexivity. Qed.
Lemma story_complete : complete (snd story_backup) "pbs" (snapshot_name session_snapshot).
Proof.
  intros d Hd%story_refers. cbn [digests story_parsed] in Hd.
  assert (∃ n, (n =? 1) || (n =? 2) = true ∧ d = hex_EncodeToString (digest_of n)) as (n & Hn & ->)
    by (rewrite !elem_of_cons, elem_of_nil in Hd; destruct Hd as [->|[->|[]]]; [by exists 1|by exists 2]).
  destruct (story_chunks n Hn) as [y Hy]. exists (chunk_key_of n), y. split; [by apply example_chunk_key|done].
Qed.

(** The collection that follows does not find the snapshot due. *)
Lemma story_not_due : ¬ due example_flags (snd story_backup) (snapshot_name session_snapshot).
Proof.
  intros (s & now & (l & w' & Hl & <-) & Hwf & Hp & He & _).
  apply parse_name_snapshot_name in Hwf. unfold S3Prefix in Hp. apply string_app_inj_l in Hp. rewrite Hp in Hwf.
  assert (parse_name (snapshot_name session_snapshot) = Some ("100", 1000, "host")) as Hn by (vm_compute; reflexivity).
  assert (BackupTime s = 1000) as Ht by congruence.
  assert (ls_now l = 1000000000000) as Hnow.
  { apply (f_equal (λ r, if r.1 is Ok (Some l) then ls_now l else 0)) in Hl. vm_compute in Hl. symmetry. exact Hl. }
  unfold snapshotExpired in He. rewrite Ht, Hnow in He. vm_compute in He. discriminate.
Qed.

(** The client of the restore receives the index, and the chunk it refers to. *)
Definition story_received (r : Request) : response := default empty_response (story_answered story_restore r).
Definition story_answer : response :=
  mkResponse (Some StatusOK) []
    [Json (chunk_info (mkChunkRequest (hex_EncodeToString (digest_of 2)) 3 20 1 (chunk_key_of 2)) false)].
Lemma story_told :
  story_answered (story_serve story_before story_start) (upload 2 "20") = Some story_answer.
Proof. vm_compute. reflexivity. Qed.
Lemma story_told_new : uploaded_new story_answer.
Proof. split; [done|]. by eexists. Qed.
Lemma backup_restored_witness :
  (∃ x, contents (snd story_backup) "pbs" !! (S3Prefix session_snapshot +:+ "/" +:+ "root.pxar.didx") = Some x ∧
     received (story_received story_file) = o_data x) ∧
  received (story_received story_chunk) = string_bytes "abc".
Proof.
  assert (history session_externals all_reports 5 "pbs" (snapshot_name session_snapshot)
    (snd story_backup) (snd story_collection)) as Hhist.
  { apply rtc_once. exists (Collected "pbs" (spared example_flags (snd story_backup))). split.
    - right. split; [apply story_not_due|apply story_complete].
    - exact (run_collector _ _ _ example_flags (snd story_backup) (fst story_collection)
               (snd story_collection) story_collection_run). }
  split.
  - eapply (backup_restored session_externals all_reports 5 (example_externals_ok _ _) session_ticket "pbs" session_snapshot
      story_requests session_process session_world (fst story_backup) (snd story_backup) (snd story_collection)
      session_ticket session_snapshot session_process [request "GET" "/speedtest" [] ""] story_file
      (story_received story_file)).
    + reflexivity.
    + exact story_backup_run.
    + apply story_complete.
    + exact Hhist.
    + reflexivity.
    + by repeat constructor.
    + vm_compute. reflexivity.
    + vm_compute. reflexivity.
    + vm_compute. reflexivity.
    + reflexivity.
  - eapply (backup_restored session_externals all_reports 5 (example_externals_ok _ _) session_ticket "pbs" session_snapshot
      story_requests session_process session_world (fst story_backup) (snd story_backup) (snd story_collection)
      session_ticket session_snapshot session_process [request "GET" "/speedtest" [] ""] story_chunk
      (story_received story_chunk)) with (pre := story_before) (up := upload 2 "20") (rw' := story_answer).
    + reflexivity.
    + exact story_backup_run.
    + apply story_complete.
    + exact Hhist.
    + reflexivity.
    + by repeat constructor.
    + vm_compute. reflexivity.
    + vm_compute. reflexivity.
    + vm_compute. reflexivity.
    + reflexivity.
    + exact story_refers_second.
    + reflexivity.
    + reflexivity.
    + reflexivity.
    + exact story_told.
    + exact story_told_new.
Defined.
