(* ===== verification/ArchiveBackup.v ===== *)
(** * A backup of archives leaves a complete snapshot

    A container is backed up as archives with dynamic indexes.  The proxy closes
    such an index only with chunks whose sizes it knows: because they were uploaded
    in the session, or because the table beside the previous index lists them.  This
    file shows that any such session - with whatever requests, in whatever order, and
    whatever fails - stores no index that refers to a chunk the store does not have.
    What it asks of the client is that digests and checksums are digests, and that no
    blob is named like an index; what it asks the API for with a ticket is not
    bounded. *)

From S2P Require Import Prelude GoStrings GoBytes Sha256 S3 Platform MemWorld Snapshot IndexFormat GCPlan Json UsageStats Sizes Http HandlerLogic ChunkUpload ChunkFlight Session IndexWriter DynamicIndex Transfer Cache Invalidation CacheInvalidation Manifest Listing Auth Admin Serve BackupSession Conversation GC GCSnapshots DataStore Restored.

Local Open Scope Z_scope.

(** A suffix without the separator lies in the last part. *)
Lemma HasSuffix_part c p k suf : has_byte c suf = false → HasSuffix (p +:+ String c k) suf = true → HasSuffix k suf = true.
Proof.
  intros Hc [q Hq]%HasSuffix_spec. apply string_app_eq_split in Hq as [(t & -> & Ht)|(t & _ & ->)].
  - destruct t as [|a t]; cbn in Ht.
    + subst suf. cbn in Hc. by rewrite Ascii.eqb_refl in Hc.
    + injection Ht as -> ->. by apply HasSuffix_app.
  - rewrite has_byte_app in Hc. cbn in Hc. by rewrite Ascii.eqb_refl, orb_true_r in Hc.
Qed.
Lemma IsIndex_last p k : IsIndex (p +:+ "/" +:+ k) = true → IsIndex k = true.
Proof.
  unfold IsIndex. rewrite !orb_true_iff. change ("/" +:+ k) with (String slash k).
  intros [H|H]; apply HasSuffix_part in H; auto.
Qed.

Section archives.
Context {W : Type} `{!ObjectStore W, !Platform W, !StoreView W, !FileView W}.
Context `{!ObjectStoreLaws W, !PlatformLaws W}.
Context (X : externals W) (fuel : nat).
Context (ds : string) (sn : Snapshot) (w0 : W).
#[local] Abbreviation name := (snapshot_name sn).
(** What the client of the session may ask of the API is not bounded. *)
#[local] Abbreviation anywhere := (λ _ _, True : Prop).

(** ** What is asked of the requests *)

Definition is_digest (d : string) : Prop := length (fst (hex_DecodeString d)) = 32%nat.
Record archive_request (r : Request) : Prop := {
  ar_not_fixed : on_routes [(Prefix "/fixed_close?", Some "POST")] r = false;
  ar_blob : on_routes [(Prefix "/blob?", None)] r = true → IsIndex (Query r "file-name") = false;
  ar_close : on_routes [(Prefix "/dynamic_close?", Some "POST")] r = true → is_digest (Query r "csum");
  ar_assign body req : on_routes [(Prefix "/dynamic_index", Some "PUT"); (Prefix "/fixed_index", Some "PUT")] r = true →
    io_ReadAll (Body r) = Ok body → Unmarshal_AssignmentRequest X body = Ok req →
    Forall is_digest (DigestList req);
}.

(** The tables of the sizes of earlier backups list chunks that are there. *)
Definition tables_true : Prop := ∀ k x d,
  contents w0 ds !! k = Some x → HasPrefix k "backups/" = true → ¬ in_dir name k → HasSuffix k ".csjson" = true →
  is_Some (Unmarshal_sizes X (o_data x) !! d) → chunk_stored w0 ds d.

(** ** The invariant *)

(** The digests an index refers to. *)
Definition index_refers (w : W) (k d : string) : Prop :=
  ∃ x meta idx, contents w ds !! k = Some x ∧ parseIndex k (o_data x) meta = Ok idx ∧ d ∈ digests idx.
Lemma refers_index (w : W) d : refers w ds name d ↔ ∃ k, in_dir name k ∧ index_refers w k d.
Proof.
  split; [intros (k & x & meta & idx & ? & ? & ? & ?); exists k; split; [done|by exists x, meta, idx]|].
  intros (k & ? & x & meta & idx & ? & ? & ?). by exists k, x, meta, idx.
Qed.
(** An index of the snapshot has its chunks in the store, or is the one that was
    there before the session. *)
Definition indexes_ok (w : W) : Prop := ∀ k d,
  in_dir name k → index_refers w k d → chunk_stored w ds d ∨ contents w ds !! k = contents w0 ds !! k.
(** A table of sizes outside the directory of the snapshot. *)
Definition table_key (k : string) : Prop :=
  HasPrefix k "backups/" = true ∧ ¬ in_dir name k ∧ HasSuffix k ".csjson" = true.

Record archive_ok (s : Server) (w : W) : Prop := {
  ao_session : session_ok anywhere ds sn w0 s w;
  ao_known : ∀ d, is_Some (KnownChunksSizes s !! d) → chunk_stored w ds d;
  ao_digests : ∀ wid wr, Writers s !! wid = Some wr → digests_ok wr;
  ao_indexes : indexes_ok w;
  ao_tables : ∀ k, table_key k → contents w ds !! k = contents w0 ds !! k ∨ contents w ds !! k = None;
}.

(** What the calls of a session do to it: they keep the indexes of the snapshot and
    the tables of the others, or remove them. *)
Definition vital (k : string) : Prop := (in_dir name k ∧ IsIndex k = true) ∨ table_key k.
Definition archive_moves : relation W := λ w w',
  session_moves anywhere ds sn w w' ∧
  ∀ k, vital k → contents w' ds !! k = contents w ds !! k ∨ contents w' ds !! k = None.
Lemma index_refers_moves w w' k d :
  archive_moves w w' → in_dir name k → index_refers w' k d →
  index_refers w k d ∧ contents w' ds !! k = contents w ds !! k.
Proof.
  intros [_ Hk] Hin (x & meta & idx & Hx & Hp & Hd). pose proof (parseIndex_IsIndex _ _ _ _ Hp) as Hi.
  destruct (Hk k) as [Heq|Hn]; [by left| |congruence]. split; [|done]. exists x, meta, idx. by rewrite <-Heq.
Qed.
Lemma indexes_moves w w' : archive_moves w w' → indexes_ok w → indexes_ok w'.
Proof.
  intros Hm Hok k d Hin Hr. pose proof (proj1 Hm) as (_ & _ & Hl).
  destruct (index_refers_moves _ _ _ _ Hm Hin Hr) as [Hr0 ->].
  destruct (Hok _ _ Hin Hr0) as [?|?]; [left|by right]. by eapply chunk_stored_mono.
Qed.
Lemma archive_ok_stable : stable archive_ok archive_moves.
Proof.
  intros s w w' [HJ Hk Hd Hc Ht] Hm. pose proof (proj1 Hm) as (_ & _ & Hl). split.
  - eapply session_ok_stable; [exact HJ|apply Hm].
  - intros d Hs. eapply chunk_stored_mono; [exact Hl|by apply Hk].
  - done.
  - by eapply indexes_moves.
  - intros k Hk'. destruct (proj2 Hm k) as [->|]; [by right|by apply Ht|by right].
Qed.

Lemma keeps_all_archive w w' : keeps_all w w' → archive_moves w w'.
Proof. intros Hk. split; [by apply keeps_all_moves|]. intros k _. left. by apply Hk. Qed.
Lemma archive_ok_reads : stable archive_ok keeps_all.
Proof. intros s w w' HK Hk. eapply archive_ok_stable; [done|]. by apply keeps_all_archive. Qed.
Lemma own_in_dir k : in_dir name k ↔ HasPrefix k (S3Prefix sn +:+ "/") = true.
Proof. symmetry. apply in_snapshot_dir. Qed.
Lemma chunk_not_in_dir k : is_chunk k → ¬ in_dir name k.
Proof. unfold is_chunk. intros Hc [f ->]%in_dir_spec. done. Qed.
Lemma storeChunk_archive q body sc :
  chunkObjectName (cr_Digest q) = Ok (cr_ObjectName q) → effect archive_moves (storeChunk (W:=W) ds q body sc).
Proof.
  intros Hq w r w' Hr. split; [by eapply storeChunk_moves|]. intros k Hin. left.
  eapply storeChunk_effect; [exact Hr|]. right. intros ->. apply chunkObjectName_prefix in Hq.
  destruct Hin as [[Hin _]|[Hb _]]; [by eapply chunk_not_in_dir|].
  unfold is_chunk in Hq. apply HasPrefix_spec in Hq as [t Hq]. by rewrite Hq in Hb.
Qed.
(** A request of the API touches no index and no table, but for removing it. *)
Lemma written_not_vital k : written_file k → ¬ vital k.
Proof.
  intros [[q ->]%HasSuffix_spec|[q ->]%HasSuffix_spec] [[_ Hi]|(_ & _ & Ht)];
    try (apply orb_true_iff in Hi as [Ht|Ht]);
    (erewrite HasSuffix_extend in Ht; [|reflexivity|cbn; lia]); done.
Qed.
Lemma edits_archive S ds' w w' : edits ds' S w w' → archive_moves w w'.
Proof.
  intros He. split; [by eapply edits_moves|]. intros k Hv.
  destruct (He ds k) as [?|(_ & _ & [?|Hw])]; [by left|by right|]. by apply written_not_vital in Hw.
Qed.
Lemma PutObject_archive k s n o :
  IsIndex k = false → st_effect archive_moves (PutObject (W:=W) ds (S3Prefix sn +:+ "/" +:+ k) s n o).
Proof.
  intros Hk w r w' Hr. split; [eapply PutObject_moves; [apply own_key|apply own_not_chunk|exact Hr]|].
  intros k' Hv. left. eapply PutObject_effect; [exact Hr|]. right. intros ->. destruct Hv as [[_ Hi]|(_ & Hn & _)].
  - apply IsIndex_last in Hi. congruence.
  - apply Hn, own_in_dir. rewrite <-string_app_assoc. apply HasPrefix_app.
Qed.

(** A writer of the session, and one that is put back. *)
Definition writer_good (w : W) (wr : Writer) : Prop :=
  digests_ok wr ∧ ∀ d n, DynamicChunkSizes wr !! d = Some n → chunk_stored w ds d.
Lemma archive_writer s w wid wr : archive_ok s w → Writers s !! wid = Some wr → writer_good w wr.
Proof.
  intros [HJ Hk Hd _ _] Hw. split; [by eapply Hd|]. intros d n Hn.
  destruct (so_sizes _ _ _ _ _ _ HJ _ _ _ _ Hw Hn) as [?|Hs]; [done|]. by apply Hk.
Qed.
Lemma archive_writers s w wid wr cur :
  archive_ok s w → writer_good w wr → archive_ok (set_Writers (<[wid := wr]> (Writers s)) cur s) w.
Proof.
  intros [HJ Hk Hd Hc Ht] [Hwd Hws]. split; [|done| |done..].
  - apply session_ok_writers; [done|]. intros d n Hn. left. by eapply Hws.
  - cbn. intros wid' wr' [[<- <-]|[_ Hw]]%lookup_insert_Some; [done|by eapply Hd].
Qed.
End archives.

#[export] Hint Resolve archive_ok_stable : go_stable.
#[export] Hint Resolve keeps_all_archive : go_stable.

Section archive_handlers.
Context {W : Type} `{!ObjectStore W, !Platform W, !StoreView W, !FileView W}.
Context `{!ObjectStoreLaws W, !PlatformLaws W}.
Context (X : externals W) (fuel : nat).
Context (ds : string) (sn : Snapshot) (w0 : W).
#[local] Abbreviation name := (snapshot_name sn).
#[local] Abbreviation K := (archive_ok ds sn w0).
#[local] Abbreviation keeps_K m := (∀ rw s w, K s w → runs K m (mkH rw s w) (λ _ _, True)).
Implicit Types (s : Server) (w : W).

Lemma effect_archive {A} (m : io W A) : effect keeps_all m → effect (archive_moves ds sn) m.
Proof. apply effect_mono. apply keeps_all_archive. Qed.
Lemma st_effect_archive {A} (m : st W A) : st_effect keeps_all m → st_effect (archive_moves ds sn) m.
Proof. intros Hm w a w' Hr. by eapply keeps_all_archive, Hm. Qed.
#[local] Hint Resolve effect_archive st_effect_archive : go_runs.

Lemma writer_archive {A} wid rw s w (k : Writer → io (hstate Server W) A) Q :
  K s w → (∀ wr, Writers s !! wid = Some wr → writer_good ds w wr → runs K (k wr) (mkH rw s w) Q) →
  runs K (writer wid ≫= k) (mkH rw s w) Q.
Proof. intros HK Hk. unfold writer. runs_go. apply Hk; [done|]. by eapply archive_writer. Qed.
Lemma set_writer_archive wid wr rw s w :
  K s w → writer_good ds w wr → runs K (set_session (set_writer wid wr s)) (mkH rw s w) (λ _ _, True).
Proof. intros HK Hwr. apply runs_set_session; [by apply archive_writers|done]. Qed.

Lemma open_writer_archive wr :
  DynamicChunkSizes wr = ∅ → Assignments wr = ∅ → keeps_K (open_writer (W:=W) wr).
Proof.
  intros Hd Ha rw s w HK. unfold open_writer. runs_go.
  assert (writer_good ds w wr) as Hwr.
  { split; [intros o v|intros d n]; by rewrite ?Ha, ?Hd, lookup_empty. }
  assert (K (set_Writers (<[i32 (CurWriter s + 1):=wr]> (Writers s)) (i32 (CurWriter s + 1)) s) w) as HK'
    by by apply archive_writers.
  apply runs_bind, runs_set_session; [done|]. cbn [h_rw h_sess h_world]. runs_go.
Qed.
Lemma fixed_index_archive r : keeps_K (fixed_index (W:=W) r).
Proof. intros rw s w HK. unfold fixed_index. runs_go. by apply open_writer_archive. Qed.
Lemma dynamic_index_archive r : keeps_K (dynamic_index (W:=W) r).
Proof. intros rw s w HK. unfold dynamic_index. runs_go. by apply open_writer_archive. Qed.

(** *** Assigning: the digests of the request are digests *)

Lemma assign_one_archive req i :
  Forall is_digest (DigestList req) → (i < length (DigestList req))%nat → keeps_K (assign_one (W:=W) req i).
Proof.
  intros Hall [d Hd]%lookup_lt_is_Some_2 rw s w HK. unfold assign_one. rewrite (nth_lookup_Some _ _ _ _ Hd).
  pose proof (Forall_lookup_1 _ _ _ _ Hall Hd) as Hlen. unfold is_digest in Hlen.
  destruct (hex_DecodeString d) as [b err]. cbn [fst] in Hlen. apply runs_bind.
  assert (keeps_K (wr ← writer (W:=W) (Wid req);
    offset ← lift_res (from_option Ok (Panicked "index out of range") (OffsetList req !! i));
    s ← session;
    set_session (set_writer (Wid req) (set_Assignments (<[i64 offset:=b]> (Assignments wr)) wr) s))) as Hrest.
  { clear rw s w HK. intros rw s w HK. apply writer_archive; [done|]. intros wr Hw [Hdig Hs]. runs_go.
    apply set_writer_archive; [done|]. split; [|done].
    unfold digests_ok. cbn. intros o v [[_ <-]|[_ Hv]]%lookup_insert_Some; [done|by eapply Hdig]. }
  destruct err; runs_by ltac:(by apply Hrest).
Qed.
Lemma assign_all_archive req : Forall is_digest (DigestList req) → keeps_K (assign_all (W:=W) req).
Proof.
  intros Hall rw s w HK. unfold assign_all. apply runs_foldIO_in; [done|]. intros _ i [rw' s' w'] Hi HK'.
  apply assign_one_archive; [done| |done]. apply elem_of_seq in Hi. lia.
Qed.

(** A request for an assignment that is decoded, is the one the body holds. *)
Lemma read_assignment_archive r rw s w :
  K s w → runs K (read_assignment (W:=W) (Unmarshal_AssignmentRequest X) r) (mkH rw s w)
    (λ a _, ∀ req, a = Some req →
       ∃ body, io_ReadAll (Body r) = Ok body ∧ Unmarshal_AssignmentRequest X body = Ok req).
Proof.
  intros HK. unfold read_assignment.
  destruct (io_ReadAll (Body r)) as [body|e|p] eqn:Hb; cbn [mbind res_bind].
  - destruct (Unmarshal_AssignmentRequest X body) as [req|e|p] eqn:Hu; runs_go; [|done..].
    intros ? [= <-]. eauto.
  - runs_go. done.
  - runs_go. done.
Qed.
Lemma assign_archive r (k : option AssignmentRequest → io (hstate Server W) unit) :
  archive_request X r →
  on_routes [(Prefix "/dynamic_index", Some "PUT"); (Prefix "/fixed_index", Some "PUT")] r = true →
  (∀ rw s w, K s w → runs K (k None) (mkH rw s w) (λ _ _, True)) →
  (∀ req, Forall is_digest (DigestList req) → keeps_K (k (Some req))) →
  keeps_K (read_assignment (W:=W) (Unmarshal_AssignmentRequest X) r ≫= k).
Proof.
  intros Har Hr Hnone Hsome rw s w HK. apply runs_bind. eapply runs_mono; [by apply read_assignment_archive|].
  intros [req|] [rw' s' w'] HK' Hreq; [|by apply Hnone]. apply Hsome; [|done].
  destruct (Hreq _ eq_refl) as (body & Hb & Hu). by eapply (ar_assign _ _ Har).
Qed.
Lemma dynamic_assign_archive r :
  archive_request X r → keeps_K (dynamic_assign (W:=W) (Unmarshal_AssignmentRequest X) r).
Proof.
  intros Har rw s w HK. unfold dynamic_assign. do 2 runs_step.
  destruct (_ && _) eqn:Hr; [|runs_go]. apply assign_archive; try done.
  - apply andb_true_iff in Hr as [[Hu _]%andb_true_iff Hm]. unfold on_routes, route_matches. cbn. by rewrite Hu, Hm.
  - intros. runs_go.
  - intros. by apply assign_all_archive.
Qed.
Lemma fixed_assign_archive r :
  archive_request X r → keeps_K (fixed_assign (W:=W) (Unmarshal_AssignmentRequest X) r).
Proof.
  intros Har rw s w HK. unfold fixed_assign. do 2 runs_step.
  destruct (_ && _) eqn:Hr; [|runs_go]. apply assign_archive; try done.
  - apply andb_true_iff in Hr as [[Hu _]%andb_true_iff Hm]. unfold on_routes, route_matches. cbn.
    rewrite Hu, Hm. by rewrite orb_true_r.
  - intros. runs_go.
  - intros req Hreq rw1 s1 w1 HK1. runs_go.
    + apply writer_archive; [done|]. intros. runs_go.
    + apply runs_bind, runs_keeps; [|done|].
      * intros rw2 s2 w2 HK2. apply runs_foldIO; [done|]. intros ok o [rw3 s3 w3] HK3. unfold aligned_step.
        cbn [h_sess h_world] in HK3. runs_go. apply writer_archive; [done|]. intros. runs_go.
      * intros. runs_go. by apply assign_all_archive.
Qed.

(** *** Uploads *)

Lemma note_chunk_archive dynamic q rw s w :
  K s w → chunk_stored w ds (cr_Digest q) → runs K (note_chunk (W:=W) dynamic q) (mkH rw s w) (λ _ _, True).
Proof.
  intros HK Hst. unfold note_chunk. apply writer_archive; [done|]. intros wr Hw [Hdig Hs]. runs_go.
  apply set_writer_archive; [done|].
  set (wr1 := if Chunksize wr =? 0 then _ else _).
  assert (DynamicChunkSizes wr1 = DynamicChunkSizes wr ∧ Assignments wr1 = Assignments wr) as [Hd1 Ha1]
    by (unfold wr1; by destruct (_ =? _)).
  split; [intros o v; destruct dynamic; cbn; rewrite Ha1; by apply Hdig|].
  intros d n. destruct dynamic; cbn; rewrite Hd1; [|by apply Hs].
  intros [[<- _]|[_ Hd]]%lookup_insert_Some; [done|by eapply Hs].
Qed.
Lemma chunk_upload_archive r : keeps_K (chunk_upload (W:=W) First r).
Proof.
  intros rw s w HK. unfold chunk_upload. cbn [Do]. runs_go;
    match goal with Hq : parseChunkRequest _ = Ok _, Hs : SelectedDataStore s = Some _ |- _ =>
      rewrite (so_ds _ _ _ _ _ _ (ao_session _ _ _ _ _ HK)) in Hs; injection Hs as <-;
      apply parseChunkRequest_Ok in Hq as (key & enc & size & wid & Hkey & _ & Henc & _ & _ & _ & _ & _ & ->) end.
  - by apply storeChunk_archive.
  - eapply runs_mono; [apply note_chunk_archive; [done|]|].
    + match goal with H : storeChunk _ _ _ _ _ = _ |- _ =>
        apply storeChunk_ok in H; [|done]; apply stored_present in H end. by eexists.
    + intros _ [rw2 s2 w2] HK2 _. cbn in HK2. runs_go.
Qed.
Lemma blob_upload_archive r :
  archive_request X r → keeps_K (blob_upload (W:=W) r).
Proof.
  intros Har rw s w HK. unfold blob_upload. do 2 runs_step.
  destruct (_ && _) eqn:Hr; [|runs_go].
  assert (IsIndex (Query r "file-name") = false) as Hn.
  { apply (ar_blob _ _ Har). apply andb_true_iff in Hr as [Hu _]. unfold on_routes, route_matches. cbn. by rewrite Hu. }
  runs_go.
  rewrite (so_ds _ _ _ _ _ _ (ao_session _ _ _ _ _ HK)) in *. rewrite (so_snap _ _ _ _ _ _ (ao_session _ _ _ _ _ HK)) in *.
  simplify_eq. by apply PutObject_archive.
Qed.

(** *** The previous index, and the table of its sizes *)

Context (Hwf : wf_snapshot sn = true) (Htables : tables_true X ds sn w0).

Lemma wf_plain (S : Snapshot) : wf_snapshot S = true → plain (snapshot_name S).
Proof.
  intros Hs. split; [|apply snapshot_name_nonempty]. unfold wf_snapshot in Hs. reflect_bools.
  by apply snapshot_name_no_slash.
Qed.
Lemma other_time_other_dir m k :
  wf_snapshot m = true → BackupTime m ≠ BackupTime sn → in_dir (snapshot_name m) k → ¬ in_dir name k.
Proof.
  intros Hm Ht Hin Hin'. apply Ht.
  assert (snapshot_name m = name) as Heq by (eapply in_dir_unique; eauto using wf_plain).
  apply parse_name_snapshot_name in Hm. rewrite Heq, parse_name_snapshot_name in Hm by done. by injection Hm.
Qed.
Lemma tables_now s w k x d :
  K s w → contents w ds !! k = Some x → HasPrefix k "backups/" = true → ¬ in_dir name k → HasSuffix k ".csjson" = true →
  is_Some (Unmarshal_sizes X (o_data x) !! d) → chunk_stored w ds d.
Proof.
  intros HK Hx Hb Hin Hs Hd. destruct (so_moves _ _ _ _ _ _ (ao_session _ _ _ _ _ HK)) as (_ & _ & Hl).
  eapply chunk_stored_mono; [exact Hl|]. eapply Htables; [|done..|exact Hd].
  destruct (ao_tables _ _ _ _ _ HK k) as [<-|]; [done|exact Hx|congruence].
Qed.

Lemma archive_known s w m :
  K s w → (∀ d, is_Some (m !! d) → chunk_stored w ds d) → K (set_KnownChunksSizes (m ∪ KnownChunksSizes s) s) w.
Proof.
  intros [HJ Hk Hd Hc Ht] Hm. split; [by apply session_ok_known| |done..].
  cbn. intros d [?|?]%lookup_union_is_Some; auto.
Qed.
Lemma load_sizes_archive key :
  HasPrefix key "backups/" = true → ¬ in_dir name key → HasSuffix key ".csjson" = true →
  keeps_K (load_sizes (W:=W) (Unmarshal_sizes X) ds key).
Proof.
  intros Hb Hin Hsuf rw s w HK. unfold load_sizes. runs_go. apply runs_set_session; [|done].
  match goal with
  | Hg : GetObject ds key None w = (Ok ?o, ?w1), Hs : Object_Stat ?o ?w1 = (Ok _, ?w2),
    Hr : Object_Read ?o ?w2 = (?b, ?w3), Ha : io_ReadAll ?b = Ok ?data |- _ =>
      pose proof (GetObject_read _ _ _ _ _ _ _ _ Hg (Object_Stat_effect _ _ _ _ Hs) Hr) as Hd;
      apply GetObject_effect in Hg; apply Object_Stat_effect in Hs; apply Object_Read_effect in Hr;
      assert (keeps_all w w3) as Hall by (etrans; [exact Hg|]; etrans; [exact Hs|exact Hr]);
      apply archive_known; [done|]; cbn [h_world]; intros d Hin_d; unfold io_ReadAll in Ha;
      destruct (s_err b) eqn:He; [done|]; injection Ha as <-
  end.
  apply (delivers_all _ _ Hd) in He. destruct (contents w ds !! key) as [x|] eqn:Hx; [|done]. injection He as He.
  eapply (tables_now s _ key x); [eassumption| |done|done|done|by rewrite He].
  by rewrite (keeps_all_lookup _ _ _ _ Hall).
Qed.
Lemma latest_archive s1 rw s w :
  K s w → sv_Snapshot s1 = Some sn →
  runs K (latest (W:=W) s1) (mkH rw s w)
    (λ a _, ∀ m, a = inl (Some m) → wf_snapshot m = true ∧ BackupTime m ≠ BackupTime sn).
Proof.
  intros HK Hsn. unfold latest. runs_go.
  - apply effect_archive, GetLatestSnapshot_effect.
  - intros m [= ->]. simplify_eq. by match goal with H : GetLatestSnapshot _ _ _ _ = _ |- _ =>
      apply GetLatestSnapshot_Ok in H as [? [_ ?]] end.
  - done.
Qed.
Lemma previous_archive r : keeps_K (previous (W:=W) (Unmarshal_sizes X) r).
Proof.
  intros rw s w HK. unfold previous. do 2 runs_step. destruct (_ && _); [|runs_go]. apply runs_bind.
  eapply runs_mono; [apply latest_archive; [done|apply (so_snap _ _ _ _ _ _ (ao_session _ _ _ _ _ HK))]|].
  intros m [rw1 s1 w1] HK1 Hm. cbn [h_sess h_world] in HK1. unfold opened, send_object, copy_body. runs_go.
  destruct (Hm _ eq_refl) as [Hwm Htm].
  match goal with Hs : SelectedDataStore s = Some ?b |- _ =>
    rewrite (so_ds _ _ _ _ _ _ (ao_session _ _ _ _ _ HK)) in Hs; injection Hs as <- end.
  eapply runs_keeps; [|done|intros; runs_go]. apply load_sizes_archive.
  - unfold S3Prefix. rewrite !string_app_assoc. apply HasPrefix_app.
  - eapply other_time_other_dir; [exact Hwm|exact Htm|]. apply in_snapshot_dir. unfold in_snapshot.
    rewrite !string_app_assoc, <-(string_app_assoc _ "/"). apply HasPrefix_app.
  - apply HasSuffix_app.
Qed.

(** *** Closing *)

Lemma dynamic_payload_refers wr st u csum now key meta idx w d :
  foldM (dynamic_entry wr) (dynamic_header u (fst (hex_DecodeString csum)) now, ∅) (sorted_keys (Assignments wr)) = Ok st →
  length u = 16%nat → is_digest csum → writer_good ds w wr →
  parseIndex key st.1 meta = Ok idx → d ∈ digests idx → chunk_stored w ds d.
Proof.
  intros Hst Hu Hc [Hdig Hs] Hp Hd. pose proof (dynamic_loop _ _ _ _ Hst) as Hdata. cbn [fst] in Hdata.
  rewrite Hdata in Hp. apply (dynamic_file_digests wr) in Hp; [|done..]. rewrite Hp in Hd.
  apply list_elem_of_fmap in Hd as (a & -> & (e & -> & (k & -> & Hk)%list_elem_of_fmap)%list_elem_of_fmap). cbn [snd].
  destruct (dynamic_known _ _ _ _ Hst k Hk) as [n Hn]. by eapply Hs.
Qed.
(** Storing a file that refers to chunks that are there, as a whole or not at all. *)
Lemma put_archive k body opts s w r w' :
  K s w →
  (∀ key meta idx d, parseIndex key body meta = Ok idx → d ∈ digests idx → chunk_stored w ds d) →
  PutObject ds (S3Prefix sn +:+ "/" +:+ k) (Stream body None) (Z.of_nat (length body)) opts w = (r, w') → K s w'.
Proof.
  intros [HJ Hk Hd Hc Ht] Hbody Hput.
  assert (∀ others, session_moves others ds sn w w') as Hm
    by (intros others; eapply PutObject_moves; [apply own_key|apply own_not_chunk|exact Hput]).
  pose proof (Hm (λ _ _, True)) as (_ & _ & Hl). split; [by eapply session_ok_stable| |done|..].
  - intros d Hs. eapply chunk_stored_mono; [exact Hl|by apply Hk].
  - intros k' d Hin (x & meta & idx & Hx & Hp & Hdi).
    assert (contents w' ds !! k' = contents w ds !! k' ∨ ∃ y, contents w' ds !! k' = Some y ∧ o_data y = body) as [Heq|(y & Hy & <-)].
    { destruct (decide (k' = S3Prefix sn +:+ "/" +:+ k)) as [->|Hne].
      - destruct (PutObject_atomic _ _ _ _ _ _ _ _ Hput ltac:(lia)) as [Hsame|(y & Hy & Hdata)]; [by left|right].
        exists y. split; [done|]. cbn [s_bytes] in Hdata. by rewrite Nat2Z.id, take_ge in Hdata.
      - left. eapply PutObject_effect; [exact Hput|by right]. }
    + rewrite Heq in Hx |- *. destruct (Hc k' d Hin) as [?|?]; [by exists x, meta, idx|left|by right].
      by eapply chunk_stored_mono.
    + left. eapply chunk_stored_mono; [exact Hl|]. rewrite Hy in Hx. injection Hx as <-. by eapply Hbody.
  - intros k' Hk'. replace (contents w' ds !! k') with (contents w ds !! k'); [by apply Ht|]. symmetry.
    eapply PutObject_effect; [exact Hput|]. right. intros ->. destruct Hk' as (_ & Hn & _).
    apply Hn, own_in_dir. rewrite <-string_app_assoc. apply HasPrefix_app.
Qed.
Lemma dynamic_close_archive r :
  archive_request X r → keeps_K (dynamic_close (W:=W) r).
Proof.
  intros Har rw s w HK. unfold dynamic_close. do 2 runs_step. destruct (_ && _) eqn:Hr; [|runs_go].
  assert (is_digest (Query r "csum")) as Hc.
  { apply (ar_close _ _ Har). apply andb_true_iff in Hr as [[Hu _]%andb_true_iff Hm].
    unfold on_routes, route_matches. cbn. by rewrite Hu, Hm. }
  cbv zeta. runs_go. match goal with H : uuid_New w = _ |- _ => apply uuid_New_length in H as Hu end.
  pose proof (so_ds _ _ _ _ _ _ (ao_session _ _ _ _ _ HK)) as Hds.
  pose proof (so_snap _ _ _ _ _ _ (ao_session _ _ _ _ _ HK)) as Hsn. rewrite Hds, Hsn.
  apply writer_archive; [done|]. intros wr Hw [Hdig Hs]. set (wr' := set_DynamicChunkSizes _ wr).
  match goal with |- runs K _ (mkH _ s ?v) _ => assert (K s v) as HK1 by done; assert (writer_good ds v wr') as Hwr end.
  { split; [done|]. cbn. intros d n [Hd|[_ Hd]]%lookup_union_Some_raw; [by eapply (ao_known _ _ _ _ _ HK1)|by eapply Hs]. }
  pose proof (archive_writers _ _ _ _ _ (i32 (ParseInt (Query r "wid") 32).1) wr' (CurWriter s) HK1 Hwr) as HK2.
  apply runs_bind, runs_set_session; [done|]. cbn [h_rw h_sess h_world]. clear HK HK1.
  apply runs_bind, runs_lift_res; [done|]. intros st Hst.
  apply runs_bind, runs_deref; [done|]. intros _ [= <-]. apply runs_bind, runs_deref; [done|]. intros _ [= <-].
  apply runs_bind, runs_world_st_here. intros [q n] w2 Hput. cbn [h_sess h_world h_rw fst] in *.
  assert (K (set_writer (i32 (ParseInt (Query r "wid") 32).1) wr' s) w2) as HK3.
  { eapply put_archive; [exact HK2| |exact Hput]. intros key meta idx d. by eapply dynamic_payload_refers. }
  split; [done|]. destruct q as [[]| |]; runs_go.
  rewrite !string_app_assoc. apply PutObject_archive. unfold IsIndex.
  apply orb_false_iff. split; by apply HasSuffix_extend; [|cbn; lia].
Qed.

(** ** Any request, and any sequence of them *)

Lemma idle_archive rts m r :
  idle_off (W:=W) rts m → on_routes rts r = false → keeps_K (m r).
Proof. intros Hm Hr rw s w HK r' h'. rewrite (Hm r (mkH rw s w) Hr). by intros [= <- <-]. Qed.
Lemma fixed_close_archive r :
  archive_request X r → keeps_K (fixed_close (W:=W) (ReadAll_spare X) fuel r).
Proof.
  intros Har. apply (idle_archive [(Prefix "/fixed_close?", Some "POST")]); [|by apply Har].
  pose proof (session_handlers_idle (W:=W) X fuel) as Hidle.
  exact (Forall_lookup_1 _ _ 4 _ Hidle eq_refl).
Qed.
Lemma archive_reads : stable K keeps_all.
Proof. apply archive_ok_reads. Qed.
Lemma serve_server_archive r :
  archive_request X r →
  keeps_K (serve_server (W:=W) X fuel r).
Proof.
  pose proof (previous_backup_time_ok K archive_reads) as Htime. pose proof (speedtest_ok (W:=W) K) as Hspeed.
  pose proof (download_ok K archive_reads) as Hdownload. pose proof (chunk_download_ok K archive_reads) as Hchunk.
  intros Har rw s w HK. unfold serve_server.
  repeat match goal with
  | |- runs _ (?m ≫= _) _ _ => apply runs_bind, (runs_keeps _ m); [|done|intros [] ????]
  end; auto using previous_archive, fixed_index_archive, dynamic_index_archive, fixed_close_archive,
    dynamic_close_archive, dynamic_assign_archive, fixed_assign_archive, chunk_upload_archive, blob_upload_archive.
Qed.
End archive_handlers.

(** ** The session and its end *)

Section complete_backup.
Context {W : Type} `{!ObjectStore W, !Platform W, !StoreView W, !FileView W}.
Context `{!ObjectStoreLaws W, !PlatformLaws W}.
Context (X : externals W) (cfg : reports) (fuel : nat) (HX : externals_ok X).
#[local] Abbreviation serve_all := (ServeConn X cfg fuel).
#[local] Abbreviation backup := (backup_session X cfg fuel).

Lemma complete_stored (w : W) ds S :
  complete w ds (snapshot_name S) ↔ ∀ d, refers w ds (snapshot_name S) d → chunk_stored w ds d.
Proof.
  split; intros Hc d Hd; specialize (Hc d Hd).
  - destruct Hc as (ck & y & Hck & Hy). exists ck. split; [by apply chunkObjectName_inverse|by rewrite Hy].
  - destruct Hc as (ck & Hck & [y Hy]). exists ck, y. split; [by apply chunkObjectName_inverse|done].
Qed.
Lemma new_session_archive C ds S (w : W) : archive_ok ds S w (new_session C ds S) w.
Proof.
  split; [apply new_session_ok|..].
  - cbn. intros d [n Hn]. by rewrite lookup_empty in Hn.
  - cbn. intros wid wr Hw. by rewrite lookup_empty in Hw.
  - by right.
  - by left.
Qed.
Lemma archive_session_ok C ds S rs g (w : W) :
  wf_snapshot S = true → tables_true X ds S w → Forall (archive_request X) rs →
  let st := serve_all rs (start C ds S g, w) in archive_ok ds S w (ss_server st.1) st.2.
Proof.
  intros Hwf Ht Hrs st. apply (ServeConn_keeps_at X cfg fuel HX (archive_ok ds S w)).
  - apply archive_ok_reads.
  - intros s w' [HJ Hk Hd Hr Htab]. split; [by apply session_ok_finished|done..].
  - intros r rw s w' Hr. apply serve_server_archive; [done..|]. rewrite Forall_forall in Hrs. by apply Hrs.
  - intros pre r post te ds' action _ _ _ s w1 w2 HK He. eapply archive_ok_stable; [exact HK|]. by eapply edits_archive.
  - apply new_session_archive.
Qed.

(** C7. A backup of archives is complete: whatever a client requests besides closing
    fixed indexes - of the session or, with a ticket, of the API - in whatever order
    and whatever fails, when the session has ended, finished or aborted, every digest
    of every index in the directory of its snapshot has its chunk in the store, except
    for an index that is still the one which was there before the session; so the
    snapshot is complete if it was so before, as it is when it is new.  The name of
    the snapshot is well formed, the client sends digests where digests are due and
    names no blob like an index, and the tables of sizes beside the indexes of other
    backups list chunks that are there. *)
Theorem archive_backup_complete C ds S rs g (w : W) r w1
    (Hwf : wf_snapshot S = true) (Htables : tables_true X ds S w)
    (Hrs : Forall (archive_request X) rs)
    (Hback : backup C ds S rs g w = (r, w1)) :
  (∀ k d, in_dir (snapshot_name S) k → index_refers ds w1 k d →
     chunk_stored w1 ds d ∨ contents w1 ds !! k = contents w ds !! k) ∧
  (complete w ds (snapshot_name S) → complete w1 ds (snapshot_name S)).
Proof.
  pose proof (archive_session_ok C ds S rs g w Hwf Htables Hrs) as HK.
  apply (backup_session_run X cfg fuel HX) in Hback.
  destruct (serve_all rs _) as [st w2]. cbn [fst snd] in *. destruct Hback as ([_ _ (_ & _ & Hl) _] & _ & Hs & _).
  assert (keeps_present is_chunk w w1) as Hl1 by by eapply chunks_outlive.
  assert (keeps_present is_chunk w2 w1) as Hl2 by by eapply chunks_outlive.
  assert (∀ k d, in_dir (snapshot_name S) k → index_refers ds w1 k d →
    chunk_stored w1 ds d ∨ contents w1 ds !! k = contents w ds !! k) as Hall.
  { intros k d Hin (x & meta & idx & Hx & Hp & Hd).
    assert (contents w1 ds !! k = contents w2 ds !! k) as Heq by (destruct (Hs ds k) as [|[_ Hn]]; congruence).
    destruct (ao_indexes _ _ _ _ _ HK k d Hin) as [Hc|Hc]; [exists x, meta, idx; by rewrite <-Heq|left|right; congruence].
    by eapply chunk_stored_mono. }
  split; [exact Hall|]. rewrite !complete_stored. intros Hc d Hr.
  pose proof Hr as (k & Hin & Hi)%refers_index. destruct (Hall _ _ Hin Hi) as [?|Heq]; [done|].
  eapply chunk_stored_mono; [exact Hl1|]. apply Hc, refers_index. exists k. split; [done|].
  destruct Hi as (x & meta & idx & Hx & ? & ?). exists x, meta, idx. by rewrite <-Heq.
Qed.
End complete_backup.

(** ** The next backup of the container

    It asks for the previous index, uploads nothing, since nothing has changed, and
    closes an index over the chunks the table of the previous one lists. *)

Definition next_snapshot : Snapshot := mkSnapshot "100" 2000 "host" [] false "" "" false 0.
Definition next_sizes (bs : list byte) : gmap string Z :=
  match bs with
  | [] => ∅
  | _ => <[hex_EncodeToString (digest_of 1) := 10]> {[hex_EncodeToString (digest_of 2) := 20]}
  end.
Definition next_requests : list Request :=
  [request "GET" "/previous?archive-name=root.pxar.didx" [("archive-name", "root.pxar.didx")] "";
   request "POST" "/dynamic_index?archive-name=root.pxar.didx" [("archive-name", "root.pxar.didx")] "";
   request "PUT" "/dynamic_index" [] "{...}"; session_close; request "POST" "/finish" [] ""].
Definition next_externals : externals mem := example_externals session_assignment next_sizes.
Definition next_backup : res admin * mem :=
  backup_session next_externals all_reports 5 session_ticket "pbs" next_snapshot
    next_requests session_process (snd story_backup).
Lemma next_backup_run :
  backup_session next_externals all_reports 5 session_ticket "pbs" next_snapshot
    next_requests session_process (snd story_backup) = (fst next_backup, snd next_backup).
Proof. unfold next_backup. apply surjective_pairing. Qed.
(** The index was stored, and it refers to both chunks. *)
Example next_index :
  (λ x, parseIndex "backups/100|2000|host/root.pxar.didx" (o_data x) dynamic_csum) <$>
    contents (snd next_backup) "pbs" !! "backups/100|2000|host/root.pxar.didx" = Some (Ok story_parsed).
Proof. vm_compute. reflexivity. Qed.

Lemma story_chunk_stored n : (n =? 1) || (n =? 2) = true →
  chunk_stored (snd story_backup) "pbs" (hex_EncodeToString (digest_of n)).
Proof.
  intros Hn. exists (chunk_key_of n). split; [|by apply story_chunks].
  by apply chunkObjectName_inverse, example_chunk_key.
Qed.
Lemma next_tables : tables_true next_externals "pbs" next_snapshot (snd story_backup).
Proof.
  intros k x d _ _ _ _ [n Hn]. cbn in Hn. unfold next_sizes in Hn. destruct (o_data x); [by rewrite lookup_empty in Hn|].
  apply lookup_insert_Some in Hn as [[<- _]|[_ Hn]]; [by apply story_chunk_stored|].
  apply lookup_singleton_Some in Hn as [<- _]. by apply story_chunk_stored.
Qed.
Ltac asked := let Hr := fresh in intros Hr; first [by vm_compute in Hr | by vm_compute].
Lemma next_requests_archive : Forall (archive_request next_externals) next_requests.
Proof.
  unfold next_requests. repeat (apply Forall_cons_2; [|]); [..|apply Forall_nil_2];
    (split; [by vm_compute|asked|asked|intros body req _ _ [= <-]; repeat constructor]).
Qed.
(** Nothing of the next snapshot is there yet. *)
Lemma next_fresh : complete (snd story_backup) "pbs" (snapshot_name next_snapshot).
Proof.
  intros d (k & x & meta & idx & Hin & Hx & _). exfalso. pose proof story_keys as Hkeys. revert Hkeys Hx.
  generalize (contents (snd story_backup) "pbs"). intros objs Hkeys Hx.
  pose proof (among_keys _ _ _ _ Hkeys Hx) as Hk. rewrite !elem_of_cons in Hk.
  destruct Hk as [->|[->|[->|[->|Hk]]]]; [by vm_compute in Hin..|by apply elem_of_nil in Hk].
Qed.
Lemma archive_backup_complete_witness : complete (snd next_backup) "pbs" (snapshot_name next_snapshot).
Proof.
  apply (archive_backup_complete next_externals all_reports 5 (example_externals_ok _ _) session_ticket "pbs" next_snapshot
           next_requests session_process (snd story_backup) (fst next_backup) (snd next_backup)).
  - reflexivity.
  - apply next_tables.
  - apply next_requests_archive.
  - exact next_backup_run.
  - apply next_fresh.
Defined.
